(* ===== verification/_CoqProject ===== *)
-Q . S2P
Prelude.v
Slots.v
GoStrings.v
GoErrors.v
GoNet.v
GoText.v
KsrModel.v
Utils.v
Rules.v
Md5.v
SessionRules.v
SessionCache.v
VppTcpRenderer.v
SessionCombine.v
SessionConvert.v
AclCache.v
AclCacheProofs.v
AclRenderer.v
AclRendererProofs.v
AclResync.v
Configurator.v
SubtractSubnet.v
ConfiguratorRules.v
RuleIds.v
ConfiguratorProofs.v
ConfiguratorCommit.v
Ipam.v
IpamProofs.v
BinApi.v
NodeId.v
NodeIdProofs.v
Codecs.v
PolicyCache.v
PolicyCacheEvents.v
PolicyCacheProofs.v
PolicyCacheSelect.v
Processor.v
ProcessorProofs.v
ProcessorExamples.v
PolicyPlugin.v
AclSemantics.v
AclPipeline.v
PolicyStack.v
PolicyStackExamples.v
Reflectors.v
ReflectorsProofs.v
KsrPlugin.v
KsrStack.v
KsrStackExamples.v
KvdbProxy.v
CniModel.v
ContainerIdx.v
NodeRoutes.v
CniServer.v
CniServerProofs.v
CniClient.v
CniExamples.v
CniWire.v
ContivPlugin.v
ContivExamples.v
CriShim.v
Injector.v
InjectorProofs.v
InjectorLines.v
InjectorPlaces.v
InjectorExamples.v
InjectorMain.v
