(* ===== verification/Prelude.v ===== *)
(** * Contiv-VPP: a verification library

    Contiv-VPP connects the pods of a Kubernetes cluster through VPP. The Go code
    under src/ has two halves. The _contiv plugin_ of every node allocates the ID
    of the node in etcd, computes the networks of the node and hands out pod
    addresses. The _policy plugin_ follows the pods, namespaces and network
    policies that the Kubernetes state reflector (KSR) publishes in the data
    store, and turns the policies into rules of VPP: the cache keeps the state of
    Kubernetes, the processor finds the affected pods and translates their
    policies, the configurator generates lists of rules per pod, and two
    renderers install them, as ACLs of interfaces and as rules of VPP's session
    layer.

    ** Files and components

    - [Prelude], [Slots], [GoStrings], [GoErrors], [GoNet], [GoText], [Md5]: what
      the source uses of Go and of its standard library: machine integers,
      slices with nil slots, [sort.Search], strings, the package [net] (addresses,
      masks, networks, parsing and printing), [strconv], [crypto/md5], errors; the
      tactics, hints and generic lemmas of the library.
    - [KsrModel]: plugins/ksr/model (messages, identifiers, keys); [Utils]:
      plugins/policy/utils; [Rules]: plugins/policy/renderer/api.go.
    - [SessionRules], [SessionCache], [SessionCombine], [SessionConvert]:
      plugins/policy/renderer/vpptcp/cache (ordered lists, transactions, the
      combined ingress rules of the pods of a host, the conversion to session
      rules); [VppTcpRenderer]: vpptcp_renderer.go.
    - [AclCache], [AclCacheProofs]: plugins/policy/renderer/acl/cache with its
      heap of shared rule lists; [AclRenderer], [AclRendererProofs], [AclResync]:
      acl_renderer.go.
    - [Configurator], [SubtractSubnet], [ConfiguratorRules], [RuleIds],
      [ConfiguratorProofs], [ConfiguratorCommit]: plugins/policy/configurator.
    - [PolicyCache], [PolicyCacheEvents], [PolicyCacheProofs],
      [PolicyCacheSelect]: plugins/policy/cache and its three indexes.
    - [Processor], [ProcessorProofs], [ProcessorExamples]:
      plugins/policy/processor; [PolicyPlugin]: plugins/policy.
    - [AclSemantics], [AclPipeline], [PolicyStack], [PolicyStackExamples]: the
      composition of cache, processor, configurator and ACL renderer, from the
      events of the data store to the decisions of the ACLs in VPP; [KsrStack],
      [KsrStackExamples]: with KSR and the data store in front, from the objects of
      the Kubernetes API.
    - [BinApi], [CniWire]: bin_api/session and bin_api/stn with the codec of GoVPP,
      and the requests of the VPPTCP renderer and of the CNI server as bytes.
    - [Ipam], [IpamProofs]: plugins/contiv/ipam; [NodeId], [NodeIdProofs]:
      plugins/contiv/node_id_allocator.go.
    - [Reflectors], [ReflectorsProofs]: the reflectors of plugins/ksr, which write
      the pods, policies and namespaces of Kubernetes to the data store;
      [KsrPlugin]: plugin_impl_ksr.go, the life cycle of the plugin with the
      goroutines of the reflectors.
    - [KvdbProxy]: plugins/kvdbproxy and [persistChanges] of the CNI server.
    - [CniModel]: requests, replies and the objects built in pod.go and host.go;
      [ContainerIdx]: plugins/contiv/containeridx and the lookups of
      plugin_impl_contiv.go; [NodeRoutes]: node.go.
    - [CniServer], [CniServerProofs], [CniExamples]: remote_cni_server.go with
      pod.go, host.go and linux_calls.go, in a monad with state, errors and panics;
      [CniClient]: cmd/contiv-cni, the executable that calls the server;
      [ContivPlugin], [ContivExamples]: plugin_impl_contiv.go, the life of the
      plugin and the cluster of the plugins of all nodes.
    - [Injector], [InjectorProofs], [InjectorLines], [InjectorPlaces],
      [InjectorExamples]: cmd/tools/ldpreload-label-injector, with the matching of
      its regular expressions; [InjectorMain]: its command line.
    - [CriShim]: pkg/manager, the server between the kubelet and Docker.
    - [Codecs]: the round trips and orders of all of these.

    Definitions carry the names of the source. An operation that may panic (nil
    dereference, index out of range, failed type assertion) returns an option,
    [None] is the panic; errors are values of [result] or of an option; state is
    passed explicitly, and where several values share a mutable object (the rule
    lists of the ACL cache, the loop variable of the configurator) the sharing is
    in the model. The order in which Go visits a map is given by [RangeOracle]:
    theorems hold for every order. Goroutines that work under a lock are
    sequences of the protected bodies ([PolicyPlugin]), nodes that share etcd are
    a step relation that interleaves their accesses ([NodeId]), and so are the
    goroutines of KSR ([KsrPlugin]).

    Code outside src/ is a class with the documented behaviour as laws:
    [VppSession] (the session layer of VPP behind a buffered channel),
    [AclAgent] (the VPP agent and its dump of ACLs), [Etcd], [NamedMapping]
    (idxmap of cn-infra), [KeyProtoValWriter] (the store KSR writes to),
    [KvsyncDelegate] (the store behind kvdbproxy), [VppAcl] (how VPP evaluates
    ACLs), [VppMatch] (what a session rule of VPP matches), [VppAgent] and [CniEnv] (the agent, VPP and Linux as the CNI server calls them), [DockerService] (the Docker
    shim of Kubernetes), [Regexp] (patterns that contain a flag). Classes
    also state what one component promises to the next: [PolicyCacheWatcher],
    [PodLookup], [PolicyRenderer]. Each is instantiated in the witnesses.

    ** What is proved

    - Refinement of each stateful component: the session-rule cache and the
      VPPTCP renderer ([session_txn_correct], [vpptcp_commit_sync]), the ACL cache
      and the ACL renderer with and without resync ([acl_txn_refines],
      [acl_commit_sync], [acl_resync_sync]), the policy cache
      ([cache_updates_refine], [policies_of_pod_exact]).
    - Meaning: the rules the configurator generates decide every packet as the
      policies do ([generateRules_correct], [ipblock_exact]); the ingress rules
      combined for a pod of a host permit to another one what both sides allow
      ([combined_ingress_correct]), and the session rules made of a rule match what
      it matches ([convert_ingress_matches]); the composition of cache, processor and configurator decides as the Kubernetes
      policies do ([Process_correct], [policy_events_correct],
      [UpdatePod_correct]).
    - End to end: after any sequence of events of the informers the ACLs on the
      interfaces of the pods decide as the network policies that exist in
      Kubernetes do ([kubernetes_enforced]); the same for any data store that
      delivers the events ([policies_enforced]). The documentation of policies
      excepts the traffic of the pod's own node, the code does not; both theorems
      say for which packets the two agree.
    - Events, order and errors: no event is lost while a resync is delayed
      ([plugin_events_in_order]), all renderers run and errors are reported
      ([commit_runs_all_renderers]).
    - Allocation: node IDs are unique under every interleaving
      ([node_ids_unique]), pod networks are disjoint, addresses are handed out
      once, allocation terminates ([NextPodIP_correct], [getID_terminates]); in a
      cluster whose plugins start, serve, close and crash in any interleaving the
      pods connected to running nodes since their plugins started have different
      addresses ([cluster_addresses_unique]).
    - From Kubernetes to the policy cache: the conversion keeps the meaning of
      policies, and after every sequence of events the cache holds the converted
      form of the objects that exist ([conversion_keeps_meaning],
      [cache_follows_kubernetes]); nothing is written before AfterInit or after
      Close, and Close returns, under every interleaving ([ksr_lifecycle]).
    - Nodes and containers: the routes in VPP follow the values of the events about
      nodes ([routes_follow_events]), renderers find the interface of a pod
      ([pod_lookups_exact]), changes the agent writes itself are not echoed and
      those of others are delivered ([own_changes_filtered],
      [changes_delivered]).
    - CNI: an Add waits for the vswitch, does not panic when VPP is connected, and
      ends with a connected and registered pod or with an error and the index
      unchanged ([cni_add_correct]); after every sequence of requests the connected
      pods have different addresses of the pod network ([pod_addresses_unique]); the
      executable prints the address the IPAM has taken ([cni_client_reports]).
    - The label injector: the tool only inserts and changes no file but its output
      ([injector_tool]), and in texts of
      lines with the supported layout it inserts at the path, with the right
      indentation, and leaves the other lines as they are ([labels_inserted],
      [env_inserted]).
    - The CRI shim: a container of a pod with the label of LD_PRELOAD gets the ID
      and the secret with which the CNI server creates the application namespace
      of the pod in VPP ([ldpreload_attaches]).
    - Round trips, orders and bounds at the width of the machine integers
      ([Codecs]); session rules survive the encoding of the binary API
      ([session_rules_on_wire]).

    Examples named in the findings of the manifest evaluate the model on inputs
    where the code does not do what it means to; the theorems state as hypotheses
    that these inputs are excluded (selectors of one or two labels, at most one
    IP block in a match, known pods).

    ** Bounds and fuel

    Loops that are not structural have fuel that is proved to be enough:
    [search_loop] of [sort.Search] runs at most as many rounds as there are
    elements, [updateRules_loop] as many as there are requests, [free_seq] of the
    IPAM one round per assigned address, the gateway and the result;
    [generate_suffix] draws from a list of random suffixes that the theorems assume
    to be long enough. Node IDs are limited to 255 by the conversion to [uint8].

    ** What is not modelled

    Generated protobuf code, logging, mocks, start-up and dependency injection (the
    flavors, the main functions of the agents, the creation of the Docker shim, the
    informers of client-go) are not modelled: they have no state of their own or
    only call other programs. *)

From Stdlib Require Import ZArith Lia Ascii String.
From stdpp Require Import prelude gmap strings list sorting fin_maps.

Declare Scope contiv_scope.
Delimit Scope contiv_scope with contiv.
Open Scope contiv_scope.

(** ** Machine integers *)

Definition wrap (w z : Z) : Z := (z mod 2 ^ w)%Z.

Abbreviation u8 := (wrap 8).
Abbreviation u16 := (wrap 16).
Abbreviation u32 := (wrap 32).

(** ** Run-time panics

    Go code that may dereference a nil pointer or index a slice out of range
    is modelled in the option monad; [None] is the panic. *)

Definition panic {A} : option A := None.

(** [l\[i\]] of a slice of pointers, then the dereference: [None] when the
    index is out of range or the slot holds nil. *)
Definition deref {A} (l : list (option A)) (i : nat) : option A :=
  mjoin (l !! i).

(** [copy(l\[dst:\], l\[src:\])] of the Go runtime (a memmove: it copies the
    smaller of the two lengths, overlapping ranges behave as if buffered). *)
Definition slice_move {A} (l : list A) (dst src : nat) : list A :=
  let n := (length l - dst) `min` (length l - src) in
  take dst l ++ take n (drop src l) ++ drop (dst + n) l.

(** [copy(dst\[:\], src)] into a fixed-size array. *)
Definition copy_into {A} (dst src : list A) : list A :=
  take (length dst) src ++ drop (length src) dst.

(** A loop over a slice whose body may panic. *)
Fixpoint foldM {A B} (f : A → B → option A) (a : A) (l : list B) : option A :=
  match l with
  | [] => Some a
  | b :: l => a ← f a b; foldM f a l
  end.

(** ** [sort.Search] of the Go standard library

    Binary search for the smallest index in [0, n) at which [f] is true; the
    predicate may panic. The loop halves [j - i], so [n] rounds are enough. *)
Fixpoint search_loop (fuel : nat) (f : nat → option bool) (i j : nat) : option nat :=
  match fuel with
  | O => Some i
  | S fuel =>
    if i <? j then
      let h := i + (j - i) / 2 in
      b ← f h;
      if b : bool then search_loop fuel f i h else search_loop fuel f (S h) j
    else Some i
  end.

Definition sort_Search (n : nat) (f : nat → option bool) : option nat :=
  search_loop n f 0 n.

(** ** Three-way comparison

    The Go comparison functions return -1, 0 or 1; the model uses
    [comparison] ([Lt], [Eq], [Gt]). *)

Definition cmp_then (c d : comparison) : comparison :=
  match c with Eq => d | _ => c end.

Notation "c >>? d" := (cmp_then c d) (at level 60, right associativity) : contiv_scope.

Class TotalCompare {A} (cmp : A → A → comparison) : Prop := {
  cmp_eq : ∀ x y, cmp x y = Eq ↔ x = y;
  cmp_opp : ∀ x y, cmp y x = CompOpp (cmp x y);
  cmp_trans : ∀ x y z, cmp x y = Lt → cmp y z = Lt → cmp x z = Lt
}.

Arguments cmp_eq {A} cmp {_} x y.
Arguments cmp_opp {A} cmp {_} x y.
Arguments cmp_trans {A} cmp {_} x y z.

Definition cmp_on {A B} (f : A → B) (cmp : B → B → comparison) (x y : A) : comparison :=
  cmp (f x) (f y).

Definition cmp_pair {A B} (cA : A → A → comparison) (cB : B → B → comparison)
    (x y : A * B) : comparison :=
  cA x.1 y.1 >>? cB x.2 y.2.

(** Lexicographic order of lists, a proper prefix being smaller; this is
    [bytes.Compare] on lists of byte values. *)
Fixpoint cmp_list {A} (c : A → A → comparison) (l k : list A) : comparison :=
  match l, k with
  | [], [] => Eq
  | [], _ :: _ => Lt
  | _ :: _, [] => Gt
  | x :: l, y :: k => c x y >>? cmp_list c l k
  end.

Definition bytes_Compare : list Z → list Z → comparison := cmp_list Z.compare.

(** Go compares strings bytewise. *)
Definition string_codes (s : string) : list N := N_of_ascii <$> String.list_ascii_of_string s.
Definition string_Compare (s t : string) : comparison :=
  cmp_list N.compare (string_codes s) (string_codes t).

(** ** Iteration over Go maps

    The iteration order of a Go map is unspecified and may differ between two
    loops over the same map. A [RangeOracle] fixes the order of every loop:
    [go_range site m] is the sequence of entries visited by the loop [site],
    a number of the loop followed by what distinguishes its executions.
    Every theorem is stated for an arbitrary oracle. *)
Class RangeOracle := {
  go_range : ∀ {K} `{Countable K} {V}, list Z → gmap K V → list (K * V);
  go_range_perm : ∀ {K} `{Countable K} {V} site (m : gmap K V),
    go_range site m ≡ₚ map_to_list m
}.

Definition range_keys `{RangeOracle} {K} `{Countable K} {V} (site : list Z) (m : gmap K V) : list K :=
  (go_range site m).*1.

(** The elements of a Go set ([map\[K\]struct{}]) in the order of loop [site]. *)
Definition range_set `{RangeOracle} {K} `{Countable K} (site : list Z) (s : gset K) : list K :=
  range_keys site (gset_to_gmap () s).

(** An oracle for evaluating the model: entries in the order of [map_to_list]. *)
Definition canonical_order : RangeOracle :=
  {| go_range := λ K _ _ V _ m, map_to_list m; go_range_perm := λ K _ _ V _ m, reflexivity _ |}.

(** ** Automation *)

Create HintDb contiv.
Create Rewrite HintDb contiv.

(** Splits a monadic hypothesis [x ← m; k = Some r] into its steps. *)
Ltac inv_bind :=
  repeat match goal with
  | H : (_ ≫= _) = Some _ |- _ => apply bind_Some in H; destruct H as (? & ? & ?)
  | H : Some _ = Some _ |- _ => injection H as H; try subst
  | H : mret _ = Some _ |- _ => injection H as H; try subst
  | H : None = Some _ |- _ => discriminate H
  end.

(** Case analysis on every [match]/[if] scrutinee of the goal. *)
Ltac destruct_matches :=
  repeat match goal with
  | |- context [match ?x with _ => _ end] => destruct x eqn:?
  end.

(** Equality of two boolean tests on [nat] or [Z]. *)
Ltac bool_lia :=
  apply Bool.eq_iff_eq_true;
  rewrite ?andb_true_iff, ?orb_true_iff, ?negb_true_iff,
    ?Nat.ltb_lt, ?Nat.leb_le, ?Nat.eqb_eq, ?Nat.ltb_ge,
    ?Z.ltb_lt, ?Z.leb_le, ?Z.eqb_eq, ?Z.ltb_ge; lia.

(** ** Lemmas *)

Lemma cmp_then_Eq c d : c >>? d = Eq ↔ c = Eq ∧ d = Eq.
Proof. destruct c, d; simpl; naive_solver. Qed.

Lemma cmp_then_Lt c d : c >>? d = Lt ↔ c = Lt ∨ (c = Eq ∧ d = Lt).
Proof. destruct c, d; simpl; naive_solver. Qed.

Lemma cmp_then_opp c d : CompOpp (c >>? d) = CompOpp c >>? CompOpp d.
Proof. by destruct c, d. Qed.

Lemma cmp_then_assoc c d e : (c >>? d) >>? e = c >>? (d >>? e).
Proof. by destruct c. Qed.

#[global] Instance cmp_then_right_id : RightId (=) Eq cmp_then.
Proof. by intros []. Qed.

Section total_compare.
Context {A} (cmp : A → A → comparison) `{!TotalCompare cmp}.

Lemma cmp_refl x : cmp x x = Eq.
Proof. by apply cmp_eq. Qed.

Lemma cmp_lt_gt x y : cmp x y = Lt ↔ cmp y x = Gt.
Proof. rewrite (cmp_opp cmp x y). destruct (cmp x y); simpl; naive_solver. Qed.

Lemma cmp_lt_irrefl x : cmp x x ≠ Lt.
Proof. by rewrite cmp_refl. Qed.
End total_compare.

#[global] Instance cmp_on_total {A B} (f : A → B) `{!Inj (=) (=) f} (c : B → B → comparison)
  `{!TotalCompare c} : TotalCompare (cmp_on f c).
Proof.
  unfold cmp_on. split; intros.
  - rewrite (cmp_eq c). split; [apply (inj f)|by intros ->].
  - apply (cmp_opp c).
  - by eapply (cmp_trans c).
Qed.

#[global] Instance cmp_pair_total {A B} (cA : A → A → comparison) (cB : B → B → comparison)
  `{!TotalCompare cA, !TotalCompare cB} : TotalCompare (cmp_pair cA cB).
Proof.
  unfold cmp_pair. split.
  - intros [a b] [a' b']; simpl. rewrite cmp_then_Eq, (cmp_eq cA), (cmp_eq cB). naive_solver.
  - intros [a b] [a' b']; simpl. by rewrite cmp_then_opp, <-(cmp_opp cA), <-(cmp_opp cB).
  - intros [a b] [a' b'] [a'' b'']; simpl. rewrite !cmp_then_Lt.
    intros [H|[H%(cmp_eq cA) ?]] [H'|[H'%(cmp_eq cA) ?]]; subst;
      [left; by eapply (cmp_trans cA)|auto..|].
    right. split; [by apply cmp_refl|by eapply (cmp_trans cB)].
Qed.

#[global] Instance cmp_list_total {A} (c : A → A → comparison) `{!TotalCompare c} :
  TotalCompare (cmp_list c).
Proof.
  split.
  - induction x as [|a l IH]; intros [|b k]; simpl; [done..|].
    rewrite cmp_then_Eq, (cmp_eq c), IH. naive_solver.
  - induction x as [|a l IH]; intros [|b k]; simpl; [done..|].
    by rewrite cmp_then_opp, <-IH, <-(cmp_opp c).
  - induction x as [|a l IH]; intros [|b k] [|d m]; simpl; try done.
    rewrite !cmp_then_Lt.
    intros [H|[H%(cmp_eq c) ?]] [H'|[H'%(cmp_eq c) ?]]; subst;
      [left; by eapply (cmp_trans c)|auto..|].
    right. split; [by apply cmp_refl|by eapply IH].
Qed.

#[global] Instance Z_compare_total : TotalCompare Z.compare.
Proof.
  split; [apply Z.compare_eq_iff|apply Z.compare_antisym|].
  intros x y z. rewrite !Z.compare_lt_iff. lia.
Qed.

#[global] Instance N_compare_total : TotalCompare N.compare.
Proof.
  split; [apply N.compare_eq_iff|intros; apply N.compare_antisym|].
  intros x y z. rewrite !N.compare_lt_iff. lia.
Qed.

#[global] Instance bytes_Compare_total : TotalCompare bytes_Compare := cmp_list_total _.

#[global] Instance string_codes_inj : Inj (=) (=) string_codes.
Proof.
  intros s t H. unfold string_codes in H.
  assert (Inj (=) (=) N_of_ascii).
  { intros a b Hab. rewrite <-(ascii_N_embedding a), <-(ascii_N_embedding b). by f_equal. }
  apply (inj (fmap N_of_ascii)) in H.
  rewrite <-(String.string_of_list_ascii_of_string s), H.
  apply String.string_of_list_ascii_of_string.
Qed.

#[global] Instance string_Compare_total : TotalCompare string_Compare := cmp_on_total string_codes _.

(** *** Binary search *)

Section search.
Context (f : nat → option bool) (g : nat → bool) (n : nat).
Hypothesis f_total : ∀ i, i < n → f i = Some (g i).
Hypothesis g_mono : ∀ i j, i ≤ j → j < n → g i = true → g j = true.

Lemma search_loop_spec fuel i j :
  i ≤ j → j ≤ n → j - i ≤ fuel →
  (∀ k, k < i → g k = false) → (∀ k, j ≤ k → k < n → g k = true) →
  ∃ r, search_loop fuel f i j = Some r ∧ r ≤ n ∧
    (∀ k, k < r → g k = false) ∧ (∀ k, r ≤ k → k < n → g k = true).
Proof.
  revert i j. induction fuel as [|fuel IH]; intros i j Hij Hjn Hf Hlo Hhi; cbn [search_loop].
  { exists i. repeat split; [lia|done|]. intros k ??. apply Hhi; lia. }
  destruct (Nat.ltb_spec i j) as [Hlt|Hge]; [|].
  - assert ((j - i) / 2 < j - i) by (apply Nat.div_lt; lia).
    assert (i ≤ i + (j - i) / 2 < j) as Hh by lia.
    generalize dependent (i + (j - i) / 2). intros h Hh.
    rewrite f_total by lia. simpl. destruct (g h) eqn:Hg.
    + apply IH; [lia..|done|]. intros k ??. eapply (g_mono h); [lia|lia|done].
    + apply IH; [lia..| |done]. intros k ?. destruct (g k) eqn:Hk; [|done].
      rewrite (g_mono k h) in Hg; [done|lia|lia|done].
  - exists i. repeat split; [lia|done|]. intros k ??. apply Hhi; lia.
Qed.

(** [sort.Search] returns the boundary of a monotone predicate. *)
Lemma sort_Search_spec :
  ∃ r, sort_Search n f = Some r ∧ r ≤ n ∧
    (∀ k, k < r → g k = false) ∧ (∀ k, r ≤ k → k < n → g k = true).
Proof. apply search_loop_spec; [lia..|intros; lia|intros; lia]. Qed.
End search.

(** *** Range loops *)

Lemma go_range_lookup `{RangeOracle} {K} `{Countable K} {V} site (m : gmap K V) k v :
  (k, v) ∈ go_range site m ↔ m !! k = Some v.
Proof. by rewrite go_range_perm, elem_of_map_to_list. Qed.

Lemma go_range_empty `{RangeOracle} {K} `{Countable K} {V} site : go_range site (∅ : gmap K V) = [].
Proof. apply Permutation_nil. by rewrite go_range_perm, map_to_list_empty. Qed.

Lemma range_keys_NoDup `{RangeOracle} {K} `{Countable K} {V} site (m : gmap K V) :
  NoDup (range_keys site m).
Proof. unfold range_keys. rewrite go_range_perm. apply NoDup_fst_map_to_list. Qed.

Lemma elem_of_range_keys `{RangeOracle} {K} `{Countable K} {V} site (m : gmap K V) k :
  k ∈ range_keys site m ↔ is_Some (m !! k).
Proof.
  unfold range_keys. rewrite list_elem_of_fmap. split.
  - intros ([k' v] & -> & ?%go_range_lookup). eauto.
  - intros [v ?%(go_range_lookup site)]. by exists (k, v).
Qed.

Lemma elem_of_range_set `{RangeOracle} {K} `{Countable K} site (s : gset K) k :
  k ∈ range_set site s ↔ k ∈ s.
Proof.
  unfold range_set. rewrite elem_of_range_keys, lookup_gset_to_gmap.
  unfold is_Some. case_guard; naive_solver.
Qed.

(** *** Loops that may panic *)

(** An invariant indexed by the rest of the loop carries through [foldM]. *)
Lemma foldM_inv {A B} (f : A → B → option A) (I : list B → A → Prop) a l :
  I l a →
  (∀ b l a, I (b :: l) a → ∃ a', f a b = Some a' ∧ I l a') →
  ∃ a', foldM f a l = Some a' ∧ I [] a'.
Proof.
  intros Ha Hstep. revert a Ha. induction l as [|b l IH]; intros a Ha; simpl; [by exists a|].
  destruct (Hstep b l a Ha) as (a' & -> & Ha'). simpl. by apply IH.
Qed.

Lemma foldM_app {A B} (f : A → B → option A) a l k :
  foldM f a (l ++ k) = (a ← foldM f a l; foldM f a k).
Proof. revert a. induction l as [|b l IH]; intros a; simpl; [done|]. destruct (f a b); simpl; auto. Qed.

Lemma option_bind_assoc_pair {A B C} (m : option A) (f : A → option B) (g : B → option C) :
  (x ← m; y ← f x; g y) = (y ← (x ← m; f x); g y).
Proof. by destruct m. Qed.

(** *** Boolean list tests *)

Lemma filter_all {A} (P : A → Prop) `{!∀ x, Decision (P x)} (l : list A) : Forall P l → filter P l = l.
Proof. induction 1 as [|x l Hx _ IH]; [done|]. by rewrite filter_cons_True, IH. Qed.

Lemma existsb_ext {A} (f g : A → bool) l : (∀ x, f x = g x) → existsb f l = existsb g l.
Proof. intros Hfg. induction l as [|x l IH]; simpl; [done|]. by rewrite Hfg, IH. Qed.
