(* ===== verification/Slots.v ===== *)
(** * Ordered pointer arrays

    [SessionRuleList] (plugins/policy/renderer/vpptcp/cache/cache_impl.go) and
    [ContivRuleLists] (plugins/policy/renderer/acl/cache/cache_impl.go) both keep
    a slice of pointers together with the number of used slots: the used slots
    come first, the rest are nil. This file has the slice manipulation the two
    share (insertion and removal at an index), the abstraction to a plain list,
    and binary search over an ordered array. *)

From S2P Require Import Prelude.
From Stdlib Require Import ZArith Lia.
From stdpp Require Import prelude gmap strings list sorting.

(** [Compare(..) <= 0] *)
Definition le0 (c : comparison) : bool :=
  match c with Gt => false | _ => true end.

(** The insertion sequence: grow the slice by one nil when it is full, move the
    bigger items to the right, store the new one. *)
Definition slots_insert {A} (n : nat) (slots : list (option A)) (idx : nat) (x : A) :
    list (option A) :=
  let slots := if n =? length slots then slots ++ [None] else slots in
  let slots := if idx <? n then slice_move slots (idx + 1) idx else slots in
  <[idx := Some x]> slots.

(** The removal sequence: move the bigger items to the left, clear the last
    used slot. *)
Definition slots_remove {A} (n : nat) (slots : list (option A)) (idx : nat) :
    list (option A) :=
  let slots := if idx <? n - 1 then slice_move slots idx (idx + 1) else slots in
  <[n - 1 := None]> slots.

(** The array stands for the list [l]. *)
Definition slots_repr {A} (n : nat) (slots : list (option A)) (l : list A) : Prop :=
  n = length l ∧ ∃ k, slots = (Some <$> l) ++ replicate k None.

(** ** Lemmas *)

Section slots.
Context {A : Type}.
Implicit Types (l : list A) (slots : list (option A)).

Lemma slots_repr_nil : slots_repr 0 ([] : list (option A)) [].
Proof. split; [done|by exists 0]. Qed.

Lemma slots_repr_deref n slots l i : slots_repr n slots l → i < n → deref slots i = l !! i.
Proof.
  intros [-> [k ->]] Hi. unfold deref.
  rewrite lookup_app_l by (by rewrite length_fmap). rewrite list_lookup_fmap.
  by destruct (l !! i).
Qed.

Lemma slots_repr_unique n slots l l' : slots_repr n slots l → slots_repr n slots l' → l = l'.
Proof.
  intros Hl Hl'. apply list_eq. intros i.
  destruct (decide (i < n)) as [Hi|Hi].
  - by rewrite <-(slots_repr_deref n slots l), <-(slots_repr_deref n slots l').
  - destruct Hl as [? _], Hl' as [? _]. rewrite !lookup_ge_None_2; [done|lia..].
Qed.

Lemma slots_insert_length n (slots : list (option A)) idx x :
  length (slots_insert n slots idx x) = (if n =? length slots then S (length slots) else length slots).
Proof.
  unfold slots_insert. rewrite length_insert.
  set (s := if n =? length slots then slots ++ [None] else slots).
  assert (length s = if n =? length slots then S (length slots) else length slots) as <-.
  { subst s. destruct (n =? length slots); [rewrite length_app; simpl; lia|done]. }
  destruct (idx <? n); [|done]. unfold slice_move.
  rewrite !length_app, !length_take, !length_drop. lia.
Qed.

Lemma slots_repr_length n (slots : list (option A)) l : slots_repr n slots l → n ≤ length slots.
Proof. intros [-> [k ->]]. rewrite length_app, length_fmap. lia. Qed.

Lemma slice_shift_right {B} (a r : list B) y i :
  length a = i → r ≠ [] →
  <[i := y]> (slice_move (a ++ r) (i + 1) i) = a ++ y :: take (length r - 1) r.
Proof.
  intros <- Hr. destruct r as [|z r]; [done|]. unfold slice_move.
  rewrite length_app. simpl length.
  replace ((length a + S (length r) - (length a + 1)) `min` (length a + S (length r) - length a))
    with (length r) by lia.
  rewrite (drop_ge _ (length a + 1 + length r)) by (rewrite length_app; simpl; lia).
  rewrite drop_app_length, app_nil_r, take_app_add. simpl.
  rewrite <-app_assoc. simpl.
  rewrite insert_app_r_alt, Nat.sub_diag by lia. simpl. do 2 f_equal. f_equal. lia.
Qed.

Lemma slice_shift_left {B} (a r : list B) z i :
  length a = i →
  slice_move (a ++ z :: r) i (i + 1) = a ++ r ++ drop (length r) (z :: r).
Proof.
  intros <-. unfold slice_move. rewrite length_app. simpl length.
  replace ((length a + S (length r) - length a) `min` (length a + S (length r) - (length a + 1)))
    with (length r) by lia.
  rewrite take_app_length. do 2 f_equal.
  - rewrite drop_app_add. simpl. apply firstn_all.
  - by rewrite drop_app_add.
Qed.

Lemma drop_length_singleton {B} (l : list B) n : length l = S n → ∃ z, drop n l = [z].
Proof.
  intros Hl. destruct (drop n l) as [|z [|? ?]] eqn:E; apply (f_equal length) in E;
    rewrite length_drop in E; simpl in E; [lia|by exists z|lia].
Qed.

Lemma replicate_None_snoc k : replicate k (@None A) ++ [None] = replicate (S k) None.
Proof. induction k as [|k IH]; simpl; [done|by rewrite IH]. Qed.

Lemma slots_insert_repr n slots l idx x :
  slots_repr n slots l → idx ≤ n →
  slots_repr (S n) (slots_insert n slots idx x) (take idx l ++ x :: drop idx l).
Proof.
  intros [-> [k Hs]] Hidx. split.
  { rewrite length_app. simpl. rewrite length_take, length_drop. lia. }
  unfold slots_insert.
  assert (∃ k', (if length l =? length slots then slots ++ [None] else slots) =
    (Some <$> l) ++ replicate (S k') None) as [k' ->].
  { subst slots. rewrite length_app, length_fmap, length_replicate.
    destruct (Nat.eqb_spec (length l) (length l + k)).
    - exists k. by rewrite <-app_assoc, replicate_None_snoc.
    - destruct k as [|k']; [lia|]. by exists k'. }
  exists k'. rewrite <-(take_drop idx l) at 2. rewrite !fmap_app, <-!app_assoc. simpl.
  assert (length (Some <$> take idx l) = idx) as Hlen by (rewrite length_fmap, length_take; lia).
  destruct (Nat.ltb_spec idx (length l)) as [Hlt|Hge].
  - rewrite slice_shift_right; [|done|].
    + do 2 f_equal. change (None :: replicate k' None) with (replicate (S k') (@None A)).
      rewrite <-replicate_None_snoc, app_assoc, length_app. simpl.
      rewrite take_app_length'; [done|lia].
    + intros [_ ?]%app_nil. done.
  - rewrite drop_ge by lia. simpl. rewrite (take_ge l idx) in * by lia.
    rewrite insert_app_r_alt by lia. by rewrite Hlen, Nat.sub_diag.
Qed.

Lemma slots_remove_repr n slots l idx :
  slots_repr n slots l → idx < n →
  slots_repr (n - 1) (slots_remove n slots idx) (take idx l ++ drop (S idx) l).
Proof.
  intros [-> [k Hs]] Hidx. split.
  { rewrite length_app, length_take, length_drop. lia. }
  exists (S k). unfold slots_remove.
  destruct (lookup_lt_is_Some_2 l idx Hidx) as [z Hz].
  assert (length (Some <$> take idx l) = idx) as Hlen by (rewrite length_fmap, length_take; lia).
  assert (slots = (Some <$> take idx l) ++ Some z :: (Some <$> drop (S idx) l) ++ replicate k None) as ->.
  { rewrite Hs. rewrite <-(take_drop_middle l idx z Hz) at 1.
    by rewrite fmap_app, <-app_assoc. }
  set (b := drop (S idx) l) in *. assert (length b = length l - S idx) as Hb by apply length_drop.
  destruct (Nat.ltb_spec idx (length l - 1)) as [Hlt|Hge].
  - rewrite slice_shift_left by done. rewrite fmap_app, <-!app_assoc.
    rewrite insert_app_r_alt by lia. rewrite Hlen. f_equal.
    rewrite insert_app_r_alt by (rewrite length_fmap; lia). rewrite length_fmap, Hb.
    replace (length l - 1 - idx - (length l - S idx)) with 0 by lia. f_equal.
    rewrite length_app, length_fmap, length_replicate. destruct k as [|k].
    + simpl. rewrite Nat.add_0_r, app_nil_r.
      destruct (drop_length_singleton (Some z :: (Some <$> b)) (length b)) as [o ->]; [|done].
      simpl. by rewrite length_fmap.
    + rewrite <-(replicate_None_snoc k), app_assoc, app_comm_cons, drop_app_length'.
      * by rewrite replicate_None_snoc, replicate_None_snoc.
      * simpl. rewrite length_app, length_fmap, length_replicate. lia.
  - assert (b = []) as -> by (apply nil_length_inv; lia). simpl.
    rewrite app_nil_r. rewrite insert_app_r_alt by lia. rewrite Hlen.
    replace (length l - 1 - idx) with 0 by lia. done.
Qed.
End slots.

(** ** Binary search in an ordered array *)

Section ordered.
Context {K : Type} (ck : K → K → comparison) `{!TotalCompare ck}.

Definition key_lt : relation K := λ a b, ck a b = Lt.

#[local] Instance key_lt_trans : Transitive key_lt.
Proof. intros a b c. apply (cmp_trans ck). Qed.

(** The index that [lookupIdxBy...] returns splits the keys at [x]. *)
Lemma search_sorted (x : K) (ks : list K) (f : nat → option bool) :
  StronglySorted key_lt ks →
  (∀ i k, ks !! i = Some k → f i = Some (le0 (ck x k))) →
  ∃ r, sort_Search (length ks) f = Some r ∧ r ≤ length ks ∧
    Forall (λ k, key_lt k x) (take r ks) ∧ Forall (λ k, le0 (ck x k) = true) (drop r ks).
Proof.
  intros Hs Hf.
  set (g := λ i, match ks !! i with Some k => le0 (ck x k) | None => false end).
  destruct (sort_Search_spec f g (length ks)) as (r & Hr & Hle & Hlo & Hhi).
  - intros i [k Hk]%lookup_lt_is_Some. unfold g. rewrite Hk. by apply Hf.
  - intros i j Hij Hj. unfold g.
    destruct (lookup_lt_is_Some_2 ks i) as [ki Hi]; [lia|].
    destruct (lookup_lt_is_Some_2 ks j Hj) as [kj Hj']. rewrite Hi, Hj'.
    destruct (decide (i = j)) as [->|]; [by simplify_eq|].
    assert (ck ki kj = Lt) as Hlt.
    { rewrite <-(take_drop j ks) in Hs. apply (StronglySorted_app_1_elem_of _ _ _ ki kj) in Hs; [done|..].
      - apply list_elem_of_lookup. exists i. rewrite lookup_take_lt; [done|lia].
      - apply list_elem_of_lookup. exists 0. by rewrite lookup_drop, Nat.add_0_r. }
    destruct (ck x ki) eqn:E; [| |done]; intros _.
    + apply (cmp_eq ck) in E as ->. by rewrite Hlt.
    + by rewrite (cmp_trans ck x ki kj).
  - exists r. split_and!; [done..| |].
    + apply Forall_lookup. intros i k [Hi Hir]%lookup_take_Some. specialize (Hlo i Hir).
      unfold g in Hlo. rewrite Hi in Hlo. unfold key_lt. rewrite (cmp_lt_gt ck).
      by destruct (ck x k).
    + apply Forall_lookup. intros i k. rewrite lookup_drop. intros Hi.
      specialize (Hhi (r + i)). unfold g in Hhi. rewrite Hi in Hhi.
      apply Hhi; [lia|]. by eapply lookup_lt_Some.
Qed.

(** The element found at that index is [x] exactly when [x] is present. *)
Lemma search_sorted_found (x : K) (ks : list K) r :
  StronglySorted key_lt ks → Forall (λ k, key_lt k x) (take r ks) →
  Forall (λ k, le0 (ck x k) = true) (drop r ks) →
  x ∈ ks → ks !! r = Some x.
Proof.
  intros Hs Hlo Hhi Hx. rewrite <-(take_drop r ks) in Hs, Hx.
  apply elem_of_app in Hx as [Hx|Hx].
  { rewrite Forall_forall in Hlo. by apply Hlo, cmp_lt_irrefl in Hx. }
  rewrite <-(Nat.add_0_r r), <-lookup_drop.
  destruct (drop r ks) as [|k ks'] eqn:E; [by apply not_elem_of_nil in Hx|].
  apply elem_of_cons in Hx as [->|Hx]; [done|].
  apply StronglySorted_app_1_r, StronglySorted_cons in Hs as [Hk _].
  rewrite Forall_forall in Hk. specialize (Hk _ Hx). unfold key_lt in Hk.
  apply Forall_cons in Hhi as [Hhi _]. by rewrite (cmp_lt_gt ck) in Hk; rewrite Hk in Hhi.
Qed.

(** Inserting [x] at that index keeps the order when [x] is new. *)
Lemma search_sorted_insert (x : K) (ks : list K) r :
  StronglySorted key_lt ks → Forall (λ k, key_lt k x) (take r ks) →
  Forall (λ k, le0 (ck x k) = true) (drop r ks) →
  x ∉ ks → StronglySorted key_lt (take r ks ++ x :: drop r ks).
Proof.
  intros Hs Hlo Hhi Hx. rewrite <-(take_drop r ks) in Hs, Hx.
  apply StronglySorted_app in Hs as (Hlt & Hs1 & Hs2).
  rewrite Forall_forall in Hlo, Hhi.
  assert (∀ k, k ∈ drop r ks → key_lt x k) as Hgt.
  { intros k Hk. specialize (Hhi k Hk). unfold key_lt.
    destruct (ck x k) eqn:E; [|done|done].
    apply (cmp_eq ck) in E as ->. set_solver. }
  apply StronglySorted_app. split_and!; [|done|].
  - intros a b Ha [->|Hb]%elem_of_cons; auto.
  - constructor; [done|]. by apply Forall_forall.
Qed.

(** Cutting an element out keeps the order. *)
Lemma StronglySorted_cut (ks : list K) i :
  StronglySorted key_lt ks → StronglySorted key_lt (take i ks ++ drop (S i) ks).
Proof.
  intros Hs. apply StronglySorted_app.
  rewrite <-(take_drop i ks) in Hs. apply StronglySorted_app in Hs as (Hlt & H1 & H2).
  assert (drop (S i) ks = drop 1 (drop i ks)) as -> by (rewrite drop_drop; f_equal; lia).
  split_and!; [|done|].
  - intros a b Ha Hb. apply Hlt; [done|]. destruct (drop i ks); [done|]. by right.
  - destruct H2; [constructor|done].
Qed.

(** An ordered array has no repetitions. *)
Lemma sorted_NoDup (ks : list K) : StronglySorted key_lt ks → NoDup ks.
Proof.
  induction 1 as [|k ks _ IH Hk]; constructor; [|done].
  rewrite Forall_forall in Hk. intros ?%Hk. by eapply cmp_lt_irrefl.
Qed.

(** Equal sets of keys give equal arrays. *)
Lemma sorted_unique (ks ks' : list K) :
  StronglySorted key_lt ks → StronglySorted key_lt ks' →
  (∀ k, k ∈ ks ↔ k ∈ ks') → ks = ks'.
Proof.
  intros Hs Hs' Heq. apply (StronglySorted_unique_strong key_lt); [|done..|].
  - intros a b _ _ H1 H2. exfalso. apply (cmp_lt_irrefl ck a). by eapply (cmp_trans ck).
  - apply NoDup_Permutation; [by apply sorted_NoDup..|done].
Qed.
End ordered.
