(* ===== verification/GoStrings.v ===== *)
(** * The part of Go's [strings] package the program uses

    [HasPrefix], [TrimPrefix], [Split] with a one-character separator,
    [Replace] of the first occurrence and [Contains]. Strings are byte strings,
    as in Go. *)

From Stdlib Require Import ZArith Lia Ascii String.
From stdpp Require Import prelude strings list.
From S2P Require Import Prelude.

Definition HasPrefix (s p : string) : bool := String.prefix p s.

Fixpoint string_drop (n : nat) (s : string) : string :=
  match n, s with
  | S n, String _ s => string_drop n s
  | _, _ => s
  end.

Definition TrimPrefix (s p : string) : string :=
  if HasPrefix s p then string_drop (String.length p) s else s.

(** [strings.Split(s, string(c))] *)
Fixpoint Split (c : ascii) (s : string) : list string :=
  match s with
  | EmptyString => [""%string]
  | String x s =>
    if Ascii.eqb x c then ""%string :: Split c s
    else match Split c s with
         | h :: r => String x h :: r
         | [] => [String x ""%string]
         end
  end.

(** [strings.Replace(s, old, new, 1)] *)
Fixpoint Replace1 (s old new : string) : string :=
  if HasPrefix s old then (new +:+ string_drop (String.length old) s)
  else match s with
       | EmptyString => ""%string
       | String x s => String x (Replace1 s old new)
       end.

(** [strings.Contains(s, sub)] *)
Fixpoint Contains (s sub : string) : bool :=
  HasPrefix s sub || match s with EmptyString => false | String _ s => Contains s sub end.

(** The character does not occur. *)
Fixpoint char_free (c : ascii) (s : string) : bool :=
  match s with
  | EmptyString => true
  | String x s => negb (Ascii.eqb x c) && char_free c s
  end.

(** ** Lemmas *)

Lemma append_String c (x y : string) : (String c x +:+ y = String c (x +:+ y))%string.
Proof. done. Qed.

Lemma append_nil_l (x : string) : ("" +:+ x = x)%string.
Proof. done. Qed.

Lemma append_nil_r (x : string) : (x +:+ "" = x)%string.
Proof. induction x as [|c x IH]; [done|]. by rewrite append_String, IH. Qed.

Lemma append_assoc (x y z : string) : ((x +:+ y) +:+ z = x +:+ (y +:+ z))%string.
Proof. induction x as [|c x IH]; [done|]. by rewrite !append_String, IH. Qed.

Lemma append_inj_l (x y z : string) : (x +:+ y = x +:+ z)%string → y = z.
Proof. induction x as [|c x IH]; [done|]. rewrite !append_String. intros [=]. auto. Qed.

Lemma HasPrefix_app p r : HasPrefix (p +:+ r) p = true.
Proof.
  unfold HasPrefix. induction p as [|c p IH]; [by destruct r|].
  rewrite append_String. simpl. by destruct (ascii_dec c c).
Qed.

Lemma HasPrefix_split s p : HasPrefix s p = true → ∃ r, s = (p +:+ r)%string.
Proof.
  unfold HasPrefix. revert s. induction p as [|c p IH]; intros s; [by exists s|].
  destruct s as [|d s]; simpl; [done|]. destruct (ascii_dec c d) as [->|]; [|done].
  intros [r ->]%IH. by exists r.
Qed.

Lemma string_drop_app p r : string_drop (String.length p) (p +:+ r) = r.
Proof. induction p as [|c p IH]; [done|]. rewrite append_String. simpl. done. Qed.

Lemma TrimPrefix_app p r : TrimPrefix (p +:+ r) p = r.
Proof. unfold TrimPrefix. by rewrite HasPrefix_app, string_drop_app. Qed.

Lemma Split_ne c s : Split c s ≠ [].
Proof.
  induction s as [|x s IH]; simpl; [done|]. destruct (Ascii.eqb x c); [done|].
  by destruct (Split c s).
Qed.

Lemma Split_free c s : char_free c s = true → Split c s = [s].
Proof.
  induction s as [|x s IH]; simpl; [done|]. intros [Hx Hs]%andb_true_iff.
  apply negb_true_iff in Hx. by rewrite Hx, IH.
Qed.

Lemma Split_app c a r :
  char_free c a = true → Split c (a +:+ String c r) = a :: Split c r.
Proof.
  induction a as [|x a IH]; [intros _|].
  - rewrite append_nil_l. simpl. by rewrite Ascii.eqb_refl.
  - rewrite append_String. simpl. intros [Hx Ha]%andb_true_iff.
    apply negb_true_iff in Hx. by rewrite Hx, IH.
Qed.

(** A split text is the join of its parts, none of which has the separator. *)
Lemma Split_cons c s h t :
  Split c s = h :: t →
  char_free c h = true ∧
  match t with [] => s = h | _ => ∃ r, s = (h +:+ String c r)%string ∧ Split c r = t end.
Proof.
  revert h t. induction s as [|x s IH]; intros h t; simpl.
  { intros [= <- <-]. done. }
  destruct (Ascii.eqb x c) eqn:E.
  { apply Ascii.eqb_eq in E as ->. intros [= <- <-]. split; [done|].
    destruct (Split c s) as [|h t] eqn:Es; [by apply Split_ne in Es|].
    exists s. by rewrite append_nil_l. }
  destruct (Split c s) as [|h' t'] eqn:Es; [by apply Split_ne in Es|].
  intros [= <- <-]. destruct (IH h' t' eq_refl) as [Hf Ht]. simpl. rewrite E, Hf.
  split; [done|]. destruct t' as [|b t']; [by rewrite Ht|].
  destruct Ht as (r & -> & Hr). exists r. by rewrite append_String.
Qed.
