(* ===== verification/GoErrors.v ===== *)
(** * Functions that return an error

    A Go function with results [(T, error)] returns [Ok] of the value or [Err]
    of the error; the bind of the monad is [if err != nil { return err }]. *)

From stdpp Require Import prelude.

Inductive result (E A : Type) := Ok (a : A) | Err (e : E).
Arguments Ok {E A} _.
Arguments Err {E A} _.

#[global] Instance result_eq_dec {E A} `{EqDecision E, EqDecision A} : EqDecision (result E A).
Proof. solve_decision. Defined.

#[global] Instance result_ret {E} : MRet (result E) := λ A a, Ok a.
#[global] Instance result_bind {E} : MBind (result E) := λ A B f r, match r with Ok a => f a | Err e => Err e end.
#[global] Instance result_fmap {E} : FMap (result E) := λ A B f r, match r with Ok a => Ok (f a) | Err e => Err e end.

(** A library call whose failure becomes the error [e]. *)
Definition or_error {E A} (e : E) (o : option A) : result E A := match o with Some a => Ok a | None => Err e end.

(** [if !cond { return e }] *)
Definition check {E} (cond : bool) (e : E) : result E () := if cond then Ok () else Err e.

Definition is_ok {E A} (r : result E A) : bool := match r with Ok _ => true | Err _ => false end.

Lemma bind_Ok {E A B} (r : result E A) (f : A → result E B) b : (r ≫= f) = Ok b ↔ ∃ a, r = Ok a ∧ f a = Ok b.
Proof. destruct r; simpl; naive_solver. Qed.

Lemma or_error_Ok {E A} (e : E) (o : option A) a : or_error e o = Ok a ↔ o = Some a.
Proof. destruct o; simpl; naive_solver. Qed.

Lemma check_Ok {E} cond (e : E) u : check cond e = Ok u ↔ cond = true.
Proof. destruct cond, u; simpl; naive_solver. Qed.
