(* ===== verification/GoNet.v ===== *)
(** * The part of Go's [net] and [strconv] packages the program uses

    Addresses and masks are byte slices, modelled as lists of byte values (the
    nil slice is the empty list). The functions follow the Go 1.9 library (the
    version the repository builds with, .travis.yml and docker/alpine-based):
    [To4], [To16], [Equal], [Mask], [CIDRMask], [IPMask.Size], [IPNet.Contains],
    the [String] methods, [ParseIP] and [ParseCIDR]. The lemmas relate the
    byte-level functions to bits numbered from the most significant one, in
    which a network is a prefix of bits, and give the parse/print round trip
    for IPv4. *)

From S2P Require Import Prelude GoStrings.
From Stdlib Require Import ZArith Lia Ascii String.
From stdpp Require Import prelude gmap strings list pretty.

Abbreviation IP := (list Z) (only parsing).
Abbreviation IPMask := (list Z) (only parsing).

Record IPNet := mkIPNet { IPNet_IP : IP; IPNet_Mask : IPMask }.

#[global] Instance IPNet_eq_dec : EqDecision IPNet.
Proof. solve_decision. Defined.

(** [&net.IPNet{}]: the "match all" network of the rules. *)
Definition emptyIPNet : IPNet := mkIPNet [] [].

Definition IPv4len : nat := 4.
Definition IPv6len : nat := 16.

Definition v4InV6Prefix : list Z := replicate 10 0%Z ++ [255%Z; 255%Z].

Definition bytesEqual (a b : list Z) : bool := bool_decide (a = b).

(** [net.IPv4(a, b, c, d)] *)
Definition net_IPv4 (a b c d : Z) : IP := v4InV6Prefix ++ [a; b; c; d].
Definition net_IPv4Mask (a b c d : Z) : IPMask := [a; b; c; d].

Definition To4 (ip : IP) : IP :=
  if length ip =? IPv4len then ip
  else if (length ip =? IPv6len) && bytesEqual (take 10 ip) (replicate 10 0%Z)
          && bytesEqual (take 2 (drop 10 ip)) [255%Z; 255%Z]
  then drop 12 ip
  else [].

Definition To16 (ip : IP) : IP :=
  if length ip =? IPv4len then v4InV6Prefix ++ ip
  else if length ip =? IPv6len then ip
  else [].

Definition IP_Equal (ip x : IP) : bool :=
  if length ip =? length x then bytesEqual ip x
  else if (length ip =? IPv4len) && (length x =? IPv6len)
  then bytesEqual (take 12 x) v4InV6Prefix && bytesEqual ip (drop 12 x)
  else if (length ip =? IPv6len) && (length x =? IPv4len)
  then bytesEqual (take 12 ip) v4InV6Prefix && bytesEqual (drop 12 ip) x
  else false.

Definition bytes_and (a b : list Z) : list Z := zip_with Z.land a b.

Definition IP_Mask (ip : IP) (mask : IPMask) : IP :=
  let mask := if (length mask =? IPv6len) && (length ip =? IPv4len)
                 && bytesEqual (take 12 mask) (replicate 12 255%Z)
              then drop 12 mask else mask in
  let ip := if (length mask =? IPv4len) && (length ip =? IPv6len)
               && bytesEqual (take 12 ip) v4InV6Prefix
            then drop 12 ip else ip in
  if length ip =? length mask then bytes_and ip mask else [].

(** The loop of [CIDRMask]: [l] bytes with [n] leading one bits; a partial byte
    is [^byte(0xff >> n)]. *)
Fixpoint mask_bytes (l : nat) (n : Z) : IPMask :=
  match l with
  | O => []
  | S l =>
    if (8 <=? n)%Z then 255%Z :: mask_bytes l (n - 8)
    else Z.lxor 255 (Z.shiftr 255 n) :: mask_bytes l 0
  end.

Definition CIDRMask (ones bits : Z) : IPMask :=
  if negb ((bits =? 32) || (bits =? 128))%Z then []
  else if ((ones <? 0) || (bits <? ones))%Z then []
  else mask_bytes (Z.to_nat (bits / 8)) ones.

(** Counts the leading one bits of a byte: [for v&0x80 != 0 { n++; v <<= 1 }];
    the byte has eight bits. *)
Fixpoint count_ones (fuel : nat) (n v : Z) : Z * Z :=
  match fuel with
  | O => (n, v)
  | S fuel => if (Z.land v 128 =? 0)%Z then (n, v) else count_ones fuel (n + 1)%Z (u8 (Z.shiftl v 1))
  end.

Fixpoint simpleMaskLength (n : Z) (mask : IPMask) : Z :=
  match mask with
  | [] => n
  | v :: mask =>
    if (v =? 255)%Z then simpleMaskLength (n + 8) mask
    else let '(n, v) := count_ones 8 n v in
         if negb (v =? 0)%Z then (-1)%Z
         else if forallb (Z.eqb 0) mask then n else (-1)%Z
  end.

(** [IPMask.Size() (ones, bits int)] *)
Definition Mask_Size (m : IPMask) : Z * Z :=
  let ones := simpleMaskLength 0 m in
  if (ones =? -1)%Z then (0, 0)%Z else (ones, Z.of_nat (length m) * 8)%Z.

(** [None] stands for the two nil results. *)
Definition networkNumberAndMask (n : IPNet) : option (IP * IPMask) :=
  let ip4 := To4 (IPNet_IP n) in
  let ip := if bytesEqual ip4 [] then IPNet_IP n else ip4 in
  if bytesEqual ip4 [] && negb (length ip =? IPv6len) then None
  else
    let m := IPNet_Mask n in
    if length m =? IPv4len then if length ip =? IPv4len then Some (ip, m) else None
    else if length m =? IPv6len then Some (ip, if length ip =? IPv4len then drop 12 m else m)
    else None.

Definition IPNet_Contains (n : IPNet) (ip : IP) : bool :=
  let '(nn, m) := default ([], []) (networkNumberAndMask n) in
  let x := To4 ip in
  let ip := if bytesEqual x [] then ip else x in
  (length ip =? length nn) && bytesEqual (bytes_and nn m) (bytes_and ip m).

(** ** Text *)

(** [strconv.Itoa], and [uitoa] of the net package. *)
Definition Itoa (z : Z) : string := pretty z.

Definition hex_digit (z : Z) : ascii :=
  ascii_of_N (Z.to_N (if (z <? 10)%Z then 48 + z else 87 + z)).

(** [appendHex]: no leading zeros. *)
Definition hex16 (z : Z) : string :=
  let d k := String (hex_digit (Z.shiftr z (4 * k) mod 16)) ""%string in
  if (z <? 16)%Z then d 0%Z
  else if (z <? 256)%Z then (d 1%Z +:+ d 0%Z)
  else if (z <? 4096)%Z then (d 2%Z +:+ d 1%Z +:+ d 0%Z)
  else (d 3%Z +:+ d 2%Z +:+ d 1%Z +:+ d 0%Z).

Definition hexString (b : list Z) : string :=
  foldr (λ v s, String (hex_digit (Z.shiftr v 4)) (String (hex_digit (Z.land v 15)) s)) ""%string b.

(** The 16-bit groups of an IPv6 address. *)
Fixpoint ip_groups (p : list Z) : list Z :=
  match p with
  | a :: b :: p => Z.lor (Z.shiftl a 8) b :: ip_groups p
  | _ => []
  end.

(** The scan for the longest run of zero groups; positions count groups, the
    result is the pair [e0, e1] with [None] for [-1]. As in the source, the run
    is skipped only when it becomes the longest one so far. *)
Fixpoint zero_run (gs : list Z) : nat :=
  match gs with g :: gs => if (g =? 0)%Z then S (zero_run gs) else 0 | [] => 0 end.

Fixpoint longest_zeros (fuel i : nat) (gs : list Z) (best : option (nat * nat)) : option (nat * nat) :=
  match fuel with
  | O => best
  | S fuel =>
    if i <? length gs then
      let n := zero_run (drop i gs) in
      let cur := match best with Some (e0, e1) => e1 - e0 | None => 0 end in
      if (0 <? n) && (cur <? n) then longest_zeros fuel (i + n + 1) gs (Some (i, i + n))
      else longest_zeros fuel (i + 1) gs best
    else best
  end.

Fixpoint print_groups (fuel i : nat) (gs : list Z) (run : option (nat * nat)) : string :=
  match fuel with
  | O => ""%string
  | S fuel =>
    if i <? length gs then
      match run with
      | Some (e0, e1) =>
        if i =? e0 then
          ("::"%string +:+ (if e1 <? length gs
                     then hex16 (gs !!! e1) +:+ print_groups fuel (e1 + 1) gs None
                     else ""%string))
        else ((if 0 <? i then ":"%string else ""%string) +:+ hex16 (gs !!! i) +:+ print_groups fuel (i + 1) gs run)
      | None =>
        ((if 0 <? i then ":"%string else ""%string) +:+ hex16 (gs !!! i) +:+ print_groups fuel (i + 1) gs run)
      end
    else ""%string
  end.

Definition IP_String (ip : IP) : string :=
  if length ip =? 0 then "<nil>"%string
  else match To4 ip with
  | [a; b; c; d] =>
    (Itoa a +:+ "."%string +:+ Itoa b +:+ "."%string +:+ Itoa c +:+ "."%string +:+ Itoa d)
  | _ =>
    if negb (length ip =? IPv6len) then ("?"%string +:+ hexString ip)
    else
      let gs := ip_groups ip in
      let run := match longest_zeros 8 0 gs None with
                 | Some (e0, e1) => if e1 - e0 <=? 1 then None else Some (e0, e1)
                 | None => None
                 end in
      print_groups 8 0 gs run
  end.

Definition IPNet_String (n : IPNet) : string :=
  match networkNumberAndMask n with
  | None => "<nil>"%string
  | Some (nn, m) =>
    let l := simpleMaskLength 0 m in
    if (l =? -1)%Z then (IP_String nn +:+ "/"%string +:+ hexString m)
    else (IP_String nn +:+ "/"%string +:+ Itoa l)
  end.

(** ** Parsing *)

Definition digit_val (base : Z) (c : ascii) : option Z :=
  let n := Z.of_N (N_of_ascii c) in
  if ((48 <=? n) && (n <=? 57))%Z then Some (n - 48)%Z
  else if (base =? 10)%Z then None
  else if ((97 <=? n) && (n <=? 102))%Z then Some (n - 87)%Z
  else if ((65 <=? n) && (n <=? 70))%Z then Some (n - 55)%Z
  else None.

Definition big : Z := 16777215.

(** [dtoi]/[xtoi]: reads digits from the front; [None] is [ok == false]. The
    result is the number and the rest of the string. *)
Fixpoint toi_loop (base n : Z) (s : string) : option (Z * string) :=
  match s with
  | String c s' =>
    match digit_val base c with
    | Some d => let n := (n * base + d)%Z in if (big <=? n)%Z then None else toi_loop base n s'
    | None => Some (n, s)
    end
  | EmptyString => Some (n, s)
  end.

Definition toi (base : Z) (s : string) : option (Z * string) :=
  match s with
  | String c _ => match digit_val base c with Some _ => toi_loop base 0 s | None => None end
  | EmptyString => None
  end.

Definition dtoi : string → option (Z * string) := toi 10.
Definition xtoi : string → option (Z * string) := toi 16.

Definition parse_octet (dot : bool) (s : string) : option (Z * string) :=
  let s := if dot then match s with String "." s => Some s | _ => None end else Some s in
  s ← s; '(n, s) ← dtoi s; if (255 <? n)%Z then None else Some (n, s).

(** The nil result of the parsers is the empty list. *)
Definition parseIPv4 (s : string) : IP :=
  default [] (
    '(a, s) ← parse_octet false s;
    '(b, s) ← parse_octet true s;
    '(c, s) ← parse_octet true s;
    '(d, s) ← parse_octet true s;
    match s with EmptyString => Some (net_IPv4 a b c d) | _ => None end).

(** The loop of [parseIPv6] over at most eight groups. [acc] holds the bytes
    written so far, [ell] the byte position of the ellipsis. [None] is a
    failed parse, otherwise the bytes, the ellipsis and the unread text. *)
Fixpoint parseIPv6_loop (fuel : nat) (acc : list Z) (ell : option nat) (s : string) :
    option (list Z * option nat * string) :=
  match fuel with
  | O => Some (acc, ell, s)
  | S fuel =>
    '(n, rest) ← xtoi s;
    if (65535 <? n)%Z then None else
    match rest with
    | String "." _ =>
      if bool_decide (ell = None) && negb (length acc =? IPv6len - IPv4len) then None
      else if IPv6len <? length acc + IPv4len then None
      else let ip4 := parseIPv4 s in
           if bytesEqual ip4 [] then None
           else Some (acc ++ drop 12 ip4, ell, ""%string)
    | _ =>
      let acc := acc ++ [Z.shiftr n 8; Z.land n 255] in
      match rest with
      | EmptyString => Some (acc, ell, rest)
      | String ":" EmptyString => None
      | String ":" (String ":" rest') =>
        match ell with
        | Some _ => None
        | None =>
          match rest' with
          | EmptyString => Some (acc, Some (length acc), rest')
          | _ => parseIPv6_loop fuel acc (Some (length acc)) rest'
          end
        end
      | String ":" rest' => parseIPv6_loop fuel acc ell rest'
      | _ => None
      end
    end
  end.

Definition parseIPv6 (s : string) : IP :=
  let '(ell, s, only) := match s with
    | String ":" (String ":" EmptyString) => (Some 0, ""%string, true)
    | String ":" (String ":" s) => (Some 0, s, false)
    | _ => (None, s, false)
    end in
  if only : bool then replicate 16 0%Z
  else match parseIPv6_loop 8 [] ell s with
  | Some (acc, ell, EmptyString) =>
    if length acc <? IPv6len then
      match ell with
      | None => []
      | Some e => take e acc ++ replicate (IPv6len - length acc) 0%Z ++ drop e acc
      end
    else match ell with Some _ => [] | None => acc end
  | _ => []
  end.

Fixpoint ParseIP_from (s t : string) : IP :=
  match t with
  | String "." _ => parseIPv4 s
  | String ":" _ => parseIPv6 s
  | String _ t => ParseIP_from s t
  | EmptyString => []
  end.

Definition ParseIP (s : string) : IP := ParseIP_from s s.

(** Splits at the first slash. *)
Fixpoint cut_slash (s : string) : option (string * string) :=
  match s with
  | EmptyString => None
  | String "/" t => Some (""%string, t)
  | String c t => '(a, m) ← cut_slash t; Some (String c a, m)
  end.

(** [net.ParseCIDR]; [None] is the error (and the nil network that comes with
    it). *)
Definition ParseCIDR (s : string) : option (IP * IPNet) :=
  '(addr, mask) ← cut_slash s;
  let ip4 := parseIPv4 addr in
  let '(ip, iplen) := if bytesEqual ip4 [] then (parseIPv6 addr, IPv6len) else (ip4, IPv4len) in
  if bytesEqual ip [] then None else
  match dtoi mask with
  | Some (n, EmptyString) =>
    if (8 * Z.of_nat iplen <? n)%Z then None
    else let m := CIDRMask n (8 * Z.of_nat iplen) in
         Some (ip, mkIPNet (IP_Mask ip m) m)
  | _ => None
  end.

(** ** Bits *)

Definition is_byte (b : Z) : Prop := (0 ≤ b < 256)%Z.
Definition wf_bytes (l : list Z) : Prop := Forall is_byte l.

(** Bit [i] of a byte string, counted from the most significant one. *)
Definition bit (l : list Z) (i : nat) : bool :=
  Z.testbit (nth (i / 8) l 0%Z) (7 - Z.of_nat (i mod 8)).

(** The form [Contains] compares: IPv4 as four bytes. *)
Definition norm (ip : IP) : IP := if bytesEqual (To4 ip) [] then ip else To4 ip.

(** [n] is a network of [p] leading bits in a family of [L]-byte addresses,
    [nn] being its address in normal form. *)
Definition is_net (L p : nat) (nn : IP) (n : IPNet) : Prop :=
  networkNumberAndMask n = Some (nn, mask_bytes L (Z.of_nat p)) ∧
  length nn = L ∧ wf_bytes nn ∧ p ≤ 8 * L.

Example parse4 : ParseIP "10.2.1.255" = net_IPv4 10 2 1 255.
Proof. reflexivity. Qed.
Example parse6 : IP_String (ParseIP "2001:db8::1:0:0:1") = "2001:db8::1:0:0:1"%string.
Proof. reflexivity. Qed.
Example parse6b : IP_String (ParseIP "fe80::") = "fe80::"%string.
Proof. reflexivity. Qed.
Example parse_cidr4 : ParseCIDR "10.2.1.200/25" = Some (net_IPv4 10 2 1 200, mkIPNet [10; 2; 1; 128] [255; 255; 255; 128])%Z.
Proof. reflexivity. Qed.

Lemma bytesEqual_true a b : bytesEqual a b = true ↔ a = b.
Proof. apply bool_decide_eq_true. Qed.

Lemma testbit_above (b i : Z) : is_byte b → (8 ≤ i)%Z → Z.testbit b i = false.
Proof.
  intros [Hb1 Hb2] Hi. apply Z.bits_above_log2; [done|].
  destruct (decide (b = 0%Z)) as [->|]; [simpl; lia|].
  assert (Z.log2 b < 8)%Z by (apply Z.log2_lt_pow2; lia). lia.
Qed.

Lemma byte_ext (a b : Z) :
  is_byte a → is_byte b →
  (∀ k, k < 8 → Z.testbit a (7 - Z.of_nat k) = Z.testbit b (7 - Z.of_nat k)) → a = b.
Proof.
  intros Ha Hb Hk. apply Z.bits_inj'. intros i Hi.
  destruct (decide (8 ≤ i)%Z) as [|Hlt]; [by rewrite !testbit_above|].
  specialize (Hk (Z.to_nat (7 - i))). rewrite Z2Nat.id in Hk by lia.
  replace (7 - (7 - i))%Z with i in Hk by lia. apply Hk. lia.
Qed.

Lemma nth_byte l i : wf_bytes l → is_byte (nth i l 0%Z).
Proof.
  intros Hl. destruct (nth_in_or_default i l 0%Z) as [Hin| ->]; [|unfold is_byte; lia].
  unfold wf_bytes in Hl. rewrite Forall_forall in Hl. apply Hl. by apply list_elem_of_In.
Qed.

Lemma bit_split (j k : nat) l : k < 8 → bit l (8 * j + k) = Z.testbit (nth j l 0%Z) (7 - Z.of_nat k).
Proof.
  intros Hk. unfold bit.
  by rewrite <-(Nat.div_unique (8 * j + k) 8 j k), <-(Nat.mod_unique (8 * j + k) 8 j k) by lia.
Qed.

(** Byte strings are determined by their bits. *)
Lemma bytes_ext (a b : list Z) :
  wf_bytes a → wf_bytes b → length a = length b →
  (∀ i, i < 8 * length a → bit a i = bit b i) → a = b.
Proof.
  intros Ha Hb Hlen Hbit. apply nth_ext with 0%Z 0%Z; [done|].
  intros j Hj. apply byte_ext; [by apply nth_byte..|].
  intros k Hk. rewrite <-!bit_split by done. apply Hbit. lia.
Qed.

Lemma nth_bytes_and a b j :
  length a = length b → nth j (bytes_and a b) 0%Z = Z.land (nth j a 0%Z) (nth j b 0%Z).
Proof.
  revert a b. induction j as [|j IH]; intros [|x a] [|y b]; simpl; intros H; try done.
  apply IH. lia.
Qed.

Lemma bit_and a b i : length a = length b → bit (bytes_and a b) i = bit a i && bit b i.
Proof. intros H. unfold bit. rewrite nth_bytes_and by done. apply Z.land_spec. Qed.

Lemma bytes_and_length a b : length a = length b → length (bytes_and a b) = length a.
Proof. intros H. unfold bytes_and. rewrite length_zip_with. lia. Qed.

Lemma byte_ones b : is_byte b → Z.land b (Z.ones 8) = b.
Proof. intros [? ?]. rewrite Z.land_ones by lia. apply Z.mod_small. lia. Qed.

Lemma land_byte a b : is_byte b → is_byte (Z.land a b).
Proof.
  intros Hb. rewrite <-(byte_ones b Hb), Z.land_assoc, Z.land_ones by lia.
  apply Z.mod_pos_bound. lia.
Qed.

Lemma bytes_and_wf a b : wf_bytes a → wf_bytes b → wf_bytes (bytes_and a b).
Proof.
  intros Ha. revert b. induction Ha as [|x a Hx Ha IH]; intros b Hb; [constructor|].
  destruct Hb; constructor; [by apply land_byte|by apply IH].
Qed.

(** *** Masks *)

Lemma mask_bytes_length L n : length (mask_bytes L n) = L.
Proof.
  revert n. induction L as [|L IH]; intros n; simpl; [done|].
  destruct (8 <=? n)%Z; simpl; by rewrite IH.
Qed.

Lemma part_byte_spec (n k : nat) :
  n < 8 → k < 8 →
  is_byte (Z.lxor 255 (Z.shiftr 255 (Z.of_nat n))) ∧
  Z.testbit (Z.lxor 255 (Z.shiftr 255 (Z.of_nat n))) (7 - Z.of_nat k) = (k <? n).
Proof.
  intros Hn Hk. unfold is_byte.
  do 8 (destruct n as [|n]; [do 8 (destruct k as [|k]; [by vm_compute|]); lia|]). lia.
Qed.

Lemma mask_bytes_wf L n : (0 ≤ n)%Z → wf_bytes (mask_bytes L n).
Proof.
  revert n. induction L as [|L IH]; intros n Hn; simpl; [constructor|].
  destruct (Z.leb_spec 8 n).
  - constructor; [unfold is_byte; lia|apply IH; lia].
  - constructor; [|apply IH; lia].
    destruct (part_byte_spec (Z.to_nat n) 0) as [Hb _]; [lia..|]. by rewrite Z2Nat.id in Hb by lia.
Qed.

(** The mask of prefix length [p] has exactly its first [p] bits set. *)
Lemma mask_bytes_bit L (p i : nat) :
  p ≤ 8 * L → i < 8 * L → bit (mask_bytes L (Z.of_nat p)) i = (i <? p).
Proof.
  intros Hp Hi. rewrite (Nat.div_mod_eq i 8). assert (i mod 8 < 8) as Hk by (apply Nat.mod_upper_bound; lia).
  assert (i / 8 < L) as Hj by (apply Nat.Div0.div_lt_upper_bound; lia).
  generalize dependent (i mod 8). generalize dependent (i / 8). clear Hi i. intros j Hj k Hk.
  rewrite bit_split by done.
  revert p j Hp Hj. induction L as [|L IH]; intros p j Hp Hj; [lia|]. simpl.
  destruct (Z.leb_spec 8 (Z.of_nat p)) as [H8|H8].
  - destruct j as [|j]; simpl.
    + destruct (Nat.ltb_spec k p); [|lia].
      do 8 (destruct k as [|k]; [by vm_compute|]). lia.
    + replace (Z.of_nat p - 8)%Z with (Z.of_nat (p - 8)) by lia.
      rewrite IH by lia. bool_lia.
  - destruct j as [|j]; simpl.
    + apply part_byte_spec; lia.
    + rewrite (IH 0) by lia. bool_lia.
Qed.

Lemma mask_bytes_0 L : mask_bytes L 0 = replicate L 0%Z.
Proof. induction L as [|L IH]; simpl; [done|]. by rewrite IH. Qed.

Lemma count_ones_part (p : nat) n0 :
  p < 8 → count_ones 8 n0 (Z.lxor 255 (Z.shiftr 255 (Z.of_nat p))) = (n0 + Z.of_nat p, 0)%Z ∧
  Z.lxor 255 (Z.shiftr 255 (Z.of_nat p)) ≠ 255%Z.
Proof.
  intros Hp. do 8 (destruct p as [|p]; [split; [cbn -[Z.add]; f_equal; lia|done]|]). lia.
Qed.

Lemma simpleMaskLength_mask L (p : nat) n0 :
  p ≤ 8 * L → simpleMaskLength n0 (mask_bytes L (Z.of_nat p)) = (n0 + Z.of_nat p)%Z.
Proof.
  revert p n0. induction L as [|L IH]; intros p n0 Hp; simpl; [lia|].
  destruct (Z.leb_spec 8 (Z.of_nat p)) as [H8|H8].
  - simpl. replace (Z.of_nat p - 8)%Z with (Z.of_nat (p - 8)) by lia.
    rewrite IH by lia. lia.
  - destruct (count_ones_part p n0) as [Hc Hne]; [lia|].
    cbn -[Z.lxor Z.shiftr count_ones].
    destruct (Z.eqb_spec (Z.lxor 255 (Z.shiftr 255 (Z.of_nat p))) 255); [done|].
    rewrite Hc, mask_bytes_0. cbn -[forallb].
    assert (forallb (Z.eqb 0) (replicate L 0%Z) = true) as ->; [|done].
    apply forallb_forall. intros x [-> _]%list_elem_of_In%elem_of_replicate. done.
Qed.

Lemma Mask_Size_mask L (p : nat) :
  p ≤ 8 * L → Mask_Size (mask_bytes L (Z.of_nat p)) = (Z.of_nat p, Z.of_nat L * 8)%Z.
Proof.
  intros Hp. unfold Mask_Size. rewrite simpleMaskLength_mask, mask_bytes_length by done.
  rewrite Z.add_0_l. destruct (Z.eqb_spec (Z.of_nat p) (-1)); [lia|done].
Qed.

Lemma CIDRMask_v4 (p : nat) : p ≤ 32 → CIDRMask (Z.of_nat p) 32 = mask_bytes 4 (Z.of_nat p).
Proof.
  intros Hp. unfold CIDRMask. simpl.
  by destruct (Z.ltb_spec (Z.of_nat p) 0), (Z.ltb_spec 32 (Z.of_nat p)); [lia..|].
Qed.

Lemma CIDRMask_v6 (p : nat) : p ≤ 128 → CIDRMask (Z.of_nat p) 128 = mask_bytes 16 (Z.of_nat p).
Proof.
  intros Hp. unfold CIDRMask. simpl negb. cbv iota.
  destruct (Z.ltb_spec (Z.of_nat p) 0), (Z.ltb_spec 128 (Z.of_nat p)); [lia..|done].
Qed.

(** *** Networks *)

Lemma To4_v4 ip : length ip = 4 → To4 ip = ip.
Proof. intros H. unfold To4. by rewrite H. Qed.

Lemma norm_v4 ip : length ip = 4 → norm ip = ip.
Proof. intros H. unfold norm. rewrite To4_v4 by done. by destruct (bytesEqual ip []). Qed.

Lemma To4_net_IPv4 a b c d : To4 (net_IPv4 a b c d) = [a; b; c; d].
Proof. reflexivity. Qed.

Lemma is_net_v4 ip (p : nat) :
  length ip = 4 → wf_bytes ip → p ≤ 32 → is_net 4 p ip (mkIPNet ip (mask_bytes 4 (Z.of_nat p))).
Proof.
  intros Hl Hw Hp. unfold is_net, networkNumberAndMask. cbn [IPNet_IP IPNet_Mask]. cbv zeta.
  rewrite To4_v4, mask_bytes_length, Hl by done. split_and!; try done.
  assert (bytesEqual ip [] = false) as ->; [|cbn; by rewrite Hl].
  apply bool_decide_eq_false. by intros ->.
Qed.

(** Membership in a network is agreement on the prefix bits. *)
Lemma IPNet_Contains_bits L p nn n ip :
  is_net L p nn n → wf_bytes ip →
  IPNet_Contains n ip = true ↔
  length (norm ip) = L ∧ ∀ i, i < p → bit (norm ip) i = bit nn i.
Proof.
  intros (Hn & Hlen & Hwf & Hp) Hip. unfold IPNet_Contains. rewrite Hn. simpl.
  fold (norm ip). rewrite andb_true_iff, Nat.eqb_eq, bytesEqual_true, Hlen.
  assert (wf_bytes (norm ip)) as Hwn.
  { unfold norm, To4. destruct_matches; try done; [by apply Forall_drop..]. }
  split; intros [HL Heq]; (split; [done|]).
  - intros i Hi. apply (f_equal (λ l, bit l i)) in Heq.
    rewrite !bit_and in Heq by (rewrite mask_bytes_length; congruence).
    rewrite mask_bytes_bit in Heq by lia.
    by rewrite (proj2 (Nat.ltb_lt i p) Hi), !andb_true_r in Heq.
  - assert (∀ l : list Z, length l = L → length l = length (mask_bytes L (Z.of_nat p))) as HLm.
    { intros l ->. by rewrite mask_bytes_length. }
    apply bytes_ext; [apply bytes_and_wf; [done|apply mask_bytes_wf; lia]..| |].
    + rewrite !bytes_and_length by auto. congruence.
    + rewrite bytes_and_length by auto. intros i Hi. rewrite !bit_and by auto.
      rewrite mask_bytes_bit by lia. destruct (Nat.ltb_spec i p); [|by rewrite !andb_false_r].
      by rewrite !andb_true_r, Heq.
Qed.

(** *** IPv4 text *)

Definition octets : list Z := Z.of_nat <$> seq 0 256.

Lemma elem_of_octets n : is_byte n → n ∈ octets.
Proof.
  intros [? ?]. apply list_elem_of_fmap. exists (Z.to_nat n).
  rewrite Z2Nat.id by lia. split; [done|]. apply elem_of_seq. lia.
Qed.

(** A fact on every octet, by evaluation of its decimal text. *)
Ltac eval_octets tac :=
  unfold octets; cbn [seq fmap list_fmap];
  repeat (apply List.Forall_cons;
    [match goal with
     | |- context [Itoa ?n] => let v := eval vm_compute in (Itoa n) in change (Itoa n) with v
     end; tac|]); apply List.Forall_nil.

(** Reading back a printed octet, whatever separator follows it. *)
Lemma dtoi_octets :
  Forall (λ n, (∀ r, dtoi (Itoa n +:+ String "." r) = Some (n, String "." r)) ∧
               (∀ r, dtoi (Itoa n +:+ String "/" r) = Some (n, String "/" r)) ∧
               dtoi (Itoa n) = Some (n, ""%string)) octets.
Proof. eval_octets ltac:(split_and!; intros; vm_compute; reflexivity). Qed.

Lemma cut_slash_octets :
  Forall (λ n, ∀ r, cut_slash (Itoa n +:+ r) =
    ('(a, m) ← cut_slash r; Some ((Itoa n +:+ a)%string, m))) octets.
Proof. eval_octets ltac:(intros r; simpl; change (""%string +:+ r) with r; by destruct (cut_slash r) as [[??]|]). Qed.

Lemma dtoi_octet_dot n r : is_byte n → dtoi (Itoa n +:+ "." +:+ r) = Some (n, String "." r).
Proof. intros Hn. apply (proj1 (Forall_forall _ _) dtoi_octets n (elem_of_octets n Hn)). Qed.

Lemma dtoi_octet_slash n r : is_byte n → dtoi (Itoa n +:+ "/" +:+ r) = Some (n, String "/" r).
Proof. intros Hn. apply (proj1 (Forall_forall _ _) dtoi_octets n (elem_of_octets n Hn)). Qed.

Lemma dtoi_octet_end n : is_byte n → dtoi (Itoa n) = Some (n, ""%string).
Proof. intros Hn. apply (proj1 (Forall_forall _ _) dtoi_octets n (elem_of_octets n Hn)). Qed.

Lemma cut_slash_octet n r :
  is_byte n → cut_slash (Itoa n +:+ r) = ('(a, m) ← cut_slash r; Some (Itoa n +:+ a, m)).
Proof. intros Hn. apply (proj1 (Forall_forall _ _) cut_slash_octets n (elem_of_octets n Hn)). Qed.

Create Rewrite HintDb octets.
#[local] Hint Rewrite dtoi_octet_dot dtoi_octet_slash dtoi_octet_end using done : octets.

Lemma byte_not_big n : is_byte n → (255 <? n)%Z = false.
Proof. intros [? ?]. apply Z.ltb_ge. lia. Qed.

(** A printed IPv4 address parses back. *)
Lemma parseIPv4_String a b c d :
  wf_bytes [a; b; c; d] → parseIPv4 (IP_String [a; b; c; d]) = net_IPv4 a b c d.
Proof.
  intros Hw. unfold wf_bytes in Hw. rewrite !Forall_cons in Hw. destruct Hw as (Ha & Hb & Hc & Hd & _).
  change (IP_String [a; b; c; d])
    with (Itoa a +:+ "." +:+ Itoa b +:+ "." +:+ Itoa c +:+ "." +:+ Itoa d)%string.
  unfold parseIPv4, parse_octet.
  repeat (cbn [mbind option_bind]; autorewrite with octets; rewrite ?byte_not_big by done).
  done.
Qed.

Lemma ParseIP_octets : Forall (λ n, ∀ s r, ParseIP_from s (Itoa n +:+ String "." r) = parseIPv4 s) octets.
Proof. eval_octets ltac:(intros; reflexivity). Qed.

Lemma ParseIP_String a b c d : wf_bytes [a; b; c; d] → ParseIP (IP_String [a; b; c; d]) = net_IPv4 a b c d.
Proof.
  intros Hw. rewrite <-(parseIPv4_String a b c d Hw). pose proof (Forall_inv Hw) as Ha. unfold ParseIP.
  apply (proj1 (Forall_forall _ _) ParseIP_octets a (elem_of_octets a Ha)).
Qed.

(** An IPv4 network as [ParseCIDR] returns it: four bytes, host bits cleared. *)
Definition canonical_v4 (p : nat) (n : IPNet) : Prop :=
  length (IPNet_IP n) = 4 ∧ wf_bytes (IPNet_IP n) ∧ p ≤ 32 ∧
  IPNet_Mask n = mask_bytes 4 (Z.of_nat p) ∧
  bytes_and (IPNet_IP n) (IPNet_Mask n) = IPNet_IP n.

Lemma canonical_v4_is_net p n : canonical_v4 p n → is_net 4 p (IPNet_IP n) n.
Proof.
  destruct n as [ip m]. intros (Hl & Hw & Hp & Hm & _). simpl in *. subst m. by apply is_net_v4.
Qed.

Lemma IPNet_String_v4 p a b c d n :
  is_net 4 p [a; b; c; d] n →
  IPNet_String n = (IP_String [a; b; c; d] +:+ "/" +:+ Itoa (Z.of_nat p))%string.
Proof.
  intros (Hn & Hl & Hw & Hp). unfold IPNet_String. rewrite Hn, simpleMaskLength_mask by lia.
  rewrite Z.add_0_l. destruct (Z.eqb_spec (Z.of_nat p) (-1)); [lia|done].
Qed.


Lemma cut_slash_dot r : cut_slash ("." +:+ r) = ('(a, m) ← cut_slash r; Some (("." +:+ a)%string, m)).
Proof. done. Qed.

Lemma cut_slash_v4 a b c d r :
  wf_bytes [a; b; c; d] →
  cut_slash (IP_String [a; b; c; d] +:+ "/" +:+ r) = Some (IP_String [a; b; c; d], r).
Proof.
  intros Hw. unfold wf_bytes in Hw. rewrite !Forall_cons in Hw. destruct Hw as (Ha & Hb & Hc & Hd & _).
  change (IP_String [a; b; c; d])
    with (Itoa a +:+ "." +:+ Itoa b +:+ "." +:+ Itoa c +:+ "." +:+ Itoa d)%string.
  rewrite !append_assoc, !cut_slash_octet, cut_slash_dot, cut_slash_octet, cut_slash_dot,
    cut_slash_octet, cut_slash_dot, cut_slash_octet by done.
  change (cut_slash ("/" +:+ r)) with (Some (""%string, r)). cbn [mbind option_bind].
  by rewrite append_nil_r.
Qed.

Lemma IP_Mask_net_IPv4 a b c d m :
  length m = 4 → IP_Mask (net_IPv4 a b c d) m = bytes_and [a; b; c; d] m.
Proof. intros Hm. unfold IP_Mask. rewrite Hm. simpl. by rewrite Hm. Qed.

(** A printed IPv4 network parses back. *)
Lemma ParseCIDR_String p n :
  canonical_v4 p n →
  ∃ a b c d, IPNet_IP n = [a; b; c; d] ∧
    ParseCIDR (IPNet_String n) = Some (net_IPv4 a b c d, n).
Proof.
  intros Hn. pose proof (canonical_v4_is_net p n Hn) as Hnet.
  destruct n as [ip m]; destruct Hn as (Hl & Hw & Hp & Hm & Hmask); cbn [IPNet_IP IPNet_Mask] in *.
  destruct ip as [|a [|b [|c [|d [|]]]]]; try done. exists a, b, c, d. split; [done|].
  rewrite (IPNet_String_v4 p a b c d) by done.
  unfold ParseCIDR. rewrite cut_slash_v4 by done. cbn [mbind option_bind].
  rewrite parseIPv4_String by done.
  change (bytesEqual (net_IPv4 a b c d) []) with false. cbv iota beta zeta.
  change (bytesEqual (net_IPv4 a b c d) []) with false. cbv iota beta.
  rewrite dtoi_octet_end by (unfold is_byte; lia).
  destruct (Z.ltb_spec (8 * Z.of_nat IPv4len) (Z.of_nat p)) as [|_]; [unfold IPv4len in *; lia|].
  change (8 * Z.of_nat IPv4len)%Z with 32%Z. rewrite CIDRMask_v4, <-Hm by done.
  rewrite IP_Mask_net_IPv4, Hmask; [done|]. by rewrite Hm, mask_bytes_length.
Qed.

(** ** Networks as the parsers build them *)

(** A network with the prefix mask of its family, [p] of [8 * L] bits. *)
Definition good_net (L p : nat) (n : IPNet) : Prop :=
  is_net L p (norm (IPNet_IP n)) n ∧ IPNet_Mask n = mask_bytes L (Z.of_nat p).

Lemma To4_cases ip :
  (length ip = 4 ∧ To4 ip = ip) ∨ (length ip = 16 ∧ take 12 ip = v4InV6Prefix ∧ To4 ip = drop 12 ip) ∨
  (length ip ≠ 4 ∧ To4 ip = [] ∧ (length ip = 16 → take 12 ip ≠ v4InV6Prefix)).
Proof.
  unfold To4, IPv4len, IPv6len. destruct (Nat.eqb_spec (length ip) 4); [by left|right].
  destruct (Nat.eqb_spec (length ip) 16) as [H16|]; [|right; tauto].
  assert (take 12 ip = take 10 ip ++ take 2 (drop 10 ip)) as Ht.
  { rewrite <-(take_drop 10 (take 12 ip)) at 1. by rewrite take_take, skipn_firstn_comm. }
  assert (length (take 10 ip) = 10) as Hl by (rewrite length_take; lia).
  unfold bytesEqual. case_bool_decide as H1; simpl; [case_bool_decide as H2; simpl|].
  - left. split_and!; [done| |done]. by rewrite Ht, H1, H2.
  - right. split_and!; [done|done|]. intros _ Heq. apply H2. rewrite Ht in Heq.
    by apply app_inj_1 in Heq as [_ ?].
  - right. split_and!; [done|done|]. intros _ Heq. apply H1. rewrite Ht in Heq.
    by apply app_inj_1 in Heq as [? _].
Qed.

Lemma norm_cases ip :
  (length ip = 4 ∧ norm ip = ip) ∨ (length ip = 16 ∧ take 12 ip = v4InV6Prefix ∧ norm ip = drop 12 ip) ∨
  (length ip ≠ 4 ∧ norm ip = ip ∧ (length ip = 16 → take 12 ip ≠ v4InV6Prefix)).
Proof.
  unfold norm. destruct (To4_cases ip) as [(Hl & ->)|[(Hl & Ht & ->)|(Hl & -> & Hn)]].
  - left. by destruct (bytesEqual ip []).
  - right; left. assert (bytesEqual (drop 12 ip) [] = false) as ->; [|done].
    apply bool_decide_eq_false. intros H%(f_equal length). rewrite length_drop, Hl in H. done.
  - right; right. done.
Qed.

Lemma norm_wf ip : wf_bytes ip → wf_bytes (norm ip).
Proof. destruct (norm_cases ip) as [[_ ->]|[(_ & _ & ->)|(_ & -> & _)]]; [done|by apply Forall_drop|done]. Qed.

Lemma norm_inj16 a b : length a = 16 → length b = 16 → norm a = norm b → a = b.
Proof.
  intros Ha Hb. destruct (norm_cases a) as [[? _]|[(_ & Hta & ->)|(_ & -> & Hna)]]; [lia|..];
    destruct (norm_cases b) as [[? _]|[(_ & Htb & ->)|(_ & -> & Hnb)]]; try lia; intros Heq.
  - by rewrite <-(take_drop 12 a), <-(take_drop 12 b), Hta, Htb, Heq.
  - apply (f_equal length) in Heq. rewrite length_drop in Heq. lia.
  - apply (f_equal length) in Heq. rewrite length_drop in Heq. lia.
  - done.
Qed.

Lemma IP_Equal_norm a b : length b = 16 → IP_Equal a b = true → norm a = norm b.
Proof.
  intros Hb. unfold IP_Equal, IPv4len, IPv6len. rewrite Hb.
  destruct (Nat.eqb_spec (length a) 16) as [Ha|Ha]; [by intros ->%bytesEqual_true|].
  destruct (Nat.eqb_spec (length a) 4) as [Ha4|]; simpl; [|done].
  rewrite andb_true_iff, !bytesEqual_true. intros [Ht ->].
  destruct (norm_cases b) as [[? _]|[(_ & _ & ->)|(_ & _ & Hn)]]; [lia| |by apply Hn in Ht].
  apply norm_v4. by rewrite length_drop, Hb.
Qed.

Lemma norm_IP_Equal a b :
  (length a = 4 ∨ length a = 16) → length b = 16 → norm a = norm b → IP_Equal a b = true.
Proof.
  intros [Ha|Ha] Hb Heq; unfold IP_Equal, IPv4len, IPv6len; rewrite Ha, Hb; simpl.
  - rewrite norm_v4 in Heq by done. subst a.
    destruct (norm_cases b) as [[? _]|[(_ & Ht & Hn)|(_ & Hn & _)]]; [lia| |rewrite Hn in Ha; lia].
    rewrite Ht, Hn. apply andb_true_iff. by rewrite !bytesEqual_true.
  - apply bytesEqual_true. by apply norm_inj16.
Qed.

(** A network of one host contains that host only. *)
Lemma host_net_Contains L n ip :
  good_net L (8 * L) n → wf_bytes ip → IPNet_Contains n ip = true ↔ norm ip = norm (IPNet_IP n).
Proof.
  intros [Hn _] Hip. rewrite (IPNet_Contains_bits L (8 * L) _ n ip Hn Hip).
  destruct Hn as (_ & Hlen & Hw & _). split.
  - intros [HL Hbits]. apply bytes_ext; [by apply norm_wf|done|congruence|].
    intros i Hi. apply Hbits. lia.
  - intros ->. split; [done|]. done.
Qed.
