(* ===== verification/GoText.v ===== *)
(** * Texts with separators and decimal numbers

    Lemmas shared by the components that build and parse names. *)

From Stdlib Require Import ZArith Lia Ascii String.
From stdpp Require Import prelude strings list pretty.
From S2P Require Import Prelude GoStrings GoNet.

(** ** Separators *)

Lemma char_free_app c x y : char_free c (x +:+ y) = char_free c x && char_free c y.
Proof. induction x as [|d x IH]; [done|]. rewrite append_String. simpl. by rewrite IH, andb_assoc. Qed.

Lemma char_free_sep c x y : char_free c (x +:+ String c y) = false.
Proof. rewrite char_free_app. simpl. rewrite Ascii.eqb_refl. apply andb_false_r. Qed.

Lemma last_sep_inj c a b s t :
  char_free c s = true → char_free c t = true →
  (a +:+ String c s = b +:+ String c t)%string → a = b ∧ s = t.
Proof.
  intros Hs Ht. revert b. induction a as [|x a IH]; intros [|y b]; rewrite ?append_String, ?append_nil_l; intros [=].
  - done.
  - subst. by rewrite char_free_sep in Hs.
  - subst. by rewrite char_free_sep in Ht.
  - subst. destruct (IH b) as [-> ->]; done.
Qed.

Lemma append_prefixes (x y s t : string) : (x +:+ s = y +:+ t)%string →
  HasPrefix y x = true ∨ HasPrefix x y = true.
Proof.
  revert y. induction x as [|c x IH]; intros y; [left; by destruct y|].
  destruct y as [|d y]; [by right|]. rewrite !append_String. intros [= -> Heq].
  destruct (IH y Heq) as [H|H]; [left|right]; unfold HasPrefix in *; simpl; by destruct (ascii_dec d d).
Qed.

(** Decimal numbers consist of digits. *)
Definition not_digit (c : ascii) : Prop := ∀ x, char_free c (String (pretty_N_char x) "") = true.

Lemma pretty_N_go_free c x s : not_digit c → char_free c s = true → char_free c (pretty_N_go x s) = true.
Proof.
  intros Hc. revert s. induction (N.lt_wf_0 x) as [x _ IH]. intros s Hs.
  destruct (decide (0 < x)%N) as [Hx|Hx].
  - rewrite pretty_N_go_step by done. apply IH; [apply N.div_lt; lia|].
    specialize (Hc (x mod 10)%N). simpl in *. rewrite andb_true_r in Hc. by rewrite Hc, Hs.
  - assert (x = 0%N) as -> by lia. by rewrite pretty_N_go_0.
Qed.

Lemma Itoa_free c z : not_digit c → (0 ≤ z)%Z → char_free c (Itoa z) = true.
Proof.
  intros Hc Hz. unfold Itoa. assert (pretty z = pretty (Z.to_N z)) as ->.
  { destruct z; [done|done|lia]. }
  unfold pretty, pretty_N. destruct (decide _); [apply (Hc 0%N)|by apply pretty_N_go_free].
Qed.

Ltac solve_not_digit := intros x; unfold pretty_N_char; repeat case_match; reflexivity.

Lemma dash_not_digit : not_digit "-".
Proof. solve_not_digit. Qed.
Lemma slash_not_digit : not_digit "/".
Proof. solve_not_digit. Qed.
Lemma A_not_digit : not_digit "A".
Proof. solve_not_digit. Qed.
Lemma plus_not_digit : not_digit "+".
Proof. solve_not_digit. Qed.

(** A text that starts with a character free of [c] does not start with [c]. *)
Lemma char_free_head c d s : char_free c (String d s) = true → d ≠ c.
Proof. simpl. intros [H _]%andb_true_iff. intros ->. by rewrite Ascii.eqb_refl in H. Qed.

Lemma Itoa_nonempty z : (0 ≤ z)%Z → Itoa z ≠ ""%string.
Proof.
  intros Hz. unfold Itoa. assert (pretty z = pretty (Z.to_N z)) as -> by (destruct z; [done|done|lia]).
  unfold pretty, pretty_N. destruct (decide _) as [|Hn]; [done|].
  assert (∀ x s, s ≠ ""%string → pretty_N_go x s ≠ ""%string) as Hgo.
  { intros x. induction (N.lt_wf_0 x) as [x _ IH]. intros s Hs. destruct (decide (0 < x)%N) as [Hx|Hx].
    - rewrite pretty_N_go_step by done. apply IH; [apply N.div_lt; lia|done].
    - assert (x = 0%N) as -> by lia. by rewrite pretty_N_go_0. }
  rewrite pretty_N_go_step by lia. by apply Hgo.
Qed.
