(* ===== verification/KsrModel.v ===== *)
(** * The data model shared through the data store

    The Kubernetes state reflector (plugins/ksr) writes pods, namespaces and
    network policies under the keys built by plugins/ksr/model/{namespace,pod,
    policy}/key.go; the policy plugin reads them back. This file has the
    messages of the .proto files (a pointer to a message is an option, an enum
    is an inductive type), the identifiers of id.go and the keys, with the
    round trips between identifiers, their text and the keys. *)

From Stdlib Require Import ZArith Lia Ascii String.
From stdpp Require Import prelude strings list gmap.
From S2P Require Import Prelude GoStrings.

(** ** Identifiers *)

Record PodID := mkPodID { PodID_Name : string; PodID_Namespace : string }.
Record PolicyID := mkPolicyID { PolicyID_Name : string; PolicyID_Namespace : string }.
(** [namespace.ID] is a string type. *)
Abbreviation NamespaceID := string (only parsing).

#[global] Instance PodID_eq_dec : EqDecision PodID.
Proof. solve_decision. Defined.
#[global] Instance PolicyID_eq_dec : EqDecision PolicyID.
Proof. solve_decision. Defined.

#[global] Program Instance PodID_countable : Countable PodID :=
  inj_countable' (λ i, (PodID_Name i, PodID_Namespace i)) (λ p, mkPodID p.1 p.2) _.
Next Obligation. by intros []. Qed.
#[global] Program Instance PolicyID_countable : Countable PolicyID :=
  inj_countable' (λ i, (PolicyID_Name i, PolicyID_Namespace i)) (λ p, mkPolicyID p.1 p.2) _.
Next Obligation. by intros []. Qed.

(** ** Messages *)

Record Label := mkLabel { Label_Key : string; Label_Value : string }.

#[global] Instance Label_eq_dec : EqDecision Label.
Proof. solve_decision. Defined.

Record Namespace := mkNamespace { Namespace_Name : string; Namespace_Label : list Label }.

Inductive Proto := ProtoTCP | ProtoUDP.

#[global] Instance Proto_eq_dec : EqDecision Proto.
Proof. solve_decision. Defined.

Record ContainerPort := mkContainerPort {
  CP_Name : string;
  CP_HostPort : Z;
  CP_ContainerPort : Z;
  CP_Protocol : Proto;
  CP_HostIpAddress : string
}.

Record Container := mkContainer { Container_Name : string; Container_Port : list ContainerPort }.

Record Pod := mkPod {
  Pod_Name : string;
  Pod_Namespace : string;
  Pod_Label : list Label;
  Pod_IpAddress : string;
  Pod_HostIpAddress : string;
  Pod_Container : list Container
}.

Inductive Operator := OpIn | OpNotIn | OpExists | OpDoesNotExist.

#[global] Instance Operator_eq_dec : EqDecision Operator.
Proof. solve_decision. Defined.

Record LabelExpression := mkLabelExpression {
  LE_Key : string;
  LE_Operator : Operator;
  LE_Value : list string
}.

Record LabelSelector := mkLabelSelector {
  LS_MatchLabel : list Label;
  LS_MatchExpression : list LabelExpression
}.

Inductive PolicyType := PolicyDefault | PolicyIngress | PolicyEgress | PolicyIngressAndEgress.

#[global] Instance PolicyType_eq_dec : EqDecision PolicyType.
Proof. solve_decision. Defined.

Inductive PortRefType := PortNumber | PortName.

#[global] Instance PortRefType_eq_dec : EqDecision PortRefType.
Proof. solve_decision. Defined.

Record PortNameOrNumber := mkPortNameOrNumber {
  PNN_Type : PortRefType;
  PNN_Number : Z;
  PNN_Name : string
}.

Record PolicyPort := mkPolicyPort {
  PP_Protocol : Proto;
  PP_Port : option PortNameOrNumber
}.

Record PeerIPBlock := mkPeerIPBlock { PIB_Cidr : string; PIB_Except : list string }.

Record Peer := mkPeer {
  Peer_Pods : option LabelSelector;
  Peer_Namespaces : option LabelSelector;
  Peer_IpBlock : option PeerIPBlock
}.

(** [Policy.IngressRule] and [Policy.EgressRule]: the peers are [from] and [to]. *)
Record PolicyRule := mkPolicyRule { PR_Port : list PolicyPort; PR_Peers : list Peer }.

Record Policy := mkPolicy {
  Policy_Name : string;
  Policy_Namespace : string;
  Policy_Label : list Label;
  Policy_Pods : option LabelSelector;
  Policy_Type : PolicyType;
  Policy_IngressRule : list PolicyRule;
  Policy_EgressRule : list PolicyRule
}.

(** [GetID]: the zero identifier for a nil message. *)
Definition pod_GetID (p : option Pod) : PodID :=
  match p with Some p => mkPodID (Pod_Name p) (Pod_Namespace p) | None => mkPodID "" "" end.
Definition policy_GetID (p : option Policy) : PolicyID :=
  match p with Some p => mkPolicyID (Policy_Name p) (Policy_Namespace p) | None => mkPolicyID "" "" end.
Definition namespace_GetID (n : option Namespace) : NamespaceID :=
  match n with Some n => Namespace_Name n | None => ""%string end.

(** [ID.String] *)
Definition PodID_String (i : PodID) : string := (PodID_Namespace i +:+ "/" +:+ PodID_Name i)%string.
Definition PolicyID_String (i : PolicyID) : string :=
  (PolicyID_Namespace i +:+ "/" +:+ PolicyID_Name i)%string.

(** ** Keys *)

Definition NamespacePrefix : string := "k8s/namespace/".
Definition PodPrefix : string := "k8s/namespace/{namespace}/pod/".
Definition PolicyPrefix : string := "k8s/namespace/{namespace}/policy/".

Definition namespace_Key (namespace : string) : string := (NamespacePrefix +:+ namespace)%string.
Definition pod_Key (pod namespace : string) : string :=
  (Replace1 PodPrefix "{namespace}" namespace +:+ pod)%string.
Definition policy_Key (policy namespace : string) : string :=
  (Replace1 PolicyPrefix "{namespace}" namespace +:+ policy)%string.

Definition ParseNamespaceFromKey (key : string) : option string :=
  if HasPrefix key NamespacePrefix then
    match Split "/" (TrimPrefix key NamespacePrefix) with
    | [c0] => Some c0
    | _ => None
    end
  else None.

(** The common body of [ParsePodFromKey] and [ParsePolicyFromKey], which differ
    in the middle component only; the result is (name, namespace). *)
Definition parse_scoped_key (kind key : string) : option (string * string) :=
  if HasPrefix key NamespacePrefix then
    match Split "/" (TrimPrefix key NamespacePrefix) with
    | [c0; c1; c2] => if bool_decide (c1 = kind) then Some (c2, c0) else None
    | _ => None
    end
  else None.

Definition ParsePodFromKey : string → option (string * string) := parse_scoped_key "pod".
Definition ParsePolicyFromKey : string → option (string * string) := parse_scoped_key "policy".

(** Kubernetes names have no slash (they are DNS labels or subdomains). *)
Abbreviation no_slash s := (char_free "/" s = true).

(** ** Round trips *)

Lemma pod_Key_eq p n : pod_Key p n = (NamespacePrefix +:+ n +:+ String "/" ("pod" +:+ String "/" p))%string.
Proof.
  transitivity ((NamespacePrefix +:+ (n +:+ "/pod/")) +:+ p)%string; [done|].
  by rewrite !append_assoc.
Qed.

Lemma policy_Key_eq p n :
  policy_Key p n = (NamespacePrefix +:+ n +:+ String "/" ("policy" +:+ String "/" p))%string.
Proof.
  transitivity ((NamespacePrefix +:+ (n +:+ "/policy/")) +:+ p)%string; [done|].
  by rewrite !append_assoc.
Qed.

Lemma parse_scoped_key_build kind p n :
  no_slash kind → no_slash p → no_slash n →
  parse_scoped_key kind (NamespacePrefix +:+ n +:+ String "/" (kind +:+ String "/" p)) = Some (p, n).
Proof.
  intros Hk Hp Hn. unfold parse_scoped_key.
  rewrite HasPrefix_app, TrimPrefix_app, !Split_app, Split_free by done.
  by rewrite bool_decide_true.
Qed.

(** A key of another kind does not parse. *)
Lemma parse_scoped_key_other kind kind' p n :
  kind ≠ kind' → no_slash kind' → no_slash p → no_slash n →
  parse_scoped_key kind (NamespacePrefix +:+ n +:+ String "/" (kind' +:+ String "/" p)) = None.
Proof.
  intros Hne Hk Hp Hn. unfold parse_scoped_key.
  rewrite HasPrefix_app, TrimPrefix_app, !Split_app, Split_free by done. by rewrite bool_decide_false.
Qed.

Lemma parse_scoped_key_namespace kind n : no_slash n → parse_scoped_key kind (namespace_Key n) = None.
Proof. intros Hn. unfold parse_scoped_key, namespace_Key. by rewrite HasPrefix_app, TrimPrefix_app, Split_free. Qed.

Lemma parse_scoped_key_inv kind key p n :
  parse_scoped_key kind key = Some (p, n) →
  key = (NamespacePrefix +:+ n +:+ String "/" (kind +:+ String "/" p))%string ∧ no_slash p ∧ no_slash n.
Proof.
  unfold parse_scoped_key. destruct (HasPrefix key NamespacePrefix) eqn:E; [|done].
  apply HasPrefix_split in E as [r ->]. rewrite TrimPrefix_app.
  destruct (Split "/" r) as [|c0 [|c1 [|c2 [|]]]] eqn:Es; try done.
  apply Split_cons in Es as [H0 (r1 & -> & Es)].
  apply Split_cons in Es as [H1 (r2 & -> & Es)].
  apply Split_cons in Es as [H2 ->].
  case_bool_decide as Hk; [|done]. intros [= <- <-]. by subst.
Qed.

Lemma ParseNamespaceFromKey_inv key ns : ParseNamespaceFromKey key = Some ns → key = namespace_Key ns.
Proof.
  unfold ParseNamespaceFromKey. destruct (HasPrefix key NamespacePrefix) eqn:E; [|done].
  apply HasPrefix_split in E as [r ->]. rewrite TrimPrefix_app.
  destruct (Split "/" r) as [|c0 [|]] eqn:Es; try done. apply Split_cons in Es as [_ ->]. by intros [= <-].
Qed.

Lemma ID_text_inj (n1 p1 n2 p2 : string) :
  no_slash n1 → no_slash n2 →
  (n1 +:+ String "/" p1 = n2 +:+ String "/" p2)%string → n1 = n2 ∧ p1 = p2.
Proof.
  revert n2. induction n1 as [|c n1 IH]; intros n2 H1 H2.
  - destruct n2 as [|d n2]; [by intros [= ->]|]. simpl in H2.
    rewrite append_String, append_nil_l. intros [= <- _]. done.
  - destruct n2 as [|d n2]; simpl in H1.
    + rewrite append_String, append_nil_l. intros [= -> _]. done.
    + rewrite !append_String. intros [= -> Heq]. simpl in H2.
      apply andb_true_iff in H1 as [_ H1], H2 as [_ H2].
      destruct (IH n2 H1 H2 Heq) as [-> ->]. done.
Qed.
