(* ===== verification/Utils.v ===== *)
(** * plugins/policy/utils/utils.go

    The helpers on string slices, on the textual form of identifiers and on
    networks that the policy components share. *)

From Stdlib Require Import ZArith Lia Ascii String.
From stdpp Require Import prelude strings list gmap.
From S2P Require Import Prelude GoStrings GoNet KsrModel.

(** The map literal filled by the first loop of the three functions below. *)
Definition hash_of (a : list string) : gmap string bool :=
  foldl (λ h el, <[el := true]> h) ∅ a.

Definition RemoveDuplicates `{RangeOracle} (site : list Z) (el : list string) : list string :=
  range_keys site (hash_of el).

Definition Intersect (a b : list string) : list string :=
  let hash := hash_of a in
  filter (λ el, is_Some (hash !! el)) b.

Definition Difference (a b : list string) : list string :=
  let hash := hash_of a in
  filter (λ el, ¬ is_Some (hash !! el)) b.

(** [parts\[0\]], [parts\[1\]] of a text split at the slashes; a text without a
    slash makes the index panic. *)
Definition split_id (s : string) : option (string * string) :=
  let parts := Split "/" s in
  p1 ← parts !! 1; p0 ← parts !! 0; Some (p1, p0).

Definition UnstringPodID (pods : list string) : option (list PodID) :=
  mapM (λ pod, '(name, ns) ← split_id pod; Some (mkPodID name ns)) pods.
Definition StringPodID (pods : list PodID) : list string :=
  (λ pod, PodID_Namespace pod +:+ "/" +:+ PodID_Name pod)%string <$> pods.

Definition UnstringPolicyID (policies : list string) : option (list PolicyID) :=
  mapM (λ policy, '(name, ns) ← split_id policy; Some (mkPolicyID name ns)) policies.
Definition StringPolicyID (policies : list PolicyID) : list string :=
  (λ policy, PolicyID_Namespace policy +:+ "/" +:+ PolicyID_Name policy)%string <$> policies.

Definition UnstringNamespaceID (namespaces : list string) : list NamespaceID := namespaces.

Definition ConstructLabels (key : string) (values : list string) : list Label :=
  mkLabel key <$> values.

Definition CompareInts (a b : Z) : comparison :=
  if (a <? b)%Z then Lt else if (b <? a)%Z then Gt else Eq.

Definition CompareIPNets (a b : IPNet) : comparison :=
  bytes_Compare (IPNet_IP a) (IPNet_IP b) >>? bytes_Compare (IPNet_Mask a) (IPNet_Mask b).

Definition CompareIPNetsBytes (aPrefixLen : Z) (aIP : list Z) (bPrefixLen : Z) (bIP : list Z) :
    comparison :=
  CompareInts aPrefixLen bPrefixLen >>? bytes_Compare aIP bIP.

(** [None] is the nil result. *)
Definition GetOneHostSubnet (hostAddr : string) : option IPNet :=
  let ip := ParseIP hostAddr in
  if bytesEqual ip [] then None
  else if negb (bytesEqual (To4 ip) [])
  then Some (mkIPNet ip (CIDRMask (Z.of_nat IPv4len * 8) (Z.of_nat IPv4len * 8)))
  else Some (mkIPNet ip (CIDRMask (Z.of_nat IPv6len * 8) (Z.of_nat IPv6len * 8))).

(** ** Lemmas *)

Lemma hash_of_acc a h el :
  is_Some (foldl (λ h el, <[el := true]> h) h a !! el) ↔ el ∈ a ∨ is_Some ((h : gmap string bool) !! el).
Proof.
  revert h. induction a as [|x a IH]; intros h; simpl.
  - rewrite elem_of_nil. naive_solver.
  - rewrite IH, elem_of_cons, lookup_insert_is_Some. destruct (decide (x = el)); naive_solver.
Qed.

Lemma hash_of_spec a el : is_Some (hash_of a !! el) ↔ el ∈ a.
Proof.
  unfold hash_of. rewrite hash_of_acc, lookup_empty. split; [|by left].
  intros [?|[? [=]]]. done.
Qed.

Lemma RemoveDuplicates_spec `{RangeOracle} site el :
  NoDup (RemoveDuplicates site el) ∧ ∀ x, x ∈ RemoveDuplicates site el ↔ x ∈ el.
Proof.
  split; [apply range_keys_NoDup|]. intros x. unfold RemoveDuplicates.
  by rewrite elem_of_range_keys, hash_of_spec.
Qed.

Lemma elem_of_Intersect a b x : x ∈ Intersect a b ↔ x ∈ a ∧ x ∈ b.
Proof. unfold Intersect. rewrite list_elem_of_filter, hash_of_spec. done. Qed.

Lemma elem_of_Difference a b x : x ∈ Difference a b ↔ (x ∉ a) ∧ x ∈ b.
Proof. unfold Difference. rewrite list_elem_of_filter, hash_of_spec. done. Qed.

#[export] Hint Rewrite elem_of_Intersect elem_of_Difference : contiv.

Lemma split_id_text n p : no_slash n → no_slash p → split_id (n +:+ "/" +:+ p)%string = Some (p, n).
Proof.
  intros Hn Hp. unfold split_id.
  change ("/" +:+ p)%string with (String "/" p). by rewrite Split_app, Split_free.
Qed.

Lemma CompareInts_Z a b : CompareInts a b = Z.compare a b.
Proof. unfold CompareInts. destruct (Z.ltb_spec a b), (Z.ltb_spec b a), (Z.compare_spec a b); lia || done. Qed.

#[global] Instance CompareInts_total : TotalCompare CompareInts.
Proof.
  split; intros *; rewrite !CompareInts_Z; [apply (cmp_eq Z.compare)|apply (cmp_opp Z.compare)|apply (cmp_trans Z.compare)].
Qed.

Lemma CompareIPNets_pair :
  CompareIPNets = cmp_on (λ n, (IPNet_IP n, IPNet_Mask n)) (cmp_pair bytes_Compare bytes_Compare).
Proof. done. Qed.

#[global] Instance CompareIPNets_total : TotalCompare CompareIPNets.
Proof.
  rewrite CompareIPNets_pair.
  assert (Inj (=) (=) (λ n, (IPNet_IP n, IPNet_Mask n))) by (by intros [] [] [= -> ->]).
  apply _.
Qed.
