(* ===== verification/Rules.v ===== *)
(** * plugins/policy/renderer/api.go

    Contiv rules: the n-tuples the policy configurator hands to the renderers,
    with their order. The [SrcNetwork] and [DestNetwork] pointers are values
    here ([emptyIPNet] is "match all"): no code writes through them. *)

From Stdlib Require Import ZArith Lia Ascii String.
From stdpp Require Import prelude strings list gmap.
From S2P Require Import Prelude GoNet KsrModel Utils.

Inductive ActionType := ActionDeny | ActionPermit.
Inductive ProtocolType := TCP | UDP.

#[global] Instance ActionType_eq_dec : EqDecision ActionType.
Proof. solve_decision. Defined.
#[global] Instance ProtocolType_eq_dec : EqDecision ProtocolType.
Proof. solve_decision. Defined.

(** [int(action)], [int(protocol)]: the iota constants. *)
Definition ActionType_int (a : ActionType) : Z := match a with ActionDeny => 0 | ActionPermit => 1 end.
Definition ProtocolType_int (p : ProtocolType) : Z := match p with TCP => 0 | UDP => 1 end.

Definition ActionType_String (a : ActionType) : string :=
  match a with ActionDeny => "DENY" | ActionPermit => "PERMIT" end.
Definition ProtocolType_String (p : ProtocolType) : string :=
  match p with TCP => "TCP" | UDP => "UDP" end.

Record ContivRule := mkContivRule {
  ID : string;
  Action : ActionType;
  SrcNetwork : IPNet;
  DestNetwork : IPNet;
  Protocol : ProtocolType;
  SrcPort : Z;
  DestPort : Z
}.

#[global] Instance ContivRule_eq_dec : EqDecision ContivRule.
Proof. solve_decision. Defined.

Definition ContivRule_String (cr : ContivRule) : string :=
  let net n := if 0 <? length (IPNet_IP n) then IPNet_String n else "ANY"%string in
  let port p := if negb (p =? 0)%Z then Itoa p else "ANY"%string in
  let proto := ProtocolType_String (Protocol cr) in
  ("Rule " +:+ ID cr +:+ " <" +:+ ActionType_String (Action cr) +:+ " "
   +:+ net (SrcNetwork cr) +:+ "[" +:+ proto +:+ ":" +:+ port (SrcPort cr) +:+ "] -> "
   +:+ net (DestNetwork cr) +:+ "[" +:+ proto +:+ ":" +:+ port (DestPort cr) +:+ "]>")%string.

Definition ContivRule_Copy (cr : ContivRule) : ContivRule := cr.

Definition ContivRule_Compare (cr cr2 : ContivRule) : comparison :=
  string_Compare (ID cr) (ID cr2) >>?
  CompareInts (ActionType_int (Action cr)) (ActionType_int (Action cr2)) >>?
  CompareIPNets (SrcNetwork cr) (SrcNetwork cr2) >>?
  CompareIPNets (DestNetwork cr) (DestNetwork cr2) >>?
  CompareInts (ProtocolType_int (Protocol cr)) (ProtocolType_int (Protocol cr2)) >>?
  CompareInts (SrcPort cr) (SrcPort cr2) >>?
  CompareInts (DestPort cr) (DestPort cr2).

(** What a rule matches: the addresses, the protocol and the ports of a
    packet, an empty network or a zero port matching everything. This is the
    meaning the comments of api.go give to the fields. *)
Record Packet := mkPacket {
  pkt_src : IP;
  pkt_dst : IP;
  pkt_proto : ProtocolType;
  pkt_sport : Z;
  pkt_dport : Z
}.

Definition net_matches (n : IPNet) (ip : IP) : bool :=
  (length (IPNet_IP n) =? 0) || IPNet_Contains n ip.

Definition port_matches (p port : Z) : bool := ((p =? 0) || (p =? port))%Z.

Definition rule_matches (r : ContivRule) (p : Packet) : bool :=
  net_matches (SrcNetwork r) (pkt_src p) && net_matches (DestNetwork r) (pkt_dst p)
  && bool_decide (Protocol r = pkt_proto p)
  && port_matches (SrcPort r) (pkt_sport p) && port_matches (DestPort r) (pkt_dport p).

(** A call of [Render] of a renderer transaction. *)
Record RenderCall := mkRenderCall {
  rc_pod : PodID;
  rc_podIP : IPNet;
  rc_ingress : list ContivRule;
  rc_egress : list ContivRule
}.

(** ** The order of rules *)

Definition ContivRule_key (r : ContivRule) :=
  (ID r, (ActionType_int (Action r), (SrcNetwork r, (DestNetwork r,
   (ProtocolType_int (Protocol r), (SrcPort r, DestPort r)))))).

#[global] Instance ContivRule_key_inj : Inj (=) (=) ContivRule_key.
Proof.
  intros [i a s d p sp dp] [i' a' s' d' p' sp' dp'] [= -> Ha -> -> Hp -> ->].
  by destruct a, a', p, p'.
Qed.

Lemma ContivRule_Compare_lex :
  ContivRule_Compare = cmp_on ContivRule_key
    (cmp_pair string_Compare (cmp_pair CompareInts (cmp_pair CompareIPNets (cmp_pair CompareIPNets
      (cmp_pair CompareInts (cmp_pair CompareInts CompareInts)))))).
Proof. done. Qed.

#[global] Instance ContivRule_Compare_total : TotalCompare ContivRule_Compare.
Proof. rewrite ContivRule_Compare_lex. apply _. Qed.
