(* ===== verification/Md5.v ===== *)
(** * MD5 and hexadecimal text (Go's [crypto/md5] and [encoding/hex])

    The tags of session rules are hexadecimal MD5 digests
    (plugins/policy/renderer/vpptcp/cache/cache_impl.go, [getMD5Hash]). The
    digest is the algorithm of RFC 1321 on 32-bit words kept as [Z] below
    2^32. *)

From Stdlib Require Import ZArith Lia Ascii String.
From stdpp Require Import prelude strings list.
From S2P Require Import Prelude GoNet.

(** The sine table. *)
Definition md5_T : list Z :=
  [
   3614090360; 3905402710; 606105819; 3250441966; 4118548399; 1200080426;
   2821735955; 4249261313; 1770035416; 2336552879; 4294925233; 2304563134;
   1804603682; 4254626195; 2792965006; 1236535329; 4129170786; 3225465664;
   643717713; 3921069994; 3593408605; 38016083; 3634488961; 3889429448;
   568446438; 3275163606; 4107603335; 1163531501; 2850285829; 4243563512;
   1735328473; 2368359562; 4294588738; 2272392833; 1839030562; 4259657740;
   2763975236; 1272893353; 4139469664; 3200236656; 681279174; 3936430074;
   3572445317; 76029189; 3654602809; 3873151461; 530742520; 3299628645;
   4096336452; 1126891415; 2878612391; 4237533241; 1700485571; 2399980690;
   4293915773; 2240044497; 1873313359; 4264355552; 2734768916; 1309151649;
   4149444226; 3174756917; 718787259; 3951481745]%Z.

(** Rotation amounts of the four rounds. *)
Definition md5_S : list (list Z) := [[7; 12; 17; 22]; [5; 9; 14; 20]; [4; 11; 16; 23]; [6; 10; 15; 21]]%Z.

Definition rotl32 (x s : Z) : Z := Z.lor (u32 (Z.shiftl x s)) (Z.shiftr x (32 - s)).
Definition not32 (x : Z) : Z := Z.lxor x 4294967295.

Definition md5_round (i : nat) (b c d : Z) : Z * nat :=
  match (i / 16)%nat with
  | 0 => (Z.lor (Z.land b c) (Z.land (not32 b) d), i)
  | 1 => (Z.lor (Z.land d b) (Z.land (not32 d) c), (5 * i + 1) mod 16)
  | 2 => (Z.lxor b (Z.lxor c d), (3 * i + 5) mod 16)
  | _ => (Z.lxor c (Z.lor b (not32 d)), (7 * i) mod 16)
  end.

Definition md5_step (x : list Z) (st : Z * Z * Z * Z) (i : nat) : Z * Z * Z * Z :=
  let '(a, b, c, d) := st in
  let '(f, g) := md5_round i b c d in
  let s := ((md5_S !!! (i / 16)%nat) !!! (i mod 4)%nat) in
  let f := u32 (f + a + md5_T !!! i + x !!! g) in
  (d, u32 (b + rotl32 f s), b, c).

Definition md5_block (st : Z * Z * Z * Z) (x : list Z) : Z * Z * Z * Z :=
  let '(a, b, c, d) := st in
  let '(a', b', c', d') := foldl (md5_step x) st (seq 0 64) in
  (u32 (a + a'), u32 (b + b'), u32 (c + c'), u32 (d + d')).

(** Little-endian words of a byte string. *)
Fixpoint le_words (l : list Z) : list Z :=
  match l with
  | b0 :: b1 :: b2 :: b3 :: l =>
    (b0 + Z.shiftl b1 8 + Z.shiftl b2 16 + Z.shiftl b3 24)%Z :: le_words l
  | _ => []
  end.

Definition le_bytes (n : nat) (z : Z) : list Z :=
  (λ i, Z.land (Z.shiftr z (8 * Z.of_nat i)) 255) <$> seq 0 n.

(** A one bit, zeros up to 56 modulo 64, the length in bits. *)
Definition md5_pad (msg : list Z) : list Z :=
  let n := length msg in
  msg ++ 128%Z :: replicate ((119 - n mod 64) mod 64)%nat 0%Z ++ le_bytes 8 (8 * Z.of_nat n).

Fixpoint chunks16 (fuel : nat) (l : list Z) : list (list Z) :=
  match fuel, l with
  | S fuel, _ :: _ => take 16 l :: chunks16 fuel (drop 16 l)
  | _, _ => []
  end.

Definition md5_Sum (msg : list Z) : list Z :=
  let ws := le_words (md5_pad msg) in
  let '(a, b, c, d) :=
    foldl md5_block (1732584193, 4023233417, 2562383102, 271733878)%Z (chunks16 (length ws) ws) in
  le_bytes 4 a ++ le_bytes 4 b ++ le_bytes 4 c ++ le_bytes 4 d.

(** [\[\]byte(s)] *)
Definition string_bytes (s : string) : list Z := Z.of_N <$> string_codes s.

(** [hex.EncodeToString] is [GoNet.hexString]. *)
Definition getMD5Hash (text : string) : string := hexString (md5_Sum (string_bytes text)).

(** ** Lemmas *)

Example md5_empty : getMD5Hash "" = "d41d8cd98f00b204e9800998ecf8427e"%string.
Proof. by vm_compute. Qed.
Example md5_abc : getMD5Hash "abc" = "900150983cd24fb0d6963f7d28e17f72"%string.
Proof. by vm_compute. Qed.
(** Two blocks. *)
Example md5_digits :
  getMD5Hash "12345678901234567890123456789012345678901234567890123456789012345678901234567890"
  = "57edf4a22be3c955ac49da2e2107b67a"%string.
Proof. by vm_compute. Qed.

Lemma hexString_length b : String.length (hexString b) = 2 * length b.
Proof. induction b as [|x b IH]; simpl; [done|]. rewrite IH. lia. Qed.

Lemma getMD5Hash_length text : String.length (getMD5Hash text) = 32.
Proof.
  unfold getMD5Hash. rewrite hexString_length. unfold md5_Sum.
  destruct (foldl _ _ _) as [[[a b] c] d]. done.
Qed.

Lemma string_codes_app s t : string_codes (s +:+ t) = string_codes s ++ string_codes t.
Proof.
  induction s as [|c s IH]; [done|].
  change (N_of_ascii c :: string_codes (s +:+ t) = N_of_ascii c :: (string_codes s ++ string_codes t)).
  by rewrite IH.
Qed.

Lemma string_bytes_app s t : string_bytes (s +:+ t) = string_bytes s ++ string_bytes t.
Proof. unfold string_bytes. by rewrite string_codes_app, fmap_app. Qed.

Lemma string_bytes_length s : length (string_bytes s) = String.length s.
Proof.
  unfold string_bytes, string_codes. rewrite !length_fmap.
  induction s as [|c s IH]; simpl; [done|]. by rewrite IH.
Qed.

(** The text of the bytes of a string. *)
Lemma string_bytes_text s :
  String.string_of_list_ascii ((λ z, ascii_of_N (Z.to_N z)) <$> string_bytes s) = s.
Proof.
  unfold string_bytes, string_codes. rewrite <-!list_fmap_compose.
  rewrite (list_fmap_ext _ id); [by rewrite list_fmap_id, String.string_of_list_ascii_of_string|].
  intros i c _. simpl. by rewrite N2Z.id, ascii_N_embedding.
Qed.

Lemma hex_digit_code z : (0 ≤ z < 16)%Z → (48 ≤ Z.of_N (N_of_ascii (hex_digit z)) ≤ 102)%Z.
Proof.
  intros Hz. unfold hex_digit. rewrite N_ascii_embedding; destruct (Z.ltb_spec z 10); lia.
Qed.

Lemma hexString_nonzero b : wf_bytes b → Forall (λ z, z ≠ 0%Z) (string_bytes (hexString b)).
Proof.
  induction 1 as [|v b [Hv1 Hv2] _ IH]; [constructor|].
  assert (0 ≤ Z.shiftr v 4 < 16)%Z as H1.
  { rewrite Z.shiftr_div_pow2 by lia. split; [apply Z.div_pos; lia|].
    apply Z.div_lt_upper_bound; lia. }
  assert (0 ≤ Z.land v 15 < 16)%Z as H2.
  { change 15%Z with (Z.ones 4). rewrite Z.land_ones by lia. apply Z.mod_pos_bound. lia. }
  apply hex_digit_code in H1, H2.
  unfold string_bytes, string_codes in *. simpl. constructor; [lia|]. constructor; [lia|done].
Qed.

Lemma le_bytes_wf n z : wf_bytes (le_bytes n z).
Proof.
  unfold le_bytes, wf_bytes. rewrite Forall_fmap, Forall_forall. intros i _. simpl.
  apply land_byte. unfold is_byte. lia.
Qed.

Lemma getMD5Hash_nonzero text : Forall (λ z, z ≠ 0%Z) (string_bytes (getMD5Hash text)).
Proof.
  apply hexString_nonzero. unfold md5_Sum. destruct (foldl _ _ _) as [[[a b] c] d].
  unfold wf_bytes. rewrite !Forall_app. repeat split; apply le_bytes_wf.
Qed.
