(* ===== verification/SessionRules.v ===== *)
(** * Session rules and their ordered lists

    plugins/policy/renderer/vpptcp/cache/cache_api.go ([SessionRule], [Compare])
    and the [SessionRuleList] of cache_impl.go: a slice of pointers ordered by
    [Compare] without the tag, with insertion, removal by index and [Diff].
    The fixed-size arrays of a rule are lists of byte values. *)

From Stdlib Require Import ZArith Lia Ascii String.
From stdpp Require Import prelude strings list gmap sorting.
From S2P Require Import Prelude Slots GoNet Utils.

Record SessionRule := mkSessionRule {
  TransportProto : Z;
  IsIP4 : Z;
  LclIP : list Z;
  LclPlen : Z;
  RmtIP : list Z;
  RmtPlen : Z;
  LclPort : Z;
  RmtPort : Z;
  ActionIndex : Z;
  AppnsIndex : Z;
  Scope : Z;
  Tag : list Z
}.

#[global] Instance SessionRule_eq_dec : EqDecision SessionRule.
Proof. solve_decision. Defined.

(** [&SessionRule{}] *)
Definition zeroSessionRule : SessionRule :=
  mkSessionRule 0 0 (replicate 16 0%Z) 0 (replicate 16 0%Z) 0 0 0 0 0 0 (replicate 64 0%Z).

Definition RuleScopeGlobal : Z := 1.
Definition RuleScopeLocal : Z := 2.
Definition RuleScopeBoth : Z := 3.
Definition RuleActionDoNothing : Z := 2 ^ 32 - 1.
Definition RuleActionDeny : Z := 2 ^ 32 - 2.
Definition RuleActionAllow : Z := 2 ^ 32 - 3.
Definition RuleProtoTCP : Z := 0.
Definition RuleProtoUDP : Z := 1.

Definition SessionRule_Compare (sr sr2 : SessionRule) (compareTag : bool) : comparison :=
  CompareInts (AppnsIndex sr) (AppnsIndex sr2) >>?
  CompareInts (Scope sr) (Scope sr2) >>?
  CompareInts (ActionIndex sr) (ActionIndex sr2) >>?
  CompareInts (IsIP4 sr) (IsIP4 sr2) >>?
  CompareIPNetsBytes (LclPlen sr) (LclIP sr) (LclPlen sr2) (LclIP sr2) >>?
  CompareIPNetsBytes (RmtPlen sr) (RmtIP sr) (RmtPlen sr2) (RmtIP sr2) >>?
  CompareInts (TransportProto sr) (TransportProto sr2) >>?
  CompareInts (LclPort sr) (LclPort sr2) >>?
  CompareInts (RmtPort sr) (RmtPort sr2) >>?
  (if compareTag then bytes_Compare (Tag sr) (Tag sr2) else Eq).

Definition SessionRule_Copy (sr : SessionRule) : SessionRule := sr.

(** [String]; [None] is the slice-bounds panic of a tag without a zero byte. *)
Definition SessionRule_String (sr : SessionRule) : option string :=
  let scope := if (Scope sr =? 0)%Z then "global" else if (Scope sr =? RuleScopeGlobal)%Z then "global"
    else if (Scope sr =? RuleScopeLocal)%Z then "local"
    else if (Scope sr =? RuleScopeBoth)%Z then "both" else "invalid" in
  let action := if (ActionIndex sr =? RuleActionDoNothing)%Z then "do-nothing"%string
    else if (ActionIndex sr =? RuleActionAllow)%Z then "allow"%string
    else if (ActionIndex sr =? RuleActionDeny)%Z then "deny"%string
    else ("fwd->" +:+ Itoa (ActionIndex sr))%string in
  let ipLen := if (IsIP4 sr =? 0)%Z then IPv6len else IPv4len in
  let net ip plen := mkIPNet (take ipLen ip) (CIDRMask plen (Z.of_nat ipLen * 8)) in
  let proto := if (TransportProto sr =? RuleProtoTCP)%Z then "TCP"
    else if (TransportProto sr =? RuleProtoUDP)%Z then "UDP" else "invalid" in
  '(tagLen, _) ← list_find (λ b, b = 0%Z) (Tag sr);
  let tag := String.string_of_list_ascii ((λ z, ascii_of_N (Z.to_N z)) <$> take tagLen (Tag sr)) in
  Some ("Rule <ns:" +:+ Itoa (AppnsIndex sr) +:+ " scope:" +:+ scope +:+ " action:" +:+ action
    +:+ " lcl:" +:+ IPNet_String (net (LclIP sr) (LclPlen sr)) +:+ "[" +:+ proto +:+ ":" +:+ Itoa (LclPort sr)
    +:+ "] rmt:" +:+ IPNet_String (net (RmtIP sr) (RmtPlen sr)) +:+ ":[" +:+ proto +:+ ":" +:+ Itoa (RmtPort sr)
    +:+ "] tag:" +:+ tag +:+ ">")%string.

(** ** [SessionRuleList] *)

Record SessionRuleList := mkSessionRuleList {
  numItems : nat;
  rules : list (option SessionRule)
}.

Definition NewSessionRuleList : SessionRuleList := mkSessionRuleList 0 [].

Definition lookupIdxByRule (srl : SessionRuleList) (rule : SessionRule) : option nat :=
  sort_Search (numItems srl)
    (λ i, r ← deref (rules srl) i; Some (le0 (SessionRule_Compare rule r false))).

Definition insert_rule (srl : SessionRuleList) (rule : SessionRule) : option (SessionRuleList * bool) :=
  idx ← lookupIdxByRule srl rule;
  same ← (if idx <? numItems srl then
            r ← deref (rules srl) idx; Some (bool_decide (SessionRule_Compare rule r false = Eq))
          else Some false);
  if same : bool then Some (srl, false)
  else
    let slots := slots_insert (numItems srl) (rules srl) idx rule in
    if idx <? length slots then Some (mkSessionRuleList (S (numItems srl)) slots, true) else panic.

(** [Insert(rules ...*SessionRule) bool] *)
Fixpoint Insert_loop (srl : SessionRuleList) (allIn : bool) (rs : list SessionRule) :
    option (SessionRuleList * bool) :=
  match rs with
  | [] => Some (srl, allIn)
  | rule :: rs =>
    '(srl, ok) ← insert_rule srl rule;
    Insert_loop srl (if ok : bool then allIn else false) rs
  end.

Definition Insert (srl : SessionRuleList) (rs : list SessionRule) : option (SessionRuleList * bool) :=
  Insert_loop srl true rs.

Definition Remove (srl : SessionRuleList) (idx : nat) : option (SessionRuleList * bool) :=
  if idx <? numItems srl then
    if numItems srl - 1 <? length (rules srl)
    then Some (mkSessionRuleList (numItems srl - 1) (slots_remove (numItems srl) (rules srl) idx), true)
    else panic
  else Some (srl, false).

(** [Diff]: every round advances one of the two indexes, so the number of items
    of the two lists, plus one to leave the loop, bounds the rounds; running
    out of rounds is [None], as a panic is. The results are slices of
    pointers. *)
Fixpoint Diff_loop (fuel : nat) (srl srl2 : SessionRuleList) (idx1 idx2 : nat)
    (added removed : list (option SessionRule)) :
    option (list (option SessionRule) * list (option SessionRule)) :=
  match fuel with
  | O => None
  | S fuel =>
    if (idx1 <? numItems srl) || (idx2 <? numItems srl2) then
      if idx1 <? numItems srl then
        if idx2 <? numItems srl2 then
          p1 ← rules srl !! idx1; r1 ← p1;
          p2 ← rules srl2 !! idx2; r2 ← p2;
          match SessionRule_Compare r1 r2 true with
          | Eq => Diff_loop fuel srl srl2 (S idx1) (S idx2) added removed
          | Lt => Diff_loop fuel srl srl2 (S idx1) idx2 (added ++ [p1]) removed
          | Gt => Diff_loop fuel srl srl2 idx1 (S idx2) added (removed ++ [p2])
          end
        else
          p1 ← rules srl !! idx1;
          Diff_loop fuel srl srl2 (S idx1) idx2 (added ++ [p1]) removed
      else
        p2 ← rules srl2 !! idx2;
        Diff_loop fuel srl srl2 idx1 (S idx2) added (removed ++ [p2])
    else Some (added, removed)
  end.

Definition Diff (srl srl2 : SessionRuleList) :
    option (list (option SessionRule) * list (option SessionRule)) :=
  Diff_loop (numItems srl + numItems srl2 + 1) srl srl2 0 0 [] [].

(** ** Specification *)

(** What [Compare] without the tag looks at. *)
Definition SessionRule_key (r : SessionRule) :=
  (AppnsIndex r, (Scope r, (ActionIndex r, (IsIP4 r, ((LclPlen r, LclIP r),
   ((RmtPlen r, RmtIP r), (TransportProto r, (LclPort r, RmtPort r)))))))).

Definition key_Compare :=
  cmp_pair CompareInts (cmp_pair CompareInts (cmp_pair CompareInts (cmp_pair CompareInts
    (cmp_pair (cmp_pair CompareInts bytes_Compare) (cmp_pair (cmp_pair CompareInts bytes_Compare)
      (cmp_pair CompareInts (cmp_pair CompareInts CompareInts))))))).

(** The list stands for the rules [l]: the used slots hold them in strictly
    increasing order of their keys. *)
Definition srl_repr (srl : SessionRuleList) (l : list SessionRule) : Prop :=
  slots_repr (numItems srl) (rules srl) l ∧
  StronglySorted (key_lt key_Compare) (SessionRule_key <$> l).

(** No unused slot: what a list only inserted into looks like. *)
Definition srl_tight (srl : SessionRuleList) : Prop := length (rules srl) = numItems srl.

(** The rules in [l] that are not in [k], in order. *)
Definition rules_minus (l k : list SessionRule) : list SessionRule := filter (λ r, r ∉ k) l.

(** Insertion in the abstract: a rule is added unless its key is present. *)
Definition add_rule (l : list SessionRule) (r : SessionRule) (l' : list SessionRule) : Prop :=
  if decide (SessionRule_key r ∈ SessionRule_key <$> l) then l' = l
  else l' ≡ₚ r :: l.

(** Inserting a sequence: the first rule of each key wins. *)
Fixpoint add_rules (l : list SessionRule) (rs : list SessionRule) (l' : list SessionRule) : Prop :=
  match rs with
  | [] => l' = l
  | r :: rs => ∃ l1, add_rule l r l1 ∧ add_rules l1 rs l'
  end.

(** ** Lemmas: the order *)

#[global] Instance key_Compare_total : TotalCompare key_Compare.
Proof. unfold key_Compare. apply _. Qed.

Lemma SessionRule_Compare_key a b :
  SessionRule_Compare a b false = key_Compare (SessionRule_key a) (SessionRule_key b).
Proof.
  unfold SessionRule_Compare, key_Compare, cmp_pair, CompareIPNetsBytes; simpl.
  by rewrite (right_id_L Eq cmp_then).
Qed.

Definition SessionRule_full (r : SessionRule) := (SessionRule_key r, Tag r).

Lemma SessionRule_Compare_full a b :
  SessionRule_Compare a b true =
  cmp_pair key_Compare bytes_Compare (SessionRule_full a) (SessionRule_full b).
Proof.
  unfold SessionRule_Compare, key_Compare, cmp_pair, CompareIPNetsBytes; simpl.
  by rewrite !cmp_then_assoc.
Qed.

#[global] Instance SessionRule_full_inj : Inj (=) (=) SessionRule_full.
Proof. intros [] [] [=]. by subst. Qed.

#[global] Instance SessionRule_Compare_total :
  TotalCompare (λ a b, SessionRule_Compare a b true).
Proof.
  pose proof (cmp_on_total SessionRule_full (cmp_pair key_Compare bytes_Compare)) as [H1 H2 H3].
  split; intros *; rewrite !SessionRule_Compare_full; [apply H1|apply H2|apply H3].
Qed.

Lemma SessionRule_Compare_keys_lt a b :
  key_Compare (SessionRule_key a) (SessionRule_key b) = Lt → SessionRule_Compare a b true = Lt.
Proof. intros H. rewrite SessionRule_Compare_full. unfold cmp_pair; simpl. by rewrite H. Qed.

(** ** Lemmas: the ordered list *)

Lemma srl_deref srl l i :
  srl_repr srl l → i < numItems srl → deref (rules srl) i = l !! i.
Proof. intros [H _]. by apply slots_repr_deref. Qed.

Lemma srl_numItems srl l : srl_repr srl l → numItems srl = length l.
Proof. intros [[H _] _]. done. Qed.

Lemma srl_NoDup_keys srl l : srl_repr srl l → NoDup (SessionRule_key <$> l).
Proof. intros [_ H]. by apply (sorted_NoDup key_Compare). Qed.

Lemma NewSessionRuleList_repr : srl_repr NewSessionRuleList [].
Proof. split; [apply slots_repr_nil|constructor]. Qed.

Lemma lookupIdxByRule_spec srl l r :
  srl_repr srl l →
  ∃ idx, lookupIdxByRule srl r = Some idx ∧ idx ≤ length l ∧
    Forall (λ k, key_lt key_Compare k (SessionRule_key r)) (take idx (SessionRule_key <$> l)) ∧
    Forall (λ k, le0 (key_Compare (SessionRule_key r) k) = true) (drop idx (SessionRule_key <$> l)).
Proof.
  intros Hl. pose proof Hl as [_ Hs].
  edestruct (search_sorted key_Compare (SessionRule_key r) (SessionRule_key <$> l)
    (λ i, r' ← deref (rules srl) i; Some (le0 (SessionRule_Compare r r' false))))
    as (idx & Hidx & Hle & Hlo & Hhi); [done| |].
  - intros i k. rewrite list_lookup_fmap. destruct (l !! i) as [r'|] eqn:Hr; [|done].
    simpl. intros [= <-]. rewrite (srl_deref srl l), Hr by
      (done || (rewrite (srl_numItems _ _ Hl); by eapply lookup_lt_Some)).
    simpl. by rewrite SessionRule_Compare_key.
  - rewrite length_fmap in Hle. exists idx. unfold lookupIdxByRule.
    rewrite length_fmap in Hidx. by rewrite (srl_numItems _ _ Hl).
Qed.

(** The test "already added" decides the presence of the key. *)
Lemma found_spec srl l r idx :
  srl_repr srl l → idx ≤ length l →
  Forall (λ k, key_lt key_Compare k (SessionRule_key r)) (take idx (SessionRule_key <$> l)) →
  Forall (λ k, le0 (key_Compare (SessionRule_key r) k) = true) (drop idx (SessionRule_key <$> l)) →
  (if idx <? numItems srl then
     r' ← deref (rules srl) idx; Some (bool_decide (SessionRule_Compare r r' false = Eq))
   else Some false) = Some (bool_decide (SessionRule_key r ∈ SessionRule_key <$> l)).
Proof.
  intros Hl Hidx Hlo Hhi. rewrite (srl_numItems _ _ Hl).
  assert (SessionRule_key r ∈ SessionRule_key <$> l →
    (SessionRule_key <$> l) !! idx = Some (SessionRule_key r)) as Hin.
  { intros Hin. destruct Hl as [_ Hs]. by eapply (search_sorted_found key_Compare). }
  destruct (Nat.ltb_spec idx (length l)) as [Hlt|Hge].
  - destruct (lookup_lt_is_Some_2 l idx Hlt) as [r' Hr'].
    rewrite (srl_deref _ _ _ Hl), Hr' by (by rewrite (srl_numItems _ _ Hl)). simpl. f_equal.
    rewrite SessionRule_Compare_key. apply bool_decide_ext. rewrite (cmp_eq key_Compare).
    rewrite list_lookup_fmap, Hr' in Hin. simpl in Hin. split.
    + intros ->. apply list_elem_of_fmap. exists r'. split; [done|]. by eapply list_elem_of_lookup_2.
    + intros Hk. specialize (Hin Hk). by apply Some_inj in Hin.
  - f_equal. symmetry. apply bool_decide_eq_false. intros Hk%Hin.
    apply lookup_lt_Some in Hk. rewrite length_fmap in Hk. lia.
Qed.

(** [insert] never panics and adds the rule unless its key is there. *)
Lemma insert_rule_spec srl l r :
  srl_repr srl l →
  ∃ srl' l', insert_rule srl r = Some (srl', negb (bool_decide (SessionRule_key r ∈ SessionRule_key <$> l))) ∧
    srl_repr srl' l' ∧ add_rule l r l' ∧ (srl_tight srl → srl_tight srl').
Proof.
  intros Hl. destruct (lookupIdxByRule_spec srl l r Hl) as (idx & Hidx & Hle & Hlo & Hhi).
  unfold insert_rule. rewrite Hidx. cbn [mbind option_bind].
  rewrite (found_spec srl l r idx) by done. cbn [mbind option_bind]. unfold add_rule.
  case_bool_decide as Hk; cbn [negb].
  { exists srl, l. rewrite decide_True by done. done. }
  pose proof Hl as [Hr Hs]. pose proof (slots_insert_repr _ _ _ idx r Hr) as Hins.
  rewrite (srl_numItems _ _ Hl) in Hins. specialize (Hins Hle).
  pose proof (slots_repr_length _ _ _ Hins) as Hlen.
  exists (mkSessionRuleList (S (numItems srl)) (slots_insert (numItems srl) (rules srl) idx r)),
    (take idx l ++ r :: drop idx l).
  rewrite (srl_numItems _ _ Hl). destruct (Nat.ltb_spec idx
    (length (slots_insert (length l) (rules srl) idx r))); [|lia].
  split; [done|]. split; [split; [done|]|].
  - simpl. rewrite fmap_app, fmap_cons, fmap_take, fmap_drop.
    by apply (search_sorted_insert key_Compare).
  - rewrite decide_False by done. split.
    + by rewrite <-Permutation_middle, take_drop.
    + unfold srl_tight; simpl. rewrite slots_insert_length, (srl_numItems _ _ Hl).
      intros ->. by rewrite Nat.eqb_refl.
Qed.

Lemma Insert_loop_spec srl l rs b :
  srl_repr srl l →
  ∃ srl' l' ok, Insert_loop srl b rs = Some (srl', ok) ∧
    srl_repr srl' l' ∧ add_rules l rs l' ∧ (srl_tight srl → srl_tight srl').
Proof.
  revert srl l b. induction rs as [|r rs IH]; intros srl l b Hl; simpl.
  { by exists srl, l, b. }
  destruct (insert_rule_spec srl l r Hl) as (srl1 & l1 & -> & Hl1 & Hadd & Ht). simpl.
  destruct (IH srl1 l1 (if negb (bool_decide (SessionRule_key r ∈ SessionRule_key <$> l)) then b else false) Hl1)
    as (srl' & l' & ok & -> & Hl' & Hadds & Ht').
  exists srl', l', ok. naive_solver.
Qed.

Lemma Insert_spec srl l rs :
  srl_repr srl l →
  ∃ srl' l' ok, Insert srl rs = Some (srl', ok) ∧
    srl_repr srl' l' ∧ add_rules l rs l' ∧ (srl_tight srl → srl_tight srl').
Proof. apply Insert_loop_spec. Qed.

Lemma Remove_spec srl l idx :
  srl_repr srl l →
  ∃ srl', Remove srl idx = Some (srl', bool_decide (idx < length l)) ∧
    srl_repr srl' (take idx l ++ drop (S idx) l).
Proof.
  intros Hl. unfold Remove. rewrite (srl_numItems _ _ Hl). pose proof Hl as [Hr Hs].
  destruct (Nat.ltb_spec idx (length l)) as [Hlt|Hge].
  - rewrite (bool_decide_true (idx < _)) by done.
    pose proof (slots_repr_length _ _ _ Hr) as Hlen. rewrite (srl_numItems _ _ Hl) in Hlen.
    destruct (Nat.ltb_spec (length l - 1) (length (rules srl))); [|lia].
    eexists. split; [done|]. split.
    + simpl. rewrite (srl_numItems _ _ Hl) in Hr. by apply slots_remove_repr.
    + rewrite fmap_app, fmap_take, fmap_drop. by apply (StronglySorted_cut key_Compare).
  - rewrite (bool_decide_false (idx < _)) by lia. exists srl. split; [done|].
    by rewrite (take_ge l), (drop_ge l), app_nil_r by lia.
Qed.

(** ** Lemmas: [Diff] *)

Lemma rules_minus_nil_r l : rules_minus l [] = l.
Proof.
  unfold rules_minus. induction l as [|x l IH]; [done|].
  rewrite filter_cons_True by (apply not_elem_of_nil). by rewrite IH.
Qed.

Lemma rules_minus_cons_l x l k :
  rules_minus (x :: l) k = if decide (x ∈ k) then rules_minus l k else x :: rules_minus l k.
Proof.
  unfold rules_minus. rewrite filter_cons. by destruct (decide (x ∈ k)), (decide (x ∉ k)).
Qed.

Lemma rules_minus_cons_r x l k : x ∉ l → rules_minus l (x :: k) = rules_minus l k.
Proof.
  induction l as [|y l IH]; [done|]. intros [Hxy Hx]%not_elem_of_cons.
  rewrite !rules_minus_cons_l, IH by done.
  destruct (decide (y ∈ k)), (decide (y ∈ x :: k)) as [|]; set_solver.
Qed.

Lemma srl_sorted_full srl l :
  srl_repr srl l → StronglySorted (key_lt (λ a b, SessionRule_Compare a b true)) l.
Proof.
  intros [_ Hs]. remember (SessionRule_key <$> l) as ks eqn:E. revert l E.
  induction Hs as [|k ks _ IH Hk]; intros [|r l]; simpl; intros [=]; constructor; subst; [by apply IH|].
  rewrite Forall_fmap in Hk. eapply Forall_impl; [done|]. intros r' Hlt.
  by apply SessionRule_Compare_keys_lt.
Qed.

Lemma srl_lookup srl l i r : srl_repr srl l → l !! i = Some r → rules srl !! i = Some (Some r).
Proof.
  intros Hl Hi. pose proof (srl_deref srl l i Hl) as Hd. unfold deref in Hd.
  rewrite (srl_numItems _ _ Hl), Hi in Hd.
  specialize (Hd (lookup_lt_Some _ _ _ Hi)). by destruct (rules srl !! i) as [[]|]; simplify_eq/=.
Qed.

Lemma sorted_drop_inv {A} (R : relation A) l i x :
  StronglySorted R l → l !! i = Some x →
  drop i l = x :: drop (S i) l ∧ Forall (R x) (drop (S i) l).
Proof.
  intros Hs Hx. assert (drop i l = x :: drop (S i) l) as Hd by (by apply drop_S).
  split; [done|]. rewrite <-(take_drop i l), Hd in Hs.
  by apply StronglySorted_app_1_r, StronglySorted_cons in Hs as [Hs _].
Qed.

Section diff.
Context (srl srl2 : SessionRuleList) (l k : list SessionRule).
Hypothesis Hl : srl_repr srl l.
Hypothesis Hk : srl_repr srl2 k.
Let cmp a b := SessionRule_Compare a b true.
Let cmp_total : TotalCompare cmp := SessionRule_Compare_total.

Lemma below_not_in (x : SessionRule) t : Forall (key_lt cmp x) t → x ∉ t.
Proof. intros H Hin. rewrite Forall_forall in H. by apply (cmp_lt_irrefl cmp x), H. Qed.

Lemma below_cons_not_in (x y : SessionRule) t : cmp x y = Lt → Forall (key_lt cmp y) t → x ∉ y :: t.
Proof.
  intros Hxy Ht. apply below_not_in. constructor; [done|]. eapply Forall_impl; [done|].
  intros z Hz. by eapply (cmp_trans cmp).
Qed.

Lemma Diff_loop_spec fuel idx1 idx2 added removed :
  (length l - idx1) + (length k - idx2) < fuel →
  Diff_loop fuel srl srl2 idx1 idx2 added removed =
  Some (added ++ (Some <$> rules_minus (drop idx1 l) (drop idx2 k)),
        removed ++ (Some <$> rules_minus (drop idx2 k) (drop idx1 l))).
Proof.
  pose proof (srl_sorted_full _ _ Hl) as Sl. pose proof (srl_sorted_full _ _ Hk) as Sk.
  revert idx1 idx2 added removed. induction fuel as [|fuel IH]; intros i j added removed Hf; [lia|].
  cbn [Diff_loop]. rewrite (srl_numItems _ _ Hl), (srl_numItems _ _ Hk).
  destruct (Nat.ltb_spec i (length l)) as [Hi|Hi], (Nat.ltb_spec j (length k)) as [Hj|Hj]; cbn [orb].
  - destruct (lookup_lt_is_Some_2 l i Hi) as [x Hx], (lookup_lt_is_Some_2 k j Hj) as [y Hy].
    rewrite (srl_lookup _ _ _ _ Hl Hx), (srl_lookup _ _ _ _ Hk Hy). cbn [mbind option_bind].
    destruct (sorted_drop_inv _ _ _ _ Sl Hx) as [-> Fx], (sorted_drop_inv _ _ _ _ Sk Hy) as [-> Fy].
    destruct (SessionRule_Compare x y true) eqn:E; rewrite IH by lia; [| |].
    + apply (cmp_eq cmp) in E as ->. rewrite !rules_minus_cons_l.
      rewrite !decide_True by (by left).
      by rewrite !rules_minus_cons_r by (by apply below_not_in).
    + rewrite (rules_minus_cons_l x), decide_False by (by apply below_cons_not_in).
      rewrite (rules_minus_cons_r x) by (by apply below_cons_not_in).
      rewrite (proj1 (sorted_drop_inv _ _ _ _ Sk Hy)). simpl. by rewrite <-app_assoc.
    + apply (cmp_lt_gt cmp) in E.
      rewrite (rules_minus_cons_l y), decide_False by (by apply below_cons_not_in).
      rewrite (rules_minus_cons_r y) by (by apply below_cons_not_in).
      rewrite (proj1 (sorted_drop_inv _ _ _ _ Sl Hx)). simpl. by rewrite <-app_assoc.
  - destruct (lookup_lt_is_Some_2 l i Hi) as [x Hx]. rewrite (srl_lookup _ _ _ _ Hl Hx).
    cbn [mbind option_bind]. rewrite IH by lia.
    rewrite (proj1 (sorted_drop_inv _ _ _ _ Sl Hx)), (drop_ge k) by lia.
    rewrite !rules_minus_nil_r. simpl. by rewrite <-app_assoc.
  - destruct (lookup_lt_is_Some_2 k j Hj) as [y Hy]. rewrite (srl_lookup _ _ _ _ Hk Hy).
    cbn [mbind option_bind]. rewrite IH by lia.
    rewrite (proj1 (sorted_drop_inv _ _ _ _ Sk Hy)), (drop_ge l) by lia.
    rewrite !rules_minus_nil_r. simpl. by rewrite <-app_assoc.
  - rewrite !drop_ge by lia. simpl. by rewrite !app_nil_r.
Qed.

Lemma Diff_spec : Diff srl srl2 = Some (Some <$> rules_minus l k, Some <$> rules_minus k l).
Proof.
  unfold Diff. rewrite Diff_loop_spec; [by rewrite !drop_0|].
  rewrite (srl_numItems _ _ Hl), (srl_numItems _ _ Hk). lia.
Qed.
End diff.
