(* ===== verification/SessionCache.v ===== *)
(** * The cache of session rules

    plugins/policy/renderer/vpptcp/cache/cache_impl.go: the sets of ports, the
    conversion of Contiv rules into session rules for the global and the local
    tables, the combination of ingress rules with the egress rules of the other
    namespaces of the host, and the transactions of [SessionRuleCache].

    The callback [dumpClbk] is the argument [dump] of [Changes] (its result;
    [None] is an error). A transaction refers to its cache by the argument
    [src]. The [SrcNetwork] of the combined UDP rules is a nil pointer in the
    code and [emptyIPNet] here: [convertIngressRules] does not look at it. *)

From Stdlib Require Import ZArith Lia Ascii String.
From stdpp Require Import prelude strings list gmap sorting.
From S2P Require Import Prelude Slots GoNet Utils Rules Md5 SessionRules.

(** ** Ports *)

Definition Ports := gset Z.

Definition AnyPort : Z := 0.

Definition Ports_Add (p : Ports) (port : Z) : Ports := {[ port ]} ∪ p.

Definition NewPorts (portNums : list Z) : Ports := foldl Ports_Add ∅ portNums.

Definition HasExplicit (p : Ports) (port : Z) : bool := bool_decide (port ∈ p).

Definition Has (p : Ports) (port : Z) : bool := HasExplicit p 0 || HasExplicit p port.

Definition IsSubsetOf `{RangeOracle} (site : list Z) (p p2 : Ports) : bool :=
  if Has p2 AnyPort then true
  else if Has p AnyPort then false
  else forallb (Has p2) (range_set site p).

Definition Intersection `{RangeOracle} (site : list Z) (p p2 : Ports) : Ports :=
  if Has p AnyPort then p2
  else if Has p2 AnyPort then p
  else foldl (λ i port, if Has p2 port then Ports_Add i port else i) (NewPorts []) (range_set site p).

(** [port] is added to the set of its rule's protocol. *)
Definition add_allowed (ports : Ports * Ports) (rule : ContivRule) : Ports * Ports :=
  match Protocol rule with
  | TCP => (Ports_Add ports.1 (DestPort rule), ports.2)
  | UDP => (ports.1, Ports_Add ports.2 (DestPort rule))
  end.

Definition getAllowedEgressPorts (srcIP : IPNet) (egress : list ContivRule) : Ports * Ports :=
  foldl (λ ports rule,
    if bool_decide (Action rule = ActionDeny) then ports
    else if (0 <? length (IPNet_IP (SrcNetwork rule)))
            && negb (IPNet_Contains (SrcNetwork rule) (IPNet_IP srcIP)) then ports
    else add_allowed ports rule) (NewPorts [], NewPorts []) egress.

Definition getAllowedIngressPorts (dstIP : IPNet) (ingress : list ContivRule) : Ports * Ports :=
  foldl (λ ports rule,
    if bool_decide (Action rule = ActionDeny) then ports
    else if (0 <? length (IPNet_IP (DestNetwork rule)))
            && negb (IPNet_Contains (DestNetwork rule) (IPNet_IP dstIP)) then ports
    else add_allowed ports rule) (NewPorts [], NewPorts []) ingress.

(** ** Conversion into session rules *)

Definition set_Tag (sr : SessionRule) (text : string) : SessionRule :=
  mkSessionRule (TransportProto sr) (IsIP4 sr) (LclIP sr) (LclPlen sr) (RmtIP sr) (RmtPlen sr)
    (LclPort sr) (RmtPort sr) (ActionIndex sr) (AppnsIndex sr) (Scope sr)
    (copy_into (Tag sr) (string_bytes text)).

(** [sr.IsIP4 = v] *)
Definition set_IsIP4 (sr : SessionRule) (v : Z) : SessionRule :=
  mkSessionRule (TransportProto sr) v (LclIP sr) (LclPlen sr) (RmtIP sr) (RmtPlen sr)
    (LclPort sr) (RmtPort sr) (ActionIndex sr) (AppnsIndex sr) (Scope sr) (Tag sr).

(** [sr.RmtIP\[0\] = 1 << 7] *)
Definition set_upper_half (sr : SessionRule) : SessionRule :=
  mkSessionRule (TransportProto sr) (IsIP4 sr) (LclIP sr) (LclPlen sr)
    (<[0 := Z.shiftl 1 7]> (RmtIP sr)) (RmtPlen sr)
    (LclPort sr) (RmtPort sr) (ActionIndex sr) (AppnsIndex sr) (Scope sr) (Tag sr).

Definition transport_proto (p : ProtocolType) : Z :=
  match p with TCP => RuleProtoTCP | UDP => RuleProtoUDP end.

Definition action_index (a : ActionType) : Z :=
  match a with ActionPermit => RuleActionAllow | ActionDeny => RuleActionDeny end.

Definition zeroIP : list Z := replicate 16 0%Z.
Definition zeroTag : list Z := replicate 64 0%Z.

Definition convertEgressRule (nsIndex : Z) (ipAddr : IPNet) (tagPrefix : string) (rule : ContivRule) :
    list SessionRule :=
  let src := SrcNetwork rule in
  if (length (IPNet_IP src) =? 0) && (DestPort rule =? 0)%Z && bool_decide (Action rule = ActionPermit)
  then []
  else
    let isIP4 := negb (bytesEqual (To4 (IPNet_IP ipAddr)) [])
      && ((length (IPNet_IP src) =? 0) || negb (bytesEqual (To4 (IPNet_IP src)) [])) in
    let addr ip := if isIP4 : bool then To4 ip else To16 ip in
    let '(rmtIP, rmtPlen) :=
      if 0 <? length (IPNet_IP src)
      then (copy_into zeroIP (addr (IPNet_IP src)), u8 (Mask_Size (IPNet_Mask src)).1)
      else (zeroIP, 0%Z) in
    let rmtPlen := if length (IPNet_IP src) =? 0 then 1%Z else rmtPlen in
    let sessionRule := mkSessionRule (transport_proto (Protocol rule)) (if isIP4 then 1 else 0)
      (copy_into zeroIP (addr (IPNet_IP ipAddr))) (u8 (Mask_Size (IPNet_Mask ipAddr)).1)
      rmtIP rmtPlen (DestPort rule) (SrcPort rule) (action_index (Action rule))
      0 RuleScopeGlobal zeroTag in
    let tag suffix := (tagPrefix +:+ getMD5Hash (Itoa nsIndex +:+ "-egress-" +:+ ID rule +:+ suffix))%string in
    if length (IPNet_IP src) =? 0 then
      [set_Tag sessionRule (tag "-1/2"%string); set_Tag (set_upper_half sessionRule) (tag "-2/2"%string)]
    else [set_Tag sessionRule (tag ""%string)].

Definition convertEgressRules (nsIndex : Z) (ipAddr : IPNet) (egress : list ContivRule)
    (tagPrefix : string) : list SessionRule :=
  egress ≫= convertEgressRule nsIndex ipAddr tagPrefix.

(** The four halves of a rule without a destination; the first one is appended
    twice, as in the source. *)
Definition convertIngressRule (nsIndex : Z) (tagPrefix : string) (rule : ContivRule) :
    list SessionRule :=
  let dst := DestNetwork rule in
  if (length (IPNet_IP dst) =? 0) && (DestPort rule =? 0)%Z && bool_decide (Action rule = ActionPermit)
  then []
  else
    let isIP4 := negb (length (IPNet_IP dst) =? 0) && negb (bytesEqual (To4 (IPNet_IP dst)) []) in
    let '(rmtIP, rmtPlen) :=
      if 0 <? length (IPNet_IP dst)
      then (copy_into zeroIP (if negb (bytesEqual (To4 (IPNet_IP dst)) [])
                              then To4 (IPNet_IP dst) else To16 (IPNet_IP dst)),
            u8 (Mask_Size (IPNet_Mask dst)).1)
      else (zeroIP, 0%Z) in
    let rmtPlen := if length (IPNet_IP dst) =? 0 then 1%Z else rmtPlen in
    let sessionRule := mkSessionRule (transport_proto (Protocol rule)) (if isIP4 then 1 else 0)
      zeroIP 0 rmtIP rmtPlen (SrcPort rule) (DestPort rule) (action_index (Action rule))
      nsIndex RuleScopeLocal zeroTag in
    let tag suffix := (tagPrefix +:+ getMD5Hash (Itoa nsIndex +:+ "-ingress-" +:+ ID rule +:+ suffix))%string in
    if length (IPNet_IP dst) =? 0 then
      let sessionRule1 := set_Tag (set_IsIP4 sessionRule 1) (tag "-IPv4-1/2"%string) in
      let sessionRule2 := set_Tag (set_upper_half (set_IsIP4 sessionRule 1)) (tag "-IPv4-2/2"%string) in
      let sessionRule3 := set_Tag sessionRule (tag "-IPv6-1/2"%string) in
      let sessionRule4 := set_Tag (set_upper_half sessionRule) (tag "-IPv6-2/2"%string) in
      [sessionRule1; sessionRule1; sessionRule2; sessionRule3; sessionRule4]
    else [set_Tag sessionRule (tag ""%string)].

Definition convertIngressRules (nsIndex : Z) (ingress : list ContivRule) (tagPrefix : string) :
    list SessionRule :=
  ingress ≫= convertIngressRule nsIndex tagPrefix.

(** ** Tables and transactions *)

Record NamespaceConfig := mkNamespaceConfig {
  ipAddr : IPNet;
  ingress : list ContivRule;
  egress : list ContivRule
}.

Definition zeroNamespaceConfig : NamespaceConfig := mkNamespaceConfig emptyIPNet [] [].

Record SessionTables := mkSessionTables {
  global : SessionRuleList;
  local : gmap Z SessionRuleList
}.

Definition NewSessionTables : SessionTables := mkSessionTables NewSessionRuleList ∅.

Record SessionRuleCache := mkSessionRuleCache {
  config : gmap Z NamespaceConfig;
  tables : SessionTables;
  tagPrefix : string
}.

Record SessionRuleCacheTxn := mkSessionRuleCacheTxn {
  resync : bool;
  txn_config : gmap Z NamespaceConfig;
  txn_tables : SessionTables;
  upToDateTables : bool
}.

Definition Init (prefix : string) : SessionRuleCache :=
  mkSessionRuleCache ∅ NewSessionTables prefix.

(** The loop of [NewTxn] copies the configuration. *)
Definition NewTxn (src : SessionRuleCache) (resync : bool) : SessionRuleCacheTxn :=
  mkSessionRuleCacheTxn resync (if resync then ∅ else config src) NewSessionTables false.

Definition LookupByNamespace (src : SessionRuleCache) (nsIndex : Z) : list ContivRule * list ContivRule :=
  match config src !! nsIndex with
  | Some nsConfig => (ingress nsConfig, egress nsConfig)
  | None => ([], [])
  end.

Definition AllNamespaces `{RangeOracle} (src : SessionRuleCache) : list Z :=
  range_keys [0%Z] (config src).

Definition Update (srct : SessionRuleCacheTxn) (nsIndex : Z) (ip : IPNet) (ingress egress : list ContivRule) :
    SessionRuleCacheTxn :=
  mkSessionRuleCacheTxn (resync srct)
    (<[nsIndex := mkNamespaceConfig ip ingress egress]> (txn_config srct)) (txn_tables srct) false.

(** *** [getCombinedIngressRules] *)

Definition has_deny (rs : list ContivRule) : bool :=
  existsb (λ r, bool_decide (Action r = ActionDeny)) rs.

(** The rule is in the subtree of the host [rmtIP] for the protocol. *)
Definition in_subtree (proto : ProtocolType) (rmtIP : IPNet) (r : ContivRule) : bool :=
  if bool_decide (Protocol r ≠ proto) || (length (IPNet_IP (DestNetwork r)) =? 0) then false
  else
    let '(ones, bits) := Mask_Size (IPNet_Mask (DestNetwork r)) in
    negb (negb (ones =? bits)%Z || negb (IP_Equal (IPNet_IP (DestNetwork r)) (IPNet_IP rmtIP))).

(** The block "Intersect TCP ports" (and the one for UDP, which builds its rule
    IDs without the namespace and leaves [SrcNetwork] nil: ingress rules are
    converted without it, here it is the empty network). *)
Definition combine_proto `{RangeOracle} (site : list Z) (proto : ProtocolType) (idPrefix : string)
    (rmtIP : IPNet) (inPorts egPorts : Ports) (rs : list ContivRule) : list ContivRule :=
  if IsSubsetOf (1%Z :: site) inPorts egPorts then rs
  else
    let allowed := Intersection (2%Z :: site) inPorts egPorts in
    let filtered := filter (λ r, in_subtree proto rmtIP r = false) rs in
    let permits := (λ port, mkContivRule (idPrefix +:+ Itoa port) ActionPermit emptyIPNet rmtIP
                              proto AnyPort port) <$> range_set (3%Z :: site) allowed in
    filtered ++ permits ++
    [mkContivRule (idPrefix +:+ "NONE")%string ActionDeny emptyIPNet rmtIP proto AnyPort AnyPort].

Definition combined_id_TCP (nsIndex rmtNsIndex : Z) : string :=
  (Itoa nsIndex +:+ "-combined-" +:+ Itoa rmtNsIndex +:+ "-TCP:")%string.
Definition combined_id_UDP (rmtNsIndex : Z) : string :=
  ("combined-" +:+ Itoa rmtNsIndex +:+ "-UDP:")%string.

(** One round of the loop over the namespaces. *)
Definition combine_round `{RangeOracle} (nsIndex : Z) (nsConfig : NamespaceConfig)
    (rs : list ContivRule) (rmt : Z * NamespaceConfig) : list ContivRule :=
  let '(rmtNsIndex, rmtNsConfig) := rmt in
  if (rmtNsIndex =? nsIndex)%Z then rs
  else if negb (has_deny (egress rmtNsConfig)) then rs
  else
    let '(egTCP, egUDP) := getAllowedEgressPorts (ipAddr nsConfig) (egress rmtNsConfig) in
    let '(inTCP, inUDP) :=
      if has_deny (ingress nsConfig)
      then getAllowedIngressPorts (ipAddr rmtNsConfig) (ingress nsConfig)
      else (NewPorts [AnyPort], NewPorts [AnyPort]) in
    let rs := combine_proto [4; nsIndex; rmtNsIndex]%Z TCP (combined_id_TCP nsIndex rmtNsIndex)
                (ipAddr rmtNsConfig) inTCP egTCP rs in
    combine_proto [5; nsIndex; rmtNsIndex]%Z UDP (combined_id_UDP rmtNsIndex)
                (ipAddr rmtNsConfig) inUDP egUDP rs.

Definition getCombinedIngressRules `{RangeOracle} (cfg : gmap Z NamespaceConfig) (nsIndex : Z) :
    list ContivRule :=
  let nsConfig := default zeroNamespaceConfig (cfg !! nsIndex) in
  foldl (combine_round nsIndex nsConfig) (ingress nsConfig) (go_range [6; nsIndex]%Z cfg).

(** *** [refreshTables] *)

Definition refresh_global `{RangeOracle} (prefix : string) (cfg : gmap Z NamespaceConfig) :
    option SessionRuleList :=
  foldM (λ srl '(nsIndex, nsConfig),
    fst <$> Insert srl (convertEgressRules nsIndex (ipAddr nsConfig) (egress nsConfig) prefix))
    NewSessionRuleList (go_range [7%Z] cfg).

Definition refresh_local `{RangeOracle} (prefix : string) (cfg : gmap Z NamespaceConfig)
    (loc : gmap Z SessionRuleList) : option (gmap Z SessionRuleList) :=
  let loc := foldl (λ loc nsIndex, <[nsIndex := NewSessionRuleList]> loc) loc (range_keys [8%Z] cfg) in
  foldM (λ loc nsIndex,
    srl ← loc !! nsIndex;
    '(srl, _) ← Insert srl (convertIngressRules nsIndex (getCombinedIngressRules cfg nsIndex) prefix);
    Some (<[nsIndex := srl]> loc)) loc (range_keys [9%Z] cfg).

Definition refreshTables `{RangeOracle} (src : SessionRuleCache) (srct : SessionRuleCacheTxn) :
    option SessionRuleCacheTxn :=
  g ← refresh_global (tagPrefix src) (txn_config srct);
  loc ← refresh_local (tagPrefix src) (txn_config srct) (local (txn_tables srct));
  Some (mkSessionRuleCacheTxn (resync srct) (txn_config srct) (mkSessionTables g loc) true).

(** *** [Diff] of tables, [Changes], [Commit] *)

Definition tables_Diff `{RangeOracle} (st st2 : SessionTables) :
    option (list (option SessionRule) * list (option SessionRule)) :=
  ar ← Diff (global st) (global st2);
  '(added, removed) ← foldM (λ '(added, removed) '(nsIndex, nsRules),
    match local st2 !! nsIndex with
    | Some nsRules2 =>
      '(nsAdded, nsRemoved) ← Diff nsRules nsRules2;
      Some (added ++ nsAdded, removed ++ nsRemoved)
    | None => Some (added ++ rules nsRules, removed)
    end) ar (go_range [10%Z] (local st));
  Some (added, foldl (λ removed '(nsIndex, nsRules2),
    if bool_decide (is_Some (local st !! nsIndex)) then removed else removed ++ rules nsRules2)
    removed (go_range [11%Z] (local st2))).

(** The tables of the dumped rules. *)
Definition dumpedTables (currentRules : list SessionRule) : option SessionTables :=
  foldM (λ st rule,
    if (Scope rule =? RuleScopeLocal)%Z then
      let loc := match local st !! AppnsIndex rule with
                 | Some _ => local st
                 | None => <[AppnsIndex rule := NewSessionRuleList]> (local st)
                 end in
      srl ← loc !! AppnsIndex rule;
      '(srl, _) ← Insert srl [rule];
      Some (mkSessionTables (global st) (<[AppnsIndex rule := srl]> loc))
    else
      '(srl, _) ← Insert (global st) [rule];
      Some (mkSessionTables srl (local st))) NewSessionTables currentRules.

(** The outer option is a panic, the inner one the error of the dump. *)
Definition Changes `{RangeOracle} (src : SessionRuleCache) (srct : SessionRuleCacheTxn)
    (dump : option (list SessionRule)) :
    option (SessionRuleCacheTxn * option (list (option SessionRule) * list (option SessionRule))) :=
  srct ← (if upToDateTables srct then Some srct else refreshTables src srct);
  if resync srct then
    match dump with
    | None => Some (srct, None)
    | Some currentRules =>
      currentTables ← dumpedTables currentRules;
      ch ← tables_Diff (txn_tables srct) currentTables;
      Some (srct, Some ch)
    end
  else
    ch ← tables_Diff (txn_tables srct) (tables src);
    Some (srct, Some ch).

Definition Commit `{RangeOracle} (src : SessionRuleCache) (srct : SessionRuleCacheTxn) :
    option SessionRuleCache :=
  srct ← (if upToDateTables srct then Some srct else refreshTables src srct);
  Some (mkSessionRuleCache (txn_config srct) (txn_tables srct) (tagPrefix src)).

(** ** Specification *)

(** The rules of a list, of tables. *)
Definition srl_list (srl : SessionRuleList) : list SessionRule := omap id (rules srl).

Definition srl_wf (srl : SessionRuleList) : Prop := srl_repr srl (srl_list srl) ∧ srl_tight srl.

Definition in_tables (st : SessionTables) (r : SessionRule) : Prop :=
  r ∈ srl_list (global st) ∨ ∃ ns srl, local st !! ns = Some srl ∧ r ∈ srl_list srl.

(** Ordered lists; a local table holds the rules of its own namespace and
    local scope, the global one those of other scopes. *)
Record wf_tables (st : SessionTables) : Prop := {
  wf_global : srl_wf (global st);
  wf_global_scope r : r ∈ srl_list (global st) → Scope r ≠ RuleScopeLocal;
  wf_local ns srl : local st !! ns = Some srl → srl_wf srl;
  wf_local_scope ns srl r : local st !! ns = Some srl → r ∈ srl_list srl →
    Scope r = RuleScopeLocal ∧ AppnsIndex r = ns
}.

(** ** Lemmas: tables *)

Lemma omap_id_Some {A} (l : list A) : omap id (Some <$> l) = l.
Proof. induction l as [|x l IH]; csimpl; [done|]. by rewrite IH. Qed.

Lemma repr_tight srl l : srl_repr srl l → srl_tight srl → rules srl = Some <$> l.
Proof.
  intros [[Hn [k Hr]] _] Ht. unfold srl_tight in Ht. rewrite Hr in Ht.
  rewrite length_app, length_fmap, length_replicate in Ht.
  assert (k = 0) as -> by lia. by rewrite Hr, app_nil_r.
Qed.

Lemma repr_srl_list srl l : srl_repr srl l → srl_tight srl → srl_list srl = l.
Proof. intros Hl Ht. unfold srl_list. by rewrite (repr_tight srl l), omap_id_Some. Qed.

Lemma srl_wf_intro srl l : srl_repr srl l → srl_tight srl → srl_wf srl ∧ srl_list srl = l.
Proof.
  intros Hl Ht. pose proof (repr_srl_list _ _ Hl Ht) as Heq. split; [|done].
  split; [|done]. by rewrite Heq.
Qed.

Lemma srl_wf_rules srl : srl_wf srl → rules srl = Some <$> srl_list srl.
Proof. intros [Hl Ht]. by apply repr_tight. Qed.

Lemma srl_wf_NoDup srl : srl_wf srl → NoDup (srl_list srl).
Proof. intros [Hl _]. eapply NoDup_fmap_1. by apply srl_NoDup_keys in Hl. Qed.

Lemma new_wf : srl_wf NewSessionRuleList.
Proof. split; [apply NewSessionRuleList_repr|done]. Qed.

Lemma Diff_wf srl srl2 :
  srl_wf srl → srl_wf srl2 →
  Diff srl srl2 = Some (Some <$> rules_minus (srl_list srl) (srl_list srl2),
                        Some <$> rules_minus (srl_list srl2) (srl_list srl)).
Proof. intros [H1 _] [H2 _]. by apply Diff_spec. Qed.

Lemma elem_of_rules_minus r l k : r ∈ rules_minus l k ↔ r ∈ l ∧ (r ∉ k).
Proof. unfold rules_minus. rewrite list_elem_of_filter. tauto. Qed.

Lemma rules_minus_NoDup l k : NoDup l → NoDup (rules_minus l k).
Proof. apply NoDup_filter. Qed.

Lemma add_rules_elem l rs l' r : add_rules l rs l' → r ∈ l' → r ∈ l ∨ r ∈ rs.
Proof.
  revert l. induction rs as [|x rs IH]; intros l; simpl; [intros ->; by left|].
  intros (l1 & Hadd & Hrest) Hr. destruct (IH _ Hrest Hr) as [H1|H1]; [|right; by right].
  unfold add_rule in Hadd. destruct (decide _); [subst; by left|].
  rewrite Hadd in H1. apply elem_of_cons in H1 as [->|?]; [right; by left|by left].
Qed.

Lemma add_rules_keys l rs l' k :
  add_rules l rs l' →
  k ∈ SessionRule_key <$> l' ↔ k ∈ SessionRule_key <$> l ∨ k ∈ SessionRule_key <$> rs.
Proof.
  revert l. induction rs as [|x rs IH]; intros l; simpl.
  { intros ->. rewrite elem_of_nil. tauto. }
  intros (l1 & Hadd & Hrest). rewrite (IH _ Hrest), elem_of_cons.
  unfold add_rule in Hadd. destruct (decide _) as [Hin|].
  - subst. naive_solver.
  - rewrite Hadd, fmap_cons, elem_of_cons. tauto.
Qed.

Lemma add_rules_mono l rs l' r : add_rules l rs l' → r ∈ l → r ∈ l'.
Proof.
  revert l. induction rs as [|x rs IH]; intros l; simpl; [by intros ->|].
  intros (l1 & Hadd & Hrest) Hr. apply (IH _ Hrest). unfold add_rule in Hadd.
  destruct (decide _); [by subst|]. rewrite Hadd. by right.
Qed.

(** Rules with distinct keys are all inserted. *)
Lemma add_rules_all l rs l' r :
  add_rules l rs l' → NoDup (SessionRule_key <$> l ++ rs) → r ∈ l' ↔ r ∈ l ∨ r ∈ rs.
Proof.
  revert l. induction rs as [|x rs IH]; intros l; simpl.
  { intros -> _. rewrite elem_of_nil. tauto. }
  intros (l1 & Hadd & Hrest) Hnd.
  assert (SessionRule_key x ∉ SessionRule_key <$> l) as Hx.
  { rewrite fmap_app, fmap_cons in Hnd. apply NoDup_app in Hnd as (_ & Hnd & _).
    intros Hin. eapply Hnd; [done|]. by left. }
  unfold add_rule in Hadd. rewrite decide_False in Hadd by done.
  rewrite (IH l1 Hrest), Hadd, !elem_of_cons; [tauto|].
  by rewrite Hadd; simpl; rewrite <-fmap_cons, Permutation_middle.
Qed.

Lemma Insert_wf srl rs :
  srl_wf srl →
  ∃ srl' ok, Insert srl rs = Some (srl', ok) ∧ srl_wf srl' ∧ add_rules (srl_list srl) rs (srl_list srl').
Proof.
  intros [Hl Ht]. destruct (Insert_spec _ _ rs Hl) as (srl' & l' & ok & Hi & Hl' & Hadd & Ht').
  destruct (srl_wf_intro srl' l') as [Hwf <-]; [done|by apply Ht'|]. by exists srl', ok.
Qed.

Section tables_diff.
Context `{RangeOracle} (st st2 : SessionTables).
Hypothesis Hwf : wf_tables st.
Hypothesis Hwf2 : wf_tables st2.

(** What each namespace contributes. *)
Definition ns_minus (b : gmap Z SessionRuleList) (p : Z * SessionRuleList) : list SessionRule :=
  rules_minus (srl_list p.2) (from_option srl_list [] (b !! p.1)).

Let step1 : list (option SessionRule) * list (option SessionRule) → Z * SessionRuleList → _ :=
  λ '(added, removed) '(nsIndex, nsRules),
    match local st2 !! nsIndex with
    | Some nsRules2 =>
      '(nsAdded, nsRemoved) ← Diff nsRules nsRules2;
      Some (added ++ nsAdded, removed ++ nsRemoved)
    | None => Some (added ++ rules nsRules, removed)
    end.

Lemma tables_loop1 a r (l : list (Z * SessionRuleList)) :
  (∀ ns srl, (ns, srl) ∈ l → local st !! ns = Some srl) →
  foldM step1 (a, r) l =
  Some (a ++ (Some <$> (l ≫= ns_minus (local st2))),
        r ++ (Some <$> (l ≫= λ p, rules_minus (from_option srl_list [] (local st2 !! p.1)) (srl_list p.2)))).
Proof.
  revert a r. induction l as [|[ns srl] l IH]; intros a r Hl; simpl; [by rewrite !app_nil_r|].
  assert (srl_wf srl) as Hs by (apply (wf_local _ Hwf ns), Hl; by left).
  assert (∀ ns srl, (ns, srl) ∈ l → local st !! ns = Some srl) as Hl' by (intros; apply Hl; by right).
  unfold ns_minus at 1; simpl. destruct (local st2 !! ns) as [s2|] eqn:E; simpl.
  - rewrite Diff_wf by (done || by eapply (wf_local _ Hwf2)). simpl. rewrite IH by done.
    by rewrite !fmap_app, !app_assoc.
  - rewrite IH by done. rewrite rules_minus_nil_r, (srl_wf_rules srl) by done.
    by rewrite !fmap_app, !app_assoc.
Qed.

Lemma tables_loop2 r (l : list (Z * SessionRuleList)) :
  (∀ ns srl, (ns, srl) ∈ l → local st2 !! ns = Some srl) →
  foldl (λ removed '(nsIndex, nsRules2),
    if bool_decide (is_Some (local st !! nsIndex)) then removed else removed ++ rules nsRules2) r l =
  r ++ (Some <$> (l ≫= λ p, if bool_decide (is_Some (local st !! p.1)) then [] else srl_list p.2)).
Proof.
  revert r. induction l as [|[ns srl] l IH]; intros r Hl; simpl; [by rewrite app_nil_r|].
  rewrite IH by (intros; apply Hl; by right).
  case_bool_decide; [done|].
  rewrite (srl_wf_rules srl) by (apply (wf_local _ Hwf2 ns), Hl; by left).
  by rewrite fmap_app, app_assoc.
Qed.

Definition diff_added : list SessionRule :=
  rules_minus (srl_list (global st)) (srl_list (global st2)) ++
  (go_range [10%Z] (local st) ≫= ns_minus (local st2)).

Definition diff_removed : list SessionRule :=
  rules_minus (srl_list (global st2)) (srl_list (global st)) ++
  (go_range [10%Z] (local st) ≫=
     λ p, rules_minus (from_option srl_list [] (local st2 !! p.1)) (srl_list p.2)) ++
  (go_range [11%Z] (local st2) ≫=
     λ p, if bool_decide (is_Some (local st !! p.1)) then [] else srl_list p.2).

Lemma tables_Diff_eq : tables_Diff st st2 = Some (Some <$> diff_added, Some <$> diff_removed).
Proof.
  unfold tables_Diff. rewrite Diff_wf by (by apply wf_global). cbn [mbind option_bind].
  fold step1. rewrite tables_loop1 by (by intros ns srl ?%go_range_lookup). cbn [mbind option_bind].
  rewrite tables_loop2 by (by intros ns srl ?%go_range_lookup).
  unfold diff_added, diff_removed. by rewrite !fmap_app, <-!app_assoc.
Qed.

(** A local rule of [st] is in the tables [st2] only in the same namespace. *)
Lemma in_tables_local st' ns r :
  wf_tables st' → Scope r = RuleScopeLocal → AppnsIndex r = ns →
  in_tables st' r ↔ r ∈ from_option srl_list [] (local st' !! ns).
Proof.
  intros Hw Hsc Hns. split.
  - intros [Hg|(ns' & srl & Hl & Hr)]; [by apply (wf_global_scope _ Hw) in Hg|].
    destruct (wf_local_scope _ Hw _ _ _ Hl Hr) as [_ <-]. subst ns. by rewrite Hl.
  - destruct (local st' !! ns) as [srl|] eqn:E; simpl; [|by intros ?%elem_of_nil].
    intros Hr. right. eauto.
Qed.

Lemma in_tables_global st' r :
  wf_tables st' → Scope r ≠ RuleScopeLocal → in_tables st' r ↔ r ∈ srl_list (global st').
Proof.
  intros Hw Hsc. split; [|by left]. intros [|(ns & srl & Hl & Hr)]; [done|].
  by destruct (wf_local_scope _ Hw _ _ _ Hl Hr).
Qed.

Lemma elem_of_diff_added r : r ∈ diff_added ↔ in_tables st r ∧ ¬ in_tables st2 r.
Proof.
  unfold diff_added. rewrite elem_of_app, elem_of_rules_minus, list_elem_of_bind.
  split.
  - intros [[Hr Hn]|([ns srl] & Hr & Hp%go_range_lookup)].
    + pose proof (wf_global_scope _ Hwf _ Hr). rewrite (in_tables_global st2) by done.
      split; [by left|done].
    + apply elem_of_rules_minus in Hr as [Hr Hn]. simpl in *.
      destruct (wf_local_scope _ Hwf _ _ _ Hp Hr) as [Hs Ha].
      rewrite (in_tables_local st2 ns) by done. split; [right; eauto|done].
  - intros [[Hr|(ns & srl & Hl & Hr)] Hn]; [left|right].
    + split; [done|]. intros ?. apply Hn. by left.
    + destruct (wf_local_scope _ Hwf _ _ _ Hl Hr) as [Hs Ha].
      exists (ns, srl). rewrite go_range_lookup. split; [|done].
      apply elem_of_rules_minus. split; [done|]. by rewrite <-(in_tables_local st2 ns).
Qed.

Lemma elem_of_diff_removed r : r ∈ diff_removed ↔ in_tables st2 r ∧ ¬ in_tables st r.
Proof.
  unfold diff_removed. rewrite !elem_of_app, elem_of_rules_minus, !list_elem_of_bind.
  split.
  - intros [[Hr Hn]|[([ns srl] & Hr & Hp%go_range_lookup)|([ns srl] & Hr & Hp%go_range_lookup)]]; simpl in *.
    + pose proof (wf_global_scope _ Hwf2 _ Hr). rewrite (in_tables_global st) by done.
      split; [by left|done].
    + apply elem_of_rules_minus in Hr as [Hr Hn].
      destruct (local st2 !! ns) as [srl2|] eqn:E; simpl in *; [|by apply elem_of_nil in Hr].
      destruct (wf_local_scope _ Hwf2 _ _ _ E Hr) as [Hs Ha].
      rewrite (in_tables_local st ns) by done. rewrite Hp. split; [right; eauto|done].
    + case_bool_decide as Hns; [by apply elem_of_nil in Hr|].
      destruct (wf_local_scope _ Hwf2 _ _ _ Hp Hr) as [Hs Ha].
      rewrite (in_tables_local st ns) by done. apply eq_None_not_Some in Hns as ->.
      split; [right; eauto|]. apply not_elem_of_nil.
  - intros [[Hr|(ns & srl & Hl & Hr)] Hn].
    + left. split; [done|]. intros ?. apply Hn. by left.
    + right. destruct (wf_local_scope _ Hwf2 _ _ _ Hl Hr) as [Hs Ha].
      rewrite (in_tables_local st ns) in Hn by done.
      destruct (local st !! ns) as [srl1|] eqn:E.
      * left. exists (ns, srl1). rewrite go_range_lookup. simpl. rewrite Hl. split; [|done].
        by apply elem_of_rules_minus.
      * right. exists (ns, srl). rewrite go_range_lookup. simpl. rewrite E. split; [|done].
        by rewrite bool_decide_false by (by intros [? [=]]).
Qed.

Lemma go_range_NoDup {K} `{Countable K} {V} site (m : gmap K V) : NoDup (go_range site m).
Proof. rewrite go_range_perm. apply NoDup_map_to_list. Qed.

Lemma NoDup_diff_added : NoDup diff_added.
Proof.
  apply NoDup_app. split_and!.
  - by apply rules_minus_NoDup, srl_wf_NoDup, wf_global.
  - intros r [Hr _]%elem_of_rules_minus ([ns srl] & Hr' & Hp%go_range_lookup)%list_elem_of_bind.
    apply (wf_global_scope _ Hwf) in Hr. apply elem_of_rules_minus in Hr' as [Hr' _].
    by destruct (wf_local_scope _ Hwf _ _ _ Hp Hr').
  - apply NoDup_bind; [| |apply go_range_NoDup].
    + intros [ns1 s1] [ns2 s2] r Hp1%go_range_lookup Hp2%go_range_lookup
        [H1 _]%elem_of_rules_minus [H2 _]%elem_of_rules_minus.
      destruct (wf_local_scope _ Hwf _ _ _ Hp1 H1), (wf_local_scope _ Hwf _ _ _ Hp2 H2). simplify_eq/=.
      congruence.
    + intros [ns srl] Hp%go_range_lookup. apply rules_minus_NoDup, srl_wf_NoDup.
      by eapply (wf_local _ Hwf).
Qed.

Lemma NoDup_diff_removed : NoDup diff_removed.
Proof.
  apply NoDup_app. split_and!; [by apply rules_minus_NoDup, srl_wf_NoDup, wf_global| |apply NoDup_app; split_and!].
  - intros r [Hr%(wf_global_scope _ Hwf2) _]%elem_of_rules_minus.
    rewrite elem_of_app, !list_elem_of_bind.
    intros [([ns srl] & Hr' & Hp%go_range_lookup)|([ns srl] & Hr' & Hp%go_range_lookup)]; simpl in *.
    + apply elem_of_rules_minus in Hr' as [Hr' _].
      destruct (local st2 !! ns) as [s2|] eqn:E; simpl in *; [|by apply elem_of_nil in Hr'].
      by destruct (wf_local_scope _ Hwf2 _ _ _ E Hr').
    + case_bool_decide; [by apply elem_of_nil in Hr'|]. by destruct (wf_local_scope _ Hwf2 _ _ _ Hp Hr').
  - apply NoDup_bind; [| |apply go_range_NoDup].
    + intros [ns1 s1] [ns2 s2] r Hp1%go_range_lookup Hp2%go_range_lookup [H1 _]%elem_of_rules_minus
        [H2 _]%elem_of_rules_minus; simpl in *.
      destruct (local st2 !! ns1) eqn:E1, (local st2 !! ns2) eqn:E2; simpl in *;
        try (by apply elem_of_nil in H1); try (by apply elem_of_nil in H2).
      destruct (wf_local_scope _ Hwf2 _ _ _ E1 H1), (wf_local_scope _ Hwf2 _ _ _ E2 H2). congruence.
    + intros [ns srl] _; simpl. apply rules_minus_NoDup. destruct (local st2 !! ns) eqn:E; simpl; [|constructor].
      by eapply srl_wf_NoDup, (wf_local _ Hwf2).
  - intros r ([ns1 s1] & H1 & Hp1%go_range_lookup)%list_elem_of_bind
      ([ns2 s2] & H2 & Hp2%go_range_lookup)%list_elem_of_bind; simpl in *.
    apply elem_of_rules_minus in H1 as [H1 _]. case_bool_decide as Hn; [by apply elem_of_nil in H2|].
    destruct (local st2 !! ns1) eqn:E1; simpl in *; [|by apply elem_of_nil in H1].
    destruct (wf_local_scope _ Hwf2 _ _ _ E1 H1), (wf_local_scope _ Hwf2 _ _ _ Hp2 H2). subst.
    apply Hn. eauto.
  - apply NoDup_bind; [| |apply go_range_NoDup].
    + intros [ns1 s1] [ns2 s2] r Hp1%go_range_lookup Hp2%go_range_lookup; simpl.
      case_bool_decide as B1; [by intros ?%elem_of_nil|]. case_bool_decide as B2; [by intros _ ?%elem_of_nil|].
      intros H1 H2. destruct (wf_local_scope _ Hwf2 _ _ _ Hp1 H1), (wf_local_scope _ Hwf2 _ _ _ Hp2 H2).
      congruence.
    + intros [ns srl] Hp%go_range_lookup; simpl. case_bool_decide; [constructor|].
      by eapply srl_wf_NoDup, (wf_local _ Hwf2).
Qed.
End tables_diff.

(** The key of a rule identifies it within the tables. *)
Lemma in_tables_key_inj st x y :
  wf_tables st → in_tables st x → in_tables st y → SessionRule_key x = SessionRule_key y → x = y.
Proof.
  intros Hwf Hx Hy Hk.
  assert (∀ srl, srl_wf srl → x ∈ srl_list srl → y ∈ srl_list srl → x = y) as Hsame.
  { intros srl [Hl _] H1 H2. apply srl_NoDup_keys in Hl.
    apply list_elem_of_lookup in H1 as [i Hi], H2 as [j Hj].
    assert (i = j) as ->; [|by simplify_eq].
    eapply NoDup_lookup; [done|..]; rewrite list_lookup_fmap; [by rewrite Hi|rewrite Hj; simpl; by rewrite Hk]. }
  assert (Scope x = Scope y ∧ AppnsIndex x = AppnsIndex y) as [Hs Ha]
    by (unfold SessionRule_key in Hk; naive_solver).
  destruct (decide (Scope x = RuleScopeLocal)) as [Hsc|Hsc].
  - rewrite (in_tables_local st (AppnsIndex x)) in Hx, Hy by congruence.
    destruct (local st !! AppnsIndex x) as [srl|] eqn:E; simpl in *; [|by apply elem_of_nil in Hx].
    eapply Hsame; [by eapply (wf_local _ Hwf)|done..].
  - rewrite in_tables_global in Hx, Hy by congruence. eapply Hsame; [by apply wf_global|done..].
Qed.

(** ** Lemmas: [refreshTables] *)

Lemma add_rules_app l rs1 l1 rs2 l2 :
  add_rules l rs1 l1 → add_rules l1 rs2 l2 → add_rules l (rs1 ++ rs2) l2.
Proof.
  revert l. induction rs1 as [|r rs1 IH]; intros l; simpl; [by intros ->|].
  intros (l0 & Hadd & H1) H2. exists l0. split; [done|]. by apply IH.
Qed.

Lemma convertEgressRule_scope ns ip p rule r : r ∈ convertEgressRule ns ip p rule → Scope r = RuleScopeGlobal.
Proof.
  unfold convertEgressRule. destruct (_ && _); [by intros ?%elem_of_nil|].
  destruct (0 <? _), (length (IPNet_IP (SrcNetwork rule)) =? 0); cbv zeta;
    rewrite ?elem_of_cons, elem_of_nil; by intros [->|[->|[]]] || by intros [->|[]].
Qed.

Lemma convertIngressRule_scope ns p rule r :
  r ∈ convertIngressRule ns p rule → Scope r = RuleScopeLocal ∧ AppnsIndex r = ns.
Proof.
  unfold convertIngressRule. destruct (_ && _); [by intros ?%elem_of_nil|].
  destruct (0 <? _), (length (IPNet_IP (DestNetwork rule)) =? 0); cbv zeta;
    rewrite ?elem_of_cons, elem_of_nil; naive_solver.
Qed.

Section refresh.
Context `{RangeOracle} (prefix : string) (cfg : gmap Z NamespaceConfig).

Definition egress_rules (p : Z * NamespaceConfig) : list SessionRule :=
  convertEgressRules p.1 (ipAddr p.2) (egress p.2) prefix.

Definition ingress_rules (ns : Z) : list SessionRule :=
  convertIngressRules ns (getCombinedIngressRules cfg ns) prefix.

(** The tables hold, for every key, one of the session rules the configuration
    converts to with that key, and nothing else. *)
Record implements (st : SessionTables) : Prop := {
  impl_wf : wf_tables st;
  impl_global r : r ∈ srl_list (global st) → ∃ p, cfg !! p.1 = Some p.2 ∧ r ∈ egress_rules p;
  impl_global_keys p r : cfg !! p.1 = Some p.2 → r ∈ egress_rules p →
    SessionRule_key r ∈ SessionRule_key <$> srl_list (global st);
  impl_local_dom ns : is_Some (local st !! ns) ↔ is_Some (cfg !! ns);
  impl_local ns srl r : local st !! ns = Some srl → r ∈ srl_list srl → r ∈ ingress_rules ns;
  impl_local_keys ns srl r : local st !! ns = Some srl → r ∈ ingress_rules ns →
    SessionRule_key r ∈ SessionRule_key <$> srl_list srl
}.

Lemma egress_rules_scope p r : r ∈ egress_rules p → Scope r = RuleScopeGlobal.
Proof.
  unfold egress_rules, convertEgressRules. intros (rule & Hr & _)%list_elem_of_bind.
  by eapply convertEgressRule_scope.
Qed.

Lemma ingress_rules_scope ns r : r ∈ ingress_rules ns → Scope r = RuleScopeLocal ∧ AppnsIndex r = ns.
Proof.
  unfold ingress_rules, convertIngressRules. intros (rule & Hr & _)%list_elem_of_bind.
  by eapply convertIngressRule_scope.
Qed.

Lemma refresh_global_spec :
  ∃ srl, refresh_global prefix cfg = Some srl ∧ srl_wf srl ∧
    add_rules [] (go_range [7%Z] cfg ≫= egress_rules) (srl_list srl).
Proof.
  unfold refresh_global. set (L := go_range [7%Z] cfg).
  edestruct (foldM_inv (λ srl '(nsIndex, nsConfig),
      fst <$> Insert srl (convertEgressRules nsIndex (ipAddr nsConfig) (egress nsConfig) prefix))
    (λ rest srl, srl_wf srl ∧ ∃ done, L = done ++ rest ∧ add_rules [] (done ≫= egress_rules) (srl_list srl))
    NewSessionRuleList L) as (srl & -> & Hwf & done & HL & Hadd).
  - split; [apply new_wf|]. by exists [].
  - intros [ns c] rest srl (Hwf & done & HL & Hadd).
    destruct (Insert_wf srl (egress_rules (ns, c)) Hwf) as (srl' & ok & Hins & Hwf' & Hadd').
    unfold egress_rules in Hins; simpl in Hins. rewrite Hins. simpl. exists srl'. split_and!; [done..|].
    exists (done ++ [(ns, c)]). split; [by rewrite <-app_assoc|].
    rewrite bind_app. simpl. rewrite app_nil_r. by eapply add_rules_app.
  - rewrite app_nil_r in HL. subst done. eauto.
Qed.

Lemma reset_local_lookup (loc : gmap Z SessionRuleList) l ns :
  foldl (λ loc nsIndex, <[nsIndex := NewSessionRuleList]> loc) loc l !! ns =
  if decide (ns ∈ l) then Some NewSessionRuleList else loc !! ns.
Proof.
  revert loc. induction l as [|n l IH]; intros loc; cbn [foldl].
  { by rewrite decide_False by apply not_elem_of_nil. }
  rewrite IH. destruct (decide (ns ∈ l)) as [Hin|Hin].
  { by rewrite decide_True by (by right). }
  destruct (decide (n = ns)) as [->|Hne].
  - by rewrite decide_True, lookup_insert_eq by (by left).
  - rewrite decide_False, lookup_insert_ne; [done|done|].
    rewrite elem_of_cons. naive_solver.
Qed.

Lemma refresh_local_spec loc :
  (∀ ns, is_Some (loc !! ns) → is_Some (cfg !! ns)) →
  ∃ loc', refresh_local prefix cfg loc = Some loc' ∧
    (∀ ns, is_Some (loc' !! ns) ↔ is_Some (cfg !! ns)) ∧
    ∀ ns srl, loc' !! ns = Some srl → srl_wf srl ∧ add_rules [] (ingress_rules ns) (srl_list srl).
Proof.
  intros Hloc. unfold refresh_local. set (L := range_keys [9%Z] cfg).
  edestruct (foldM_inv (λ (loc : gmap Z SessionRuleList) nsIndex,
      srl ← loc !! nsIndex;
      '(srl, _) ← Insert srl (convertIngressRules nsIndex (getCombinedIngressRules cfg nsIndex) prefix);
      Some (<[nsIndex := srl]> loc))
    (λ rest (loc : gmap Z SessionRuleList), NoDup rest ∧ (∀ ns, ns ∈ rest → is_Some (cfg !! ns)) ∧
      (∀ ns, is_Some (loc !! ns) ↔ is_Some (cfg !! ns)) ∧
      ∀ ns srl, loc !! ns = Some srl → srl_wf srl ∧
        if decide (ns ∈ rest) then srl = NewSessionRuleList
        else add_rules [] (ingress_rules ns) (srl_list srl)))
    as (loc' & -> & _ & _ & Hdom & Hall).
  - split; [apply range_keys_NoDup|]. split; [by intros ns ?%elem_of_range_keys|].
    assert (∀ ns, is_Some (cfg !! ns) → ns ∈ range_keys [8%Z] cfg) as Hk
      by (intros; by apply elem_of_range_keys).
    split; intros ns.
    + rewrite reset_local_lookup. destruct (decide _) as [Hin%elem_of_range_keys|Hni]; [naive_solver|].
      split; [apply Hloc|]. intros ?%Hk. done.
    + intros srl. rewrite reset_local_lookup. destruct (decide _) as [Hin%elem_of_range_keys|Hni].
      * intros [= <-]. split; [apply new_wf|]. rewrite decide_True; [done|]. by apply elem_of_range_keys.
      * intros Hs. exfalso. apply Hni, Hk, Hloc. by exists srl.
  - intros ns rest loc1 (Hnd & Hin & Hdom & Hall). apply NoDup_cons in Hnd as [Hni Hnd].
    destruct (proj2 (Hdom ns)) as [srl Hsrl]; [apply Hin; by left|]. rewrite Hsrl. simpl.
    destruct (Hall ns srl Hsrl) as [Hwf Hnew]. rewrite decide_True in Hnew by (by left).
    destruct (Insert_wf srl (ingress_rules ns) Hwf) as (srl' & ok & Hins & Hwf' & Hadd).
    unfold ingress_rules in Hins. rewrite Hins. simpl. eexists. split; [done|].
    split; [done|]. split; [intros; apply Hin; by right|]. split; intros ns'.
    + rewrite <-Hdom, lookup_insert_is_Some. destruct (decide (ns = ns')); naive_solver.
    + intros srl0. destruct (decide (ns = ns')) as [<-|Hne].
      * rewrite lookup_insert_eq. intros [= <-]. rewrite decide_False by done.
        subst srl. done.
      * rewrite lookup_insert_ne by done. intros Hs. destruct (Hall _ _ Hs) as [? Hx].
        split; [done|]. destruct (decide (ns' ∈ rest)) as [Hr|Hr].
        -- by rewrite decide_True in Hx by (by right).
        -- rewrite decide_False in Hx; [done|]. rewrite elem_of_cons. naive_solver.
  - exists loc'. split; [done|]. split; [done|]. intros ns srl Hs.
    destruct (Hall ns srl Hs) as [? Hx]. rewrite decide_False in Hx by apply not_elem_of_nil. done.
Qed.

Lemma implements_intro g loc :
  srl_wf g → add_rules [] (go_range [7%Z] cfg ≫= egress_rules) (srl_list g) →
  (∀ ns, is_Some (loc !! ns) ↔ is_Some (cfg !! ns)) →
  (∀ ns srl, loc !! ns = Some srl → srl_wf srl ∧ add_rules [] (ingress_rules ns) (srl_list srl)) →
  implements (mkSessionTables g loc).
Proof.
  intros Hg Hadd Hdom Hall.
  assert (∀ r, r ∈ srl_list g → ∃ p, cfg !! p.1 = Some p.2 ∧ r ∈ egress_rules p) as Hglob.
  { intros r Hr. destruct (add_rules_elem _ _ _ r Hadd Hr) as [?%elem_of_nil|Hin]; [done|].
    apply list_elem_of_bind in Hin as ([ns c] & Hr' & Hp%go_range_lookup). by exists (ns, c). }
  assert (∀ ns srl r, loc !! ns = Some srl → r ∈ srl_list srl → r ∈ ingress_rules ns) as Hloc.
  { intros ns srl r [_ Ha]%Hall Hr. by destruct (add_rules_elem _ _ _ r Ha Hr) as [?%elem_of_nil|]. }
  split; simpl; [|done| |done|done|].
  - split; simpl; [done| | |].
    + intros r (p & _ & Hr)%Hglob. by rewrite (egress_rules_scope _ _ Hr).
    + intros ns srl Hs. by apply (Hall ns).
    + intros ns srl r Hs Hr. by eapply ingress_rules_scope, Hloc.
  - intros [ns c] r Hp Hr. apply (add_rules_keys _ _ _ _ Hadd). right. apply list_elem_of_fmap_2.
    apply list_elem_of_bind. exists (ns, c). by rewrite go_range_lookup.
  - intros ns srl r [_ Ha]%Hall Hr. apply (add_rules_keys _ _ _ _ Ha). right. by apply list_elem_of_fmap_2.
Qed.
End refresh.

(** The transaction refers to no namespace it has no configuration for. *)
Definition txn_ok (srct : SessionRuleCacheTxn) : Prop :=
  ∀ ns, is_Some (local (txn_tables srct) !! ns) → is_Some (txn_config srct !! ns).

Lemma refreshTables_spec `{RangeOracle} src srct :
  txn_ok srct →
  ∃ st, refreshTables src srct =
      Some (mkSessionRuleCacheTxn (resync srct) (txn_config srct) st true) ∧
    implements (tagPrefix src) (txn_config srct) st.
Proof.
  intros Hok. unfold refreshTables.
  destruct (refresh_global_spec (tagPrefix src) (txn_config srct)) as (g & -> & Hg & Hadd). simpl.
  destruct (refresh_local_spec (tagPrefix src) (txn_config srct) (local (txn_tables srct)) Hok)
    as (loc & -> & Hdom & Hall). simpl.
  eexists. split; [done|]. by apply implements_intro.
Qed.

(** ** Lemmas: the dump *)

Lemma wf_tables_new : wf_tables NewSessionTables.
Proof. split; simpl; [apply new_wf|by intros ? ?%elem_of_nil|done|done]. Qed.

Lemma wf_tables_set_local st ns srl :
  wf_tables st → srl_wf srl →
  (∀ r, r ∈ srl_list srl → Scope r = RuleScopeLocal ∧ AppnsIndex r = ns) →
  wf_tables (mkSessionTables (global st) (<[ns := srl]> (local st))).
Proof.
  intros Hwf Hs Hr. split; simpl; [apply Hwf|apply Hwf| |].
  - intros ns' srl'. rewrite lookup_insert_Some. intros [[_ <-]|[_ ?]]; [done|]. by eapply (wf_local _ Hwf).
  - intros ns' srl' r. rewrite lookup_insert_Some. intros [[<- <-]|[_ Hl]]; [apply Hr|].
    by apply (wf_local_scope _ Hwf).
Qed.

Lemma wf_tables_set_global st srl :
  wf_tables st → srl_wf srl → (∀ r, r ∈ srl_list srl → Scope r ≠ RuleScopeLocal) →
  wf_tables (mkSessionTables srl (local st)).
Proof. intros Hwf Hs Hr. split; simpl; [done|done|apply Hwf|apply Hwf]. Qed.

(** What one round of the loop over the dumped rules does. *)
Lemma add_rules_single l r l' x :
  add_rules l [r] l' → (x ∈ l → x ∈ l') ∧ (x ∈ l' → x ∈ l ∨ x = r) ∧
  (SessionRule_key r ∉ SessionRule_key <$> l → r ∈ l').
Proof.
  intros Hadd. split_and!.
  - by apply (add_rules_mono _ _ _ _ Hadd).
  - intros Hx. destruct (add_rules_elem _ _ _ _ Hadd Hx) as [|Hx']; [by left|].
    right. by apply list_elem_of_singleton.
  - destruct Hadd as (l1 & Hadd & ->). unfold add_rule in Hadd. intros Hk.
    rewrite decide_False in Hadd by done. rewrite Hadd. by left.
Qed.

Section dumped.
Context (rs : list SessionRule).

Definition dumped_inv (rest : list SessionRule) (st : SessionTables) : Prop :=
  wf_tables st ∧ ∃ pre, rs = pre ++ rest ∧ (∀ r, in_tables st r → r ∈ pre) ∧
    (NoDup (SessionRule_key <$> rs) → ∀ r, r ∈ pre → in_tables st r).

Definition dumped_step (st : SessionTables) (rule : SessionRule) : option SessionTables :=
  if (Scope rule =? RuleScopeLocal)%Z then
    let loc := match local st !! AppnsIndex rule with
               | Some _ => local st
               | None => <[AppnsIndex rule := NewSessionRuleList]> (local st)
               end in
    srl ← loc !! AppnsIndex rule;
    '(srl, _) ← Insert srl [rule];
    Some (mkSessionTables (global st) (<[AppnsIndex rule := srl]> loc))
  else
    '(srl, _) ← Insert (global st) [rule];
    Some (mkSessionTables srl (local st)).

(** The round as an insertion into the list the rule belongs to. *)
Lemma dumped_step_local st rule :
  wf_tables st → Scope rule = RuleScopeLocal →
  ∃ srl, srl_wf srl ∧ add_rules (from_option srl_list [] (local st !! AppnsIndex rule)) [rule] (srl_list srl) ∧
    dumped_step st rule = Some (mkSessionTables (global st) (<[AppnsIndex rule := srl]> (local st))).
Proof.
  intros Hwf Hsc. unfold dumped_step. rewrite Hsc. cbn -[Insert lookup insert].
  destruct (local st !! AppnsIndex rule) as [srl|] eqn:E.
  - rewrite E. cbn -[Insert lookup insert].
    destruct (Insert_wf srl [rule]) as (srl' & ok & Hi & Hwf' & Hadd); [by eapply (wf_local _ Hwf)|].
    rewrite Hi. cbn -[Insert lookup insert]. exists srl'. done.
  - rewrite lookup_insert_eq. cbn -[Insert lookup insert].
    destruct (Insert_wf NewSessionRuleList [rule] new_wf) as (srl' & ok & Hi & Hwf' & Hadd).
    rewrite Hi. cbn -[Insert lookup insert]. exists srl'. by rewrite insert_insert_eq.
Qed.

Lemma in_tables_set_local st ns srl r :
  in_tables (mkSessionTables (global st) (<[ns := srl]> (local st))) r ↔
  r ∈ srl_list (global st) ∨ r ∈ srl_list srl ∨
  ∃ ns' srl', ns' ≠ ns ∧ local st !! ns' = Some srl' ∧ r ∈ srl_list srl'.
Proof.
  unfold in_tables; simpl. split.
  - intros [|(ns' & srl' & Hl & Hr)]; [by left|].
    apply lookup_insert_Some in Hl as [[<- <-]|[Hne Hl]]; [right; by left|].
    right; right. exists ns', srl'. done.
  - intros [|[Hr|(ns' & srl' & Hne & Hl & Hr)]]; [by left|right|right].
    + exists ns, srl. by rewrite lookup_insert_eq.
    + exists ns', srl'. by rewrite lookup_insert_ne.
Qed.

Lemma fresh_key pre rule rest (l : list SessionRule) :
  rs = pre ++ rule :: rest → NoDup (SessionRule_key <$> rs) → (∀ r, r ∈ l → r ∈ pre) →
  SessionRule_key rule ∉ SessionRule_key <$> l.
Proof.
  intros -> Hnd Hl (r & Hk & Hr)%list_elem_of_fmap. rewrite fmap_app, fmap_cons in Hnd.
  apply NoDup_app in Hnd as (_ & Hnd & _). eapply Hnd; [|by left].
  rewrite Hk. by apply list_elem_of_fmap_2, Hl.
Qed.

Lemma dumped_step_inv rule rest st :
  dumped_inv (rule :: rest) st → ∃ st', dumped_step st rule = Some st' ∧ dumped_inv rest st'.
Proof.
  intros (Hwf & pre & Hrs & Hin & Hall). destruct (decide (Scope rule = RuleScopeLocal)) as [Hsc|Hsc].
  - destruct (dumped_step_local st rule Hwf Hsc) as (srl & Hs & Hadd & ->).
    eexists. split; [done|]. set (old := from_option _ _ _) in Hadd.
    assert (∀ r, r ∈ old → in_tables st r) as Hold.
    { intros r. unfold old. destruct (local st !! _) as [s|] eqn:E; simpl; [|by intros ?%elem_of_nil].
      intros Hr. right. eauto. }
    split.
    { apply wf_tables_set_local; [done..|]. intros r Hr.
      destruct (proj1 (proj2 (add_rules_single _ _ _ r Hadd)) Hr) as [Hr'| ->]; [|done].
      unfold old in Hr'. destruct (local st !! _) as [s|] eqn:E; simpl in Hr'; [|by apply elem_of_nil in Hr'].
      by apply (wf_local_scope _ Hwf _ _ _ E). }
    exists (pre ++ [rule]). split; [by rewrite <-app_assoc|]. split.
    + intros r. rewrite in_tables_set_local, elem_of_app, list_elem_of_singleton.
      intros [Hr|[Hr|(ns & srl' & _ & Hl & Hr)]].
      * left. apply Hin. by left.
      * destruct (proj1 (proj2 (add_rules_single _ _ _ r Hadd)) Hr) as [?| ->]; [|by right].
        left. by apply Hin, Hold.
      * left. apply Hin. right. eauto.
    + intros Hnd r. rewrite in_tables_set_local, elem_of_app, list_elem_of_singleton. intros [Hr| ->].
      * destruct (Hall Hnd r Hr) as [?|(ns & srl' & Hl & Hr')]; [by left|right].
        destruct (decide (ns = AppnsIndex rule)) as [->|]; [left|right; eauto].
        apply (add_rules_single _ _ _ r Hadd). unfold old. by rewrite Hl.
      * right; left. apply (add_rules_single _ _ _ rule Hadd).
        eapply fresh_key; [done|done|]. intros r ?. by apply Hin, Hold.
  - unfold dumped_step. rewrite (proj2 (Z.eqb_neq _ _) Hsc).
    destruct (Insert_wf (global st) [rule] (wf_global _ Hwf)) as (srl & ok & -> & Hs & Hadd). cbn [mbind option_bind].
    eexists. split; [done|]. split.
    { apply wf_tables_set_global; [done..|]. intros r Hr.
      destruct (proj1 (proj2 (add_rules_single _ _ _ r Hadd)) Hr) as [Hr'| ->]; [|done].
      by apply (wf_global_scope _ Hwf). }
    exists (pre ++ [rule]). split; [by rewrite <-app_assoc|].
    unfold in_tables; simpl. split.
    + intros r. rewrite elem_of_app, list_elem_of_singleton. intros [Hr|Hr]; [|left; apply Hin; by right].
      destruct (proj1 (proj2 (add_rules_single _ _ _ r Hadd)) Hr) as [?| ->]; [|by right].
      left. apply Hin. by left.
    + intros Hnd r. rewrite elem_of_app, list_elem_of_singleton. intros [Hr| ->].
      * destruct (Hall Hnd r Hr) as [?|?]; [left|by right]. by apply (add_rules_single _ _ _ r Hadd).
      * left. apply (add_rules_single _ _ _ rule Hadd).
        eapply fresh_key; [done|done|]. intros r ?. apply Hin. by left.
Qed.

Lemma dumpedTables_spec :
  ∃ st, dumpedTables rs = Some st ∧ wf_tables st ∧ (∀ r, in_tables st r → r ∈ rs) ∧
    (NoDup (SessionRule_key <$> rs) → ∀ r, r ∈ rs → in_tables st r).
Proof.
  destruct (foldM_inv dumped_step dumped_inv NewSessionTables rs) as (st & Hst & Hwf & pre & Hrs & Hin & Hall).
  - split; [apply wf_tables_new|]. exists []. split_and!; [done| |by intros _ ? ?%elem_of_nil].
    intros r [Hr|(ns & srl & Hl & _)]; simpl in *; [done|]. by rewrite lookup_empty in Hl.
  - intros. by apply dumped_step_inv.
  - exists st. rewrite app_nil_r in Hrs. subst pre. split; [exact Hst|]. done.
Qed.
End dumped.

(** ** Transactions *)

Definition apply_updates (srct : SessionRuleCacheTxn) (us : list (Z * NamespaceConfig)) : SessionRuleCacheTxn :=
  foldl (λ t '(ns, c), Update t ns (ipAddr c) (ingress c) (egress c)) srct us.

Definition updated_config (cfg : gmap Z NamespaceConfig) (us : list (Z * NamespaceConfig)) :
    gmap Z NamespaceConfig :=
  foldl (λ cfg '(ns, c), <[ns := c]> cfg) cfg us.

Definition cache_inv `{RangeOracle} (src : SessionRuleCache) : Prop :=
  implements (tagPrefix src) (config src) (tables src).

(** What is installed in VPP when the transaction starts: the dump for a
    resync, otherwise the content of the cache. *)
Definition installed (src : SessionRuleCache) (resync : bool) (dump : list SessionRule) (r : SessionRule) : Prop :=
  if resync then r ∈ dump else in_tables (tables src) r.

Lemma in_tables_dec st r : wf_tables st → in_tables st r ∨ ¬ in_tables st r.
Proof.
  intros Hwf. destruct (decide (Scope r = RuleScopeLocal)).
  - rewrite (in_tables_local st (AppnsIndex r)) by done. destruct (decide (r ∈ from_option srl_list [] (local st !! AppnsIndex r))); tauto.
  - rewrite in_tables_global by done. destruct (decide (r ∈ srl_list (global st))); tauto.
Qed.

Lemma apply_updates_eq srct us :
  apply_updates srct us =
  mkSessionRuleCacheTxn (resync srct) (updated_config (txn_config srct) us) (txn_tables srct)
    (match us with [] => upToDateTables srct | _ => false end).
Proof.
  revert srct. induction us as [|[ns c] us IH]; intros srct; simpl; [by destruct srct|].
  rewrite IH. simpl. destruct c. f_equal. by destruct us.
Qed.

Lemma Init_inv `{RangeOracle} prefix : cache_inv (Init prefix).
Proof.
  split; simpl; [apply wf_tables_new|by intros ? ?%elem_of_nil| | | |].
  - intros p r [=].
  - intros ns. by rewrite !lookup_empty.
  - intros ns srl r [=].
  - intros ns srl r [=].
Qed.

Section txn.
Context `{RangeOracle} (src : SessionRuleCache) (resync : bool) (us : list (Z * NamespaceConfig)).
Let srct := apply_updates (NewTxn src resync) us.
Let cfg := updated_config (if resync then ∅ else config src) us.

Lemma txn_refresh :
  ∃ st, refreshTables src srct = Some (mkSessionRuleCacheTxn resync cfg st true) ∧
    implements (tagPrefix src) cfg st.
Proof.
  unfold srct. rewrite apply_updates_eq. simpl.
  apply (refreshTables_spec src (mkSessionRuleCacheTxn _ _ _ _)). intros ns. simpl. rewrite lookup_empty. by intros [? [=]].
Qed.

Lemma txn_stale : upToDateTables srct = false.
Proof. unfold srct. rewrite apply_updates_eq. simpl. by destruct us. Qed.

Lemma txn_resync_flag : SessionCache.resync srct = resync.
Proof. unfold srct. by rewrite apply_updates_eq. Qed.

(** The dump is looked at by a resync only. *)
Lemma txn_Changes_dump d1 d2 : resync = false → Changes src srct d1 = Changes src srct d2.
Proof.
  intros Hr. destruct txn_refresh as (st & Href & _). unfold Changes.
  rewrite txn_stale, Href. cbn [mbind option_bind SessionCache.resync]. by rewrite Hr.
Qed.

(** The tables [Changes] compares with. *)
Lemma txn_Changes dump :
  cache_inv src → (resync = true → NoDup (SessionRule_key <$> dump)) →
  ∃ st st2, implements (tagPrefix src) cfg st ∧ wf_tables st2 ∧
    (∀ r, in_tables st2 r ↔ installed src resync dump r) ∧
    Changes src srct (Some dump) =
      Some (mkSessionRuleCacheTxn resync cfg st true,
            Some (Some <$> diff_added st st2, Some <$> diff_removed st st2)).
Proof.
  intros Hinv Hnd. destruct txn_refresh as (st & Href & Himpl). pose proof (impl_wf _ _ _ Himpl) as Hwf.
  unfold Changes. rewrite txn_stale, Href. cbn [mbind option_bind SessionCache.resync].
  destruct resync eqn:Er.
  - destruct (dumpedTables_spec dump) as (st2 & -> & Hwf2 & Hin & Hall). cbn [mbind option_bind txn_tables].
    exists st, st2. rewrite tables_Diff_eq by done. split_and!; [done..| |done].
    intros r. split; [apply Hin|by apply Hall, Hnd].
  - exists st, (tables src). pose proof (impl_wf _ _ _ Hinv). cbn [txn_tables].
    rewrite tables_Diff_eq by done. done.
Qed.
End txn.

(** C6. A transaction of the session-rule cache. From a cache whose tables
    implement its configuration, start a transaction (a resync or not), update
    any sequence of namespaces, ask for the changes and commit. No step
    panics; the committed configuration is the old one (nothing, for a resync)
    overwritten by the updates; the committed tables implement it and the
    cache is again in a good state; and the changes are exactly what turns the
    installed rules into those tables: every added rule was not installed,
    every removed one was, and the installed rules without the removed and
    with the added ones are the rules of the tables. For a resync the
    installed rules are the dumped ones, which have distinct keys. *)
Theorem session_txn_correct `{RangeOracle} (src : SessionRuleCache) (resync : bool)
    (us : list (Z * NamespaceConfig)) (dump : list SessionRule) :
  cache_inv src → (resync = true → NoDup (SessionRule_key <$> dump)) →
  ∃ srct src' added removed,
    Changes src (apply_updates (NewTxn src resync) us) (Some dump) =
      Some (srct, Some (Some <$> added, Some <$> removed)) ∧
    Commit src srct = Some src' ∧
    config src' = updated_config (if resync then ∅ else config src) us ∧
    cache_inv src' ∧
    NoDup added ∧ NoDup removed ∧
    (∀ r, r ∈ added → ¬ installed src resync dump r) ∧
    (∀ r, r ∈ removed → installed src resync dump r) ∧
    (∀ r, in_tables (tables src') r ↔ (installed src resync dump r ∧ r ∉ removed) ∨ r ∈ added).
Proof.
  intros Hinv Hnd.
  destruct (txn_Changes src resync us dump Hinv Hnd) as (st & st2 & Himpl & Hwf2 & Hinst & ->).
  pose proof (impl_wf _ _ _ Himpl) as Hwf.
  exists (mkSessionRuleCacheTxn resync (updated_config (if resync then ∅ else config src) us) st true).
  exists (mkSessionRuleCache (updated_config (if resync then ∅ else config src) us) st (tagPrefix src)).
  exists (diff_added st st2), (diff_removed st st2).
  split_and!; [done..|by apply NoDup_diff_added|by apply NoDup_diff_removed| | |].
  - intros r [_ Hn]%elem_of_diff_added; [|done..]. by rewrite <-Hinst.
  - intros r [Hn _]%elem_of_diff_removed; [|done..]. by rewrite <-Hinst.
  - intros r. simpl. rewrite elem_of_diff_added, elem_of_diff_removed, Hinst by done.
    rewrite <-Hinst. destruct (in_tables_dec st r Hwf), (in_tables_dec st2 r Hwf2); tauto.
Qed.

(** A resync over one stale rule, with one namespace that denies everything
    but port 80. *)
Definition example_rule_permit : ContivRule :=
  mkContivRule "allow-80" ActionPermit emptyIPNet (mkIPNet [10; 1; 0; 0]%Z [255; 255; 0; 0]%Z) TCP 0 80.
Definition example_rule_deny : ContivRule :=
  mkContivRule "deny-all" ActionDeny emptyIPNet emptyIPNet TCP 0 0.
Definition example_ns : NamespaceConfig :=
  mkNamespaceConfig (mkIPNet [10; 1; 1; 1]%Z [255; 255; 255; 255]%Z)
    [example_rule_permit; example_rule_deny] [example_rule_deny].

Lemma session_txn_correct_witness :
  ∃ srct src' added removed,
    @Changes canonical_order (Init "contiv-") (apply_updates (NewTxn (Init "contiv-") true) [(7%Z, example_ns)])
      (Some [zeroSessionRule]) = Some (srct, Some (Some <$> added, Some <$> removed)) ∧
    @Commit canonical_order (Init "contiv-") srct = Some src' ∧
    removed = [zeroSessionRule].
Proof.
  destruct (@session_txn_correct canonical_order (Init "contiv-") true [(7%Z, example_ns)] [zeroSessionRule]
    (Init_inv _) (λ _, NoDup_singleton _)) as (srct & src' & added & removed & Hc & Hcom & _).
  exists srct, src', added, removed. split; [done|]. split; [done|].
  vm_compute in Hc. injection Hc as _ _ Hr. destruct removed as [|r [|]]; simplify_eq/=. done.
Defined.
