(* ===== verification/VppTcpRenderer.v ===== *)
(** * The VPPTCP renderer

    plugins/policy/renderer/vpptcp/vpptcp_renderer.go: Contiv rules rendered as
    VPP session rules through the session-rule cache and the binary API.

    VPP and the govpp channel are not part of the repository: VPP is a type
    [V] of states with the function [vpp_exec] that executes one add/delete
    request ([VppSession]), what the renderer relies on being the laws of
    [VppSessionLaws]: adding a rule of this renderer with a new key and a new
    tag and deleting an installed rule of it succeed and do just that, as in
    mock/sessionrules (which refuses a key or a tag that is in use and a tag
    without the prefix of the renderer). A channel is
    the state of VPP with the queue of the replies not yet received; its reply
    side holds at most [reply_cap] of them. The dump of the installed rules is
    the sequence of messages received ([inr tt] is a receive error, the end of
    the list the stop mark). *)

From Stdlib Require Import ZArith Lia Ascii String.
From stdpp Require Import prelude strings list gmap sorting.
From S2P Require Import Prelude Slots GoStrings GoNet KsrModel Utils Rules Md5 SessionRules SessionCache.

Definition SessionRuleTagPrefix : string := "contiv/vpp-policy-".

(** [session.SessionRulesDetails] has the fields of a session rule. *)
Abbreviation SessionRulesDetails := SessionRule (only parsing).

(** [session.SessionRuleAddDel] *)
Record SessionRuleAddDel := mkSessionRuleAddDel {
  msg_TransportProto : Z;
  msg_IsIP4 : Z;
  msg_LclIP : list Z;
  msg_LclPlen : Z;
  msg_RmtIP : list Z;
  msg_RmtPlen : Z;
  msg_LclPort : Z;
  msg_RmtPort : Z;
  msg_ActionIndex : Z;
  msg_IsAdd : Z;
  msg_AppnsIndex : Z;
  msg_Scope : Z;
  msg_Tag : list Z
}.

(** The rule a request is about, as mock/sessionrules reads it. *)
Definition makeSessionRule (msg : SessionRuleAddDel) : SessionRule :=
  mkSessionRule (msg_TransportProto msg) (msg_IsIP4 msg) (copy_into zeroIP (msg_LclIP msg)) (msg_LclPlen msg)
    (copy_into zeroIP (msg_RmtIP msg)) (msg_RmtPlen msg) (msg_LclPort msg) (msg_RmtPort msg)
    (msg_ActionIndex msg) (msg_AppnsIndex msg) (msg_Scope msg) (copy_into zeroTag (msg_Tag msg)).

(** [string(tag\[:bytes.IndexByte(tag, 0)\])]; [None] is the slice-bounds panic. *)
Definition tag_text (tag : list Z) : option string :=
  '(tagLen, _) ← list_find (λ b, b = 0%Z) tag;
  Some (String.string_of_list_ascii ((λ z, ascii_of_N (Z.to_N z)) <$> take tagLen tag)).

(** The rule was installed by this renderer. *)
Definition own (r : SessionRule) : Prop :=
  ∃ text, tag_text (Tag r) = Some text ∧ HasPrefix text SessionRuleTagPrefix = true.

#[global] Instance own_dec r : Decision (own r).
Proof.
  destruct (tag_text (Tag r)) as [text|] eqn:E.
  - destruct (HasPrefix text SessionRuleTagPrefix) eqn:Hp.
    + left. by exists text.
    + right. intros (t & Ht & Hp'). rewrite E in Ht. injection Ht as <-. by rewrite Hp in Hp'.
  - right. intros (t & Ht & Hp'). by rewrite E in Ht.
Defined.

(** A reply: an error of the channel, data that does not decode, a return value. *)
Inductive Reply := ReplyError | ReplyUndecodable | ReplyRetval (retval : Z).

Class VppSession (V : Type) := {
  vpp_rules : V → list SessionRule;
  vpp_exec : V → SessionRuleAddDel → V * Reply
}.

Class VppSessionLaws (V : Type) `{!VppSession V} : Prop := {
  vpp_exec_add (v : V) msg :
    msg_IsAdd msg = 1%Z → own (makeSessionRule msg) →
    SessionRule_key (makeSessionRule msg) ∉ SessionRule_key <$> vpp_rules v →
    Tag (makeSessionRule msg) ∉ Tag <$> vpp_rules v →
    (vpp_exec v msg).2 = ReplyRetval 0 ∧
    vpp_rules (vpp_exec v msg).1 ≡ₚ makeSessionRule msg :: vpp_rules v;
  vpp_exec_del (v : V) msg :
    msg_IsAdd msg = 0%Z → own (makeSessionRule msg) →
    makeSessionRule msg ∈ vpp_rules v → NoDup (SessionRule_key <$> vpp_rules v) →
    (vpp_exec v msg).2 = ReplyRetval 0 ∧
    makeSessionRule msg :: vpp_rules (vpp_exec v msg).1 ≡ₚ vpp_rules v
}.

Record Channel (V : Type) := mkChannel { chan_vpp : V; chan_replies : list Reply }.
Arguments mkChannel {V}.
Arguments chan_vpp {V}.
Arguments chan_replies {V}.

Record Renderer := mkRenderer {
  cache : SessionRuleCache;
  GoVPPChanBufSize : Z
}.

Record RendererTxn := mkRendererTxn {
  cacheTxn : SessionRuleCacheTxn;
  txn_resync : bool
}.

Definition Renderer_Init (bufSize : Z) : Renderer := mkRenderer (Init SessionRuleTagPrefix) bufSize.

Definition Renderer_NewTxn (r : Renderer) (resync : bool) : RendererTxn :=
  mkRendererTxn (NewTxn (cache r) resync) resync.

(** ** The dump *)

(** The rule built from a message. *)
Definition dumped_rule (msg : SessionRulesDetails) : SessionRule :=
  mkSessionRule (TransportProto msg) (IsIP4 msg) (copy_into zeroIP (LclIP msg)) (LclPlen msg)
    (copy_into zeroIP (RmtIP msg)) (RmtPlen msg) (LclPort msg) (RmtPort msg)
    (ActionIndex msg) (AppnsIndex msg) (Scope msg) (copy_into zeroTag (Tag msg)).

(** The outer option is a panic, the inner one the error. *)
Fixpoint dumpRules_loop (msgs : list (SessionRulesDetails + unit)) (rules : list SessionRule) :
    option (option (list SessionRule)) :=
  match msgs with
  | [] => Some (Some rules)
  | inr _ :: _ => Some None
  | inl msg :: msgs =>
    tag ← tag_text (Tag msg);
    if negb (HasPrefix tag SessionRuleTagPrefix) then dumpRules_loop msgs rules
    else dumpRules_loop msgs (rules ++ [dumped_rule msg])
  end.

Definition dumpRules (msgs : list (SessionRulesDetails + unit)) : option (option (list SessionRule)) :=
  dumpRules_loop msgs [].

(** ** Sending the changes *)

Definition makeSessionRuleAddDelReq (rule : SessionRule) (add : bool) : SessionRuleAddDel :=
  let isAdd := if add then 1%Z else 0%Z in
  {| msg_TransportProto := TransportProto rule;
     msg_IsIP4 := IsIP4 rule;
     msg_LclIP := LclIP rule;
     msg_LclPlen := LclPlen rule;
     msg_RmtIP := RmtIP rule;
     msg_RmtPlen := RmtPlen rule;
     msg_LclPort := LclPort rule;
     msg_RmtPort := RmtPort rule;
     msg_ActionIndex := ActionIndex rule;
     msg_IsAdd := isAdd;
     msg_AppnsIndex := AppnsIndex rule;
     msg_Scope := Scope rule;
     msg_Tag := Tag rule |}.

Section channel.
Context {V : Type} `{!VppSession V} (reply_cap : nat).

(** A request is executed and its reply queued; with the reply side full the
    sender waits for ever, as it is the only receiver ([None]). *)
Definition chan_send (ch : Channel V) (req : SessionRuleAddDel) : option (Channel V) :=
  if length (chan_replies ch) <? reply_cap then
    let '(v, reply) := vpp_exec (chan_vpp ch) req in
    Some (mkChannel v (chan_replies ch ++ [reply]))
  else None.

(** The loop receiving [j] replies: it stops at the first failure. An empty
    queue blocks ([None]). *)
Fixpoint receive_replies (j : nat) (ch : Channel V) : option (Channel V * bool) :=
  match j with
  | O => Some (ch, false)
  | S j =>
    match chan_replies ch with
    | [] => None
    | reply :: replies =>
      let ch := mkChannel (chan_vpp ch) replies in
      match reply with
      | ReplyError | ReplyUndecodable => Some (ch, true)
      | ReplyRetval retval => if (retval =? 0)%Z then receive_replies j ch else Some (ch, true)
      end
    end
  end.

(** The loop over the batches; [true] is an error. Without progress (a buffer
    size that is not positive) it runs for ever, which is [None]; otherwise
    every round sends at least one request. *)
Fixpoint updateRules_loop (fuel : nat) (chanBufSize : nat) (requests : list SessionRuleAddDel)
    (ch : Channel V) : option (Channel V * bool) :=
  match requests with
  | [] => Some (ch, false)
  | _ =>
    match fuel with
    | O => None
    | S fuel =>
      let batch := take chanBufSize requests in
      ch ← foldM chan_send ch batch;
      '(ch, wasError) ← receive_replies (length batch) ch;
      if wasError : bool then Some (ch, true)
      else updateRules_loop fuel chanBufSize (drop chanBufSize requests) ch
    end
  end.

Definition updateRules (r : Renderer) (add remove : list (option SessionRule)) (ch : Channel V) :
    option (Channel V * bool) :=
  dels ← mapM (fmap (λ rule, makeSessionRuleAddDelReq rule false)) remove;
  adds ← mapM (fmap (λ rule, makeSessionRuleAddDelReq rule true)) add;
  let requests := dels ++ adds in
  let chanBufSize := if (GoVPPChanBufSize r =? 0)%Z then 100%Z else GoVPPChanBufSize r in
  updateRules_loop (length requests) (Z.to_nat chanBufSize) requests ch.

(** [GetNsIndex] is the contiv plugin's. *)
Definition Render (GetNsIndex : string → string → option Z) (art : RendererTxn) (pod : PodID)
    (podIP : IPNet) (ingress egress : list ContivRule) : RendererTxn :=
  match GetNsIndex (PodID_Namespace pod) (PodID_Name pod) with
  | None => art
  | Some nsIndex => mkRendererTxn (Update (cacheTxn art) nsIndex podIP ingress egress) (txn_resync art)
  end.

(** The result has the renderer, the channel and whether an error is returned. *)
Definition Renderer_Commit `{RangeOracle} (r : Renderer) (art : RendererTxn) (ch : Channel V)
    (msgs : list (SessionRulesDetails + unit)) : option (Renderer * Channel V * bool) :=
  dump ← (if resync (cacheTxn art) then dumpRules msgs else Some None);
  '(srct, changes) ← Changes (cache r) (cacheTxn art) dump;
  match changes with
  | None => Some (r, ch, true)
  | Some (added, removed) =>
    '(ch, wasError) ← (if (length added =? 0) && (length removed =? 0) then Some (ch, false)
                       else updateRules r added removed ch);
    if wasError : bool then Some (r, ch, true)
    else
      cache' ← Commit (cache r) srct;
      Some (mkRenderer cache' (GoVPPChanBufSize r), ch, false)
  end.
End channel.

(** ** Specification *)

(** The sizes of the arrays; the tag is NUL-terminated. *)
Definition wf_rule (r : SessionRule) : Prop :=
  length (LclIP r) = 16 ∧ length (RmtIP r) = 16 ∧ length (Tag r) = 64 ∧ is_Some (tag_text (Tag r)).

(** ** Lemmas: tags *)

Lemma copy_into_length {A} (dst src : list A) : length (copy_into dst src) = length dst.
Proof. unfold copy_into. rewrite length_app, length_take, length_drop. lia. Qed.

Lemma copy_into_full {A} (dst src : list A) : length src = length dst → copy_into dst src = src.
Proof. intros H. unfold copy_into. by rewrite take_ge, drop_ge, app_nil_r by lia. Qed.

Lemma tag_text_copy s :
  String.length s < 64 → Forall (λ z, z ≠ 0%Z) (string_bytes s) →
  tag_text (copy_into zeroTag (string_bytes s)) = Some s.
Proof.
  intros Hlen Hnz. rewrite <-string_bytes_length in Hlen. set (b := string_bytes s) in *.
  assert (copy_into zeroTag b = b ++ replicate (64 - length b) 0%Z) as ->.
  { unfold copy_into, zeroTag. rewrite length_replicate, take_ge, drop_replicate by lia. done. }
  unfold tag_text. rewrite (proj2 (list_find_Some _ _ (length b) 0%Z)).
  - cbn [mbind option_bind]. rewrite take_app_length. unfold b. by rewrite string_bytes_text.
  - split_and!; [|done|].
    + rewrite lookup_app_r by lia. rewrite Nat.sub_diag. apply lookup_replicate. lia.
    + intros j y Hy Hj. rewrite lookup_app_l in Hy by done.
      rewrite Forall_lookup in Hnz. by apply (Hnz j).
Qed.

Definition tagged (prefix : string) (r : SessionRule) : Prop :=
  length (LclIP r) = 16 ∧ length (RmtIP r) = 16 ∧
  ∃ text, Tag r = copy_into zeroTag (string_bytes (prefix +:+ getMD5Hash text)).

Lemma convertEgressRule_tagged ns ip p rule r : r ∈ convertEgressRule ns ip p rule → tagged p r.
Proof.
  unfold convertEgressRule. destruct (_ && _); [by intros ?%elem_of_nil|].
  destruct (0 <? _), (length (IPNet_IP (SrcNetwork rule)) =? 0); cbv zeta;
    rewrite ?elem_of_cons, elem_of_nil;
    (intros [->|[->|[]]] || intros [->|[]]); unfold tagged;
    cbn [LclIP RmtIP Tag set_Tag set_upper_half];
    rewrite ?length_insert, ?copy_into_length, ?length_replicate; eauto.
Qed.

Lemma convertIngressRule_tagged ns p rule r : r ∈ convertIngressRule ns p rule → tagged p r.
Proof.
  unfold convertIngressRule. destruct (_ && _); [by intros ?%elem_of_nil|].
  destruct (0 <? _), (length (IPNet_IP (DestNetwork rule)) =? 0); cbv zeta;
    rewrite ?elem_of_cons, elem_of_nil; intros Hr; unfold tagged;
    destruct_or?; subst; try done;
    cbn [LclIP RmtIP Tag set_Tag set_upper_half set_IsIP4];
    rewrite ?length_insert, ?copy_into_length, ?length_replicate; eauto.
Qed.

Lemma tagged_own r : tagged SessionRuleTagPrefix r → own r ∧ wf_rule r.
Proof.
  intros (H1 & H2 & text & Ht).
  assert (tag_text (Tag r) = Some (SessionRuleTagPrefix +:+ getMD5Hash text)%string) as Htag.
  { rewrite Ht. apply tag_text_copy.
    - rewrite <-string_bytes_length, string_bytes_app, length_app, !string_bytes_length, getMD5Hash_length.
      simpl. lia.
    - rewrite string_bytes_app. apply Forall_app. split; [|apply getMD5Hash_nonzero].
      vm_compute. repeat constructor; done. }
  split.
  - eexists. split; [exact Htag|]. apply HasPrefix_app.
  - split_and!; [done..| |by rewrite Htag]. by rewrite Ht, copy_into_length.
Qed.

Lemma implements_own `{RangeOracle} cfg st r :
  implements SessionRuleTagPrefix cfg st → in_tables st r → own r ∧ wf_rule r.
Proof.
  intros Himpl [Hr|(ns & srl & Hl & Hr)]; apply tagged_own.
  - destruct (impl_global _ _ _ Himpl r Hr) as (p & _ & (rule & Hc & _)%list_elem_of_bind).
    by eapply convertEgressRule_tagged.
  - pose proof (impl_local _ _ _ Himpl _ _ _ Hl Hr) as (rule & Hc & _)%list_elem_of_bind.
    by eapply convertIngressRule_tagged.
Qed.

(** ** Lemmas: the dump *)

Lemma dumped_rule_wf r : wf_rule r → dumped_rule r = r.
Proof.
  intros (H1 & H2 & H3 & _). unfold dumped_rule. rewrite !copy_into_full by done. by destruct r.
Qed.

Lemma dumpRules_loop_spec rs acc :
  Forall wf_rule rs → dumpRules_loop (inl <$> rs) acc = Some (Some (acc ++ filter own rs)).
Proof.
  intros Hwf. revert acc. induction Hwf as [|r rs Hr _ IH]; intros acc; csimpl; [by rewrite app_nil_r|].
  pose proof Hr as (_ & _ & _ & [text Ht]). rewrite Ht. csimpl.
  destruct (HasPrefix text SessionRuleTagPrefix) eqn:Hp; cbn [negb]; rewrite IH.
  - rewrite filter_cons_True by (by exists text). by rewrite <-app_assoc, dumped_rule_wf.
  - rewrite filter_cons_False; [done|]. intros (t & Ht' & Hp'). rewrite Ht in Ht'. injection Ht' as <-. by rewrite Hp in Hp'.
Qed.

Lemma dumpRules_spec rs : Forall wf_rule rs → dumpRules (inl <$> rs) = Some (Some (filter own rs)).
Proof. apply dumpRules_loop_spec. Qed.

Lemma request_rule_of r add : wf_rule r → makeSessionRule (makeSessionRuleAddDelReq r add) = r.
Proof. exact (dumped_rule_wf r). Qed.

(** ** Lemmas: the channel *)

Section channel_lemmas.
Context {V : Type} `{!VppSession V} (reply_cap : nat).

Definition exec_all (v : V) (reqs : list SessionRuleAddDel) : V :=
  foldl (λ v req, (vpp_exec v req).1) v reqs.

(** Every request of the sequence succeeds. *)
Fixpoint all_succeed (v : V) (reqs : list SessionRuleAddDel) : Prop :=
  match reqs with
  | [] => True
  | req :: reqs => (vpp_exec v req).2 = ReplyRetval 0 ∧ all_succeed (vpp_exec v req).1 reqs
  end.

Lemma all_succeed_app v l k : all_succeed v (l ++ k) ↔ all_succeed v l ∧ all_succeed (exec_all v l) k.
Proof. revert v. induction l as [|x l IH]; intros v; simpl; [tauto|]. rewrite IH. tauto. Qed.

Lemma send_batch v q batch :
  length q + length batch ≤ reply_cap → all_succeed v batch →
  foldM (chan_send reply_cap) (mkChannel v q) batch =
    Some (mkChannel (exec_all v batch) (q ++ replicate (length batch) (ReplyRetval 0))).
Proof.
  revert v q. induction batch as [|req batch IH]; intros v q Hlen Hok; simpl; [by rewrite app_nil_r|].
  destruct Hok as [Hr Hok]. unfold chan_send at 2; simpl in *.
  destruct (Nat.ltb_spec (length q) reply_cap); [|lia].
  destruct (vpp_exec v req) as [v' reply]; simpl in *. subst reply.
  rewrite IH; [|rewrite length_app; simpl; lia|done]. by rewrite <-app_assoc.
Qed.

Lemma receive_all v n :
  receive_replies n (mkChannel v (replicate n (ReplyRetval 0))) = Some (mkChannel (V := V) v [], false).
Proof. induction n as [|n IH]; simpl; [done|]. exact IH. Qed.

Lemma updateRules_loop_spec fuel B reqs v :
  0 < B → B ≤ reply_cap → length reqs ≤ fuel → all_succeed v reqs →
  updateRules_loop reply_cap fuel B reqs (mkChannel v []) = Some (mkChannel (exec_all v reqs) [], false).
Proof.
  intros HB Hcap. revert reqs v. induction fuel as [|fuel IH]; intros reqs v Hf Hok.
  { destruct reqs; [done|simpl in Hf; lia]. }
  destruct reqs as [|req reqs]; [done|]. cbn [updateRules_loop].
  set (l := req :: reqs) in *. rewrite <-(take_drop B l) in Hok.
  apply all_succeed_app in Hok as [Hok1 Hok2].
  rewrite send_batch by (done || (rewrite length_take; simpl; lia)). cbn [mbind option_bind app].
  rewrite receive_all. cbn [mbind option_bind].
  rewrite IH; [|rewrite length_drop; unfold l in *; simpl in *; lia|done].
  do 2 f_equal. unfold exec_all. by rewrite <-foldl_app, take_drop.
Qed.
End channel_lemmas.

Section changes.
Context {V : Type} `{!VppSession V, !VppSessionLaws V}.

Lemma exec_dels v R :
  NoDup R → (∀ r, r ∈ R → r ∈ vpp_rules v ∧ own r ∧ wf_rule r) → NoDup (SessionRule_key <$> vpp_rules v) →
  let reqs := (λ r, makeSessionRuleAddDelReq r false) <$> R in
  all_succeed v reqs ∧ R ++ vpp_rules (exec_all v reqs) ≡ₚ vpp_rules v.
Proof.
  revert v. induction R as [|r R IH]; intros v Hnd Hin Hk; [done|]. csimpl.
  apply NoDup_cons in Hnd as [Hr Hnd]. destruct (Hin r (list_elem_of_here _ _)) as (Hv & Ho & Hwf).
  destruct (vpp_exec_del v (makeSessionRuleAddDelReq r false)) as [Hok Hperm];
    rewrite ?request_rule_of by done; [done..|]. rewrite request_rule_of in Hperm by done.
  destruct (IH (vpp_exec v (makeSessionRuleAddDelReq r false)).1) as [Hoks Hperms]; [done| | |].
  - intros x Hx. destruct (Hin x) as [Hxv Hx']; [by right|]. split; [|done].
    rewrite <-Hperm in Hxv. apply elem_of_cons in Hxv as [->|]; done.
  - rewrite <-Hperm in Hk. by apply NoDup_cons in Hk as [_ ?].
  - split; [done|]. by rewrite Hperms, Hperm.
Qed.

Lemma exec_adds v A :
  Forall (λ r, own r ∧ wf_rule r) A →
  NoDup (SessionRule_key <$> A ++ vpp_rules v) → (∀ r, r ∈ A → Tag r ∉ Tag <$> vpp_rules v) → NoDup (Tag <$> A) →
  let reqs := (λ r, makeSessionRuleAddDelReq r true) <$> A in
  all_succeed v reqs ∧ vpp_rules (exec_all v reqs) ≡ₚ A ++ vpp_rules v.
Proof.
  revert v. induction A as [|r A IH]; intros v Hown Hk Htv HtA; [done|]. csimpl.
  apply Forall_cons in Hown as [[Ho Hwf] Hown]. csimpl in HtA. apply NoDup_cons in HtA as [Ht HtA].
  pose proof Hk as Hk'. rewrite fmap_app, fmap_cons in Hk'. simpl in Hk'. apply NoDup_cons in Hk' as [Hr Hk'].
  destruct (vpp_exec_add v (makeSessionRuleAddDelReq r true)) as [Hok Hperm];
    rewrite ?request_rule_of by done; [done|done|intros ?; apply Hr, elem_of_app; by right|apply Htv; by left|].
  rewrite request_rule_of in Hperm by done.
  destruct (IH (vpp_exec v (makeSessionRuleAddDelReq r true)).1) as [Hoks Hperms]; [done| | |done|].
  - rewrite Hperm, <-Permutation_middle. done.
  - intros x Hx. rewrite Hperm. csimpl. apply not_elem_of_cons. split; [|apply Htv; by right].
    intros Heq. apply Ht. rewrite <-Heq. by apply list_elem_of_fmap_2.
  - split; [done|]. by rewrite Hperms, Hperm, Permutation_middle.
Qed.

Lemma mapM_requests (l : list SessionRule) add :
  mapM (fmap (λ rule, makeSessionRuleAddDelReq rule add)) (Some <$> l) =
  Some ((λ r, makeSessionRuleAddDelReq r add) <$> l).
Proof. induction l as [|r l IH]; [done|]. rewrite fmap_cons. cbn [mapM]. by rewrite IH. Qed.

(** The rules [A] can be added to [rest]. *)
Definition addable (A rest : list SessionRule) : Prop :=
  NoDup (SessionRule_key <$> A ++ rest) ∧ (∀ r, r ∈ A → Tag r ∉ Tag <$> rest) ∧ NoDup (Tag <$> A).

Lemma updateRules_spec r A R v reply_cap :
  let B := if (GoVPPChanBufSize r =? 0)%Z then 100%Z else GoVPPChanBufSize r in
  (0 < B ≤ Z.of_nat reply_cap)%Z →
  NoDup R → (∀ x, x ∈ R → x ∈ vpp_rules v ∧ own x ∧ wf_rule x) → NoDup (SessionRule_key <$> vpp_rules v) →
  Forall (λ x, own x ∧ wf_rule x) A → (∀ rest, R ++ rest ≡ₚ vpp_rules v → addable A rest) →
  ∃ v', updateRules reply_cap r (Some <$> A) (Some <$> R) (mkChannel v []) = Some (mkChannel v' [], false) ∧
    ∃ rest, R ++ rest ≡ₚ vpp_rules v ∧ vpp_rules v' ≡ₚ A ++ rest.
Proof.
  intros B HB Hnd Hin Hk HA Hadd. unfold updateRules. rewrite !mapM_requests. cbn [mbind option_bind].
  destruct (exec_dels v R Hnd Hin Hk) as [Hok1 Hp1].
  set (v1 := exec_all v ((λ r, makeSessionRuleAddDelReq r false) <$> R)) in *.
  destruct (Hadd _ Hp1) as (Hk1 & Ht1 & Ht2). destruct (exec_adds v1 A HA Hk1 Ht1 Ht2) as [Hok2 Hp2].
  rewrite updateRules_loop_spec; [|fold B; lia..|done|].
  - eexists. split; [done|]. unfold exec_all. rewrite foldl_app.
    fold (exec_all v ((λ r, makeSessionRuleAddDelReq r false) <$> R)).
    fold v1. fold (exec_all v1 ((λ r, makeSessionRuleAddDelReq r true) <$> A)). by exists (vpp_rules v1).
  - by apply all_succeed_app.
Qed.
End changes.

(** ** Rendering a transaction *)

Definition render_all (GetNsIndex : string → string → option Z) (art : RendererTxn)
    (calls : list RenderCall) : RendererTxn :=
  foldl (λ art c, Render GetNsIndex art (rc_pod c) (rc_podIP c) (rc_ingress c) (rc_egress c)) art calls.

(** The namespaces the calls configure. *)
Definition rendered (GetNsIndex : string → string → option Z) (calls : list RenderCall) :
    list (Z * NamespaceConfig) :=
  omap (λ c, nsIndex ← GetNsIndex (PodID_Namespace (rc_pod c)) (PodID_Name (rc_pod c));
             Some (nsIndex, mkNamespaceConfig (rc_podIP c) (rc_ingress c) (rc_egress c))) calls.

Lemma render_all_eq get art calls :
  render_all get art calls =
  mkRendererTxn (apply_updates (cacheTxn art) (rendered get calls)) (txn_resync art).
Proof.
  revert art. induction calls as [|c calls IH]; intros art; simpl; [by destruct art|].
  rewrite IH. unfold Render. by destruct (get _ _).
Qed.

Section sync.
Context {V : Type} `{!VppSession V} `{RangeOracle}.

(** The renderer and VPP between two transactions. *)
Record ready (r : Renderer) (ch : Channel V) : Prop := {
  ready_cache : cache_inv (cache r);
  ready_prefix : tagPrefix (cache r) = SessionRuleTagPrefix;
  ready_replies : chan_replies ch = [];
  ready_keys : NoDup (SessionRule_key <$> vpp_rules (chan_vpp ch));
  ready_wf : Forall wf_rule (vpp_rules (chan_vpp ch))
}.

(** VPP holds, of this renderer's rules, those of the cache. *)
Definition in_sync (r : Renderer) (ch : Channel V) : Prop :=
  ∀ x, own x → x ∈ vpp_rules (chan_vpp ch) ↔ in_tables (tables (cache r)) x.

(** The rules of a configuration. *)
Definition config_rule (cfg : gmap Z NamespaceConfig) (x : SessionRule) : Prop :=
  (∃ p, cfg !! p.1 = Some p.2 ∧ x ∈ egress_rules SessionRuleTagPrefix p) ∨
  (∃ ns, is_Some (cfg !! ns) ∧ x ∈ ingress_rules SessionRuleTagPrefix cfg ns).

(** No rule of somebody else has the key of a rule of the configuration. *)
Definition no_collision (cfg : gmap Z NamespaceConfig) (v : V) : Prop :=
  ∀ f x, f ∈ vpp_rules v → ¬ own f → config_rule cfg x → SessionRule_key f ≠ SessionRule_key x.

(** Different rules of the configuration have different tags, the hashes of the
    namespaces, the directions and the IDs of the Contiv rules. *)
Definition distinct_tags (cfg : gmap Z NamespaceConfig) : Prop :=
  ∀ x y, config_rule cfg x → config_rule cfg y → Tag x = Tag y → SessionRule_key x = SessionRule_key y.

Definition buf_ok (r : Renderer) (reply_cap : nat) : Prop :=
  let B := if (GoVPPChanBufSize r =? 0)%Z then 100%Z else GoVPPChanBufSize r in
  (0 < B ≤ Z.of_nat reply_cap)%Z.

Lemma tables_config_rule cfg st x : implements SessionRuleTagPrefix cfg st → in_tables st x → config_rule cfg x.
Proof.
  intros Himpl [Hx|(ns & srl & Hl & Hx)].
  - left. by apply (impl_global _ _ _ Himpl).
  - right. exists ns. split; [by apply (impl_local_dom _ _ _ Himpl)|]. by eapply (impl_local _ _ _ Himpl).
Qed.

Lemma no_collision_tables cfg st v f x :
  no_collision cfg v → implements SessionRuleTagPrefix cfg st → in_tables st x →
  f ∈ vpp_rules v → ¬ own f → SessionRule_key f ≠ SessionRule_key x.
Proof. intros Hnc Himpl Hx Hf Hown. apply Hnc; [done..|]. by eapply tables_config_rule. Qed.

(** The tags of the tables are those of different rules. *)
Lemma tables_tag_inj cfg st x y :
  implements SessionRuleTagPrefix cfg st → distinct_tags cfg → in_tables st x → in_tables st y → Tag x = Tag y → x = y.
Proof.
  intros Himpl Hdt Hx Hy Ht. apply (in_tables_key_inj st); [by apply (impl_wf _ _ _ Himpl)|done..|].
  apply Hdt; [by eapply tables_config_rule..|done].
Qed.

(** The added rules have new keys once the removed ones are gone. *)
Lemma added_keys_new cfg st st2 v rest :
  implements SessionRuleTagPrefix cfg st → wf_tables st2 →
  (∀ x, own x → in_tables st2 x ↔ x ∈ vpp_rules v) → (∀ x, in_tables st2 x → own x) →
  NoDup (SessionRule_key <$> vpp_rules v) → no_collision cfg v →
  diff_removed st st2 ++ rest ≡ₚ vpp_rules v →
  NoDup (SessionRule_key <$> diff_added st st2 ++ rest).
Proof.
  intros Himpl Hwf2 Hinst Hown2 Hk Hnc Hperm. pose proof (impl_wf _ _ _ Himpl) as Hwf.
  assert (∀ x, x ∈ diff_added st st2 → in_tables st x ∧ ¬ in_tables st2 x) as Hadd
    by (intros x; by apply elem_of_diff_added).
  rewrite fmap_app. apply NoDup_app. split_and!.
  - assert (NoDup (diff_added st st2)) as Hnd by (by apply NoDup_diff_added).
    revert Hnd Hadd. generalize (diff_added st st2) as A.
    induction A as [|a A IH]; intros Hnd Hadd; csimpl; [constructor|].
    apply NoDup_cons in Hnd as [Ha Hnd]. constructor; [|apply IH; [done|]; intros; apply Hadd; by right].
    intros (b & Hkb & Hb)%list_elem_of_fmap. apply Ha.
    rewrite (in_tables_key_inj st a b); [done|done|apply Hadd; by left|apply Hadd; by right|done].
  - intros k (a & -> & Ha)%list_elem_of_fmap (b & Hkab & Hb)%list_elem_of_fmap.
    destruct (Hadd a Ha) as [Ha1 Ha2].
    assert (b ∈ vpp_rules v) as Hbv by (rewrite <-Hperm; apply elem_of_app; by right).
    destruct (decide (own b)) as [Hob|Hob].
    + apply Hinst in Hbv; [|done]. destruct (in_tables_dec st b Hwf) as [Hbs|Hbs].
      * apply Ha2. by rewrite (in_tables_key_inj st a b).
      * assert (b ∈ diff_removed st st2) as Hbr by (by apply elem_of_diff_removed).
        rewrite <-Hperm, fmap_app in Hk. apply NoDup_app in Hk as (_ & Hk & _).
        by eapply (Hk (SessionRule_key b)); apply list_elem_of_fmap_2.
    + by eapply (no_collision_tables cfg st v b a).
  - rewrite <-Hperm, fmap_app in Hk. by apply NoDup_app in Hk as (_ & _ & ?).
Qed.

(** A rule that stays in VPP is somebody else's or a rule of the new tables. *)
Lemma rest_rules st st2 v rest x :
  wf_tables st → wf_tables st2 → (∀ x, own x → in_tables st2 x ↔ x ∈ vpp_rules v) →
  NoDup (SessionRule_key <$> vpp_rules v) → diff_removed st st2 ++ rest ≡ₚ vpp_rules v →
  x ∈ rest → ¬ own x ∨ in_tables st2 x ∧ in_tables st x.
Proof.
  intros Hwf Hwf2 Hinst Hk Hperm Hx. destruct (decide (own x)) as [Ho|Ho]; [right|by left].
  assert (in_tables st2 x) as H2 by (apply Hinst; [done|]; rewrite <-Hperm; apply elem_of_app; by right).
  split; [done|]. destruct (in_tables_dec st x Hwf) as [|Hn]; [done|].
  apply NoDup_fmap_1 in Hk. rewrite <-Hperm in Hk. apply NoDup_app in Hk as (_ & Hk & _).
  destruct (Hk x); [|done]. by apply elem_of_diff_removed.
Qed.

Lemma added_addable cfg st st2 v rest :
  implements SessionRuleTagPrefix cfg st → wf_tables st2 →
  (∀ x, own x → in_tables st2 x ↔ x ∈ vpp_rules v) → (∀ x, in_tables st2 x → own x) →
  NoDup (SessionRule_key <$> vpp_rules v) → no_collision cfg v → distinct_tags cfg →
  diff_removed st st2 ++ rest ≡ₚ vpp_rules v → addable (diff_added st st2) rest.
Proof.
  intros Himpl Hwf2 Hinst Hown2 Hk Hnc Hdt Hperm. pose proof (impl_wf _ _ _ Himpl) as Hwf.
  split; [by eapply added_keys_new|]. split.
  - intros a [Ha1 Ha2]%elem_of_diff_added (b & Hab & Hb)%list_elem_of_fmap; [|done..].
    destruct (rest_rules st st2 v rest b Hwf Hwf2 Hinst Hk Hperm Hb) as [Ho|[Hb2 Hb1]].
    + apply Ho. destruct (implements_own _ _ a Himpl Ha1) as [(text & Ht & Hp) _]. exists text. by rewrite <-Hab.
    + apply Ha2. by rewrite (tables_tag_inj cfg st a b).
  - apply NoDup_fmap_2_strong; [|by apply NoDup_diff_added].
    intros x y [Hx _]%elem_of_diff_added [Hy _]%elem_of_diff_added Ht; [|done..]. by eapply (tables_tag_inj cfg st).
Qed.

Context `{!VppSessionLaws V}.

Lemma send_rule_changes r ch A R reply_cap :
  buf_ok r reply_cap → chan_replies ch = [] →
  NoDup R → (∀ x, x ∈ R → x ∈ vpp_rules (chan_vpp ch) ∧ own x ∧ wf_rule x) →
  NoDup (SessionRule_key <$> vpp_rules (chan_vpp ch)) →
  Forall (λ x, own x ∧ wf_rule x) A → (∀ rest, R ++ rest ≡ₚ vpp_rules (chan_vpp ch) → addable A rest) →
  ∃ v', (if (length (Some <$> A) =? 0) && (length (Some <$> R) =? 0) then Some (ch, false)
         else updateRules reply_cap r (Some <$> A) (Some <$> R) ch) = Some (mkChannel v' [], false) ∧
    ∃ rest, R ++ rest ≡ₚ vpp_rules (chan_vpp ch) ∧ vpp_rules v' ≡ₚ A ++ rest.
Proof.
  intros HB Hq Hnd Hin Hk HA Hadd. destruct ch as [v q]; simpl in *; subst q.
  destruct (_ && _) eqn:E; [|by apply updateRules_spec].
  rewrite !length_fmap in E. apply andb_true_iff in E as [E1%Nat.eqb_eq E2%Nat.eqb_eq].
  apply nil_length_inv in E1 as ->, E2 as ->. exists v. split; [done|]. by exists (vpp_rules v).
Qed.

(** VPP after the changes: the rules of the new tables and everybody else's. *)
Lemma changed_rules st st2 v v' :
  wf_tables st → wf_tables st2 →
  (∀ x, own x → in_tables st2 x ↔ x ∈ vpp_rules v) → (∀ x, in_tables st2 x → own x) →
  (∀ x, in_tables st x → own x) → NoDup (SessionRule_key <$> vpp_rules v) →
  (∃ rest, diff_removed st st2 ++ rest ≡ₚ vpp_rules v ∧ vpp_rules v' ≡ₚ diff_added st st2 ++ rest) →
  (∀ x, own x → x ∈ vpp_rules v' ↔ in_tables st x) ∧
  (∀ x, ¬ own x → x ∈ vpp_rules v' ↔ x ∈ vpp_rules v).
Proof.
  intros Hwf Hwf2 Hinst Hown2 Hown Hk (rest & Hrest & Hperm).
  apply NoDup_fmap_1 in Hk. rewrite <-Hrest in Hk. apply NoDup_app in Hk as (_ & Hdisj & _).
  split; intros x Ho; specialize (Hdisj x); rewrite elem_of_diff_removed in Hdisj by done;
    [specialize (Hinst x Ho)|specialize (Hown x); specialize (Hown2 x)];
    rewrite <-?Hrest in Hinst; rewrite Hperm, <-?Hrest; rewrite ?elem_of_app in *;
    rewrite ?elem_of_diff_added, ?elem_of_diff_removed in * by done.
  - destruct (in_tables_dec st x Hwf), (in_tables_dec st2 x Hwf2); tauto.
  - tauto.
Qed.

(** What [Commit] compares and the tables it builds. *)
Lemma commit_changes (r : Renderer) (ch : Channel V) (resync : bool) us :
  let cfg := updated_config (if resync then ∅ else config (cache r)) us in
  let srct := apply_updates (NewTxn (cache r) resync) us in
  ready r ch → (resync = false → in_sync r ch) →
  ∃ st st2, implements SessionRuleTagPrefix cfg st ∧ wf_tables st2 ∧
    (∀ x, own x → in_tables st2 x ↔ x ∈ vpp_rules (chan_vpp ch)) ∧ (∀ x, in_tables st2 x → own x) ∧
    (dump ← (if SessionCache.resync srct then dumpRules (inl <$> vpp_rules (chan_vpp ch)) else Some None);
     Changes (cache r) srct dump) =
    Some (mkSessionRuleCacheTxn resync cfg st true,
          Some (Some <$> diff_added st st2, Some <$> diff_removed st st2)).
Proof.
  intros cfg srct [Hcache Hpre Hq Hk Hwf] Hsync. unfold srct.
  rewrite txn_resync_flag, dumpRules_spec by done.
  set (dump := filter own (vpp_rules (chan_vpp ch))).
  destruct (txn_Changes (cache r) resync us dump Hcache) as (st & st2 & Himpl & Hwf2 & Hinst & Hch).
  { intros _. eapply sublist_NoDup; [exact Hk|]. apply fmap_sublist, sublist_filter. }
  rewrite Hpre in Himpl. exists st, st2. split_and!; [done|done| | |].
  - intros x Ho. rewrite Hinst. unfold installed, dump. destruct resync.
    + rewrite list_elem_of_filter. tauto.
    + symmetry. by apply Hsync.
  - intros x. rewrite Hinst. unfold installed, dump. destruct resync.
    + rewrite list_elem_of_filter. tauto.
    + unfold cache_inv in Hcache. rewrite Hpre in Hcache. intros Hx. by apply (implements_own _ _ x Hcache).
  - unfold cfg. rewrite <-Hch. destruct resync eqn:E; [done|]. cbn [mbind option_bind].
    by apply txn_Changes_dump.
Qed.

(** The state after the changes is a good one. *)
Lemma ready_after r cfg st st2 v v' :
  tagPrefix (cache r) = SessionRuleTagPrefix → implements SessionRuleTagPrefix cfg st →
  Forall wf_rule (vpp_rules v) → wf_tables st2 →
  (∀ rest, diff_removed st st2 ++ rest ≡ₚ vpp_rules v → addable (diff_added st st2) rest) →
  (∃ rest, diff_removed st st2 ++ rest ≡ₚ vpp_rules v ∧ vpp_rules v' ≡ₚ diff_added st st2 ++ rest) →
  ready (mkRenderer (mkSessionRuleCache cfg st (tagPrefix (cache r))) (GoVPPChanBufSize r)) (mkChannel v' []).
Proof.
  intros Hpre Himpl Hwf Hwf2 Hkeys (rest & Hrest & Hperm). split; simpl; [|done|done| |].
  - unfold cache_inv; simpl. by rewrite Hpre.
  - rewrite Hperm. by apply Hkeys.
  - rewrite <-Hrest in Hwf. rewrite Hperm. apply Forall_app. apply Forall_app in Hwf as [_ ?]. split; [|done].
    apply Forall_forall. intros x [Hx _]%elem_of_diff_added; [|by apply (impl_wf _ _ _ Himpl)|done].
    by apply (implements_own _ _ x Himpl).
Qed.
End sync.

(** C7. Rendering keeps VPP in sync. Whatever pods a transaction renders, its
    commit succeeds and leaves in VPP exactly the session rules that implement
    the new configuration (the rendered namespaces over the old ones, or over
    nothing for a resync), together with the rules of everybody else. For a
    change VPP has to hold the rules of the cache beforehand; a resync makes no
    assumption about which of the renderer's rules are installed. The
    assumptions: the cache holds what its last commit put there and no reply is
    pending in the channel; the rules in VPP have arrays of their sizes,
    NUL-terminated tags and different keys; no rule of somebody else has the
    key of a rule of the new configuration; different rules of the new
    configuration have different tags (no two rules share the MD5 hash the tag
    is made of); the configured buffer size, 100 when it is zero, is positive
    and at most what the channel buffers; the dump is received without an error
    and lists the rules of VPP; and VPP accepts to add a rule with the prefix of
    the renderer whose key and tag are not in use, and to delete an installed
    rule. *)
Theorem vpptcp_commit_sync {V : Type} `{!VppSession V, !VppSessionLaws V} `{RangeOracle}
    (reply_cap : nat) (r : Renderer) (ch : Channel V) (resync : bool)
    (GetNsIndex : string → string → option Z) (calls : list RenderCall) :
  let cfg := updated_config (if resync then ∅ else config (cache r)) (rendered GetNsIndex calls) in
  ready r ch → (resync = false → in_sync r ch) → buf_ok r reply_cap →
  no_collision cfg (chan_vpp ch) → distinct_tags cfg →
  ∃ r' ch',
    Renderer_Commit reply_cap r (render_all GetNsIndex (Renderer_NewTxn r resync) calls) ch
      (inl <$> vpp_rules (chan_vpp ch)) = Some (r', ch', false) ∧
    config (cache r') = cfg ∧ ready r' ch' ∧ in_sync r' ch' ∧
    (∀ x, ¬ own x → x ∈ vpp_rules (chan_vpp ch') ↔ x ∈ vpp_rules (chan_vpp ch)).
Proof.
  intros cfg Hready Hsync Hbuf Hnc Hdt. pose proof Hready as [_ Hpre Hq Hk Hwf].
  rewrite render_all_eq. unfold Renderer_Commit. cbn [cacheTxn Renderer_NewTxn].
  destruct (commit_changes r ch resync (rendered GetNsIndex calls) Hready Hsync)
    as (st & st2 & Himpl & Hwf2 & Hin2 & Hown2 & Hch). fold cfg in Himpl, Hch.
  pose proof (impl_wf _ _ _ Himpl) as Hwf1.
  rewrite option_bind_assoc_pair, Hch. cbn [mbind option_bind].
  assert (∀ rest, diff_removed st st2 ++ rest ≡ₚ vpp_rules (chan_vpp ch) →
    addable (diff_added st st2) rest) as Hkeys by (intros; by eapply added_addable).
  destruct (send_rule_changes r ch (diff_added st st2) (diff_removed st st2) reply_cap) as (v' & -> & Hperm);
    [done|done|by apply NoDup_diff_removed| |done| |done|].
  { intros x [Hx _]%elem_of_diff_removed; [|done..]. pose proof (Hown2 x Hx) as Ho. apply Hin2 in Hx; [|done].
    split_and!; [done..|]. rewrite Forall_forall in Hwf. by apply Hwf. }
  { apply Forall_forall. intros x [Hx _]%elem_of_diff_added; [|done..]. by apply (implements_own _ _ x Himpl). }
  cbn [mbind option_bind Commit upToDateTables txn_config txn_tables].
  destruct (changed_rules st st2 (chan_vpp ch) v') as [Hnew Hforeign];
    [done..|intros x Hx; by apply (implements_own _ _ x Himpl)|done|done|].
  eexists _, _. split; [done|]. split; [done|]. split; [|done]. by apply (ready_after r cfg st st2 (chan_vpp ch)).
Qed.

(** A VPP that keeps the installed rules in a list and refuses, as
    mock/sessionrules does, a tag without the prefix, to add a key or a tag that
    is present and to delete a rule that is not. *)
#[global] Instance list_vpp : VppSession (list SessionRule) := {|
  vpp_rules := id;
  vpp_exec := λ v req,
    let r := makeSessionRule req in
    if negb (bool_decide (own r)) then (v, ReplyRetval 1)
    else if (msg_IsAdd req =? 1)%Z then
      if decide (Tag r ∈ Tag <$> v) then (v, ReplyRetval 1)
      else if decide (SessionRule_key r ∈ SessionRule_key <$> v) then (v, ReplyRetval 1)
      else (r :: v, ReplyRetval 0)
    else
      if decide (r ∈ v)
      then (filter (λ x, SessionRule_key x ≠ SessionRule_key r) v, ReplyRetval 0) else (v, ReplyRetval 1)
|}.

Lemma filter_key_cut (v : list SessionRule) r :
  r ∈ v → NoDup (SessionRule_key <$> v) → r :: filter (λ x, SessionRule_key x ≠ SessionRule_key r) v ≡ₚ v.
Proof.
  induction v as [|x v IH]; [by intros ?%elem_of_nil|]. csimpl. intros Hr [Hx Hnd]%NoDup_cons.
  apply elem_of_cons in Hr as [->|Hr].
  - rewrite filter_cons_False by tauto. constructor.
    assert (filter (λ y, SessionRule_key y ≠ SessionRule_key x) v = v) as ->; [|done].
    clear IH Hnd. induction v as [|y v IHv]; [done|]. csimpl in Hx. apply not_elem_of_cons in Hx as [Hy Hx].
    rewrite filter_cons_True by congruence. by rewrite IHv.
  - rewrite filter_cons_True.
    + rewrite <-(IH Hr Hnd) at 2. constructor.
    + intros Heq. apply Hx. rewrite Heq. by apply list_elem_of_fmap_2.
Qed.

#[global] Instance list_vpp_laws : VppSessionLaws (list SessionRule).
Proof.
  split; simpl.
  - intros v msg -> Ho Hk Ht. rewrite bool_decide_eq_true_2 by done. cbn [negb Z.eqb Pos.eqb].
    by rewrite !decide_False.
  - intros v msg -> Ho Hr Hnd. rewrite bool_decide_eq_true_2 by done. cbn [negb Z.eqb].
    rewrite decide_True by done. split; [done|]. by apply filter_key_cut.
Qed.

(** The tags of a configuration of one namespace, by evaluation. *)
Definition one_ns_rules `{RangeOracle} (ns : Z) (c : NamespaceConfig) : list SessionRule :=
  egress_rules SessionRuleTagPrefix (ns, c) ++ ingress_rules SessionRuleTagPrefix {[ns := c]} ns.

Lemma one_ns_distinct_tags `{RangeOracle} ns c :
  Forall (λ x, Forall (λ y, Tag x = Tag y → SessionRule_key x = SessionRule_key y) (one_ns_rules ns c)) (one_ns_rules ns c) →
  distinct_tags {[ns := c]}.
Proof.
  intros Hall.
  assert (∀ x, config_rule {[ns := c]} x → x ∈ one_ns_rules ns c) as Hin.
  { intros x [([ns' c'] & Hl & Hx)|(ns' & [c' Hl] & Hx)]; cbn [fst snd] in *; apply lookup_singleton_Some in Hl as [<- <-];
      apply elem_of_app; [by left|by right]. }
  intros x y Hx%Hin Hy%Hin. rewrite Forall_forall in Hall. specialize (Hall x Hx). rewrite Forall_forall in Hall. by apply Hall.
Qed.

(** The first resync, of one pod, over an empty VPP: seven session rules. *)
Lemma vpptcp_commit_sync_witness :
  ∃ r' ch',
    @Renderer_Commit _ list_vpp 100 canonical_order (Renderer_Init 0)
      (render_all (λ _ _, Some 7%Z) (Renderer_NewTxn (Renderer_Init 0) true)
        [mkRenderCall (mkPodID "web" "default") (ipAddr example_ns) (ingress example_ns) (egress example_ns)])
      (mkChannel [] []) [] = Some (r', ch', false) ∧
    in_sync r' ch' ∧ length (vpp_rules (chan_vpp ch')) = 7.
Proof.
  destruct (@vpptcp_commit_sync _ list_vpp list_vpp_laws canonical_order 100 (Renderer_Init 0)
    (mkChannel [] []) true (λ _ _, Some 7%Z)
    [mkRenderCall (mkPodID "web" "default") (ipAddr example_ns) (ingress example_ns) (egress example_ns)])
    as (r' & ch' & Hc & _ & _ & Hs & _).
  - split; [apply Init_inv|done|done|constructor|constructor].
  - done.
  - unfold buf_ok; simpl. lia.
  - intros f x Hf. by apply elem_of_nil in Hf.
  - apply (one_ns_distinct_tags (H := canonical_order) 7 example_ns). apply (bool_decide_unpack _). vm_compute. exact I.
  - exists r', ch'. split; [exact Hc|]. split; [done|].
    vm_compute in Hc. injection Hc as _ <-. by vm_compute.
Defined.

(** A rule of the renderer with a tag of its own. *)
Definition tagged_session_rule (isIP4 : Z) (id : string) : SessionRule :=
  set_Tag (set_IsIP4 zeroSessionRule isIP4) (SessionRuleTagPrefix +:+ id)%string.

(** After a failure in a batch the replies to the requests behind it stay in
    the channel: the next transaction reads them as its own. *)
Example updateRules_leaves_replies :
  updateRules 100 (Renderer_Init 0) [Some (tagged_session_rule 0 "a"); Some (tagged_session_rule 1 "b")] []
    (mkChannel [tagged_session_rule 0 "c"] []) =
  Some (mkChannel [tagged_session_rule 1 "b"; tagged_session_rule 0 "c"] [ReplyRetval 0], true).
Proof. by vm_compute. Qed.
