(* ===== verification/SessionCombine.v ===== *)
(** * Ports and the combination of ingress with egress rules

    Theorems about [Ports] and [getCombinedIngressRules] of
    plugins/policy/renderer/vpptcp/cache/cache_impl.go (modelled in
    SessionCache.v): for another pod of the host the combined rules of a
    namespace are its own ingress rules, when these allow nothing the egress
    rules of that pod deny, and otherwise they permit, port by port, just what
    both sides allow. *)

From Stdlib Require Import ZArith Lia Ascii String.
From stdpp Require Import prelude strings list gmap sorting.
From S2P Require Import Prelude GoNet Utils Rules SessionRules SessionCache.

(** ** Specification *)

(** Traffic is allowed when a permit rule matches it, or no deny rule does: the
    order of the rules does not matter when they deny only "the rest". *)
Definition list_allows (rs : list ContivRule) (pkt : Packet) : bool :=
  existsb (λ r, bool_decide (Action r = ActionPermit) && rule_matches r pkt) rs
  || negb (existsb (λ r, bool_decide (Action r = ActionDeny) && rule_matches r pkt) rs).

(** "This implementation assumes there is either no deny rule or only the
    default deny-the-rest for both UDP and TCP." *)
Definition deny_the_rest (proto : ProtocolType) (r : ContivRule) : Prop :=
  Action r = ActionDeny ∧ Protocol r = proto ∧ IPNet_IP (SrcNetwork r) = [] ∧ IPNet_IP (DestNetwork r) = [] ∧
  SrcPort r = 0%Z ∧ DestPort r = 0%Z.

Record default_deny_only (rs : list ContivRule) : Prop := {
  deny_default r : r ∈ rs → Action r = ActionDeny → deny_the_rest (Protocol r) r;
  deny_both : has_deny rs = true → ∀ proto, ∃ r, r ∈ rs ∧ deny_the_rest proto r
}.

(** Rules as [Render] of plugins/policy/renderer/api.go requires them: parsed
    networks, the source of ingress rules and the destination of egress rules
    unset; no source ports. *)
Record ingress_ok (rs : list ContivRule) : Prop := {
  ingress_nets r : r ∈ rs → IPNet_IP (DestNetwork r) = [] ∨ ∃ L p, good_net L p (DestNetwork r);
  ingress_src r : r ∈ rs → IPNet_IP (SrcNetwork r) = [] ∧ SrcPort r = 0%Z;
  ingress_deny : default_deny_only rs
}.

Record egress_ok (rs : list ContivRule) : Prop := {
  egress_dst r : r ∈ rs → IPNet_IP (DestNetwork r) = [] ∧ SrcPort r = 0%Z;
  egress_deny : default_deny_only rs
}.

(** The ingress rules a connection to a host is matched against. *)
Definition concerns (proto : ProtocolType) (host : IPNet) (r : ContivRule) : bool :=
  bool_decide (Protocol r = proto) && net_matches (DestNetwork r) (IPNet_IP host).

(** A rule for one host, from everywhere. (The nil [SrcNetwork] of the combined
    UDP rules is [emptyIPNet] in the model, see [combine_proto].) *)
Definition host_rule (action : ActionType) (proto : ProtocolType) (host : IPNet) (r : ContivRule) : Prop :=
  Action r = action ∧ Protocol r = proto ∧ DestNetwork r = host ∧ SrcNetwork r = emptyIPNet ∧ SrcPort r = AnyPort.

(** The address of a pod, as [GetOneHostSubnet] builds it. *)
Definition pod_net (n : IPNet) : Prop :=
  length (IPNet_IP n) = 16 ∧ wf_bytes (IPNet_IP n) ∧ ∃ L, good_net L (8 * L) n.

(** The pods of the host have distinct addresses. *)
Definition config_ok (cfg : gmap Z NamespaceConfig) : Prop :=
  (∀ ns c, cfg !! ns = Some c → pod_net (ipAddr c)) ∧
  (∀ ns ns' c c', cfg !! ns = Some c → cfg !! ns' = Some c' → ns ≠ ns' →
     IPNet_IP (ipAddr c) ≠ IPNet_IP (ipAddr c')).

(** Permit rules, the ingress ones by their destination, the egress ones by
    their source. *)
Definition permits_to (proto : ProtocolType) (ip : IP) (port : Z) (r : ContivRule) : bool :=
  bool_decide (Action r = ActionPermit) && bool_decide (Protocol r = proto)
  && net_matches (DestNetwork r) ip && port_matches (DestPort r) port.

Definition permits_from (proto : ProtocolType) (ip : IP) (port : Z) (r : ContivRule) : bool :=
  bool_decide (Action r = ActionPermit) && bool_decide (Protocol r = proto)
  && net_matches (SrcNetwork r) ip && port_matches (DestPort r) port.

(** ** Lemmas: rule lists *)

Lemma net_matches_empty n ip : IPNet_IP n = [] → net_matches n ip = true.
Proof. intros H0. unfold net_matches. by rewrite H0. Qed.

Lemma existsb_ext_in {A} (f g : A → bool) (l : list A) :
  (∀ x, x ∈ l → f x = g x) → existsb f l = existsb g l.
Proof.
  induction l as [|x l IH]; intros Hfg; cbn [existsb]; [done|].
  rewrite (Hfg x) by (by left). rewrite IH; [done|]. intros; apply Hfg; by right.
Qed.

(** The deny rules match everything or there is none. *)
Lemma default_deny_matches rs pkt :
  default_deny_only rs → existsb (λ r, bool_decide (Action r = ActionDeny) && rule_matches r pkt) rs = has_deny rs.
Proof.
  intros [_ Hboth]. apply Bool.eq_iff_eq_true. split.
  - intros (r & Hr & Hd)%existsb_exists. apply existsb_exists. exists r. split; [done|].
    by apply andb_true_iff in Hd as [? _].
  - intros Hd. destruct (Hboth Hd (pkt_proto pkt)) as (r & Hr & Ha & Hp & Hs & Hdn & Hsp & Hdp).
    apply existsb_exists. exists r. split; [by apply list_elem_of_In|].
    unfold rule_matches. rewrite !net_matches_empty by done.
    by rewrite Hsp, Hdp, !bool_decide_eq_true_2.
Qed.

Lemma ingress_list_allows rs src dst proto sport port : ingress_ok rs →
  list_allows rs (mkPacket src dst proto sport port) = negb (has_deny rs) || existsb (permits_to proto dst port) rs.
Proof.
  intros [_ Hsrc Hdeny]. unfold list_allows. rewrite default_deny_matches by done. rewrite orb_comm. f_equal.
  apply existsb_ext_in. intros r Hr. destruct (Hsrc r Hr) as [Hs Hp].
  unfold permits_to, rule_matches. cbn [pkt_src pkt_dst pkt_proto pkt_sport pkt_dport].
  rewrite net_matches_empty, Hp by done. cbn [andb orb port_matches Z.eqb].
  destruct (bool_decide _), (net_matches _ _), (bool_decide _); done.
Qed.

Lemma egress_list_allows rs src dst proto sport port : egress_ok rs →
  list_allows rs (mkPacket src dst proto sport port) = negb (has_deny rs) || existsb (permits_from proto src port) rs.
Proof.
  intros [Hdst Hdeny]. unfold list_allows. rewrite default_deny_matches by done. rewrite orb_comm. f_equal.
  apply existsb_ext_in. intros r Hr. destruct (Hdst r Hr) as [Hs Hp].
  unfold permits_from, rule_matches. cbn [pkt_src pkt_dst pkt_proto pkt_sport pkt_dport].
  rewrite (net_matches_empty (DestNetwork r)), Hp by done. cbn [andb orb port_matches Z.eqb].
  destruct (bool_decide _), (net_matches _ _), (bool_decide _); done.
Qed.

(** ** Lemmas: ports *)

Section ports.
Context `{RangeOracle}.
Implicit Types p : Ports.

Lemma Has_spec p port : Has p port = true ↔ 0%Z ∈ p ∨ port ∈ p.
Proof. unfold Has, HasExplicit. by rewrite orb_true_iff, !bool_decide_eq_true. Qed.

Lemma Has_Any p : Has p AnyPort = true ↔ 0%Z ∈ p.
Proof. rewrite Has_spec. unfold AnyPort. tauto. Qed.

Lemma elem_of_NewPorts l port : port ∈ NewPorts l ↔ port ∈ l.
Proof.
  unfold NewPorts. assert (∀ p, port ∈ foldl Ports_Add p l ↔ port ∈ l ∨ port ∈ p) as Hacc.
  { induction l as [|x l IH]; intros p; simpl; [set_solver|].
    rewrite IH. unfold Ports_Add. rewrite elem_of_union, elem_of_singleton, elem_of_cons. tauto. }
  rewrite Hacc. set_solver.
Qed.

Lemma IsSubsetOf_sound site p p2 port :
  IsSubsetOf site p p2 = true → Has p port = true → Has p2 port = true.
Proof.
  unfold IsSubsetOf. destruct (Has p2 AnyPort) eqn:E2.
  { intros _ _. apply Has_spec. left. by apply Has_Any. }
  destruct (Has p AnyPort) eqn:E1; [done|]. rewrite forallb_forall. intros Hall.
  rewrite (Has_spec p). intros [H0|Hp].
  - apply Has_Any in H0. congruence.
  - apply Hall. rewrite <-list_elem_of_In. by apply elem_of_range_set.
Qed.

(** The answer "no" is right unless the second set lists every port. *)
Lemma IsSubsetOf_complete site p p2 :
  IsSubsetOf site p p2 = false → (∃ port, port ≠ 0%Z ∧ Has p2 port = false) →
  ∃ port, Has p port = true ∧ Has p2 port = false.
Proof.
  unfold IsSubsetOf. destruct (Has p2 AnyPort) eqn:E2; [done|].
  destruct (Has p AnyPort) eqn:E1.
  - intros _ (port & _ & Hp). exists port. split; [|done]. apply Has_spec. left. by apply Has_Any.
  - intros Hf _. apply not_true_iff_false in Hf. rewrite forallb_forall in Hf.
    destruct (decide (Forall (λ x, Has p2 x = true) (range_set site p))) as [Hall|Hn].
    + exfalso. apply Hf. intros x Hx. rewrite Forall_forall in Hall. apply Hall. by apply list_elem_of_In.
    + apply not_Forall_Exists, Exists_exists in Hn as (x & Hx & Hx2); [|solve_decision].
      exists x. split; [apply Has_spec; right; by apply elem_of_range_set in Hx|by apply not_true_iff_false in Hx2].
Qed.

Lemma elem_of_Intersection_fold p2 (l : list Z) (i : Ports) port :
  port ∈ foldl (λ i port, if Has p2 port then Ports_Add i port else i) i l ↔
  port ∈ i ∨ (port ∈ l ∧ Has p2 port = true).
Proof.
  revert i. induction l as [|x l IH]; intros i; simpl; [set_solver|].
  rewrite IH, elem_of_cons. destruct (Has p2 x) eqn:E; unfold Ports_Add.
  - rewrite elem_of_union, elem_of_singleton. split.
    + intros [[->|?]|[? ?]]; auto.
    + intros [?|[[->|?] ?]]; auto.
  - split; [intros [?|[? ?]]; auto|]. intros [?|[[->|?] ?]]; auto. congruence.
Qed.

Lemma Intersection_Has site p p2 port :
  Has (Intersection site p p2) port = Has p port && Has p2 port.
Proof.
  apply Bool.eq_iff_eq_true. rewrite andb_true_iff. unfold Intersection.
  destruct (Has p AnyPort) eqn:E1.
  { apply Has_Any in E1. rewrite (Has_spec p). tauto. }
  destruct (Has p2 AnyPort) eqn:E2.
  { apply Has_Any in E2. rewrite (Has_spec p2). tauto. }
  assert (¬ 0%Z ∈ p ∧ ¬ 0%Z ∈ p2) as [H1 H2] by (rewrite <-!Has_Any; split; congruence).
  rewrite !Has_spec, !elem_of_Intersection_fold, !elem_of_range_set, !elem_of_NewPorts, !elem_of_nil, !Has_spec.
  tauto.
Qed.

(** "intersection is certainly not AnyPort" *)
Lemma Intersection_explicit site site' p p2 :
  IsSubsetOf site p p2 = false → 0%Z ∉ Intersection site' p p2.
Proof.
  unfold IsSubsetOf. destruct (Has p2 AnyPort) eqn:E2; [done|]. intros _ H0%Has_Any.
  rewrite Intersection_Has, E2, andb_false_r in H0. done.
Qed.

(** The port sets collect the ports of the matching permit rules. *)
Lemma allowed_ports_fold (match_ip : ContivRule → bool) rs ports proto port :
  let sel := λ pp : Ports * Ports, match proto with TCP => pp.1 | UDP => pp.2 end in
  port ∈ sel (foldl (λ ports rule,
    if bool_decide (Action rule = ActionDeny) then ports
    else if negb (match_ip rule) then ports
    else add_allowed ports rule) ports rs) ↔
  port ∈ sel ports ∨ ∃ r, r ∈ rs ∧ Action r = ActionPermit ∧ Protocol r = proto ∧
    match_ip r = true ∧ DestPort r = port.
Proof.
  intros sel. revert ports. induction rs as [|r rs IH]; intros ports; simpl; [set_solver|].
  rewrite IH. clear IH. case_bool_decide as Ha; [|destruct (match_ip r) eqn:Hm; simpl].
  - split; (intros [?|(r' & Hr' & Hp & ?)]; [by left|right; exists r']).
    + split; [by right|done].
    + apply elem_of_cons in Hr' as [->|?]; [congruence|done].
  - assert (Action r = ActionPermit) as Hp by (by destruct (Action r)).
    assert (port ∈ sel (add_allowed ports r) ↔
      port ∈ sel ports ∨ (Protocol r = proto ∧ DestPort r = port)) as ->.
    { unfold sel, add_allowed, Ports_Add. destruct (Protocol r), proto; simpl;
        rewrite ?elem_of_union, ?elem_of_singleton; intuition congruence. }
    split.
    + intros [[?|[??]]|(r' & Hr' & ?)]; [by left|right; exists r; by split_and!; [left|..]|].
      right. exists r'. split; [by right|done].
    + intros [?|(r' & [->|Hr']%elem_of_cons & ? & ? & ? & ?)]; [by left; left|left; by right|].
      right. by exists r'.
  - split; (intros [?|(r' & Hr' & ? & ? & ? & ?)]; [by left|right; exists r']).
    + split_and!; [by right|done..].
    + apply elem_of_cons in Hr' as [->|?]; [congruence|done].
Qed.

Lemma match_ip_net n ip :
  (0 <? length (IPNet_IP n)) && negb (IPNet_Contains n ip) = negb (net_matches n ip).
Proof. unfold net_matches. destruct (length (IPNet_IP n)) as [|k]; simpl; [done|]. done. Qed.

Definition sel_ports (proto : ProtocolType) (pp : Ports * Ports) : Ports :=
  match proto with TCP => pp.1 | UDP => pp.2 end.

Lemma foldl_ext_in {A B} (f g : A → B → A) (l : list B) a :
  (∀ a b, f a b = g a b) → foldl f a l = foldl g a l.
Proof. intros Hfg. revert a. induction l as [|b l IH]; intros a; simpl; [done|]. by rewrite Hfg, IH. Qed.

Lemma Has_collect (P : Ports) (rs : list ContivRule) (sel : ContivRule → bool) port :
  (∀ q, q ∈ P ↔ ∃ r, r ∈ rs ∧ sel r = true ∧ DestPort r = q) →
  Has P port = existsb (λ r, sel r && port_matches (DestPort r) port) rs.
Proof.
  intros HP. apply Bool.eq_iff_eq_true. rewrite Has_spec, !HP, existsb_exists.
  unfold port_matches. setoid_rewrite andb_true_iff. setoid_rewrite orb_true_iff.
  setoid_rewrite Z.eqb_eq. setoid_rewrite <-list_elem_of_In. naive_solver.
Qed.

Lemma getAllowedEgressPorts_spec src rs proto port :
  Has (sel_ports proto (getAllowedEgressPorts src rs)) port =
  existsb (permits_from proto (IPNet_IP src) port) rs.
Proof.
  erewrite (Has_collect _ rs (λ r, bool_decide (Action r = ActionPermit) && bool_decide (Protocol r = proto)
    && net_matches (SrcNetwork r) (IPNet_IP src))); [done|].
  intros q. unfold getAllowedEgressPorts.
  rewrite (foldl_ext_in _ (λ ports rule, if bool_decide (Action rule = ActionDeny) then ports
    else if negb (net_matches (SrcNetwork rule) (IPNet_IP src)) then ports else add_allowed ports rule))
    by (intros; by rewrite match_ip_net).
  unfold sel_ports. rewrite (allowed_ports_fold (λ r, net_matches (SrcNetwork r) (IPNet_IP src))).
  setoid_rewrite andb_true_iff. setoid_rewrite andb_true_iff. setoid_rewrite bool_decide_eq_true.
  destruct proto; simpl; rewrite elem_of_NewPorts, elem_of_nil; naive_solver.
Qed.

Lemma getAllowedIngressPorts_spec dst rs proto port :
  Has (sel_ports proto (getAllowedIngressPorts dst rs)) port =
  existsb (permits_to proto (IPNet_IP dst) port) rs.
Proof.
  erewrite (Has_collect _ rs (λ r, bool_decide (Action r = ActionPermit) && bool_decide (Protocol r = proto)
    && net_matches (DestNetwork r) (IPNet_IP dst))); [done|].
  intros q. unfold getAllowedIngressPorts.
  rewrite (foldl_ext_in _ (λ ports rule, if bool_decide (Action rule = ActionDeny) then ports
    else if negb (net_matches (DestNetwork rule) (IPNet_IP dst)) then ports else add_allowed ports rule))
    by (intros; by rewrite match_ip_net).
  unfold sel_ports. rewrite (allowed_ports_fold (λ r, net_matches (DestNetwork r) (IPNet_IP dst))).
  setoid_rewrite andb_true_iff. setoid_rewrite andb_true_iff. setoid_rewrite bool_decide_eq_true.
  destruct proto; simpl; rewrite elem_of_NewPorts, elem_of_nil; naive_solver.
Qed.
End ports.

(** ** Lemmas: the combination *)

Definition nets_ok (rs : list ContivRule) : Prop :=
  ∀ r, r ∈ rs → IPNet_IP (DestNetwork r) = [] ∨ ∃ L p, good_net L p (DestNetwork r).

#[global] Instance concerns_dec proto host r : Decision (concerns proto host r = true) := _.

Lemma in_subtree_inv proto host r :
  in_subtree proto host r = true →
  Protocol r = proto ∧ IPNet_IP (DestNetwork r) ≠ [] ∧
  (Mask_Size (IPNet_Mask (DestNetwork r))).1 = (Mask_Size (IPNet_Mask (DestNetwork r))).2 ∧
  IP_Equal (IPNet_IP (DestNetwork r)) (IPNet_IP host) = true.
Proof.
  unfold in_subtree. case_bool_decide as Hp; simpl; [done|].
  destruct (IPNet_IP (DestNetwork r)) eqn:E; simpl; [done|]. rewrite <-E in *.
  destruct (Mask_Size _) as [ones bits]; simpl. rewrite negb_orb, !negb_involutive, andb_true_iff.
  intros [->%Z.eqb_eq ?]. split_and!; [by destruct (decide (Protocol r = proto))|congruence|done|done].
Qed.

(** A rule in the subtree of a pod is a rule for that pod only. *)
Lemma subtree_dest proto host r :
  pod_net host → (∃ L p, good_net L p (DestNetwork r)) → in_subtree proto host r = true →
  norm (IPNet_IP (DestNetwork r)) = norm (IPNet_IP host) ∧
  ∃ L, good_net L (8 * L) (DestNetwork r).
Proof.
  intros (Hl & Hw & _) (L & p & Hg) (Hp & Hne & Hsize & Heq)%in_subtree_inv.
  split; [by apply IP_Equal_norm|]. pose proof Hg as [(_ & _ & _ & Hle) Hm]. exists L.
  rewrite Hm, Mask_Size_mask in Hsize by done. simpl in Hsize.
  assert (p = 8 * L) as <- by lia. done.
Qed.

Lemma host_match_other n host host' :
  (∃ L, good_net L (8 * L) n) → norm (IPNet_IP n) = norm (IPNet_IP host') →
  pod_net host → pod_net host' → IPNet_IP host ≠ IPNet_IP host' →
  IPNet_IP n ≠ [] ∧ net_matches n (IPNet_IP host) = false.
Proof.
  intros [L Hg] Hnorm (Hl & Hw & _) (Hl' & _ & _) Hne.
  assert (IPNet_IP n ≠ []) as Hn0.
  { intros H0. rewrite H0 in Hnorm. change (norm []) with (@nil Z) in Hnorm.
    destruct (norm_cases (IPNet_IP host')) as [[? _]|[(_ & _ & Hx)|(_ & Hx & _)]]; [lia|..];
      rewrite Hx in Hnorm; apply (f_equal length) in Hnorm; rewrite ?length_drop in Hnorm; simpl in Hnorm; lia. }
  split; [done|]. unfold net_matches. destruct (IPNet_IP n) as [|x l] eqn:E; [done|]. simpl.
  apply not_true_iff_false. rewrite (host_net_Contains L) by done. rewrite E, Hnorm.
  intros Heq. apply Hne. by apply norm_inj16.
Qed.

(** The rules of the subtree of another pod, or of the other protocol, do not
    concern a host. *)
Lemma subtree_other proto proto' host host' r :
  pod_net host → pod_net host' → IPNet_IP host ≠ IPNet_IP host' ∨ proto ≠ proto' →
  (∃ L p, good_net L p (DestNetwork r)) → in_subtree proto' host' r = true → concerns proto host r = false.
Proof.
  intros Hh Hh' Hdiff Hg Hs. pose proof (in_subtree_inv _ _ _ Hs) as (Hp & _). unfold concerns.
  destruct (decide (proto = proto')) as [<-|Hpp].
  - destruct Hdiff as [Hne|]; [|done]. destruct (subtree_dest _ _ _ Hh' Hg Hs) as [Hnorm Hg'].
    destruct (host_match_other _ _ _ Hg' Hnorm Hh Hh' Hne) as [? Hm]. by rewrite Hm, andb_false_r.
  - by rewrite bool_decide_eq_false_2 by congruence.
Qed.

Lemma pod_net_in_subtree proto host r :
  pod_net host → Protocol r = proto → DestNetwork r = host → in_subtree proto host r = true.
Proof.
  intros (Hl & _ & L & [(_ & _ & _ & Hle) Hm]) Hp Hd. unfold in_subtree.
  rewrite bool_decide_false by tauto. rewrite Hd, Hl, Hm, Mask_Size_mask by done.
  replace (Z.of_nat (8 * L)) with (Z.of_nat L * 8)%Z by lia. rewrite Z.eqb_refl. simpl.
  assert (IP_Equal (IPNet_IP host) (IPNet_IP host) = true) as ->; [|done].
  apply norm_IP_Equal; auto.
Qed.

Section combine.
Context `{RangeOracle}.

Lemma pod_net_good host : pod_net host → ∃ L p, good_net L p host.
Proof. intros (_ & _ & L & Hg). eauto. Qed.

(** The rules a block appends are about its host and protocol. *)
Lemma combine_new_dest proto idp host (ports : list Z) r :
  r ∈ ((λ port, mkContivRule (idp +:+ Itoa port) ActionPermit emptyIPNet host proto AnyPort port) <$> ports) ++
      [mkContivRule (idp +:+ "NONE")%string ActionDeny emptyIPNet host proto AnyPort AnyPort] →
  Protocol r = proto ∧ DestNetwork r = host.
Proof.
  rewrite elem_of_app, list_elem_of_fmap, list_elem_of_singleton. by intros [(port & -> & _)| ->].
Qed.

Lemma combine_nets site proto idp host inP egP rs :
  pod_net host → nets_ok rs → nets_ok (combine_proto site proto idp host inP egP rs).
Proof.
  intros Hh Hok. unfold combine_proto. destruct (IsSubsetOf _ _ _); [done|].
  intros r [[_ Hr]%list_elem_of_filter|Hr]%elem_of_app; [by apply Hok|].
  apply combine_new_dest in Hr as [_ ->]. right. by apply pod_net_good.
Qed.

(** The rules a block appends. *)
Definition block_rules (site : list Z) (proto : ProtocolType) (idp : string) (host : IPNet) (inP egP : Ports) :
    list ContivRule :=
  (λ port, mkContivRule (idp +:+ Itoa port) ActionPermit emptyIPNet host proto AnyPort port)
    <$> range_set (3%Z :: site) (Intersection (2%Z :: site) inP egP).

Definition block_deny (proto : ProtocolType) (idp : string) (host : IPNet) : ContivRule :=
  mkContivRule (idp +:+ "NONE")%string ActionDeny emptyIPNet host proto AnyPort AnyPort.

Lemma filter_none {A} (P : A → Prop) `{!∀ x, Decision (P x)} (l : list A) : (∀ x, x ∈ l → ¬ P x) → filter P l = [].
Proof.
  induction l as [|x l IH]; intros Hl; [done|]. rewrite filter_cons_False by (apply Hl; by left).
  apply IH. intros; apply Hl; by right.
Qed.

Lemma filter_filter_swap {A} (P Q : A → Prop) `{!∀ x, Decision (P x), !∀ x, Decision (Q x)} (l : list A) :
  filter P (filter Q l) = filter Q (filter P l).
Proof.
  induction l as [|x l IH]; [done|]. rewrite !filter_cons.
  destruct (decide (Q x)), (decide (P x)); rewrite ?filter_cons; repeat (destruct (decide _); try done); by rewrite IH.
Qed.

(** A block about another pod or protocol keeps the rules that concern a host. *)
Lemma combine_other site proto proto' idp host host' inP egP rs :
  pod_net host → pod_net host' → IPNet_IP host ≠ IPNet_IP host' ∨ proto ≠ proto' → nets_ok rs →
  filter (λ r, concerns proto host r = true) (combine_proto site proto' idp host' inP egP rs) =
  filter (λ r, concerns proto host r = true) rs.
Proof.
  intros Hh Hh' Hdiff Hok. unfold combine_proto. destruct (IsSubsetOf _ _ _); [done|]. cbv zeta.
  rewrite filter_app. rewrite (filter_none _ (_ ++ [_])).
  - rewrite app_nil_r, filter_filter_swap. apply filter_all, Forall_forall. intros r [Hc Hr]%list_elem_of_filter.
    destruct (in_subtree proto' host' r) eqn:Hs; [|done].
    rewrite (subtree_other proto proto' host host') in Hc; try done.
    destruct (Hok r Hr) as [H0|]; [|done]. by apply in_subtree_inv in Hs as (_ & ? & _).
  - intros r [Hp Hd]%combine_new_dest. apply not_true_iff_false. eapply subtree_other; [done|exact Hh'|done| |].
    + rewrite Hd. by apply pod_net_good.
    + by apply pod_net_in_subtree.
Qed.

Lemma pod_concerns proto host r : pod_net host → Protocol r = proto → DestNetwork r = host → concerns proto host r = true.
Proof.
  intros (Hl & Hw & L & Hg) Hp Hd. unfold concerns. rewrite bool_decide_eq_true_2 by done. cbn [andb].
  unfold net_matches. rewrite Hd. apply orb_true_iff. right. by apply (host_net_Contains L).
Qed.

(** The block for the host itself. *)
Lemma combine_self site proto idp host inP egP rs :
  pod_net host → IsSubsetOf (1%Z :: site) inP egP = false →
  filter (λ r, concerns proto host r = true) (combine_proto site proto idp host inP egP rs) =
  filter (λ r, in_subtree proto host r = false) (filter (λ r, concerns proto host r = true) rs)
    ++ block_rules site proto idp host inP egP ++ [block_deny proto idp host].
Proof.
  intros Hh Hsub. unfold combine_proto. rewrite Hsub. cbv zeta. rewrite filter_app, filter_filter_swap. f_equal.
  apply filter_all, Forall_forall. intros r [Hp Hd]%combine_new_dest. by apply pod_concerns.
Qed.

Lemma block_ports site proto idp host inP egP port :
  port ≠ 0%Z → IsSubsetOf (1%Z :: site) inP egP = false →
  (∃ r, r ∈ block_rules site proto idp host inP egP ∧ DestPort r = port) ↔ Has inP port && Has egP port = true.
Proof.
  intros Hport Hsub. rewrite <-(Intersection_Has (2%Z :: site)), Has_spec.
  assert (0%Z ∉ Intersection (2%Z :: site) inP egP) as H0 by (by eapply Intersection_explicit). split.
  - intros (r & (q & -> & Hq%elem_of_range_set)%list_elem_of_fmap & Hq'). cbn [DestPort] in Hq'. subst q. by right.
  - intros [?|Hq]; [done|]. eexists. split; [apply list_elem_of_fmap; exists port; by rewrite elem_of_range_set|done].
Qed.

Lemma block_rule_host site proto idp host inP egP r :
  IsSubsetOf (1%Z :: site) inP egP = false → r ∈ block_rules site proto idp host inP egP →
  host_rule ActionPermit proto host r ∧ DestPort r ≠ 0%Z.
Proof.
  intros Hsub (q & -> & Hq%elem_of_range_set)%list_elem_of_fmap. split; [done|].
  cbn [DestPort]. intros ->. by eapply Intersection_explicit.
Qed.

Context (cfg : gmap Z NamespaceConfig) (nsIndex : Z) (c : NamespaceConfig).
Hypothesis Hcfg : config_ok cfg.

Definition in_ports (rmt : NamespaceConfig) : Ports * Ports :=
  if has_deny (ingress c) then getAllowedIngressPorts (ipAddr rmt) (ingress c)
  else (NewPorts [AnyPort], NewPorts [AnyPort]).

Definition idp (proto : ProtocolType) (n : Z) : string :=
  match proto with TCP => combined_id_TCP nsIndex n | UDP => combined_id_UDP n end.

Definition block_site (proto : ProtocolType) (n : Z) : list Z :=
  [match proto with TCP => 4 | UDP => 5 end; nsIndex; n]%Z.

Definition eg_ports (rmt : NamespaceConfig) : Ports * Ports := getAllowedEgressPorts (ipAddr c) (egress rmt).

Definition block (proto : ProtocolType) (n : Z) (rmt : NamespaceConfig) (rs : list ContivRule) :=
  combine_proto (block_site proto n) proto (idp proto n) (ipAddr rmt)
    (sel_ports proto (in_ports rmt)) (sel_ports proto (eg_ports rmt)) rs.

Lemma combine_round_eq n rmt rs :
  combine_round nsIndex c rs (n, rmt) =
  if (n =? nsIndex)%Z || negb (has_deny (egress rmt)) then rs else block UDP n rmt (block TCP n rmt rs).
Proof.
  unfold combine_round. destruct (n =? nsIndex)%Z; [done|]. simpl. destruct (has_deny (egress rmt)); [|done].
  simpl. unfold block, in_ports, eg_ports, idp, block_site, sel_ports.
  destruct (getAllowedEgressPorts _ _) as [egT egU].
  destruct (has_deny (ingress c)); [|done]. by destruct (getAllowedIngressPorts _ _).
Qed.

Lemma round_other n rmt proto host rs :
  cfg !! n = Some rmt → pod_net host → (n ≠ nsIndex → IPNet_IP host ≠ IPNet_IP (ipAddr rmt)) → nets_ok rs →
  filter (λ r, concerns proto host r = true) (combine_round nsIndex c rs (n, rmt)) =
    filter (λ r, concerns proto host r = true) rs ∧
  nets_ok (combine_round nsIndex c rs (n, rmt)).
Proof.
  intros Hn Hh Hne Hok. rewrite combine_round_eq.
  destruct (Z.eqb_spec n nsIndex) as [->|Hnn]; simpl; [done|].
  destruct (has_deny (egress rmt)); simpl; [|done]. destruct Hcfg as [Hpods _].
  pose proof (Hpods _ _ Hn) as Hp. unfold block. split.
  - rewrite !combine_other; try done; try (left; by apply Hne). by apply combine_nets.
  - by apply combine_nets, combine_nets.
Qed.

Lemma rounds_other (l : list (Z * NamespaceConfig)) proto host rs :
  (∀ n rmt, (n, rmt) ∈ l → cfg !! n = Some rmt ∧ (n ≠ nsIndex → IPNet_IP host ≠ IPNet_IP (ipAddr rmt))) →
  pod_net host → nets_ok rs →
  filter (λ r, concerns proto host r = true) (foldl (combine_round nsIndex c) rs l) =
    filter (λ r, concerns proto host r = true) rs ∧
  nets_ok (foldl (combine_round nsIndex c) rs l).
Proof.
  intros Hl Hh. revert rs. induction l as [|[n rmt] l IH]; intros rs Hok; cbn [foldl]; [done|].
  destruct (Hl n rmt) as [Hn Hne]; [by left|].
  destruct (round_other n rmt proto host rs Hn Hh Hne Hok) as [Hv Hok'].
  destruct (IH ltac:(intros; apply Hl; by right) (combine_round nsIndex c rs (n, rmt)) Hok') as [Hv' Hok''].
  split; [by rewrite Hv', Hv|done].
Qed.

(** The round of the host itself. *)
Lemma round_self n rmt proto rs :
  pod_net (ipAddr rmt) → n ≠ nsIndex → has_deny (egress rmt) = true → nets_ok rs →
  filter (λ r, concerns proto (ipAddr rmt) r = true) (combine_round nsIndex c rs (n, rmt)) =
  filter (λ r, concerns proto (ipAddr rmt) r = true) (block proto n rmt rs).
Proof.
  intros Hh Hne Hd Hok. rewrite combine_round_eq, (proj2 (Z.eqb_neq _ _) Hne), Hd. cbn [orb negb].
  destruct proto; unfold block at 1.
  - apply combine_other; [done|done|by right|by apply combine_nets].
  - set (P := λ r, concerns UDP (ipAddr rmt) r = true).
    destruct (IsSubsetOf (1%Z :: block_site UDP n) (sel_ports UDP (in_ports rmt)) (sel_ports UDP (eg_ports rmt))) eqn:Hs.
    + unfold block, combine_proto at 1 3. rewrite Hs. apply combine_other; [done|done|by right|done].
    + unfold block at 2, P. rewrite !combine_self by done. unfold block. by rewrite combine_other by (done || by right).
Qed.

(** The rules about a host are those of its own round. *)
Lemma combined_round rmtNs rmt proto :
  cfg !! nsIndex = Some c → cfg !! rmtNs = Some rmt → rmtNs ≠ nsIndex → nets_ok (ingress c) →
  ∃ rs, filter (λ r, concerns proto (ipAddr rmt) r = true) rs = filter (λ r, concerns proto (ipAddr rmt) r = true) (ingress c) ∧
    nets_ok rs ∧
    filter (λ r, concerns proto (ipAddr rmt) r = true) (getCombinedIngressRules cfg nsIndex) =
    filter (λ r, concerns proto (ipAddr rmt) r = true) (combine_round nsIndex c rs (rmtNs, rmt)).
Proof.
  intros Hc Hn Hne Hin. unfold getCombinedIngressRules. rewrite Hc. cbn [default].
  assert ((rmtNs, rmt) ∈ go_range [6; nsIndex]%Z cfg) as Hin' by (by apply go_range_lookup).
  assert (∀ n rmt', (n, rmt') ∈ go_range [6; nsIndex]%Z cfg → cfg !! n = Some rmt') as Hrange
    by (intros n rmt'; by rewrite go_range_lookup).
  pose proof (range_keys_NoDup [6; nsIndex]%Z cfg) as Hnd. unfold range_keys in Hnd.
  apply list_elem_of_split in Hin' as (l1 & l2 & Heq). rewrite Heq in Hnd, Hrange |- *.
  rewrite fmap_app, fmap_cons in Hnd. simpl in Hnd. apply NoDup_app in Hnd as (_ & Hd1 & [Hd2 _]%NoDup_cons).
  assert (pod_net (ipAddr rmt)) as Hh by (by eapply Hcfg).
  assert (∀ n rmt', (n, rmt') ∈ l1 ∨ (n, rmt') ∈ l2 → cfg !! n = Some rmt' ∧
    (n ≠ nsIndex → IPNet_IP (ipAddr rmt) ≠ IPNet_IP (ipAddr rmt'))) as Hother.
  { intros n rmt' Hm. assert (cfg !! n = Some rmt') as Hn' by (apply Hrange; set_solver).
    split; [done|]. intros _. eapply (proj2 Hcfg); [done..|]. intros ->.
    destruct Hm as [Hm|Hm]; apply (list_elem_of_fmap_2 fst) in Hm; simpl in Hm; [|done].
    by eapply Hd1; [|left]. }
  rewrite foldl_app. cbn [foldl].
  destruct (rounds_other l1 proto (ipAddr rmt) (ingress c)) as [Hv1 Hok1]; [auto|done|done|].
  set (rs1 := foldl _ _ l1) in *. exists rs1. split; [done|]. split; [done|].
  apply rounds_other; [auto|done|].
  rewrite combine_round_eq. destruct (_ || _); [done|]. by apply combine_nets, combine_nets.
Qed.

Lemma in_ports_spec rmt proto port :
  Has (sel_ports proto (in_ports rmt)) port =
  negb (has_deny (ingress c)) || existsb (permits_to proto (IPNet_IP (ipAddr rmt)) port) (ingress c).
Proof.
  unfold in_ports. destruct (has_deny (ingress c)); cbn [negb orb].
  - apply getAllowedIngressPorts_spec.
  - apply Has_spec. left. destruct proto; simpl; by apply elem_of_NewPorts, list_elem_of_singleton.
Qed.
End combine.


(** Sets of ports. For a port number, membership in the intersection is
    membership in both sets, and a set that is not reported as a subset gives
    an intersection without the wildcard (the comment in
    getCombinedIngressRules relies on it); "subset" is only reported when every
    port of the first set is in the second, and "no subset" only when some port
    is not, unless the second set lists all of them explicitly. *)
Theorem ports_sound `{RangeOracle} (site : list Z) (p p2 : Ports) :
  (∀ port, Has (Intersection site p p2) port = Has p port && Has p2 port) ∧
  (IsSubsetOf site p p2 = true → ∀ port, Has p port = true → Has p2 port = true) ∧
  (IsSubsetOf site p p2 = false →
     HasExplicit (Intersection site p p2) AnyPort = false ∧
     ((∃ port, port ≠ AnyPort ∧ Has p2 port = false) →
      ∃ port, Has p port = true ∧ Has p2 port = false)).
Proof.
  split_and!.
  - apply Intersection_Has.
  - intros Hs port. by apply IsSubsetOf_sound with site.
  - intros Hs. split; [|by apply IsSubsetOf_complete with site].
    apply bool_decide_eq_false. by eapply Intersection_explicit.
Qed.

(** Two pods: the first one may reach ports 80 and 443 of the other, which
    admits only port 80. *)
Definition pod_a : IPNet := mkIPNet (net_IPv4 10 1 1 1) (mask_bytes 4 32).
Definition pod_b : IPNet := mkIPNet (net_IPv4 10 1 1 2) (mask_bytes 4 32).

Definition permit_port (net : IPNet) (port : Z) : ContivRule :=
  mkContivRule "permit" ActionPermit emptyIPNet net TCP 0 port.
Definition permit_from_port (net : IPNet) (port : Z) : ContivRule :=
  mkContivRule "permit" ActionPermit net emptyIPNet TCP 0 port.
Definition deny_rest (proto : ProtocolType) : ContivRule :=
  mkContivRule "deny" ActionDeny emptyIPNet emptyIPNet proto 0 0.

Definition example_ingress : list ContivRule :=
  [permit_port pod_b 80; permit_port pod_b 443; deny_rest TCP; deny_rest UDP].
Definition example_egress : list ContivRule := [permit_from_port pod_a 80; deny_rest TCP; deny_rest UDP].

Definition two_pods : gmap Z NamespaceConfig :=
  <[1%Z := mkNamespaceConfig pod_a example_ingress []]> {[2%Z := mkNamespaceConfig pod_b [] example_egress]}.

Lemma pod_net_v4 a b c d : wf_bytes [a; b; c; d] → pod_net (mkIPNet (net_IPv4 a b c d) (mask_bytes 4 32)).
Proof.
  intros Hw. assert (wf_bytes (net_IPv4 a b c d)) as Hw'.
  { unfold net_IPv4, wf_bytes. apply Forall_app. split; [|done]. repeat constructor; done. }
  split; [done|]. split; [done|]. exists 4. split; [|done]. split; [done|]. done.
Qed.

Lemma two_pods_ok : config_ok two_pods.
Proof.
  split.
  - intros ns c. unfold two_pods. rewrite lookup_insert_Some, lookup_singleton_Some.
    intros [[_ <-]|[_ [_ <-]]]; apply pod_net_v4; repeat constructor; done.
  - intros ns ns' c c'. unfold two_pods. rewrite !lookup_insert_Some, !lookup_singleton_Some.
    intros [[<- <-]|[_ [<- <-]]] [[<- <-]|[_ [<- <-]]] Hne; done.
Qed.

Lemma deny_rest_default proto : deny_the_rest proto (deny_rest proto).
Proof. done. Qed.

Lemma example_ingress_ok : ingress_ok example_ingress.
Proof.
  split; [..|split]; try (intros r; unfold example_ingress; rewrite !elem_of_cons, elem_of_nil;
    intros [->|[->|[->|[->|[]]]]]; done || (by left) || idtac).
  - right. destruct (pod_net_v4 10 1 1 2) as (_ & _ & L & Hg); [repeat constructor; done|]. by exists L, (8 * L).
  - right. destruct (pod_net_v4 10 1 1 2) as (_ & _ & L & Hg); [repeat constructor; done|]. by exists L, (8 * L).
  - intros _ proto. exists (deny_rest proto). split; [|done]. destruct proto; unfold example_ingress; set_solver.
Qed.

Lemma example_egress_ok : egress_ok example_egress.
Proof.
  split; [|split]; try (intros r; unfold example_egress; rewrite !elem_of_cons, elem_of_nil;
    intros [->|[->|[->|[]]]]; done).
  intros _ proto. exists (deny_rest proto). split; [|done]. destruct proto; unfold example_egress; set_solver.
Qed.

