(* ===== verification/SessionConvert.v ===== *)
(** * Session rules match what their Contiv rules match

    [convertIngressRules] and [convertEgressRules] of
    plugins/policy/renderer/vpptcp/cache/cache_impl.go (modelled in
    SessionCache.v): the session rules made of a Contiv rule match the same
    connections, the two halves of a rule without an address included.

    How VPP matches a connection with a session rule is a parameter
    ([VppMatch]); its law is the meaning of the fields of a session rule in the
    binary API: the address family, the transport protocol, an address and a
    prefix length for each end, and a port for each end, zero being any. *)

From Stdlib Require Import ZArith Lia Ascii String.
From stdpp Require Import prelude strings list gmap sorting.
From S2P Require Import Prelude GoNet Utils Rules Md5 SessionRules SessionCache.

(** ** Specification *)

(** A connection as the session layer sees it, addresses in normal form. *)
Record Connection := mkConnection {
  conn_lcl : IP;
  conn_rmt : IP;
  conn_proto : ProtocolType;
  conn_lclPort : Z;
  conn_rmtPort : Z
}.

Definition prefix_matches (arr : list Z) (plen : Z) (ip : IP) : bool :=
  forallb (λ i, Bool.eqb (bit arr i) (bit ip i)) (seq 0 (Z.to_nat plen)).

Class VppMatch := vpp_matches : SessionRule → Connection → bool.

(** The addresses are of the family of the rule and have its prefixes; the
    protocol and the ports are those of the rule. *)
Definition fields_match (sr : SessionRule) (conn : Connection) : Prop :=
  length (conn_lcl conn) = (if (IsIP4 sr =? 1)%Z then IPv4len else IPv6len) ∧
  length (conn_rmt conn) = (if (IsIP4 sr =? 1)%Z then IPv4len else IPv6len) ∧
  TransportProto sr = transport_proto (conn_proto conn) ∧
  prefix_matches (LclIP sr) (LclPlen sr) (conn_lcl conn) = true ∧
  prefix_matches (RmtIP sr) (RmtPlen sr) (conn_rmt conn) = true ∧
  port_matches (LclPort sr) (conn_lclPort conn) = true ∧
  port_matches (RmtPort sr) (conn_rmtPort conn) = true.

Class VppMatchLaws `{!VppMatch} : Prop :=
  vpp_matches_fields sr conn : (IsIP4 sr = 0 ∨ IsIP4 sr = 1)%Z → vpp_matches sr conn = true ↔ fields_match sr conn.

(** The same, computed. *)
Definition session_matches (sr : SessionRule) (conn : Connection) : bool :=
  let len := if (IsIP4 sr =? 1)%Z then IPv4len else IPv6len in
  (length (conn_lcl conn) =? len) && (length (conn_rmt conn) =? len)
  && (TransportProto sr =? transport_proto (conn_proto conn))%Z
  && prefix_matches (LclIP sr) (LclPlen sr) (conn_lcl conn)
  && prefix_matches (RmtIP sr) (RmtPlen sr) (conn_rmt conn)
  && port_matches (LclPort sr) (conn_lclPort conn)
  && port_matches (RmtPort sr) (conn_rmtPort conn).

(** Both ends are of one family. *)
Definition conn_ok (conn : Connection) : Prop :=
  wf_bytes (conn_lcl conn) ∧ wf_bytes (conn_rmt conn) ∧
  length (conn_lcl conn) = length (conn_rmt conn) ∧
  (length (conn_rmt conn) = 4 ∨ length (conn_rmt conn) = 16) ∧
  norm (conn_rmt conn) = conn_rmt conn ∧ norm (conn_lcl conn) = conn_lcl conn.

(** ** Lemmas *)

Lemma bit_app_l (a b : list Z) i : i < 8 * length a → bit (a ++ b) i = bit a i.
Proof.
  intros Hi. unfold bit. rewrite app_nth1; [done|]. apply Nat.Div0.div_lt_upper_bound. lia.
Qed.

Lemma prefix_matches_spec arr (p : nat) ip :
  prefix_matches arr (Z.of_nat p) ip = true ↔ ∀ i, i < p → bit arr i = bit ip i.
Proof.
  unfold prefix_matches. rewrite Nat2Z.id, forallb_forall. split.
  - intros Hall i Hi. apply Bool.eqb_prop, Hall, in_seq. lia.
  - intros Hall i [_ Hi]%in_seq. rewrite Hall by lia. apply Bool.eqb_reflx.
Qed.

(** A network written into an address array matches its members. *)
Lemma net_array_matches L p n ip :
  good_net L p n → (L = 4 ∨ L = 16) → wf_bytes ip → norm ip = ip →
  (length ip =? L) && prefix_matches (copy_into zeroIP (norm (IPNet_IP n))) (Z.of_nat p) ip =
  IPNet_Contains n ip.
Proof.
  intros [Hn Hm] HL Hw Hip. apply Bool.eq_iff_eq_true.
  rewrite (IPNet_Contains_bits L p _ n ip Hn Hw), Hip, andb_true_iff, Nat.eqb_eq, prefix_matches_spec.
  destruct Hn as (_ & Hlen & _ & Hp).
  assert (∀ i, i < p → bit (copy_into zeroIP (norm (IPNet_IP n))) i = bit (norm (IPNet_IP n)) i) as Harr.
  { intros i Hi. unfold copy_into. rewrite take_ge by (unfold zeroIP; rewrite length_replicate; lia).
    apply bit_app_l. lia. }
  split; (intros [? Hb]; split; [done|]; intros i Hi); [rewrite <-Harr by done|rewrite Harr by done]; symmetry; auto.
Qed.

Lemma good_net_family L p n :
  good_net L p n → IPNet_IP n ≠ [] ∧ (L = 4 ∨ L = 16) ∧
  (bytesEqual (To4 (IPNet_IP n)) [] = true ↔ L = 16) ∧
  (if bytesEqual (To4 (IPNet_IP n)) [] then To16 (IPNet_IP n) else To4 (IPNet_IP n)) = norm (IPNet_IP n).
Proof.
  intros [(Hnn & Hlen & _ & _) _]. unfold networkNumberAndMask in Hnn. unfold norm in *.
  destruct (To4_cases (IPNet_IP n)) as [(Hl & E)|[(Hl & Ht & E)|(Hl & E & Hn)]]; rewrite E in *.
  - assert (IPNet_IP n ≠ []) as Hne by (by intros H0; rewrite H0 in Hl).
    assert (bytesEqual (IPNet_IP n) [] = false) as Hb by (by apply bool_decide_eq_false).
    rewrite Hb in *. split_and!; [done|left; congruence| |done]. split; [done|]. intros ->. lia.
  - assert (drop 12 (IPNet_IP n) ≠ []) as Hne.
    { intros H0%(f_equal length). rewrite length_drop, Hl in H0. done. }
    assert (bytesEqual (drop 12 (IPNet_IP n)) [] = false) as Hb by (by apply bool_decide_eq_false).
    rewrite Hb in *. split_and!; [by intros H0; rewrite H0 in Hl|left|split; [done|]|done].
    + rewrite <-Hlen, length_drop, Hl. done.
    + rewrite length_drop, Hl in Hlen. intros ->. done.
  - change (bytesEqual [] []) with true in *. simpl in Hnn.
    destruct (Nat.eqb_spec (length (IPNet_IP n)) IPv6len) as [H16|]; [|done]. unfold IPv6len in H16.
    split_and!; [by intros H0; rewrite H0 in H16|right; congruence|split; [congruence|done]|].
    unfold To16. rewrite H16. done.
Qed.

Lemma u8_plen (p : nat) : p ≤ 128 → u8 (Z.of_nat p) = Z.of_nat p.
Proof. intros Hp. unfold wrap. apply Z.mod_small. lia. Qed.

(** The halves of the address space. *)
Lemma half_matches ip :
  prefix_matches zeroIP 1 ip || prefix_matches (<[0 := Z.shiftl 1 7]> zeroIP) 1 ip = true.
Proof.
  unfold prefix_matches. change (Z.to_nat 1) with 1. simpl.
  change (bit zeroIP 0) with false. change (bit (<[0 := Z.shiftl 1 7]> zeroIP) 0) with true.
  by destruct (bit ip 0).
Qed.

Lemma zero_prefix arr ip : prefix_matches arr 0 ip = true.
Proof. done. Qed.

Lemma transport_proto_eqb p q :
  (transport_proto p =? transport_proto q)%Z = bool_decide (p = q).
Proof. by destruct p, q. Qed.

Lemma session_matches_fields sr conn : session_matches sr conn = true ↔ fields_match sr conn.
Proof. unfold session_matches, fields_match. rewrite !andb_true_iff, !Nat.eqb_eq, Z.eqb_eq. tauto. Qed.

Lemma vpp_session_matches `{!VppMatch, !VppMatchLaws} sr conn :
  (IsIP4 sr = 0 ∨ IsIP4 sr = 1)%Z → vpp_matches sr conn = session_matches sr conn.
Proof. intros Hip. apply Bool.eq_iff_eq_true. by rewrite vpp_matches_fields, session_matches_fields. Qed.

(** ** Ingress *)

Lemma convertIngressRule_family ns prefix rule sr :
  sr ∈ convertIngressRule ns prefix rule → (IsIP4 sr = 0 ∨ IsIP4 sr = 1)%Z.
Proof.
  unfold convertIngressRule. destruct (_ && _); [by intros ?%elem_of_nil|].
  destruct (0 <? _), (length (IPNet_IP (DestNetwork rule)) =? 0); cbv zeta; rewrite ?elem_of_cons, elem_of_nil;
    intros Hsr; destruct_or! Hsr; subst; try done;
    cbn [IsIP4 set_Tag set_IsIP4 set_upper_half]; first [by auto | by case_match; auto].
Qed.

Lemma existsb_vpp_matches `{!VppMatch, !VppMatchLaws} ns prefix rule conn :
  existsb (λ sr, vpp_matches sr conn) (convertIngressRule ns prefix rule) =
  existsb (λ sr, session_matches sr conn) (convertIngressRule ns prefix rule).
Proof.
  pose proof (convertIngressRule_family ns prefix rule) as Hfam. revert Hfam.
  generalize (convertIngressRule ns prefix rule) as l. induction l as [|sr l IH]; intros Hfam; [done|]. cbn [existsb].
  rewrite vpp_session_matches by (apply Hfam; by left). rewrite IH; [done|]. intros; apply Hfam; by right.
Qed.

Lemma convertIngressRule_nil ns prefix rule :
  convertIngressRule ns prefix rule = [] ↔
  Action rule = ActionPermit ∧ IPNet_IP (DestNetwork rule) = [] ∧ DestPort rule = 0%Z.
Proof.
  unfold convertIngressRule. split.
  - destruct (_ && _) eqn:E.
    + apply andb_true_iff in E as [[E1%Nat.eqb_eq E2%Z.eqb_eq]%andb_true_iff E3%bool_decide_eq_true].
      apply nil_length_inv in E1. done.
    + destruct (0 <? _), (length (IPNet_IP (DestNetwork rule)) =? 0); done.
  - intros (-> & -> & ->). done.
Qed.

Lemma convertIngressRule_net ns prefix rule L p conn :
  good_net L p (DestNetwork rule) → conn_ok conn →
  existsb (λ sr, session_matches sr conn) (convertIngressRule ns prefix rule) =
  IPNet_Contains (DestNetwork rule) (conn_rmt conn) && bool_decide (Protocol rule = conn_proto conn)
  && port_matches (SrcPort rule) (conn_lclPort conn) && port_matches (DestPort rule) (conn_rmtPort conn).
Proof.
  intros Hg (Hwl & Hwr & Hlen & _ & Hnr & _).
  destruct (good_net_family _ _ _ Hg) as (Hne & HL & HL16 & Haddr).
  rewrite <-(net_array_matches L p _ _ Hg HL Hwr Hnr). destruct Hg as [(_ & _ & _ & Hp) Hm].
  unfold convertIngressRule.
  destruct (IPNet_IP (DestNetwork rule)) as [|x l] eqn:E; [done|]. rewrite <-E in *.
  assert ((length (IPNet_IP (DestNetwork rule)) =? 0) = false) as H0 by (by rewrite E).
  assert ((0 <? length (IPNet_IP (DestNetwork rule))) = true) as H1 by (by rewrite E).
  rewrite H0, H1. cbn [andb negb]. cbv zeta.
  rewrite Hm, Mask_Size_mask by lia. cbn [fst]. rewrite u8_plen by lia.
  assert ((if negb (bytesEqual (To4 (IPNet_IP (DestNetwork rule))) []) then To4 (IPNet_IP (DestNetwork rule))
    else To16 (IPNet_IP (DestNetwork rule))) = norm (IPNet_IP (DestNetwork rule))) as ->.
  { rewrite <-Haddr. by destruct (bytesEqual _ _). }
  cbn [existsb orb]. rewrite orb_false_r. unfold session_matches.
  cbn [set_Tag IsIP4 TransportProto LclIP LclPlen RmtIP RmtPlen LclPort RmtPort].
  rewrite transport_proto_eqb, zero_prefix, Hlen.
  assert ((if (if negb (bytesEqual (To4 (IPNet_IP (DestNetwork rule))) []) then 1 else 0) =? 1 then IPv4len else IPv6len)%Z = L) as ->.
  { destruct (bytesEqual _ _); simpl; destruct HL as [->| ->]; try done; exfalso.
    - by assert (4 = 16) by (by apply HL16).
    - by assert (false = true) by (by apply HL16). }
  destruct (length (conn_rmt conn) =? L), (bool_decide _), (prefix_matches _ _ _), (port_matches _ _); done.
Qed.

Lemma convertIngressRule_any ns prefix rule conn :
  IPNet_IP (DestNetwork rule) = [] → ¬ (DestPort rule = 0%Z ∧ Action rule = ActionPermit) → conn_ok conn →
  existsb (λ sr, session_matches sr conn) (convertIngressRule ns prefix rule) =
  bool_decide (Protocol rule = conn_proto conn)
  && port_matches (SrcPort rule) (conn_lclPort conn) && port_matches (DestPort rule) (conn_rmtPort conn).
Proof.
  intros H0 Hskip (_ & _ & Hlen & HL & _). unfold convertIngressRule. rewrite H0. cbv zeta. cbn [length Nat.eqb Nat.ltb Nat.leb andb negb].
  assert ((DestPort rule =? 0)%Z && bool_decide (Action rule = ActionPermit) = false) as ->.
  { apply not_true_iff_false. rewrite andb_true_iff, Z.eqb_eq, bool_decide_eq_true. tauto. }
  cbn [existsb]. unfold session_matches.
  cbn [set_Tag set_IsIP4 set_upper_half IsIP4 TransportProto LclIP LclPlen RmtIP RmtPlen LclPort RmtPort].
  rewrite !zero_prefix, !transport_proto_eqb, !Hlen. pose proof (half_matches (conn_rmt conn)) as Hhalf.
  destruct HL as [->| ->]; cbn [Z.eqb Pos.eqb Nat.eqb IPv4len IPv6len andb orb];
  destruct (bool_decide _), (prefix_matches zeroIP 1 _), (prefix_matches (<[0 := _]> zeroIP) 1 _),
    (port_matches (SrcPort rule) _), (port_matches (DestPort rule) _); done.
Qed.

(** C25. Let the destination network of an ingress rule be unset or parsed, and
    the two addresses of a connection be of one family and in the short form for
    IPv4. The code makes no session rule exactly of the permit rules without a
    destination network and a destination port (whatever their source port).
    Every other rule becomes session rules with its action, for the namespace and
    of local scope, some of which VPP matches with the connection exactly when the
    remote address is in the destination network, and the protocol and both ports
    are those of the rule (an unset network through the halves of both address
    families). How VPP matches is a parameter: a session rule matches a
    connection whose addresses are of its family and have its prefixes, and whose
    protocol and ports are its own, port zero standing for all. *)
Theorem convert_ingress_matches `{!VppMatch, !VppMatchLaws} (ns : Z) (prefix : string) (rule : ContivRule)
    (conn : Connection) :
  (IPNet_IP (DestNetwork rule) = [] ∨ ∃ L p, good_net L p (DestNetwork rule)) → conn_ok conn →
  (convertIngressRule ns prefix rule = [] ↔
   Action rule = ActionPermit ∧ IPNet_IP (DestNetwork rule) = [] ∧ DestPort rule = 0%Z) ∧
  (∀ sr, sr ∈ convertIngressRule ns prefix rule →
     ActionIndex sr = action_index (Action rule) ∧ Scope sr = RuleScopeLocal ∧ AppnsIndex sr = ns) ∧
  (convertIngressRule ns prefix rule ≠ [] →
   existsb (λ sr, vpp_matches sr conn) (convertIngressRule ns prefix rule) =
   net_matches (DestNetwork rule) (conn_rmt conn) && bool_decide (Protocol rule = conn_proto conn)
   && port_matches (SrcPort rule) (conn_lclPort conn) && port_matches (DestPort rule) (conn_rmtPort conn)).
Proof.
  intros Hnet Hconn. split; [apply convertIngressRule_nil|]. split.
  { intros sr Hsr. split; [|by eapply convertIngressRule_scope]. revert Hsr.
    unfold convertIngressRule. destruct (_ && _); [by intros ?%elem_of_nil|].
    destruct (0 <? _), (length (IPNet_IP (DestNetwork rule)) =? 0); cbv zeta;
      rewrite ?elem_of_cons, elem_of_nil; naive_solver. }
  intros Hne. rewrite convertIngressRule_nil in Hne. rewrite existsb_vpp_matches. destruct Hnet as [Hempty|(L & p & Hg)].
  - rewrite convertIngressRule_any by (done || tauto). unfold net_matches. by rewrite Hempty.
  - rewrite (convertIngressRule_net _ _ _ L p) by done. unfold net_matches.
    destruct (good_net_family _ _ _ Hg) as (Hn0 & _). by destruct (IPNet_IP (DestNetwork rule)).
Qed.

#[global] Instance fields_vpp : VppMatch := session_matches.

#[global] Instance fields_vpp_laws : VppMatchLaws.
Proof. intros sr conn _. apply session_matches_fields. Qed.

Lemma convert_ingress_matches_witness :
  existsb (λ sr, vpp_matches sr (mkConnection [10; 1; 1; 1]%Z [192; 168; 3; 4]%Z TCP 4000 80))
    (convertIngressRule 7 "contiv-"
       (mkContivRule "r" ActionPermit emptyIPNet (mkIPNet [192; 168; 0; 0]%Z (mask_bytes 4 16)) TCP 0 80)) = true.
Proof.
  destruct (convert_ingress_matches 7 "contiv-"
    (mkContivRule "r" ActionPermit emptyIPNet (mkIPNet [192; 168; 0; 0]%Z (mask_bytes 4 16)) TCP 0 80)
    (mkConnection [10; 1; 1; 1]%Z [192; 168; 3; 4]%Z TCP 4000 80)) as (_ & _ & Hm).
  - right. exists 4, 16. split; [|done]. split; [done|]. split; [done|]. split; [|lia]. repeat constructor; done.
  - split_and!; try done; [repeat constructor; done..|by left].
  - rewrite Hm by (by vm_compute). by vm_compute.
Defined.
