(* ===== verification/AclCache.v ===== *)
(** * The cache of the ACL renderer

    plugins/policy/renderer/acl/cache/{cache_api,cache_impl}.go: Contiv rules
    grouped into lists shared by interfaces, ordered by their rules and indexed
    by ID and by interface, with transactions on top.

    The code passes pointers to [ContivRuleList] around: a list is in the
    ordered array, in both indexes and in the changes handed to the renderer,
    and is compared by address in [Remove]. The model keeps the lists in a heap
    and passes locations. An [InterfaceSet] belongs to one list and is a field
    of it. [Rules] is an option because [compareRuleLists] tells the nil slice
    from an empty one. [rand.Read] is a stream of byte strings. *)

From Stdlib Require Import ZArith Lia Ascii String.
From stdpp Require Import prelude strings list gmap sorting.
From S2P Require Import Prelude Slots GoStrings GoNet Utils Rules.

(** ** ACLs, as the vpp-agent models them (the part the renderer uses) *)

Inductive AclAction := AclDENY | AclPERMIT | AclREFLECT.

Record PortRange := mkPortRange { LowerPort : Z; UpperPort : Z }.

(** [Tcp] and [Udp] of an IP rule have the same shape. *)
Record L4Ports := mkL4Ports {
  SourcePortRange : option PortRange;
  DestinationPortRange : option PortRange
}.

Record AclIp := mkAclIp { SourceNetwork : string; DestinationNetwork : string }.

Record AclIpRule := mkAclIpRule {
  IpRule_Ip : option AclIp;
  IpRule_Icmp : bool;   (* present or not *)
  IpRule_Tcp : option L4Ports;
  IpRule_Udp : option L4Ports;
  IpRule_Other : bool
}.

(** [Matches] is nil, or has an IP rule or not. *)
Record AclRule := mkAclRule {
  RuleName : string;
  Actions : option AclAction;
  Matches : option (option AclIpRule)
}.

Record AclInterfaces := mkAclInterfaces { AclIngress : list string; AclEgress : list string }.

Record Acl := mkAcl {
  AclName : string;
  AclRules : list AclRule;
  Acl_Interfaces : option AclInterfaces
}.

(** ** Rule lists *)

Record ContivRuleList := mkContivRuleList {
  RL_ID : string;
  RL_Rules : option (list ContivRule);
  RL_Interfaces : gset string;
  RL_Private : option Acl
}.

Abbreviation loc := positive (only parsing).
Abbreviation heap := (gmap positive ContivRuleList) (only parsing).

Definition set_Interfaces (o : ContivRuleList) (ifs : gset string) : ContivRuleList :=
  mkContivRuleList (RL_ID o) (RL_Rules o) ifs (RL_Private o).
Definition set_Private (o : ContivRuleList) (p : option Acl) : ContivRuleList :=
  mkContivRuleList (RL_ID o) (RL_Rules o) (RL_Interfaces o) p.

(** [&ContivRuleList{...}] *)
Definition alloc (h : heap) (o : ContivRuleList) : heap * loc :=
  let l := fresh (dom h) in (<[l := o]> h, l).

Fixpoint compareRules_loop (a b : list ContivRule) : comparison :=
  match a, b with
  | x :: a, y :: b => ContivRule_Compare x y >>? compareRules_loop a b
  | _, _ => Eq
  end.

Definition compareRuleLists (a b : option (list ContivRule)) : comparison :=
  match a, b with
  | None, None => Eq
  | None, _ => Lt
  | _, None => Gt
  | Some a, Some b =>
    CompareInts (Z.of_nat (length a)) (Z.of_nat (length b)) >>? compareRules_loop a b
  end.

(** [InterfaceSet.Equals] *)
Definition InterfaceSet_Equals `{RangeOracle} (site : list Z) (set set2 : gset string) : bool :=
  if negb (size set =? size set2) then false
  else forallb (λ ifName, bool_decide (ifName ∈ set2)) (range_set site set).

(** ** [ContivRuleLists] *)

Record ContivRuleLists := mkContivRuleLists {
  ruleLists : list (option loc);
  rl_numItems : nat;
  byID : gmap string loc;
  byInterface : gmap string loc
}.

Definition NewContivRuleLists : ContivRuleLists := mkContivRuleLists [] 0 ∅ ∅.

Definition lookupIdxByRules (h : heap) (crls : ContivRuleLists) (rules : option (list ContivRule)) :
    option nat :=
  sort_Search (rl_numItems crls)
    (λ i, l ← deref (ruleLists crls) i; o ← h !! l; Some (le0 (compareRuleLists rules (RL_Rules o)))).

(** The test [listIdx < numItems && compareRuleLists(...) == 0]; the location
    found. *)
Definition rules_at (h : heap) (crls : ContivRuleLists) (idx : nat) (rules : option (list ContivRule)) :
    option (option loc) :=
  if idx <? rl_numItems crls then
    l ← deref (ruleLists crls) idx; o ← h !! l;
    Some (if bool_decide (compareRuleLists rules (RL_Rules o) = Eq) then Some l else None)
  else Some None.

(** [LookupByID], [LookupByInterface]: nil is [None]. *)
Definition LookupByID (crls : ContivRuleLists) (id : string) : option loc := byID crls !! id.
Definition LookupByInterface (crls : ContivRuleLists) (ifName : string) : option loc :=
  byInterface crls !! ifName.

Definition LookupByRules (h : heap) (crls : ContivRuleLists) (rules : option (list ContivRule)) :
    option (option loc) :=
  idx ← lookupIdxByRules h crls rules; rules_at h crls idx rules.

(** [list.Interfaces.Remove(ifName)], [list.Interfaces.Add(ifName)] *)
Definition remove_interface (h : heap) (l : loc) (ifName : string) : option heap :=
  o ← h !! l; Some (<[l := set_Interfaces o (RL_Interfaces o ∖ {[ ifName ]})]> h).
Definition add_interface (h : heap) (l : loc) (ifName : string) : option heap :=
  o ← h !! l; Some (<[l := set_Interfaces o ({[ ifName ]} ∪ RL_Interfaces o)]> h).

Definition set_byInterface (crls : ContivRuleLists) (m : gmap string loc) : ContivRuleLists :=
  mkContivRuleLists (ruleLists crls) (rl_numItems crls) (byID crls) m.

Definition UnassignInterface (h : heap) (crls : ContivRuleLists) (ruleList : option loc) (ifName : string) :
    option (heap * ContivRuleLists) :=
  h ← (match ruleList with Some l => remove_interface h l ifName | None => Some h end);
  match byInterface crls !! ifName with
  | Some list =>
    if bool_decide (ruleList = None) || bool_decide (ruleList = Some list) then
      h ← remove_interface h list ifName;
      Some (h, set_byInterface crls (delete ifName (byInterface crls)))
    else Some (h, crls)
  | None => Some (h, crls)
  end.

Definition AssignInterface (h : heap) (crls : ContivRuleLists) (ruleList : loc) (ifName : string) :
    option (heap * ContivRuleLists) :=
  '(h, crls) ← UnassignInterface h crls None ifName;
  h ← add_interface h ruleList ifName;
  Some (h, set_byInterface crls (<[ifName := ruleList]> (byInterface crls))).

Definition Insert_list `{RangeOracle} (h : heap) (crls : ContivRuleLists) (ruleList : loc) :
    option (heap * ContivRuleLists * bool) :=
  o ← h !! ruleList;
  listIdx ← lookupIdxByRules h crls (RL_Rules o);
  found ← rules_at h crls listIdx (RL_Rules o);
  match found with
  | Some _ => Some (h, crls, false)
  | None =>
    let slots := slots_insert (rl_numItems crls) (ruleLists crls) listIdx ruleList in
    if listIdx <? length slots then
      let crls := mkContivRuleLists slots (S (rl_numItems crls)) (<[RL_ID o := ruleList]> (byID crls))
                    (byInterface crls) in
      '(h, crls) ← foldM (λ '(h, crls) iface,
        '(h, crls) ← UnassignInterface h crls None iface;
        Some (h, set_byInterface crls (<[iface := ruleList]> (byInterface crls))))
        (h, crls) (range_set [20; Zpos ruleList]%Z (RL_Interfaces o));
      Some (h, crls, true)
    else panic
  end.

Definition RemoveByIdx `{RangeOracle} (h : heap) (crls : ContivRuleLists) (idx : nat) :
    option (ContivRuleLists * bool) :=
  if idx <? rl_numItems crls then
    ruleList ← deref (ruleLists crls) idx;
    o ← h !! ruleList;
    if rl_numItems crls - 1 <? length (ruleLists crls) then
      Some (mkContivRuleLists (slots_remove (rl_numItems crls) (ruleLists crls) idx) (rl_numItems crls - 1)
              (delete (RL_ID o) (byID crls))
              (foldl (λ m iface, delete iface m) (byInterface crls)
                 (range_set [21; Zpos ruleList]%Z (RL_Interfaces o))), true)
    else panic
  else Some (crls, false).

(** [Remove] compares addresses. *)
Definition Remove_list `{RangeOracle} (h : heap) (crls : ContivRuleLists) (ruleList : loc) :
    option (ContivRuleLists * bool) :=
  match list_find (λ p, p = Some ruleList) (ruleLists crls) with
  | Some (listIdx, _) => RemoveByIdx h crls listIdx
  | None => Some (crls, false)
  end.

(** Every round removes a list or advances: [numItems] rounds are enough. *)
Fixpoint RemoveByPredicate_loop `{RangeOracle} (fuel : nat) (h : heap) (crls : ContivRuleLists)
    (predicate : ContivRuleList → bool) (listIdx count : nat) : option (ContivRuleLists * nat) :=
  match fuel with
  | O => None
  | S fuel =>
    if listIdx <? rl_numItems crls then
      l ← deref (ruleLists crls) listIdx; o ← h !! l;
      if predicate o then
        '(crls, _) ← RemoveByIdx h crls listIdx;
        RemoveByPredicate_loop fuel h crls predicate listIdx (S count)
      else RemoveByPredicate_loop fuel h crls predicate (S listIdx) count
    else Some (crls, count)
  end.

Definition RemoveByPredicate `{RangeOracle} (h : heap) (crls : ContivRuleLists)
    (predicate : ContivRuleList → bool) : option (ContivRuleLists * nat) :=
  RemoveByPredicate_loop (S (rl_numItems crls)) h crls predicate 0 0.

(** ** The cache and its transactions *)

Inductive TrafficDirection := Ingress | Egress.

Definition TrafficDirection_String (td : TrafficDirection) : string :=
  match td with Ingress => "ingress" | Egress => "egress" end.

(** [allocatedListIDs] is a map from directions to sets; a missing entry is an
    empty set. *)
Record ContivRuleCache := mkContivRuleCache {
  crc_ingress : ContivRuleLists;
  crc_egress : ContivRuleLists;
  crc_interfaces : gset string;
  allocatedIngress : gset string;
  allocatedEgress : gset string
}.

Record ContivRuleCacheTxn := mkContivRuleCacheTxn {
  crct_ingress : ContivRuleLists;
  crct_egress : ContivRuleLists;
  crct_interfaces : gset string
}.

Definition Cache_Init : ContivRuleCache := mkContivRuleCache NewContivRuleLists NewContivRuleLists ∅ ∅ ∅.

Definition Cache_NewTxn : ContivRuleCacheTxn :=
  mkContivRuleCacheTxn NewContivRuleLists NewContivRuleLists ∅.

Definition Cache_LookupByInterface (crc : ContivRuleCache) (ifName : string) : option loc * option loc :=
  (LookupByInterface (crc_ingress crc) ifName, LookupByInterface (crc_egress crc) ifName).

Definition Cache_AllInterfaces (crc : ContivRuleCache) : gset string := crc_interfaces crc.

(** [fmt.Sprintf("%X", b)] *)
Definition hex_upper (z : Z) : ascii :=
  ascii_of_N (Z.to_N (if (z <? 10)%Z then 48 + z else 55 + z)).
Definition Sprintf_X (b : list Z) : string :=
  foldr (λ v s, String (hex_upper (Z.shiftr v 4)) (String (hex_upper (Z.land v 15)) s)) ""%string b.

(** [generateListID]: the loop draws five random bytes until the suffix is not
    in use. The random source is the list of the draws to come; with no draw
    left the loop goes on for ever ([None]). *)
Fixpoint generate_suffix (rands : list (list Z)) (allocated : gset string) :
    option (string * gset string * list (list Z)) :=
  match rands with
  | [] => None
  | b :: rands =>
    let suffix := Sprintf_X b in
    if bool_decide (suffix ∈ allocated) then generate_suffix rands allocated
    else Some (suffix, {[ suffix ]} ∪ allocated, rands)
  end.

Definition generateListID (direction : TrafficDirection) (rands : list (list Z)) (allocated : gset string) :
    option (string * gset string * list (list Z)) :=
  '(suffix, allocated, rands) ← generate_suffix rands allocated;
  Some ((TrafficDirection_String direction +:+ "-" +:+ suffix)%string, allocated, rands).

(** The list with the interfaces of a list of the cache, for the transaction. *)
Definition shallow_copy (o : ContivRuleList) (ifs : gset string) : ContivRuleList :=
  mkContivRuleList (RL_ID o) (RL_Rules o) ifs (RL_Private o).

(** [updateInterface]; the result has the heap, the head, the allocated IDs and
    the random source. *)
Definition updateInterface `{RangeOracle} (h : heap) (ifName : string) (rules : option (list ContivRule))
    (direction : TrafficDirection) (head base : ContivRuleLists) (allocated : gset string)
    (rands : list (list Z)) : option (heap * ContivRuleLists * gset string * list (list Z)) :=
  '(h, head) ← (match LookupByInterface base ifName with
    | Some orig =>
      o ← h !! orig;
      match LookupByID head (RL_ID o) with
      | None =>
        let '(h, copy) := alloc h (shallow_copy o (RL_Interfaces o)) in
        '(h, head, _) ← Insert_list h head copy;
        Some (h, head)
      | Some _ => Some (h, head)
      end
    | None => Some (h, head)
    end);
  found ← LookupByRules h head rules;
  match found with
  | Some ruleList =>
    '(h, head) ← AssignInterface h head ruleList ifName;
    Some (h, head, allocated, rands)
  | None =>
    inBase ← LookupByRules h base rules;
    match inBase with
    | Some ruleList =>
      o ← h !! ruleList;
      if bool_decide (ifName ∈ RL_Interfaces o) then Some (h, head, allocated, rands)
      else
        let '(h, copy) := alloc h (shallow_copy o ({[ ifName ]} ∪ RL_Interfaces o)) in
        '(h, head, _) ← Insert_list h head copy;
        Some (h, head, allocated, rands)
    | None =>
      '(id, allocated, rands) ← generateListID direction rands allocated;
      let '(h, new) := alloc h (mkContivRuleList id rules {[ ifName ]} None) in
      '(h, head, _) ← Insert_list h head new;
      Some (h, head, allocated, rands)
    end
  end.

Definition Txn_Update `{RangeOracle} (h : heap) (crc : ContivRuleCache) (crct : ContivRuleCacheTxn)
    (rands : list (list Z)) (ifName : string) (ingress egress : option (list ContivRule)) :
    option (heap * ContivRuleCache * ContivRuleCacheTxn * list (list Z)) :=
  '(h, headIn, allocIn, rands) ←
    updateInterface h ifName ingress Ingress (crct_ingress crct) (crc_ingress crc) (allocatedIngress crc) rands;
  '(h, headEg, allocEg, rands) ←
    updateInterface h ifName egress Egress (crct_egress crct) (crc_egress crc) (allocatedEgress crc) rands;
  Some (h,
    mkContivRuleCache (crc_ingress crc) (crc_egress crc) (crc_interfaces crc) allocIn allocEg,
    mkContivRuleCacheTxn headIn headEg ({[ ifName ]} ∪ crct_interfaces crct), rands).

(** [TxnChange]: the list and the interfaces it had in the cache. *)
Record TxnChange := mkTxnChange { change_List : loc; PreviousInterfaces : gset string }.

Definition getChanges `{RangeOracle} (h : heap) (head base : ContivRuleLists) : option (list TxnChange) :=
  foldM (λ changes p,
    l ← p; o ← h !! l;
    let size_zero := bool_decide (RL_Interfaces o = ∅) in
    match LookupByID base (RL_ID o) with
    | None =>
      if size_zero then Some changes else Some (changes ++ [mkTxnChange l ∅])
    | Some orig =>
      oo ← h !! orig;
      if InterfaceSet_Equals [22; Zpos l]%Z (RL_Interfaces o) (RL_Interfaces oo) then Some changes
      else Some (changes ++ [mkTxnChange l (RL_Interfaces oo)])
    end) [] (ruleLists head).

Definition Txn_Changes `{RangeOracle} (h : heap) (crc : ContivRuleCache) (crct : ContivRuleCacheTxn) :
    option (list TxnChange * list TxnChange) :=
  ingress ← getChanges h (crct_ingress crct) (crc_ingress crc);
  egress ← getChanges h (crct_egress crct) (crc_egress crc);
  Some (ingress, egress).

(** [commit] of one head list. *)
Definition commit_list `{RangeOracle} (h : heap) (base : ContivRuleLists) (ruleList : loc) :
    option (heap * ContivRuleLists) :=
  o ← h !! ruleList;
  match LookupByID base (RL_ID o) with
  | Some orig =>
    if bool_decide (RL_Interfaces o = ∅) then
      '(base, _) ← Remove_list h base ruleList; Some (h, base)
    else
      oo ← h !! orig;
      if InterfaceSet_Equals [23; Zpos ruleList]%Z (RL_Interfaces o) (RL_Interfaces oo) then Some (h, base)
      else
        '(h, base) ← foldM (λ '(h, base) iface,
          if bool_decide (iface ∈ RL_Interfaces o) then Some (h, base)
          else UnassignInterface h base (Some orig) iface)
          (h, base) (range_set [24; Zpos ruleList]%Z (RL_Interfaces oo));
        '(h, base) ← foldM (λ '(h, base) iface,
          oo ← h !! orig;
          if bool_decide (iface ∈ RL_Interfaces oo) then Some (h, base)
          else AssignInterface h base orig iface)
          (h, base) (range_set [25; Zpos ruleList]%Z (RL_Interfaces o));
        oo ← h !! orig; o ← h !! ruleList;
        Some (<[orig := set_Private oo (RL_Private o)]> h, base)
  | None =>
    if bool_decide (RL_Interfaces o = ∅) then Some (h, base)
    else '(h, base, _) ← Insert_list h base ruleList; Some (h, base)
  end.

Definition commit `{RangeOracle} (h : heap) (head base : ContivRuleLists) : option (heap * ContivRuleLists) :=
  foldM (λ '(h, base) p, l ← p; commit_list h base l) (h, base) (ruleLists head).

Definition Txn_Commit `{RangeOracle} (h : heap) (crc : ContivRuleCache) (crct : ContivRuleCacheTxn) :
    option (heap * ContivRuleCache) :=
  '(h, ingress) ← commit h (crct_ingress crct) (crc_ingress crc);
  '(h, egress) ← commit h (crct_egress crct) (crc_egress crc);
  Some (h, mkContivRuleCache ingress egress (crct_interfaces crct ∪ crc_interfaces crc)
             (allocatedIngress crc) (allocatedEgress crc)).

(** ** [Resync] *)

Inductive ResyncError := InvalidIDPrefix (id : string) | DuplicateID (id : string) | DuplicateList (id : string).

Definition resync_list `{RangeOracle} (direction : TrafficDirection)
    (st : heap * ContivRuleLists * gset string * gset string) (l : loc) :
    option (ResyncError + heap * ContivRuleLists * gset string * gset string) :=
  let '(h, lists, allocated, interfaces) := st in
  o ← h !! l;
  if bool_decide (RL_Interfaces o = ∅) then Some (inr st)
  else
    let prefix := (TrafficDirection_String direction +:+ "-")%string in
    if negb (HasPrefix (RL_ID o) prefix) then Some (inl (InvalidIDPrefix (RL_ID o)))
    else
      let idSuffix := TrimPrefix (RL_ID o) prefix in
      if bool_decide (idSuffix ∈ allocated) then Some (inl (DuplicateID (RL_ID o)))
      else
        '(h, lists, ok) ← Insert_list h lists l;
        if negb ok then Some (inl (DuplicateList (RL_ID o)))
        else
          o ← h !! l;
          Some (inr (h, lists, {[ idSuffix ]} ∪ allocated, RL_Interfaces o ∪ interfaces)).

Fixpoint resync_lists `{RangeOracle} (direction : TrafficDirection) (ls : list loc)
    (st : heap * ContivRuleLists * gset string * gset string) :
    option (ResyncError + heap * ContivRuleLists * gset string * gset string) :=
  match ls with
  | [] => Some (inr st)
  | l :: ls =>
    r ← resync_list direction st l;
    match r with
    | inl e => Some (inl e)
    | inr st => resync_lists direction ls st
    end
  end.

(** The cache is replaced at the end only; an error leaves it as it was (what
    happened to the dumped lists is then of no account: nothing refers to
    them). *)
Definition Resync `{RangeOracle} (h : heap) (crc : ContivRuleCache) (ingress egress : list loc) :
    option (heap * ContivRuleCache * option ResyncError) :=
  r ← resync_lists Ingress ingress (h, NewContivRuleLists, ∅, ∅);
  match r with
  | inl e => Some (h, crc, Some e)
  | inr (h1, inLists, allocIn, interfaces) =>
    r ← resync_lists Egress egress (h1, NewContivRuleLists, ∅, interfaces);
    match r with
    | inl e => Some (h1, crc, Some e)
    | inr (h2, egLists, allocEg, interfaces) =>
      Some (h2, mkContivRuleCache inLists egLists interfaces allocIn allocEg, None)
    end
  end.
