(* ===== verification/AclCacheProofs.v ===== *)
(** * The ACL cache keeps its indexes and implements a map of interfaces

    Invariant and refinement of AclCache.v. The invariant [wf] ties the ordered
    array, the two indexes and the interface sets of the lists in the heap
    together. A transaction is shown to implement the abstract operation
    "replace the rules of the updated interfaces". *)

From Stdlib Require Import ZArith Lia Ascii String.
From stdpp Require Import prelude strings list gmap sorting.
From S2P Require Import Prelude Slots GoStrings GoNet Utils Rules AclCache.

(** ** The order of rule lists *)

Definition cmp_option {A} (c : A → A → comparison) (a b : option A) : comparison :=
  match a, b with
  | None, None => Eq
  | None, _ => Lt
  | _, None => Gt
  | Some a, Some b => c a b
  end.

#[global] Instance cmp_option_total {A} (c : A → A → comparison) `{!TotalCompare c} :
  TotalCompare (cmp_option c).
Proof.
  split.
  - intros [x|] [y|]; simpl; [|done..]. rewrite (cmp_eq c). naive_solver.
  - intros [x|] [y|]; simpl; [|done..]. apply (cmp_opp c).
  - intros [x|] [y|] [z|]; simpl; try done. apply (cmp_trans c).
Qed.

Lemma compareRules_loop_eq a b :
  length a = length b → compareRules_loop a b = cmp_list ContivRule_Compare a b.
Proof.
  revert b. induction a as [|x a IH]; intros [|y b]; simpl; [done..|]. intros [= Hl]. by rewrite IH.
Qed.

Definition len_rules (l : list ContivRule) : Z * list ContivRule := (Z.of_nat (length l), l).

#[global] Instance len_rules_inj : Inj (=) (=) len_rules.
Proof. by intros a b [=]. Qed.

Lemma compareRuleLists_eq a b :
  compareRuleLists a b =
  cmp_option (cmp_on len_rules (cmp_pair CompareInts (cmp_list ContivRule_Compare))) a b.
Proof.
  destruct a as [a|], b as [b|]; simpl; [|done..]. unfold cmp_on, cmp_pair, len_rules; simpl.
  destruct (decide (length a = length b)) as [Hl|Hl]; [by rewrite compareRules_loop_eq|].
  rewrite CompareInts_Z. destruct (Z.compare_spec (Z.of_nat (length a)) (Z.of_nat (length b))); [lia|done..].
Qed.

#[global] Instance compareRuleLists_total : TotalCompare compareRuleLists.
Proof.
  pose proof (cmp_option_total (cmp_on len_rules (cmp_pair CompareInts (cmp_list ContivRule_Compare)))) as [H1 H2 H3].
  split; intros *; rewrite !compareRuleLists_eq; [apply H1|apply H2|apply H3].
Qed.

(** ** The invariant *)

Definition rules_of (h : heap) (l : positive) : option (list ContivRule) := h !! l ≫= RL_Rules.
Definition id_of (h : heap) (l : positive) : string := from_option RL_ID ""%string (h !! l).
Definition ifs_of (h : heap) (l : positive) : gset string := from_option RL_Interfaces ∅ (h !! l).

Record wf (h : heap) (crls : ContivRuleLists) (ls : list positive) : Prop := {
  wf_slots : slots_repr (rl_numItems crls) (ruleLists crls) ls;
  wf_tight : length (ruleLists crls) = rl_numItems crls;
  wf_heap l : l ∈ ls → is_Some (h !! l);
  wf_sorted : StronglySorted (key_lt compareRuleLists) (rules_of h <$> ls);
  wf_byID id l : byID crls !! id = Some l ↔ l ∈ ls ∧ id_of h l = id;
  wf_byIf i l : byInterface crls !! i = Some l ↔ l ∈ ls ∧ i ∈ ifs_of h l
}.

(** The heaps differ in the interfaces and the private data of lists only. *)
Definition same_static (h h' : heap) : Prop :=
  ∀ l o, h !! l = Some o → ∃ o', h' !! l = Some o' ∧ RL_ID o' = RL_ID o ∧ RL_Rules o' = RL_Rules o.

#[global] Instance same_static_refl : Reflexive same_static.
Proof. intros h l o Ho. eauto. Qed.

#[global] Instance same_static_trans : Transitive same_static.
Proof.
  intros h1 h2 h3 H12 H23 l o Ho. destruct (H12 l o Ho) as (o2 & Ho2 & ? & ?).
  destruct (H23 l o2 Ho2) as (o3 & Ho3 & ? & ?). exists o3. split_and!; [done|congruence..].
Qed.

Lemma same_static_of h h' l :
  same_static h h' → is_Some (h !! l) →
  is_Some (h' !! l) ∧ rules_of h' l = rules_of h l ∧ id_of h' l = id_of h l.
Proof.
  intros Hs [o Ho]. destruct (Hs l o Ho) as (o' & Ho' & Hid & Hr).
  unfold rules_of, id_of. rewrite Ho, Ho'. simpl. split_and!; [eauto|done|done].
Qed.

Lemma wf_NoDup h crls ls : wf h crls ls → NoDup ls.
Proof. intros Hw. eapply NoDup_fmap_1, (sorted_NoDup compareRuleLists), Hw. Qed.

Lemma wf_numItems h crls ls : wf h crls ls → rl_numItems crls = length ls.
Proof. intros Hw. by destruct (wf_slots _ _ _ Hw). Qed.

Lemma wf_lists h crls ls : wf h crls ls → ruleLists crls = Some <$> ls.
Proof.
  intros Hw. destruct (wf_slots _ _ _ Hw) as [Hn [k Hr]]. pose proof (wf_tight _ _ _ Hw) as Ht.
  rewrite Hr, length_app, length_fmap, length_replicate in Ht. assert (k = 0) as -> by lia.
  by rewrite Hr, app_nil_r.
Qed.

Lemma NewContivRuleLists_wf h : wf h NewContivRuleLists [].
Proof.
  split; simpl; [apply slots_repr_nil|done|by intros ? ?%elem_of_nil|constructor| |];
    intros; rewrite lookup_empty, elem_of_nil; naive_solver.
Qed.

Lemma rules_unique h crls ls l l' :
  wf h crls ls → l ∈ ls → l' ∈ ls → rules_of h l = rules_of h l' → l = l'.
Proof.
  intros Hw Hl Hl' Heq. apply list_elem_of_lookup in Hl as [i Hi], Hl' as [j Hj].
  assert (i = j) as ->; [|by simplify_eq].
  eapply NoDup_lookup; [apply (sorted_NoDup compareRuleLists), (wf_sorted _ _ _ Hw)|..];
    rewrite list_lookup_fmap; [by rewrite Hi|rewrite Hj; simpl; by rewrite Heq].
Qed.

Lemma id_unique h crls ls l l' :
  wf h crls ls → l ∈ ls → l' ∈ ls → id_of h l = id_of h l' → l = l'.
Proof.
  intros Hw Hl Hl' Heq.
  assert (byID crls !! id_of h l = Some l) as H1 by (by apply (wf_byID _ _ _ Hw)).
  assert (byID crls !! id_of h l = Some l') as H2 by (by apply (wf_byID _ _ _ Hw)).
  congruence.
Qed.

(** A heap change outside the lists does not matter. *)
Lemma wf_frame h h' crls ls : (∀ l, l ∈ ls → h' !! l = h !! l) → wf h crls ls → wf h' crls ls.
Proof.
  intros Heq Hw.
  assert (rules_of h' <$> ls = rules_of h <$> ls) as Hr.
  { apply list_fmap_ext. intros i l Hi. unfold rules_of. by rewrite Heq by (by eapply list_elem_of_lookup_2). }
  split; [apply Hw|apply Hw| |rewrite Hr; apply Hw| |].
  - intros l Hl. rewrite Heq by done. by apply (wf_heap _ _ _ Hw).
  - intros id l. rewrite (wf_byID _ _ _ Hw). unfold id_of. split; intros [Hl ?]; (split; [done|]).
    + by rewrite Heq.
    + by rewrite <-Heq.
  - intros i l. rewrite (wf_byIf _ _ _ Hw). unfold ifs_of. split; intros [Hl ?]; (split; [done|]).
    + by rewrite Heq.
    + by rewrite <-Heq.
Qed.

(** ** Lookups *)

Lemma wf_deref h crls ls i : wf h crls ls → i < length ls → deref (ruleLists crls) i = ls !! i.
Proof. intros Hw Hi. apply slots_repr_deref with (rl_numItems crls); [apply Hw|by rewrite (wf_numItems _ _ _ Hw)]. Qed.

Lemma lookupIdxByRules_spec h crls ls rules :
  wf h crls ls →
  ∃ idx, lookupIdxByRules h crls rules = Some idx ∧ idx ≤ length ls ∧
    Forall (λ k, key_lt compareRuleLists k rules) (take idx (rules_of h <$> ls)) ∧
    Forall (λ k, le0 (compareRuleLists rules k) = true) (drop idx (rules_of h <$> ls)).
Proof.
  intros Hw. edestruct (search_sorted compareRuleLists rules (rules_of h <$> ls)
    (λ i, l ← deref (ruleLists crls) i; o ← h !! l; Some (le0 (compareRuleLists rules (RL_Rules o)))))
    as (idx & Hidx & Hle & Hlo & Hhi); [apply Hw| |].
  - intros i k. rewrite list_lookup_fmap. destruct (ls !! i) as [l|] eqn:Hl; [|done]. simpl. intros [= <-].
    rewrite (wf_deref _ _ _ _ Hw), Hl by (by eapply lookup_lt_Some). simpl.
    destruct (wf_heap _ _ _ Hw l) as [o Ho]; [by eapply list_elem_of_lookup_2|].
    unfold rules_of. by rewrite Ho.
  - rewrite length_fmap in Hidx, Hle. exists idx. unfold lookupIdxByRules.
    by rewrite (wf_numItems _ _ _ Hw).
Qed.

Lemma rules_at_spec h crls ls rules idx :
  wf h crls ls → idx ≤ length ls →
  Forall (λ k, key_lt compareRuleLists k rules) (take idx (rules_of h <$> ls)) →
  Forall (λ k, le0 (compareRuleLists rules k) = true) (drop idx (rules_of h <$> ls)) →
  ∃ r, rules_at h crls idx rules = Some r ∧
    match r with
    | Some l => l ∈ ls ∧ rules_of h l = rules
    | None => ∀ l, l ∈ ls → rules_of h l ≠ rules
    end.
Proof.
  intros Hw Hidx Hlo Hhi. unfold rules_at. rewrite (wf_numItems _ _ _ Hw).
  assert (∀ l, l ∈ ls → rules_of h l = rules → ∃ l', ls !! idx = Some l' ∧ rules_of h l' = rules) as Hin.
  { intros l Hl Hr. apply (list_elem_of_fmap_2 (rules_of h)) in Hl. rewrite Hr in Hl.
    apply (search_sorted_found compareRuleLists rules _ idx) in Hl; [|apply Hw|done|done].
    rewrite list_lookup_fmap in Hl. destruct (ls !! idx) as [l'|]; simplify_eq/=. eauto. }
  destruct (Nat.ltb_spec idx (length ls)) as [Hlt|Hge].
  - destruct (lookup_lt_is_Some_2 ls idx Hlt) as [l Hl]. rewrite (wf_deref _ _ _ _ Hw), Hl by done. simpl.
    pose proof (list_elem_of_lookup_2 _ _ _ Hl) as Hm. destruct (wf_heap _ _ _ Hw l Hm) as [o Ho]. rewrite Ho. simpl.
    assert (rules_of h l = RL_Rules o) as Hro by (unfold rules_of; by rewrite Ho).
    eexists. split; [done|]. case_bool_decide as Hc; rewrite (cmp_eq compareRuleLists) in Hc.
    + split; [done|congruence].
    + intros l' Hl' Hr. destruct (Hin l' Hl' Hr) as (l'' & Hl'' & Hr''). simplify_eq. congruence.
  - eexists. split; [done|]. intros l Hl Hr. destruct (Hin l Hl Hr) as (l'' & Hl'' & _).
    apply lookup_lt_Some in Hl''. lia.
Qed.

Lemma LookupByRules_spec h crls ls rules :
  wf h crls ls →
  ∃ r, LookupByRules h crls rules = Some r ∧
    match r with
    | Some l => l ∈ ls ∧ rules_of h l = rules
    | None => ∀ l, l ∈ ls → rules_of h l ≠ rules
    end.
Proof.
  intros Hw. destruct (lookupIdxByRules_spec h crls ls rules Hw) as (idx & Hidx & Hle & Hlo & Hhi).
  unfold LookupByRules. rewrite Hidx. simpl. by apply (rules_at_spec h crls ls).
Qed.

(** ** Operations *)

Definition priv_of (h : heap) (l : positive) : option Acl := h !! l ≫= RL_Private.

(** Only interface sets differ. *)
Record static (h h' : heap) : Prop := {
  st_dom l : is_Some (h' !! l) ↔ is_Some (h !! l);
  st_rules l : rules_of h' l = rules_of h l;
  st_id l : id_of h' l = id_of h l;
  st_priv l : priv_of h' l = priv_of h l
}.

#[global] Instance static_refl : Reflexive static.
Proof. by split. Qed.

#[global] Instance static_trans : Transitive static.
Proof.
  intros h1 h2 h3 [D1 R1 I1 P1] [D2 R2 I2 P2]. split; intros l;
    [rewrite D2; apply D1|by rewrite R2|by rewrite I2|by rewrite P2].
Qed.

Lemma set_ifs_spec h l o s :
  h !! l = Some o →
  let h' := <[l := set_Interfaces o s]> h in
  static h h' ∧ (∀ l', l' ≠ l → h' !! l' = h !! l') ∧ ifs_of h' l = s.
Proof.
  intros Ho h'. split_and!.
  - split; intros l'; unfold rules_of, id_of, priv_of, h'; destruct (decide (l = l')) as [<-|Hne];
      rewrite ?lookup_insert_eq, ?Ho, ?lookup_insert_ne by done; done.
  - intros l' Hne. unfold h'. by rewrite lookup_insert_ne.
  - unfold ifs_of, h'. by rewrite lookup_insert_eq.
Qed.

Lemma remove_interface_spec h l i :
  is_Some (h !! l) →
  ∃ h', remove_interface h l i = Some h' ∧ static h h' ∧ (∀ l', l' ≠ l → h' !! l' = h !! l') ∧
    ifs_of h' l = ifs_of h l ∖ {[ i ]}.
Proof.
  intros [o Ho]. unfold remove_interface, ifs_of. rewrite Ho. simpl. eexists. split; [done|].
  by apply set_ifs_spec.
Qed.

Lemma add_interface_spec h l i :
  is_Some (h !! l) →
  ∃ h', add_interface h l i = Some h' ∧ static h h' ∧ (∀ l', l' ≠ l → h' !! l' = h !! l') ∧
    ifs_of h' l = {[ i ]} ∪ ifs_of h l.
Proof.
  intros [o Ho]. unfold add_interface, ifs_of. rewrite Ho. simpl. eexists. split; [done|].
  by apply set_ifs_spec.
Qed.

Lemma ifs_of_ne h h' l : h' !! l = h !! l → ifs_of h' l = ifs_of h l.
Proof. unfold ifs_of. by intros ->. Qed.

Lemma wf_update h h' crls ls m :
  wf h crls ls → static h h' → (∀ i l, m !! i = Some l ↔ l ∈ ls ∧ i ∈ ifs_of h' l) →
  wf h' (set_byInterface crls m) ls.
Proof.
  intros Hw Hs Hm. split; simpl; [apply Hw|apply Hw| | | |done].
  - intros l Hl. apply (st_dom _ _ Hs). by apply (wf_heap _ _ _ Hw).
  - rewrite (list_fmap_ext _ (rules_of h)); [apply Hw|]. intros i l _. apply (st_rules _ _ Hs).
  - intros id l. rewrite (st_id _ _ Hs). apply (wf_byID _ _ _ Hw).
Qed.

Lemma set_byInterface_id crls : set_byInterface crls (byInterface crls) = crls.
Proof. by destruct crls. Qed.

(** [UnassignInterface(nil, i)] on an index that is right for the lists [ls]. *)
Lemma Unassign_None_spec h crls i :
  (∀ l, byInterface crls !! i = Some l → is_Some (h !! l)) →
  ∃ h', UnassignInterface h crls None i =
      Some (h', set_byInterface crls (delete i (byInterface crls))) ∧ static h h' ∧
    (∀ l, byInterface crls !! i ≠ Some l → h' !! l = h !! l) ∧
    (∀ l, byInterface crls !! i = Some l → ifs_of h' l = ifs_of h l ∖ {[ i ]}).
Proof.
  intros Hh. unfold UnassignInterface. cbn [mbind option_bind].
  destruct (byInterface crls !! i) as [l|] eqn:E.
  - destruct (remove_interface_spec h l i) as (h' & -> & Hs & Hne & Hl); [by apply Hh|].
    exists h'. split_and!; [done|done| |].
    + intros l' Hl'. apply Hne. congruence.
    + by intros l' [= <-].
  - exists h. rewrite delete_id by done. rewrite set_byInterface_id. done.
Qed.

(** The effect of [AssignInterface]. *)
Lemma AssignInterface_spec h crls ls l i :
  wf h crls ls → l ∈ ls →
  ∃ h', AssignInterface h crls l i = Some (h', set_byInterface crls (<[i := l]> (byInterface crls))) ∧
    static h h' ∧ (∀ l', l' ∉ ls → h' !! l' = h !! l') ∧
    wf h' (set_byInterface crls (<[i := l]> (byInterface crls))) ls.
Proof.
  intros Hw Hl. unfold AssignInterface.
  destruct (Unassign_None_spec h crls i) as (h1 & -> & Hs1 & Hne1 & Hl1).
  { intros l' Hl'. apply (wf_heap _ _ _ Hw). by apply (wf_byIf _ _ _ Hw) in Hl' as [? _]. }
  cbn [mbind option_bind].
  destruct (add_interface_spec h1 l i) as (h2 & -> & Hs2 & Hne2 & Hl2).
  { apply (st_dom _ _ Hs1). by apply (wf_heap _ _ _ Hw). }
  cbn [mbind option_bind set_byInterface byInterface ruleLists rl_numItems byID].
  assert (static h h2) as Hs by (by etrans).
  exists h2. unfold set_byInterface; simpl. rewrite insert_delete_eq. split; [done|]. split; [done|]. split.
  - intros l' Hl'. rewrite Hne2 by (intros ->; done). apply Hne1. intros Hb.
    by apply (wf_byIf _ _ _ Hw) in Hb as [? _].
  - apply (wf_update h h2 crls ls _ Hw Hs). intros j l'.
    assert (ifs_of h1 l' = if decide (byInterface crls !! i = Some l') then ifs_of h l' ∖ {[ i ]} else ifs_of h l') as E1.
    { destruct (decide _); [by apply Hl1|by apply ifs_of_ne, Hne1]. }
    assert (ifs_of h2 l' = if decide (l' = l) then {[ i ]} ∪ ifs_of h1 l' else ifs_of h1 l') as E2.
    { destruct (decide (l' = l)) as [->|]; [done|by apply ifs_of_ne, Hne2]. }
    pose proof (wf_byIf _ _ _ Hw j l') as Hj. pose proof (wf_byIf _ _ _ Hw i l') as Hi.
    rewrite E2, E1. destruct (decide (i = j)) as [<-|Hij].
    + rewrite lookup_insert_eq. destruct (decide (l' = l)) as [->|Hll].
      * split; [intros _; split; [done|set_solver]|done].
      * split; [congruence|]. intros [Hin Hi']. destruct (decide _) as [Hb|Hb]; [set_solver|]. tauto.
    + rewrite lookup_insert_ne by done. rewrite Hj.
      destruct (decide (l' = l)), (decide (byInterface crls !! i = Some l')); set_solver.
Qed.

(** The effect of [UnassignInterface] with a list. *)
Lemma Unassign_Some_spec h crls ls l i :
  wf h crls ls → l ∈ ls →
  let m := if decide (byInterface crls !! i = Some l) then delete i (byInterface crls) else byInterface crls in
  ∃ h', UnassignInterface h crls (Some l) i = Some (h', set_byInterface crls m) ∧
    static h h' ∧ (∀ l', l' ≠ l → h' !! l' = h !! l') ∧ wf h' (set_byInterface crls m) ls.
Proof.
  intros Hw Hl m. unfold UnassignInterface.
  destruct (remove_interface_spec h l i) as (h1 & -> & Hs1 & Hne1 & Hl1); [by apply (wf_heap _ _ _ Hw)|].
  cbn [mbind option_bind].
  assert (∀ h', static h h' → (∀ l', l' ≠ l → h' !! l' = h !! l') → ifs_of h' l = ifs_of h l ∖ {[ i ]} →
    wf h' (set_byInterface crls m) ls) as Hwf.
  { intros h' Hs Hne Hifs. apply (wf_update h h' crls ls _ Hw Hs). intros j l'. unfold m.
    pose proof (wf_byIf _ _ _ Hw j l') as Hj. pose proof (wf_byIf _ _ _ Hw i l) as Hi.
    destruct (decide (l' = l)) as [->|Hll].
    - rewrite Hifs. destruct (decide _) as [Hb|Hb]; [destruct (decide (i = j)) as [<-|]|].
      + rewrite lookup_delete_eq. set_solver.
      + rewrite lookup_delete_ne, Hj by done. set_solver.
      + rewrite Hj. destruct (decide (i = j)) as [<-|]; set_solver.
    - rewrite (ifs_of_ne h h') by (by apply Hne). rewrite <-Hj. destruct (decide _) as [Hb|Hb]; [|done].
      destruct (decide (i = j)) as [<-|]; [rewrite lookup_delete_eq; naive_solver|by rewrite lookup_delete_ne]. }
  destruct (byInterface crls !! i) as [l'|] eqn:E.
  - destruct (decide (Some l' = Some l)) as [[= ->]|Hll].
    + rewrite bool_decide_false, bool_decide_true by done. simpl.
      destruct (remove_interface_spec h1 l i) as (h2 & -> & Hs2 & Hne2 & Hl2).
      { apply (st_dom _ _ Hs1). by apply (wf_heap _ _ _ Hw). }
      cbn [mbind option_bind]. exists h2. split; [done|]. split; [by etrans|].
      assert (∀ l', l' ≠ l → h2 !! l' = h !! l') as Hne by (intros; rewrite Hne2, Hne1; done).
      split; [done|]. apply Hwf; [by etrans|done|]. rewrite Hl2, Hl1. set_solver.
    + rewrite bool_decide_false, bool_decide_false by congruence. simpl. exists h1.
      split; [by unfold m; rewrite set_byInterface_id|]. auto.
  - exists h1. destruct (decide (None = Some l)); [done|]. split; [unfold m; by rewrite set_byInterface_id|]. auto.
Qed.

Section insert.
Context `{RangeOracle} (ls : list positive) (l : positive).
Hypothesis Hfresh : l ∉ ls.

(** The interface index while the new list takes over its interfaces. *)
Definition index_ok (h : heap) (m : gmap string positive) (taken : list string) : Prop :=
  ∀ i l', m !! i = Some l' ↔ (l' ∈ ls ∧ i ∈ ifs_of h l') ∨ (l' = l ∧ i ∈ taken).

Definition insert_step : heap * ContivRuleLists → string → option (heap * ContivRuleLists) :=
  λ '(h, crls) iface,
    '(h, crls) ← UnassignInterface h crls None iface;
    Some (h, set_byInterface crls (<[iface := l]> (byInterface crls))).

Lemma insert_step_spec h crls taken i :
  (∀ l', l' ∈ ls → is_Some (h !! l')) → index_ok h (byInterface crls) taken → i ∉ taken →
  ∃ h', insert_step (h, crls) i = Some (h', set_byInterface crls (<[i := l]> (byInterface crls))) ∧
    static h h' ∧ (∀ l', l' ∉ ls → h' !! l' = h !! l') ∧
    index_ok h' (<[i := l]> (byInterface crls)) (taken ++ [i]).
Proof.
  intros Hh Hidx Hi. unfold insert_step.
  assert (∀ l', byInterface crls !! i = Some l' → l' ∈ ls) as Hown.
  { intros l' [[? _]|[_ ?]]%Hidx; [done|]. done. }
  destruct (Unassign_None_spec h crls i) as (h1 & -> & Hs1 & Hne1 & Hl1).
  { intros l' Hl'. by apply Hh, Hown. }
  cbn [mbind option_bind set_byInterface byInterface ruleLists rl_numItems byID].
  exists h1. unfold set_byInterface; simpl. rewrite insert_delete_eq. split_and!; [done|done| |].
  - intros l' Hl'. apply Hne1. intros ?%Hown. done.
  - intros j l'.
    assert (ifs_of h1 l' = if decide (byInterface crls !! i = Some l') then ifs_of h l' ∖ {[ i ]} else ifs_of h l') as E1.
    { destruct (decide _); [by apply Hl1|by apply ifs_of_ne, Hne1]. }
    rewrite E1, elem_of_app, list_elem_of_singleton. pose proof (Hidx i l') as Hi'. pose proof (Hidx j l') as Hj.
    destruct (decide (i = j)) as [<-|Hij].
    + rewrite lookup_insert_eq. destruct (decide (byInterface crls !! i = Some l')) as [Hb|Hb].
      * split; [intros [= <-]; right; tauto|]. intros [[? ?]|[-> _]]; [set_solver|done].
      * split; [intros [= <-]; right; tauto|]. intros [[? ?]|[-> _]]; [tauto|done].
    + rewrite lookup_insert_ne by done. rewrite Hj. assert (j ≠ i) by done.
      destruct (decide (byInterface crls !! i = Some l')); [|tauto].
      rewrite elem_of_difference, elem_of_singleton. tauto.
Qed.

Lemma insert_loop_spec L h crls taken :
  NoDup L → (∀ i, i ∈ L → i ∉ taken) →
  (∀ l', l' ∈ ls → is_Some (h !! l')) → index_ok h (byInterface crls) taken →
  ∃ h' m, foldM insert_step (h, crls) L = Some (h', set_byInterface crls m) ∧
    static h h' ∧ (∀ l', l' ∉ ls → h' !! l' = h !! l') ∧ index_ok h' m (taken ++ L) ∧
    (∀ i, m !! i = if decide (i ∈ L) then Some l else byInterface crls !! i).
Proof.
  intros Hnd. revert h crls taken. induction Hnd as [|i L Hi _ IH]; intros h crls taken Ht Hh Hidx; cbn [foldM].
  { exists h, (byInterface crls). rewrite set_byInterface_id, app_nil_r. split_and!; [done..|].
    intros i. rewrite decide_False; [done|]. apply not_elem_of_nil. }
  destruct (insert_step_spec h crls taken i Hh Hidx) as (h1 & -> & Hs1 & Hne1 & Hidx1); [apply Ht; by left|].
  cbn [mbind option_bind].
  destruct (IH h1 (set_byInterface crls (<[i := l]> (byInterface crls))) (taken ++ [i]))
    as (h' & m & -> & Hs & Hne & Hidx' & Hm).
  - intros j Hj. rewrite elem_of_app, list_elem_of_singleton. intros [?| ->]; [|done].
    eapply Ht; [|done]. by right.
  - intros l' Hl'. apply (st_dom _ _ Hs1). by apply Hh.
  - done.
  - exists h', m. rewrite <-app_assoc in Hidx'. split_and!; [done|by etrans| |done|].
    + intros l' Hl'. by rewrite Hne, Hne1.
    + intros j. rewrite Hm. simpl. destruct (decide (j ∈ L)) as [Hj|Hj].
      * by rewrite decide_True by (by right).
      * destruct (decide (i = j)) as [<-|Hij].
        -- rewrite decide_True by (by left). by rewrite lookup_insert_eq.
        -- rewrite decide_False by (rewrite elem_of_cons; naive_solver). by rewrite lookup_insert_ne.
Qed.

(** [Insert] of a list with new rules and a new ID. *)
Lemma Insert_list_spec h crls o :
  wf h crls ls → h !! l = Some o → byID crls !! RL_ID o = None → (∀ l', l' ∈ ls → rules_of h l' ≠ RL_Rules o) →
  ∃ h' crls' ls', Insert_list h crls l = Some (h', crls', true) ∧ ls' ≡ₚ l :: ls ∧ wf h' crls' ls' ∧
    static h h' ∧ (∀ l', l' ∉ ls → h' !! l' = h !! l') ∧
    byID crls' = <[RL_ID o := l]> (byID crls) ∧
    (∀ i, byInterface crls' !! i = if decide (i ∈ RL_Interfaces o) then Some l else byInterface crls !! i).
Proof.
  intros Hw Ho Hid Hr. unfold Insert_list. rewrite Ho. cbn [mbind option_bind].
  destruct (lookupIdxByRules_spec h crls ls (RL_Rules o) Hw) as (idx & -> & Hle & Hlo & Hhi). cbn [mbind option_bind].
  destruct (rules_at_spec h crls ls (RL_Rules o) idx Hw Hle Hlo Hhi) as (r & -> & Hrs). cbn [mbind option_bind].
  destruct r as [l'|]; [exfalso; destruct Hrs as [Hin Heq]; by apply (Hr l')|].
  pose proof (slots_insert_repr _ _ _ idx l (wf_slots _ _ _ Hw)) as Hins.
  rewrite (wf_numItems _ _ _ Hw) in *. specialize (Hins Hle).
  assert (length (slots_insert (length ls) (ruleLists crls) idx l) = S (length ls)) as Hlen.
  { rewrite slots_insert_length. pose proof (wf_tight _ _ _ Hw) as Ht. rewrite (wf_numItems _ _ _ Hw) in Ht.
    by rewrite Ht, Nat.eqb_refl. }
  destruct (Nat.ltb_spec idx (length (slots_insert (length ls) (ruleLists crls) idx l))); [|lia].
  set (crls1 := mkContivRuleLists _ _ _ _).
  destruct (insert_loop_spec (range_set [20; Zpos l]%Z (RL_Interfaces o)) h crls1 [])
    as (h' & m & Hloop & Hs & Hne & Hidx & Hm).
  - apply range_keys_NoDup.
  - intros i _. apply not_elem_of_nil.
  - apply (wf_heap _ _ _ Hw).
  - intros i l'. rewrite elem_of_nil. unfold crls1; simpl. rewrite (wf_byIf _ _ _ Hw). tauto.
  - fold insert_step. rewrite Hloop. cbn [mbind option_bind].
    set (ls' := take idx ls ++ l :: drop idx ls) in *.
    assert (ls' ≡ₚ l :: ls) as Hperm by (unfold ls'; by rewrite <-Permutation_middle, take_drop).
    assert (∀ x, x ∈ ls' ↔ x = l ∨ x ∈ ls) as Hls' by (intros x; by rewrite Hperm, elem_of_cons).
    assert (h' !! l = Some o) as Ho' by (by rewrite Hne).
    exists h', (set_byInterface crls1 m), ls'. split_and!; [done|done| |done|done|done|].
    + split; simpl; [done|done| | | |].
      * intros x. rewrite Hls'. intros [->|Hx]; [by exists o|]. apply (st_dom _ _ Hs). by apply (wf_heap _ _ _ Hw).
      * rewrite (list_fmap_ext _ (rules_of h)) by (intros i x _; apply (st_rules _ _ Hs)).
        unfold ls'. rewrite fmap_app, fmap_cons, fmap_take, fmap_drop.
        replace (rules_of h l) with (RL_Rules o) by (unfold rules_of; by rewrite Ho).
        apply (search_sorted_insert compareRuleLists); [apply Hw|done|done|].
        intros (l' & Heq & Hl')%list_elem_of_fmap. by apply (Hr l').
      * intros id x. rewrite (st_id _ _ Hs), Hls'. destruct (decide (RL_ID o = id)) as [<-|Hne'].
        -- rewrite lookup_insert_eq. split.
           ++ intros [= <-]. split; [by left|]. unfold id_of. by rewrite Ho.
           ++ intros [[->|Hx] Hxid]; [done|].
              assert (byID crls !! RL_ID o = Some x) by (by apply (wf_byID _ _ _ Hw)). congruence.
        -- rewrite lookup_insert_ne, (wf_byID _ _ _ Hw) by done. split; [tauto|].
           intros [[->|Hx] Hxid]; [|done]. unfold id_of in Hxid. rewrite Ho in Hxid. done.
      * intros i x. rewrite (Hidx i x). cbn [app]. rewrite elem_of_range_set, Hls'. simpl. split.
        -- intros [[? ?]|[-> ?]]; [tauto|]. split; [by left|]. unfold ifs_of. by rewrite Ho'.
        -- intros [[->|?] Hi]; [right|by left]. split; [done|]. unfold ifs_of in Hi. by rewrite Ho' in Hi.
    + intros i. simpl. rewrite Hm. destruct (decide (i ∈ RL_Interfaces o)).
      * by rewrite decide_True by (by apply elem_of_range_set).
      * rewrite decide_False; [done|]. by rewrite elem_of_range_set.
Qed.
End insert.

(** ** Transactions, one direction *)

Definition id_text (dir : TrafficDirection) (suffix : string) : string :=
  (TrafficDirection_String dir +:+ "-" +:+ suffix)%string.

(** The head of a transaction over the lists of the cache: a head list is the
    copy of a cached list with its ID or has rules the cache does not have; a
    cached list is copied before one of its interfaces is touched, with all of
    them; the IDs in use are allocated. *)
Record txn_inv (dir : TrafficDirection) (h : heap) (base head : ContivRuleLists) (bls hls : list positive)
    (allocated : gset string) : Prop := {
  ti_base : wf h base bls;
  ti_head : wf h head hls;
  ti_disj l : l ∈ bls → l ∉ hls;
  ti_known l : l ∈ hls →
    match byID base !! id_of h l with
    | Some b => rules_of h l = rules_of h b
    | None => ∀ b, b ∈ bls → rules_of h b ≠ rules_of h l
    end;
  ti_tracked i b : byInterface base !! i = Some b → is_Some (byID head !! id_of h b) →
    is_Some (byInterface head !! i);
  ti_copied i b : byInterface base !! i = Some b → is_Some (byInterface head !! i) →
    is_Some (byID head !! id_of h b);
  ti_alloc id : is_Some (byID base !! id) ∨ is_Some (byID head !! id) →
    ∃ suffix, id = id_text dir suffix ∧ suffix ∈ allocated
}.

(** The rules of an interface as the transaction sees them. *)
Definition view (h : heap) (base head : ContivRuleLists) (i : string) : option (option (list ContivRule)) :=
  match byInterface head !! i with
  | Some l => Some (rules_of h l)
  | None => rules_of h <$> byInterface base !! i
  end.

(** Before the renderer touches it, a copy has the private data of its original. *)
Definition priv_synced (h : heap) (base : ContivRuleLists) (hls : list positive) : Prop :=
  ∀ l b, l ∈ hls → byID base !! id_of h l = Some b → priv_of h l = priv_of h b.

Lemma priv_synced_frame h h' base bls hls :
  wf h base bls → (∀ l, l ∈ bls ∨ l ∈ hls → h' !! l = h !! l) → priv_synced h base hls → priv_synced h' base hls.
Proof.
  intros Hw Heq Hs l b Hl. unfold id_of. rewrite Heq by (by right). intros Hb.
  pose proof (proj1 (wf_byID _ _ _ Hw _ _) Hb) as [Hbb _]. unfold priv_of. rewrite !Heq by auto. by apply Hs.
Qed.

Lemma txn_inv_frame dir h h' base head bls hls allocated :
  (∀ l, l ∈ bls ∨ l ∈ hls → h' !! l = h !! l) →
  txn_inv dir h base head bls hls allocated → txn_inv dir h' base head bls hls allocated.
Proof.
  intros Heq [Hb Hh Hd Hk Ht Hc Ha].
  assert (∀ l, l ∈ bls ∨ l ∈ hls → rules_of h' l = rules_of h l ∧ id_of h' l = id_of h l) as Hsame.
  { intros l Hl. unfold rules_of, id_of. by rewrite Heq. }
  assert (∀ i b, byInterface base !! i = Some b → id_of h' b = id_of h b) as Hidb.
  { intros i b [Hin _]%(wf_byIf _ _ _ Hb). apply Hsame. by left. }
  split; [eapply wf_frame; [|done]; auto|eapply wf_frame; [|done]; auto|done| | | |done].
  - intros l Hl. destruct (Hsame l) as [-> ->]; [by right|]. specialize (Hk l Hl).
    destruct (byID base !! id_of h l) as [b|] eqn:E.
    + apply (wf_byID _ _ _ Hb) in E as [Hb' _]. destruct (Hsame b) as [-> _]; [by left|]. done.
    + intros b Hb'. destruct (Hsame b) as [-> _]; [by left|]. by apply Hk.
  - intros i b Hib. rewrite (Hidb i b Hib). by apply Ht.
  - intros i b Hib. rewrite (Hidb i b Hib). by apply Hc.
Qed.

Lemma view_frame h h' base head bls hls i :
  wf h base bls → wf h head hls → (∀ l, l ∈ bls ∨ l ∈ hls → rules_of h' l = rules_of h l) →
  view h' base head i = view h base head i.
Proof.
  intros Hb Hh Heq. unfold view. destruct (byInterface head !! i) as [l|] eqn:E.
  - apply (wf_byIf _ _ _ Hh) in E as [? _]. rewrite Heq by (by right). done.
  - destruct (byInterface base !! i) as [b|] eqn:E'; [|done]. apply (wf_byIf _ _ _ Hb) in E' as [? _].
    simpl. by rewrite Heq by (by left).
Qed.

Section head_insert.
Context `{RangeOracle} (dir : TrafficDirection) (h : heap) (base head : ContivRuleLists)
  (bls hls : list positive) (allocated : gset string).
Hypothesis Hinv : txn_inv dir h base head bls hls allocated.

(** What the insertion of a new object [o] at [l] leaves: the heap [h'] and the
    head [head'] with the lists [hls']. *)
Record inserted (o : ContivRuleList) (l : positive) (h' : heap) (head' : ContivRuleLists) (hls' : list positive) : Prop := {
  in_new : (l ∉ hls) ∧ (l ∉ bls);
  in_wf : wf h' head' hls';
  in_lists x : x ∈ hls' ↔ x = l ∨ x ∈ hls;
  in_frame x : is_Some (h !! x) → x ∉ hls → h' !! x = h !! x;
  in_same x : x ∈ bls ∨ x ∈ hls → rules_of h' x = rules_of h x ∧ id_of h' x = id_of h x ∧ priv_of h' x = priv_of h x;
  in_object : rules_of h' l = RL_Rules o ∧ id_of h' l = RL_ID o ∧ priv_of h' l = RL_Private o;
  in_byID : byID head' = <[RL_ID o := l]> (byID head);
  in_byIf i : byInterface head' !! i = if decide (i ∈ RL_Interfaces o) then Some l else byInterface head !! i
}.

Lemma head_inserted o : byID head !! RL_ID o = None → (∀ l, l ∈ hls → rules_of h l ≠ RL_Rules o) →
  ∃ h' head' hls', Insert_list (alloc h o).1 head (alloc h o).2 = Some (h', head', true) ∧ inserted o (alloc h o).2 h' head' hls' ∧
    h !! (alloc h o).2 = None.
Proof.
  intros Hid Hrules. unfold alloc; simpl. set (l := fresh (dom h)). set (h1 := <[l := o]> h).
  assert (h !! l = None) as Hl by (apply not_elem_of_dom; apply is_fresh).
  destruct Hinv as [Hb Hh _ _ _ _ _].
  assert (∀ x, is_Some (h !! x) → h1 !! x = h !! x) as Hh1.
  { intros x [ox Hx]. unfold h1. apply lookup_insert_ne. congruence. }
  assert ((l ∉ hls) ∧ (l ∉ bls)) as [Hlh Hlb].
  { split; intros Hin; [destruct (wf_heap _ _ _ Hh l Hin)|destruct (wf_heap _ _ _ Hb l Hin)]; congruence. }
  assert (∀ x, x ∈ bls ∨ x ∈ hls → h1 !! x = h !! x) as Hh1'.
  { intros x [Hx|Hx]; apply Hh1; [by apply (wf_heap _ _ _ Hb)|by apply (wf_heap _ _ _ Hh)]. }
  destruct (Insert_list_spec hls l Hlh h1 head o) as (h' & head' & hls' & Hins & Hperm & Hw' & Hs & Hne & HbyID & HbyIf).
  { eapply wf_frame; [|done]. auto. }
  { apply lookup_insert_eq. }
  { done. }
  { intros x Hx. unfold rules_of. rewrite Hh1' by (by right). by apply Hrules. }
  exists h', head', hls'. split; [exact Hins|]. split; [|done]. split; [done|done| | | | |done|done].
  - intros x. by rewrite Hperm, elem_of_cons.
  - intros x Hx Hxh. rewrite Hne by done. by apply Hh1.
  - intros x Hx. rewrite (st_rules _ _ Hs), (st_id _ _ Hs), (st_priv _ _ Hs). unfold rules_of, id_of, priv_of. by rewrite Hh1'.
  - unfold rules_of, id_of, priv_of. rewrite Hne by done. unfold h1. by rewrite lookup_insert_eq.
Qed.

Section inserted.
Context (o : ContivRuleList) (l : positive) (h' : heap) (head' : ContivRuleLists) (hls' : list positive).
Hypothesis Hin : inserted o l h' head' hls'.

Lemma base_interface i b : byInterface base !! i = Some b → b ∈ bls.
Proof. intros [Hb _]%(wf_byIf _ _ _ (ti_base _ _ _ _ _ _ _ Hinv)). exact Hb. Qed.

Lemma base_id id b : byID base !! id = Some b → b ∈ bls.
Proof. intros [Hb _]%(wf_byID _ _ _ (ti_base _ _ _ _ _ _ _ Hinv)). exact Hb. Qed.

Lemma base_frame b : b ∈ bls → h' !! b = h !! b.
Proof.
  intros Hb. destruct Hinv as [Hwf _ Hd _ _ _ _]. apply (in_frame _ _ _ _ _ Hin); [by apply (wf_heap _ _ _ Hwf)|by apply Hd].
Qed.

(** A list of the base as a list of the head sees it. *)
Lemma inserted_known : (match byID base !! RL_ID o with
    | Some b => RL_Rules o = rules_of h b ∧ ifs_of h b ⊆ RL_Interfaces o
    | None => ∀ b, b ∈ bls → rules_of h b ≠ RL_Rules o end) →
  ∀ x, x ∈ hls' → match byID base !! id_of h' x with
    | Some b => rules_of h' x = rules_of h' b
    | None => ∀ b, b ∈ bls → rules_of h' b ≠ rules_of h' x end.
Proof.
  intros Hknown x [->|Hx]%(in_lists _ _ _ _ _ Hin).
  - destruct (in_object _ _ _ _ _ Hin) as (-> & -> & _). destruct (byID base !! RL_ID o) as [b|] eqn:E.
    + destruct (in_same _ _ _ _ _ Hin b) as [-> _]; [left; by eapply base_id|]. tauto.
    + intros b Hbb. destruct (in_same _ _ _ _ _ Hin b) as [-> _]; [by left|]. by apply Hknown.
  - destruct (in_same _ _ _ _ _ Hin x) as (-> & -> & _); [by right|]. pose proof (ti_known _ _ _ _ _ _ _ Hinv x Hx) as Hk.
    destruct (byID base !! id_of h x) as [b|] eqn:E.
    + destruct (in_same _ _ _ _ _ Hin b) as [-> _]; [left; by eapply base_id|]. done.
    + intros b Hbb. destruct (in_same _ _ _ _ _ Hin b) as [-> _]; [by left|]. by apply Hk.
Qed.

Lemma inserted_inv : (match byID base !! RL_ID o with
    | Some b => RL_Rules o = rules_of h b ∧ ifs_of h b ⊆ RL_Interfaces o
    | None => ∀ b, b ∈ bls → rules_of h b ≠ RL_Rules o end) →
  (∀ j b, j ∈ RL_Interfaces o → byInterface base !! j = Some b → id_of h b = RL_ID o ∨ is_Some (byID head !! id_of h b)) →
  (∃ suffix, RL_ID o = id_text dir suffix ∧ suffix ∈ allocated) →
  txn_inv dir h' base head' bls hls' allocated.
Proof.
  intros Hknown Hcop Hal. pose proof (inserted_known Hknown) as Hk'. destruct Hinv as [Hb Hh Hd Hk Ht Hc Ha].
  pose proof (in_same _ _ _ _ _ Hin) as Hsame. pose proof (in_byID _ _ _ _ _ Hin) as HbyID. pose proof (in_byIf _ _ _ _ _ Hin) as HbyIf. split.
  - eapply wf_frame; [|done]. intros x Hx. by apply base_frame.
  - apply Hin.
  - intros x Hx [->|Hx']%(in_lists _ _ _ _ _ Hin); [by apply (in_new _ _ _ _ _ Hin)|]. by apply (Hd x).
  - exact Hk'.
  - intros i b Hib. destruct (Hsame b) as (_ & -> & _); [left; by eapply base_interface|].
    rewrite HbyID, HbyIf. destruct (decide (i ∈ RL_Interfaces o)); [by eauto|].
    rewrite lookup_insert_is_Some. intros [Heq|[_ Hsome]]; [|by eapply Ht].
    exfalso. assert (byID base !! RL_ID o = Some b) as E.
    { apply (wf_byID _ _ _ Hb). split; [by eapply base_interface|done]. }
    rewrite E in Hknown. destruct Hknown as [_ Hsub]. apply (wf_byIf _ _ _ Hb) in Hib as [_ Hi]. set_solver.
  - intros i b Hib. destruct (Hsame b) as (_ & -> & _); [left; by eapply base_interface|].
    rewrite HbyID, HbyIf. rewrite lookup_insert_is_Some. destruct (decide (i ∈ RL_Interfaces o)) as [Hi|Hi].
    + intros _. destruct (Hcop i b Hi Hib) as [->|?]; [by left|].
      destruct (decide (RL_ID o = id_of h b)); [by left|by right].
    + intros Hsome. pose proof (Hc i b Hib Hsome) as ?. destruct (decide (RL_ID o = id_of h b)); [by left|by right].
  - intros id. rewrite HbyID, lookup_insert_is_Some. intros [?|[<-|[_ ?]]]; [apply Ha; by left|done|apply Ha; by right].
Qed.

Lemma inserted_priv : priv_synced h base hls → (∀ b, byID base !! RL_ID o = Some b → RL_Private o = priv_of h b) → priv_synced h' base hls'.
Proof.
  intros Hps Hpo x b Hx Hxb. assert (priv_of h' b = priv_of h b) as ->.
  { apply (in_same _ _ _ _ _ Hin). left. by eapply base_id. }
  apply (in_lists _ _ _ _ _ Hin) in Hx as [->|Hx].
  - destruct (in_object _ _ _ _ _ Hin) as (_ & Hlid & ->). rewrite Hlid in Hxb. by apply Hpo.
  - destruct (in_same _ _ _ _ _ Hin x) as (_ & Hxid & ->); [by right|]. rewrite Hxid in Hxb. by apply Hps.
Qed.

Lemma inserted_view i : view h' base head' i = if decide (i ∈ RL_Interfaces o) then Some (RL_Rules o) else view h base head i.
Proof.
  unfold view. rewrite (in_byIf _ _ _ _ _ Hin). destruct (decide (i ∈ RL_Interfaces o)); [by destruct (in_object _ _ _ _ _ Hin) as (-> & _)|].
  destruct (byInterface head !! i) as [x|] eqn:E.
  - apply (wf_byIf _ _ _ (ti_head _ _ _ _ _ _ _ Hinv)) in E as [? _]. destruct (in_same _ _ _ _ _ Hin x) as [-> _]; [by right|]. done.
  - destruct (byInterface base !! i) as [b|] eqn:E'; [|done]. simpl.
    destruct (in_same _ _ _ _ _ Hin b) as [-> _]; [left; by eapply base_interface|]. done.
Qed.
End inserted.

(** A new object is inserted into the head. *)
Lemma head_insert o :
  byID head !! RL_ID o = None → (∀ l, l ∈ hls → rules_of h l ≠ RL_Rules o) →
  (match byID base !! RL_ID o with
  | Some b => RL_Rules o = rules_of h b ∧ ifs_of h b ⊆ RL_Interfaces o
  | None => ∀ b, b ∈ bls → rules_of h b ≠ RL_Rules o
  end) →
  (∀ j b, j ∈ RL_Interfaces o → byInterface base !! j = Some b →
     id_of h b = RL_ID o ∨ is_Some (byID head !! id_of h b)) →
  (∃ suffix, RL_ID o = id_text dir suffix ∧ suffix ∈ allocated) →
  ∃ h' head' hls',
    Insert_list (alloc h o).1 head (alloc h o).2 = Some (h', head', true) ∧
    txn_inv dir h' base head' bls hls' allocated ∧
    (∀ l, is_Some (h !! l) → l ∉ hls → h' !! l = h !! l) ∧
    (∀ l, l ∈ hls' → l ∈ hls ∨ h !! l = None) ∧
    byID head' = <[RL_ID o := (alloc h o).2]> (byID head) ∧
    (priv_synced h base hls → (∀ b, byID base !! RL_ID o = Some b → RL_Private o = priv_of h b) →
     priv_synced h' base hls') ∧
    (∀ i, view h' base head' i = if decide (i ∈ RL_Interfaces o) then Some (RL_Rules o) else view h base head i).
Proof.
  intros Hid Hrules Hknown Hcop Hal. destruct (head_inserted o Hid Hrules) as (h' & head' & hls' & Hins & Hin & Hl).
  exists h', head', hls'. split; [exact Hins|]. split; [by eapply inserted_inv|]. split; [apply Hin|].
  split; [intros x [->|?]%(in_lists _ _ _ _ _ Hin); [by right|by left]|]. split; [apply Hin|].
  split; [by eapply inserted_priv|by eapply inserted_view].
Qed.
End head_insert.

(** Enough randomness for [n] new IDs: distinct draws that are not in use. *)
Definition supply (n : nat) (rands : list (list Z)) (allocated : gset string) : Prop :=
  NoDup (Sprintf_X <$> rands) ∧ (∀ b, b ∈ rands → Sprintf_X b ∉ allocated) ∧ n ≤ length rands.

Lemma generateListID_spec dir n rands allocated used :
  supply (S n) rands used → allocated ⊆ used →
  ∃ suffix rands', generateListID dir rands allocated =
      Some (id_text dir suffix, {[ suffix ]} ∪ allocated, rands') ∧
    (suffix ∉ allocated) ∧ supply n rands' ({[ suffix ]} ∪ used).
Proof.
  intros (Hnd & Hnew & Hlen) Hsub. destruct rands as [|b rands]; simpl in *; [lia|].
  unfold generateListID. simpl. apply NoDup_cons in Hnd as [Hb Hnd].
  assert (Sprintf_X b ∉ used) as Hbn by (apply Hnew; by left).
  rewrite bool_decide_false by set_solver. simpl. exists (Sprintf_X b), rands. unfold supply.
  split_and!; [done|set_solver|done| |lia].
  intros b' Hb'. rewrite elem_of_union, elem_of_singleton. intros [Heq|Hin].
  - apply Hb. rewrite <-Heq. by apply list_elem_of_fmap_2.
  - by apply (Hnew b'); [right|].
Qed.

Lemma supply_mono n m rands allocated : m ≤ n → supply n rands allocated → supply m rands allocated.
Proof. intros ? (?&?&?). split_and!; [done..|lia]. Qed.

Lemma id_text_inj dir s s' : id_text dir s = id_text dir s' → s = s'.
Proof. unfold id_text. intros H%append_inj_l%append_inj_l. done. Qed.

(** What an update of one interface changes in the heap. *)
Definition only_head (h h' : heap) (hls hls' : list positive) : Prop :=
  (∀ l, is_Some (h !! l) → l ∉ hls → h' !! l = h !! l) ∧
  (∀ l, l ∈ hls' → l ∈ hls ∨ h !! l = None).

Lemma only_head_trans h1 h2 h3 ls1 ls2 ls3 :
  only_head h1 h2 ls1 ls2 → only_head h2 h3 ls2 ls3 → only_head h1 h3 ls1 ls3.
Proof.
  intros [F1 N1] [F2 N2]. split.
  - intros l Hl Hn. assert (h2 !! l = h1 !! l) as Heq by (by apply F1).
    rewrite F2; [done|by rewrite Heq|]. intros [?|?]%N1; [done|]. destruct Hl. congruence.
  - intros l Hl. destruct (decide (l ∈ ls1)) as [|Hn]; [by left|right].
    destruct (h1 !! l) as [o|] eqn:E; [|done]. exfalso.
    assert (h2 !! l = Some o) as E2 by (rewrite F1; [done|by rewrite E|done]).
    destruct (N2 l Hl) as [?%N1|?]; [|congruence]. destruct H as [?|?]; [done|congruence].
Qed.

Section update_interface.
Context `{RangeOracle} (dir : TrafficDirection) (base : ContivRuleLists) (bls : list positive).

(** The first step: the list of the interface is in the head. *)
Lemma copy_orig h head hls allocated ifName :
  txn_inv dir h base head bls hls allocated →
  ∃ h' head' hls',
    (match LookupByInterface base ifName with
     | Some orig =>
       o ← h !! orig;
       match LookupByID head (RL_ID o) with
       | None =>
         let '(h, copy) := alloc h (shallow_copy o (RL_Interfaces o)) in
         '(h, head, _) ← Insert_list h head copy;
         Some (h, head)
       | Some _ => Some (h, head)
       end
     | None => Some (h, head)
     end) = Some (h', head') ∧
    txn_inv dir h' base head' bls hls' allocated ∧ only_head h h' hls hls' ∧
    (priv_synced h base hls → priv_synced h' base hls') ∧
    (∀ i, view h' base head' i = view h base head i) ∧
    (∀ b, byInterface base !! ifName = Some b → is_Some (byID head' !! id_of h' b)).
Proof.
  intros Hinv. pose proof Hinv as [Hb Hh Hd Hk Ht Hc Ha]. unfold LookupByInterface, LookupByID.
  destruct (byInterface base !! ifName) as [b|] eqn:E.
  2: { exists h, head, hls. split_and!; [done|done|split; auto|done|done|done]. }
  pose proof (proj1 (wf_byIf _ _ _ Hb _ _) E) as [Hbin Hbi].
  destruct (wf_heap _ _ _ Hb b Hbin) as [o Ho]. rewrite Ho. cbn [mbind option_bind].
  assert (id_of h b = RL_ID o ∧ rules_of h b = RL_Rules o ∧ ifs_of h b = RL_Interfaces o) as (Hid & Hr & Hi)
    by (unfold id_of, rules_of, ifs_of; by rewrite Ho).
  destruct (byID head !! RL_ID o) as [x|] eqn:Ex.
  { exists h, head, hls. split_and!; [done|done|split; auto|done|done|]. intros b' [= <-]. rewrite Hid, Ex. eauto. }
  assert (byID base !! RL_ID o = Some b) as Eb by (by apply (wf_byID _ _ _ Hb)).
  destruct (head_insert dir h base head bls hls allocated Hinv (shallow_copy o (RL_Interfaces o)))
    as (h' & head' & hls' & Hins & Hinv' & Hf & Hn & HbyID & Hps & Hv); simpl.
  - done.
  - intros l Hl Heq. specialize (Hk l Hl). destruct (byID base !! id_of h l) as [b'|] eqn:E'.
    + pose proof (proj1 (wf_byID _ _ _ Hb _ _) E') as [Hb' Hid'].
      assert (b' = b) as -> by (eapply (rules_unique h base bls); [done..|congruence]).
      assert (byID head !! id_of h l = Some l) as Hl' by (by apply (wf_byID _ _ _ Hh)). congruence.
    + apply (Hk b Hbin). congruence.
  - rewrite Eb, Hr, Hi. done.
  - intros j b' Hj Hjb. left. rewrite <-Hi in Hj.
    assert (byInterface base !! j = Some b) as Hjb' by (by apply (wf_byIf _ _ _ Hb)). congruence.
  - apply Ha. left. rewrite Eb. eauto.
  - simpl in Hins, HbyID, Hps, Hv. exists h', head', hls'. rewrite Hins. cbn [mbind option_bind].
    assert (h' !! b = h !! b) as Hbh by (apply Hf; [by rewrite Ho|by apply Hd]).
    split_and!; [done|done|done| | |].
    + intros Hs. apply Hps; [done|]. intros b'. rewrite Eb. intros [= <-]. unfold priv_of. by rewrite Ho.
    + intros i. rewrite Hv. destruct (decide (i ∈ RL_Interfaces o)) as [Hi'|]; [|done]. unfold view.
      rewrite <-Hi in Hi'. assert (byInterface base !! i = Some b) as Hib by (by apply (wf_byIf _ _ _ Hb)).
      destruct (byInterface head !! i) as [x|] eqn:Ei.
      * exfalso. assert (is_Some (byID head !! id_of h b)) as [y Hy] by (apply (Hc i b Hib); by rewrite Ei). congruence.
      * rewrite Hib. simpl. by rewrite Hr.
    + intros b' [= <-]. rewrite HbyID. unfold id_of. rewrite Hbh, Ho. simpl. rewrite lookup_insert_eq. eauto.
Qed.

Lemma txn_inv_alloc h head hls allocated allocated' :
  allocated ⊆ allocated' → txn_inv dir h base head bls hls allocated → txn_inv dir h base head bls hls allocated'.
Proof.
  intros Hsub [Hb Hh Hd Hk Ht Hc Ha]. split; [done..|]. intros id Hid.
  destruct (Ha id Hid) as (s & ? & ?). exists s. split; [done|]. set_solver.
Qed.

(** An interface assigned to a list of the head. *)
Lemma assign_found h head hls allocated ifName l :
  txn_inv dir h base head bls hls allocated → l ∈ hls →
  (∀ b, byInterface base !! ifName = Some b → is_Some (byID head !! id_of h b)) →
  ∃ h' head', AssignInterface h head l ifName = Some (h', head') ∧
    txn_inv dir h' base head' bls hls allocated ∧ only_head h h' hls hls ∧
    (priv_synced h base hls → priv_synced h' base hls) ∧
    (∀ i, view h' base head' i = if decide (i = ifName) then Some (rules_of h l) else view h base head i).
Proof.
  intros Hinv Hl Hcopied. pose proof Hinv as [Hb Hh Hd Hk Ht Hc Ha].
  destruct (AssignInterface_spec h head hls l ifName Hh Hl) as (h' & -> & Hs & Hne & Hw').
  set (head' := set_byInterface head (<[ifName := l]> (byInterface head))) in *. exists h', head'. split; [done|].
  assert (∀ x, x ∈ bls → h' !! x = h !! x) as Hb' by (intros x Hx; by apply Hne, Hd).
  split; [split|split; [|split]].
  - eapply wf_frame; [|done]. done.
  - done.
  - done.
  - intros x Hx. rewrite (st_id _ _ Hs), (st_rules _ _ Hs). specialize (Hk x Hx).
    destruct (byID base !! id_of h x); [by rewrite (st_rules _ _ Hs)|]. intros b Hbb. rewrite (st_rules _ _ Hs). by apply Hk.
  - intros i b Hib. rewrite (st_id _ _ Hs). simpl. intros Hsome. apply lookup_insert_is_Some.
    destruct (decide (ifName = i)); [by left|right]. split; [done|]. by apply (Ht i b).
  - intros i b Hib. rewrite (st_id _ _ Hs). simpl. intros [<-|[_ Hsome]]%lookup_insert_is_Some; [by apply Hcopied|].
    by apply (Hc i b).
  - done.
  - split; [|by left]. intros x _ Hx. by apply Hne.
  - intros Hps x b Hx. rewrite (st_id _ _ Hs), !(st_priv _ _ Hs). by apply Hps.
  - intros i. unfold view. simpl. destruct (decide (i = ifName)) as [->|Hne'].
    + by rewrite lookup_insert_eq, (st_rules _ _ Hs).
    + rewrite lookup_insert_ne by done. destruct (byInterface head !! i); [by rewrite (st_rules _ _ Hs)|].
      destruct (byInterface base !! i); [|done]. simpl. by rewrite (st_rules _ _ Hs).
Qed.

(** A cached list gains the interface; its copy goes into the head. *)
Lemma copy_with_interface h head hls allocated ifName b o :
  txn_inv dir h base head bls hls allocated →
  (∀ b, byInterface base !! ifName = Some b → is_Some (byID head !! id_of h b)) →
  (∀ l, l ∈ hls → rules_of h l ≠ rules_of h b) → b ∈ bls → h !! b = Some o →
  (ifName ∉ RL_Interfaces o) ∧
  ∃ h' head' hls',
    Insert_list (alloc h (shallow_copy o ({[ ifName ]} ∪ RL_Interfaces o))).1 head
      (alloc h (shallow_copy o ({[ ifName ]} ∪ RL_Interfaces o))).2 = Some (h', head', true) ∧
    txn_inv dir h' base head' bls hls' allocated ∧ only_head h h' hls hls' ∧
    (priv_synced h base hls → priv_synced h' base hls') ∧
    (∀ i, view h' base head' i = if decide (i = ifName) then Some (RL_Rules o) else view h base head i).
Proof.
  intros Hinv Hcopied Hnew Hbin Ho. pose proof Hinv as [Hb Hh Hd Hk Ht Hc Ha].
  assert (id_of h b = RL_ID o ∧ rules_of h b = RL_Rules o ∧ ifs_of h b = RL_Interfaces o) as (Hid & Hr & Hi)
    by (unfold id_of, rules_of, ifs_of; by rewrite Ho).
  assert (byID base !! RL_ID o = Some b) as Eb by (by apply (wf_byID _ _ _ Hb)).
  assert (byID head !! RL_ID o = None) as Eh.
  { destruct (byID head !! RL_ID o) as [x|] eqn:Ex; [|done]. exfalso.
    apply (wf_byID _ _ _ Hh) in Ex as [Hx Hxid]. specialize (Hk x Hx). rewrite Hxid, Eb in Hk. by apply (Hnew x). }
  split.
  { intros Hin. rewrite <-Hi in Hin.
    assert (byInterface base !! ifName = Some b) as E by (by apply (wf_byIf _ _ _ Hb)).
    destruct (Hcopied b E) as [x Hx]. congruence. }
  destruct (head_insert dir h base head bls hls allocated Hinv (shallow_copy o ({[ ifName ]} ∪ RL_Interfaces o)))
    as (h' & head' & hls' & Hins & Hinv' & Hf & Hn & HbyID & Hps & Hv); simpl in *.
  - done.
  - intros l Hl. rewrite <-Hr. by apply Hnew.
  - rewrite Eb, Hr, Hi. split; [done|]. set_solver.
  - intros j b' Hj Hjb. apply elem_of_union in Hj as [->%elem_of_singleton|Hj]; [right; by apply Hcopied|left].
    rewrite <-Hi in Hj. assert (byInterface base !! j = Some b) as Hjb' by (by apply (wf_byIf _ _ _ Hb)). congruence.
  - apply Ha. left. rewrite Eb. eauto.
  - exists h', head', hls'. split; [done|]. split; [done|]. split; [done|]. split.
    { intros Hs. apply Hps; [done|]. intros b'. rewrite Eb. intros [= <-]. unfold priv_of. by rewrite Ho. }
    intros i. rewrite Hv. destruct (decide (i = ifName)) as [->|Hne]; [by rewrite decide_True by set_solver|].
    destruct (decide (i ∈ {[ ifName ]} ∪ RL_Interfaces o)) as [Hin|]; [|done].
    assert (i ∈ ifs_of h b) as Hib by (rewrite Hi; set_solver). unfold view.
    assert (byInterface base !! i = Some b) as Eib by (by apply (wf_byIf _ _ _ Hb)).
    destruct (byInterface head !! i) as [x|] eqn:Ei; [|rewrite Eib; simpl; by rewrite Hr].
    exfalso. assert (is_Some (byID head !! id_of h b)) as [y Hy] by (apply (Hc i b Eib); by rewrite Ei). congruence.
Qed.

Lemma new_list h head hls allocated ifName rules suffix :
  txn_inv dir h base head bls hls allocated →
  (∀ b, byInterface base !! ifName = Some b → is_Some (byID head !! id_of h b)) →
  (∀ l, l ∈ hls → rules_of h l ≠ rules) → (∀ b, b ∈ bls → rules_of h b ≠ rules) → suffix ∉ allocated →
  let o := mkContivRuleList (id_text dir suffix) rules {[ ifName ]} None in
  ∃ h' head' hls', Insert_list (alloc h o).1 head (alloc h o).2 = Some (h', head', true) ∧
    txn_inv dir h' base head' bls hls' ({[ suffix ]} ∪ allocated) ∧ only_head h h' hls hls' ∧
    (priv_synced h base hls → priv_synced h' base hls') ∧
    (∀ i, view h' base head' i = if decide (i = ifName) then Some rules else view h base head i).
Proof.
  intros Hinv Hcopied Hnh Hnb Hsuf o. pose proof Hinv as [Hb Hh Hd Hk Ht Hc Ha].
  assert (∀ id, is_Some (byID base !! id) ∨ is_Some (byID head !! id) → id ≠ id_text dir suffix) as Hfresh.
  { intros id Hid ->. destruct (Ha _ Hid) as (s & Heq%id_text_inj & Hs). by subst. }
  assert (byID base !! id_text dir suffix = None ∧ byID head !! id_text dir suffix = None) as [Eb Eh].
  { split; apply eq_None_not_Some; intros Hs; (eapply Hfresh; [|done]); auto. }
  assert (txn_inv dir h base head bls hls ({[ suffix ]} ∪ allocated)) as Hinv1
    by (eapply txn_inv_alloc; [|done]; set_solver).
  destruct (head_insert dir h base head bls hls ({[ suffix ]} ∪ allocated) Hinv1 o)
    as (h' & head' & hls' & Hins & Hinv' & Hf & Hn & HbyID & Hps & Hv); unfold o in *; cbn [RL_ID RL_Rules RL_Interfaces] in *.
  - done.
  - done.
  - by rewrite Eb.
  - intros j b ->%elem_of_singleton Hjb. right. by apply Hcopied.
  - exists suffix. split; [done|]. set_solver.
  - exists h', head', hls'. split; [done|]. split; [done|]. split; [done|]. split.
    { intros Hs. apply Hps; [done|]. intros b'. by rewrite Eb. }
    intros i. rewrite Hv. destruct (decide (i = ifName)); [by rewrite decide_True by set_solver|by rewrite decide_False by set_solver].
Qed.

(** [updateInterface] replaces the rules of the interface. *)
Lemma updateInterface_spec h head hls allocated rands n used ifName rules :
  txn_inv dir h base head bls hls allocated → supply (S n) rands used → allocated ⊆ used →
  ∃ h' head' hls' allocated' rands' used',
    updateInterface h ifName rules dir head base allocated rands = Some (h', head', allocated', rands') ∧
    txn_inv dir h' base head' bls hls' allocated' ∧ only_head h h' hls hls' ∧
    supply n rands' used' ∧ allocated' ⊆ used' ∧ used ⊆ used' ∧
    (priv_synced h base hls → priv_synced h' base hls') ∧
    (∀ i, view h' base head' i = if decide (i = ifName) then Some rules else view h base head i).
Proof.
  intros Hinv Hsup Hsub. unfold updateInterface.
  destruct (copy_orig h head hls allocated ifName Hinv) as (h1 & head1 & hls1 & -> & Hinv1 & Ho1 & Hp1 & Hv1 & Hcop).
  cbn [mbind option_bind]. pose proof Hinv1 as [Hb1 Hh1 _ _ _ _ _].
  assert (supply n rands used) as Hsup' by (eapply supply_mono; [|done]; lia).
  destruct (LookupByRules_spec h1 head1 hls1 rules Hh1) as (r & -> & Hr). cbn [mbind option_bind].
  destruct r as [l|].
  { destruct Hr as [Hl <-]. destruct (assign_found h1 head1 hls1 allocated ifName l Hinv1 Hl Hcop)
      as (h2 & head2 & -> & Hinv2 & Ho2 & Hp2 & Hv2). cbn [mbind option_bind].
    exists h2, head2, hls1, allocated, rands, used. split_and!; [done|done|by eapply only_head_trans|done|done|done|auto|].
    intros i. by rewrite Hv2, Hv1. }
  destruct (LookupByRules_spec h1 base bls rules Hb1) as (r & -> & Hr'). cbn [mbind option_bind].
  destruct r as [b|].
  - destruct Hr' as [Hbin <-]. destruct (wf_heap _ _ _ Hb1 b Hbin) as [o Ho]. rewrite Ho. cbn [mbind option_bind].
    destruct (copy_with_interface h1 head1 hls1 allocated ifName b o Hinv1 Hcop Hr Hbin Ho)
      as (Hni & h2 & head2 & hls2 & Hins & Hinv2 & Ho2 & Hp2 & Hv2).
    rewrite bool_decide_false by done. unfold alloc in *. cbn [fst snd] in Hins. rewrite Hins. cbn [mbind option_bind].
    exists h2, head2, hls2, allocated, rands, used. split_and!; [done|done|by eapply only_head_trans|done|done|done|auto|].
    intros i. rewrite Hv2, Hv1. unfold rules_of. by rewrite Ho.
  - destruct (generateListID_spec dir n rands allocated used Hsup Hsub) as (suffix & rands' & -> & Hsuf & Hsup'').
    cbn [mbind option_bind].
    destruct (new_list h1 head1 hls1 allocated ifName rules suffix Hinv1 Hcop Hr Hr' Hsuf)
      as (h2 & head2 & hls2 & Hins & Hinv2 & Ho2 & Hp2 & Hv2).
    unfold alloc in *. cbn [fst snd] in Hins. rewrite Hins. cbn [mbind option_bind].
    exists h2, head2, hls2, ({[ suffix ]} ∪ allocated), rands', ({[ suffix ]} ∪ used).
    split_and!; [done|done|by eapply only_head_trans|done|set_solver|set_solver|auto|].
    intros i. by rewrite Hv2, Hv1.
Qed.
End update_interface.

(** ** Commit, one direction *)

(** The heaps differ in interfaces and private data only. *)
Record same_data (h h' : heap) : Prop := {
  sd_dom l : is_Some (h' !! l) ↔ is_Some (h !! l);
  sd_rules l : rules_of h' l = rules_of h l;
  sd_id l : id_of h' l = id_of h l
}.

#[global] Instance same_data_refl : Reflexive same_data.
Proof. by split. Qed.

#[global] Instance same_data_trans : Transitive same_data.
Proof.
  intros h1 h2 h3 [D1 R1 I1] [D2 R2 I2]. split; intros l; [rewrite D2; apply D1|by rewrite R2|by rewrite I2].
Qed.

Lemma static_same_data h h' : static h h' → same_data h h'.
Proof. intros [D R I _]. by split. Qed.

Lemma set_Private_spec h crls ls l o p :
  wf h crls ls → h !! l = Some o →
  let h' := <[l := set_Private o p]> h in
  same_data h h' ∧ (∀ l', l' ≠ l → h' !! l' = h !! l') ∧ wf h' crls ls.
Proof.
  intros Hw Ho h'.
  assert (∀ l', (is_Some (h' !! l') ↔ is_Some (h !! l')) ∧ rules_of h' l' = rules_of h l' ∧
    id_of h' l' = id_of h l' ∧ ifs_of h' l' = ifs_of h l') as Hall.
  { intros l'. unfold rules_of, id_of, ifs_of, h'. destruct (decide (l = l')) as [<-|Hne].
    - rewrite lookup_insert_eq, Ho. done.
    - by rewrite lookup_insert_ne. }
  split; [split; intros l'; apply Hall|]. split; [intros l' Hne; by apply lookup_insert_ne|].
  split; [apply Hw|apply Hw| | | |].
  - intros l' Hl'. apply Hall. by apply (wf_heap _ _ _ Hw).
  - rewrite (list_fmap_ext _ (rules_of h)); [apply Hw|]. intros i l' _. apply Hall.
  - intros id l'. destruct (Hall l') as (_ & _ & -> & _). apply (wf_byID _ _ _ Hw).
  - intros i l'. destruct (Hall l') as (_ & _ & _ & ->). apply (wf_byIf _ _ _ Hw).
Qed.

Section commit_loops.
Context (ls : list positive) (b : positive) (keep : gset string).
Hypothesis Hb : b ∈ ls.

(** The interfaces the list loses. *)
Lemma unassign_loop L h base :
  wf h base ls → NoDup L →
  ∃ h' m, foldM (λ '(h, base) iface,
      if bool_decide (iface ∈ keep) then Some (h, base) else UnassignInterface h base (Some b) iface) (h, base) L =
    Some (h', set_byInterface base m) ∧ wf h' (set_byInterface base m) ls ∧ static h h' ∧
    (∀ l, l ∉ ls → h' !! l = h !! l) ∧
    (∀ i, m !! i = if decide (i ∈ L ∧ (i ∉ keep) ∧ byInterface base !! i = Some b) then None else byInterface base !! i).
Proof.
  intros Hw Hnd. revert h base Hw. induction Hnd as [|i L Hi _ IH]; intros h base Hw; cbn [foldM].
  { exists h, (byInterface base). rewrite set_byInterface_id. split_and!; [done..|]. intros i.
    rewrite decide_False; [done|]. intros [?%elem_of_nil _]. done. }
  case_bool_decide as Hk; cbn [mbind option_bind].
  - destruct (IH h base Hw) as (h' & m & -> & Hw' & Hs & Hne & Hm). exists h', m. split_and!; [done..|].
    intros j. rewrite Hm. apply decide_ext. rewrite elem_of_cons. split; [tauto|].
    intros ([->|?] & ? & ?); [done|tauto].
  - destruct (Unassign_Some_spec h base ls b i Hw Hb) as (h1 & -> & Hs1 & Hne1 & Hw1). cbn [mbind option_bind].
    set (m1 := if decide _ then _ else _) in *.
    destruct (IH h1 (set_byInterface base m1) Hw1) as (h' & m & -> & Hw' & Hs & Hne & Hm).
    exists h', m. split; [done|]. split; [done|]. split; [by etrans|]. split.
    + intros l Hl. rewrite Hne by done. apply Hne1. by intros ->.
    + intros j. rewrite Hm. simpl. unfold m1. destruct (decide (byInterface base !! i = Some b)) as [Hib|Hib].
      * destruct (decide (i = j)) as [<-|Hij].
        -- rewrite lookup_delete_eq. rewrite (decide_True (P := i ∈ i :: L ∧ _)) by (split_and!; [by left|done|done]).
           by destruct (decide _).
        -- rewrite lookup_delete_ne by done. apply decide_ext. rewrite elem_of_cons. naive_solver.
      * apply decide_ext. rewrite elem_of_cons. naive_solver.
Qed.

(** The interfaces the list gets. *)
Lemma assign_loop L h base :
  wf h base ls →
  ∃ h' m, foldM (λ '(h, base) iface,
      oo ← h !! b;
      if bool_decide (iface ∈ RL_Interfaces oo) then Some (h, base) else AssignInterface h base b iface) (h, base) L =
    Some (h', set_byInterface base m) ∧ wf h' (set_byInterface base m) ls ∧ static h h' ∧
    (∀ l, l ∉ ls → h' !! l = h !! l) ∧
    (∀ i, m !! i = if decide (i ∈ L) then Some b else byInterface base !! i).
Proof.
  revert h base. induction L as [|i L IH]; intros h base Hw; cbn [foldM].
  { exists h, (byInterface base). rewrite set_byInterface_id. split_and!; [done..|]. intros i.
    rewrite decide_False; [done|]. apply not_elem_of_nil. }
  destruct (wf_heap _ _ _ Hw b Hb) as [oo Hoo]. rewrite Hoo. cbn [mbind option_bind].
  case_bool_decide as Hi; cbn [mbind option_bind].
  - destruct (IH h base Hw) as (h' & m & -> & Hw' & Hs & Hne & Hm). exists h', m. split_and!; [done..|].
    intros j. rewrite Hm. destruct (decide (j ∈ L)) as [|Hj]; [by rewrite decide_True by (by right)|].
    destruct (decide (i = j)) as [<-|Hij].
    + rewrite decide_True by (by left). apply (wf_byIf _ _ _ Hw). split; [done|]. unfold ifs_of. by rewrite Hoo.
    + rewrite decide_False by (rewrite elem_of_cons; naive_solver). done.
  - destruct (AssignInterface_spec h base ls b i Hw Hb) as (h1 & -> & Hs1 & Hne1 & Hw1). cbn [mbind option_bind].
    destruct (IH h1 _ Hw1) as (h' & m & -> & Hw' & Hs & Hne & Hm). exists h', m.
    split; [done|]. split; [done|]. split; [by etrans|]. split.
    + intros l Hl. by rewrite Hne, Hne1.
    + intros j. rewrite Hm. simpl. destruct (decide (j ∈ L)) as [|Hj]; [by rewrite decide_True by (by right)|].
      destruct (decide (i = j)) as [<-|Hij].
      * rewrite lookup_insert_eq. by rewrite decide_True by (by left).
      * rewrite lookup_insert_ne by done. by rewrite decide_False by (rewrite elem_of_cons; naive_solver).
Qed.
End commit_loops.

Lemma InterfaceSet_Equals_spec `{RangeOracle} site (a b : gset string) :
  InterfaceSet_Equals site a b = bool_decide (a = b).
Proof.
  unfold InterfaceSet_Equals. destruct (Nat.eqb_spec (size a) (size b)) as [Hsz|Hsz]; simpl.
  - apply Bool.eq_iff_eq_true. rewrite forallb_forall, bool_decide_eq_true. split.
    + intros Hall. apply set_eq. intros x. assert (a ⊆ b) as Hsub.
      { intros y Hy. apply (elem_of_range_set site), list_elem_of_In, Hall, bool_decide_eq_true in Hy. done. }
      split; [apply Hsub|]. assert (b ⊆ a) as Hsub'; [|apply Hsub'].
      assert (size (b ∖ a) = 0) as H0%size_empty_inv by (rewrite size_difference by done; lia). set_solver.
    + intros -> x Hx. apply bool_decide_eq_true. by apply list_elem_of_In, elem_of_range_set in Hx.
  - symmetry. apply bool_decide_eq_false. by intros ->.
Qed.

Section commit_proof.
Context `{RangeOracle} (dir : TrafficDirection) (h0 : heap) (base0 head : ContivRuleLists)
  (bls hls : list positive) (allocated : gset string).
Hypothesis Hinv : txn_inv dir h0 base0 head bls hls allocated.

(** The committed part of the head is in the cache; the interfaces of the rest
    are where they were, or nowhere. *)
Record commit_inv (done rest : list positive) (h : heap) (base : ContivRuleLists) (ls : list positive) : Prop := {
  ci_split : hls = done ++ rest;
  ci_wf : wf h base ls;
  ci_new x : x ∈ ls → x ∈ bls ∨ x ∈ done;
  ci_old x : x ∈ bls → x ∈ ls;
  ci_rest l : l ∈ rest → h !! l = h0 !! l ∧ (l ∉ ls);
  ci_data : same_data h0 h;
  ci_byID id x : byID base !! id = Some x → byID base0 !! id = Some x ∨ (x ∈ done ∧ id_of h0 x = id);
  ci_byID0 id x : byID base0 !! id = Some x → byID base !! id = Some x;
  ci_done i l : byInterface head !! i = Some l → l ∈ done →
    ∃ x, byInterface base !! i = Some x ∧ rules_of h0 x = rules_of h0 l;
  ci_pending i l : byInterface head !! i = Some l → l ∈ rest →
    byInterface base !! i = None ∨ byInterface base !! i = byInterface base0 !! i;
  ci_other i : byInterface head !! i = None → byInterface base !! i = byInterface base0 !! i;
  ci_frame y : y ∉ bls → y ∉ hls → h !! y = h0 !! y
}.

Lemma hls_NoDup : NoDup hls.
Proof. eapply wf_NoDup, Hinv. Qed.

(** An interface of the head list [l] being committed to the cached list [x],
    the others being kept or dropped. *)
Lemma commit_inv_step done l rest h base ls h' base' ls' x :
  commit_inv done (l :: rest) h base ls → wf h' base' ls' →
  (∀ y, y ∈ ls' ↔ y ∈ ls ∨ (y = l ∧ x = l)) → same_data h h' → (∀ y, y ∉ ls → h' !! y = h !! y) →
  (byID base' = byID base ∨ (x = l ∧ byID base' = <[id_of h0 l := l]> (byID base) ∧ byID base !! id_of h0 l = None)) →
  rules_of h0 x = rules_of h0 l →
  (∀ i, i ∈ ifs_of h0 l → byInterface base' !! i = Some x) →
  (∀ i, i ∉ ifs_of h0 l → byInterface base' !! i = byInterface base !! i ∨
     (byInterface base' !! i = None ∧ ∃ l', byInterface head !! i = Some l' ∧ l' ∈ rest)) →
  commit_inv (done ++ [l]) rest h' base' ls'.
Proof.
  intros [Hsp Hw Hnew Hold Hrest Hdata HbID HbID0 Hdone Hpend Hother Hframe] Hw' Hls' Hsd Hfr Hid Hrx Hin Hout.
  pose proof hls_NoDup as Hnd. rewrite Hsp in Hnd. apply NoDup_app in Hnd as (_ & Hdd & [Hlr _]%NoDup_cons).
  assert (∀ i, byInterface head !! i = Some l ↔ i ∈ ifs_of h0 l) as Hifs.
  { intros i. rewrite (wf_byIf _ _ _ (ti_head _ _ _ _ _ _ _ Hinv)). split; [tauto|]. split; [|done].
    rewrite Hsp. set_solver. }
  split.
  - by rewrite <-app_assoc.
  - done.
  - intros y [Hy|[-> ->]]%Hls'; [|right; set_solver]. destruct (Hnew y Hy); [by left|right; set_solver].
  - intros y Hy. apply Hls'. left. by apply Hold.
  - intros y Hy. destruct (Hrest y) as [Hy1 Hy2]; [by right|]. split; [by rewrite Hfr|].
    intros [?|[-> _]]%Hls'; done.
  - by etrans.
  - intros id y. destruct Hid as [->|(-> & -> & Hn)].
    + intros [?|[? ?]]%HbID; [by left|right; set_solver].
    + intros [[<- <-]|[_ [?|[? ?]]%HbID]]%lookup_insert_Some; [right|by left|right]; set_solver.
  - intros id y Hy. apply HbID0 in Hy. destruct Hid as [->|(-> & -> & Hn)]; [done|].
    rewrite lookup_insert_ne; [done|]. intros <-. congruence.
  - intros i l' Hl' [Hd|Heq%list_elem_of_singleton]%elem_of_app; [|subst l'].  
    + destruct (Hdone i l' Hl' Hd) as (y & Hy & Hry).
      destruct (Hout i) as [->|(_ & l'' & Hl'' & Hin'')]; [|eauto|].
      * rewrite <-Hifs. intros Heq. rewrite Heq in Hl'. simplify_eq. apply (Hdd l' Hd). by left.
      * rewrite Hl'' in Hl'. simplify_eq. exfalso. apply (Hdd l' Hd). by right.
    + exists x. split; [|done]. apply Hin. by apply Hifs.
  - intros i l' Hl' Hr. destruct (Hout i) as [->|(-> & _)]; [| |by left].
    + rewrite <-Hifs. intros Heq. rewrite Heq in Hl'. by simplify_eq.
    + apply (Hpend i l' Hl'). by right.
  - intros i Hn. destruct (Hout i) as [->|(_ & l' & Hl' & _)]; [|by apply Hother|congruence].
    rewrite <-Hifs. congruence.
  - intros y Hyb Hyh. rewrite Hfr; [by apply Hframe|]. intros [?|?]%Hnew; [done|]. apply Hyh. rewrite Hsp. set_solver.
Qed.

(** Where the interfaces of a cached list go that its head copy lost. *)
Lemma lost_interface done l rest h base ls b i :
  commit_inv done (l :: rest) h base ls → byID base0 !! id_of h0 l = Some b →
  byInterface base !! i = Some b → i ∉ ifs_of h0 l →
  ∃ l', byInterface head !! i = Some l' ∧ l' ∈ rest.
Proof.
  intros Hci Hb Hib Hi. pose proof Hci as [Hsp Hw Hnew Hold Hrest Hdata HbID HbID0 Hdone Hpend Hother Hframe].
  pose proof Hinv as [Hbw Hhw Hd Hk Ht Hc Ha].
  assert (l ∈ hls) as Hl by (rewrite Hsp; set_solver). assert (rules_of h0 l = rules_of h0 b) as Hlb.
  { specialize (Hk l Hl). by rewrite Hb in Hk. }
  destruct (byInterface head !! i) as [l'|] eqn:E.
  - exists l'. split; [done|]. pose proof (proj1 (wf_byIf _ _ _ Hhw _ _) E) as [Hl' Hil'].
    rewrite Hsp in Hl'. apply elem_of_app in Hl' as [Hd'|[->|Hr]%elem_of_cons]; [|done|done].
    destruct (Hdone i l' E Hd') as (x & Hx & Hrx). assert (x = b) as -> by congruence.
    assert (l' = l) as ->; [|done]. eapply (rules_unique h0 head hls); [done|rewrite Hsp; set_solver|done|congruence].
  - exfalso. rewrite Hother in Hib by done. pose proof (proj1 (wf_byID _ _ _ Hbw _ _) Hb) as [_ Hbid].
    destruct (Ht i b Hib) as [x Hx]; [|congruence]. exists l. apply (wf_byID _ _ _ Hhw). split; [done|congruence].
Qed.

(** A head list without interfaces changes nothing. *)
Lemma commit_inv_skip done l rest h base ls :
  commit_inv done (l :: rest) h base ls → ifs_of h0 l = ∅ → commit_inv (done ++ [l]) rest h base ls.
Proof.
  intros [Hsp Hw Hnew Hold Hrest Hdata HbID HbID0 Hdone Hpend Hother Hframe] Hifs.
  assert (∀ i, byInterface head !! i ≠ Some l) as Hno.
  { intros i [_ Hi]%(wf_byIf _ _ _ (ti_head _ _ _ _ _ _ _ Hinv)). rewrite Hifs in Hi. set_solver. }
  split; [by rewrite <-app_assoc|done| |done| |done| |done| | |done|done].
  - intros y [?|?]%Hnew; [by left|right; set_solver].
  - intros y Hy. apply Hrest. by right.
  - intros id y [?|[? ?]]%HbID; [by left|right; set_solver].
  - intros i l' Hl' [Hd|Heq%list_elem_of_singleton]%elem_of_app; [by apply (Hdone i l')|]. subst. by apply Hno in Hl'.
  - intros i l' Hl' Hr. apply (Hpend i l' Hl'). by right.
Qed.

(** The ID of a head list is known to the cache only as the ID of the list it
    was copied from. *)
Lemma commit_lookup done l rest h base ls :
  commit_inv done (l :: rest) h base ls → byID base !! id_of h0 l = byID base0 !! id_of h0 l.
Proof.
  intros [Hsp Hw Hnew Hold Hrest Hdata HbID HbID0 Hdone Hpend Hother Hframe].
  destruct (byID base !! id_of h0 l) as [x|] eqn:E; [|destruct (byID base0 !! id_of h0 l) eqn:E'; [|done]].
  - destruct (HbID _ _ E) as [|[Hx Hxid]]; [done|]. exfalso. pose proof hls_NoDup as Hnd. rewrite Hsp in Hnd.
    apply NoDup_app in Hnd as (_ & Hdd & _). apply (Hdd x Hx).
    rewrite (id_unique h0 head hls x l); [by left|apply Hinv|rewrite Hsp; set_solver..|done].
  - apply HbID0 in E'. congruence.
Qed.

(** The private data: of a cached list it is its own or that of its committed
    copy, and of the copy if the list had no interfaces before. *)
Record priv_inv (done : list positive) (h : heap) : Prop := {
  pi_from y : priv_of h y = priv_of h0 y ∨
    ∃ l, l ∈ done ∧ byID base0 !! id_of h0 l = Some y ∧ priv_of h y = priv_of h0 l;
  pi_new l b : l ∈ done → byID base0 !! id_of h0 l = Some b → ifs_of h0 l ≠ ∅ → ifs_of h0 b = ∅ →
    priv_of h b = priv_of h0 l
}.

Lemma priv_step done l rest h base ls h' :
  commit_inv done (l :: rest) h base ls → priv_inv done h →
  (∀ y, priv_of h' y = priv_of h y ∨ (byID base0 !! id_of h0 l = Some y ∧ priv_of h' y = priv_of h0 l)) →
  (∀ b, byID base0 !! id_of h0 l = Some b → ifs_of h0 l ≠ ∅ → ifs_of h0 b = ∅ → priv_of h' b = priv_of h0 l) →
  priv_inv (done ++ [l]) h'.
Proof.
  intros Hci [Hfrom Hnew] Hy Hl. split.
  - intros y. destruct (Hy y) as [->|[? ->]]; [|right; exists l; set_solver].
    destruct (Hfrom y) as [->|(l' & ? & ? & ->)]; [by left|right; exists l'; set_solver].
  - intros l' b [Hd|Heq%list_elem_of_singleton]%elem_of_app Hb Hi Hbi; [|subst l'; by apply Hl].
    destruct (Hy b) as [->|[Hb' _]]; [by apply Hnew|]. exfalso.
    pose proof (ci_split _ _ _ _ _ Hci) as Hsp. pose proof hls_NoDup as Hnd. rewrite Hsp in Hnd.
    apply NoDup_app in Hnd as (_ & Hdd & _). apply (Hdd l' Hd).
    pose proof Hinv as [Hbw Hhw _ _ _ _ _]. apply (wf_byID _ _ _ Hbw) in Hb as [_ Hb], Hb' as [_ Hb'].
    rewrite (id_unique h0 head hls l' l Hhw); [by left| | |congruence]; rewrite Hsp; apply elem_of_app; [by left|right; by left].
Qed.

(** A list that had no interfaces has none until its copy is committed. *)
Lemma still_unassigned done l rest h base ls b :
  commit_inv done (l :: rest) h base ls → b ∈ bls → ifs_of h0 l ≠ ∅ → ifs_of h0 b = ∅ → ifs_of h b ≠ ifs_of h0 l.
Proof.
  intros Hci Hb Hi Hbi Heq. pose proof Hci as [Hsp Hw _ Hold _ _ _ _ _ Hpend _ _]. pose proof Hinv as [Hbw Hhw _ _ _ _ _].
  apply set_choose_L in Hi as [i Hi]. assert (byInterface head !! i = Some l) as El.
  { apply (wf_byIf _ _ _ Hhw). split; [|done]. rewrite Hsp. set_solver. }
  assert (byInterface base !! i = Some b) as Eb by (apply (wf_byIf _ _ _ Hw); rewrite Heq; auto).
  destruct (Hpend i l El) as [?|Heq']; [by left|congruence|]. rewrite Eb in Heq'. symmetry in Heq'.
  apply (wf_byIf _ _ _ Hbw) in Heq' as [_ ?]. set_solver.
Qed.

(** The list of the cache takes over the interfaces of its copy. *)
Lemma commit_changed done l rest h base ls b o oo :
  commit_inv done (l :: rest) h base ls → h !! l = Some o → byID base0 !! RL_ID o = Some b → h !! b = Some oo →
  ∃ h' base',
    ('(h, base) ← foldM (λ '(h, base) iface,
        if bool_decide (iface ∈ RL_Interfaces o) then Some (h, base) else UnassignInterface h base (Some b) iface)
        (h, base) (range_set [24; Zpos l]%Z (RL_Interfaces oo));
     '(h, base) ← foldM (λ '(h, base) iface,
        oo ← h !! b;
        if bool_decide (iface ∈ RL_Interfaces oo) then Some (h, base) else AssignInterface h base b iface)
        (h, base) (range_set [25; Zpos l]%Z (RL_Interfaces o));
     oo ← h !! b; o ← h !! l;
     Some (<[b := set_Private oo (RL_Private o)]> h, base)) = Some (h', base') ∧
    commit_inv (done ++ [l]) rest h' base' ls ∧
    (∀ y, y ≠ b → priv_of h' y = priv_of h y) ∧ priv_of h' b = priv_of h0 l.
Proof.
  intros Hci Ho Hb Hoo. pose proof Hci as [Hsp Hw Hnew Hold Hrest Hdata HbID HbID0 Hdone Hpend Hother Hframe].
  pose proof Hinv as [Hbw Hhw _ Hk _ _ _]. destruct (Hrest l) as [Hl0 Hlls]; [by left|].
  assert (id_of h0 l = RL_ID o ∧ ifs_of h0 l = RL_Interfaces o) as [Hlid Hlifs]
    by (unfold id_of, ifs_of; by rewrite <-Hl0, Ho).
  pose proof (proj1 (wf_byID _ _ _ Hbw _ _) Hb) as [Hbb _]. pose proof (Hold b Hbb) as Hbls.
  destruct (unassign_loop ls b (RL_Interfaces o) Hbls (range_set [24; Zpos l]%Z (RL_Interfaces oo)) h base Hw)
    as (h1 & m1 & -> & Hw1 & Hs1 & Hne1 & Hm1); [apply range_keys_NoDup|]. cbn [mbind option_bind].
  destruct (assign_loop ls b Hbls (range_set [25; Zpos l]%Z (RL_Interfaces o)) h1 _ Hw1)
    as (h2 & m2 & -> & Hw2 & Hs2 & Hne2 & Hm2). cbn [mbind option_bind].
  destruct (wf_heap _ _ _ Hw2 b Hbls) as [oo2 Hoo2]. rewrite Hoo2. cbn [mbind option_bind].
  rewrite Hne2, Hne1, Ho by done. cbn [mbind option_bind].
  destruct (set_Private_spec h2 _ ls b oo2 (RL_Private o) Hw2 Hoo2) as (Hsd & Hne3 & Hw3).
  eexists _, _. split; [done|]. split; [|split].
  2: { intros y Hy. rewrite <-(st_priv _ _ Hs1), <-(st_priv _ _ Hs2). unfold priv_of. by rewrite lookup_insert_ne. }
  2: { unfold priv_of. rewrite lookup_insert_eq, <-Hl0, Ho. done. }
  apply (commit_inv_step done l rest h base ls _ _ _ b Hci Hw3).
  - intros y. split; [by left|]. intros [?|[_ <-]]; done.
  - etrans; [|exact Hsd]. etrans; by apply static_same_data.
  - intros y Hy. rewrite Hne3 by (intros ->; done). by rewrite Hne2, Hne1.
  - by left.
  - specialize (Hk l). rewrite Hlid, Hb in Hk. symmetry. apply Hk. rewrite Hsp. set_solver.
  - intros i Hi. simpl. rewrite Hm2, decide_True; [done|]. apply elem_of_range_set. by rewrite <-Hlifs.
  - intros i Hi. simpl. rewrite Hm2, decide_False by (rewrite elem_of_range_set, <-Hlifs; done). simpl. rewrite Hm1.
    destruct (decide _) as [(_ & _ & Hib)|]; [right|by left]. split; [done|].
    eapply (lost_interface done l rest h base ls b); [done|by rewrite Hlid|done|done].
Qed.

(** A list of the head that the base does not have is inserted. *)
Lemma commit_new done l rest h base ls o :
  commit_inv done (l :: rest) h base ls → h !! l = Some o → h0 !! l = Some o → byID base0 !! RL_ID o = None → byID base !! RL_ID o = None →
  ∃ h' base' ls', Insert_list h base l = Some (h', base', true) ∧ commit_inv (done ++ [l]) rest h' base' ls' ∧
    (priv_inv done h → priv_inv (done ++ [l]) h').
Proof.
  intros Hci Ho Ho0 Eb Hlk. pose proof Hci as [Hsp Hw Hnew Hold Hrest Hdata HbID HbID0 Hdone Hpend Hother Hframe].
  pose proof Hinv as [Hbw Hhw Hdisj Hk _ _ _]. destruct (Hrest l) as [Hl0 Hlls]; [by left|].
  assert (l ∈ hls) as Hl by (rewrite Hsp; set_solver).
  assert (id_of h0 l = RL_ID o ∧ ifs_of h0 l = RL_Interfaces o ∧ rules_of h0 l = RL_Rules o) as (Hlid & Hlifs & Hlr)
    by (unfold id_of, ifs_of, rules_of; by rewrite Ho0).
  destruct (Insert_list_spec ls l Hlls h base o) as (h' & base' & ls' & Hins & Hperm & Hw' & Hs & Hne & HbyID & HbyIf); [done|done|done| |].
  { intros x Hx. rewrite (sd_rules _ _ Hdata), <-Hlr. destruct (Hnew x Hx) as [Hxb|Hxd].
    - specialize (Hk l Hl). rewrite Hlid, Eb in Hk. by apply Hk.
    - intros Heq. assert (x = l) as -> by (eapply (rules_unique h0 head hls); [done|rewrite Hsp; set_solver|done|done]). done. }
  exists h', base', ls'. split; [exact Hins|]. split.
  2: { intros Hpi. eapply priv_step; [done|done| |by rewrite Hlid, Eb]. intros y. left. apply Hs. }
  apply (commit_inv_step done l rest h base ls h' base' ls' l Hci Hw').
  - intros y. rewrite Hperm, elem_of_cons. naive_solver.
  - by apply static_same_data.
  - done.
  - right. rewrite Hlid. done.
  - done.
  - intros i Hi. rewrite HbyIf, decide_True; [done|]. by rewrite <-Hlifs.
  - intros i Hi. left. rewrite HbyIf, decide_False; [done|]. by rewrite <-Hlifs.
Qed.

Lemma commit_list_spec done l rest h base ls :
  commit_inv done (l :: rest) h base ls →
  ∃ h' base' ls', commit_list h base l = Some (h', base') ∧ commit_inv (done ++ [l]) rest h' base' ls' ∧
    (priv_inv done h → priv_inv (done ++ [l]) h').
Proof.
  intros Hci. pose proof Hci as [Hsp Hw Hnew Hold Hrest Hdata HbID HbID0 Hdone Hpend Hother Hframe].
  pose proof Hinv as [Hbw Hhw Hdisj Hk _ _ _]. destruct (Hrest l) as [Hl0 Hlls]; [by left|].
  assert (l ∈ hls) as Hl by (rewrite Hsp; set_solver).
  destruct (wf_heap _ _ _ Hhw l Hl) as [o Ho0]. assert (h !! l = Some o) as Ho by congruence.
  assert (id_of h0 l = RL_ID o ∧ ifs_of h0 l = RL_Interfaces o ∧ rules_of h0 l = RL_Rules o) as (Hlid & Hlifs & Hlr)
    by (unfold id_of, ifs_of, rules_of; by rewrite Ho0).
  pose proof (commit_lookup _ _ _ _ _ _ Hci) as Hlk. rewrite Hlid in Hlk.
  unfold commit_list, LookupByID. rewrite Ho. cbn [mbind option_bind]. rewrite Hlk.
  destruct (byID base0 !! RL_ID o) as [b|] eqn:Eb.
  - pose proof (proj1 (wf_byID _ _ _ Hbw _ _) Eb) as [Hbb _]. pose proof (Hold b Hbb) as Hbls.
    case_bool_decide as Hempty.
    { exists h, base, ls. split; [|split; [apply commit_inv_skip; [done|congruence]|]].
      2: { intros Hpi. eapply priv_step; [done|done|by left|]. congruence. }
      unfold Remove_list.
      rewrite (proj2 (list_find_None _ _)); [done|]. rewrite (wf_lists _ _ _ Hw), Forall_fmap, Forall_forall.
      intros x Hx [= ->]. done. }
    destruct (wf_heap _ _ _ Hw b Hbls) as [oo Hoo]. rewrite Hoo. cbn [mbind option_bind].
    rewrite InterfaceSet_Equals_spec. case_bool_decide as Heq.
    + exists h, base, ls. split; [done|]. split.
      2: { intros Hpi. eapply priv_step; [done|done|by left|]. intros b'. rewrite Hlid, Eb. intros [= <-] Hi Hbi. exfalso.
           eapply (still_unassigned done l); [done|done|done|done|]. unfold ifs_of at 1. rewrite Hoo. simpl. congruence. }
      apply (commit_inv_step done l rest h base ls h base ls b Hci Hw); [|done|done|by left| | |by left].
      * intros y. split; [by left|]. intros [?|[_ <-]]; done.
      * specialize (Hk l Hl). rewrite Hlid, Eb in Hk. done.
      * intros i Hi. apply (wf_byIf _ _ _ Hw). split; [done|]. unfold ifs_of. rewrite Hoo. simpl. by rewrite <-Heq, <-Hlifs.
    + destruct (commit_changed done l rest h base ls b o oo Hci Ho Eb Hoo)
        as (h' & base' & -> & Hci' & Hpo & Hpb).
      exists h', base', ls. split; [done|]. split; [done|]. intros Hpi. eapply priv_step; [done|done| |].
      * intros y. destruct (decide (y = b)) as [->|]; [right; by rewrite Hlid|left; by apply Hpo].
      * intros b'. rewrite Hlid, Eb. by intros [= <-].
  - case_bool_decide as Hempty.
    { exists h, base, ls. split; [done|]. split; [apply commit_inv_skip; [done|congruence]|].
      intros Hpi. eapply priv_step; [done|done|by left|]. congruence. }
    destruct (commit_new done l rest h base ls o Hci Ho Ho0 Eb Hlk) as (h' & base' & ls' & -> & Hci' & Hp).
    exists h', base', ls'. done.
Qed.

Lemma commit_loop done rest h base ls :
  commit_inv done rest h base ls →
  ∃ h' base' ls', foldM (λ '(h, base) p, l ← p; commit_list h base l) (h, base) (Some <$> rest) = Some (h', base') ∧
    commit_inv hls [] h' base' ls' ∧ (priv_inv done h → priv_inv hls h').
Proof.
  revert done h base ls. induction rest as [|l rest IH]; intros done h base ls Hci; csimpl.
  { exists h, base, ls. split; [done|]. pose proof (ci_split _ _ _ _ _ Hci) as Hsp. rewrite app_nil_r in Hsp. by subst. }
  destruct (commit_list_spec done l rest h base ls Hci) as (h1 & base1 & ls1 & -> & Hci1 & Hp1). csimpl.
  destruct (IH (done ++ [l]) h1 base1 ls1 Hci1) as (h2 & base2 & ls2 & Hc & Hci2 & Hp2).
  exists h2, base2, ls2. auto.
Qed.

Lemma commit_spec :
  ∃ h' base' ls', commit h0 head base0 = Some (h', base') ∧ wf h' base' ls' ∧ same_data h0 h' ∧
    (∀ x, x ∈ ls' → x ∈ bls ∨ x ∈ hls) ∧ (∀ x, x ∈ bls → x ∈ ls') ∧
    (∀ i, rules_of h' <$> byInterface base' !! i = view h0 base0 head i) ∧
    (∀ id, is_Some (byID base' !! id) → is_Some (byID base0 !! id) ∨ is_Some (byID head !! id)) ∧
    (∀ l, l ∉ bls → l ∉ hls → h' !! l = h0 !! l) ∧ priv_inv hls h' ∧
    (∀ id x, byID base0 !! id = Some x → byID base' !! id = Some x).
Proof.
  pose proof Hinv as [Hbw Hhw Hdisj Hk _ _ _]. unfold commit. rewrite (wf_lists _ _ _ Hhw).
  destruct (commit_loop [] hls h0 base0 bls) as (h' & base' & ls' & Hc & Hci & Hpi).
  { split; [done|done|by left|done| |done|by left|done|by intros i l _ ?%elem_of_nil|by right|done|done].
    intros l Hl. split; [done|]. intros Hb. by apply (Hdisj l Hb). }
  exists h', base', ls'. split; [exact Hc|]. destruct Hci as [_ Hw Hnew Hold _ Hdata HbID HbID0 Hdone _ Hother Hframe].
  split_and!; [done|done|done|done| | | |apply Hpi; split; [by left|by intros l b ?%elem_of_nil]|done].
  - intros i. unfold view. destruct (byInterface head !! i) as [l|] eqn:E.
    + pose proof (proj1 (wf_byIf _ _ _ Hhw _ _) E) as [Hl _]. destruct (Hdone i l E Hl) as (x & Hx & Hrx).
      rewrite Hx. simpl. by rewrite (sd_rules _ _ Hdata), Hrx.
    + rewrite Hother by done. destruct (byInterface base0 !! i); [|done]. simpl. by rewrite (sd_rules _ _ Hdata).
  - intros id [x Hx]. destruct (HbID id x Hx) as [?|[Hxh Hxid]]; [left; eauto|right].
    exists x. by apply (wf_byID _ _ _ Hhw).
  - intros l Hlb Hlh. by apply Hframe.
Qed.
End commit_proof.

(** ** Both directions *)

Record IfUpdate := mkIfUpdate {
  up_ifName : string;
  up_ingress : option (list ContivRule);
  up_egress : option (list ContivRule)
}.

(** The updates of a transaction, in order. *)
Definition run_updates `{RangeOracle} (st : heap * ContivRuleCache * ContivRuleCacheTxn * list (list Z))
    (us : list IfUpdate) : option (heap * ContivRuleCache * ContivRuleCacheTxn * list (list Z)) :=
  foldM (λ '(h, crc, crct, rands) u, Txn_Update h crc crct rands (up_ifName u) (up_ingress u) (up_egress u)) st us.

(** The rules of an interface: ingress and egress, [None] when it is not known. *)
Definition rules_view := (option (option (list ContivRule)) * option (option (list ContivRule)))%type.

Definition cache_view (h : heap) (crc : ContivRuleCache) (i : string) : rules_view :=
  (rules_of h <$> byInterface (crc_ingress crc) !! i, rules_of h <$> byInterface (crc_egress crc) !! i).

(** What the updates make of a map of rules. *)
Definition updated_view (v : string → rules_view) (us : list IfUpdate) : string → rules_view :=
  foldl (λ v u i, if decide (i = up_ifName u) then (Some (up_ingress u), Some (up_egress u)) else v i) v us.

(** The lists of the two directions are well-formed, separate, and their IDs
    are allocated. *)
Definition cache_good (h : heap) (crc : ContivRuleCache) : Prop :=
  ∃ blsI blsE, wf h (crc_ingress crc) blsI ∧ wf h (crc_egress crc) blsE ∧ (∀ l, l ∈ blsI → l ∉ blsE) ∧
    (∀ id, is_Some (byID (crc_ingress crc) !! id) → ∃ s, id = id_text Ingress s ∧ s ∈ allocatedIngress crc) ∧
    (∀ id, is_Some (byID (crc_egress crc) !! id) → ∃ s, id = id_text Egress s ∧ s ∈ allocatedEgress crc).

(** A running transaction. *)
Record txn_good (h : heap) (crc : ContivRuleCache) (crct : ContivRuleCacheTxn)
    (blsI hlsI blsE hlsE : list positive) : Prop := {
  tg_in : txn_inv Ingress h (crc_ingress crc) (crct_ingress crct) blsI hlsI (allocatedIngress crc);
  tg_eg : txn_inv Egress h (crc_egress crc) (crct_egress crct) blsE hlsE (allocatedEgress crc);
  tg_disj l : l ∈ blsI ∨ l ∈ hlsI → (l ∉ blsE) ∧ (l ∉ hlsE)
}.

Definition txn_synced (h : heap) (crc : ContivRuleCache) (hlsI hlsE : list positive) : Prop :=
  priv_synced h (crc_ingress crc) hlsI ∧ priv_synced h (crc_egress crc) hlsE.

Definition txn_view (h : heap) (crc : ContivRuleCache) (crct : ContivRuleCacheTxn) (i : string) : rules_view :=
  (view h (crc_ingress crc) (crct_ingress crct) i, view h (crc_egress crc) (crct_egress crct) i).

Lemma updated_view_ext us v v' : (∀ i, v i = v' i) → ∀ i, updated_view v us i = updated_view v' us i.
Proof.
  revert v v'. induction us as [|u us IH]; intros v v' Hv; simpl; [done|]. apply IH. intros i. by rewrite Hv.
Qed.

Section both.
Context `{RangeOracle}.

Lemma txn_lists_heap dir h base head bls hls allocated l :
  txn_inv dir h base head bls hls allocated → l ∈ bls ∨ l ∈ hls → is_Some (h !! l).
Proof. intros [Hb Hh _ _ _ _ _] [?|?]; [by apply (wf_heap _ _ _ Hb)|by apply (wf_heap _ _ _ Hh)]. Qed.

Lemma Txn_Update_spec h crc crct blsI hlsI blsE hlsE rands n used ifName ingress egress :
  txn_good h crc crct blsI hlsI blsE hlsE →
  supply (2 + n) rands used → allocatedIngress crc ∪ allocatedEgress crc ⊆ used →
  ∃ h' crc' crct' hlsI' hlsE' rands' used',
    Txn_Update h crc crct rands ifName ingress egress = Some (h', crc', crct', rands') ∧
    txn_good h' crc' crct' blsI hlsI' blsE hlsE' ∧ supply n rands' used' ∧
    allocatedIngress crc' ∪ allocatedEgress crc' ⊆ used' ∧
    crc_ingress crc' = crc_ingress crc ∧ crc_egress crc' = crc_egress crc ∧ crc_interfaces crc' = crc_interfaces crc ∧
    crct_interfaces crct' = {[ ifName ]} ∪ crct_interfaces crct ∧
    (txn_synced h crc hlsI hlsE → txn_synced h' crc' hlsI' hlsE') ∧
    (∀ l, l ∈ blsI ∨ l ∈ blsE → h' !! l = h !! l) ∧
    (∀ i, txn_view h' crc' crct' i = if decide (i = ifName) then (Some ingress, Some egress) else txn_view h crc crct i).
Proof.
  intros [Hin Heg Hd] Hsup Hsub. unfold Txn_Update.
  destruct (updateInterface_spec Ingress (crc_ingress crc) blsI h (crct_ingress crct) hlsI (allocatedIngress crc)
    rands (S n) used ifName ingress Hin Hsup) as (h1 & headI & hlsI' & allocI & rands1 & used1 & -> & Hin1 & [F1 N1] & Hsup1 & HsubI & Hmono & Hp1 & Hv1); [set_solver|].
  cbn [mbind option_bind].
  assert (∀ l, l ∈ blsE ∨ l ∈ hlsE → h1 !! l = h !! l) as HfrE.
  { intros l Hl. apply F1; [by eapply (txn_lists_heap Egress)|]. intros Hl'. destruct (Hd l) as [? ?]; [by right|].
    by destruct Hl. }
  pose proof (txn_inv_frame _ h h1 _ _ _ _ _ HfrE Heg) as Heg1.
  destruct (updateInterface_spec Egress (crc_egress crc) blsE h1 (crct_egress crct) hlsE (allocatedEgress crc)
    rands1 n used1 ifName egress Heg1 Hsup1) as (h2 & headE & hlsE' & allocE & rands2 & used2 & -> & Heg2 & [F2 N2] & Hsup2 & HsubE & Hmono2 & Hp2 & Hv2); [set_solver|].
  cbn [mbind option_bind].
  assert (∀ l, l ∈ blsI ∨ l ∈ hlsI' → is_Some (h1 !! l) ∧ (l ∉ blsE) ∧ (l ∉ hlsE)) as Hsep.
  { intros l Hl. split; [by eapply (txn_lists_heap Ingress)|].
    assert ((l ∈ blsI ∨ l ∈ hlsI) ∨ h !! l = None) as [Hl'|Hl'] by (destruct Hl as [?|[?|?]%N1]; tauto); [by apply Hd|].
    split; intros Hl''; (destruct (txn_lists_heap Egress h _ _ _ _ _ l Heg) as [? ?]; [tauto|congruence]). }
  assert (∀ l, l ∈ blsI ∨ l ∈ hlsI' → h2 !! l = h1 !! l) as HfrI.
  { intros l Hl. destruct (Hsep l Hl) as (? & _ & ?). by apply F2. }
  eexists _, _, _, hlsI', hlsE', rands2, used2. split; [done|]. split; [|split_and!; [done|set_solver|done|done|done|done| | |]].
  - split; simpl; [by eapply txn_inv_frame|done|]. intros l Hl. destruct (Hsep l Hl) as ([o Ho] & ? & ?).
    split; [done|]. intros [?|?]%N2; [done|congruence].
  - intros [HpI HpE]. split; simpl.
    + eapply priv_synced_frame; [apply Hin1|done|auto].
    + apply Hp2. eapply priv_synced_frame; [apply Heg|done|done].
  - intros l [Hl|Hl].
    + rewrite HfrI by (by left). apply F1; [eapply (txn_lists_heap Ingress); [done|by left]|by apply (ti_disj _ _ _ _ _ _ _ Hin)].
    + rewrite F2; [apply HfrE; by left|eapply (txn_lists_heap Egress); [done|by left]|by apply (ti_disj _ _ _ _ _ _ _ Heg)].
  - intros i. unfold txn_view; simpl. rewrite Hv2.
    rewrite (view_frame h1 h2 _ _ blsI hlsI') by (try apply Hin1; intros l Hl; unfold rules_of; by rewrite HfrI).
    rewrite Hv1. rewrite (view_frame h h1 _ _ blsE hlsE) by (try apply Heg; intros l Hl; unfold rules_of; by rewrite HfrE).
    by destruct (decide (i = ifName)).
Qed.

Lemma run_updates_spec us h crc crct blsI hlsI blsE hlsE rands used :
  txn_good h crc crct blsI hlsI blsE hlsE →
  supply (2 * length us) rands used → allocatedIngress crc ∪ allocatedEgress crc ⊆ used →
  ∃ h' crc' crct' hlsI' hlsE' rands',
    run_updates (h, crc, crct, rands) us = Some (h', crc', crct', rands') ∧
    txn_good h' crc' crct' blsI hlsI' blsE hlsE' ∧
    crc_ingress crc' = crc_ingress crc ∧ crc_egress crc' = crc_egress crc ∧ crc_interfaces crc' = crc_interfaces crc ∧
    crct_interfaces crct' = list_to_set (up_ifName <$> us) ∪ crct_interfaces crct ∧
    (txn_synced h crc hlsI hlsE → txn_synced h' crc' hlsI' hlsE') ∧
    (∀ l, l ∈ blsI ∨ l ∈ blsE → h' !! l = h !! l) ∧
    (∀ i, txn_view h' crc' crct' i = updated_view (txn_view h crc crct) us i).
Proof.
  revert h crc crct hlsI hlsE rands used. induction us as [|u us IH]; intros h crc crct hlsI hlsE rands used Hg Hsup Hsub.
  { exists h, crc, crct, hlsI, hlsE, rands. split; [done|]. split; [done|]. split_and!; [done|done|done| |done|done|done]. simpl. set_solver. }
  replace (2 * length (u :: us)) with (2 + 2 * length us) in Hsup by (simpl; lia).
  destruct (Txn_Update_spec h crc crct blsI hlsI blsE hlsE rands (2 * length us) used (up_ifName u) (up_ingress u) (up_egress u) Hg Hsup Hsub)
    as (h1 & crc1 & crct1 & hlsI1 & hlsE1 & rands1 & used1 & Hu & Hg1 & Hsup1 & Hsub1 & E1 & E2 & E3 & E4 & Hp & Hfr & Hv).
  unfold run_updates. cbn [foldM]. rewrite Hu. cbn [mbind option_bind].
  destruct (IH h1 crc1 crct1 hlsI1 hlsE1 rands1 used1 Hg1 Hsup1 Hsub1)
    as (h2 & crc2 & crct2 & hlsI2 & hlsE2 & rands2 & Hr & Hg2 & F1 & F2 & F3 & F4 & Hp2 & Hfr2 & Hv2).
  exists h2, crc2, crct2, hlsI2, hlsE2, rands2. split; [exact Hr|]. split; [done|].
  split_and!; [congruence|congruence|congruence| |auto|intros l Hl; by rewrite Hfr2, Hfr|].
  - rewrite F4, E4. simpl. set_solver.
  - intros i. rewrite Hv2. unfold updated_view. cbn [foldl].
    by apply updated_view_ext.
Qed.

Lemma NewTxn_good h crc :
  cache_good h crc → ∃ blsI blsE, txn_good h crc Cache_NewTxn blsI [] blsE [] ∧
    (∀ i, txn_view h crc Cache_NewTxn i = cache_view h crc i).
Proof.
  intros (blsI & blsE & HI & HE & Hd & HaI & HaE). exists blsI, blsE. split; [|done].
  assert (∀ dir base bls allocated, wf h base bls →
    (∀ id, is_Some (byID base !! id) → ∃ s, id = id_text dir s ∧ s ∈ allocated) →
    txn_inv dir h base NewContivRuleLists bls [] allocated) as Hnew.
  { intros dir base bls allocated Hw Ha. split; simpl;
      [done|apply NewContivRuleLists_wf|intros; apply not_elem_of_nil|by intros l ?%elem_of_nil| | |].
    - intros i b _ [? [=]].
    - intros i b _ [? [=]].
    - intros id [?|[? [=]]]. by apply Ha. }
  split; [by apply Hnew|by apply Hnew|]. intros l [?|?%elem_of_nil]; [|done]. split; [by apply Hd|apply not_elem_of_nil].
Qed.

Lemma Txn_Commit_spec h crc crct blsI hlsI blsE hlsE :
  txn_good h crc crct blsI hlsI blsE hlsE →
  ∃ h' crc', Txn_Commit h crc crct = Some (h', crc') ∧ cache_good h' crc' ∧
    (∀ i, cache_view h' crc' i = txn_view h crc crct i) ∧
    crc_interfaces crc' = crct_interfaces crct ∪ crc_interfaces crc.
Proof.
  intros [Hin Heg Hd]. unfold Txn_Commit.
  destruct (commit_spec Ingress h _ _ _ _ _ Hin) as (h1 & bI & lsI & -> & HwI & HdI & HnI & HoI & HvI & HidI & HfI & _).
  cbn [mbind option_bind].
  assert (∀ l, l ∈ blsE ∨ l ∈ hlsE → h1 !! l = h !! l) as HfrE.
  { intros l Hl. apply HfI; intros Hl'; (destruct (Hd l) as [? ?]; [tauto|]); by destruct Hl. }
  pose proof (txn_inv_frame _ h h1 _ _ _ _ _ HfrE Heg) as Heg1.
  destruct (commit_spec Egress h1 _ _ _ _ _ Heg1) as (h2 & bE & lsE & -> & HwE & HdE & HnE & HoE & HvE & HidE & HfE & _).
  cbn [mbind option_bind]. eexists _, _. split; [done|].
  assert (∀ l, l ∈ lsI → h2 !! l = h1 !! l) as HfrI.
  { intros l Hl. apply HnI, Hd in Hl as [? ?]. by apply HfE. }
  split_and!; [|intros i; unfold cache_view, txn_view; simpl|done].
  - exists lsI, lsE. simpl. split_and!; [by eapply wf_frame|done| | |].
    + intros l Hl. apply HnI, Hd in Hl as [? ?]. by intros [?|?]%HnE.
    + intros id Hid. apply (ti_alloc _ _ _ _ _ _ _ Hin). by apply HidI.
    + intros id Hid. apply (ti_alloc _ _ _ _ _ _ _ Heg1). by apply HidE.
  - rewrite HvE, <-HvI. f_equal.
    + destruct (byInterface bI !! i) as [l|] eqn:E; [|done]. simpl. unfold rules_of. rewrite HfrI; [done|].
      by apply (wf_byIf _ _ _ HwI) in E as [? _].
    + apply (view_frame h h1 _ _ blsE hlsE); [apply Heg|apply Heg|]. intros l Hl. unfold rules_of. by rewrite HfrE.
Qed.
End both.

(** C16. The ACL cache implements a map from interfaces to rules. From a good
    cache, run a transaction with any sequence of updates and commit it: no
    step panics, the cache is good again (ordered lists, both indexes and the
    interface sets agree, interfaces with equal rules share one list), and the
    rules found for an interface are those of its last update, or what they
    were when it was not updated. The random source is assumed to have drawn
    enough unused IDs. *)
Theorem acl_txn_refines `{RangeOracle} (h : heap) (crc : ContivRuleCache) (rands : list (list Z))
    (us : list IfUpdate) :
  cache_good h crc → supply (2 * length us) rands (allocatedIngress crc ∪ allocatedEgress crc) →
  ∃ h1 crc1 crct rands1 h2 crc2,
    run_updates (h, crc, Cache_NewTxn, rands) us = Some (h1, crc1, crct, rands1) ∧
    Txn_Commit h1 crc1 crct = Some (h2, crc2) ∧
    cache_good h2 crc2 ∧
    (∀ i, cache_view h2 crc2 i = updated_view (cache_view h crc) us i) ∧
    crc_interfaces crc2 = list_to_set (up_ifName <$> us) ∪ crc_interfaces crc ∧
    (∀ i j l l', LookupByInterface (crc_ingress crc2) i = Some l → LookupByInterface (crc_ingress crc2) j = Some l' →
       rules_of h2 l = rules_of h2 l' → l = l').
Proof.
  intros Hg Hsup. destruct (NewTxn_good h crc Hg) as (blsI & blsE & Htg & Hv0).
  destruct (run_updates_spec us h crc Cache_NewTxn blsI [] blsE [] rands _ Htg Hsup)
    as (h1 & crc1 & crct & hlsI & hlsE & rands1 & Hrun & Htg1 & _ & _ & E3 & E4 & _ & _ & Hv); [done|].
  destruct (Txn_Commit_spec h1 crc1 crct _ _ _ _ Htg1) as (h2 & crc2 & Hcom & Hg2 & Hv2 & Hifs).
  exists h1, crc1, crct, rands1, h2, crc2. split_and!; [done|done|done| | |].
  - intros i. rewrite Hv2, Hv. by apply updated_view_ext.
  - rewrite Hifs, E3, E4. simpl. set_solver.
  - destruct Hg2 as (lsI & lsE & HwI & _). unfold LookupByInterface.
    intros i j l l' [Hl _]%(wf_byIf _ _ _ HwI) [Hl' _]%(wf_byIf _ _ _ HwI). by apply (rules_unique h2 (crc_ingress crc2) lsI).
Qed.

Lemma Cache_Init_good : cache_good ∅ Cache_Init.
Proof.
  exists [], []. split_and!; [apply NewContivRuleLists_wf|apply NewContivRuleLists_wf|by intros l ?%elem_of_nil|by intros id [? [=]]|by intros id [? [=]]].
Qed.

(** Two interfaces with the same rules, one of which is then updated again. *)
Definition acl_example_updates : list IfUpdate :=
  let deny := mkContivRule "deny" ActionDeny emptyIPNet emptyIPNet TCP 0 0 in
  let web := mkContivRule "web" ActionPermit emptyIPNet emptyIPNet TCP 0 80 in
  [ mkIfUpdate "tap1" (Some [deny]) (Some [web; deny]);
    mkIfUpdate "tap2" (Some [deny]) (Some []);
    mkIfUpdate "tap1" (Some [web; deny]) (Some [deny]) ].

Lemma acl_txn_refines_witness :
  ∃ h1 crc1 crct rands1 h2 crc2,
    @run_updates canonical_order (∅, Cache_Init, Cache_NewTxn, [[1]; [2]; [3]; [4]; [5]; [6]]%Z) acl_example_updates =
      Some (h1, crc1, crct, rands1) ∧
    @Txn_Commit canonical_order h1 crc1 crct = Some (h2, crc2) ∧
    cache_view h2 crc2 "tap1" =
      (up_ingress <$> acl_example_updates !! 2, up_egress <$> acl_example_updates !! 2) ∧
    cache_view h2 crc2 "tap3" = (None, None).
Proof.
  destruct (@acl_txn_refines canonical_order ∅ Cache_Init [[1]; [2]; [3]; [4]; [5]; [6]]%Z acl_example_updates Cache_Init_good)
    as (h1 & crc1 & crct & rands1 & h2 & crc2 & Hrun & Hcom & _ & Hv & _).
  - split; [apply (bool_decide_unpack _); vm_compute; exact I|].
    split; [intros b _; apply not_elem_of_empty|apply Nat.leb_le; reflexivity].
  - exists h1, crc1, crct, rands1, h2, crc2. rewrite !Hv.
    split; [exact Hrun|]. split; [exact Hcom|]. split; vm_compute; reflexivity.
Defined.
