(* ===== verification/AclRenderer.v ===== *)
(** * The ACL renderer

    plugins/policy/renderer/acl/acl_renderer.go: Contiv rules rendered as VPP
    ACLs through the ACL cache and the local client of the vpp-agent.

    The vpp-agent is not part of the repository: it is a type [A] of states
    with the dump of the installed ACLs and the execution of a local-client
    transaction ([AclAgent]); what the renderer relies on is [AclAgentLaws].
    [GetIfName] is the function of the Contiv plugin.

    [Private] of a rule list is the ACL built for it. The code keeps a pointer
    and writes its [Interfaces] in place; the model keeps the value in the list
    that is rendered. The difference is not observable: [Interfaces] of a
    stored ACL is overwritten before each use. *)

From Stdlib Require Import ZArith Lia Ascii String.
From stdpp Require Import prelude strings list gmap sorting.
From S2P Require Import Prelude Slots GoStrings GoNet KsrModel Utils Rules AclCache.

(** ** The vpp-agent *)

(** One item of a transaction of the local client. *)
Inductive AclOp := PutACL (acl : Acl) | DeleteACL (name : string).

Class AclAgent (A : Type) := {
  DumpACL : A → option (list Acl);
  SendTxn : A → list AclOp → A * bool
}.

(** ** Transactions *)

Record InterfaceConfig := mkInterfaceConfig {
  if_ingress : option (list ContivRule);
  if_egress : option (list ContivRule)
}.

Record AclRendererTxn := mkAclRendererTxn {
  acl_resync : bool;
  acl_config : gmap string InterfaceConfig
}.

(** [Renderer.Init] makes an empty cache. *)
Definition AclRenderer_Init : ContivRuleCache := Cache_Init.

Definition AclRenderer_NewTxn (resync : bool) : AclRendererTxn := mkAclRendererTxn resync ∅.

Definition AclRenderer_Render (GetIfName : string → string → option string) (art : AclRendererTxn)
    (pod : PodID) (podIP : IPNet) (ingress egress : option (list ContivRule)) : AclRendererTxn :=
  match GetIfName (PodID_Namespace pod) (PodID_Name pod) with
  | None => art
  | Some ifName =>
    mkAclRendererTxn (acl_resync art) (<[ifName := mkInterfaceConfig ingress egress]> (acl_config art))
  end.

(** [len(change.List.Rules)] *)
Definition len_of_rules (rules : option (list ContivRule)) : nat := from_option length 0 rules.

Definition filterEmpty (h : heap) (changes : list TxnChange) : option (list TxnChange) :=
  foldM (λ filtered change,
    o ← h !! change_List change;
    Some (if 0 <? len_of_rules (RL_Rules o) then filtered ++ [change] else filtered)) [] changes.

(** ** From rules to ACLs *)

Definition maxPortNum : Z := 65535.

(** The range of a port of a rule. *)
Definition render_port (port : Z) : PortRange :=
  mkPortRange port (if (port =? 0)%Z then maxPortNum else port).

(** The body of the loop of [renderACL]. *)
Definition render_rule (rule : ContivRule) : AclRule :=
  let action := match Action rule with ActionDeny => AclDENY | ActionPermit => AclREFLECT end in
  let net n := if 0 <? length (IPNet_IP n) then IPNet_String n else ""%string in
  let ports := mkL4Ports (Some (render_port (SrcPort rule))) (Some (render_port (DestPort rule))) in
  mkAclRule (ID rule) (Some action)
    (Some (Some (mkAclIpRule (Some (mkAclIp (net (SrcNetwork rule)) (net (DestNetwork rule)))) false
      (if bool_decide (Protocol rule = TCP) then Some ports else None)
      (if bool_decide (Protocol rule = TCP) then None else Some ports) false))).

Definition renderInterfaces `{RangeOracle} (site : list Z) (interfaces : gset string) (ingress : bool) :
    AclInterfaces :=
  if ingress then mkAclInterfaces (range_set site interfaces) []
  else mkAclInterfaces [] (range_set site interfaces).

(** [renderACL] also stores the ACL in the list. *)
Definition renderACL `{RangeOracle} (h : heap) (ruleList : loc) (ingress : bool) : option (heap * Acl) :=
  o ← h !! ruleList;
  let acl := mkAcl (RL_ID o) (render_rule <$> default [] (RL_Rules o))
               (Some (renderInterfaces [31; Zpos ruleList]%Z (RL_Interfaces o) ingress)) in
  Some (<[ruleList := set_Private o (Some acl)]> h, acl).

(** One change; a list without a stored ACL fails the type assertion. *)
Definition renderChange `{RangeOracle} (h : heap) (change : TxnChange) (ingress : bool) :
    option (heap * AclOp) :=
  let l := change_List change in
  if bool_decide (PreviousInterfaces change = ∅) then
    '(h, acl) ← renderACL h l ingress; Some (h, PutACL acl)
  else
    o ← h !! l;
    acl ← RL_Private o;
    if negb (bool_decide (RL_Interfaces o = ∅)) then
      let acl := mkAcl (AclName acl) (AclRules acl)
                   (Some (renderInterfaces [32; Zpos l]%Z (RL_Interfaces o) ingress)) in
      Some (<[l := set_Private o (Some acl)]> h, PutACL acl)
    else Some (h, DeleteACL (AclName acl)).

Definition renderChanges `{RangeOracle} (h : heap) (ops : list AclOp) (changes : list TxnChange) (ingress : bool) :
    option (heap * list AclOp) :=
  foldM (λ '(h, ops) change, '(h, op) ← renderChange h change ingress; Some (h, ops ++ [op])) (h, ops) changes.

(** ** From ACLs to rules *)

(** A port range: [None] is a range the renderer does not produce. *)
Definition dump_port (r : option PortRange) : option Z :=
  match r with
  | None => Some 0%Z
  | Some r =>
    if negb (LowerPort r =? UpperPort r)%Z && (negb (LowerPort r =? 0)%Z || negb (UpperPort r =? maxPortNum)%Z)
    then None else Some (LowerPort r mod 65536)%Z
  end.

Definition dump_net (s : string) : option IPNet :=
  if bool_decide (s = ""%string) then Some emptyIPNet else snd <$> ParseCIDR s.

(** The outer option is a panic (a rule with neither TCP nor UDP ports), the
    inner one a rule that is skipped. *)
Definition dump_rule (aclRule : AclRule) : option (option ContivRule) :=
  match Actions aclRule with
  | None | Some AclPERMIT => Some None
  | Some action =>
    let action := match action with AclREFLECT => ActionPermit | _ => ActionDeny end in
    match Matches aclRule with
    | None | Some None => Some None
    | Some (Some ipRule) =>
      let ip := default (mkAclIp "" "") (IpRule_Ip ipRule) in
      match dump_net (SourceNetwork ip), dump_net (DestinationNetwork ip) with
      | Some src, Some dst =>
        if IpRule_Icmp ipRule || IpRule_Other ipRule then Some None
        else
          let '(proto, ports) :=
            match IpRule_Tcp ipRule with
            | Some ports => (TCP, Some ports)
            | None => (UDP, IpRule_Udp ipRule)
            end in
          ports ← ports;
          Some (sport ← dump_port (SourcePortRange ports); dport ← dump_port (DestinationPortRange ports);
                Some (mkContivRule (RuleName aclRule) action src dst proto sport dport))
      | _, _ => Some None
      end
    end
  end.

Definition dump_rules (rs : list AclRule) : option (list ContivRule) :=
  foldM (λ rules r, r ← dump_rule r; Some (rules ++ option_list r)) [] rs.

(** An ACL without interfaces is skipped; [true] is an ingress list. *)
Definition dump_acl (acl : Acl) : option (option (bool * ContivRuleList)) :=
  match Acl_Interfaces acl with
  | None => Some None
  | Some ifs =>
    if (length (AclIngress ifs) =? 0) && (length (AclEgress ifs) =? 0) then Some None
    else
      let isIngress := 0 <? length (AclIngress ifs) in
      let names := if isIngress then AclIngress ifs else AclEgress ifs in
      rules ← dump_rules (AclRules acl);
      Some (Some (isIngress, mkContivRuleList (AclName acl) (Some rules) (list_to_set names) (Some acl)))
  end.

Definition dumpVppACLConfig (h : heap) (aclDump : list Acl) : option (heap * list loc * list loc) :=
  foldM (λ '(h, ingress, egress) acl,
    r ← dump_acl acl;
    match r with
    | None => Some (h, ingress, egress)
    | Some (isIngress, o) =>
      let '(h, l) := alloc h o in
      Some (if isIngress : bool then (h, ingress ++ [l], egress) else (h, ingress, egress ++ [l]))
    end) (h, [], []) aclDump.

(** ** [Commit] *)

Inductive AclCommitError := DumpFailed | ResyncFailed (e : ResyncError) | SendFailed.

(** The heap, the cache, the random source and the agent. *)
Record AclState (A : Type) := mkAclState {
  st_heap : heap;
  st_cache : ContivRuleCache;
  st_rands : list (list Z);
  st_agent : A
}.
Arguments mkAclState {A}.
Arguments st_heap {A}.
Arguments st_cache {A}.
Arguments st_rands {A}.
Arguments st_agent {A}.

Section commit.
Context `{RangeOracle} {A : Type} `{!AclAgent A}.

(** The re-synchronization at the start: nothing without [resync]. *)
Definition resync_with_vpp (art : AclRendererTxn) (s : AclState A) : option (AclState A * option AclCommitError) :=
  if acl_resync art then
    match DumpACL (st_agent s) with
    | None => Some (s, Some DumpFailed)
    | Some aclDump =>
      '(h, dumpIngress, dumpEgress) ← dumpVppACLConfig (st_heap s) aclDump;
      '(h, crc, err) ← Resync h (st_cache s) dumpIngress dumpEgress;
      Some (mkAclState h crc (st_rands s) (st_agent s), option_map ResyncFailed err)
    end
  else Some (s, None).

(** The updates of the transaction, and for a resync the removal of what it
    does not mention. [txn.AllInterfaces()] is the set of the transaction
    itself, which the updates of the second loop extend. *)
Definition prepare_updates (art : AclRendererTxn) (h : heap) (crc : ContivRuleCache) (rands : list (list Z)) :
    option (heap * ContivRuleCache * ContivRuleCacheTxn * list (list Z)) :=
  st ← foldM (λ '(h, crc, crct, rands) '(ifName, config),
      Txn_Update h crc crct rands ifName (if_ingress config) (if_egress config))
    (h, crc, Cache_NewTxn, rands) (go_range [33]%Z (acl_config art));
  let '(h, crc, crct, rands) := st in
  if acl_resync art then
    foldM (λ '(h, crc, crct, rands) ifName,
      if bool_decide (ifName ∈ crct_interfaces crct) then Some (h, crc, crct, rands)
      else Txn_Update h crc crct rands ifName (Some []) (Some []))
      (h, crc, crct, rands) (range_set [34]%Z (Cache_AllInterfaces crc))
  else Some st.

(** The changes are rendered and sent, and saved into the cache if the agent
    accepts them. *)
Definition send_changes (h : heap) (crc : ContivRuleCache) (crct : ContivRuleCacheTxn) (rands : list (list Z))
    (agent : A) : option (AclState A * option AclCommitError) :=
  '(ingress, egress) ← Txn_Changes h crc crct;
  ingress ← filterEmpty h ingress;
  egress ← filterEmpty h egress;
  if (length ingress =? 0) && (length egress =? 0) then
    Some (mkAclState h crc rands agent, None)
  else
    '(h, ops) ← renderChanges h [] ingress true;
    '(h, ops) ← renderChanges h ops egress false;
    let '(agent, ok) := SendTxn agent ops in
    if negb ok then Some (mkAclState h crc rands agent, Some SendFailed)
    else
      '(h, crc) ← Txn_Commit h crc crct;
      Some (mkAclState h crc rands agent, None).

Definition AclRenderer_Commit (art : AclRendererTxn) (s : AclState A) :
    option (AclState A * option AclCommitError) :=
  '(s, err) ← resync_with_vpp art s;
  match err with
  | Some err => Some (s, Some err)
  | None =>
    '(h, crc, crct, rands) ← prepare_updates art (st_heap s) (st_cache s) (st_rands s);
    send_changes h crc crct rands (st_agent s)
  end.
End commit.
