(* ===== verification/AclRendererProofs.v ===== *)
(** * Correctness of the ACL renderer

    After a commit the ACLs of VPP are those of the cache: every interface has
    exactly one ACL per direction with the rules last rendered for it, none
    if there are no rules. *)

From Stdlib Require Import ZArith Lia Ascii String.
From stdpp Require Import prelude strings list gmap sorting.
From S2P Require Import Prelude Slots GoStrings GoNet KsrModel Utils Rules AclCache AclCacheProofs AclRenderer.

(** ** What the agent promises *)

(** The ACLs by name, after a transaction of the local client. *)
Definition apply_op (acls : gmap string Acl) (op : AclOp) : gmap string Acl :=
  match op with
  | PutACL acl => <[AclName acl := acl]> acls
  | DeleteACL name => delete name acls
  end.
Definition apply_ops : gmap string Acl → list AclOp → gmap string Acl := foldl apply_op.

Class AclAgentLaws (A : Type) `{!AclAgent A} := {
  agent_acls : A → gmap string Acl;
  agent_dump a acls : DumpACL a = Some acls → acls ≡ₚ (map_to_list (agent_acls a)).*2;
  agent_send a ops a' : SendTxn a ops = (a', true) → agent_acls a' = apply_ops (agent_acls a) ops
}.

(** ** Descriptions: the lists by ID *)

Abbreviation desc := (string → option (option (list ContivRule) * gset string)) (only parsing).

Definition list_desc (h : heap) (l : positive) : option (list ContivRule) * gset string := (rules_of h l, ifs_of h l).

Definition desc_base (h : heap) (base : ContivRuleLists) : desc := λ id, list_desc h <$> byID base !! id.

(** A transaction: the lists of the head hide those of the cache. *)
Definition desc_txn (h : heap) (base head : ContivRuleLists) : desc := λ id,
  match byID head !! id with
  | Some l => Some (list_desc h l)
  | None => desc_base h base id
  end.

(** The lists are the fibres of the map from interfaces to rules. *)
Record describes (d : desc) (v : string → option (option (list ContivRule))) : Prop := {
  ds_ifs id r ifs i : d id = Some (r, ifs) → i ∈ ifs ↔ v i = Some r;
  ds_rules i r : v i = Some r → ∃ id ifs, d id = Some (r, ifs);
  ds_unique id id' r ifs ifs' : d id = Some (r, ifs) → d id' = Some (r, ifs') → id = id'
}.

Lemma desc_base_Some h base id r ifs :
  desc_base h base id = Some (r, ifs) ↔ ∃ b, byID base !! id = Some b ∧ rules_of h b = r ∧ ifs_of h b = ifs.
Proof.
  unfold desc_base, list_desc. destruct (byID base !! id) as [b|]; simpl; [|naive_solver].
  split; [intros [= <- <-]; eauto|]. by intros (? & [= <-] & <- & <-).
Qed.

Lemma wf_describes h base ls :
  wf h base ls → describes (desc_base h base) (λ i, rules_of h <$> byInterface base !! i).
Proof.
  intros Hw. split.
  - intros id r ifs i (b & Hb & <- & <-)%desc_base_Some. apply (wf_byID _ _ _ Hw) in Hb as [Hb _].
    rewrite fmap_Some. split.
    + intros Hi. exists b. split; [by apply (wf_byIf _ _ _ Hw)|done].
    + intros (b' & [Hb' Hi]%(wf_byIf _ _ _ Hw) & Heq). by rewrite (rules_unique h base ls b b').
  - intros i r (b & [Hb Hi]%(wf_byIf _ _ _ Hw) & ->)%fmap_Some. exists (id_of h b), (ifs_of h b).
    apply desc_base_Some. exists b. split; [by apply (wf_byID _ _ _ Hw)|done].
  - intros id id' r ifs ifs' (b & Hb & Hr & _)%desc_base_Some (b' & Hb' & Hr' & _)%desc_base_Some.
    apply (wf_byID _ _ _ Hw) in Hb as [Hb <-], Hb' as [Hb' <-].
    rewrite (rules_unique h base ls b b'); [done..|congruence].
Qed.

Section txn_describes.
Context (dir : TrafficDirection) (h : heap) (base head : ContivRuleLists) (bls hls : list positive)
  (allocated : gset string).
Hypothesis Hinv : txn_inv dir h base head bls hls allocated.

(** A cached list that the transaction has not touched shares its rules with no
    list of the head. *)
Lemma untouched_rules id b l :
  byID base !! id = Some b → byID head !! id = None → l ∈ hls → rules_of h l ≠ rules_of h b.
Proof.
  pose proof Hinv as [Hb Hh _ Hk _ _ _]. intros Eb Eh Hl Heq. specialize (Hk l Hl).
  apply (wf_byID _ _ _ Hb) in Eb as [Hbb Hid]. destruct (byID base !! id_of h l) as [b'|] eqn:E.
  - apply (wf_byID _ _ _ Hb) in E as [Hb' Hid'].
    assert (b' = b) as -> by (eapply (rules_unique h base bls); [done..|congruence]).
    assert (byID head !! id_of h l = Some l) as E' by (by apply (wf_byID _ _ _ Hh)). congruence.
  - by apply (Hk b).
Qed.

Lemma desc_txn_Some id r ifs :
  desc_txn h base head id = Some (r, ifs) ↔
  (∃ l, l ∈ hls ∧ id_of h l = id ∧ rules_of h l = r ∧ ifs_of h l = ifs) ∨
  (∃ b, byID head !! id = None ∧ byID base !! id = Some b ∧ b ∈ bls ∧ id_of h b = id ∧ rules_of h b = r ∧ ifs_of h b = ifs).
Proof.
  pose proof Hinv as [Hb Hh _ _ _ _ _]. unfold desc_txn, list_desc. destruct (byID head !! id) as [l|] eqn:E.
  - pose proof (proj1 (wf_byID _ _ _ Hh _ _) E) as [Hl Hid]. split.
    + intros [= <- <-]. left. eauto.
    + intros [(l' & Hl' & Hid' & <- & <-)|(b & ? & _)]; [|done].
      by rewrite (id_unique h head hls l l' Hh) by (done || congruence).
  - rewrite desc_base_Some. split.
    + intros (b & Hb' & ? & ?). right. exists b. pose proof (proj1 (wf_byID _ _ _ Hb _ _) Hb') as [? ?]. done.
    + intros [(l & Hl & Hid & _)|(b & _ & ? & _ & _ & ? & ?)]; [|eauto].
      assert (byID head !! id = Some l) by (by apply (wf_byID _ _ _ Hh)). congruence.
Qed.

Lemma view_head l i : l ∈ hls → i ∈ ifs_of h l ↔ view h base head i = Some (rules_of h l).
Proof.
  pose proof Hinv as [Hb Hh Hd Hk Ht Hc _]. intros Hl. unfold view. split.
  - intros Hi. by rewrite (proj2 (wf_byIf _ _ _ Hh i l)).
  - destruct (byInterface head !! i) as [l'|] eqn:E.
    + apply (wf_byIf _ _ _ Hh) in E as [Hl' Hi]. intros [= Heq]. by rewrite (rules_unique h head hls l l').
    + intros (b & Eb & Heq)%fmap_Some. exfalso. pose proof (proj1 (wf_byIf _ _ _ Hb _ _) Eb) as [Hbb _].
      assert (byID base !! id_of h b = Some b) as Eid by (by apply (wf_byID _ _ _ Hb)).
      destruct (byID head !! id_of h b) as [x|] eqn:Ex.
      * destruct (Ht i b Eb) as [y Hy]; [by rewrite Ex|congruence].
      * by apply (untouched_rules _ b l Eid Ex Hl).
Qed.

Lemma view_base id b i :
  byID base !! id = Some b → byID head !! id = None → i ∈ ifs_of h b ↔ view h base head i = Some (rules_of h b).
Proof.
  pose proof Hinv as [Hb Hh Hd Hk Ht Hc _]. intros Eb Eh.
  pose proof (proj1 (wf_byID _ _ _ Hb _ _) Eb) as [Hbb Hid]. unfold view. split.
  - intros Hi. assert (byInterface base !! i = Some b) as E by (by apply (wf_byIf _ _ _ Hb)).
    destruct (byInterface head !! i) as [l|] eqn:El; [|by rewrite E].
    destruct (Hc i b E) as [x Hx]; [by rewrite El|congruence].
  - destruct (byInterface head !! i) as [l|] eqn:El.
    + apply (wf_byIf _ _ _ Hh) in El as [Hl _]. intros [= Heq]. by apply (untouched_rules _ b l Eb Eh Hl) in Heq.
    + intros (b' & [Hb' Hi]%(wf_byIf _ _ _ Hb) & Heq)%fmap_Some. by rewrite (rules_unique h base bls b b').
Qed.

Lemma txn_describes : describes (desc_txn h base head) (view h base head).
Proof.
  pose proof Hinv as [Hb Hh Hd Hk Ht Hc _]. split.
  - intros id r ifs i [(l & Hl & _ & <- & <-)|(b & ? & ? & _ & _ & <- & <-)]%desc_txn_Some;
      [by apply view_head|by eapply view_base].
  - intros i r Hv. unfold view in Hv. destruct (byInterface head !! i) as [l|] eqn:El.
    + apply (wf_byIf _ _ _ Hh) in El as [Hl _]. simplify_eq. exists (id_of h l), (ifs_of h l).
      apply desc_txn_Some. left. eauto.
    + apply fmap_Some in Hv as (b & Eb & ->). pose proof (proj1 (wf_byIf _ _ _ Hb _ _) Eb) as [Hbb Hi].
      assert (byID base !! id_of h b = Some b) as Eid by (by apply (wf_byID _ _ _ Hb)).
      exists (id_of h b), (ifs_of h b). apply desc_txn_Some. right. exists b. split_and!; try done.
      destruct (byID head !! id_of h b) eqn:Ex; [|done]. destruct (Ht i b Eb) as [y Hy]; [by rewrite Ex|congruence].
  - intros id id' r ifs ifs' [(l & Hl & <- & Hr & _)|(b & Eh & Eb & Hbb & <- & Hr & _)]%desc_txn_Some
      [(l' & Hl' & <- & Hr' & _)|(b' & Eh' & Eb' & Hbb' & <- & Hr' & _)]%desc_txn_Some.
    + by rewrite (rules_unique h head hls l l') by (done || congruence).
    + exfalso. apply (untouched_rules _ b' l Eb' Eh' Hl). congruence.
    + exfalso. apply (untouched_rules _ b l' Eb Eh Hl'). congruence.
    + by rewrite (rules_unique h base bls b b') by (done || congruence).
Qed.
End txn_describes.

(** The commit of a transaction: the lists of the cache are those the
    transaction describes, but for lists without interfaces. *)
Lemma commit_desc `{RangeOracle} dir h base head bls hls allocated h' base' ls' :
  txn_inv dir h base head bls hls allocated → wf h' base' ls' → same_data h h' →
  (∀ x, x ∈ ls' → x ∈ bls ∨ x ∈ hls) →
  (∀ i, rules_of h' <$> byInterface base' !! i = view h base head i) →
  (∀ id d, desc_base h' base' id = Some d → desc_txn h base head id = Some d) ∧
  (∀ id r ifs, desc_txn h base head id = Some (r, ifs) → ifs ≠ ∅ → desc_base h' base' id = Some (r, ifs)).
Proof.
  intros Hinv Hw' Hsd Hnew Hv. pose proof (txn_describes _ _ _ _ _ _ _ Hinv) as Hdt.
  pose proof (wf_describes _ _ _ Hw') as Hdb. pose proof Hinv as [Hb Hh _ Hk _ _ _].
  assert (∀ id d, desc_base h' base' id = Some d → desc_txn h base head id = Some d) as Hfwd.
  { intros id [r ifs] Hd. pose proof Hd as (x & Hx & Hr & _)%desc_base_Some.
    apply (wf_byID _ _ _ Hw') in Hx as [Hx Hid]. rewrite (sd_id _ _ Hsd) in Hid. rewrite (sd_rules _ _ Hsd) in Hr.
    assert (∃ ifs', desc_txn h base head id = Some (r, ifs')) as [ifs' Hd'].
    { destruct (Hnew x Hx) as [Hxb|Hxh].
      - assert (byID base !! id = Some x) as Ex by (by apply (wf_byID _ _ _ Hb)).
        destruct (byID head !! id) as [l|] eqn:El.
        + apply (wf_byID _ _ _ Hh) in El as [Hl Hlid]. specialize (Hk l Hl). rewrite Hlid, Ex in Hk.
          exists (ifs_of h l). apply (desc_txn_Some _ _ _ _ _ _ _ Hinv). left. exists l. split_and!; congruence.
        + exists (ifs_of h x). apply (desc_txn_Some _ _ _ _ _ _ _ Hinv). right. by exists x.
      - exists (ifs_of h x). apply (desc_txn_Some _ _ _ _ _ _ _ Hinv). left. by exists x. }
    rewrite Hd'. do 2 f_equal. apply set_eq. intros i.
    by rewrite (ds_ifs _ _ Hdt id r ifs' i Hd'), <-Hv, <-(ds_ifs _ _ Hdb id r ifs i Hd). }
  split; [done|]. intros id r ifs Hd Hne. apply set_choose_L in Hne as [i Hi].
  apply (ds_ifs _ _ Hdt id r ifs i Hd) in Hi. rewrite <-Hv in Hi.
  destruct (ds_rules _ _ Hdb i r Hi) as (id' & ifs' & Hd'). pose proof (Hfwd _ _ Hd') as Hd''.
  assert (id = id') as <- by (by eapply (ds_unique _ _ Hdt)). congruence.
Qed.

(** ** The ACLs of VPP *)

Definition dir_interfaces (dir : TrafficDirection) (names : list string) : AclInterfaces :=
  match dir with Ingress => mkAclInterfaces names [] | Egress => mkAclInterfaces [] names end.

(** The ACL [a] installed for a list with rules [r] and interfaces [ifs]. *)
Definition acl_ok (dir : TrafficDirection) (id : string) (r : option (list ContivRule)) (ifs : gset string)
    (a : option Acl) : Prop :=
  if decide (len_of_rules r = 0 ∨ ifs = ∅) then a = None
  else ∃ acl names, a = Some acl ∧ AclName acl = id ∧ AclRules acl = render_rule <$> default [] r ∧
    Acl_Interfaces acl = Some (dir_interfaces dir names) ∧ (∀ i, i ∈ names ↔ i ∈ ifs).

Definition installed (dir : TrafficDirection) (d : desc) (acls : gmap string Acl) : Prop :=
  ∀ id r ifs, d id = Some (r, ifs) → acl_ok dir id r ifs (acls !! id).

Definition closed_dir (dir : TrafficDirection) (d : desc) (acls : gmap string Acl) : Prop :=
  ∀ suffix, is_Some (acls !! id_text dir suffix) → is_Some (d (id_text dir suffix)).

Definition contiv_only (acls : gmap string Acl) : Prop :=
  ∀ name, is_Some (acls !! name) → ∃ dir suffix, name = id_text dir suffix.

(** The interfaces of an ACL in a direction. *)
Definition acl_names (dir : TrafficDirection) (acl : Acl) : list string :=
  match Acl_Interfaces acl with
  | None => []
  | Some ifs => match dir with Ingress => AclIngress ifs | Egress => AclEgress ifs end
  end.

(** The rules VPP applies to the traffic of an interface in a direction, one
    list for each ACL. *)
Definition vpp_acl_rules (acls : gmap string Acl) (dir : TrafficDirection) (i : string) : list (list AclRule) :=
  AclRules <$> filter (λ acl, i ∈ acl_names dir acl) (map_to_list acls).*2.

(** The rules expected there. *)
Definition rendered (v : option (option (list ContivRule))) : list (list AclRule) :=
  match v with
  | Some r => if len_of_rules r =? 0 then [] else [render_rule <$> default [] r]
  | None => []
  end.

Lemma filter_values {K V} (l : list (K * V)) (P : V → Prop) `{!∀ v, Decision (P v)} :
  filter P l.*2 = (filter (λ kv, P kv.2) l).*2.
Proof.
  induction l as [|[k v] l IH]; [done|]. csimpl. rewrite !filter_cons. simpl. by destruct (decide (P v)); csimpl; rewrite IH.
Qed.

(** At most one entry satisfies a predicate. *)
Lemma filter_map_values {V} (m : gmap string V) (P : V → Prop) `{!∀ v, Decision (P v)} (o : option (string * V)) :
  (∀ k v, m !! k = Some v ∧ P v ↔ o = Some (k, v)) → filter P (map_to_list m).*2 = (option_list o).*2.
Proof.
  intros Ho. rewrite filter_values. f_equal.
  assert (filter (λ kv : string * V, P kv.2) (map_to_list m) ≡ₚ option_list o) as Hp.
  { apply NoDup_Permutation.
    - apply NoDup_filter, NoDup_map_to_list.
    - destruct o; simpl; [apply NoDup_singleton|apply NoDup_nil_2].
    - intros [k v]. rewrite list_elem_of_filter, elem_of_map_to_list. simpl. rewrite (and_comm (P v)), Ho.
      destruct o as [[k' v']|]; simpl; [rewrite list_elem_of_singleton; naive_solver|].
      split; [done|]. by intros ?%elem_of_nil. }
  destruct o; [by apply Permutation_singleton_r|by apply Permutation_nil_r].
Qed.

Lemma id_text_dir dir dir' s s' : id_text dir s = id_text dir' s' → dir = dir'.
Proof. by destruct dir, dir'. Qed.

(** The meaning of the installed ACLs. *)
Section vpp_acl_rules.
Context (dI dE : desc) (acls : gmap string Acl).
Hypothesis HiI : installed Ingress dI acls.
Hypothesis HiE : installed Egress dE acls.
Hypothesis HcI : closed_dir Ingress dI acls.
Hypothesis HcE : closed_dir Egress dE acls.
Hypothesis Honly : contiv_only acls.

Definition dir_desc (dir : TrafficDirection) : desc := match dir with Ingress => dI | Egress => dE end.

Lemma dir_installed dir : installed dir (dir_desc dir) acls ∧ closed_dir dir (dir_desc dir) acls.
Proof. by destruct dir. Qed.

(** An ACL on an interface is the one of a list with the interface. *)
Lemma acl_on_interface dir name acl i :
  acls !! name = Some acl → i ∈ acl_names dir acl →
  ∃ r ifs, dir_desc dir name = Some (r, ifs) ∧ i ∈ ifs ∧ len_of_rules r ≠ 0 ∧
    AclRules acl = render_rule <$> default [] r.
Proof.
  intros Hacl Hi. destruct (Honly name) as (dir' & s & ->); [eauto|].
  destruct (dir_installed dir') as [Hin Hcl]. destruct (Hcl s) as [[r ifs] Hr]; [by rewrite Hacl|].
  pose proof (Hin _ _ _ Hr) as Hok. unfold acl_ok in Hok. rewrite Hacl in Hok. destruct (decide _) as [|Hne]; [done|].
  destruct Hok as (acl' & names & [= <-] & _ & Hrules & Hifs & Hnames). unfold acl_names in Hi. rewrite Hifs in Hi.
  assert (dir' = dir ∧ i ∈ names) as [-> Hi'] by (destruct dir, dir'; simpl in Hi; [done|by apply elem_of_nil in Hi..|done]).
  exists r, ifs. split_and!; [done|by apply Hnames|tauto|done].
Qed.

Lemma vpp_acl_rules_spec dir v i :
  describes (dir_desc dir) v → vpp_acl_rules acls dir i = rendered (v i).
Proof.
  intros Hd. unfold vpp_acl_rules.
  assert (∀ name acl, acls !! name = Some acl → i ∈ acl_names dir acl →
    ∃ r ifs, dir_desc dir name = Some (r, ifs) ∧ v i = Some r ∧ len_of_rules r ≠ 0) as Hfrom.
  { intros name acl Hacl Hi. destruct (acl_on_interface dir name acl i Hacl Hi) as (r & ifs & Hr & Hi' & Hne & _).
    exists r, ifs. by rewrite <-(ds_ifs _ _ Hd _ _ _ i Hr). }
  assert ((∃ r, v i = Some r ∧ len_of_rules r ≠ 0) ∨ ¬ (∃ r, v i = Some r ∧ len_of_rules r ≠ 0))
    as [(r & Ev & Hne)|Hno] by (destruct (v i) as [r|]; [destruct (decide (len_of_rules r = 0))|]; naive_solver).
  - destruct (ds_rules _ _ Hd i r Ev) as (id & ifs & Hid). pose proof (proj2 (ds_ifs _ _ Hd id r ifs i Hid) Ev) as Hi.
    pose proof (proj1 (dir_installed dir) _ _ _ Hid) as Hok. unfold acl_ok in Hok.
    rewrite decide_False in Hok by (intros [?| ->]; set_solver).
    destruct Hok as (acl & names & Hacl & _ & Hrules & Hifs & Hnames).
    rewrite (filter_map_values acls _ (Some (id, acl))).
    + simpl. rewrite Ev, Hrules. simpl. by rewrite (proj2 (Nat.eqb_neq _ _) Hne).
    + intros name acl'. split; [|intros [= <- <-]].
      * intros [Hacl' Hi']. destruct (Hfrom _ _ Hacl' Hi') as (r' & ifs' & Hr' & Ev' & _).
        rewrite Ev in Ev'. simplify_eq. assert (id = name) as <- by (by eapply (ds_unique _ _ Hd)). congruence.
      * split; [done|]. unfold acl_names. rewrite Hifs. destruct dir; by apply Hnames.
  - rewrite (filter_map_values acls _ None).
    + simpl. destruct (v i) as [r|]; [|done]. simpl. destruct (Nat.eqb_spec (len_of_rules r) 0); [done|].
      exfalso. apply Hno. eauto.
    + intros name acl. split; [|done]. intros [Hacl Hi]. destruct (Hfrom _ _ Hacl Hi) as (r & _ & _ & ? & ?).
      exfalso. apply Hno. eauto.
Qed.
End vpp_acl_rules.

(** ** Rendering the changes of one direction *)

(** The heaps differ in private data only. *)
Record same_lists (h h' : heap) : Prop := {
  sl_data : same_data h h';
  sl_ifs l : ifs_of h' l = ifs_of h l
}.

#[global] Instance same_lists_refl : Reflexive same_lists.
Proof. by split. Qed.
#[global] Instance same_lists_trans : Transitive same_lists.
Proof. intros h1 h2 h3 [D1 I1] [D2 I2]. split; [by etrans|]. intros l. by rewrite I2. Qed.

Lemma same_lists_set_Private h l o p : h !! l = Some o → same_lists h (<[l := set_Private o p]> h).
Proof.
  intros Ho. split; [split|]; intros l'; unfold rules_of, id_of, ifs_of;
    (destruct (decide (l = l')) as [<-|]; [rewrite lookup_insert_eq, Ho|rewrite lookup_insert_ne by done]; done).
Qed.

(** The same for some lists. *)
Record same_on (ls : list positive) (h h' : heap) : Prop := {
  so_dom l : l ∈ ls → is_Some (h' !! l);
  so_rules l : l ∈ ls → rules_of h' l = rules_of h l;
  so_id l : l ∈ ls → id_of h' l = id_of h l;
  so_ifs l : l ∈ ls → ifs_of h' l = ifs_of h l
}.

Lemma wf_same_on h h' crls ls ls' : ls ⊆ ls' → same_on ls' h h' → wf h crls ls → wf h' crls ls.
Proof.
  intros Hsub [D R I F] Hw. split; [apply Hw|apply Hw|auto| | |].
  - rewrite (list_fmap_ext _ (rules_of h)); [apply Hw|]. intros i l ?%list_elem_of_lookup_2. auto.
  - intros id l. rewrite (wf_byID _ _ _ Hw). split; intros [? ?]; (split; [done|]); [rewrite I|rewrite <-I]; auto.
  - intros i l. rewrite (wf_byIf _ _ _ Hw). split; intros [? ?]; (split; [done|]); [rewrite F|rewrite <-F]; auto.
Qed.

Section same_on.
Context (dir : TrafficDirection) (h h' : heap) (base head : ContivRuleLists) (bls hls : list positive)
  (allocated : gset string).
Hypothesis Hs : same_on (bls ++ hls) h h'.
Hypothesis Hinv : txn_inv dir h base head bls hls allocated.

Lemma txn_inv_same_on : txn_inv dir h' base head bls hls allocated.
Proof.
  destruct Hinv as [Hb Hh Hd Hk Ht Hc Ha]. pose proof Hs as [D R I F].
  assert (∀ l, l ∈ bls ∨ l ∈ hls → l ∈ bls ++ hls) as Happ by (intros l; by rewrite elem_of_app).
  assert (∀ i b, byInterface base !! i = Some b → b ∈ bls) as Hbin by (intros i b ?%(wf_byIf _ _ _ Hb); tauto).
  split; [eapply wf_same_on; [|done|done]; intros l ?; auto|eapply wf_same_on; [|done|done]; intros l ?; auto|done| | | |done].
  - intros l Hl. rewrite I, R by auto. specialize (Hk l Hl). destruct (byID base !! id_of h l) as [b|] eqn:E.
    + apply (wf_byID _ _ _ Hb) in E as [? _]. by rewrite R by auto.
    + intros b Hbb. rewrite R by auto. by apply Hk.
  - intros i b Hib. rewrite I by eauto. by apply Ht.
  - intros i b Hib. rewrite I by eauto. by apply Hc.
Qed.

Lemma desc_txn_same_on id : desc_txn h' base head id = desc_txn h base head id.
Proof.
  destruct Hinv as [Hb Hh _ _ _ _ _]. destruct Hs as [_ R _ F]. unfold desc_txn, desc_base, list_desc.
  destruct (byID head !! id) as [l|] eqn:E; [|destruct (byID base !! id) as [b|] eqn:E'; [simpl|done]].
  - apply (wf_byID _ _ _ Hh) in E as [? _]. rewrite R, F by (apply elem_of_app; by right). done.
  - apply (wf_byID _ _ _ Hb) in E' as [? _]. rewrite R, F by (apply elem_of_app; by left). done.
Qed.

Lemma view_same_on i : view h' base head i = view h base head i.
Proof.
  destruct Hinv as [Hb Hh _ _ _ _ _]. apply (view_frame h h' base head bls hls); [done..|].
  intros l Hl. apply Hs. by apply elem_of_app.
Qed.
End same_on.

(** What [getChanges] makes of a list of the head. *)
Definition change_of (h : heap) (base : ContivRuleLists) (l : positive) : option TxnChange :=
  match byID base !! id_of h l with
  | None => if decide (ifs_of h l = ∅) then None else Some (mkTxnChange l ∅)
  | Some b => if decide (ifs_of h l = ifs_of h b) then None else Some (mkTxnChange l (ifs_of h b))
  end.

Lemma getChanges_spec `{RangeOracle} h base head bls hls :
  wf h base bls → wf h head hls → getChanges h head base = Some (omap (change_of h base) hls).
Proof.
  intros Hb Hh. unfold getChanges. rewrite (wf_lists _ _ _ Hh).
  assert (∀ l, l ∈ hls → is_Some (h !! l)) as Hd by (apply Hh).
  assert (∀ cs, foldM (λ changes p, l ← p; o ← h !! l;
    let size_zero := bool_decide (RL_Interfaces o = ∅) in
    match LookupByID base (RL_ID o) with
    | None => if size_zero then Some changes else Some (changes ++ [mkTxnChange l ∅])
    | Some orig => oo ← h !! orig;
      if InterfaceSet_Equals [22; Zpos l]%Z (RL_Interfaces o) (RL_Interfaces oo) then Some changes
      else Some (changes ++ [mkTxnChange l (RL_Interfaces oo)])
    end) cs (Some <$> hls) = Some (cs ++ omap (change_of h base) hls)) as Hgen; [|apply (Hgen [])].
  clear Hh. induction hls as [|l hls IH]; intros cs; csimpl; [by rewrite app_nil_r|].
  destruct (Hd l) as [o Ho]; [by left|]. rewrite Ho. csimpl. unfold change_of at 1, id_of, ifs_of, LookupByID. rewrite Ho. simpl.
  destruct (byID base !! RL_ID o) as [b|] eqn:Eb.
  - pose proof (proj1 (wf_byID _ _ _ Hb _ _) Eb) as [Hbb _]. destruct (wf_heap _ _ _ Hb b Hbb) as [oo Hoo].
    rewrite Hoo. csimpl. rewrite InterfaceSet_Equals_spec.
    case_bool_decide; [rewrite decide_True by done|rewrite decide_False by done]; csimpl;
      rewrite IH by (intros; apply Hd; by right); by rewrite <-?app_assoc.
  - case_bool_decide; [rewrite decide_True by done|rewrite decide_False by done]; csimpl;
      rewrite IH by (intros; apply Hd; by right); by rewrite <-?app_assoc.
Qed.

Definition nonempty_change (h : heap) (c : TxnChange) : Prop := len_of_rules (rules_of h (change_List c)) ≠ 0.
#[global] Instance nonempty_change_dec h c : Decision (nonempty_change h c).
Proof. unfold nonempty_change. apply _. Defined.

Lemma filterEmpty_spec h cs :
  (∀ c, c ∈ cs → is_Some (h !! change_List c)) → filterEmpty h cs = Some (filter (nonempty_change h) cs).
Proof.
  intros Hd. unfold filterEmpty.
  assert (∀ acc, foldM (λ filtered change, o ← h !! change_List change;
    Some (if 0 <? len_of_rules (RL_Rules o) then filtered ++ [change] else filtered)) acc cs =
    Some (acc ++ filter (nonempty_change h) cs)) as Hgen; [|apply (Hgen [])].
  induction cs as [|c cs IH]; intros acc; cbn [foldM]; [by rewrite app_nil_r|].
  destruct (Hd c) as [o Ho]; [by left|]. rewrite Ho. cbn [mbind option_bind].
  rewrite IH by (intros; apply Hd; by right). f_equal. rewrite filter_cons.
  assert (nonempty_change h c ↔ len_of_rules (RL_Rules o) ≠ 0) as Hne
    by (unfold nonempty_change, rules_of; by rewrite Ho).
  destruct (Nat.ltb_spec 0 (len_of_rules (RL_Rules o))).
  - rewrite decide_True by (apply Hne; lia). by rewrite <-app_assoc.
  - rewrite decide_False; [done|]. rewrite Hne. lia.
Qed.

(** The ACL stored for a list has its name and rules. *)
Definition good_acl (h : heap) (l : positive) (a : option Acl) : Prop :=
  ∃ acl, a = Some acl ∧ AclName acl = id_of h l ∧ AclRules acl = render_rule <$> default [] (rules_of h l).

Definition is_ingress (dir : TrafficDirection) : bool := match dir with Ingress => true | Egress => false end.

(** What a change needs to be rendered. *)
Definition renderable (h : heap) (c : TxnChange) : Prop :=
  is_Some (h !! change_List c) ∧ nonempty_change h c ∧
  (PreviousInterfaces c = ∅ → ifs_of h (change_List c) ≠ ∅) ∧
  (PreviousInterfaces c ≠ ∅ → good_acl h (change_List c) (priv_of h (change_List c))).

(** The item sent for a change. *)
Definition op_ok (dir : TrafficDirection) (h : heap) (c : TxnChange) (op : AclOp) : Prop :=
  let l := change_List c in
  if decide (ifs_of h l = ∅) then op = DeleteACL (id_of h l)
  else ∃ acl, op = PutACL acl ∧ AclName acl = id_of h l ∧ acl_ok dir (id_of h l) (rules_of h l) (ifs_of h l) (Some acl).

Lemma renderInterfaces_spec `{RangeOracle} site ifs dir :
  ∃ names, renderInterfaces site ifs (is_ingress dir) = dir_interfaces dir names ∧ (∀ i, i ∈ names ↔ i ∈ ifs).
Proof.
  exists (range_set site ifs). split; [by destruct dir|]. intros i. apply elem_of_range_set.
Qed.

Lemma renderChange_spec `{RangeOracle} dir h c :
  renderable h c →
  ∃ h' op, renderChange h c (is_ingress dir) = Some (h', op) ∧ op_ok dir h c op ∧ same_lists h h' ∧
    (∀ x, x ≠ change_List c → h' !! x = h !! x) ∧
    (ifs_of h (change_List c) ≠ ∅ → good_acl h (change_List c) (priv_of h' (change_List c))).
Proof.
  destruct c as [l prev]. unfold renderable, renderChange, nonempty_change, op_ok; simpl. intros ([o Ho] & Hne & Hnew & Hold).
  assert (id_of h l = RL_ID o ∧ rules_of h l = RL_Rules o ∧ ifs_of h l = RL_Interfaces o ∧ priv_of h l = RL_Private o)
    as (Eid & Er & Ei & Ep) by (unfold id_of, rules_of, ifs_of, priv_of; by rewrite Ho).
  rewrite Ep, Ei in *. unfold good_acl, acl_ok in *. rewrite Eid, Er in *.
  assert (∀ p, (∀ x, x ≠ l → <[l := set_Private o p]> h !! x = h !! x) ∧ priv_of (<[l := set_Private o p]> h) l = p) as Hp.
  { intros p. split; [intros x ?; by apply lookup_insert_ne|]. unfold priv_of. by rewrite lookup_insert_eq. }
  case_bool_decide as Hprev.
  - unfold renderACL. rewrite Ho. cbn [mbind option_bind]. eexists _, _. split; [done|].
    destruct (renderInterfaces_spec [31; Zpos l]%Z (RL_Interfaces o) dir) as (names & -> & Hnames).
    split; [|split; [by apply same_lists_set_Private|split; [apply Hp|]]].
    + rewrite decide_False by auto. eexists. split; [done|]. split; [done|].
      rewrite decide_False by (specialize (Hnew Hprev); tauto). by eexists _, names.
    + intros _. rewrite (proj2 (Hp _)). by eexists.
  - rewrite Ho. cbn [mbind option_bind]. destruct (Hold Hprev) as (acl & -> & Hname & Hrules). cbn [mbind option_bind].
    destruct (decide (RL_Interfaces o = ∅)) as [He|He].
    + rewrite bool_decide_true by done. simpl. exists h, (DeleteACL (AclName acl)).
      split_and!; [done|by rewrite Hname|done|done|done].
    + rewrite bool_decide_false by done. simpl.
      destruct (renderInterfaces_spec [32; Zpos l]%Z (RL_Interfaces o) dir) as (names & -> & Hnames).
      eexists _, _. split; [done|]. split; [|split; [by apply same_lists_set_Private|split; [apply Hp|]]].
      * eexists. split; [done|]. split; [done|]. rewrite decide_False by tauto. by eexists _, names.
      * intros _. rewrite (proj2 (Hp _)). by eexists.
Qed.

Lemma renderable_frame h h' c :
  same_lists h h' → h' !! change_List c = h !! change_List c → renderable h c → renderable h' c.
Proof.
  intros [[D R I] F] Heq. unfold renderable, nonempty_change, good_acl. rewrite R, I, F, Heq. unfold priv_of. by rewrite Heq.
Qed.

Lemma op_ok_same dir h h' c op : same_lists h h' → op_ok dir h' c op → op_ok dir h c op.
Proof. intros [[D R I] F]. unfold op_ok. by rewrite R, I, F. Qed.

Lemma good_acl_same h h' l a : same_lists h h' → good_acl h' l a ↔ good_acl h l a.
Proof. intros [[D R I] F]. unfold good_acl. by rewrite R, I. Qed.

Lemma renderChanges_spec `{RangeOracle} dir cs h ops :
  NoDup (change_List <$> cs) → (∀ c, c ∈ cs → renderable h c) →
  ∃ h' ops', renderChanges h ops cs (is_ingress dir) = Some (h', ops ++ ops') ∧ Forall2 (op_ok dir h) cs ops' ∧
    same_lists h h' ∧ (∀ x, x ∉ change_List <$> cs → h' !! x = h !! x) ∧
    (∀ c, c ∈ cs → ifs_of h (change_List c) ≠ ∅ → good_acl h (change_List c) (priv_of h' (change_List c))).
Proof.
  revert h ops. unfold renderChanges. induction cs as [|c cs IH]; intros h ops Hnd Hr; csimpl.
  { exists h, []. rewrite app_nil_r. split_and!; [done|constructor|done|done|by intros c ?%elem_of_nil]. }
  apply NoDup_cons in Hnd as [Hc Hnd].
  destruct (renderChange_spec dir h c) as (h1 & op & -> & Hop & Hs1 & Hf1 & Hg1); [apply Hr; by left|]. csimpl.
  destruct (IH h1 (ops ++ [op]) Hnd) as (h2 & ops2 & Heq & Hops & Hs2 & Hf2 & Hg2).
  { intros c' Hc'. eapply renderable_frame; [done| |apply Hr; by right]. apply Hf1. intros Heq. apply Hc. rewrite <-Heq.
    by apply list_elem_of_fmap_2. }
  exists h2, (op :: ops2). rewrite Heq, <-app_assoc. split_and!; [done| |by etrans| |].
  - constructor; [done|]. eapply Forall2_impl; [done|]. intros c' op' ?. by eapply op_ok_same.
  - intros x Hx. apply not_elem_of_cons in Hx as [? ?]. by rewrite Hf2, Hf1.
  - intros c' [->|Hc']%elem_of_cons Hi.
    + unfold priv_of. rewrite Hf2 by done. by apply Hg1.
    + apply (good_acl_same h h1); [done|]. apply Hg2; [done|]. by rewrite (sl_ifs _ _ Hs1).
Qed.

(** What the transaction makes of the installed ACLs. *)
Lemma apply_ops_spec dir h cs ops acls :
  Forall2 (op_ok dir h) cs ops → NoDup (id_of h <$> (change_List <$> cs)) → (∀ c, c ∈ cs → nonempty_change h c) →
  (∀ c, c ∈ cs → let l := change_List c in
     acl_ok dir (id_of h l) (rules_of h l) (ifs_of h l) (apply_ops acls ops !! id_of h l)) ∧
  (∀ name, name ∉ id_of h <$> (change_List <$> cs) → apply_ops acls ops !! name = acls !! name).
Proof.
  intros Hall. revert acls. induction Hall as [|c op cs ops Hop Hall IH]; intros acls Hnd Hne; csimpl.
  { split; [by intros c ?%elem_of_nil|done]. }
  csimpl in Hnd. apply NoDup_cons in Hnd as [Hc Hnd].
  destruct (IH (apply_op acls op) Hnd) as [IH1 IH2]; [intros; apply Hne; by right|].
  assert (acl_ok dir (id_of h (change_List c)) (rules_of h (change_List c)) (ifs_of h (change_List c))
      (apply_op acls op !! id_of h (change_List c)) ∧
    ∀ name, name ≠ id_of h (change_List c) → apply_op acls op !! name = acls !! name) as [Hhere Helse].
  { unfold op_ok in Hop. destruct (decide (ifs_of h (change_List c) = ∅)) as [He|He].
    - subst op. simpl. split; [|intros name ?; by rewrite lookup_delete_ne].
      unfold acl_ok. rewrite decide_True by tauto. apply lookup_delete_eq.
    - destruct Hop as (acl & -> & Hname & Hok). simpl. rewrite Hname.
      split; [by rewrite lookup_insert_eq|intros name ?; by rewrite lookup_insert_ne]. }
  split.
  - intros c' [->|Hc']%elem_of_cons; [|by apply IH1]. simpl. by rewrite IH2.
  - intros name [? ?]%not_elem_of_cons. by rewrite IH2, Helse.
Qed.

(** The cache and VPP agree in one direction. *)
Definition priv_ok (h : heap) (base : ContivRuleLists) : Prop :=
  ∀ id b, byID base !! id = Some b → len_of_rules (rules_of h b) ≠ 0 → ifs_of h b ≠ ∅ → good_acl h b (priv_of h b).

Definition dir_ok (dir : TrafficDirection) (h : heap) (base : ContivRuleLists) (acls : gmap string Acl) : Prop :=
  installed dir (desc_base h base) acls ∧ closed_dir dir (desc_base h base) acls ∧ priv_ok h base.

Section render_direction.
Context `{RangeOracle} (dir : TrafficDirection) (h : heap) (base head : ContivRuleLists)
  (bls hls : list positive) (allocated : gset string) (acls : gmap string Acl).
Hypothesis Hinv : txn_inv dir h base head bls hls allocated.
Hypothesis Hsync : priv_synced h base hls.
Hypothesis Hok : dir_ok dir h base acls.

(** The changes that are rendered. *)
Definition dir_changes : list TxnChange := filter (nonempty_change h) (omap (change_of h base) hls).

Lemma change_of_List l c : change_of h base l = Some c → change_List c = l.
Proof. unfold change_of. intros Hc. repeat case_match; by simplify_eq. Qed.

Lemma elem_of_dir_changes c :
  c ∈ dir_changes ↔ change_List c ∈ hls ∧ change_of h base (change_List c) = Some c ∧ nonempty_change h c.
Proof.
  unfold dir_changes. rewrite list_elem_of_filter, list_elem_of_omap. split.
  - intros (? & l & ? & Hc). by rewrite (change_of_List _ _ Hc).
  - intros (? & ? & ?). eauto.
Qed.

Lemma dir_changes_sublist : sublist (change_List <$> dir_changes) hls.
Proof.
  unfold dir_changes. trans (change_List <$> omap (change_of h base) hls).
  - apply fmap_sublist, sublist_filter.
  - clear Hinv Hsync Hok. induction hls as [|l ls IH]; csimpl; [done|].
    destruct (change_of h base l) as [c|] eqn:E; csimpl; [|by apply sublist_cons].
    rewrite (change_of_List _ _ E). by apply sublist_skip.
Qed.

Lemma dir_changes_NoDup : NoDup (change_List <$> dir_changes).
Proof. eapply sublist_NoDup; [eapply (wf_NoDup h head), Hinv|apply dir_changes_sublist]. Qed.

Lemma dir_changes_ids_NoDup : NoDup (id_of h <$> (change_List <$> dir_changes)).
Proof.
  eapply sublist_NoDup; [|apply fmap_sublist, dir_changes_sublist]. pose proof Hinv as [_ Hh _ _ _ _ _].
  apply NoDup_fmap_2_strong; [|by eapply wf_NoDup]. intros l l' ? ?. by apply (id_unique h head hls).
Qed.

(** A change of a list with interfaces in the cache has the ACL of the list. *)
Lemma dir_changes_renderable c : c ∈ dir_changes → renderable h c.
Proof.
  intros (Hl & Hc & Hne)%elem_of_dir_changes. pose proof Hinv as [Hb Hh _ Hk _ _ _]. specialize (Hk _ Hl).
  split_and!; [by apply (wf_heap _ _ _ Hh)|done| |]; unfold change_of in Hc; destruct (byID base !! _) as [b|] eqn:E.
  - destruct (decide _) as [|Hd]; [done|]. injection Hc as Hc. rewrite <-Hc. simpl. congruence.
  - by destruct (decide _).
  - destruct (decide _) as [|Hd]; [done|]. injection Hc as Hc. rewrite <-Hc at 1. simpl. intros Hi.
    rewrite (Hsync _ b Hl E). destruct Hok as (_ & _ & Hp). unfold nonempty_change in Hne.
    destruct (Hp _ b E) as (acl & ? & Hname & Hrules); [congruence|done|]. exists acl. split; [done|].
    apply (wf_byID _ _ _ Hb) in E as [_ E]. split; congruence.
  - destruct (decide _) as [|Hd]; [done|]. injection Hc as Hc. rewrite <-Hc at 1. done.
Qed.

(** A list of the head whose ACL is not touched. *)
Lemma unchanged_acl_ok l :
  l ∈ hls → id_of h l ∉ id_of h <$> (change_List <$> dir_changes) →
  acl_ok dir (id_of h l) (rules_of h l) (ifs_of h l) (acls !! id_of h l).
Proof.
  intros Hl Hno. pose proof Hinv as [Hb Hh _ Hk _ _ Ha]. specialize (Hk l Hl). destruct Hok as (Hin & Hcl & _).
  assert (∀ c, change_of h base l = Some c → ¬ nonempty_change h c) as Hno'.
  { intros c Hc Hne. apply Hno. rewrite <-(change_of_List l c Hc). do 2 apply list_elem_of_fmap_2.
    apply elem_of_dir_changes. by rewrite (change_of_List l c Hc). }
  unfold change_of in Hno'. destruct (byID base !! id_of h l) as [b|] eqn:E.
  - assert (acl_ok dir (id_of h l) (rules_of h b) (ifs_of h b) (acls !! id_of h l)) as Hb'.
    { apply Hin. apply desc_base_Some. eauto. }
    destruct (decide (ifs_of h l = ifs_of h b)) as [->|]; [by rewrite Hk|].
    specialize (Hno' _ eq_refl). unfold nonempty_change in Hno'. simpl in Hno'.
    unfold acl_ok in *. rewrite decide_True in Hb' by (left; lia || (rewrite <-Hk; lia)). by rewrite decide_True by lia.
  - assert (acls !! id_of h l = None) as ->.
    { destruct (Ha (id_of h l)) as (s & Hs & _); [right; exists l; by apply (wf_byID _ _ _ Hh)|].
      apply eq_None_not_Some. intros Hsome. rewrite Hs in Hsome. apply Hcl in Hsome as [[r ifs] Hr].
      rewrite <-Hs in Hr. apply desc_base_Some in Hr as (b & ? & _). congruence. }
    unfold acl_ok. rewrite decide_True; [done|]. destruct (decide (ifs_of h l = ∅)); [by right|left].
    specialize (Hno' _ eq_refl). unfold nonempty_change in Hno'. simpl in Hno'. lia.
Qed.

(** The transaction brings VPP to the state the transaction of the cache
    describes. *)
Lemma render_installed ops :
  Forall2 (op_ok dir h) dir_changes ops →
  installed dir (desc_txn h base head) (apply_ops acls ops) ∧ closed_dir dir (desc_txn h base head) (apply_ops acls ops) ∧
  (∀ name, apply_ops acls ops !! name = acls !! name ∨ ∃ s, name = id_text dir s).
Proof.
  intros Hops. pose proof Hinv as [Hb Hh _ Hk _ _ Ha]. pose proof Hok as (Hin & Hcl & _).
  destruct (apply_ops_spec dir h dir_changes ops acls Hops dir_changes_ids_NoDup) as [Hch Hother].
  { by intros c (_ & _ & ?)%elem_of_dir_changes. }
  assert (∀ name, name ∈ id_of h <$> (change_List <$> dir_changes) → is_Some (byID head !! name)) as Hids.
  { intros name (l & -> & (c & -> & (Hl & _)%elem_of_dir_changes)%list_elem_of_fmap)%list_elem_of_fmap.
    exists (change_List c). by apply (wf_byID _ _ _ Hh). }
  split_and!.
  - intros id r ifs Hd. destruct (decide (id ∈ id_of h <$> (change_List <$> dir_changes))) as [Hid|Hid].
    + pose proof Hid as (l & -> & (c & -> & Hc)%list_elem_of_fmap)%list_elem_of_fmap. specialize (Hch c Hc). simpl in Hch.
      apply elem_of_dir_changes in Hc as (Hl & _). unfold desc_txn in Hd.
      rewrite (proj2 (wf_byID _ _ _ Hh _ (change_List c))) in Hd by done. by injection Hd as <- <-.
    + rewrite Hother by done.
      apply (desc_txn_Some _ _ _ _ _ _ _ Hinv) in Hd as [(l & Hl & <- & <- & <-)|(b & _ & ? & _ & _ & ? & ?)].
      * by apply unchanged_acl_ok.
      * apply Hin. apply desc_base_Some. eauto.
  - intros s Hs. unfold desc_txn. destruct (byID head !! id_text dir s) as [l|] eqn:E; [by eauto|].
    rewrite Hother in Hs by (intros [? ?]%Hids; congruence). by apply Hcl.
  - intros name. destruct (decide (name ∈ id_of h <$> (change_List <$> dir_changes))) as [Hid%Hids|]; [right|left; by apply Hother].
    destruct (Ha name) as (s & ? & _); eauto.
Qed.
End render_direction.

(** The commit of the cache after the rendering, in one direction. [h] is the
    heap before the rendering and [h1] the heap after it. *)
Section commit_direction.
Context `{RangeOracle} (dir : TrafficDirection) (h h1 : heap) (base head : ContivRuleLists)
  (bls hls : list positive) (allocated : gset string) (acls acls' : gmap string Acl).
Hypothesis Hinv : txn_inv dir h base head bls hls allocated.
Hypothesis Hsync : priv_synced h base hls.
Hypothesis Hok : dir_ok dir h base acls.
Hypothesis Hsame : same_on (bls ++ hls) h h1.
Hypothesis Hbase : ∀ b, b ∈ bls → priv_of h1 b = priv_of h b.
Hypothesis Huntouched : ∀ l, l ∈ hls → l ∉ change_List <$> dir_changes h base hls → priv_of h1 l = priv_of h l.
Hypothesis Hrendered : ∀ c, c ∈ dir_changes h base hls → ifs_of h (change_List c) ≠ ∅ →
  good_acl h (change_List c) (priv_of h1 (change_List c)).
Hypothesis Hinst : installed dir (desc_txn h base head) acls'.
Hypothesis Hclosed : closed_dir dir (desc_txn h base head) acls'.

(** The private data of a list of the head that has interfaces. *)
Lemma head_priv l :
  l ∈ hls → ifs_of h l ≠ ∅ → len_of_rules (rules_of h l) ≠ 0 → good_acl h l (priv_of h1 l).
Proof.
  intros Hl Hi Hr. destruct (decide (l ∈ change_List <$> dir_changes h base hls)) as [Hc|Hc].
  { apply list_elem_of_fmap in Hc as (c & -> & Hc). by apply Hrendered. }
  rewrite Huntouched by done. pose proof Hinv as [Hb Hh _ Hk _ _ _]. specialize (Hk l Hl).
  assert (change_of h base l = None) as Hno.
  { destruct (change_of h base l) as [c|] eqn:E; [|done]. exfalso. apply Hc.
    pose proof (change_of_List h base l c E) as Hcl. rewrite <-Hcl. apply list_elem_of_fmap_2, elem_of_dir_changes.
    unfold nonempty_change. by rewrite Hcl. }
  unfold change_of in Hno. destruct (byID base !! id_of h l) as [b|] eqn:E; [|by destruct (decide _)].
  rewrite (Hsync l b Hl E). destruct (decide _) as [Hib|]; [|done].
  destruct Hok as (_ & _ & Hp). destruct (Hp _ b E) as (acl & ? & Hn & Hru); [by rewrite <-Hk|by rewrite <-Hib|].
  apply (wf_byID _ _ _ Hb) in E as [_ E]. exists acl. split_and!; congruence.
Qed.

(** The changes rendered for a list the cache has without interfaces. *)
Lemma commit_priv_ok h' base' ls' :
  wf h' base' ls' → same_data h1 h' → (∀ x, x ∈ ls' → x ∈ bls ∨ x ∈ hls) →
  (∀ id d, desc_base h' base' id = Some d → desc_txn h base head id = Some d) →
  priv_inv h1 base hls h' → priv_ok h' base'.
Proof.
  intros Hw' Hsd Hnew Hdesc [Hfrom Hpn] id x Hx Hr Hi. pose proof Hinv as [Hb Hh Hdisj Hk _ _ _].
  pose proof (proj1 (wf_byID _ _ _ Hw' _ _) Hx) as [Hxl Hxid].
  pose proof Hsame as [D R I F].
  assert (x ∈ bls ++ hls ∧ ∀ l, l ∈ hls → l ∈ bls ++ hls) as [Hx1 Hl1]
    by (split; [apply elem_of_app; by apply Hnew|intros; apply elem_of_app; by right]).
  rewrite (sd_rules _ _ Hsd), R in Hr by done. rewrite (sd_id _ _ Hsd), I in Hxid by done.
  assert (∀ a, good_acl h x a → good_acl h' x a) as Hgood.
  { intros a. unfold good_acl. by rewrite (sd_rules _ _ Hsd), R, (sd_id _ _ Hsd), I by done. }
  assert (desc_txn h base head id = Some (rules_of h x, ifs_of h' x)) as Hd.
  { apply Hdesc, desc_base_Some. exists x. by rewrite (sd_rules _ _ Hsd), R by done. }
  assert (∀ l, l ∈ hls → byID base !! id_of h l = Some x → good_acl h x (priv_of h1 l)) as Hcopy.
  { intros l Hl Hlb. specialize (Hk l Hl). rewrite Hlb in Hk. pose proof (proj1 (wf_byID _ _ _ Hb _ _) Hlb) as [_ Hlid].
    apply (desc_txn_Some _ _ _ _ _ _ _ Hinv) in Hd as [(l' & Hl' & Hid' & _ & Hifs)|(b & Hn & _)].
    - assert (l' = l) as -> by (apply (id_unique h head hls); [done..|congruence]).
      destruct (head_priv l Hl) as (acl & ? & ? & ?); [congruence|congruence|]. exists acl. split_and!; congruence.
    - exfalso. assert (byID head !! id = Some l) as E by (apply (wf_byID _ _ _ Hh); split; [done|congruence]). congruence. }
  apply Hgood. destruct (Hnew x Hxl) as [Hxb|Hxh].
  - assert (byID base !! id = Some x) as Ex by (by apply (wf_byID _ _ _ Hb)).
    destruct (decide (ifs_of h x = ∅)) as [He|He].
    + apply (desc_txn_Some _ _ _ _ _ _ _ Hinv) in Hd as [(l & Hl & Hlid & _ & Hifs)|(b & _ & Eb & _ & _ & _ & Hifs)]; [|congruence].
      rewrite (Hpn l x); [by apply Hcopy; [|rewrite Hlid]|done|by rewrite I, Hlid by auto|by rewrite F, Hifs by auto|by rewrite F].
    + destruct (Hfrom x) as [->|(l & Hl & Hlb & ->)]; [|rewrite I in Hlb by auto; by apply Hcopy].
      rewrite Hbase by done. destruct Hok as (_ & _ & Hp). by eapply Hp.
  - destruct (Hfrom x) as [->|(l & Hl & Hlb & ->)]; [|rewrite I in Hlb by auto; by apply Hcopy].
    apply (desc_txn_Some _ _ _ _ _ _ _ Hinv) in Hd as [(l & Hl & Hlid & _ & Hifs)|(b & Hn & _)].
    + assert (l = x) as -> by (apply (id_unique h head hls); [done..|congruence]). apply head_priv; [done|congruence|done].
    + assert (byID head !! id = Some x) as E by (by apply (wf_byID _ _ _ Hh)). congruence.
Qed.

Lemma commit_direction :
  ∃ h' base' ls', commit h1 head base = Some (h', base') ∧ wf h' base' ls' ∧ dir_ok dir h' base' acls' ∧
    (∀ x, x ∈ ls' → x ∈ bls ∨ x ∈ hls) ∧ (∀ l, l ∉ bls → l ∉ hls → h' !! l = h1 !! l) ∧
    (∀ i, rules_of h' <$> byInterface base' !! i = view h base head i) ∧
    (∀ id, is_Some (byID base' !! id) → ∃ s, id = id_text dir s ∧ s ∈ allocated).
Proof.
  pose proof (txn_inv_same_on _ _ _ _ _ _ _ _ Hsame Hinv) as Hinv1.
  destruct (commit_spec dir h1 base head bls hls allocated Hinv1)
    as (h' & base' & ls' & Hc & Hw & Hsd & Hnew & _ & Hv & Hid & Hf & Hpi & _).
  destruct (commit_desc dir h1 base head bls hls allocated h' base' ls' Hinv1 Hw Hsd Hnew Hv) as [Hd1 Hd2].
  assert (∀ id d, desc_base h' base' id = Some d → desc_txn h base head id = Some d) as Hfwd.
  { intros id d Hd. rewrite <-(desc_txn_same_on dir h h1 base head bls hls allocated) by done. by apply Hd1. }
  exists h', base', ls'. split_and!; [done|done| |done|done| |].
  - split_and!.
    + intros id r ifs Hd. apply Hinst. by apply Hfwd.
    + intros s Hs. destruct (Hclosed s Hs) as [[r ifs] Hd].
      assert (ifs ≠ ∅) as Hne.
      { intros ->. pose proof (Hinst _ _ _ Hd) as Hn. unfold acl_ok in Hn. rewrite decide_True in Hn by (by right).
        rewrite Hn in Hs. by destruct Hs. }
      rewrite <-(desc_txn_same_on dir h h1 base head bls hls allocated) in Hd by done. rewrite (Hd2 _ _ _ Hd Hne). eauto.
    + by eapply commit_priv_ok.
  - intros i. by rewrite Hv, (view_same_on dir h h1 base head bls hls allocated).
  - intros id [?|?]%Hid; apply (ti_alloc _ _ _ _ _ _ _ Hinv); auto.
Qed.
End commit_direction.

Lemma dir_ok_frame dir h h' base ls acls :
  wf h base ls → (∀ l, l ∈ ls → h' !! l = h !! l) → dir_ok dir h base acls → dir_ok dir h' base acls.
Proof.
  intros Hw Hf (Hi & Hc & Hp).
  assert (∀ id b, byID base !! id = Some b → h' !! b = h !! b) as Hb.
  { intros id b [? _]%(wf_byID _ _ _ Hw). by apply Hf. }
  assert (∀ id, desc_base h' base id = desc_base h base id) as Hd.
  { intros id. unfold desc_base, list_desc, rules_of, ifs_of. destruct (byID base !! id) as [b|] eqn:E; [|done].
    simpl. by rewrite (Hb id b E). }
  split_and!.
  - intros id r ifs. rewrite Hd. apply Hi.
  - intros s. rewrite Hd. apply Hc.
  - intros id b E. unfold good_acl, rules_of, ifs_of, priv_of, id_of. rewrite (Hb id b E). by apply (Hp id b E).
Qed.

(** ** The whole commit *)

(** The cache is well-formed and VPP has exactly its lists. *)
Definition acl_consistent (h : heap) (crc : ContivRuleCache) (acls : gmap string Acl) : Prop :=
  cache_good h crc ∧ dir_ok Ingress h (crc_ingress crc) acls ∧ dir_ok Egress h (crc_egress crc) acls ∧ contiv_only acls.

(** What VPP applies to the traffic of an interface. *)
Definition vpp_view (acls : gmap string Acl) (i : string) : list (list AclRule) * list (list AclRule) :=
  (vpp_acl_rules acls Ingress i, vpp_acl_rules acls Egress i).

Definition rendered_view (v : rules_view) : list (list AclRule) * list (list AclRule) := (rendered v.1, rendered v.2).

Lemma consistent_view h crc acls i : acl_consistent h crc acls → vpp_view acls i = rendered_view (cache_view h crc i).
Proof.
  intros ((blsI & blsE & HwI & HwE & _) & (HiI & HcI & _) & (HiE & HcE & _) & Ho).
  unfold vpp_view, rendered_view, cache_view; simpl. f_equal.
  - apply (vpp_acl_rules_spec _ _ acls HiI HiE HcI HcE Ho Ingress (λ i, rules_of h <$> byInterface (crc_ingress crc) !! i)).
    by eapply wf_describes.
  - apply (vpp_acl_rules_spec _ _ acls HiI HiE HcI HcE Ho Egress (λ i, rules_of h <$> byInterface (crc_egress crc) !! i)).
    by eapply wf_describes.
Qed.

Section send.
Context `{RangeOracle} {A : Type} `{!AclAgent A} `{!AclAgentLaws A}.
Context (h : heap) (crc : ContivRuleCache) (crct : ContivRuleCacheTxn) (blsI hlsI blsE hlsE : list positive)
  (agent : A).
Hypothesis Hgood : txn_good h crc crct blsI hlsI blsE hlsE.
Hypothesis Hsync : txn_synced h crc hlsI hlsE.
Hypothesis HokI : dir_ok Ingress h (crc_ingress crc) (agent_acls agent).
Hypothesis HokE : dir_ok Egress h (crc_egress crc) (agent_acls agent).
Hypothesis Honly : contiv_only (agent_acls agent).

Abbreviation csI := (dir_changes h (crc_ingress crc) hlsI).
Abbreviation csE := (dir_changes h (crc_egress crc) hlsE).

Lemma txn_cache_good : cache_good h crc.
Proof.
  destruct Hgood as [Hin Heg Hd]. exists blsI, blsE. split_and!; [apply Hin|apply Heg| | |].
  - intros l Hl. by apply Hd; left.
  - intros id ?. apply (ti_alloc _ _ _ _ _ _ _ Hin). by left.
  - intros id ?. apply (ti_alloc _ _ _ _ _ _ _ Heg). by left.
Qed.

Lemma changes_filtered :
  ∃ ingress egress, Txn_Changes h crc crct = Some (ingress, egress) ∧
    filterEmpty h ingress = Some csI ∧ filterEmpty h egress = Some csE.
Proof.
  destruct Hgood as [Hin Heg Hd]. unfold Txn_Changes.
  rewrite (getChanges_spec h (crc_ingress crc) (crct_ingress crct) blsI hlsI) by apply Hin. cbn [mbind option_bind].
  rewrite (getChanges_spec h (crc_egress crc) (crct_egress crct) blsE hlsE) by apply Heg. cbn [mbind option_bind].
  eexists _, _. split; [done|].
  split; (rewrite filterEmpty_spec; [done|]); intros c (l & Hl & Hc)%list_elem_of_omap; rewrite (change_of_List _ _ _ _ Hc).
  - by apply (wf_heap _ _ _ (ti_head _ _ _ _ _ _ _ Hin)).
  - by apply (wf_heap _ _ _ (ti_head _ _ _ _ _ _ _ Heg)).
Qed.

(** The ACLs after the transaction show the rules of the transaction. *)
Lemma sent_view opsI opsE i :
  Forall2 (op_ok Ingress h) csI opsI → Forall2 (op_ok Egress h) csE opsE →
  let acls := apply_ops (agent_acls agent) (opsI ++ opsE) in
  installed Ingress (desc_txn h (crc_ingress crc) (crct_ingress crct)) acls ∧
  closed_dir Ingress (desc_txn h (crc_ingress crc) (crct_ingress crct)) acls ∧
  installed Egress (desc_txn h (crc_egress crc) (crct_egress crct)) acls ∧
  closed_dir Egress (desc_txn h (crc_egress crc) (crct_egress crct)) acls ∧
  contiv_only acls ∧ vpp_view acls i = rendered_view (txn_view h crc crct i).
Proof.
  intros HopI HopE acls. destruct Hgood as [Hin Heg Hd]. destruct Hsync as [HsI HsE].
  destruct (render_installed Ingress h _ _ _ _ _ _ Hin HokI opsI HopI) as (HiI & HcI & HnI).
  set (acls1 := apply_ops (agent_acls agent) opsI) in *.
  assert (∀ s, acls1 !! id_text Egress s = agent_acls agent !! id_text Egress s) as HE1.
  { intros s. destruct (HnI (id_text Egress s)) as [?|[s' Heq%id_text_dir]]; done. }
  assert (dir_ok Egress h (crc_egress crc) acls1) as HokE1.
  { destruct HokE as (Hi & Hc & Hp). split_and!; [| |done].
    - intros id r ifs Hid. pose proof Hid as (b & Hb & _)%desc_base_Some.
      destruct (ti_alloc _ _ _ _ _ _ _ Heg id) as (s & -> & _); [left; eauto|]. rewrite HE1. by apply Hi.
    - intros s. rewrite HE1. apply Hc. }
  destruct (render_installed Egress h _ _ _ _ _ _ Heg HokE1 opsE HopE) as (HiE & HcE & HnE).
  assert (acls = apply_ops acls1 opsE) as -> by (unfold acls, acls1, apply_ops; by rewrite foldl_app).
  assert (∀ s, apply_ops acls1 opsE !! id_text Ingress s = acls1 !! id_text Ingress s) as HI1.
  { intros s. destruct (HnE (id_text Ingress s)) as [?|[s' Heq%id_text_dir]]; done. }
  assert (installed Ingress (desc_txn h (crc_ingress crc) (crct_ingress crct)) (apply_ops acls1 opsE)) as HiI'.
  { intros id r ifs Hid. destruct (ti_alloc _ _ _ _ _ _ _ Hin id) as (s & -> & _); [|rewrite HI1; by apply HiI].
    unfold desc_txn in Hid. destruct (byID (crct_ingress crct) !! id); [right; eauto|left].
    apply desc_base_Some in Hid as (b & ? & _). eauto. }
  assert (closed_dir Ingress (desc_txn h (crc_ingress crc) (crct_ingress crct)) (apply_ops acls1 opsE)) as HcI'.
  { intros s. rewrite HI1. apply HcI. }
  assert (contiv_only (apply_ops acls1 opsE)) as Ho'.
  { intros name. destruct (HnE name) as [->|]; [|eauto]. destruct (HnI name) as [->|]; [apply Honly|eauto]. }
  split_and!; [done..|]. unfold vpp_view, rendered_view, txn_view; simpl. f_equal.
  - apply (vpp_acl_rules_spec _ _ _ HiI' HiE HcI' HcE Ho' Ingress (view h (crc_ingress crc) (crct_ingress crct))).
    by eapply txn_describes.
  - apply (vpp_acl_rules_spec _ _ _ HiI' HiE HcI' HcE Ho' Egress (view h (crc_egress crc) (crct_egress crct))).
    by eapply txn_describes.
Qed.
(** What the rendering leaves in the heap for one direction. *)
Definition rendered_heap (cs : list TxnChange) (bls hls : list positive) (h1 : heap) : Prop :=
  same_on (bls ++ hls) h h1 ∧ (∀ b, b ∈ bls → priv_of h1 b = priv_of h b) ∧
  (∀ l, l ∈ hls → l ∉ change_List <$> cs → priv_of h1 l = priv_of h l) ∧
  (∀ c, c ∈ cs → ifs_of h (change_List c) ≠ ∅ → good_acl h (change_List c) (priv_of h1 (change_List c))).

Lemma rendered_heap_frame cs bls hls h1 h2 :
  (∀ c, c ∈ cs → change_List c ∈ hls) → (∀ l, l ∈ bls ∨ l ∈ hls → h2 !! l = h1 !! l) →
  rendered_heap cs bls hls h1 → rendered_heap cs bls hls h2.
Proof.
  intros Hcs Hf ([D R I F] & Hb & Hu & Hg).
  assert (∀ l, l ∈ bls ++ hls → h2 !! l = h1 !! l) as Hf' by (intros l ?%elem_of_app; by apply Hf).
  split_and!; [split|..]; unfold rules_of, id_of, ifs_of, priv_of.
  - intros l Hl. rewrite Hf' by done. by apply D.
  - intros l Hl. rewrite Hf' by done. by apply R.
  - intros l Hl. rewrite Hf' by done. by apply I.
  - intros l Hl. rewrite Hf' by done. by apply F.
  - intros b Hbb. rewrite Hf by auto. by apply Hb.
  - intros l Hl ?. rewrite Hf by auto. by apply Hu.
  - intros c Hc ?. rewrite Hf by (right; by apply Hcs). by apply Hg.
Qed.

Lemma same_lists_rendered cs bls hls h1 h2 :
  (∀ l, l ∈ bls ∨ l ∈ hls → is_Some (h !! l)) → same_lists h h1 → same_lists h1 h2 →
  (∀ l, l ∈ bls ∨ l ∈ hls → priv_of h1 l = priv_of h l) → (∀ x, x ∉ change_List <$> cs → h2 !! x = h1 !! x) →
  (∀ b, b ∈ bls → b ∉ change_List <$> cs) →
  (∀ c, c ∈ cs → ifs_of h (change_List c) ≠ ∅ → good_acl h (change_List c) (priv_of h2 (change_List c))) →
  rendered_heap cs bls hls h2.
Proof.
  intros Hd S1 S2 Hp Hf Hb Hg. assert (same_lists h h2) as [[D R I] F] by (by etrans).
  split_and!; [split; [|done..]|..|done].
  - intros l ?%elem_of_app. apply D. by apply Hd.
  - intros b Hbb. unfold priv_of. rewrite Hf by auto. apply Hp. by left.
  - intros l Hl Hn. unfold priv_of. rewrite Hf by done. apply Hp. by right.
Qed.

Lemma dir_changes_hls base hls c : c ∈ dir_changes h base hls → change_List c ∈ hls.
Proof. by intros (? & _)%elem_of_dir_changes. Qed.

Lemma render_both :
  ∃ h1 h2 opsI opsE, renderChanges h [] csI true = Some (h1, opsI) ∧
    renderChanges h1 opsI csE false = Some (h2, opsI ++ opsE) ∧ same_lists h h2 ∧
    Forall2 (op_ok Ingress h) csI opsI ∧ Forall2 (op_ok Egress h) csE opsE ∧
    rendered_heap csI blsI hlsI h2 ∧ rendered_heap csE blsE hlsE h2.
Proof.
  destruct Hgood as [Hin Heg Hd]. destruct Hsync as [HsI HsE].
  pose proof Hin as [HbI HhI HdI _ _ _ _]. pose proof Heg as [HbE HhE HdE _ _ _ _].
  assert (∀ l, l ∈ change_List <$> csI → l ∈ hlsI) as HcI by (intros l (c & -> & ?%dir_changes_hls)%list_elem_of_fmap; done).
  assert (∀ l, l ∈ change_List <$> csE → l ∈ hlsE) as HcE by (intros l (c & -> & ?%dir_changes_hls)%list_elem_of_fmap; done).
  destruct (renderChanges_spec Ingress csI h []) as (h1 & opsI & E1 & HopI & S1 & F1 & G1).
  { by eapply dir_changes_NoDup. }
  { intros c Hc. by apply (dir_changes_renderable _ _ _ _ _ _ _ _ Hin HsI HokI). }
  destruct (renderChanges_spec Egress csE h1 opsI) as (h2 & opsE & E2 & HopE & S2 & F2 & G2).
  { by eapply dir_changes_NoDup. }
  { intros c Hc. eapply renderable_frame; [done| |by apply (dir_changes_renderable _ _ _ _ _ _ _ _ Heg HsE HokE)].
    apply F1. intros Hc'%HcI. destruct (Hd (change_List c)) as [_ Hn]; [by right|]. apply Hn. by eapply dir_changes_hls. }
  exists h1, h2, opsI, opsE. split_and!; [done|done|by etrans|done| | |].
  - eapply Forall2_impl; [done|]. intros c op ?. by eapply op_ok_same.
  - apply (rendered_heap_frame csI blsI hlsI h1 h2); [by intros c ?%dir_changes_hls| |].
    + intros l Hl. apply F2. intros Hl'%HcE. destruct (Hd l Hl) as [_ ?]. done.
    + apply (same_lists_rendered csI blsI hlsI h h1); [|done|done|done|done| |done].
      * intros l Hl. by eapply (txn_lists_heap Ingress).
      * intros b Hb Hc%HcI. by apply (HdI b).
  - apply (same_lists_rendered csE blsE hlsE h1 h2); [|done|done| |done| |].
    + intros l Hl. by eapply (txn_lists_heap Egress).
    + intros l Hl. unfold priv_of. rewrite F1; [done|]. intros Hl'%HcI. destruct (Hd l) as [? ?]; [by right|]. by destruct Hl.
    + intros b Hb Hc%HcE. by apply (HdE b).
    + intros c Hc Hi. apply (good_acl_same h h1); [done|]. apply G2; [done|]. by rewrite (sl_ifs _ _ S1).
Qed.

Lemma Txn_Commit_rendered opsI opsE h2 :
  Forall2 (op_ok Ingress h) csI opsI → Forall2 (op_ok Egress h) csE opsE →
  rendered_heap csI blsI hlsI h2 → rendered_heap csE blsE hlsE h2 →
  ∃ h3 crc3, Txn_Commit h2 crc crct = Some (h3, crc3) ∧
    acl_consistent h3 crc3 (apply_ops (agent_acls agent) (opsI ++ opsE)).
Proof.
  intros HopI HopE (SI & BI & UI & GI) HrE. destruct Hgood as [Hin Heg Hd]. destruct Hsync as [HsI HsE].
  destruct (sent_view opsI opsE "" HopI HopE) as (HiI & HcI & HiE & HcE & Ho & _). unfold Txn_Commit.
  destruct (commit_direction Ingress h h2 _ _ _ _ _ _ _ Hin HsI HokI SI BI UI GI HiI HcI)
    as (h3 & bI & lsI & -> & HwI & HokI' & HnI & HfI & _ & HaI). cbn [mbind option_bind].
  assert (∀ l, l ∈ blsE ∨ l ∈ hlsE → h3 !! l = h2 !! l) as HfE.
  { intros l Hl. apply HfI; intros Hl'; (destruct (Hd l) as [? ?]; [tauto|]); by destruct Hl. }
  apply (rendered_heap_frame _ _ _ _ h3) in HrE as (SE & BE & UE & GE); [|by intros c ?%dir_changes_hls|done].
  destruct (commit_direction Egress h h3 _ _ _ _ _ _ _ Heg HsE HokE SE BE UE GE HiE HcE)
    as (h4 & bE & lsE & -> & HwE & HokE' & HnE & HfE' & _ & HaE). cbn [mbind option_bind].
  eexists _, _. split; [done|].
  assert (∀ l, l ∈ lsI → (l ∉ lsE) ∧ h4 !! l = h3 !! l) as HI4.
  { intros l Hl. apply HnI, Hd in Hl as [? ?]. split; [by intros [?|?]%HnE|by apply HfE']. }
  split_and!; simpl; [|by eapply (dir_ok_frame _ h3); [|intros; by apply HI4|]|done|done].
  exists lsI, lsE. simpl. split_and!; [|done|intros; by apply HI4|done|done].
  eapply wf_frame; [|done]. intros; by apply HI4.
Qed.

Lemma send_changes_spec rands :
  ∃ s err, send_changes h crc crct rands agent = Some (s, err) ∧ st_rands s = rands ∧
    match err with
    | None => acl_consistent (st_heap s) (st_cache s) (agent_acls (st_agent s)) ∧
        ∀ i, vpp_view (agent_acls (st_agent s)) i = rendered_view (txn_view h crc crct i)
    | Some err => err = SendFailed ∧ st_cache s = crc ∧ cache_good (st_heap s) crc ∧
        (∀ i, cache_view (st_heap s) crc i = cache_view h crc i) ∧ ∃ ops, SendTxn agent ops = (st_agent s, false)
    end.
Proof.
  destruct changes_filtered as (ingress & egress & Hch & HfI & HfE). unfold send_changes. rewrite Hch. cbn [mbind option_bind].
  rewrite HfI. cbn [mbind option_bind]. rewrite HfE. cbn [mbind option_bind].
  destruct ((length csI =? 0) && (length csE =? 0)) eqn:Elen.
  { apply andb_true_iff in Elen as [EI%Nat.eqb_eq%nil_length_inv EE%Nat.eqb_eq%nil_length_inv].
    eexists _, None. split; [done|]. split; [done|]. simpl. split; [by split_and!; [apply txn_cache_good|..]|].
    intros i. destruct (sent_view [] [] i) as (_ & _ & _ & _ & _ & Hv); [rewrite EI; constructor|rewrite EE; constructor|].
    exact Hv. }
  destruct render_both as (h1 & h2 & opsI & opsE & -> & Hr2 & Hs & HopI & HopE & HrI & HrE). cbn [mbind option_bind].
  rewrite Hr2. cbn [mbind option_bind].
  destruct (SendTxn agent (opsI ++ opsE)) as [agent' [|]] eqn:Esend; cbn [negb].
  - destruct (Txn_Commit_rendered opsI opsE h2 HopI HopE HrI HrE) as (h3 & crc3 & -> & Hcons). cbn [mbind option_bind].
    eexists _, None. split; [done|]. split; [done|]. simpl. rewrite (agent_send _ _ _ Esend). split; [done|].
    intros i. by apply sent_view.
  - eexists _, (Some SendFailed). split; [done|]. split; [done|]. simpl. split; [done|]. split; [done|].
    split; [|split; [|eauto]].
    + destruct txn_cache_good as (bI & bE & HI & HE & Hrest). exists bI, bE.
      assert (∀ crls ls, wf h crls ls → wf h2 crls ls) as Hwf; [|auto].
      intros crls ls Hw. eapply (wf_same_on h h2 _ _ ls); [done| |done]. destruct Hs as [[D R I] F].
      split; intros l Hl; [apply D; by apply (wf_heap _ _ _ Hw)|done..].
    + intros i. unfold cache_view. destruct Hs as [[D R I] F].
      f_equal; (destruct (byInterface _ !! i); [simpl; by rewrite R|done]).
Qed.
End send.

(** ** Preparing the updates *)

Lemma foldM_fmap {X Y Z} (f : X → Y → option X) (g : Z → Y) a l :
  foldM f a (g <$> l) = foldM (λ a z, f a (g z)) a l.
Proof. revert a. induction l as [|z l IH]; intros a; csimpl; [done|]. destruct (f a (g z)); csimpl; auto. Qed.

Lemma foldM_ext {X Y} (f g : X → Y → option X) a l :
  (∀ a y, f a y = g a y) → foldM f a l = foldM g a l.
Proof. intros Hfg. revert a. induction l as [|y l IH]; intros a; csimpl; [done|]. rewrite Hfg. destruct (g a y); csimpl; auto. Qed.

Lemma updated_view_app v us us' : updated_view v (us ++ us') = updated_view (updated_view v us) us'.
Proof. apply foldl_app. Qed.

(** Updates of different interfaces do not interfere. *)
Lemma updated_view_out v us i : i ∉ up_ifName <$> us → updated_view v us i = v i.
Proof.
  revert v. induction us as [|u us IH]; intros v Hi; csimpl; [done|]. csimpl in Hi.
  apply not_elem_of_cons in Hi as [Hne Hi]. unfold updated_view in *. cbn [foldl]. rewrite IH by done. by rewrite decide_False.
Qed.

Lemma updated_view_in v us u :
  NoDup (up_ifName <$> us) → u ∈ us → updated_view v us (up_ifName u) = (Some (up_ingress u), Some (up_egress u)).
Proof.
  revert v. induction us as [|u' us IH]; intros v Hnd Hu; [by apply elem_of_nil in Hu|]. csimpl in Hnd.
  apply NoDup_cons in Hnd as [Hn Hnd]. unfold updated_view. cbn [foldl]. apply elem_of_cons in Hu as [->|Hu].
  - rewrite (updated_view_out _ us (up_ifName u')) by done. by rewrite decide_True.
  - by apply IH.
Qed.

(** The updates a transaction of the renderer makes. *)
Definition config_updates `{RangeOracle} (config : gmap string InterfaceConfig) : list IfUpdate :=
  (λ '(ifName, c), mkIfUpdate ifName (if_ingress c) (if_egress c)) <$> go_range [33]%Z config.

Lemma config_updates_names `{RangeOracle} config : up_ifName <$> config_updates config = range_keys [33]%Z config.
Proof. unfold config_updates, range_keys. rewrite <-list_fmap_compose. apply list_fmap_ext. by intros _ [? ?] _. Qed.

Lemma length_config_updates `{RangeOracle} config : length (config_updates config) = size config.
Proof. unfold config_updates. rewrite length_fmap, go_range_perm. apply length_map_to_list. Qed.

Lemma config_updates_view `{RangeOracle} v config i :
  updated_view v (config_updates config) i =
  match config !! i with Some c => (Some (if_ingress c), Some (if_egress c)) | None => v i end.
Proof.
  destruct (config !! i) as [c|] eqn:E.
  - assert (mkIfUpdate i (if_ingress c) (if_egress c) ∈ config_updates config) as Hin.
    { unfold config_updates. apply list_elem_of_fmap. exists (i, c). split; [done|]. by apply go_range_lookup. }
    apply (updated_view_in v) in Hin; [done|]. rewrite config_updates_names. apply range_keys_NoDup.
  - apply updated_view_out. rewrite config_updates_names, elem_of_range_keys, E. by intros [? [=]].
Qed.

Lemma prepare_config `{RangeOracle} art h crc rands :
  foldM (λ '(h, crc, crct, rands) '(ifName, config),
      Txn_Update h crc crct rands ifName (if_ingress config) (if_egress config))
    (h, crc, Cache_NewTxn, rands) (go_range [33]%Z (acl_config art)) =
  run_updates (h, crc, Cache_NewTxn, rands) (config_updates (acl_config art)).
Proof. unfold run_updates, config_updates. rewrite foldM_fmap. apply foldM_ext. by intros [[[? ?] ?] ?] [? ?]. Qed.

(** The outcome of a commit that brings the rules of the interfaces to [v],
    from a cache with the rules [v0]. *)
Definition commit_outcome `{RangeOracle} {A} `{!AclAgent A, !AclAgentLaws A} (v0 : string → rules_view)
    (v : string → list (list AclRule) * list (list AclRule)) (s : AclState A) (err : option AclCommitError) : Prop :=
  match err with
  | None => acl_consistent (st_heap s) (st_cache s) (agent_acls (st_agent s)) ∧
      ∀ i, vpp_view (agent_acls (st_agent s)) i = v i
  | Some err => err = SendFailed ∧ cache_good (st_heap s) (st_cache s) ∧
      ∀ i, cache_view (st_heap s) (st_cache s) i = v0 i
  end.

Lemma updates_then_send `{RangeOracle} {A} `{!AclAgent A, !AclAgentLaws A} us h crc rands (agent : A) :
  acl_consistent h crc (agent_acls agent) →
  supply (2 * length us) rands (allocatedIngress crc ∪ allocatedEgress crc) →
  ∃ h1 crc1 crct rands1 s err,
    run_updates (h, crc, Cache_NewTxn, rands) us = Some (h1, crc1, crct, rands1) ∧
    send_changes h1 crc1 crct rands1 agent = Some (s, err) ∧
    commit_outcome (cache_view h crc) (λ i, rendered_view (updated_view (cache_view h crc) us i)) s err.
Proof.
  intros (Hgood & HokI & HokE & Honly) Hsup. destruct (NewTxn_good h crc Hgood) as (blsI & blsE & Htg & Hv0).
  destruct (run_updates_spec us h crc Cache_NewTxn blsI [] blsE [] rands _ Htg Hsup)
    as (h1 & crc1 & crct & hlsI & hlsE & rands1 & Hrun & Htg1 & E1 & E2 & E3 & E4 & Hsync & Hfr & Hv); [done|].
  pose proof Htg as [HinI HinE _].
  destruct (send_changes_spec h1 crc1 crct blsI hlsI blsE hlsE agent Htg1) with (rands := rands1)
    as (s & err & Hsend & _ & Hout).
  - apply Hsync. split; intros l b ?%elem_of_nil; done.
  - rewrite E1. eapply (dir_ok_frame _ h); [apply HinI|auto|done].
  - rewrite E2. eapply (dir_ok_frame _ h); [apply HinE|auto|done].
  - done.
  - exists h1, crc1, crct, rands1, s, err. split; [done|]. split; [done|]. unfold commit_outcome. destruct err as [err|].
    + destruct Hout as (-> & Hc & Hg & Hcv & _). rewrite Hc. split; [done|]. split; [done|].
      intros i. rewrite Hcv. unfold cache_view. rewrite E1, E2. f_equal.
      * destruct (byInterface (crc_ingress crc) !! i) as [b|] eqn:E; [simpl|done].
        apply (wf_byIf _ _ _ (ti_base _ _ _ _ _ _ _ HinI)) in E as [? _]. unfold rules_of. by rewrite Hfr by auto.
      * destruct (byInterface (crc_egress crc) !! i) as [b|] eqn:E; [simpl|done].
        apply (wf_byIf _ _ _ (ti_base _ _ _ _ _ _ _ HinE)) in E as [? _]. unfold rules_of. by rewrite Hfr by auto.
    + destruct Hout as [Hcons Hvv]. split; [done|]. intros i. rewrite Hvv, Hv. done.
Qed.

Lemma commit_no_resync_eq `{RangeOracle} {A} `{!AclAgent A} (art : AclRendererTxn) (s : AclState A) :
  acl_resync art = false →
  AclRenderer_Commit art s =
  ('(h, crc, crct, rands) ← run_updates (st_heap s, st_cache s, Cache_NewTxn, st_rands s) (config_updates (acl_config art));
   send_changes h crc crct rands (st_agent s)).
Proof.
  intros Hres. unfold AclRenderer_Commit, resync_with_vpp, prepare_updates. rewrite Hres.
  cbn [mbind option_bind st_heap st_cache st_rands st_agent]. rewrite prepare_config.
  by destruct (run_updates _ _) as [[[[? ?] ?] ?]|].
Qed.

(** C5. A commit of the ACL renderer without resync. If VPP has exactly the
    ACLs of the cache, the commit does not panic (no nil list, no failed type
    assertion on a stored ACL), and if the agent accepts the transaction VPP
    again has exactly the ACLs of the cache; the traffic of an interface of the
    transaction is then subject to one ACL with the rules given for it (none if
    there are no rules) in each direction, and that of the other interfaces to
    what it was subject to before. If the agent refuses it, the cache keeps the
    rules it had. The random numbers drawn for the IDs of new lists contain, in
    time, enough that are not in use. *)
Theorem acl_commit_sync `{RangeOracle} {A} `{!AclAgent A, !AclAgentLaws A} (art : AclRendererTxn) (s : AclState A) :
  acl_resync art = false → acl_consistent (st_heap s) (st_cache s) (agent_acls (st_agent s)) →
  supply (2 * size (acl_config art)) (st_rands s) (allocatedIngress (st_cache s) ∪ allocatedEgress (st_cache s)) →
  ∃ s' err, AclRenderer_Commit art s = Some (s', err) ∧
    commit_outcome (cache_view (st_heap s) (st_cache s)) (λ i,
      match acl_config art !! i with
      | Some c => rendered_view (Some (if_ingress c), Some (if_egress c))
      | None => vpp_view (agent_acls (st_agent s)) i
      end) s' err.
Proof.
  intros Hres Hcons Hsup. destruct s as [h crc rands agent]. simpl in *. rewrite <-length_config_updates in Hsup.
  rewrite commit_no_resync_eq by done. cbn [st_heap st_cache st_rands st_agent].
  destruct (updates_then_send (config_updates (acl_config art)) h crc rands agent Hcons Hsup)
    as (h1 & crc1 & crct & rands1 & s & err & -> & Hsend & Hout). cbn [mbind option_bind]. rewrite Hsend.
  exists s, err. split; [done|]. unfold commit_outcome in *. destruct err; [done|]. destruct Hout as [Hc Hv].
  split; [done|]. intros i. rewrite Hv, config_updates_view. destruct (acl_config art !! i); [done|].
  symmetry. by apply consistent_view.
Qed.

(** *** An agent that keeps the ACLs by name *)

#[global] Instance map_agent : AclAgent (gmap string Acl) := {|
  DumpACL acls := Some (map_to_list acls).*2;
  SendTxn acls ops := (apply_ops acls ops, true)
|}.

#[global] Program Instance map_agent_laws : AclAgentLaws (gmap string Acl) := {| agent_acls acls := acls |}.
Next Obligation. by intros a acls [= <-]. Qed.
Next Obligation. by intros a ops a' [= <-]. Qed.

Lemma init_consistent : acl_consistent ∅ AclRenderer_Init ∅.
Proof.
  split; [apply Cache_Init_good|].
  assert (∀ dir, dir_ok dir ∅ NewContivRuleLists ∅) as Hd.
  { intros dir. split_and!; [by intros id r ifs (b & ? & _)%desc_base_Some|by intros s [? [=]]|by intros id b [=]]. }
  split_and!; [apply Hd|apply Hd|by intros name [? [=]]].
Qed.

(** Two pods with the same rules, one of them without egress rules. *)
Definition example_txn : AclRendererTxn :=
  let deny := mkContivRule "deny" ActionDeny emptyIPNet emptyIPNet TCP 0 0 in
  let web := mkContivRule "web" ActionPermit (mkIPNet [10; 1; 1; 0]%Z [255; 255; 255; 0]%Z) emptyIPNet TCP 0 80 in
  let ifName (ns name : string) := if bool_decide (ns = "default"%string) then Some ("tap-" +:+ name)%string else None in
  let art := AclRenderer_Render ifName (AclRenderer_NewTxn false) (mkPodID "a" "default") emptyIPNet
    (Some [web; deny]) (Some []) in
  AclRenderer_Render ifName art (mkPodID "b" "default") emptyIPNet (Some [web; deny]) (Some [deny]).

Lemma acl_commit_sync_witness :
  ∃ s, @AclRenderer_Commit canonical_order _ map_agent example_txn
      (mkAclState ∅ AclRenderer_Init [[1]; [2]; [3]; [4]]%Z ∅) = Some (s, None) ∧
    vpp_view (st_agent s) "tap-a" = rendered_view (if_ingress <$> acl_config example_txn !! "tap-a"%string, None) ∧
    length (vpp_view (st_agent s) "tap-b").2 = 1.
Proof.
  destruct (@acl_commit_sync canonical_order _ map_agent map_agent_laws example_txn
    (mkAclState ∅ AclRenderer_Init [[1]; [2]; [3]; [4]]%Z ∅)) as (s & err & Hc & Hout).
  - vm_compute. reflexivity.
  - apply init_consistent.
  - split; [apply (bool_decide_unpack _); vm_compute; exact I|].
    split; [intros b _; apply not_elem_of_empty|apply Nat.leb_le; vm_compute; reflexivity].
  - assert (err = None) as ->.
    { assert (option_map snd (@AclRenderer_Commit canonical_order _ map_agent example_txn
        (mkAclState ∅ AclRenderer_Init [[1]; [2]; [3]; [4]]%Z ∅)) = Some None) as He by (vm_compute; reflexivity).
      rewrite Hc in He. injection He as He. exact He. }
    exists s. split; [exact Hc|]. destruct Hout as [_ Hv]. split.
    + etrans; [exact (Hv "tap-a"%string)|]. vm_compute. reflexivity.
    + pose proof (Hv "tap-b"%string) as Hb. unfold agent_acls, map_agent_laws in Hb. rewrite Hb. vm_compute. reflexivity.
Defined.
