(* ===== verification/AclResync.v ===== *)
(** * Resync of the ACL renderer

    The ACLs VPP has are read back into rule lists: the renderer recovers its
    cache from VPP after a restart, and a commit with resync leaves VPP with
    the given configuration and nothing else. *)

From Stdlib Require Import ZArith Lia Ascii String.
From stdpp Require Import prelude strings list gmap sorting.
From S2P Require Import Prelude Slots GoStrings GoNet KsrModel Utils Rules AclCache AclCacheProofs AclRenderer AclRendererProofs.

(** ** Rules and ACL rules *)

(** A network that survives the dump: "match all", or an IPv4 network with a
    four-byte address, a prefix mask and no host bits. The networks of IP blocks
    have this form; the one-host networks of pods have sixteen-byte addresses and
    come back from VPP with four bytes. *)
Definition plain_net (n : IPNet) : Prop := n = emptyIPNet ∨ ∃ p, canonical_v4 p n.

Definition plain_port (p : Z) : Prop := (0 ≤ p < 65536)%Z.

Definition plain_rule (r : ContivRule) : Prop :=
  plain_net (SrcNetwork r) ∧ plain_net (DestNetwork r) ∧ plain_port (SrcPort r) ∧ plain_port (DestPort r).

Lemma dump_render_net n :
  plain_net n → dump_net (if 0 <? length (IPNet_IP n) then IPNet_String n else ""%string) = Some n.
Proof.
  intros [->|[p Hn]]; [done|]. destruct (ParseCIDR_String p n Hn) as (a & b & c & d & Hip & Hparse).
  rewrite Hip. cbn [length Nat.ltb Nat.leb]. unfold dump_net. rewrite Hparse. rewrite bool_decide_false; [done|].
  intros He. rewrite He in Hparse. done.
Qed.

Lemma dump_render_port p : plain_port p → dump_port (Some (render_port p)) = Some p.
Proof.
  intros Hp. unfold plain_port, dump_port, render_port, maxPortNum in *; simpl.
  destruct (Z.eqb_spec p 0) as [->|Hne]; [done|]. rewrite Z.eqb_refl. simpl. by rewrite Z.mod_small.
Qed.

Lemma dump_render_rule r : plain_rule r → dump_rule (render_rule r) = Some (Some r).
Proof.
  intros (Hs & Hd & Hsp & Hdp). destruct r as [id a s d p sp dp]; simpl in *.
  unfold dump_rule, render_rule. cbn -[dump_port render_port dump_net IPNet_String Nat.ltb].
  rewrite !dump_render_net by done.
  destruct a, p; (rewrite bool_decide_true by done) || (rewrite bool_decide_false by done);
    cbn -[dump_port render_port]; rewrite !dump_render_port by done; done.
Qed.

Lemma dump_render_rules rs : Forall plain_rule rs → dump_rules (render_rule <$> rs) = Some rs.
Proof.
  intros Hrs. unfold dump_rules.
  assert (∀ acc, foldM (λ rules r, r ← dump_rule r; Some (rules ++ option_list r)) acc (render_rule <$> rs) =
    Some (acc ++ rs)) as Hgen; [|apply (Hgen [])].
  induction Hrs as [|r rs Hr _ IH]; intros acc; csimpl; [by rewrite app_nil_r|].
  rewrite dump_render_rule by done. csimpl. by rewrite IH, <-app_assoc.
Qed.

(** ** ACLs the renderer has installed *)

(** The rule list an ACL stands for. *)
Record acl_of (dir : TrafficDirection) (name : string) (acl : Acl) (o : ContivRuleList) : Prop := {
  ao_name : AclName acl = name;
  ao_id : RL_ID o = name;
  ao_text : ∃ s, name = id_text dir s;
  ao_rules : ∃ rs, RL_Rules o = Some rs ∧ rs ≠ [] ∧ AclRules acl = render_rule <$> rs;
  ao_plain : Forall plain_rule (default [] (RL_Rules o));
  ao_ifs : ∃ names, Acl_Interfaces acl = Some (dir_interfaces dir names) ∧ ∀ i, i ∈ names ↔ i ∈ RL_Interfaces o;
  ao_used : RL_Interfaces o ≠ ∅;
  ao_priv : RL_Private o = Some acl
}.

Lemma dump_acl_of dir name acl o : acl_of dir name acl o → dump_acl acl = Some (Some (is_ingress dir, o)).
Proof.
  intros [Hn Hid _ (rs & Hr & _ & Hrules) Hpl (names & Hifs & Hnames) Hused Hp]. unfold dump_acl. rewrite Hifs.
  assert (list_to_set names = RL_Interfaces o) as Hset by (apply set_eq; intros i; by rewrite elem_of_list_to_set, Hnames).
  assert (names ≠ []) as Hne by (intros ->; by apply Hused; rewrite <-Hset).
  destruct o as [id r ifs p]; simpl in *; subst. rewrite Hrules, dump_render_rules by done.
  destruct dir; simpl; (destruct names as [|i names]; [done|]); done.
Qed.

(** The ACLs of VPP and the lists they stand for, by name. *)
Record restorable (acls : gmap string Acl) (objs : TrafficDirection → gmap string ContivRuleList) : Prop := {
  rs_acl name acl : acls !! name = Some acl → ∃ dir o, objs dir !! name = Some o;
  rs_obj dir name o : objs dir !! name = Some o → ∃ acl, acls !! name = Some acl ∧ acl_of dir name acl o;
  rs_rules dir name name' o o' : objs dir !! name = Some o → objs dir !! name' = Some o' →
    RL_Rules o = RL_Rules o' → name = name';
  rs_ifs dir name name' o o' i : objs dir !! name = Some o → objs dir !! name' = Some o' →
    i ∈ RL_Interfaces o → i ∈ RL_Interfaces o' → name = name'
}.

(** *** The dump *)

#[global] Instance TrafficDirection_eq_dec : EqDecision TrafficDirection.
Proof. solve_decision. Defined.

Section dump.
Context (acls : gmap string Acl) (objs : TrafficDirection → gmap string ContivRuleList).
Hypothesis Hres : restorable acls objs.

Lemma one_direction dir dir' name o o' : objs dir !! name = Some o → objs dir' !! name = Some o' → dir = dir'.
Proof.
  intros Ho Ho'. destruct (rs_obj _ _ Hres _ _ _ Ho) as (? & _ & Ha). destruct (rs_obj _ _ Hres _ _ _ Ho') as (? & _ & Ha').
  destruct (ao_text _ _ _ _ Ha) as [s ->], (ao_text _ _ _ _ Ha') as [s' Heq]. by apply id_text_dir in Heq.
Qed.

(** The lists made so far, for the ACLs with the given names. *)
Record dumped (h0 : heap) (names : list string) (h : heap) (ls : TrafficDirection → list positive) : Prop := {
  du_NoDup dir : NoDup (ls dir);
  du_new dir l : l ∈ ls dir → h0 !! l = None;
  du_old l o : h0 !! l = Some o → h !! l = Some o;
  du_obj dir l : l ∈ ls dir → ∃ name o, h !! l = Some o ∧ name ∈ names ∧ objs dir !! name = Some o;
  du_inj dir l l' : l ∈ ls dir → l' ∈ ls dir → id_of h l = id_of h l' → l = l';
  du_all dir name o : name ∈ names → objs dir !! name = Some o → ∃ l, l ∈ ls dir ∧ h !! l = Some o
}.

Definition ls_of (ingress egress : list positive) (dir : TrafficDirection) : list positive :=
  match dir with Ingress => ingress | Egress => egress end.

Lemma dump_step h0 names h ls dir name acl o :
  dumped h0 names h ls → objs dir !! name = Some o → acl_of dir name acl o → name ∉ names →
  dumped h0 (names ++ [name]) (alloc h o).1 (λ d, if decide (d = dir) then ls d ++ [(alloc h o).2] else ls d).
Proof.
  intros [Hnd Hnew Hold Hobj Hinj Hall] Ho Hao Hname. unfold alloc; simpl. set (l := fresh (dom h)).
  assert (h !! l = None) as Hl by (apply not_elem_of_dom; apply is_fresh).
  assert (∀ x, is_Some (h !! x) → <[l := o]> h !! x = h !! x) as Hx by (intros x [? ?]; apply lookup_insert_ne; congruence).
  assert (∀ d x, x ∈ ls d → is_Some (h !! x)) as Hls by (intros d x (? & ? & ? & _)%Hobj; eauto).
  assert (∀ d, l ∉ ls d) as Hlls by (intros d [? ?]%Hls; congruence).
  assert (id_of (<[l := o]> h) l = name) as Hlid.
  { unfold id_of. rewrite lookup_insert_eq. simpl. apply Hao. }
  assert (∀ d x, x ∈ ls d → id_of (<[l := o]> h) x = id_of h x) as Hids.
  { intros d x ?%Hls. unfold id_of. by rewrite Hx. }
  assert (∀ d x, x ∈ ls d → id_of h x ∈ names) as Hidn.
  { intros d x (n & ox & Hox & Hn & Hobx)%Hobj. unfold id_of. rewrite Hox. simpl.
    destruct (rs_obj _ _ Hres _ _ _ Hobx) as (? & _ & Hax). by rewrite (ao_id _ _ _ _ Hax). }
  split.
  - intros d. destruct (decide (d = dir)); [|done]. apply NoDup_app. split_and!; [done| |apply NoDup_singleton].
    intros x Hx' ->%list_elem_of_singleton. by apply (Hlls d).
  - intros d x Hx'. assert (x = l ∨ x ∈ ls d) as [->|?] by (destruct (decide (d = dir)); set_solver); [|by eapply Hnew].
    destruct (h0 !! l) as [?|] eqn:E; [|done]. apply Hold in E. congruence.
  - intros x ox Hox. rewrite lookup_insert_ne; [by apply Hold|]. intros <-. apply Hold in Hox. congruence.
  - intros d x Hx'. destruct (decide (x = l)) as [->|Hne].
    + exists name, o. rewrite lookup_insert_eq. split; [done|]. split; [set_solver|].
      destruct (decide (d = dir)) as [->|]; [done|]. by apply Hlls in Hx'.
    + assert (x ∈ ls d) as Hx'' by (destruct (decide (d = dir)); set_solver).
      destruct (Hobj d x Hx'') as (n & ox & ? & ? & ?). exists n, ox. rewrite lookup_insert_ne by done. set_solver.
  - intros d x x' Hin Hin'.
    assert (x = l ∨ x ∈ ls d) as [->|H1] by (destruct (decide (d = dir)); set_solver);
    assert (x' = l ∨ x' ∈ ls d) as [->|H2] by (destruct (decide (d = dir)); set_solver); [done| | |].
    + rewrite Hlid, (Hids d x' H2). intros ->. exfalso. by apply Hname, (Hidn d x').
    + rewrite Hlid, (Hids d x H1). intros <-. exfalso. by apply Hname, (Hidn d x).
    + rewrite (Hids d x H1), (Hids d x' H2). by apply (Hinj d).
  - intros d n on [Hn|Heq%list_elem_of_singleton]%elem_of_app Hon; [|subst n].
    + destruct (Hall d n on Hn Hon) as (x & ? & ?). exists x. rewrite lookup_insert_ne by congruence.
      split; [|done]. destruct (decide (d = dir)); set_solver.
    + assert (d = dir) as -> by (by eapply one_direction). exists l. rewrite lookup_insert_eq, decide_True by done.
      split; [set_solver|congruence].
Qed.
Lemma dump_loop h0 entries names h ingress egress :
  dumped h0 names h (ls_of ingress egress) → NoDup (names ++ entries.*1) →
  (∀ name acl, (name, acl) ∈ entries → acls !! name = Some acl) →
  ∃ h' ingress' egress',
    foldM (λ '(h, ingress, egress) acl,
      r ← dump_acl acl;
      match r with
      | None => Some (h, ingress, egress)
      | Some (isIngress, o) =>
        let '(h, l) := alloc h o in
        Some (if isIngress : bool then (h, ingress ++ [l], egress) else (h, ingress, egress ++ [l]))
      end) (h, ingress, egress) entries.*2 = Some (h', ingress', egress') ∧
    dumped h0 (names ++ entries.*1) h' (ls_of ingress' egress').
Proof.
  revert names h ingress egress. induction entries as [|[name acl] entries IH]; intros names h ingress egress Hd Hnd Hin;
    cbn [foldM fmap list_fmap fst snd].
  { exists h, ingress, egress. by rewrite app_nil_r. }
  destruct (rs_acl _ _ Hres name acl) as (dir & o & Ho); [apply Hin; by left|].
  destruct (rs_obj _ _ Hres _ _ _ Ho) as (acl' & Hacl & Hao).
  assert (acl' = acl) as -> by (rewrite (Hin name acl) in Hacl by (by left); congruence).
  rewrite (dump_acl_of _ _ _ _ Hao). cbn [mbind option_bind]. csimpl in Hnd.
  assert (name ∉ names) as Hn by (apply NoDup_app in Hnd as (_ & Hdis & _); intros ?; by apply (Hdis name); [|left]).
  pose proof (dump_step h0 names h _ dir name acl o Hd Ho Hao Hn) as Hd'.
  set (h1 := (alloc h o).1) in *. set (l := (alloc h o).2) in *.
  assert (alloc h o = (h1, l)) as -> by done. rewrite (cons_middle name), app_assoc in Hnd.
  destruct (IH (names ++ [name]) h1 (ls_of ingress egress Ingress ++ (if decide (dir = Ingress) then [l] else []))
    (ls_of ingress egress Egress ++ (if decide (dir = Egress) then [l] else []))) as (h' & i' & e' & Hf & Hd'').
  - destruct Hd' as [A B C D E F].
    assert (∀ d, ls_of (ls_of ingress egress Ingress ++ (if decide (dir = Ingress) then [l] else []))
      (ls_of ingress egress Egress ++ (if decide (dir = Egress) then [l] else [])) d =
      if decide (d = dir) then ls_of ingress egress d ++ [l] else ls_of ingress egress d) as Heq.
    { intros []; destruct dir; simpl; by rewrite ?app_nil_r. }
    split; [| |done| | |]; intros d; rewrite Heq; [apply A|apply B|apply D|apply E|apply F].
  - done.
  - intros n a ?. apply Hin. by right.
  - exists h', i', e'. rewrite <-app_assoc in Hd''. split; [|done]. rewrite <-Hf. by destruct dir; simpl; rewrite ?app_nil_r.
Qed.

Lemma dumpVppACLConfig_spec h0 aclDump :
  aclDump ≡ₚ (map_to_list acls).*2 →
  ∃ h' ingress egress, dumpVppACLConfig h0 aclDump = Some (h', ingress, egress) ∧
    dumped h0 (map_to_list acls).*1 h' (ls_of ingress egress).
Proof.
  intros (entries & -> & Hp)%Permutation_map_inv.
  destruct (dump_loop h0 entries [] h0 [] []) as (h' & i & e & Hf & Hd).
  - split; try (by intros [] l ?%elem_of_nil); [by intros []; apply NoDup_nil_2|done|..].
    + by intros [] l l' ?%elem_of_nil.
    + by intros dir name o ?%elem_of_nil.
  - simpl. rewrite <-Hp. apply NoDup_fst_map_to_list.
  - intros name acl. rewrite <-Hp. by intros ?%elem_of_map_to_list.
  - exists h', i, e. split; [exact Hf|]. simpl in Hd. destruct Hd as [A B C D E F].
    split; [done|done|done| |done|].
    + intros dir l (name & o & ? & Hn & ?)%D. exists name, o. by rewrite Hp.
    + intros dir name o. rewrite Hp. apply F.
Qed.
End dump.

(** *** [Resync] *)

Lemma id_text_prefix dir s :
  HasPrefix (id_text dir s) (TrafficDirection_String dir +:+ "-")%string = true ∧
  TrimPrefix (id_text dir s) (TrafficDirection_String dir +:+ "-")%string = s.
Proof. unfold id_text. rewrite <-append_assoc. split; [apply HasPrefix_app|apply TrimPrefix_app]. Qed.

Section resync_direction.
Context `{RangeOracle} (dir : TrafficDirection) (h0 : heap) (ls : list positive) (interfaces0 : gset string).
Hypothesis Hls_NoDup : NoDup ls.
Hypothesis Hobj : ∀ l, l ∈ ls → is_Some (h0 !! l) ∧ ifs_of h0 l ≠ ∅ ∧ ∃ s, id_of h0 l = id_text dir s.
Hypothesis Hid : ∀ l l', l ∈ ls → l' ∈ ls → id_of h0 l = id_of h0 l' → l = l'.
Hypothesis Hrules : ∀ l l', l ∈ ls → l' ∈ ls → rules_of h0 l = rules_of h0 l' → l = l'.
Hypothesis Hifs : ∀ l l' i, l ∈ ls → l' ∈ ls → i ∈ ifs_of h0 l → i ∈ ifs_of h0 l' → l = l'.

(** The lists of [done] are in the cache, unchanged. *)
Record resync_inv (done rest : list positive) (h : heap) (lists : ContivRuleLists) (allocated interfaces : gset string)
    : Prop := {
  ri_split : ls = done ++ rest;
  ri_wf : ∃ ls', ls' ≡ₚ done ∧ wf h lists ls';
  ri_static : static h0 h;
  ri_frame l : l ∉ done → h !! l = h0 !! l;
  ri_ifs l : l ∈ done → ifs_of h l = ifs_of h0 l;
  ri_alloc s : s ∈ allocated ↔ ∃ l, l ∈ done ∧ id_of h0 l = id_text dir s;
  ri_interfaces i : i ∈ interfaces ↔ i ∈ interfaces0 ∨ ∃ l, l ∈ done ∧ i ∈ ifs_of h0 l
}.

Lemma resync_list_spec done l rest h lists allocated interfaces :
  resync_inv done (l :: rest) h lists allocated interfaces →
  ∃ h' lists' allocated' interfaces', resync_list dir (h, lists, allocated, interfaces) l =
      Some (inr (h', lists', allocated', interfaces')) ∧
    resync_inv (done ++ [l]) rest h' lists' allocated' interfaces'.
Proof.
  intros [Hsp (ls' & Hp & Hw) Hst Hfr Hif Hal Hin].
  assert (l ∈ ls ∧ (∀ x, x ∈ done → x ∈ ls)) as [Hl Hdl] by (rewrite Hsp; split; set_solver).
  assert (l ∉ done) as Hld by (rewrite Hsp in Hls_NoDup; apply NoDup_app in Hls_NoDup as (_ & Hd & _); intros ?; by apply (Hd l); [|left]).
  destruct (Hobj l Hl) as ([o Ho] & Hne & s & Hs). unfold id_of, ifs_of in Hs, Hne. rewrite Ho in Hs, Hne. simpl in Hs, Hne.
  assert (h !! l = Some o) as Ho' by (by rewrite Hfr). assert (id_of h0 l = RL_ID o) as Hlid by (unfold id_of; by rewrite Ho).
  assert (ifs_of h0 l = RL_Interfaces o) as Hlif by (unfold ifs_of; by rewrite Ho).
  unfold resync_list. rewrite Ho'. cbn [mbind option_bind]. rewrite bool_decide_false by done.
  destruct (id_text_prefix dir s) as [Hpre Htrim]. rewrite <-Hs in Hpre, Htrim. rewrite Hpre, Htrim. cbn [negb].
  rewrite bool_decide_false.
  2: { intros (x & Hx & Hxid)%Hal. apply Hld. rewrite (Hid l x); [done|done|auto|congruence]. }
  destruct (Insert_list_spec ls' l) with (h := h) (crls := lists) (o := o)
    as (h' & lists' & ls2 & -> & Hp2 & Hw2 & Hs2 & Hne2 & HbyID & HbyIf); [by rewrite Hp|done|done| | |].
  { destruct (byID lists !! RL_ID o) as [x|] eqn:E; [|done]. exfalso. apply (wf_byID _ _ _ Hw) in E as [Hx Hxid].
    rewrite Hp in Hx. rewrite (st_id _ _ Hst) in Hxid. apply Hld. rewrite (Hid l x); [done|done|auto|congruence]. }
  { intros x Hx Heq. rewrite Hp in Hx. rewrite (st_rules _ _ Hst) in Heq. apply Hld.
    rewrite (Hrules l x); [done|done|auto|]. unfold rules_of at 1. rewrite Ho. simpl. congruence. }
  cbn [mbind option_bind negb]. rewrite Hne2, Ho' by (by rewrite Hp). cbn [mbind option_bind].
  assert (∀ x, x ∈ done → ifs_of h' x = ifs_of h0 x) as Hif'.
  { intros x Hx. rewrite <-(Hif x Hx). apply set_eq. intros i. assert (x ∈ ls') as Hx' by (by rewrite Hp).
    assert (x ∈ ls2) as Hx2 by (rewrite Hp2; by right).
    transitivity (byInterface lists' !! i = Some x); [rewrite (wf_byIf _ _ _ Hw2); tauto|].
    transitivity (byInterface lists !! i = Some x); [|rewrite (wf_byIf _ _ _ Hw); tauto].
    rewrite HbyIf. destruct (decide (i ∈ RL_Interfaces o)) as [Hi|]; [|done]. split; [intros [= ->]; done|].
    intros [_ Hi']%(wf_byIf _ _ _ Hw). rewrite (Hif x Hx) in Hi'. exfalso. apply Hld. by rewrite (Hifs l x i); [|..|rewrite Hlif|]; auto. }
  eexists _, _, _, _. split; [done|]. split.
  - by rewrite <-app_assoc.
  - exists ls2. split; [|done]. rewrite Hp2, Hp. apply Permutation_cons_append.
  - by etrans.
  - intros x Hx. rewrite Hne2; [apply Hfr; set_solver|]. rewrite Hp. set_solver.
  - intros x [Hx|Heq%list_elem_of_singleton]%elem_of_app; [by apply Hif'|subst x].
    unfold ifs_of. by rewrite Hne2, Ho', Ho by (by rewrite Hp).
  - intros s'. rewrite elem_of_union, elem_of_singleton, Hal. setoid_rewrite elem_of_app. setoid_rewrite list_elem_of_singleton.
    split; [intros [->|(x & ? & ?)]|intros (x & [?| ->] & Hx)]; [|eauto..|].
    + exists l. split; [by right|congruence].
    + left. apply (id_text_inj dir). congruence.
  - intros i. rewrite elem_of_union, Hin, <-Hlif. setoid_rewrite elem_of_app. setoid_rewrite list_elem_of_singleton.
    split; [intros [?|[?|(x & ? & ?)]]|intros [?|(x & [?| ->] & ?)]]; eauto 6.
Qed.

Lemma resync_loop done rest h lists allocated interfaces :
  resync_inv done rest h lists allocated interfaces →
  ∃ h' lists' allocated' interfaces', resync_lists dir rest (h, lists, allocated, interfaces) =
      Some (inr (h', lists', allocated', interfaces')) ∧ resync_inv ls [] h' lists' allocated' interfaces'.
Proof.
  revert done h lists allocated interfaces. induction rest as [|l rest IH]; intros done h lists allocated interfaces Hi; cbn [resync_lists].
  { eexists _, _, _, _. split; [done|]. pose proof (ri_split _ _ _ _ _ _ Hi) as Hsp. rewrite app_nil_r in Hsp. by subst. }
  destruct (resync_list_spec done l rest h lists allocated interfaces Hi) as (h1 & lists1 & a1 & i1 & -> & Hi1).
  cbn [mbind option_bind]. by eapply IH.
Qed.

Lemma resync_direction_spec :
  ∃ h' lists' allocated' interfaces', resync_lists dir ls (h0, NewContivRuleLists, ∅, interfaces0) =
      Some (inr (h', lists', allocated', interfaces')) ∧ resync_inv ls [] h' lists' allocated' interfaces'.
Proof.
  apply (resync_loop []). split; [done| |done|done|by intros l ?%elem_of_nil| |].
  - exists []. split; [done|apply NewContivRuleLists_wf].
  - intros s. split; [set_solver|]. by intros (l & ?%elem_of_nil & _).
  - intros i. split; [by left|]. intros [?|(l & ?%elem_of_nil & _)]; done.
Qed.
End resync_direction.

(** ** The cache restored from VPP *)

Section restore.
Context `{RangeOracle} (acls : gmap string Acl) (objs : TrafficDirection → gmap string ContivRuleList).
Hypothesis Hres : restorable acls objs.
Context (h0 h1 : heap) (ls : TrafficDirection → list positive).
Hypothesis Hd : dumped objs h0 (map_to_list acls).*1 h1 ls.

Lemma dumped_obj dir l : l ∈ ls dir →
  ∃ o acl, h1 !! l = Some o ∧ objs dir !! RL_ID o = Some o ∧ acls !! RL_ID o = Some acl ∧ acl_of dir (RL_ID o) acl o.
Proof.
  intros (name & o & Ho & _ & Hobj)%(du_obj _ _ _ _ _ Hd). destruct (rs_obj _ _ Hres _ _ _ Hobj) as (acl & Hacl & Hao).
  exists o, acl. rewrite (ao_id _ _ _ _ Hao). done.
Qed.

Lemma dumped_name dir name acl o :
  acls !! name = Some acl → objs dir !! name = Some o → ∃ l, l ∈ ls dir ∧ h1 !! l = Some o.
Proof.
  intros Hacl. apply (du_all _ _ _ _ _ Hd). apply list_elem_of_fmap. exists (name, acl). split; [done|].
  by apply elem_of_map_to_list.
Qed.

Lemma dumped_disjoint l : l ∈ ls Ingress → l ∉ ls Egress.
Proof.
  intros (o & ? & Ho & Hi & _)%dumped_obj (o' & ? & Ho' & Hi' & _)%dumped_obj. rewrite Ho in Ho'. simplify_eq.
  by pose proof (one_direction acls objs Hres _ _ _ _ _ Hi Hi').
Qed.

(** A heap that has the dumped lists of a direction. *)
Lemma resync_dir_spec dir h interfaces0 :
  (∀ l, l ∈ ls dir → h !! l = h1 !! l) →
  ∃ h' lists allocated interfaces, resync_lists dir (ls dir) (h, NewContivRuleLists, ∅, interfaces0) =
      Some (inr (h', lists, allocated, interfaces)) ∧
    resync_inv dir h (ls dir) interfaces0 (ls dir) [] h' lists allocated interfaces.
Proof.
  intros Heq. assert (∀ l, l ∈ ls dir → ∃ o acl, h !! l = Some o ∧ objs dir !! RL_ID o = Some o ∧ acl_of dir (RL_ID o) acl o) as Hobj.
  { intros l Hl. rewrite Heq by done. destruct (dumped_obj dir l Hl) as (o & acl & ? & ? & _ & ?). eauto. }
  assert (∀ l l' o o' acl acl', l ∈ ls dir → l' ∈ ls dir → h !! l = Some o → h !! l' = Some o' →
    objs dir !! RL_ID o = Some o → acl_of dir (RL_ID o) acl o → acl_of dir (RL_ID o') acl' o' → RL_ID o = RL_ID o' → l = l') as Hinj.
  { intros l l' o o' acl acl' Hl Hl' Ho Ho' _ _ _ Hid. apply (du_inj _ _ _ _ _ Hd dir); [done..|].
    unfold id_of. rewrite <-!Heq, Ho, Ho' by done. done. }
  apply resync_direction_spec.
  - apply Hd.
  - intros l Hl. destruct (Hobj l Hl) as (o & acl & Ho & _ & Hao). unfold ifs_of, id_of. rewrite Ho. simpl.
    split_and!; [eauto|apply Hao|apply Hao].
  - intros l l' Hl Hl'. destruct (Hobj l Hl) as (o & acl & Ho & ? & ?), (Hobj l' Hl') as (o' & acl' & Ho' & ? & ?).
    unfold id_of. rewrite Ho, Ho'. simpl. eauto.
  - intros l l' Hl Hl'. destruct (Hobj l Hl) as (o & acl & Ho & ? & ?), (Hobj l' Hl') as (o' & acl' & Ho' & ? & ?).
    unfold rules_of. rewrite Ho, Ho'. simpl. intros Hr. eapply Hinj; [done..|]. by eapply (rs_rules _ _ Hres).
  - intros l l' i Hl Hl'. destruct (Hobj l Hl) as (o & acl & Ho & ? & ?), (Hobj l' Hl') as (o' & acl' & Ho' & ? & ?).
    unfold ifs_of. rewrite Ho, Ho'. simpl. intros Hi Hi'. eapply Hinj; [done..|]. by eapply (rs_ifs _ _ Hres).
Qed.

(** The lists of a direction agree with VPP. *)
Lemma resync_dir_ok dir h interfaces0 h' lists allocated interfaces :
  (∀ l, l ∈ ls dir → h !! l = h1 !! l) →
  resync_inv dir h (ls dir) interfaces0 (ls dir) [] h' lists allocated interfaces → dir_ok dir h' lists acls.
Proof.
  intros Heq [_ (ls' & Hp & Hw) Hst _ Hif _ _].
  assert (∀ id l, byID lists !! id = Some l → ∃ acl o, acls !! id = Some acl ∧ acl_of dir id acl o ∧ objs dir !! id = Some o ∧
    rules_of h' l = RL_Rules o ∧ ifs_of h' l = RL_Interfaces o ∧ priv_of h' l = RL_Private o ∧ id_of h' l = id) as Hl.
  { intros id l [Hl Hid]%(wf_byID _ _ _ Hw). rewrite Hp in Hl. destruct (dumped_obj dir l Hl) as (o & acl & Ho & Hob & Hacl & Hao).
    rewrite (st_rules _ _ Hst), (st_priv _ _ Hst), Hif by done. rewrite (st_id _ _ Hst) in Hid |- *.
    unfold rules_of, ifs_of, priv_of, id_of in *. rewrite Heq, Ho in * by done. simpl in *. subst id. by exists acl, o. }
  split_and!.
  - intros id r ifs (l & Hid & <- & <-)%desc_base_Some.
    destruct (Hl id l Hid) as (acl & o & Hacl & [Hn _ _ (rs & Hr & Hne & Hru) _ (names & Hi & Hnames) Hu _] & _ & -> & -> & _).
    rewrite Hacl, Hr. unfold acl_ok. rewrite decide_False; [by exists acl, names|].
    intros [Hlen|?]; [|done]. by destruct rs.
  - intros s [acl Hacl]. unfold desc_base. destruct (byID lists !! id_text dir s) eqn:E; [by eauto|]. exfalso.
    destruct (rs_acl _ _ Hres _ _ Hacl) as (dir' & o & Ho). destruct (rs_obj _ _ Hres _ _ _ Ho) as (acl' & _ & Hao).
    assert (dir' = dir) as -> by (destruct (ao_text _ _ _ _ Hao) as [s' Hs']; by apply id_text_dir in Hs').
    destruct (dumped_name dir _ acl o Hacl Ho) as (l & Hll & Hlo).
    assert (byID lists !! id_text dir s = Some l) as E'; [|congruence]. apply (wf_byID _ _ _ Hw). rewrite Hp. split; [done|].
    rewrite (st_id _ _ Hst). unfold id_of. rewrite Heq, Hlo by done. apply Hao.
  - intros id l Hid Hr Hi. destruct (Hl id l Hid) as (acl & o & Hacl & [Hn _ _ (rs & Hrs & _ & Hru) _ _ _ Hpr] & _ & Er & _ & Ep & Eid).
    exists acl. rewrite Ep, Er, Eid, Hrs, Hpr. done.
Qed.
(** A dumped list, in a heap that has it unchanged. *)
Lemma dumped_at dir h l : l ∈ ls dir → h !! l = h1 !! l →
  ∃ o acl s, id_of h l = id_text dir s ∧ ifs_of h l = RL_Interfaces o ∧ objs dir !! id_text dir s = Some o ∧ acls !! id_text dir s = Some acl.
Proof.
  intros Hl Heq. destruct (dumped_obj dir l Hl) as (o & acl & Ho & Hob & Hacl & Hao). destruct (ao_text _ _ _ _ Hao) as [sfx Hs].
  exists o, acl, sfx. unfold id_of, ifs_of. rewrite Heq, Ho. simpl. by rewrite <-Hs.
Qed.

Section direction.
Context (dir : TrafficDirection) (h h' : heap) (interfaces0 : gset string) (lists : ContivRuleLists) (allocated interfaces : gset string).
Hypothesis Heq : ∀ l, l ∈ ls dir → h !! l = h1 !! l.
Hypothesis Hri : resync_inv dir h (ls dir) interfaces0 (ls dir) [] h' lists allocated interfaces.

(** The suffixes of the restored IDs are allocated, *)
Lemma resync_dir_ids id : is_Some (byID lists !! id) → ∃ s, id = id_text dir s ∧ s ∈ allocated.
Proof.
  destruct Hri as [_ (ls' & Hp & Hw) Hst _ _ Ha _]. intros [l [Hl Hid]%(wf_byID _ _ _ Hw)]. rewrite Hp in Hl.
  destruct (dumped_at dir h l Hl (Heq l Hl)) as (o & acl & sfx & Hs & _). exists sfx. rewrite (st_id _ _ Hst) in Hid.
  split; [congruence|]. apply Ha. by exists l.
Qed.

(** and no others. *)
Lemma resync_dir_allocated s : s ∈ allocated → is_Some (acls !! id_text dir s).
Proof.
  intros (l & Hl & Hs)%(ri_alloc _ _ _ _ _ _ _ _ _ _ Hri). destruct (dumped_at dir h l Hl (Heq l Hl)) as (o & acl & sfx & Hs' & _ & _ & Hacl).
  exists acl. congruence.
Qed.

Lemma resync_dir_interfaces i : i ∈ interfaces ↔ i ∈ interfaces0 ∨ ∃ name o, objs dir !! name = Some o ∧ i ∈ RL_Interfaces o.
Proof.
  rewrite (ri_interfaces _ _ _ _ _ _ _ _ _ _ Hri). f_equiv. split.
  - intros (l & Hl & Hi). destruct (dumped_at dir h l Hl (Heq l Hl)) as (o & acl & sfx & _ & Hif & Hob & _). rewrite Hif in Hi. eauto.
  - intros (name & o & Ho & Hi). destruct (rs_obj _ _ Hres _ _ _ Ho) as (acl & Hacl & _).
    destruct (dumped_name dir name acl o Hacl Ho) as (l & Hl & Hlo). exists l. split; [done|]. unfold ifs_of. by rewrite Heq, Hlo.
Qed.
End direction.
End restore.

(** The first step of a commit with resync restores the cache from VPP, whatever
    it was. *)
Lemma resync_consistent `{RangeOracle} {A} `{!AclAgent A, !AclAgentLaws A} (art : AclRendererTxn) (s : AclState A) objs aclDump :
  acl_resync art = true → DumpACL (st_agent s) = Some aclDump → restorable (agent_acls (st_agent s)) objs →
  ∃ h crc, resync_with_vpp art s = Some (mkAclState h crc (st_rands s) (st_agent s), None) ∧
    acl_consistent h crc (agent_acls (st_agent s)) ∧
    (∀ i, i ∈ crc_interfaces crc ↔ ∃ dir name o, objs dir !! name = Some o ∧ i ∈ RL_Interfaces o) ∧
    (∀ sfx, sfx ∈ allocatedIngress crc ∪ allocatedEgress crc → ∃ dir, is_Some (agent_acls (st_agent s) !! id_text dir sfx)).
Proof.
  intros Hr Hdump Hres. set (acls := agent_acls (st_agent s)) in *. unfold resync_with_vpp. rewrite Hr, Hdump.
  destruct (dumpVppACLConfig_spec acls objs Hres (st_heap s) aclDump (agent_dump _ _ Hdump)) as (h1 & lI & lE & -> & Hd).
  cbn [mbind option_bind]. unfold Resync.
  destruct (resync_dir_spec acls objs Hres (st_heap s) h1 (ls_of lI lE) Hd Ingress h1 ∅) as (h2 & bI & aI & iI & Hri & HI); [done|].
  cbn [ls_of] in Hri. rewrite Hri. cbn [mbind option_bind].
  assert (∀ l, l ∈ lE → h2 !! l = h1 !! l) as HE2.
  { intros l Hl. apply (ri_frame _ _ _ _ _ _ _ _ _ _ HI). intros Hl'.
    by apply (dumped_disjoint acls objs Hres _ _ _ Hd l Hl'). }
  destruct (resync_dir_spec acls objs Hres (st_heap s) h1 (ls_of lI lE) Hd Egress h2 iI) as (h3 & bE & aE & iE & Hre & HE); [done|].
  cbn [ls_of] in Hre. rewrite Hre. cbn [mbind option_bind]. eexists _, _. split; [done|].
  pose proof (resync_dir_ok acls objs Hres _ _ _ Hd Ingress h1 ∅ h2 bI aI iI ltac:(done) HI) as HokI.
  pose proof (resync_dir_ok acls objs Hres _ _ _ Hd Egress h2 iI h3 bE aE iE HE2 HE) as HokE.
  pose proof (resync_dir_ids acls objs Hres _ _ _ Hd Ingress h1 h2 ∅ bI aI iI ltac:(done) HI) as HidI.
  pose proof (resync_dir_ids acls objs Hres _ _ _ Hd Egress h2 h3 iI bE aE iE HE2 HE) as HidE.
  split; [|split].
  - destruct HI as [_ (lsI & HpI & HwI) _ _ _ _ _]. destruct HE as [_ (lsE & HpE & HwE) _ HfE _ _ _]. cbn [ls_of] in *.
    assert (∀ l, l ∈ lsI → (l ∉ lE) ∧ h3 !! l = h2 !! l) as HI3.
    { intros l Hl. rewrite HpI in Hl. pose proof (dumped_disjoint acls objs Hres _ _ _ Hd l Hl). split; [done|by apply HfE]. }
    split_and!; [exists lsI, lsE; split_and!|..|].
    + eapply wf_frame; [|done]. intros l Hl. by apply HI3.
    + done.
    + intros l Hl. rewrite HpE. by apply HI3.
    + exact HidI.
    + exact HidE.
    + eapply (dir_ok_frame _ h2); [done|intros l Hl; by apply HI3|done].
    + done.
    + intros name [acl (dir & o & Ho)%(rs_acl _ _ Hres)]. destruct (rs_obj _ _ Hres _ _ _ Ho) as (acl' & _ & Hao).
      destruct (ao_text _ _ _ _ Hao) as [sfx ->]. eauto.
  - intros i. simpl. rewrite (resync_dir_interfaces acls objs Hres _ _ _ Hd Egress h2 h3 iI bE aE iE HE2 HE).
    rewrite (resync_dir_interfaces acls objs Hres _ _ _ Hd Ingress h1 h2 ∅ bI aI iI ltac:(done) HI). split.
    + intros [[?|?]|?]; [set_solver|by exists Ingress|by exists Egress].
    + intros ([|] & ?); [left; by right|by right].
  - intros sfx [Hs|Hs]%elem_of_union.
    + exists Ingress. exact (resync_dir_allocated acls objs Hres _ _ _ Hd Ingress h1 h2 ∅ bI aI iI ltac:(done) HI sfx Hs).
    + exists Egress. exact (resync_dir_allocated acls objs Hres _ _ _ Hd Egress h2 h3 iI bE aE iE HE2 HE sfx Hs).
Qed.

(** ** A commit with resync *)

(** What VPP has was installed by the renderer, from a cache with plain rules. *)
Definition plain_cache (h : heap) (crc : ContivRuleCache) : Prop :=
  ∀ id b, byID (crc_ingress crc) !! id = Some b ∨ byID (crc_egress crc) !! id = Some b →
    Forall plain_rule (default [] (rules_of h b)).

Definition cache_dir (crc : ContivRuleCache) (dir : TrafficDirection) : ContivRuleLists :=
  match dir with Ingress => crc_ingress crc | Egress => crc_egress crc end.

(** The lists the installed ACLs stand for. *)
Definition cache_objs (h : heap) (crc : ContivRuleCache) (acls : gmap string Acl) (dir : TrafficDirection) :
    gmap string ContivRuleList :=
  map_imap (λ name acl, '(r, ifs) ← desc_base h (cache_dir crc dir) name; Some (mkContivRuleList name r ifs (Some acl))) acls.

Lemma cache_objs_Some h crc acls dir name o :
  cache_objs h crc acls dir !! name = Some o ↔
  ∃ acl r ifs, acls !! name = Some acl ∧ desc_base h (cache_dir crc dir) name = Some (r, ifs) ∧
    o = mkContivRuleList name r ifs (Some acl).
Proof.
  unfold cache_objs. rewrite map_lookup_imap. destruct (acls !! name) as [acl|]; simpl; [|naive_solver].
  destruct (desc_base h (cache_dir crc dir) name) as [[r ifs]|]; simpl; naive_solver.
Qed.

Lemma consistent_restorable h crc acls :
  acl_consistent h crc acls → plain_cache h crc → restorable acls (cache_objs h crc acls).
Proof.
  intros ((blsI & blsE & HwI & HwE & _ & HaI & HaE) & (HiI & HcI & _) & (HiE & HcE & _) & Ho) Hpl.
  assert (∀ dir, installed dir (desc_base h (cache_dir crc dir)) acls ∧ closed_dir dir (desc_base h (cache_dir crc dir)) acls ∧
    (∃ ls, wf h (cache_dir crc dir) ls) ∧ (∀ id, is_Some (byID (cache_dir crc dir) !! id) → ∃ s, id = id_text dir s)) as Hdir.
  { intros []; (split_and!; [done|done|eexists; done|]); intros id Hid;
      [destruct (HaI id Hid) as (s & ? & _)|destruct (HaE id Hid) as (s & ? & _)]; eauto. }
  split.
  - intros name acl Hacl. destruct (Ho name) as (dir & s & ->); [eauto|]. destruct (Hdir dir) as (_ & Hc & _).
    destruct (Hc s) as [[r ifs] Hd]; [eauto|]. exists dir. eexists. apply cache_objs_Some. by exists acl, r, ifs.
  - intros dir name o (acl & r & ifs & Hacl & Hd & ->)%cache_objs_Some. exists acl. split; [done|].
    destruct (Hdir dir) as (Hi & _ & _ & Ht). pose proof (Hi _ _ _ Hd) as Hok. unfold acl_ok in Hok. rewrite Hacl in Hok.
    apply desc_base_Some in Hd as (b & Hb & <- & <-). destruct (decide _) as [|Hne]; [done|].
    destruct Hok as (acl' & names & [= <-] & Hn & Hru & Hifs & Hnames).
    split; simpl; [done|done|apply Ht; eauto| | |by exists names|tauto|done].
    + destruct (rules_of h b) as [rs|]; [|simpl in Hne; tauto]. exists rs. split; [done|]. split; [|done].
      intros ->. apply Hne. by left.
    + apply (Hpl name b). destruct dir; [by left|by right].
  - intros dir name name' o o' (acl & r & ifs & _ & Hd & ->)%cache_objs_Some (acl' & r' & ifs' & _ & Hd' & ->)%cache_objs_Some.
    simpl. intros ->. destruct (Hdir dir) as (_ & _ & (ls & Hw) & _). by eapply (ds_unique _ _ (wf_describes _ _ _ Hw)).
  - intros dir name name' o o' i (acl & r & ifs & _ & Hd & ->)%cache_objs_Some (acl' & r' & ifs' & _ & Hd' & ->)%cache_objs_Some.
    simpl. destruct (Hdir dir) as (_ & _ & (ls & Hw) & _). pose proof (wf_describes _ _ _ Hw) as Hds.
    rewrite (ds_ifs _ _ Hds _ _ _ i Hd), (ds_ifs _ _ Hds _ _ _ i Hd'). intros -> [= ->]. by eapply (ds_unique _ _ Hds).
Qed.

Lemma filter_ext_in {X} (P Q : X → Prop) `{!∀ x, Decision (P x), !∀ x, Decision (Q x)} (l : list X) :
  (∀ x, x ∈ l → P x ↔ Q x) → filter P l = filter Q l.
Proof.
  induction l as [|x l IH]; intros HPQ; [done|]. rewrite !filter_cons. rewrite IH by (intros; apply HPQ; by right).
  destruct (HPQ x) as [? ?]; [by left|]. destruct (decide (P x)), (decide (Q x)); tauto.
Qed.

(** The removals at the end of the transaction. *)
Definition removals (names : list string) : list IfUpdate := (λ n, mkIfUpdate n (Some []) (Some [])) <$> names.

Lemma Txn_Update_interfaces `{RangeOracle} h crc crct rands n ingress egress h' crc' crct' rands' :
  Txn_Update h crc crct rands n ingress egress = Some (h', crc', crct', rands') →
  crct_interfaces crct' = {[ n ]} ∪ crct_interfaces crct ∧ crc_interfaces crc' = crc_interfaces crc.
Proof.
  unfold Txn_Update. intros E. destruct (updateInterface _ _ _ Ingress _ _ _ _) as [[[[? ?] ?] ?]|]; [|done]. simpl in E.
  destruct (updateInterface _ _ _ Egress _ _ _ _) as [[[[? ?] ?] ?]|]; [|done]. simpl in E. by simplify_eq.
Qed.

Lemma run_updates_interfaces `{RangeOracle} us h crc crct rands h' crc' crct' rands' :
  run_updates (h, crc, crct, rands) us = Some (h', crc', crct', rands') →
  crct_interfaces crct' = list_to_set (up_ifName <$> us) ∪ crct_interfaces crct ∧ crc_interfaces crc' = crc_interfaces crc.
Proof.
  unfold run_updates. revert h crc crct rands. induction us as [|u us IH]; intros h crc crct rands; cbn [foldM].
  { intros [= <- <- <- <-]. split; [set_solver|done]. }
  destruct (Txn_Update h crc crct rands _ _ _) as [[[[h1 crc1] crct1] rands1]|] eqn:E; [|done].
  cbn [mbind option_bind]. intros [-> ->]%IH. apply Txn_Update_interfaces in E as [-> ->]. split; [|done]. csimpl. set_solver.
Qed.

Lemma removal_loop `{RangeOracle} L h crc crct rands :
  NoDup L →
  foldM (λ '(h, crc, crct, rands) ifName,
      if bool_decide (ifName ∈ crct_interfaces crct) then Some (h, crc, crct, rands)
      else Txn_Update h crc crct rands ifName (Some []) (Some [])) (h, crc, crct, rands) L =
  run_updates (h, crc, crct, rands) (removals (filter (λ n, n ∉ crct_interfaces crct) L)).
Proof.
  intros Hnd. revert h crc crct rands. induction Hnd as [|n L Hn _ IH]; intros h crc crct rands; [done|].
  cbn [foldM]. rewrite filter_cons. case_bool_decide as Hin.
  { cbn [mbind option_bind]. rewrite IH. by rewrite decide_False by tauto. }
  rewrite decide_True by done. unfold removals. rewrite fmap_cons. unfold run_updates. cbn [foldM up_ifName up_ingress up_egress].
  destruct (Txn_Update h crc crct rands n (Some []) (Some [])) as [[[[h1 crc1] crct1] rands1]|] eqn:E; [|done].
  cbn [mbind option_bind]. rewrite IH. unfold run_updates, removals. do 2 f_equal.
  assert (crct_interfaces crct1 = {[ n ]} ∪ crct_interfaces crct) as ->.
  { by apply Txn_Update_interfaces in E as [? _]. }
  apply filter_ext_in. intros n' Hn'. rewrite not_elem_of_union, not_elem_of_singleton.
  split; [tauto|]. intros ?. split; [by intros ->|done].
Qed.

Lemma updated_removals v names i :
  NoDup names → updated_view v (removals names) i = if decide (i ∈ names) then (Some (Some []), Some (Some [])) else v i.
Proof.
  intros Hnd. assert (up_ifName <$> removals names = names) as Hn.
  { unfold removals. rewrite <-list_fmap_compose. apply list_fmap_id. }
  destruct (decide (i ∈ names)) as [Hi|Hi]; [|apply updated_view_out; by rewrite Hn].
  assert (mkIfUpdate i (Some []) (Some []) ∈ removals names) as Hin.
  { unfold removals. apply list_elem_of_fmap. eauto. }
  apply (updated_view_in v) in Hin; [done|by rewrite Hn].
Qed.

(** The interfaces VPP has ACLs on. *)
Definition vpp_interfaces (acls : gmap string Acl) : gset string :=
  list_to_set ((map_to_list acls).*2 ≫= λ acl, acl_names Ingress acl ++ acl_names Egress acl).

(** The updates of a transaction with resync. *)
Definition resync_updates `{RangeOracle} (config : gmap string InterfaceConfig) (interfaces : gset string) : list IfUpdate :=
  config_updates config ++
  removals (filter (λ n, n ∉ (list_to_set (up_ifName <$> config_updates config) : gset string)) (range_set [34]%Z interfaces)).

Lemma prepare_resync `{RangeOracle} art h crc rands :
  acl_resync art = true →
  prepare_updates art h crc rands =
  run_updates (h, crc, Cache_NewTxn, rands) (resync_updates (acl_config art) (crc_interfaces crc)).
Proof.
  intros Hr. unfold prepare_updates, resync_updates. rewrite prepare_config, Hr. unfold run_updates at 2. rewrite foldM_app.
  fold (run_updates (h, crc, Cache_NewTxn, rands) (config_updates (acl_config art))).
  destruct (run_updates _ (config_updates (acl_config art))) as [[[[h1 crc1] crct1] rands1]|] eqn:E; [|done].
  cbn [mbind option_bind]. apply run_updates_interfaces in E as [Hi Hc]. unfold Cache_AllInterfaces. rewrite Hc.
  rewrite removal_loop by apply range_keys_NoDup. rewrite Hi. cbn [crct_interfaces Cache_NewTxn]. rewrite union_empty_r_L. done.
Qed.

Lemma length_range_set `{RangeOracle} {K} `{Countable K} site (s : gset K) : length (range_set site s) = size s.
Proof.
  unfold range_set, range_keys. rewrite length_fmap, go_range_perm, length_map_to_list. rewrite <-size_dom. by rewrite dom_gset_to_gmap.
Qed.

Lemma length_resync_updates `{RangeOracle} config interfaces :
  length (resync_updates config interfaces) ≤ size config + size interfaces.
Proof.
  unfold resync_updates, removals. rewrite length_app, length_config_updates, length_fmap.
  pose proof (length_filter (λ n, n ∉ (list_to_set (up_ifName <$> config_updates config) : gset string)) (range_set [34]%Z interfaces)).
  rewrite length_range_set in *. lia.
Qed.

Lemma resync_updates_view `{RangeOracle} v config interfaces i :
  (i ∉ interfaces → rendered_view (v i) = ([], [])) →
  rendered_view (updated_view v (resync_updates config interfaces) i) =
  match config !! i with Some c => rendered_view (Some (if_ingress c), Some (if_egress c)) | None => ([], []) end.
Proof.
  intros Hv. unfold resync_updates. rewrite updated_view_app, updated_removals by apply NoDup_filter, range_keys_NoDup.
  rewrite config_updates_view.
  assert (i ∈ (list_to_set (up_ifName <$> config_updates config) : gset string) ↔ is_Some (config !! i)) as Hi.
  { by rewrite elem_of_list_to_set, config_updates_names, elem_of_range_keys. }
  destruct (decide _) as [Hin|Hin]; rewrite list_elem_of_filter, elem_of_range_set, Hi in Hin.
  - destruct (config !! i); [|done]. destruct Hin as [Hn _]. exfalso. apply Hn. eauto.
  - destruct (config !! i); [done|]. apply Hv. intros ?. apply Hin. split; [by intros [? [=]]|done].
Qed.

Lemma restored_interfaces acls objs (interfaces : gset string) :
  restorable acls objs →
  (∀ i, i ∈ interfaces ↔ ∃ dir name o, objs dir !! name = Some o ∧ i ∈ RL_Interfaces o) →
  interfaces ⊆ vpp_interfaces acls.
Proof.
  intros Hres Hifs i (dir & name & o & Ho & Hi)%Hifs. destruct (rs_obj _ _ Hres _ _ _ Ho) as (acl & Hacl & Hao).
  unfold vpp_interfaces. rewrite elem_of_list_to_set, list_elem_of_bind. exists acl. split.
  - destruct (ao_ifs _ _ _ _ Hao) as (names & Hn & Hnames). unfold acl_names. rewrite Hn.
    destruct dir; simpl; [rewrite app_nil_r|]; by apply Hnames.
  - apply list_elem_of_fmap. exists (name, acl). split; [done|]. by apply elem_of_map_to_list.
Qed.

Lemma unknown_interface acls objs (interfaces : gset string) i :
  restorable acls objs →
  (∀ i, i ∈ interfaces ↔ ∃ dir name o, objs dir !! name = Some o ∧ i ∈ RL_Interfaces o) →
  i ∉ interfaces → vpp_view acls i = ([], []).
Proof.
  intros Hres Hifs Hi. unfold vpp_view.
  assert (∀ dir, vpp_acl_rules acls dir i = []) as Hno; [|by rewrite !Hno].
  intros dir. unfold vpp_acl_rules. rewrite (filter_map_values acls _ None); [done|].
  intros name acl. split; [|done]. intros [Hacl Hn]. exfalso. apply Hi, Hifs.
  destruct (rs_acl _ _ Hres _ _ Hacl) as (dir' & o & Ho). destruct (rs_obj _ _ Hres _ _ _ Ho) as (acl' & Hacl' & Hao).
  assert (acl' = acl) as -> by congruence. destruct (ao_ifs _ _ _ _ Hao) as (names & Hni & Hnames).
  exists dir', name, o. split; [done|]. apply Hnames. unfold acl_names in Hn. rewrite Hni in Hn.
  destruct dir, dir'; simpl in Hn; [done|by apply elem_of_nil in Hn..|done].
Qed.

(** C17. A commit of the ACL renderer with resync. Whatever the cache is, if the
    ACLs of VPP were installed by the renderer (from some earlier cache with
    plain rules) the cache is rebuilt from the dump without an error, and if
    the agent accepts the transaction VPP has exactly the ACLs of the cache; an
    interface of the transaction is subject to one ACL with the rules given for
    it (none if there are no rules) in each direction, every other interface
    to none at all. The dump succeeds; plain rules have match-all or canonical
    four-byte IPv4 networks and 16-bit ports; the random numbers drawn for the IDs
    of new lists are different, enough, and not those of ACLs in VPP. *)
Theorem acl_resync_sync `{RangeOracle} {A} `{!AclAgent A, !AclAgentLaws A} (art : AclRendererTxn) (s : AclState A)
    (h0 : heap) (crc0 : ContivRuleCache) (aclDump : list Acl) :
  acl_resync art = true → DumpACL (st_agent s) = Some aclDump →
  acl_consistent h0 crc0 (agent_acls (st_agent s)) → plain_cache h0 crc0 →
  NoDup (Sprintf_X <$> st_rands s) →
  (∀ b dir, b ∈ st_rands s → agent_acls (st_agent s) !! id_text dir (Sprintf_X b) = None) →
  2 * (size (acl_config art) + size (vpp_interfaces (agent_acls (st_agent s)))) ≤ length (st_rands s) →
  ∃ s' err v0, AclRenderer_Commit art s = Some (s', err) ∧
    (∀ i, rendered_view (v0 i) = vpp_view (agent_acls (st_agent s)) i) ∧
    commit_outcome v0 (λ i,
      match acl_config art !! i with
      | Some c => rendered_view (Some (if_ingress c), Some (if_egress c))
      | None => ([], [])
      end) s' err.
Proof.
  intros Hr Hdump Hcons Hpl Hnd Hfresh Hlen. pose proof (consistent_restorable _ _ _ Hcons Hpl) as Hres.
  destruct (resync_consistent art s _ _ Hr Hdump Hres) as (h & crc & Hrs & Hcons' & Hifs & Hal).
  pose proof (restored_interfaces _ _ _ Hres Hifs) as Hsub.
  destruct (updates_then_send (resync_updates (acl_config art) (crc_interfaces crc)) h crc (st_rands s) (st_agent s) Hcons')
    as (h1 & crc1 & crct & rands1 & s' & err & Hrun & Hsend & Hout).
  { split_and!; [done| |].
    - intros b Hb Hin. destruct (Hal _ Hin) as (dir & [? Hx]). by rewrite Hfresh in Hx.
    - pose proof (length_resync_updates (acl_config art) (crc_interfaces crc)). apply subseteq_size in Hsub. lia. }
  exists s', err, (cache_view h crc). split; [|split; [intros i; symmetry; by apply consistent_view|]].
  - unfold AclRenderer_Commit. rewrite Hrs. cbn [mbind option_bind st_heap st_cache st_rands st_agent].
    rewrite (prepare_resync art h crc (st_rands s) Hr), Hrun. cbn [mbind option_bind]. exact Hsend.
  - unfold commit_outcome in *. destruct err; [done|]. destruct Hout as [Hc Hv]. split; [done|]. intros i.
    rewrite Hv. apply resync_updates_view. intros Hi. rewrite <-(consistent_view h crc _ i Hcons'). by eapply unknown_interface.
Qed.

(** The renderer restarts after the transaction of [example_txn], with one pod
    left. *)
Definition example_init : AclState (gmap string Acl) := mkAclState ∅ AclRenderer_Init [[1]; [2]; [3]; [4]]%Z ∅.
Definition example_before : AclState (gmap string Acl) :=
  from_option fst example_init (@AclRenderer_Commit canonical_order _ map_agent example_txn example_init).
Definition example_resync : AclRendererTxn :=
  mkAclRendererTxn true {[ "tap-b"%string := mkInterfaceConfig (Some []) (Some [
    mkContivRule "web" ActionPermit emptyIPNet emptyIPNet TCP 0 80]) ]}.
Definition example_restart : AclState (gmap string Acl) :=
  mkAclState ∅ AclRenderer_Init [[5]; [6]; [7]; [8]; [9]; [10]]%Z (st_agent example_before).

Lemma example_before_consistent :
  acl_consistent (st_heap example_before) (st_cache example_before) (st_agent example_before).
Proof.
  destruct (@updates_then_send canonical_order _ map_agent map_agent_laws
    (@config_updates canonical_order (acl_config example_txn)) ∅ AclRenderer_Init [[1]; [2]; [3]; [4]]%Z ∅ init_consistent)
    as (h1 & crc1 & crct & rands1 & s & err & Hrun & Hsend & Hout).
  { split; [apply (bool_decide_unpack _); vm_compute; exact I|].
    split; [intros b _; apply not_elem_of_empty|apply Nat.leb_le; vm_compute; reflexivity]. }
  assert (@AclRenderer_Commit canonical_order _ map_agent example_txn example_init = Some (s, err)) as Hc.
  { rewrite commit_no_resync_eq by done. unfold example_init; cbn [st_heap st_cache st_rands st_agent].
    rewrite Hrun. exact Hsend. }
  unfold example_before. rewrite Hc. cbn [from_option fst].
  assert (err = None) as ->; [|apply Hout].
  assert (option_map snd (@AclRenderer_Commit canonical_order _ map_agent example_txn example_init) = Some None) as He
    by (vm_compute; reflexivity).
  rewrite Hc in He. by injection He.
Qed.

Lemma plain_lists (m : gmap string positive) (h : heap) id b :
  Forall (Forall plain_rule) ((λ l, default [] (rules_of h l)) <$> (map_to_list m).*2) →
  m !! id = Some b → Forall plain_rule (default [] (rules_of h b)).
Proof.
  rewrite Forall_fmap, Forall_forall. intros Hall Hb. apply (Hall b). apply list_elem_of_fmap. exists (id, b). split; [done|].
  by apply elem_of_map_to_list.
Qed.

(** Evaluates the list of a [Forall] goal. *)
Ltac eval_Forall :=
  match goal with
  | |- Forall _ ?l => let l' := eval vm_compute in l in
    assert (l = l') as -> by (vm_compute; reflexivity)
  end.

Lemma example_before_plain : plain_cache (st_heap example_before) (st_cache example_before).
Proof.
  assert (plain_net (mkIPNet [10; 1; 1; 0]%Z [255; 255; 255; 0]%Z)) as Hn.
  { right. exists 24. split_and!; try reflexivity; [repeat constructor; done|lia]. }
  assert (plain_net emptyIPNet) as He by (by left).
  intros id b [Hb|Hb]; (eapply plain_lists; [|exact Hb]); eval_Forall; clear id b Hb;
    repeat first [apply Forall_nil_2|apply Forall_cons_2]; unfold plain_rule; cbn [SrcNetwork DestNetwork SrcPort DestPort];
    split_and!; try assumption; unfold plain_port; lia.
Qed.

Lemma acl_resync_sync_witness :
  ∃ s, @AclRenderer_Commit canonical_order _ map_agent example_resync example_restart = Some (s, None) ∧
    vpp_view (st_agent s) "tap-a" = ([], []) ∧ (vpp_view (st_agent s) "tap-b").1 = [].
Proof.
  destruct (@acl_resync_sync canonical_order _ map_agent map_agent_laws example_resync example_restart
    (st_heap example_before) (st_cache example_before) (map_to_list (st_agent example_before)).*2)
    as (s & err & v0 & Hc & _ & Hout).
  - vm_compute. reflexivity.
  - reflexivity.
  - exact example_before_consistent.
  - exact example_before_plain.
  - apply (bool_decide_unpack _). vm_compute. exact I.
  - intros b dir Hb. cbn [example_restart st_rands st_agent] in *. revert b Hb. apply Forall_forall.
    destruct dir; repeat constructor; vm_compute; reflexivity.
  - apply Nat.leb_le. vm_compute. reflexivity.
  - assert (err = None) as ->.
    { assert (option_map snd (@AclRenderer_Commit canonical_order _ map_agent example_resync example_restart) = Some None) as He
        by (vm_compute; reflexivity).
      rewrite Hc in He. injection He as He. exact He. }
    exists s. split; [exact Hc|]. destruct Hout as [_ Hv]. split.
    + etrans; [exact (Hv "tap-a"%string)|]. vm_compute. reflexivity.
    + pose proof (Hv "tap-b"%string) as Hb. unfold agent_acls, map_agent_laws in Hb. rewrite Hb. vm_compute. reflexivity.
Defined.
