(* ===== verification/Configurator.v ===== *)
(** * The policy configurator

    plugins/policy/configurator/{configurator_api,configurator_impl}.go: the
    policies of a pod are translated into lists of Contiv rules and handed to
    the renderers.

    The policy cache is the interface [PodLookup] (the part the configurator
    uses), a renderer is a type of states with the function that executes a
    committed transaction. [match.Pods] and [match.IPBlocks] are options: the
    code tells nil from an empty slice. [sort.Sort] is an insertion sort by
    [Less]; for policies with distinct IDs the sorted order is unique. *)

From Stdlib Require Import ZArith Lia Ascii String.
From stdpp Require Import prelude strings list gmap.
From S2P Require Import Prelude GoStrings GoNet KsrModel Utils Rules.

(** ** Policies *)

Inductive ContivPolicyType := ContivPolicyIngress | ContivPolicyEgress | ContivPolicyAll.
Inductive MatchType := MatchIngress | MatchEgress.
Inductive PortProtocol := PortTCP | PortUDP.

#[global] Instance ContivPolicyType_eq_dec : EqDecision ContivPolicyType.
Proof. solve_decision. Defined.
#[global] Instance MatchType_eq_dec : EqDecision MatchType.
Proof. solve_decision. Defined.
#[global] Instance PortProtocol_eq_dec : EqDecision PortProtocol.
Proof. solve_decision. Defined.

Definition ContivPolicyType_String (pt : ContivPolicyType) : string :=
  match pt with ContivPolicyIngress => "INGRESS" | ContivPolicyEgress => "EGRESS" | ContivPolicyAll => "ALL" end.
Definition MatchType_String (mt : MatchType) : string :=
  match mt with MatchIngress => "INGRESS" | MatchEgress => "EGRESS" end.
Definition PortProtocol_String (pt : PortProtocol) : string :=
  match pt with PortTCP => "TCP" | PortUDP => "UDP" end.

Record Port := mkPort { Port_Protocol : PortProtocol; Port_Number : Z }.

Record IPBlock := mkIPBlock { Network : IPNet; Except : list IPNet }.

Record Match := mkMatch {
  Match_Type : MatchType;
  Match_Pods : option (list PodID);
  Match_IPBlocks : option (list IPBlock);
  Match_Ports : list Port
}.

Record ContivPolicy := mkContivPolicy {
  CPolicy_ID : PolicyID;
  CPolicy_Type : ContivPolicyType;
  CPolicy_Matches : list Match
}.

Definition Port_String (port : Port) : string :=
  let protocol := match Port_Protocol port with PortUDP => "UDP" | PortTCP => "TCP" end%string in
  if (Port_Number port =? 0)%Z then (protocol +:+ ":ANY")%string
  else (protocol +:+ ":" +:+ Itoa (Port_Number port))%string.

(** Items separated by commas, as the loops of the [String] methods build them. *)
Definition join_commas (items : list string) : string :=
  match items with
  | [] => ""%string
  | s :: items => foldl (λ acc t, acc +:+ ", " +:+ t)%string s items
  end.

(** [fmt.Sprintf("%s", n)] of a network value (not a pointer): the method set
    of [net.IPNet] has no [String], the fields are printed. *)
Definition IPBlock_String (net_fields : IPNet → string) (ipb : IPBlock) : string :=
  ("<Net:" +:+ net_fields (Network ipb) +:+ ", Except:[" +:+ join_commas (IPNet_String <$> Except ipb) +:+ "]>")%string.

Definition Match_String (net_fields : IPNet → string) (m : Match) : string :=
  ("<Type:" +:+ MatchType_String (Match_Type m)
   +:+ ", Pods:[" +:+ join_commas (PodID_String <$> default [] (Match_Pods m))
   +:+ "], Blocks:[" +:+ join_commas (IPBlock_String net_fields <$> default [] (Match_IPBlocks m))
   +:+ "], Ports:[" +:+ join_commas (Port_String <$> Match_Ports m) +:+ "]>")%string.

Definition ContivPolicy_String (net_fields : IPNet → string) (cp : ContivPolicy) : string :=
  ("ContivPolicy " +:+ PolicyID_String (CPolicy_ID cp) +:+ " <Type:" +:+ ContivPolicyType_String (CPolicy_Type cp)
   +:+ ", Matches:[" +:+ join_commas (Match_String net_fields <$> CPolicy_Matches cp) +:+ "]>")%string.

(** ** Subtraction of subnets *)

(** The elements of the result: the first argument (the same pointer) or a new
    network. *)
Inductive Subtracted := Net1 | NewNet (n : IPNet).

(** [subnet.IP\[i\] ^= v]; [None] is the index panic. *)
Definition xor_at (ip : IP) (i : nat) (v : Z) : option IP :=
  b ← ip !! i; Some (<[i := Z.lxor b v]> ip).

(** One round of the loop over the bits. *)
Definition flipped_subnet (net2 : IPNet) (bit : nat) : option IPNet :=
  let mask := CIDRMask (Z.of_nat bit + 1) (Z.of_nat (length (IPNet_Mask net2)) * 8) in
  ip ← xor_at (IP_Mask (IPNet_IP net2) mask) (bit / 8) (u8 (Z.shiftl 1 (7 - Z.of_nat (bit mod 8))));
  Some (mkIPNet ip mask).

Definition subtractSubnet (net1 net2 : IPNet) : option (list Subtracted) :=
  let net1MaskSize := (Mask_Size (IPNet_Mask net1)).1 in
  let net2MaskSize := (Mask_Size (IPNet_Mask net2)).1 in
  if (net2MaskSize <? net1MaskSize)%Z then
    Some (if negb (IPNet_Contains net2 (IPNet_IP net1)) then [Net1] else [])
  else if (net1MaskSize =? net2MaskSize)%Z then
    Some (if negb (IP_Equal (IPNet_IP net1) (IPNet_IP net2)) then [Net1] else [])
  else if negb (IPNet_Contains net1 (IPNet_IP net2)) then Some [Net1]
  else
    subnets ← mapM (flipped_subnet net2)
      (seq (Z.to_nat net1MaskSize) (Z.to_nat net2MaskSize - Z.to_nat net1MaskSize));
    Some (NewNet <$> subnets).

(** ** Generating rules *)

(** What the configurator uses of the policy cache. *)
Class PodLookup := { LookupPod : PodID → bool * option Pod }.

Record PeerPod := mkPeerPod { PeerPod_ID : PodID; PeerPod_IPNet : IPNet }.

(** One round of the loop over the pods of a match; a pod found without data is
    a nil dereference. *)
Definition collect_peer `{PodLookup} (peers : list PeerPod) (peer : PodID) : option (list PeerPod) :=
  let '(found, peerData) := LookupPod peer in
  if negb found then Some peers
  else
    data ← peerData;
    if bool_decide (Pod_IpAddress data = ""%string) then Some peers
    else match GetOneHostSubnet (Pod_IpAddress data) with
         | None => Some peers
         | Some net => Some (peers ++ [mkPeerPod peer net])
         end.

Definition collect_peers `{PodLookup} (pods : list PodID) : option (list PeerPod) := foldM collect_peer [] pods.

(** The elements of [subnets] are pointers: into the loop variable [block]
    ([&block.Network]), which every round of the loop over the blocks
    overwrites, or to networks of their own. *)
Inductive NetPtr := BlockNetwork | OwnNet (n : IPNet).

Definition net_deref (block : IPBlock) (p : NetPtr) : IPNet :=
  match p with BlockNetwork => Network block | OwnNet n => n end.

Definition subtract_from (block : IPBlock) (except : IPNet) (subtracted : list NetPtr) (subnet : NetPtr) :
    option (list NetPtr) :=
  r ← subtractSubnet (net_deref block subnet) except;
  Some (subtracted ++ ((λ s, match s with Net1 => subnet | NewNet n => OwnNet n end) <$> r)).

Definition subtract_except (block : IPBlock) (subnets : list NetPtr) (except : IPNet) : option (list NetPtr) :=
  foldM (subtract_from block except) [] subnets.

Definition block_subnets (block : IPBlock) : option (list NetPtr) :=
  foldM (subtract_except block) [BlockNetwork] (Except block).

(** The networks of all blocks, read after the loop: a pointer into the loop
    variable shows the last block. *)
Definition collect_subnets (blocks : list IPBlock) : option (list IPNet) :=
  (foldM (λ (allSubnets : list NetPtr) block,
    subnets ← block_subnets block; Some (allSubnets ++ subnets)) [] blocks : option (list NetPtr))
  ≫= λ ptrs : list NetPtr, Some (net_deref (default (mkIPBlock emptyIPNet []) (last blocks)) <$> ptrs).

Definition appendRule (rules : list ContivRule) (newRule : ContivRule) : list ContivRule :=
  if existsb (λ rule, bool_decide (ID rule = ID newRule)) rules then rules else rules ++ [newRule].

Definition appendRules (rules newRules : list ContivRule) : list ContivRule := foldl appendRule rules newRules.

(** A rule that permits traffic from (or to) [net]. *)
Definition permit_rule (direction : MatchType) (id : string) (net : IPNet) (proto : ProtocolType) (port : Z) : ContivRule :=
  match direction with
  | MatchIngress => mkContivRule id ActionPermit net emptyIPNet proto 0 port
  | MatchEgress => mkContivRule id ActionPermit emptyIPNet net proto 0 port
  end.

Definition port_proto (port : Port) : ProtocolType :=
  if bool_decide (Port_Protocol port = PortTCP) then TCP else UDP.

(** The rules for a network (or for everything): two for all ports, or one for
    each port. *)
Definition port_rules (direction : MatchType) (idPrefix : string) (net : IPNet) (ports : list Port) : list ContivRule :=
  if length ports =? 0 then
    [permit_rule direction (idPrefix +:+ "-TCP:ANY") net TCP 0; permit_rule direction (idPrefix +:+ "-UDP:ANY") net UDP 0]
  else (λ port, permit_rule direction (idPrefix +:+ "-" +:+ Port_String port) net (port_proto port) (Port_Number port)) <$> ports.

(** [match.Pods == nil && match.IPBlocks == nil] *)
Definition any_peer (m : Match) : bool :=
  match Match_Pods m, Match_IPBlocks m with None, None => true | _, _ => false end.

(** The rules a match adds, in order. *)
Definition match_rules `{PodLookup} (direction : MatchType) (id : PolicyID) (m : Match) : option (list ContivRule) :=
  peers ← collect_peers (default [] (Match_Pods m));
  allSubnets ← collect_subnets (default [] (Match_IPBlocks m));
  let prefix := PolicyID_String id in
  Some ((if any_peer m then port_rules direction prefix emptyIPNet (Match_Ports m) else [])
    ++ (peers ≫= λ peer, port_rules direction (prefix +:+ "-" +:+ PodID_String (PeerPod_ID peer))
                           (PeerPod_IPNet peer) (Match_Ports m))
    ++ (allSubnets ≫= λ subnet, port_rules direction (prefix +:+ "-" +:+ IPNet_String subnet) subnet (Match_Ports m))).

(** The policy does not apply to the direction. *)
Definition skips (direction : MatchType) (policy : ContivPolicy) : bool :=
  (bool_decide (CPolicy_Type policy = ContivPolicyIngress) && bool_decide (direction = MatchEgress))
  || (bool_decide (CPolicy_Type policy = ContivPolicyEgress) && bool_decide (direction = MatchIngress)).

Definition generate_match `{PodLookup} (direction : MatchType) (id : PolicyID) (st : list ContivRule * bool) (m : Match) :
    option (list ContivRule * bool) :=
  let '(rules, allAllowed) := st in
  if negb (bool_decide (Match_Type m = direction)) then Some (rules, allAllowed)
  else
    new ← match_rules direction id m;
    Some (appendRules rules new, allAllowed || (any_peer m && (length (Match_Ports m) =? 0))).

Definition generate_policy `{PodLookup} (direction : MatchType) (st : list ContivRule * bool * bool) (policy : ContivPolicy) :
    option (list ContivRule * bool * bool) :=
  let '(rules, hasPolicy, allAllowed) := st in
  if skips direction policy then Some (rules, hasPolicy, allAllowed)
  else
    '(rules, allAllowed) ← foldM (generate_match direction (CPolicy_ID policy)) (rules, allAllowed) (CPolicy_Matches policy);
    Some (rules, true, allAllowed).

Definition ruleTCPNone : ContivRule := mkContivRule "TCP:NONE" ActionDeny emptyIPNet emptyIPNet TCP 0 0.
Definition ruleUDPNone : ContivRule := mkContivRule "UDP:NONE" ActionDeny emptyIPNet emptyIPNet UDP 0 0.

Definition generateRules `{PodLookup} (direction : MatchType) (policies : list ContivPolicy) : option (list ContivRule) :=
  '(rules, hasPolicy, allAllowed) ← foldM (generate_policy direction) ([], false, false) policies;
  Some (if hasPolicy && negb allAllowed then appendRules rules [ruleTCPNone; ruleUDPNone] else rules).

(** ** Sets of policies *)

Definition string_lt (s t : string) : bool := bool_decide (string_Compare s t = Lt).

Definition Less (p q : ContivPolicy) : bool :=
  if string_lt (PolicyID_Namespace (CPolicy_ID p)) (PolicyID_Namespace (CPolicy_ID q)) then true
  else bool_decide (PolicyID_Namespace (CPolicy_ID p) = PolicyID_Namespace (CPolicy_ID q))
       && string_lt (PolicyID_Name (CPolicy_ID p)) (PolicyID_Name (CPolicy_ID q)).

Fixpoint sort_insert (p : ContivPolicy) (l : list ContivPolicy) : list ContivPolicy :=
  match l with
  | [] => [p]
  | q :: l => if Less p q then p :: q :: l else q :: sort_insert p l
  end.

(** [sort.Sort] of a copy. *)
Definition sort_policies (l : list ContivPolicy) : list ContivPolicy := foldl (λ l p, sort_insert p l) [] l.

Definition ContivPolicies_Equals (cp cp2 : list ContivPolicy) : bool :=
  if negb (length cp =? length cp2) then false
  else forallb (λ '(p, q), bool_decide (CPolicy_ID p = CPolicy_ID q)) (zip cp cp2).

Record ProcessedPolicySet := mkProcessed {
  pps_policies : list ContivPolicy;
  pps_ingress : list ContivRule;
  pps_egress : list ContivRule
}.

(** ** Transactions *)

Record ConfiguratorTxn := mkConfiguratorTxn {
  ct_resync : bool;
  ct_config : gmap PodID (list ContivPolicy)
}.

Definition Configurator_NewTxn (resync : bool) : ConfiguratorTxn := mkConfiguratorTxn resync ∅.

Definition Configure (pct : ConfiguratorTxn) (pod : PodID) (policies : list ContivPolicy) : ConfiguratorTxn :=
  mkConfiguratorTxn (ct_resync pct) (<[pod := policies]> (ct_config pct)).

(** The rules remembered for a set of policies: the loop does not stop at the
    first hit. *)
Definition already_processed (processed : list ProcessedPolicySet) (policies : list ContivPolicy) :
    option (list ContivRule * list ContivRule) :=
  foldl (λ found s, if ContivPolicies_Equals (pps_policies s) policies then Some (pps_ingress s, pps_egress s) else found)
    None processed.

(** One pod: the calls made so far and the processed sets. *)
Definition configure_pod `{PodLookup} (st : list RenderCall * list ProcessedPolicySet)
    (entry : PodID * list ContivPolicy) : option (list RenderCall * list ProcessedPolicySet) :=
  let '(calls, processed) := st in
  let '(pod, unorderedPolicies) := entry in
  let '(found, podData) := LookupPod pod in
  if negb found then Some (calls, processed)
  else
    data ← podData;
    if bool_decide (Pod_IpAddress data = ""%string) then Some (calls, processed)
    else
      match GetOneHostSubnet (Pod_IpAddress data) with
      | None => Some (calls, processed)
      | Some podIPNet =>
        let policies := sort_policies unorderedPolicies in
        match already_processed processed policies with
        | Some (ingress, egress) => Some (calls ++ [mkRenderCall pod podIPNet ingress egress], processed)
        | None =>
          egress ← generateRules MatchIngress policies;
          ingress ← generateRules MatchEgress policies;
          Some (calls ++ [mkRenderCall pod podIPNet ingress egress],
                processed ++ [mkProcessed policies ingress egress])
        end
      end.

(** The [Render] calls of a transaction, the same for every renderer. *)
Definition render_calls `{RangeOracle, PodLookup} (pct : ConfiguratorTxn) : option (list RenderCall) :=
  fst <$> foldM configure_pod ([], []) (go_range [41]%Z (ct_config pct)).

(** A renderer: the execution of a transaction with the given calls, and its
    error. *)
Class PolicyRenderer (R E : Type) := { renderer_run : R → bool → list RenderCall → R * option E }.

(** The last error in the order the results arrive: the order of the renderers,
    or any order if they run in parallel. *)
Definition last_error {E} (results : list (option E)) : option E :=
  foldl (λ wasError err, match err with Some e => Some e | None => wasError end) None results.

Record PolicyConfigurator (R : Type) := mkPolicyConfigurator { renderers : list R; parallelRendering : bool }.
Arguments mkPolicyConfigurator {R} _ _.
Arguments renderers {R} _.
Arguments parallelRendering {R} _.

Definition Configurator_Init {R} (parallelRendering : bool) : PolicyConfigurator R := mkPolicyConfigurator [] parallelRendering.

Definition RegisterRenderer {R} (pc : PolicyConfigurator R) (renderer : R) : PolicyConfigurator R :=
  mkPolicyConfigurator (renderers pc ++ [renderer]) (parallelRendering pc).

(** [Commit]: the transactions are started by the first pod that is rendered,
    all of them are committed. [arrival] is the order in which the results of
    parallel commits are received. *)
Definition Configurator_Commit `{RangeOracle, PodLookup} {R E} `{PolicyRenderer R E}
    (arrival : list (option E) → list (option E)) (pc : PolicyConfigurator R) (pct : ConfiguratorTxn) :
    option (PolicyConfigurator R * option E) :=
  calls ← render_calls pct;
  match calls with
  | [] => Some (pc, None)
  | _ =>
    let results := (λ r, renderer_run r (ct_resync pct) calls) <$> renderers pc in
    Some (mkPolicyConfigurator results.*1 (parallelRendering pc),
          last_error (if parallelRendering pc then arrival results.*2 else results.*2))
  end.
