(* ===== verification/SubtractSubnet.v ===== *)
(** * The subtraction of subnets is exact

    [subtractSubnet] of configurator_impl.go returns networks that partition
    the difference of two IPv4 networks, and the loop over the exceptions of an
    IP block ([block_subnets]) the block without its exceptions. *)

From Stdlib Require Import ZArith Lia Ascii String.
From stdpp Require Import prelude strings list gmap.
From S2P Require Import Prelude GoStrings GoNet KsrModel Utils Rules Configurator.

(** The network an element of the result stands for. *)
Definition resolve (net1 : IPNet) (s : Subtracted) : IPNet := match s with Net1 => net1 | NewNet n => n end.

(** How many of the networks contain the address. *)
Definition hits (nets : list IPNet) (ip : IP) : nat := length (filter (λ n, IPNet_Contains n ip = true) nets).

Definition canonical (n : IPNet) : Prop := ∃ p, canonical_v4 p n.

(** ** Bits *)

Lemma lxor_byte a b : is_byte a → is_byte b → is_byte (Z.lxor a b).
Proof.
  unfold is_byte. intros Ha Hb. split; [apply Z.lxor_nonneg; lia|].
  destruct (Z.eq_dec (Z.lxor a b) 0%Z) as [->|Hn]; [lia|].
  apply Z.log2_lt_cancel. change (Z.log2 256) with 8%Z.
  eapply Z.le_lt_trans; [apply Z.log2_lxor; lia|].
  apply Z.max_lub_lt.
  - destruct (Z.eq_dec a 0%Z) as [->|]; [done|]. apply Z.log2_lt_pow2; lia.
  - destruct (Z.eq_dec b 0%Z) as [->|]; [done|]. apply Z.log2_lt_pow2; lia.
Qed.

Lemma flip_byte k : k < 8 → is_byte (u8 (Z.shiftl 1 (7 - Z.of_nat k))).
Proof. intros Hk. unfold is_byte. do 8 (destruct k; [vm_compute; intuition congruence|]). lia. Qed.

Lemma testbit_flip k m : k < 8 → m < 8 →
  Z.testbit (u8 (Z.shiftl 1 (7 - Z.of_nat k))) (7 - Z.of_nat m) = (m =? k).
Proof. intros Hk Hm. do 8 (destruct k; [do 8 (destruct m; [reflexivity|]); lia|]). lia. Qed.

Lemma xor_at_bit ip b ip' :
  xor_at ip (b / 8) (u8 (Z.shiftl 1 (7 - Z.of_nat (b mod 8)))) = Some ip' → wf_bytes ip →
  length ip' = length ip ∧ wf_bytes ip' ∧ ∀ i, bit ip' i = xorb (bit ip i) (i =? b).
Proof.
  pose proof (Nat.mod_upper_bound b 8 ltac:(lia)) as Hb.
  pose proof (flip_byte _ Hb) as Hv. pose proof (λ m, testbit_flip _ m Hb) as Ht.
  revert Hv Ht. generalize (u8 (Z.shiftl 1 (7 - Z.of_nat (b mod 8)))) as v. intros v Hv Ht.
  unfold xor_at. destruct (ip !! (b / 8)) as [x|] eqn:Hx; [|done]. intros [= <-] Hw.
  assert (is_byte x) as Hbx by (eapply Forall_lookup_1; eauto).
  split_and!; [by rewrite length_insert| |].
  - apply Forall_insert; [done|]. by apply lxor_byte.
  - intros i. unfold bit. pose proof (Nat.mod_upper_bound i 8 ltac:(lia)) as Hi.
    rewrite !nth_lookup. destruct (decide (i / 8 = b / 8)) as [He|Hne].
    + rewrite He, list_lookup_insert_eq, Hx by (by eapply lookup_lt_Some). cbn [default from_option id].
      rewrite Z.lxor_spec, Ht by done. apply (f_equal (xorb _)).
      pose proof (Nat.div_mod_eq i 8). pose proof (Nat.div_mod_eq b 8).
      destruct (Nat.eqb_spec (i mod 8) (b mod 8)), (Nat.eqb_spec i b); try done; exfalso; [lia|subst; congruence].
    + rewrite list_lookup_insert_ne by done.
      destruct (Nat.eqb_spec i b) as [->|]; [done|]. by rewrite xorb_false_r.
Qed.

(** The bits below [p] agree. *)
Definition agree (p : nat) (f g : nat → bool) : Prop := ∀ i, i < p → f i = g i.

#[global] Instance agree_dec p f g : Decision (agree p f g).
Proof.
  induction p as [|p IH]; [left; intros i ?; lia|].
  destruct (bool_decide (f p = g p)) eqn:Hp; [apply bool_decide_eq_true in Hp|apply bool_decide_eq_false in Hp].
  - destruct IH as [IH|IH]; [left|right].
    + intros i Hi. destruct (decide (i = p)) as [->|]; [done|]. apply IH. lia.
    + contradict IH. intros i Hi. apply IH. lia.
  - right. intros H. apply Hp, H. lia.
Defined.

Lemma agree_le p q f g : p ≤ q → agree q f g → agree p f g.
Proof. intros Hpq H i Hi. apply H. lia. Qed.

(** Two bit strings first differ at exactly one place. *)
Lemma first_difference p1 n f g :
  length (filter (λ b, agree b f g ∧ f b = negb (g b)) (seq p1 n)) =
  if decide (agree p1 f g ∧ ¬ agree (p1 + n) f g) then 1 else 0.
Proof.
  revert p1. induction n as [|n IH]; intros p1; cbn [seq].
  { rewrite Nat.add_0_r. destruct (decide _) as [[? ?]|]; done. }
  rewrite filter_cons, (Nat.add_succ_r p1 n). specialize (IH (S p1)). cbn [plus] in IH.
  assert (agree (S p1) f g ↔ agree p1 f g ∧ f p1 = g p1) as HS.
  { split.
    - intros H. split; [by eapply agree_le; [|done]; lia|apply H; lia].
    - intros [H He] i Hi. destruct (decide (i = p1)) as [->|]; [done|]. apply H. lia. }
  assert (agree (S (p1 + n)) f g → agree (S p1) f g) as Hle by (apply agree_le; lia).
  destruct (decide (agree p1 f g ∧ f p1 = negb (g p1))) as [[Ha Hn]|Hn]; cbn [length]; rewrite IH.
  - assert (f p1 ≠ g p1) by (rewrite Hn; by destruct (g p1)).
    rewrite decide_False by (intros [? _]; tauto). rewrite decide_True by tauto. done.
  - apply decide_ext. assert (agree p1 f g → f p1 = g p1) by (intros; destruct (f p1), (g p1); tauto). tauto.
Qed.

(** ** The networks of the loop *)

Lemma canonical_Contains p n ip : canonical_v4 p n → wf_bytes ip →
  IPNet_Contains n ip = true ↔ length (norm ip) = 4 ∧ agree p (bit (norm ip)) (bit (IPNet_IP n)).
Proof. intros Hn Hip. apply IPNet_Contains_bits; [by apply canonical_v4_is_net|done]. Qed.

Lemma canonical_Size p n : canonical_v4 p n → (Mask_Size (IPNet_Mask n)).1 = Z.of_nat p.
Proof. intros (_ & _ & Hp & -> & _). by rewrite Mask_Size_mask by lia. Qed.

Lemma flipped_subnet_spec p2 n2 b : canonical_v4 p2 n2 → b < p2 →
  ∃ n, flipped_subnet n2 b = Some n ∧ canonical_v4 (S b) n ∧
    agree b (bit (IPNet_IP n)) (bit (IPNet_IP n2)) ∧ bit (IPNet_IP n) b = negb (bit (IPNet_IP n2) b).
Proof.
  destruct n2 as [ip m]. intros (Hl & Hw & Hp & Hm & _) Hb. cbn [IPNet_IP IPNet_Mask] in *. subst m.
  unfold flipped_subnet. cbn [IPNet_IP IPNet_Mask]. rewrite mask_bytes_length.
  replace (Z.of_nat b + 1)%Z with (Z.of_nat (S b)) by lia. change (Z.of_nat 4 * 8)%Z with 32%Z.
  rewrite CIDRMask_v4 by lia. set (m := mask_bytes 4 (Z.of_nat (S b))).
  assert (length m = 4) as Hlm by apply mask_bytes_length.
  assert (IP_Mask ip m = bytes_and ip m) as -> by (unfold IP_Mask; rewrite Hlm, Hl; simpl; rewrite Hlm; simpl; by rewrite Hl).
  assert (wf_bytes (bytes_and ip m)) as Hwm by (apply bytes_and_wf; [done|apply mask_bytes_wf; lia]).
  assert (length (bytes_and ip m) = 4) as Hlb by (rewrite bytes_and_length; congruence).
  assert (is_Some (bytes_and ip m !! (b / 8))) as [x Hx].
  { apply lookup_lt_is_Some. rewrite Hlb. apply Nat.Div0.div_lt_upper_bound. lia. }
  destruct (xor_at (bytes_and ip m) (b / 8) (u8 (Z.shiftl 1 (7 - Z.of_nat (b mod 8))))) as [ip'|] eqn:Hxor;
    [|unfold xor_at in Hxor; by rewrite Hx in Hxor].
  destruct (xor_at_bit _ _ _ Hxor Hwm) as (Hl' & Hw' & Hbit). eexists. split; [reflexivity|].
  assert (∀ i, i < 32 → bit m i = (i <? S b)) as Hmb by (intros i Hi; apply mask_bytes_bit; lia).
  assert (∀ i, i < 32 → bit ip' i = xorb (bit ip i && (i <? S b)) (i =? b)) as Hbit'.
  { intros i Hi. by rewrite Hbit, bit_and, Hmb by congruence. }
  cbn [IPNet_IP]. split_and!.
  - split_and!; cbn [IPNet_IP IPNet_Mask]; [congruence|done|lia|done|].
    apply bytes_ext; [by apply bytes_and_wf; [|apply mask_bytes_wf; lia]|done|by rewrite bytes_and_length; congruence|].
    intros i Hi. rewrite bytes_and_length in Hi by congruence. rewrite bit_and by congruence.
    rewrite Hmb, Hbit' by lia. destruct (Nat.ltb_spec i (S b)), (Nat.eqb_spec i b); try lia; destruct (bit ip i); done.
  - intros i Hi. rewrite Hbit' by lia. rewrite (proj2 (Nat.ltb_lt i (S b))) by lia.
    rewrite (proj2 (Nat.eqb_neq i b)) by lia. by rewrite andb_true_r, xorb_false_r.
  - rewrite Hbit' by lia. rewrite (proj2 (Nat.ltb_lt b (S b))), Nat.eqb_refl by lia. by rewrite andb_true_r, xorb_true_r.
Qed.

(** What the loop body for bit [b] returns. *)
Definition flipped_at (n2 : IPNet) (b : nat) (n : IPNet) : Prop :=
  canonical_v4 (S b) n ∧ agree b (bit (IPNet_IP n)) (bit (IPNet_IP n2)) ∧
  bit (IPNet_IP n) b = negb (bit (IPNet_IP n2) b).

Lemma flipped_at_Contains n2 b n ip : flipped_at n2 b n → wf_bytes ip →
  IPNet_Contains n ip = true ↔
  length (norm ip) = 4 ∧ agree b (bit (norm ip)) (bit (IPNet_IP n2)) ∧ bit (norm ip) b = negb (bit (IPNet_IP n2) b).
Proof.
  intros (Hn & Ha & Hb) Hip. rewrite (canonical_Contains (S b)) by done. split.
  - intros [Hl H]. split_and!; [done| |by rewrite <-Hb; apply H; lia].
    intros i Hi. rewrite <-Ha by done. apply H. lia.
  - intros (Hl & Hp & He). split; [done|]. intros i Hi.
    destruct (decide (i = b)) as [->|]; [congruence|]. rewrite Ha by lia. apply Hp. lia.
Qed.

Lemma flipped_hits n2 bs nets ip : Forall2 (flipped_at n2) bs nets → wf_bytes ip → length (norm ip) = 4 →
  hits nets ip =
  length (filter (λ b, agree b (bit (norm ip)) (bit (IPNet_IP n2)) ∧ bit (norm ip) b = negb (bit (IPNet_IP n2) b)) bs).
Proof.
  intros H Hip Hl. unfold hits. induction H as [|b n bs nets Hb _ IH]; [done|].
  pose proof (flipped_at_Contains n2 b n ip Hb Hip) as Hc. rewrite !filter_cons.
  destruct (decide (IPNet_Contains n ip = true)) as [Hd|Hd].
  - rewrite decide_True by tauto. simpl. by rewrite IH.
  - rewrite decide_False by tauto. done.
Qed.

Lemma flipped_subnets p2 n2 bs : canonical_v4 p2 n2 → Forall (λ b, b < p2) bs →
  ∃ nets, mapM (flipped_subnet n2) bs = Some nets ∧ Forall2 (flipped_at n2) bs nets.
Proof.
  intros Hn. induction 1 as [|b bs Hb _ (nets & Hnets & HF)]; [by exists []|].
  destruct (flipped_subnet_spec p2 n2 b Hn Hb) as (n & Hf & Hat).
  exists (n :: nets). split; [simpl; by rewrite Hf, Hnets|by constructor].
Qed.

Lemma hits_nil ip : hits [] ip = 0.
Proof. done. Qed.

Lemma hits_cons n nets ip : hits (n :: nets) ip = (if IPNet_Contains n ip then 1 else 0) + hits nets ip.
Proof. unfold hits. rewrite filter_cons. by destruct (IPNet_Contains n ip). Qed.

Lemma hits_app nets nets' ip : hits (nets ++ nets') ip = hits nets ip + hits nets' ip.
Proof. unfold hits. by rewrite filter_app, length_app. Qed.

Lemma canonical_v4_wf p n : canonical_v4 p n → wf_bytes (IPNet_IP n) ∧ length (IPNet_IP n) = 4.
Proof. intros (? & ? & _). done. Qed.

(** A network that contains the address of a more specific one agrees with it
    on the prefix. *)
Lemma contains_net p q n n' : canonical_v4 p n → canonical_v4 q n' →
  IPNet_Contains n (IPNet_IP n') = true ↔ agree p (bit (IPNet_IP n')) (bit (IPNet_IP n)).
Proof.
  intros Hn Hn'. destruct (canonical_v4_wf _ _ Hn') as [Hw Hl].
  rewrite (canonical_Contains p) by done. rewrite norm_v4 by done. tauto.
Qed.

(** Two networks of the same size with an address in common are equal. *)
Lemma canonical_same p n n' :
  canonical_v4 p n → canonical_v4 p n' → agree p (bit (IPNet_IP n)) (bit (IPNet_IP n')) → IPNet_IP n = IPNet_IP n'.
Proof.
  intros (Hl & Hw & Hp & Hm & Hc) (Hl' & Hw' & _ & Hm' & Hc') Ha.
  apply bytes_ext; [done|done|congruence|]. intros i Hi. rewrite <-Hc, <-Hc', Hm, Hm'.
  rewrite !bit_and by (rewrite mask_bytes_length; done). rewrite mask_bytes_bit by lia.
  destruct (Nat.ltb_spec i p); [|by rewrite !andb_false_r]. by rewrite Ha.
Qed.

(** [net1] is below [net2], or they are disjoint. *)
Lemma subnet_cases p1 p2 n1 n2 ip : canonical_v4 p1 n1 → canonical_v4 p2 n2 → p2 ≤ p1 → wf_bytes ip →
  IPNet_Contains n1 ip = true →
  IPNet_Contains n2 ip = IPNet_Contains n2 (IPNet_IP n1).
Proof.
  intros H1 H2 Hle Hip [Hl Ha]%(canonical_Contains p1 n1 ip H1 Hip).
  apply eq_bool_prop_intro. rewrite !Is_true_true, (canonical_Contains p2 n2 ip) by done.
  rewrite (contains_net p2 p1) by done. split.
  - intros [_ Hb] i Hi. rewrite <-Ha by lia. by apply Hb.
  - intros Hb. split; [done|]. intros i Hi. rewrite Ha by lia. by apply Hb.
Qed.

(** The specification of a subtraction: the networks partition the difference. *)
Definition partitions (nets : list IPNet) (P : IP → bool) : Prop :=
  Forall canonical nets ∧ ∀ ip, wf_bytes ip → hits nets ip = if P ip then 1 else 0.

Lemma partitions_Contains nets P ip : partitions nets P → wf_bytes ip →
  existsb (λ n, IPNet_Contains n ip) nets = P ip.
Proof.
  intros [_ H] Hip. specialize (H ip Hip). revert H. generalize (P ip) as b.
  induction nets as [|n nets IH]; intros b; rewrite ?hits_nil, ?hits_cons; simpl; [by destruct b|].
  destruct (IPNet_Contains n ip); simpl; [|by apply IH]. by destruct b.
Qed.

Lemma partitions_ext nets P Q : (∀ ip, wf_bytes ip → P ip = Q ip) → partitions nets P → partitions nets Q.
Proof. intros He [Hc H]. split; [done|]. intros ip Hip. rewrite <-He by done. by apply H. Qed.

(** Keeping [net1] or dropping it, when [net2] is not below it. *)
Lemma subtract_whole p1 n1 n2 (keep : bool) : canonical_v4 p1 n1 →
  (∀ ip, wf_bytes ip → IPNet_Contains n1 ip = true → IPNet_Contains n2 ip = negb keep) →
  partitions (resolve n1 <$> if keep then [Net1] else []) (λ ip, IPNet_Contains n1 ip && negb (IPNet_Contains n2 ip)).
Proof.
  intros H1 H2. split.
  - destruct keep; [|constructor]. repeat constructor. by exists p1.
  - intros ip Hip. destruct (IPNet_Contains n1 ip) eqn:Hc; simpl.
    + rewrite (H2 ip Hip Hc). destruct keep; [|done]. cbn [fmap list_fmap resolve]. by rewrite hits_cons, Hc.
    + destruct keep; [|done]. cbn [fmap list_fmap resolve]. by rewrite hits_cons, Hc.
Qed.

Lemma subtract_below p1 p2 n1 n2 nets : canonical_v4 p1 n1 → canonical_v4 p2 n2 → p1 < p2 →
  IPNet_Contains n1 (IPNet_IP n2) = true → Forall2 (flipped_at n2) (seq p1 (p2 - p1)) nets →
  partitions nets (λ ip, IPNet_Contains n1 ip && negb (IPNet_Contains n2 ip)).
Proof.
  intros H1 H2 Hlt Hc HF. apply (contains_net p1 p2) in Hc; [|done..]. split.
  - apply Forall_forall. intros n Hn. apply list_elem_of_lookup in Hn as [i Hi].
    destruct (Forall2_lookup_r _ _ _ _ _ HF Hi) as (b & _ & Hb & _). by exists (S b).
  - intros ip Hip.
    pose proof (canonical_Contains p1 n1 ip H1 Hip) as Hc1. pose proof (canonical_Contains p2 n2 ip H2 Hip) as Hc2.
    assert (agree p1 (bit (norm ip)) (bit (IPNet_IP n1)) ↔ agree p1 (bit (norm ip)) (bit (IPNet_IP n2))) as He.
    { split; intros H i Hi; [by rewrite Hc; auto|by rewrite <-Hc; auto]. }
    destruct (decide (length (norm ip) = 4)) as [Hl|Hl].
    + rewrite (flipped_hits n2 _ nets ip HF Hip Hl), first_difference.
      replace (p1 + (p2 - p1)) with p2 by lia.
      destruct (decide _) as [Hd|Hd], (IPNet_Contains n1 ip), (IPNet_Contains n2 ip); simpl; intuition congruence.
    + assert (hits nets ip = 0) as ->.
      { unfold hits. destruct (filter (λ n, IPNet_Contains n ip = true) nets) as [|n l] eqn:Hf; [done|].
        assert (n ∈ n :: l) as Hn by left. rewrite <-Hf in Hn. apply list_elem_of_filter in Hn as [Hcn Hn].
        apply list_elem_of_lookup in Hn as [i Hi].
        destruct (Forall2_lookup_r _ _ _ _ _ HF Hi) as (b & _ & Hb).
        by apply (flipped_at_Contains n2 b n ip Hb Hip) in Hcn as [? _]. }
      destruct (IPNet_Contains n1 ip); [|done]. tauto.
Qed.

Lemma subtractSubnet_spec n1 n2 : canonical n1 → canonical n2 →
  ∃ res, subtractSubnet n1 n2 = Some res ∧
    partitions (resolve n1 <$> res) (λ ip, IPNet_Contains n1 ip && negb (IPNet_Contains n2 ip)).
Proof.
  intros [p1 H1] [p2 H2]. unfold subtractSubnet. rewrite (canonical_Size p1 n1), (canonical_Size p2 n2) by done. cbv zeta.
  destruct (Z.ltb_spec (Z.of_nat p2) (Z.of_nat p1)); [|destruct (Z.eqb_spec (Z.of_nat p1) (Z.of_nat p2)) as [He|]].
  - eexists. split; [done|]. eapply subtract_whole; [done|]. intros ip Hip Hc. rewrite negb_involutive.
    by apply (subnet_cases p1 p2); [done|done|lia|..].
  - assert (p1 = p2) as -> by lia. eexists. split; [done|]. eapply subtract_whole; [done|].
    intros ip Hip Hc. rewrite negb_involutive, (subnet_cases p2 p2 n1 n2 ip) by done.
    apply eq_bool_prop_intro. rewrite !Is_true_true, (contains_net p2 p2) by done.
    destruct (canonical_v4_wf _ _ H1) as [_ Hl1]. destruct (canonical_v4_wf _ _ H2) as [_ Hl2].
    unfold IP_Equal. rewrite Hl1, Hl2, Nat.eqb_refl, bytesEqual_true. split; [by apply (canonical_same p2)|by intros ->].
  - destruct (IPNet_Contains n1 (IPNet_IP n2)) eqn:Hc; simpl.
    + rewrite !Nat2Z.id. destruct (flipped_subnets p2 n2 (seq p1 (p2 - p1)) H2) as (nets & -> & HF).
      { apply Forall_forall. intros b [_ Hb]%elem_of_seq. lia. }
      eexists. split; [done|]. rewrite <-list_fmap_compose, list_fmap_id. apply (subtract_below p1 p2); [done|done|lia|done|done].
    + eexists. split; [done|]. apply (subtract_whole p1 n1 n2 true); [done|]. intros ip Hip Hcn. simpl.
      apply not_true_iff_false. intros Hc2. apply not_true_iff_false in Hc. apply Hc.
      by rewrite <-(subnet_cases p2 p1 n2 n1 ip H2 H1 ltac:(lia) Hip Hc2).
Qed.

(** ** The exceptions of a block *)

(** The addresses an IP block stands for. *)
Definition block_contains (block : IPBlock) (ip : IP) : bool :=
  IPNet_Contains (Network block) ip && negb (existsb (λ n, IPNet_Contains n ip) (Except block)).

Definition canonical_block (block : IPBlock) : Prop :=
  canonical (Network block) ∧ Forall canonical (Except block).

Lemma partitions_app nets nets' P Q :
  (∀ ip, wf_bytes ip → P ip && Q ip = false) →
  partitions nets P → partitions nets' Q → partitions (nets ++ nets') (λ ip, P ip || Q ip).
Proof.
  intros Hd [Hc H] [Hc' H']. split; [by apply Forall_app|]. intros ip Hip.
  rewrite hits_app, H, H' by done. specialize (Hd ip Hip). by destruct (P ip), (Q ip).
Qed.

(** Subtracting a network from each of several keeps the number of hits outside
    of it. *)
Lemma subtract_except_spec block ptrs except :
  canonical except → Forall canonical (net_deref block <$> ptrs) →
  ∃ ptrs', subtract_except block ptrs except = Some ptrs' ∧ Forall canonical (net_deref block <$> ptrs') ∧
    ∀ ip, wf_bytes ip → hits (net_deref block <$> ptrs') ip =
      if IPNet_Contains except ip then 0 else hits (net_deref block <$> ptrs) ip.
Proof.
  intros He. unfold subtract_except.
  assert (∀ acc, Forall canonical (net_deref block <$> ptrs) → Forall canonical (net_deref block <$> acc) →
    ∃ ptrs', foldM (subtract_from block except) acc ptrs = Some ptrs' ∧
      Forall canonical (net_deref block <$> ptrs') ∧
      ∀ ip, wf_bytes ip → hits (net_deref block <$> ptrs') ip = hits (net_deref block <$> acc) ip +
        if IPNet_Contains except ip then 0 else hits (net_deref block <$> ptrs) ip) as Hgen.
  { induction ptrs as [|p ptrs IH]; intros acc Hp Hacc; cbn [foldM].
    - eexists. split_and!; [done..|]. intros ip _. rewrite hits_nil. destruct (IPNet_Contains except ip); lia.
    - apply Forall_cons in Hp as [Hp Hps].
      destruct (subtractSubnet_spec (net_deref block p) except Hp He) as (res & Hres & Hc & Hh).
      set (new := (λ s, match s with Net1 => p | NewNet n => OwnNet n end) <$> res).
      assert (subtract_from block except acc p = Some (acc ++ new)) as -> by (unfold subtract_from; by rewrite Hres).
      cbn [mbind option_bind].
      assert (net_deref block <$> new = resolve (net_deref block p) <$> res) as Hnew.
      { unfold new. rewrite <-list_fmap_compose. apply list_fmap_ext. by intros ? [] ?. }
      destruct (IH (acc ++ new) Hps) as (ptrs' & -> & Hc' & Hh').
      { rewrite fmap_app, Hnew. by apply Forall_app. }
      eexists. split_and!; [done..|]. intros ip Hip.
      rewrite Hh', fmap_app, hits_app, Hnew, Hh by done. cbn [fmap list_fmap]. rewrite hits_cons.
      destruct (IPNet_Contains (net_deref block p) ip), (IPNet_Contains except ip); simpl; lia. }
  intros Hp. destruct (Hgen [] Hp) as (ptrs' & -> & Hc & Hh); [constructor|]. by exists ptrs'.
Qed.

Lemma block_subnets_spec block : canonical_block block →
  ∃ ptrs, block_subnets block = Some ptrs ∧ partitions (net_deref block <$> ptrs) (block_contains block).
Proof.
  intros [Hn He]. unfold block_subnets, block_contains, partitions.
  assert (∀ ptrs, Forall canonical (net_deref block <$> ptrs) →
    ∃ ptrs', foldM (subtract_except block) ptrs (Except block) = Some ptrs' ∧
      Forall canonical (net_deref block <$> ptrs') ∧
      ∀ ip, wf_bytes ip → hits (net_deref block <$> ptrs') ip =
        if existsb (λ n, IPNet_Contains n ip) (Except block) then 0 else hits (net_deref block <$> ptrs) ip) as Hgen.
  { clear Hn. induction He as [|e es He _ IH]; intros ptrs Hp; cbn [foldM]; [by exists ptrs|].
    destruct (subtract_except_spec block ptrs e He Hp) as (ptrs1 & -> & Hc1 & Hh1). cbn [mbind option_bind].
    destruct (IH ptrs1 Hc1) as (ptrs' & -> & Hc & Hh). eexists. split_and!; [done..|]. intros ip Hip.
    rewrite Hh, Hh1 by done. simpl. by destruct (IPNet_Contains e ip), (existsb _ es). }
  destruct (Hgen [BlockNetwork]) as (ptrs & -> & Hc & Hh); [by repeat constructor|].
  eexists. split_and!; [done..|]. intros ip Hip. rewrite Hh by done. cbn [fmap list_fmap net_deref].
  rewrite hits_cons, hits_nil. by destruct (IPNet_Contains (Network block) ip), (existsb _ _).
Qed.

(** C24. The networks a single IP block is expanded to partition the block
    without its exceptions: an address of the block that is in no exception is
    in exactly one of them, any other address in none. The loops never panic. *)
Theorem ipblock_exact (block : IPBlock) :
  canonical_block block →
  ∃ nets, collect_subnets [block] = Some nets ∧ Forall canonical nets ∧
    ∀ ip, wf_bytes ip →
      length (filter (λ n, IPNet_Contains n ip = true) nets) = if block_contains block ip then 1 else 0.
Proof.
  intros Hb. destruct (block_subnets_spec block Hb) as (ptrs & Hp & Hc & Hh).
  eexists. split; [|by split]. unfold collect_subnets. cbn [foldM]. rewrite Hp. done.
Qed.

Definition ten : IPNet := mkIPNet [10; 0; 0; 0]%Z [255; 0; 0; 0]%Z.
Definition ten_one : IPNet := mkIPNet [10; 1; 0; 0]%Z [255; 255; 0; 0]%Z.
Definition ten_block : IPBlock := mkIPBlock ten [ten_one].

Lemma ten_canonical : canonical ten.
Proof. exists 8. vm_compute. intuition (repeat constructor; congruence). Qed.

Lemma ten_one_canonical : canonical ten_one.
Proof. exists 16. vm_compute. intuition (repeat constructor; congruence). Qed.

Lemma ipblock_exact_witness :
  ∃ nets, collect_subnets [ten_block] = Some nets ∧ length nets = 8 ∧
    hits nets [10; 1; 2; 3]%Z = 0 ∧ hits nets [10; 3; 0; 1]%Z = 1.
Proof.
  destruct (ipblock_exact ten_block) as (nets & Hn & _ & Hh).
  { split; [apply ten_canonical|]. repeat constructor. apply ten_one_canonical. }
  exists nets. split; [done|]. split; [injection Hn as <-; reflexivity|].
  split; [apply (Hh [10; 1; 2; 3]%Z)|apply (Hh [10; 3; 0; 1]%Z)]; repeat constructor; lia.
Defined.
