(* ===== verification/ConfiguratorRules.v ===== *)
(** * The rules of the policy configurator

    The abstract meaning of Kubernetes policies ([policies_allow]), the list
    [generateRules] builds as one concatenation over the matches, and the rules
    of a single match: they match exactly the packets the match allows. *)

From Stdlib Require Import ZArith Lia Ascii String.
From stdpp Require Import prelude strings list gmap.
From S2P Require Import Prelude GoStrings GoNet KsrModel Utils Rules Configurator SubtractSubnet.

(** ** What policies mean *)

(** The address at the other end of the traffic of a pod. *)
Definition peer_ip (direction : MatchType) (pkt : Packet) : IP :=
  match direction with MatchIngress => pkt_src pkt | MatchEgress => pkt_dst pkt end.

(** The one-host network of a pod, if the cache has an address for it. *)
Definition peer_net `{PodLookup} (pod : PodID) : option IPNet :=
  match LookupPod pod with
  | (true, Some data) => if bool_decide (Pod_IpAddress data = ""%string) then None else GetOneHostSubnet (Pod_IpAddress data)
  | _ => None
  end.

Definition ports_allow (ports : list Port) (pkt : Packet) : bool :=
  (length ports =? 0)
  || existsb (λ port, bool_decide (port_proto port = pkt_proto pkt) && port_matches (Port_Number port) (pkt_dport pkt)) ports.

Definition match_allows `{PodLookup} (direction : MatchType) (m : Match) (pkt : Packet) : bool :=
  let ip := peer_ip direction pkt in
  (any_peer m
   || existsb (λ pod, if peer_net pod is Some n then net_matches n ip else false) (default [] (Match_Pods m))
   || existsb (λ block, block_contains block ip) (default [] (Match_IPBlocks m)))
  && ports_allow (Match_Ports m) pkt.

(** The directions a policy applies to. *)
Definition applies (direction : MatchType) (p : ContivPolicy) : bool :=
  match CPolicy_Type p, direction with
  | ContivPolicyIngress, MatchEgress | ContivPolicyEgress, MatchIngress => false
  | _, _ => true
  end.

(** Traffic is allowed if no policy applies to the direction, or if some match
    of a policy that does allows it. *)
Definition policies_allow `{PodLookup} (direction : MatchType) (policies : list ContivPolicy) (pkt : Packet) : bool :=
  let applying := filter (λ p, applies direction p = true) policies in
  (length applying =? 0)
  || existsb (λ p, existsb (λ m, bool_decide (Match_Type m = direction) && match_allows direction m pkt)
                     (CPolicy_Matches p)) applying.

(** The first matching rule decides, traffic that matches none is permitted. *)
Definition rules_allow (rules : list ContivRule) (pkt : Packet) : bool :=
  match List.find (λ r, rule_matches r pkt) rules with
  | Some r => bool_decide (Action r = ActionPermit)
  | None => true
  end.

Lemma skips_applies direction p : skips direction p = negb (applies direction p).
Proof. unfold skips, applies. by destruct (CPolicy_Type p), direction. Qed.

Lemma policies_allow_skips `{PodLookup} direction policies pkt :
  policies_allow direction policies pkt =
  let applying := filter (λ p, skips direction p = false) policies in
  (length applying =? 0)
  || existsb (λ p, existsb (λ m, bool_decide (Match_Type m = direction) && match_allows direction m pkt)
                     (CPolicy_Matches p)) applying.
Proof.
  unfold policies_allow. rewrite (list_filter_iff (λ p, applies direction p = true) (λ p, skips direction p = false)); [done|].
  intros p. rewrite skips_applies. by destruct (applies direction p).
Qed.

(** ** The list of rules as one concatenation *)

Definition dir_matches (direction : MatchType) (policies : list ContivPolicy) : list (PolicyID * Match) :=
  policies ≫= λ p, if skips direction p then []
    else (λ m, (CPolicy_ID p, m)) <$> filter (λ m, Match_Type m = direction) (CPolicy_Matches p).

(** All rules, in order and with the duplicates. *)
Definition permit_rules `{PodLookup} (direction : MatchType) (ms : list (PolicyID * Match)) : option (list ContivRule) :=
  foldM (λ (acc : list ContivRule) '(id, m), new ← match_rules direction id m; Some (acc ++ new)) [] ms.

Definition match_any (m : Match) : bool := any_peer m && (length (Match_Ports m) =? 0).

Section generate.
Context `{PodLookup}.

Lemma appendRules_app rules l k : appendRules rules (l ++ k) = appendRules (appendRules rules l) k.
Proof. apply foldl_app. Qed.

Lemma permit_rules_acc direction ms acc :
  foldM (λ (acc : list ContivRule) '(id, m), new ← match_rules direction id m; Some (acc ++ new)) acc ms =
  (l ← permit_rules direction ms; Some (acc ++ l)).
Proof.
  unfold permit_rules. revert acc. induction ms as [|[id m] ms IH]; intros acc; cbn [foldM mbind option_bind].
  { by rewrite app_nil_r. }
  destruct (match_rules direction id m) as [new|]; [|done]. cbn [mbind option_bind].
  rewrite IH, (IH ([] ++ new)). destruct (foldM _ [] ms) as [l|]; [|done]. simpl. by rewrite app_assoc.
Qed.

Lemma permit_rules_cons direction id m ms :
  permit_rules direction ((id, m) :: ms) = (new ← match_rules direction id m; l ← permit_rules direction ms; Some (new ++ l)).
Proof.
  unfold permit_rules at 1. cbn [foldM]. destruct (match_rules direction id m) as [new|]; [|done].
  cbn [mbind option_bind]. by rewrite permit_rules_acc.
Qed.

Lemma permit_rules_app direction ms ms' :
  permit_rules direction (ms ++ ms') = (l ← permit_rules direction ms; l' ← permit_rules direction ms'; Some (l ++ l')).
Proof.
  unfold permit_rules at 1. rewrite foldM_app. fold (permit_rules direction ms).
  destruct (permit_rules direction ms) as [l|]; [|done]. cbn [mbind option_bind]. by rewrite permit_rules_acc.
Qed.

Lemma generate_match_eq direction id rules allAllowed m :
  generate_match direction id (rules, allAllowed) m =
  if decide (Match_Type m = direction)
  then new ← match_rules direction id m; Some (appendRules rules new, allAllowed || match_any m)
  else Some (rules, allAllowed).
Proof. unfold generate_match. case_bool_decide; [by rewrite decide_True by done|by rewrite decide_False by done]. Qed.

Lemma generate_policy_eq direction rules hasPolicy allAllowed p :
  generate_policy direction (rules, hasPolicy, allAllowed) p =
  if skips direction p then Some (rules, hasPolicy, allAllowed)
  else '(rules, allAllowed) ← foldM (generate_match direction (CPolicy_ID p)) (rules, allAllowed) (CPolicy_Matches p);
       Some (rules, true, allAllowed).
Proof. done. Qed.

Lemma generate_matches direction id ms rules allAllowed :
  foldM (generate_match direction id) (rules, allAllowed) ms =
  (l ← permit_rules direction ((λ m, (id, m)) <$> filter (λ m, Match_Type m = direction) ms);
   Some (appendRules rules l, allAllowed || existsb match_any (filter (λ m, Match_Type m = direction) ms))).
Proof.
  revert rules allAllowed. induction ms as [|m ms IH]; intros rules allAllowed; cbn [foldM].
  { simpl. by rewrite orb_false_r. }
  rewrite generate_match_eq, filter_cons.
  destruct (decide (Match_Type m = direction)) as [Ht|Ht]; cbn [mbind option_bind]; [|apply IH].
  cbn [fmap list_fmap]. rewrite permit_rules_cons.
  destruct (match_rules direction id m) as [new|]; [|done]. cbn [mbind option_bind]. rewrite IH.
  destruct (permit_rules direction _) as [l|]; [|done]. simpl. by rewrite appendRules_app, <-orb_assoc.
Qed.

Lemma generate_policies direction ps rules hasPolicy allAllowed :
  foldM (generate_policy direction) (rules, hasPolicy, allAllowed) ps =
  (l ← permit_rules direction (dir_matches direction ps);
   Some (appendRules rules l, hasPolicy || existsb (λ p, negb (skips direction p)) ps,
         allAllowed || existsb match_any (dir_matches direction ps).*2)).
Proof.
  revert rules hasPolicy allAllowed. induction ps as [|p ps IH]; intros rules hasPolicy allAllowed; cbn [foldM].
  { simpl. by rewrite !orb_false_r. }
  rewrite generate_policy_eq. unfold dir_matches. cbn [mbind list_bind]. fold (dir_matches direction ps).
  cbn [existsb]. destruct (skips direction p) eqn:Hs; cbn [negb mbind option_bind orb app]; [apply IH|].
  rewrite generate_matches, permit_rules_app.
  destruct (permit_rules direction ((λ m, (CPolicy_ID p, m)) <$> _)) as [l|]; [|done].
  cbn [mbind option_bind]. rewrite IH. fold (dir_matches direction ps).
  destruct (permit_rules direction (dir_matches direction ps)) as [l'|]; [|done]. simpl.
  rewrite appendRules_app, orb_true_r. rewrite fmap_app, <-list_fmap_compose, existsb_app, orb_assoc.
  do 4 f_equal. by rewrite list_fmap_id.
Qed.

(** The rules without the memory of the loops. *)
Lemma generateRules_eq direction ps :
  generateRules direction ps =
  (l ← permit_rules direction (dir_matches direction ps);
   Some (appendRules (appendRules [] l)
     (if existsb (λ p, negb (skips direction p)) ps && negb (existsb match_any (dir_matches direction ps).*2)
      then [ruleTCPNone; ruleUDPNone] else []))).
Proof.
  unfold generateRules. rewrite generate_policies. destruct (permit_rules _ _) as [l|]; [|done]. simpl.
  by destruct (existsb (λ p, negb _) ps && negb _).
Qed.

End generate.

(** ** The rules of a match *)

(** The pod has data if the cache says that it was found (the cache says so of
    every pod: this excludes the pods it does not know). *)
Definition known_pod `{PodLookup} (pod : PodID) : Prop := (LookupPod pod).1 = true → is_Some (LookupPod pod).2.

(** The pods of a match are known. Its IP blocks are IPv4 networks as [ParseCIDR]
    returns them, and there is at most one: the loop keeps a pointer into its
    variable. *)
Definition good_match `{PodLookup} (m : Match) : Prop :=
  Forall known_pod (default [] (Match_Pods m)) ∧
  Forall canonical_block (default [] (Match_IPBlocks m)) ∧ length (default [] (Match_IPBlocks m)) ≤ 1.

Lemma existsb_bind {A B} (f : A → list B) (P : B → bool) l : existsb P (l ≫= f) = existsb (λ x, existsb P (f x)) l.
Proof. induction l as [|x l IH]; [done|]. cbn [mbind list_bind existsb]. by rewrite existsb_app, <-IH. Qed.

Lemma existsb_fmap {A B} (f : A → B) (P : B → bool) l : existsb P (f <$> l) = existsb (λ x, P (f x)) l.
Proof. induction l as [|x l IH]; [done|]. rewrite fmap_cons. cbn [existsb]. by rewrite IH. Qed.

Lemma existsb_andb {A} (P : A → bool) (b : bool) l : existsb (λ x, P x && b) l = existsb P l && b.
Proof. induction l as [|x l IH]; [done|]. cbn [existsb]. rewrite IH. destruct (P x), b, (existsb P l); done. Qed.

Lemma rule_matches_permit direction id net proto port pkt :
  rule_matches (permit_rule direction id net proto port) pkt =
  net_matches net (peer_ip direction pkt) && (bool_decide (proto = pkt_proto pkt) && port_matches port (pkt_dport pkt)).
Proof.
  unfold rule_matches, permit_rule. destruct direction; cbn [SrcNetwork DestNetwork Protocol SrcPort DestPort peer_ip];
    change (net_matches emptyIPNet _) with true; change (port_matches 0 _) with true;
    by rewrite ?andb_true_r, ?andb_true_l, <-?andb_assoc.
Qed.

Lemma port_rules_match direction prefix net ports pkt :
  existsb (λ r, rule_matches r pkt) (port_rules direction prefix net ports) =
  net_matches net (peer_ip direction pkt) && ports_allow ports pkt.
Proof.
  unfold port_rules, ports_allow. destruct ports as [|port ports]; cbn [length Nat.eqb orb].
  - cbn [existsb]. rewrite !rule_matches_permit. change (port_matches 0 _) with true.
    destruct (pkt_proto pkt), (net_matches net _); done.
  - rewrite existsb_fmap. rewrite andb_comm, <-existsb_andb. apply existsb_ext. intros p.
    rewrite rule_matches_permit. apply andb_comm.
Qed.

Lemma port_rules_permit direction prefix net ports r : r ∈ port_rules direction prefix net ports →
  Action r = ActionPermit ∧ ∃ s, ID r = (prefix +:+ s)%string.
Proof.
  unfold port_rules. destruct (length ports =? 0).
  - rewrite !elem_of_cons. intros [->|[->|[]%elem_of_nil]]; destruct direction; eauto.
  - intros (p & -> & _)%list_elem_of_fmap. destruct direction; eauto.
Qed.

Section match_rules.
Context `{PodLookup}.

Lemma collect_peers_spec pods : Forall known_pod pods → collect_peers pods = Some (omap (λ p, mkPeerPod p <$> peer_net p) pods).
Proof.
  unfold collect_peers. intros Hknown.
  assert (∀ acc, foldM collect_peer acc pods = Some (acc ++ omap (λ p, mkPeerPod p <$> peer_net p) pods)) as Hgen;
    [|apply Hgen].
  induction Hknown as [|p pods Hf _ IH]; intros acc; cbn [foldM omap list_omap]; [by rewrite app_nil_r|].
  assert (collect_peer acc p = Some (acc ++ if peer_net p is Some n then [mkPeerPod p n] else [])) as ->.
  { unfold collect_peer, peer_net. unfold known_pod in Hf.
    destruct (LookupPod p) as [[] data]; simpl in *; [|by rewrite app_nil_r].
    destruct Hf as [d ->]; [done|]. simpl. destruct (bool_decide _); [by rewrite app_nil_r|].
    destruct (GetOneHostSubnet _); [done|by rewrite app_nil_r]. }
  cbn [mbind option_bind]. rewrite IH, <-app_assoc. by destruct (peer_net p).
Qed.

Lemma collect_subnets_spec blocks : Forall canonical_block blocks → length blocks ≤ 1 →
  ∃ nets, collect_subnets blocks = Some nets ∧ Forall canonical nets ∧
    ∀ ip, wf_bytes ip → existsb (λ n, IPNet_Contains n ip) nets = existsb (λ b, block_contains b ip) blocks.
Proof.
  intros Hb Hl. destruct blocks as [|b [|]]; simpl in Hl; [|..|lia]; [by exists []|].
  apply Forall_cons in Hb as [Hb _]. destruct (block_subnets_spec b Hb) as (ptrs & Hp & Hpart).
  eexists. split; [unfold collect_subnets; cbn [foldM]; rewrite Hp; reflexivity|]. split; [apply Hpart|].
  intros ip Hip. cbn [existsb]. rewrite orb_false_r. by apply (partitions_Contains _ (block_contains b)).
Qed.

Lemma canonical_net_matches n ip : canonical n → net_matches n ip = IPNet_Contains n ip.
Proof. intros [p (Hl & _)]. unfold net_matches. by rewrite Hl. Qed.

Lemma match_rules_spec direction id m : good_match m →
  ∃ l, match_rules direction id m = Some l ∧
    (∀ r, r ∈ l → Action r = ActionPermit ∧ ∃ s, ID r = (PolicyID_String id +:+ s)%string) ∧
    ∀ pkt, wf_bytes (peer_ip direction pkt) → existsb (λ r, rule_matches r pkt) l = match_allows direction m pkt.
Proof.
  intros (Hk & Hb & Hl). destruct (collect_subnets_spec _ Hb Hl) as (nets & Hn & Hc & Hnets).
  unfold match_rules. rewrite collect_peers_spec, Hn by done. cbn [mbind option_bind]. eexists. split; [reflexivity|]. split.
  - intros r. rewrite !elem_of_app, !list_elem_of_bind.
    intros [Hr|[(peer & Hr & _)|(net & Hr & _)]]; [destruct (any_peer m); [|by apply elem_of_nil in Hr]|..];
      apply port_rules_permit in Hr as [? [s Hs]]; (split; [done|]); rewrite Hs, ?append_assoc; eauto.
  - intros pkt Hip. rewrite !existsb_app, !existsb_bind. unfold match_allows.
    rewrite (existsb_ext (λ x, existsb _ (port_rules _ _ (PeerPod_IPNet x) _))
      (λ x, net_matches (PeerPod_IPNet x) (peer_ip direction pkt) && ports_allow (Match_Ports m) pkt))
      by (intros; apply port_rules_match).
    rewrite (existsb_ext (λ x, existsb _ (port_rules _ _ x _))
      (λ x, net_matches x (peer_ip direction pkt) && ports_allow (Match_Ports m) pkt))
      by (intros; apply port_rules_match).
    rewrite !existsb_andb, <-Hnets by done.
    assert (existsb (λ x, net_matches x (peer_ip direction pkt)) nets = existsb (λ n, IPNet_Contains n (peer_ip direction pkt)) nets) as ->.
    { clear Hn Hnets. induction Hc as [|n nets Hn _ IH]; [done|]. simpl. by rewrite IH, canonical_net_matches. }
    assert (∀ pods, existsb (λ x, net_matches (PeerPod_IPNet x) (peer_ip direction pkt)) (omap (λ p, mkPeerPod p <$> peer_net p) pods)
      = existsb (λ pod, if peer_net pod is Some n then net_matches n (peer_ip direction pkt) else false) pods) as ->.
    { induction pods as [|p pods IH]; [done|]. cbn [omap list_omap existsb]. destruct (peer_net p); simpl; by rewrite IH. }
    assert (existsb (λ r, rule_matches r pkt)
      (if any_peer m then port_rules direction (PolicyID_String id) emptyIPNet (Match_Ports m) else [])
      = any_peer m && ports_allow (Match_Ports m) pkt) as ->.
    { destruct (any_peer m); [|done]. by rewrite port_rules_match. }
    by destruct (any_peer m), (ports_allow _ _), (existsb _ _), (existsb _ _).
Qed.

End match_rules.
