(* ===== verification/RuleIds.v ===== *)
(** * The IDs of generated rules

    [appendRule] drops a rule whose ID is already in the list. The IDs are
    texts joined with dashes; they tell the rules of a set of policies apart
    when no policy's name extends the name of another one by a dash. *)

From Stdlib Require Import ZArith Lia Ascii String.
From stdpp Require Import prelude strings list gmap pretty.
From S2P Require Import Prelude GoStrings GoNet GoText KsrModel Utils Rules Configurator SubtractSubnet ConfiguratorRules.

(** ** Ports, pods and networks as texts *)

Definition good_port (port : Port) : Prop := (0 ≤ Port_Number port)%Z.

(** Kubernetes namespaces are DNS labels, names are subdomains. *)
Definition good_pod (pod : PodID) : Prop :=
  no_slash (PodID_Namespace pod) ∧ char_free "." (PodID_Namespace pod) = true ∧ no_slash (PodID_Name pod).

Definition proto_text (p : PortProtocol) : string := match p with PortUDP => "UDP" | PortTCP => "TCP" end.
Definition number_text (n : Z) : string := if (n =? 0)%Z then "ANY"%string else Itoa n.

Lemma Port_String_eq port :
  Port_String port = (proto_text (Port_Protocol port) +:+ String ":" (number_text (Port_Number port)))%string.
Proof. unfold Port_String, number_text. by destruct (Port_Protocol port), (Port_Number port =? 0)%Z. Qed.

Lemma number_text_free c n : not_digit c → char_free c "ANY" = true → (0 ≤ n)%Z → char_free c (number_text n) = true.
Proof. intros. unfold number_text. destruct (n =? 0)%Z; [done|by apply Itoa_free]. Qed.

Lemma number_text_inj n m : (0 ≤ n)%Z → (0 ≤ m)%Z → number_text n = number_text m → n = m.
Proof.
  unfold number_text. intros Hn Hm. destruct (Z.eqb_spec n 0), (Z.eqb_spec m 0); intros H; try lia.
  - pose proof (Itoa_free "A" m A_not_digit Hm) as Hf. by rewrite <-H in Hf.
  - pose proof (Itoa_free "A" n A_not_digit Hn) as Hf. by rewrite H in Hf.
  - by apply (inj pretty).
Qed.

Lemma Port_String_dash port : good_port port → char_free "-" (Port_String port) = true.
Proof.
  intros Hp. rewrite Port_String_eq, char_free_app. apply andb_true_iff. split; [by destruct (Port_Protocol port)|].
  apply (number_text_free "-"); [apply dash_not_digit|done..].
Qed.

Lemma Port_String_inj port port' : good_port port → good_port port' → Port_String port = Port_String port' → port = port'.
Proof.
  intros Hp Hp'. rewrite !Port_String_eq. destruct port as [p n], port' as [p' n']. unfold good_port in *.
  destruct p, p'; cbn [Port_Protocol Port_Number proto_text] in *; intros [= H]; f_equal; by apply number_text_inj.
Qed.

Lemma PodID_String_inj pod pod' : good_pod pod → good_pod pod' → PodID_String pod = PodID_String pod' → pod = pod'.
Proof.
  destruct pod, pod'. unfold good_pod, PodID_String. simpl. intros (H1 & _ & _) (H2 & _ & _) [-> ->]%ID_text_inj; done.
Qed.

Lemma canonical_octets n : canonical n → ∃ a b c d p, IPNet_IP n = [a; b; c; d] ∧ Forall is_byte [a; b; c; d] ∧
  IPNet_String n = (IP_String [a; b; c; d] +:+ String "/" (Itoa (Z.of_nat p)))%string.
Proof.
  intros [p Hn]. destruct (canonical_v4_wf _ _ Hn) as [Hw Hl]. pose proof (canonical_v4_is_net _ _ Hn) as Hnet.
  destruct (IPNet_IP n) as [|a [|b [|c [|d [|]]]]]; try done. exists a, b, c, d, p. split_and!; [done|done|].
  rewrite (IPNet_String_v4 p a b c d) by done. done.
Qed.

Lemma IPNet_String_inj n n' : canonical n → canonical n' → IPNet_String n = IPNet_String n' → n = n'.
Proof.
  intros [p Hn] [p' Hn'] He. destruct (ParseCIDR_String p n Hn) as (a & b & c & d & _ & H).
  destruct (ParseCIDR_String p' n' Hn') as (a' & b' & c' & d' & _ & H'). rewrite He in H. congruence.
Qed.

(** A pod is not a network. *)
Lemma pod_text_ne_net pod n : good_pod pod → canonical n → PodID_String pod ≠ IPNet_String n.
Proof.
  intros (Hs & Hd & _) Hn He. destruct (canonical_octets n Hn) as (a & b & c & d & p & _ & Hb & Ht).
  rewrite Ht in He. unfold PodID_String in He.
  assert (IP_String [a; b; c; d] = (Itoa a +:+ String "." (Itoa b +:+ String "." (Itoa c +:+ String "." (Itoa d))))%string) as Hi
    by done.
  rewrite !Forall_cons in Hb. destruct Hb as ([Ha _] & [Hb _] & [Hc _] & [Hdd _] & _).
  apply ID_text_inj in He as [He _]; [|done|].
  - rewrite He, Hi, char_free_sep in Hd. done.
  - rewrite Hi, !char_free_app. simpl. rewrite !char_free_app. simpl. rewrite char_free_app. simpl.
    by rewrite !Itoa_free by (try apply slash_not_digit; done).
Qed.

(** ** The shape of a rule *)

(** The peer a rule was generated for. *)
Inductive RulePeer := AnyPeer | PodPeer (pod : PodID) | NetPeer.

Definition rule_id (policy : string) (peer : RulePeer) (net : IPNet) (port : Port) : string :=
  match peer with
  | AnyPeer => (policy +:+ String "-" (Port_String port))%string
  | PodPeer pod => (policy +:+ String "-" (PodID_String pod +:+ String "-" (Port_String port)))%string
  | NetPeer => (policy +:+ String "-" (IPNet_String net +:+ String "-" (Port_String port)))%string
  end.

Definition good_peer `{PodLookup} (peer : RulePeer) (net : IPNet) : Prop :=
  match peer with
  | AnyPeer => net = emptyIPNet
  | PodPeer pod => good_pod pod ∧ peer_net pod = Some net
  | NetPeer => canonical net
  end.

Definition rule_for `{PodLookup} (direction : MatchType) (policy : string) (r : ContivRule) : Prop :=
  ∃ peer net port, good_peer peer net ∧ good_port port ∧
    r = permit_rule direction (rule_id policy peer net port) net (port_proto port) (Port_Number port).

Lemma port_rules_shape direction prefix net ports r : Forall good_port ports →
  r ∈ port_rules direction prefix net ports →
  ∃ port, good_port port ∧
    r = permit_rule direction (prefix +:+ String "-" (Port_String port)) net (port_proto port) (Port_Number port).
Proof.
  intros Hp. unfold port_rules. destruct (length ports =? 0).
  - rewrite !elem_of_cons. intros [->|[->|[]%elem_of_nil]].
    + by exists (mkPort PortTCP 0).
    + by exists (mkPort PortUDP 0).
  - intros (port & -> & Hin)%list_elem_of_fmap. rewrite Forall_forall in Hp. exists port. split; [by apply Hp|done].
Qed.

Section ids.
Context `{PodLookup}.

Lemma match_rules_shape direction id m l r : good_match m →
  Forall good_pod (default [] (Match_Pods m)) → Forall good_port (Match_Ports m) →
  match_rules direction id m = Some l → r ∈ l → rule_for direction (PolicyID_String id) r.
Proof.
  intros (Hk & Hb & Hl) Hpods Hports. destruct (collect_subnets_spec _ Hb Hl) as (nets & Hn & Hc & _).
  unfold match_rules. rewrite collect_peers_spec, Hn by done. cbn [mbind option_bind]. intros [= <-].
  rewrite !elem_of_app, !list_elem_of_bind. intros [Hr|[([pod net] & Hr & Hpeer)|(net & Hr & Hnet)]].
  - destruct (any_peer m); [|by apply elem_of_nil in Hr].
    apply port_rules_shape in Hr as (port & Hp & ->); [|done]. by exists AnyPeer, emptyIPNet, port.
  - apply port_rules_shape in Hr as (port & Hp & ->); [|done].
    apply list_elem_of_omap in Hpeer as (pod' & Hin & He).
    destruct (peer_net pod') as [net'|] eqn:Hpn; [|done]. injection He as -> ->.
    exists (PodPeer pod), net, port. split_and!; [split; [|done]|done|].
    + rewrite Forall_forall in Hpods. by apply Hpods.
    + cbn [PeerPod_ID PeerPod_IPNet rule_id]. by rewrite !append_assoc.
  - apply port_rules_shape in Hr as (port & Hp & ->); [|done]. rewrite Forall_forall in Hc.
    exists NetPeer, net, port. split_and!; [by apply Hc|done|]. cbn [rule_id]. by rewrite !append_assoc.
Qed.

(** The ID of a rule of a policy determines the rule. *)
Lemma rule_id_inj policy peer net port peer' net' port' :
  good_peer peer net → good_peer peer' net' → good_port port → good_port port' →
  rule_id policy peer net port = rule_id policy peer' net' port' → net = net' ∧ port = port'.
Proof.
  intros Hp Hp' Hq Hq' He. pose proof (Port_String_dash port Hq) as Hd. pose proof (Port_String_dash port' Hq') as Hd'.
  destruct peer as [|pod|], peer' as [|pod'|]; cbn [rule_id good_peer] in *;
    apply append_inj_l in He; injection He as He.
  all: try (apply last_sep_inj in He as [He Heq]; [|done|done]; apply Port_String_inj in Heq; [|done|done]).
  - apply Port_String_inj in He; [|done|done]. by subst.
  - by rewrite He, char_free_sep in Hd.
  - by rewrite He, char_free_sep in Hd.
  - by rewrite <-He, char_free_sep in Hd'.
  - destruct Hp as [Hp Hn], Hp' as [Hp' Hn']. apply PodID_String_inj in He; [|done|done]. split; congruence.
  - by apply pod_text_ne_net in He; [|apply Hp|].
  - by rewrite <-He, char_free_sep in Hd'.
  - symmetry in He. by apply pod_text_ne_net in He; [|apply Hp'|].
  - apply IPNet_String_inj in He; [|done|done]. by split.
Qed.

Lemma rule_id_policy policy peer net port : ∃ s, rule_id policy peer net port = ((policy +:+ "-") +:+ s)%string.
Proof. destruct peer; eexists; rewrite append_assoc; reflexivity. Qed.

Lemma rule_for_inj direction p p' r r' :
  (HasPrefix (p' +:+ "-") (p +:+ "-") = true → p = p') → (HasPrefix (p +:+ "-") (p' +:+ "-") = true → p = p') →
  rule_for direction p r → rule_for direction p' r' → ID r = ID r' → r = r'.
Proof.
  intros H1 H2 (peer & net & port & Hp & Hq & ->) (peer' & net' & port' & Hp' & Hq' & ->) He.
  assert (rule_id p peer net port = rule_id p' peer' net' port') as Hid by (by destruct direction).
  assert (p = p') as <-.
  { destruct (rule_id_policy p peer net port) as [s Hs], (rule_id_policy p' peer' net' port') as [s' Hs'].
    rewrite Hs, Hs' in Hid. destruct (append_prefixes _ _ _ _ Hid); auto. }
  destruct (rule_id_inj p peer net port peer' net' port') as [<- <-]; try done. by rewrite Hid.
Qed.

End ids.

(** ** Sets of policies *)

(** No two rules of a list share an ID. *)
Definition unambiguous (l : list ContivRule) : Prop := ∀ r r', r ∈ l → r' ∈ l → ID r = ID r' → r = r'.

(** The inputs the rules are generated for: Kubernetes names of known pods, IPv4
    blocks (at most one in a match), and no policy whose name extends another one's by a
    dash. *)
Record good_policies `{PodLookup} (policies : list ContivPolicy) : Prop := {
  gp_match p m : p ∈ policies → m ∈ CPolicy_Matches p → good_match m;
  gp_pods p m : p ∈ policies → m ∈ CPolicy_Matches p → Forall good_pod (default [] (Match_Pods m));
  gp_ports p m : p ∈ policies → m ∈ CPolicy_Matches p → Forall good_port (Match_Ports m);
  gp_names p q : p ∈ policies → q ∈ policies →
    HasPrefix (PolicyID_String (CPolicy_ID q) +:+ "-") (PolicyID_String (CPolicy_ID p) +:+ "-") = true →
    PolicyID_String (CPolicy_ID p) = PolicyID_String (CPolicy_ID q)
}.

Lemma elem_of_dir_matches direction policies id m :
  (id, m) ∈ dir_matches direction policies ↔
  ∃ p, p ∈ policies ∧ id = CPolicy_ID p ∧ skips direction p = false ∧ m ∈ CPolicy_Matches p ∧ Match_Type m = direction.
Proof.
  unfold dir_matches. rewrite list_elem_of_bind. split.
  - intros (p & Hm & Hp). destruct (skips direction p) eqn:Hs; [by apply elem_of_nil in Hm|].
    apply list_elem_of_fmap in Hm as (m' & [= -> ->] & Hm). apply list_elem_of_filter in Hm as [Ht Hm]. eauto 6.
  - intros (p & Hp & -> & Hs & Hm & Ht). exists p. split; [|done]. rewrite Hs. apply list_elem_of_fmap.
    exists m. split; [done|]. by apply list_elem_of_filter.
Qed.

Lemma elem_of_permit_rules `{PodLookup} direction ms l r : permit_rules direction ms = Some l → r ∈ l ↔
  ∃ id m k, (id, m) ∈ ms ∧ match_rules direction id m = Some k ∧ r ∈ k.
Proof.
  revert l. induction ms as [|[id m] ms IH]; intros l.
  { intros [= <-]. rewrite elem_of_nil. split; [done|]. by intros (? & ? & ? & []%elem_of_nil & _). }
  rewrite permit_rules_cons. destruct (match_rules direction id m) as [new|] eqn:Hm; [|done].
  destruct (permit_rules direction ms) as [l'|]; [|done]. intros [= <-]. rewrite elem_of_app, (IH l') by done. split.
  - intros [Hr|(i & m' & k & Hin & Hk & Hr)]; [exists id, m, new|exists i, m', k]; rewrite elem_of_cons; auto.
  - intros (i & m' & k & [[= -> ->]|Hin]%elem_of_cons & Hk & Hr); [left; congruence|right; eauto 6].
Qed.

Lemma permit_rules_unambiguous `{PodLookup} direction policies l : good_policies policies →
  permit_rules direction (dir_matches direction policies) = Some l → unambiguous l.
Proof.
  intros Hg Hl r r' Hr Hr' He.
  assert (∀ r, r ∈ l → ∃ p, p ∈ policies ∧ rule_for direction (PolicyID_String (CPolicy_ID p)) r) as Hfor.
  { clear r r' Hr Hr' He. intros r. rewrite (elem_of_permit_rules direction _ _ _ Hl).
    intros (id & m & k & Hin & Hk & Hr). apply elem_of_dir_matches in Hin as (p & Hp & -> & _ & Hm & _).
    exists p. split; [done|]. apply (match_rules_shape direction (CPolicy_ID p) m k); [..|done|done].
    - by apply (gp_match _ Hg p).
    - by apply (gp_pods _ Hg p).
    - by apply (gp_ports _ Hg p). }
  destruct (Hfor r Hr) as (p & Hp & Hpr), (Hfor r' Hr') as (q & Hq & Hqr).
  apply (rule_for_inj direction (PolicyID_String (CPolicy_ID p)) (PolicyID_String (CPolicy_ID q))); [..|done].
  - by apply (gp_names _ Hg).
  - intros Hx. symmetry. by apply (gp_names _ Hg).
  - done.
  - done.
Qed.
