(* ===== verification/ConfiguratorProofs.v ===== *)
(** * Correctness of the policy configurator

    [generateRules] implements the meaning of policies; [Commit] hands every
    renderable pod the rules of its own set of policies although it remembers
    processed sets, and reports an error exactly when a renderer does. *)

From Stdlib Require Import ZArith Lia Ascii String.
From stdpp Require Import prelude strings list gmap.
From S2P Require Import Prelude GoStrings GoNet KsrModel Utils Rules Configurator SubtractSubnet ConfiguratorRules RuleIds.

(** ** Removing duplicates *)

Lemma appendRule_cases rules r :
  (appendRule rules r = rules ++ [r] ∧ ∀ r', r' ∈ rules → ID r' ≠ ID r) ∨
  (appendRule rules r = rules ∧ ∃ r', r' ∈ rules ∧ ID r' = ID r).
Proof.
  unfold appendRule. destruct (existsb _ rules) eqn:He; [right|left]; (split; [done|]).
  - apply existsb_exists in He as (r' & Hr' & Hd%bool_decide_eq_true). exists r'. by rewrite list_elem_of_In.
  - intros r' Hr' Hid. apply not_true_iff_false in He. apply He, existsb_exists. exists r'.
    by rewrite <-list_elem_of_In, bool_decide_true.
Qed.

Lemma elem_of_appendRules rules l r : unambiguous (rules ++ l) → r ∈ appendRules rules l ↔ r ∈ rules ++ l.
Proof.
  revert rules. induction l as [|x l IH]; intros rules Hu; [by rewrite app_nil_r|].
  change (appendRules rules (x :: l)) with (appendRules (appendRule rules x) l).
  destruct (appendRule_cases rules x) as [[-> _]|[-> (r' & Hr' & Hid)]].
  - rewrite IH by (by rewrite <-app_assoc). by rewrite <-app_assoc.
  - assert (r' = x) as -> by (apply Hu; [by apply elem_of_app; left|apply elem_of_app; right; left|done]).
    rewrite IH.
    + rewrite !elem_of_app, elem_of_cons. split; [tauto|]. intros [?|[->|?]]; tauto.
    + intros a b Ha Hb. apply Hu; rewrite elem_of_app, elem_of_cons; apply elem_of_app in Ha, Hb; tauto.
Qed.

Lemma existsb_same {A} (P : A → bool) l k : (∀ x, x ∈ l ↔ x ∈ k) → existsb P l = existsb P k.
Proof.
  intros He. apply eq_bool_prop_intro. rewrite !Is_true_true, !existsb_exists.
  split; intros (x & Hx & HP); exists x; (split; [|done]); apply list_elem_of_In, He, list_elem_of_In, Hx.
Qed.

Lemma slash_not_none x y : (x +:+ String "/" y ≠ "TCP:NONE")%string ∧ (x +:+ String "/" y ≠ "UDP:NONE")%string.
Proof. split; intros H; repeat (destruct x as [|? x]; [discriminate|injection H as _ H]); by destruct x. Qed.

Lemma append_none rules : (∀ r, r ∈ rules → ∃ x y, ID r = (x +:+ String "/" y)%string) →
  appendRules rules [ruleTCPNone; ruleUDPNone] = rules ++ [ruleTCPNone; ruleUDPNone].
Proof.
  intros Hs. change (appendRules rules [ruleTCPNone; ruleUDPNone]) with (appendRule (appendRule rules ruleTCPNone) ruleUDPNone).
  destruct (appendRule_cases rules ruleTCPNone) as [[-> _]|[_ (r & Hr & Hid)]].
  - destruct (appendRule_cases (rules ++ [ruleTCPNone]) ruleUDPNone) as [[-> _]|[_ (r & Hr & Hid)]].
    + by rewrite <-app_assoc.
    + apply elem_of_app in Hr as [Hr|H%list_elem_of_singleton]; [|subst; discriminate].
      destruct (Hs r Hr) as (x & y & Hx). rewrite Hx in Hid. by destruct (slash_not_none x y).
  - destruct (Hs r Hr) as (x & y & Hx). rewrite Hx in Hid. by destruct (slash_not_none x y).
Qed.

(** ** The decision of a list of rules *)

Lemma rules_allow_permits rules l pkt : Forall (λ r, Action r = ActionPermit) rules →
  rules_allow (rules ++ l) pkt = existsb (λ r, rule_matches r pkt) rules || rules_allow l pkt.
Proof.
  unfold rules_allow. induction 1 as [|r rules Hr _ IH]; [done|]. simpl.
  destruct (rule_matches r pkt); simpl; [by rewrite Hr|done].
Qed.

Lemma rules_allow_all rules pkt : Forall (λ r, Action r = ActionPermit) rules → rules_allow (appendRules rules []) pkt = true.
Proof.
  intros Hp. change (appendRules rules []) with rules.
  by rewrite <-(app_nil_r rules), rules_allow_permits, orb_true_r.
Qed.

Lemma rules_allow_none pkt : rules_allow [ruleTCPNone; ruleUDPNone] pkt = false.
Proof. unfold rules_allow. destruct pkt as [src dst [] sp dp]; done. Qed.

Section generate.
Context `{PodLookup}.

(** The rules of all matches exist and match what some match allows. *)
Lemma permit_rules_spec direction ms : (∀ id m, (id, m) ∈ ms → good_match m) →
  ∃ l, permit_rules direction ms = Some l ∧
    (∀ r, r ∈ l → Action r = ActionPermit ∧ ∃ x y, ID r = (x +:+ String "/" y)%string) ∧
    ∀ pkt, wf_bytes (peer_ip direction pkt) →
      existsb (λ r, rule_matches r pkt) l = existsb (λ m, match_allows direction m pkt) ms.*2.
Proof.
  induction ms as [|[id m] ms IH]; intros Hms.
  { exists []. split_and!; [done| |done]. by intros r ?%elem_of_nil. }
  destruct (match_rules_spec direction id m) as (k & Hk & Hperm & Hkm); [apply (Hms id); left|].
  destruct IH as (l & Hl & Hp & Hlm); [intros i m' Hin; apply (Hms i); by right|].
  exists (k ++ l). rewrite permit_rules_cons, Hk, Hl. split_and!; [done| |].
  - intros r [Hr|Hr]%elem_of_app; [|by apply Hp]. destruct (Hperm r Hr) as [Ha [s Hs]]. split; [done|].
    exists (PolicyID_Namespace id), (PolicyID_Name id +:+ s)%string. rewrite Hs. unfold PolicyID_String.
    by rewrite !append_assoc.
  - intros pkt Hip. rewrite existsb_app, Hkm, Hlm by done. done.
Qed.

Lemma dir_matches_allow direction policies (P : Match → bool) :
  existsb P (dir_matches direction policies).*2 =
  existsb (λ p, existsb (λ m, bool_decide (Match_Type m = direction) && P m) (CPolicy_Matches p))
    (filter (λ p, skips direction p = false) policies).
Proof.
  unfold dir_matches. induction policies as [|p ps IH]; [done|]. rewrite bind_cons, fmap_app, existsb_app, filter_cons, IH.
  destruct (skips direction p) eqn:Hs.
  - by rewrite decide_False.
  - rewrite decide_True by done. cbn [existsb]. f_equal. rewrite <-list_fmap_compose, list_fmap_id.
    induction (CPolicy_Matches p) as [|m ms IHm]; [done|]. rewrite filter_cons. cbn [existsb].
    case_bool_decide; [rewrite decide_True by done; simpl; by rewrite IHm|rewrite decide_False by done; simpl; by rewrite IHm].
Qed.

Lemma generateRules_decides direction policies :
  good_policies policies →
  ∃ rules, generateRules direction policies = Some rules ∧
    ∀ pkt, wf_bytes (peer_ip direction pkt) → rules_allow rules pkt = policies_allow direction policies pkt.
Proof.
  intros Hg. destruct (permit_rules_spec direction (dir_matches direction policies)) as (l & Hl & Hp & Hm).
  { intros id m (p & Hin & _ & _ & Hm & _)%elem_of_dir_matches. by apply (gp_match _ Hg p). }
  pose proof (permit_rules_unambiguous direction policies l Hg Hl) as Hu.
  assert (∀ r, r ∈ appendRules [] l ↔ r ∈ l) as Hel by (intros r; by apply elem_of_appendRules).
  rewrite generateRules_eq, Hl. cbn [mbind option_bind]. eexists. split; [reflexivity|]. intros pkt Hip.
  rewrite policies_allow_skips. cbv zeta. rewrite <-dir_matches_allow, <-Hm, <-(existsb_same _ _ _ Hel) by done.
  assert (Forall (λ r, Action r = ActionPermit) (appendRules [] l)) as Hperm.
  { apply Forall_forall. intros r Hr%Hel. by apply Hp. }
  assert (∀ r, r ∈ appendRules [] l → ∃ x y, ID r = (x +:+ String "/" y)%string) as Hid.
  { intros r Hr%Hel. by apply Hp. }
  assert (existsb (λ p, negb (skips direction p)) policies =
          negb (length (filter (λ p, skips direction p = false) policies) =? 0)) as ->.
  { clear. induction policies as [|p ps IH]; [done|]. rewrite filter_cons. simpl. by destruct (skips direction p). }
  destruct (length _ =? 0); cbn [negb andb orb]; [by apply rules_allow_all|].
  destruct (existsb match_any _) eqn:Hany; cbn [negb andb orb].
  - rewrite rules_allow_all by done. rewrite (existsb_same _ _ _ Hel), Hm by done. symmetry. apply existsb_exists.
    apply existsb_exists in Hany as (m & Hin & Ha). exists m. split; [done|].
    unfold match_any in Ha. apply andb_true_iff in Ha as [Ha Hports].
    unfold match_allows, ports_allow. by rewrite Ha, Hports.
  - rewrite append_none, rules_allow_permits, rules_allow_none, orb_false_r by done. done.
Qed.

(** C9. Let the policies be those of [good_policies]: their pods are known and have
    Kubernetes names, every match has at most one IP block (IPv4, in canonical
    form), port numbers are not negative, and no policy has a name that continues the
    name of another one with a dash. Then the generation never panics and the
    generated rules decide every packet the way the policies do: traffic passes if
    no policy applies to the direction or if some match (of the peer and of the
    port) of a policy that applies allows it. *)
Theorem generateRules_correct direction policies :
  good_policies policies →
  ∃ rules, generateRules direction policies = Some rules ∧
    ∀ pkt, wf_bytes (peer_ip direction pkt) → rules_allow rules pkt = policies_allow direction policies pkt.
Proof. apply generateRules_decides. Qed.

End generate.

(** ** Examples *)

(** A cache that answers as its contract says. *)
Definition map_lookup (pods : gmap PodID Pod) : PodLookup :=
  {| LookupPod pod := match pods !! pod with Some data => (true, Some data) | None => (false, None) end |}.

Lemma map_lookup_known pods pod : @known_pod (map_lookup pods) pod.
Proof. unfold known_pod. simpl. destruct (pods !! pod); [by eexists|done]. Qed.

Definition example_pod (name namespace ip : string) : PodID * Pod :=
  (mkPodID name namespace, mkPod name namespace [] ip "" []).

Definition example_pods : PodLookup :=
  map_lookup (list_to_map [example_pod "web" "default" "10.1.1.2"; example_pod "db" "default" "10.1.1.3"]).

Definition web : PodID := mkPodID "web" "default".
Definition db : PodID := mkPodID "db" "default".

(** Ingress from the database pod on port 80, and from 10.0.0.0/8 without
    10.1.0.0/16. *)
Definition example_policy : ContivPolicy :=
  mkContivPolicy (mkPolicyID "allow-db" "default") ContivPolicyIngress
    [mkMatch MatchIngress (Some [db]) (Some [ten_block]) [mkPort PortTCP 80]].

Lemma ten_block_canonical : canonical_block ten_block.
Proof. split; [apply ten_canonical|]. repeat constructor. apply ten_one_canonical. Qed.

Lemma example_good : @good_policies example_pods [example_policy].
Proof.
  constructor.
  - intros p m Hp Hm. apply list_elem_of_singleton in Hp as ->. apply list_elem_of_singleton in Hm as ->.
    split_and!; [apply Forall_true; intros pod; apply map_lookup_known| |simpl; lia]. apply Forall_cons.
    split; [apply ten_block_canonical|constructor].
  - intros p m Hp Hm. apply list_elem_of_singleton in Hp as ->. apply list_elem_of_singleton in Hm as ->. by repeat constructor.
  - intros p m Hp Hm. apply list_elem_of_singleton in Hp as ->. apply list_elem_of_singleton in Hm as ->. by repeat constructor.
  - intros p q Hp Hq _. by apply list_elem_of_singleton in Hp as ->, Hq as ->.
Qed.

Definition example_packet (src : IP) (dport : Z) : Packet := mkPacket src [10; 1; 1; 2]%Z TCP 1234 dport.

Lemma generateRules_correct_witness :
  ∃ rules, @generateRules example_pods MatchIngress [example_policy] = Some rules ∧
    rules_allow rules (example_packet [10; 1; 1; 3]%Z 80) = true ∧
    rules_allow rules (example_packet [10; 1; 1; 3]%Z 81) = false ∧
    rules_allow rules (example_packet [10; 2; 0; 1]%Z 80) = true.
Proof.
  destruct (@generateRules_correct example_pods MatchIngress [example_policy] example_good)
    as (rules & Hr & Ha).
  exists rules. split; [exact Hr|]. rewrite !Ha by (repeat constructor; simpl; lia). vm_compute. auto.
Defined.

(** Two IP blocks of one match become the last one twice: the elements of
    [allSubnets] point into the variable of the loop. *)
Example ipblocks_alias :
  let block a := mkIPBlock (mkIPNet [a; 0; 0; 0]%Z [255; 0; 0; 0]%Z) [] in
  collect_subnets [block 10%Z; block 172%Z] = Some [Network (block 172%Z); Network (block 172%Z)].
Proof. reflexivity. Qed.

(** Two policies whose names extend one another: the rule for the peer y/p gets
    the ID of the rule for the peer x-y/p and is dropped. *)
Definition colliding_pods : PodLookup :=
  map_lookup (list_to_map [example_pod "p" "x-y" "10.1.1.2"; example_pod "p" "y" "10.1.1.3"]).

Definition allow_from (name : string) (pod : PodID) : ContivPolicy :=
  mkContivPolicy (mkPolicyID name "ns") ContivPolicyIngress [mkMatch MatchIngress (Some [pod]) None []].

Example rule_id_collision :
  let policies := [allow_from "a" (mkPodID "p" "x-y"); allow_from "a-x" (mkPodID "p" "y")] in
  let pkt := example_packet [10; 1; 1; 3]%Z 80 in
  @policies_allow colliding_pods MatchIngress policies pkt = true ∧
  (λ rules, rules_allow rules pkt) <$> @generateRules colliding_pods MatchIngress policies = Some false.
Proof. vm_compute. auto. Qed.
