(* ===== verification/ConfiguratorCommit.v ===== *)
(** * Transactions of the policy configurator

    [Commit] sorts the policies of a pod and remembers the sets it processed;
    every renderer is committed and the last error is returned. *)

From Stdlib Require Import ZArith Lia Ascii String.
From stdpp Require Import prelude strings list gmap sorting.
From S2P Require Import Prelude GoStrings GoNet KsrModel Utils Rules Configurator SubtractSubnet ConfiguratorRules RuleIds ConfiguratorProofs.

(** ** Sorting *)

Definition id_Compare (i j : PolicyID) : comparison :=
  cmp_on (λ i, (PolicyID_Namespace i, PolicyID_Name i)) (cmp_pair string_Compare string_Compare) i j.

#[global] Instance id_Compare_total : TotalCompare id_Compare.
Proof. apply cmp_on_total; [|apply _]. by intros [] [] [= -> ->]. Qed.

Lemma Less_Compare p q : Less p q = true ↔ id_Compare (CPolicy_ID p) (CPolicy_ID q) = Lt.
Proof.
  unfold Less, string_lt, id_Compare, cmp_on, cmp_pair. simpl. rewrite cmp_then_Lt.
  case_bool_decide as H1; [naive_solver|]. rewrite andb_true_iff, !bool_decide_eq_true, (cmp_eq string_Compare). tauto.
Qed.

(** The order of a sorted list. *)
Definition not_after (p q : ContivPolicy) : Prop := Less q p = false.

Lemma not_after_Compare p q : not_after p q ↔ id_Compare (CPolicy_ID p) (CPolicy_ID q) ≠ Gt.
Proof.
  unfold not_after. rewrite <-not_true_iff_false, Less_Compare, (cmp_lt_gt id_Compare). done.
Qed.

#[global] Instance not_after_trans : Transitive not_after.
Proof.
  intros p q r. rewrite !not_after_Compare. intros H1 H2.
  destruct (id_Compare (CPolicy_ID p) (CPolicy_ID q)) eqn:E1; [apply (cmp_eq id_Compare) in E1; by rewrite E1| |done].
  destruct (id_Compare (CPolicy_ID q) (CPolicy_ID r)) eqn:E2; [apply (cmp_eq id_Compare) in E2; by rewrite <-E2, E1| |done].
  by rewrite (cmp_trans id_Compare _ _ _ E1 E2).
Qed.

Lemma sort_insert_perm p l : sort_insert p l ≡ₚ p :: l.
Proof. induction l as [|q l IH]; [done|]. simpl. destruct (Less p q); [done|]. rewrite IH. constructor. Qed.

Lemma sort_policies_perm l : sort_policies l ≡ₚ l.
Proof.
  unfold sort_policies. assert (∀ acc, foldl (λ l p, sort_insert p l) acc l ≡ₚ acc ++ l) as H; [|apply H].
  induction l as [|p l IH]; intros acc; simpl; [by rewrite app_nil_r|]. rewrite IH, sort_insert_perm. solve_Permutation.
Qed.

Lemma Less_asym p q : Less p q = true → Less q p = false.
Proof.
  rewrite <-not_true_iff_false, !Less_Compare, (cmp_lt_gt id_Compare (CPolicy_ID q)). by intros ->.
Qed.

Lemma sort_insert_sorted p l : Sorted not_after l → Sorted not_after (sort_insert p l).
Proof.
  induction 1 as [|q l Hl IH Hq]; [by repeat constructor|]. simpl. destruct (Less p q) eqn:E.
  - constructor; [by constructor|]. constructor. by apply Less_asym.
  - constructor; [done|]. destruct l as [|r l]; simpl; [by constructor|].
    destruct (Less p r); [by constructor|]. by inversion_clear Hq; constructor.
Qed.

Lemma sort_policies_sorted l : Sorted not_after (sort_policies l).
Proof.
  unfold sort_policies. assert (∀ acc, Sorted not_after acc → Sorted not_after (foldl (λ l p, sort_insert p l) acc l)) as H.
  { induction l as [|p l IH]; intros acc Ha; simpl; [done|]. by apply IH, sort_insert_sorted. }
  apply H. constructor.
Qed.

(** A set of policies: the ID determines the policy. *)
Definition ids_determine (l : list ContivPolicy) : Prop :=
  ∀ p q, p ∈ l → q ∈ l → CPolicy_ID p = CPolicy_ID q → p = q.

Lemma policies_sorted_unique l k : ids_determine l → Sorted not_after l → Sorted not_after k → l ≡ₚ k → l = k.
Proof.
  intros Hd Hl Hk Hp. eapply (Sorted_unique_strong not_after); [|done..].
  intros p q Hpl Hqk. rewrite !not_after_Compare. intros H1 H2. apply Hd; [done|by rewrite Hp|].
  apply (cmp_eq id_Compare). rewrite (cmp_opp id_Compare (CPolicy_ID p)) in H2.
  by destruct (id_Compare (CPolicy_ID p) (CPolicy_ID q)).
Qed.

(** C36. The order in which the policies of a pod are listed does not matter:
    the sorted list, from which the rules are generated, is the same for every
    permutation of a set of policies. *)
Theorem sort_policies_order (l k : list ContivPolicy) :
  ids_determine l → l ≡ₚ k → sort_policies l = sort_policies k ∧ Sorted not_after (sort_policies l).
Proof.
  intros Hd Hp. split; [|apply sort_policies_sorted]. apply policies_sorted_unique; [|apply sort_policies_sorted..|].
  - intros p q. rewrite !sort_policies_perm. apply Hd.
  - by rewrite !sort_policies_perm.
Qed.

(** ** The rendered pods *)

(** The call for a pod, without the memory of processed sets. *)
Definition ref_call `{PodLookup} (entry : PodID * list ContivPolicy) : option RenderCall :=
  let '(pod, policies) := entry in
  net ← peer_net pod;
  ingress ← generateRules MatchEgress (sort_policies policies);
  egress ← generateRules MatchIngress (sort_policies policies);
  Some (mkRenderCall pod net ingress egress).

Lemma Equals_ids a b : ContivPolicies_Equals a b = true ↔ CPolicy_ID <$> a = CPolicy_ID <$> b.
Proof.
  unfold ContivPolicies_Equals. revert b.
  induction a as [|p a IH]; intros [|q b]; [done..|]. specialize (IH b).
  rewrite !fmap_cons. cbn [length Nat.eqb zip_with forallb]. destruct (length a =? length b); cbn [negb] in *.
  - rewrite andb_true_iff, bool_decide_eq_true, IH. split; [by intros [-> ->]|by intros [= -> ->]].
  - split; [done|]. intros [= _ H]. by apply IH in H.
Qed.

Lemma ids_eq l (a b : list ContivPolicy) : ids_determine l → (∀ p, p ∈ a → p ∈ l) → (∀ p, p ∈ b → p ∈ l) →
  CPolicy_ID <$> a = CPolicy_ID <$> b → a = b.
Proof.
  intros Hd. revert b. induction a as [|p a IH]; intros [|q b] Ha Hb; [done..|]. rewrite !fmap_cons. intros [= Hid Heq]. f_equal.
  - apply Hd; [apply Ha; left|apply Hb; left|done].
  - apply IH; [intros x Hx; apply Ha; by right|intros x Hx; apply Hb; by right|done].
Qed.

(** A remembered set: the policies are known ones, the rules are its rules. *)
Definition processed_ok `{PodLookup} (all : list ContivPolicy) (s : ProcessedPolicySet) : Prop :=
  (∀ p, p ∈ pps_policies s → p ∈ all) ∧
  generateRules MatchEgress (pps_policies s) = Some (pps_ingress s) ∧
  generateRules MatchIngress (pps_policies s) = Some (pps_egress s).

Section commit.
Context `{PodLookup}.

Lemma already_processed_spec all processed policies : ids_determine all → Forall (processed_ok all) processed →
  (∀ p, p ∈ policies → p ∈ all) →
  match already_processed processed policies with
  | Some (ingress, egress) => generateRules MatchEgress policies = Some ingress ∧ generateRules MatchIngress policies = Some egress
  | None => True
  end.
Proof.
  intros Hd Hpr Hin. unfold already_processed.
  assert (∀ found : option (list ContivRule * list ContivRule),
    (match found with Some (i, e) => generateRules MatchEgress policies = Some i ∧ generateRules MatchIngress policies = Some e
     | None => True end) →
    match foldl (λ found s, if ContivPolicies_Equals (pps_policies s) policies then Some (pps_ingress s, pps_egress s) else found)
      found processed with
    | Some (i, e) => generateRules MatchEgress policies = Some i ∧ generateRules MatchIngress policies = Some e
    | None => True end) as Hgen; [|by apply Hgen].
  induction Hpr as [|s processed (Hs & Hi & He) _ IH]; intros found Hf; [done|]. cbn [foldl]. apply IH.
  destruct (ContivPolicies_Equals (pps_policies s) policies) eqn:Heq; [|done].
  apply Equals_ids, (ids_eq all) in Heq; [|done..]. by subst policies.
Qed.

(** The pod and the policies of an entry are known, the policies have rules. *)
Definition entry_ok (all : list ContivPolicy) (entry : PodID * list ContivPolicy) : Prop :=
  known_pod entry.1 ∧ (∀ p, p ∈ entry.2 → p ∈ all) ∧ ∀ direction, is_Some (generateRules direction (sort_policies entry.2)).

Lemma configure_pod_spec all calls processed entry :
  ids_determine all → Forall (processed_ok all) processed → entry_ok all entry →
  ∃ processed', configure_pod (calls, processed) entry =
      Some (calls ++ match ref_call entry with Some c => [c] | None => [] end, processed') ∧
    Forall (processed_ok all) processed'.
Proof.
  destruct entry as [pod ps]. intros Hd Hpr (Hf & Hin & Hgen). unfold configure_pod, ref_call, peer_net. simpl in Hin, Hgen.
  unfold known_pod in Hf. simpl in Hf. destruct (LookupPod pod) as [[] data]; cbn [negb]; [|rewrite app_nil_r; eauto].
  destruct Hf as [d Hd']; [done|]. simpl in Hd'. subst data. cbn [mbind option_bind].
  destruct (bool_decide _); [rewrite app_nil_r; eauto|].
  destruct (GetOneHostSubnet _) as [net|]; [|rewrite app_nil_r; eauto]. cbn [mbind option_bind].
  pose proof (already_processed_spec all processed (sort_policies ps) Hd Hpr) as Ha.
  destruct (Hgen MatchEgress) as [i Hi], (Hgen MatchIngress) as [e He].
  destruct (already_processed processed (sort_policies ps)) as [[i' e']|].
  - destruct Ha as [Hi' He']; [intros p; rewrite sort_policies_perm; apply Hin|].
    rewrite Hi', He'. simpl. eauto.
  - rewrite Hi, He. simpl. eexists. split; [done|]. apply Forall_app. split; [done|]. repeat constructor; [|done..].
    intros p. simpl. rewrite sort_policies_perm. apply Hin.
Qed.

Lemma configure_pods_spec all entries calls processed :
  ids_determine all → Forall (processed_ok all) processed → Forall (entry_ok all) entries →
  ∃ processed', foldM configure_pod (calls, processed) entries = Some (calls ++ omap ref_call entries, processed').
Proof.
  intros Hd Hpr He. revert calls processed Hpr.
  induction He as [|entry entries He _ IH]; intros calls processed Hpr; cbn [foldM omap list_omap].
  { rewrite app_nil_r. eauto. }
  destruct (configure_pod_spec all calls processed entry Hd Hpr He) as (processed' & -> & Hpr').
  cbn [mbind option_bind]. destruct (IH (calls ++ match ref_call entry with Some c => [c] | None => [] end) processed' Hpr')
    as (processed'' & ->).
  eexists. rewrite <-app_assoc. by destruct (ref_call entry).
Qed.

Lemma good_policies_perm l k : l ≡ₚ k → good_policies l → good_policies k.
Proof.
  intros Hp Hg. constructor; intros p.
  - intros m. rewrite <-Hp. by apply gp_match.
  - intros m. rewrite <-Hp. by apply gp_pods.
  - intros m. rewrite <-Hp. by apply gp_ports.
  - intros q. rewrite <-!Hp. by apply gp_names.
Qed.

Lemma policies_allow_perm direction l k pkt : l ≡ₚ k → policies_allow direction l pkt = policies_allow direction k pkt.
Proof.
  intros Hp. rewrite !policies_allow_skips.
  assert (filter (λ p, skips direction p = false) l ≡ₚ filter (λ p, skips direction p = false) k) as Hf by (by rewrite Hp).
  cbv zeta. rewrite (existsb_same _ _ (filter (λ p, skips direction p = false) k)) by (intros p; by rewrite Hf).
  by rewrite (Permutation_length Hf).
Qed.

(** ** The theorems *)

(** What a transaction is given: known pods with sets of Kubernetes policies. *)
Definition good_config (config : gmap PodID (list ContivPolicy)) : Prop :=
  (∀ pod ps, config !! pod = Some ps → known_pod pod ∧ good_policies ps) ∧
  ∀ pod ps pod' ps' p q, config !! pod = Some ps → config !! pod' = Some ps' → p ∈ ps → q ∈ ps' →
    CPolicy_ID p = CPolicy_ID q → p = q.

Lemma render_calls_ref `{RangeOracle} pct : good_config (ct_config pct) →
  render_calls pct = Some (omap ref_call (go_range [41]%Z (ct_config pct))).
Proof.
  intros [Hg Hids]. unfold render_calls. set (entries := go_range [41]%Z (ct_config pct)).
  destruct (configure_pods_spec (entries ≫= snd) entries [] []) as (processed & ->); [..|done].
  - intros p q. rewrite !list_elem_of_bind. intros ([pod ps] & Hp & Hin) ([pod' ps'] & Hq & Hin').
    apply go_range_lookup in Hin, Hin'. by apply (Hids pod ps pod' ps').
  - constructor.
  - apply Forall_forall. intros [pod ps] Hin. split_and!; simpl.
    + apply go_range_lookup in Hin. by apply (Hg pod ps).
    + intros p Hp. apply list_elem_of_bind. by exists (pod, ps).
    + intros direction. apply go_range_lookup in Hin.
      destruct (generateRules_decides direction (sort_policies ps)) as (rules & -> & _); [|done].
      apply (good_policies_perm ps); [by rewrite sort_policies_perm|by apply (Hg pod ps)].
Qed.

Lemma elem_of_ref_calls `{RangeOracle} pct call : good_config (ct_config pct) →
  call ∈ omap ref_call (go_range [41]%Z (ct_config pct)) →
  ∃ ps, ct_config pct !! rc_pod call = Some ps ∧ peer_net (rc_pod call) = Some (rc_podIP call) ∧
    generateRules MatchEgress (sort_policies ps) = Some (rc_ingress call) ∧
    generateRules MatchIngress (sort_policies ps) = Some (rc_egress call).
Proof.
  intros Hg ([pod ps] & Hin & Hc)%list_elem_of_omap. apply go_range_lookup in Hin. unfold ref_call in Hc.
  destruct (peer_net pod) as [net|] eqn:Hn; [|done]. cbn [mbind option_bind] in Hc.
  destruct (generateRules MatchEgress _) as [i|] eqn:Hi; [|done]. cbn [mbind option_bind] in Hc.
  destruct (generateRules MatchIngress _) as [e|] eqn:He; [|done]. injection Hc as <-. by exists ps.
Qed.

Lemma ref_call_pods entries : (∀ pod ps, (pod, ps) ∈ entries → good_policies ps) →
  rc_pod <$> omap ref_call entries = filter (λ pod, is_Some (peer_net pod)) entries.*1.
Proof.
  induction entries as [|[pod ps] entries IH]; intros Hg; [done|].
  cbn [omap list_omap fmap list_fmap fst]. rewrite filter_cons.
  assert (good_policies (sort_policies ps)) as Hs.
  { apply (good_policies_perm ps); [by rewrite sort_policies_perm|]. apply (Hg pod). left. }
  unfold ref_call at 1. destruct (peer_net pod) as [net|]; cbn [mbind option_bind].
  - destruct (generateRules_decides MatchEgress _ Hs) as (i & -> & _).
    destruct (generateRules_decides MatchIngress _ Hs) as (e & -> & _).
    rewrite decide_True by eauto. cbn [mbind option_bind]. rewrite fmap_cons. f_equal.
    apply IH. intros pod' ps' Hin. apply (Hg pod'). by right.
  - rewrite decide_False by (by intros []). apply IH. intros pod' ps' Hin. apply (Hg pod'). by right.
Qed.

Lemma render_calls_decide `{RangeOracle} pct :
  good_config (ct_config pct) →
  ∃ calls, render_calls pct = Some calls ∧ NoDup (rc_pod <$> calls) ∧
    (∀ pod, pod ∈ rc_pod <$> calls ↔ is_Some (ct_config pct !! pod) ∧ is_Some (peer_net pod)) ∧
    ∀ call, call ∈ calls → ∃ ps, ct_config pct !! rc_pod call = Some ps ∧ peer_net (rc_pod call) = Some (rc_podIP call) ∧
      ∀ pkt, wf_bytes (pkt_src pkt) → wf_bytes (pkt_dst pkt) →
        rules_allow (rc_ingress call) pkt = policies_allow MatchEgress ps pkt ∧
        rules_allow (rc_egress call) pkt = policies_allow MatchIngress ps pkt.
Proof.
  intros Hg. eexists. split; [by apply render_calls_ref|].
  assert (rc_pod <$> omap ref_call (go_range [41]%Z (ct_config pct)) =
          filter (λ pod, is_Some (peer_net pod)) (range_keys [41]%Z (ct_config pct))) as Hpods.
  { apply ref_call_pods. intros pod ps Hin%go_range_lookup. by apply (proj1 Hg pod). }
  rewrite Hpods. split_and!.
  - apply NoDup_filter, range_keys_NoDup.
  - intros pod. rewrite list_elem_of_filter, elem_of_range_keys. tauto.
  - intros call Hc. destruct (elem_of_ref_calls pct call Hg Hc) as (ps & Hps & Hn & Hi & He).
    exists ps. split_and!; [done..|]. intros pkt Hs Hd.
    assert (good_policies (sort_policies ps)) as Hgs.
    { apply (good_policies_perm ps); [by rewrite sort_policies_perm|]. by apply (proj1 Hg (rc_pod call)). }
    destruct (generateRules_decides MatchEgress _ Hgs) as (i & Hi' & Hia).
    destruct (generateRules_decides MatchIngress _ Hgs) as (e & He' & Hea).
    rewrite Hi in Hi'. rewrite He in He'. injection Hi' as <-. injection He' as <-.
    rewrite Hia, Hea by done. by split; apply policies_allow_perm, sort_policies_perm.
Qed.

(** C18. Let a transaction configure known pods with policies as in
    [generateRules_correct] (known pods with Kubernetes names, at most one
    canonical IPv4 block in a match, no negative port, no name that continues another
    one with a dash), and let equal policy IDs stand for equal policies. Its commit
    renders every configured pod that has an address, and no other, exactly once;
    the ingress and egress rules of the call decide every packet the way the
    policies configured for that pod do (the rules are from the point of view of
    the vswitch, so the directions are swapped), also when the rules were
    remembered from another pod. *)
Theorem configurator_calls `{RangeOracle} pct :
  good_config (ct_config pct) →
  ∃ calls, render_calls pct = Some calls ∧ NoDup (rc_pod <$> calls) ∧
    (∀ pod, pod ∈ rc_pod <$> calls ↔ is_Some (ct_config pct !! pod) ∧ is_Some (peer_net pod)) ∧
    ∀ call, call ∈ calls → ∃ ps, ct_config pct !! rc_pod call = Some ps ∧ peer_net (rc_pod call) = Some (rc_podIP call) ∧
      ∀ pkt, wf_bytes (pkt_src pkt) → wf_bytes (pkt_dst pkt) →
        rules_allow (rc_ingress call) pkt = policies_allow MatchEgress ps pkt ∧
        rules_allow (rc_egress call) pkt = policies_allow MatchIngress ps pkt.
Proof. apply render_calls_decide. Qed.

End commit.

(** ** Errors of renderers *)

Lemma last_error_None {E} (results : list (option E)) : last_error results = None ↔ Forall (λ e, e = None) results.
Proof.
  unfold last_error.
  assert (∀ acc, foldl (λ wasError err, match err with Some e => Some e | None => wasError end) acc results = None ↔
    acc = None ∧ Forall (λ e, e = None) results) as H; [|rewrite H; tauto].
  induction results as [|[e|] results IH]; intros acc; simpl.
  - rewrite Forall_nil. tauto.
  - rewrite IH, Forall_cons. naive_solver.
  - rewrite IH, Forall_cons. tauto.
Qed.

Lemma last_error_Some {E} (results : list (option E)) e : last_error results = Some e → Some e ∈ results.
Proof.
  unfold last_error.
  assert (∀ acc, foldl (λ wasError err, match err with Some e => Some e | None => wasError end) acc results = Some e →
    acc = Some e ∨ Some e ∈ results) as H; [|by intros [?|?]%H].
  induction results as [|[e'|] results IH]; intros acc; simpl; [auto|..]; intros [Ha|Ha]%IH; rewrite elem_of_cons; auto.
Qed.

(** C34. Once a pod is rendered, every registered renderer executes its transaction
    with the same calls, whether or not another one fails and whether they run
    one after the other or in parallel; [Commit] reports the error of one of the
    renderers if there is any, and none otherwise. *)
Theorem commit_runs_all_renderers `{RangeOracle, PodLookup} {R E} `{PolicyRenderer R E}
    (arrival : list (option E) → list (option E)) (pc : PolicyConfigurator R) pct calls :
  (∀ l, arrival l ≡ₚ l) → render_calls pct = Some calls → calls ≠ [] →
  ∃ err, Configurator_Commit arrival pc pct =
      Some (mkPolicyConfigurator ((λ r, (renderer_run r (ct_resync pct) calls).1) <$> renderers pc) (parallelRendering pc), err) ∧
    (err = None ↔ ∀ r, r ∈ renderers pc → (renderer_run r (ct_resync pct) calls).2 = None) ∧
    ∀ e, err = Some e → ∃ r, r ∈ renderers pc ∧ (renderer_run r (ct_resync pct) calls).2 = Some e.
Proof.
  intros Harr Hc Hne. unfold Configurator_Commit. rewrite Hc. cbn [mbind option_bind].
  destruct calls as [|call calls]; [done|]. clear Hc Hne. set (cs := call :: calls).
  eexists. rewrite <-!list_fmap_compose. split; [reflexivity|].
  set (results := snd ∘ (λ r, renderer_run r (ct_resync pct) cs) <$> renderers pc).
  assert ((if parallelRendering pc then arrival results else results) ≡ₚ results) as Hp by (destruct (parallelRendering pc); [apply Harr|done]).
  split.
  - rewrite last_error_None, Hp. unfold results. rewrite Forall_fmap, Forall_forall. done.
  - intros e He%last_error_Some. rewrite Hp in He. unfold results in He.
    apply list_elem_of_fmap in He as (r & He & Hr). by exists r.
Qed.

(** ** Examples *)

Definition example_config : ConfiguratorTxn := Configure (Configurator_NewTxn false) web [example_policy].

Lemma example_config_good : @good_config example_pods (ct_config example_config).
Proof.
  change (ct_config example_config) with (<[web := [example_policy]]> (∅ : gmap PodID (list ContivPolicy))). split.
  - intros pod ps [[_ <-]|[_ ?]]%lookup_insert_Some; [split; [apply map_lookup_known|apply example_good]|done].
  - intros pod ps pod' ps' p q [[_ <-]|[_ ?]]%lookup_insert_Some [[_ <-]|[_ ?]]%lookup_insert_Some; try done.
    intros Hp%list_elem_of_singleton Hq%list_elem_of_singleton. by subst.
Qed.

Lemma sort_policies_order_witness :
  sort_policies [allow_from "b" web; allow_from "a" db] = sort_policies [allow_from "a" db; allow_from "b" web].
Proof.
  apply (sort_policies_order [allow_from "b" web; allow_from "a" db] [allow_from "a" db; allow_from "b" web]).
  - intros p q [->|Hp%list_elem_of_singleton]%elem_of_cons [->|Hq%list_elem_of_singleton]%elem_of_cons; subst; done.
  - apply Permutation_swap.
Defined.

Lemma configurator_calls_witness :
  ∃ calls, @render_calls canonical_order example_pods example_config = Some calls ∧ web ∈ rc_pod <$> calls.
Proof.
  destruct (@configurator_calls example_pods canonical_order example_config example_config_good)
    as (calls & Hc & _ & Hp & _).
  exists calls. split; [exact Hc|]. apply Hp. split; eexists; vm_compute; reflexivity.
Defined.

(** A renderer that records the calls and fails in state 0. *)
Definition counting_renderer : PolicyRenderer nat string :=
  {| renderer_run n _ calls := (n + length calls, if n =? 0 then Some "failed"%string else None) |}.

Definition two_renderers : PolicyConfigurator nat := RegisterRenderer (RegisterRenderer (Configurator_Init true) 0) 5.

Lemma commit_runs_all_renderers_witness :
  ∃ err, @Configurator_Commit canonical_order example_pods nat string counting_renderer (@reverse _) two_renderers example_config
    = Some (mkPolicyConfigurator [1; 6] true, err) ∧ err ≠ None.
Proof.
  assert (∃ calls, @render_calls canonical_order example_pods example_config = Some calls ∧ length calls = 1) as (calls & Hc & Hl).
  { eexists. split; vm_compute; reflexivity. }
  destruct (@commit_runs_all_renderers canonical_order example_pods nat string counting_renderer (@reverse _) two_renderers
    example_config calls) as (err & He & Herr & _).
  - intros l. apply reverse_Permutation.
  - exact Hc.
  - intros Hn. rewrite Hn in Hl. discriminate Hl.
  - exists err. simpl in He. rewrite Hl in He. split; [exact He|]. intros Hn. apply Herr with 0 in Hn; [done|left].
Defined.

(** A resync that finds no pod to render does not reach the renderers. *)
Example empty_resync_not_rendered :
  @Configurator_Commit canonical_order example_pods nat string counting_renderer id two_renderers (Configurator_NewTxn true)
  = Some (two_renderers, None).
Proof. reflexivity. Qed.
