(* ===== verification/Ipam.v ===== *)
(** * plugins/contiv/ipam/ipam.go

    The address management of a node: the pod network and the vswitch network
    are cut out of the cluster's subnets by the host ID, pod addresses are
    handed out and released. [uint8] and [uint32] are integers with explicit
    wrap-around; shifts by more than the width give 0, as in Go. The mutex makes
    every method atomic. *)

From Stdlib Require Import ZArith Lia Ascii String.
From stdpp Require Import prelude strings list gmap.
From S2P Require Import Prelude GoErrors GoNet.

Definition gatewayPodSeqID : Z := 1.
Definition vethVPPEndIPHostSeqID : Z := 1.
Definition vethHostEndIPHostSeqID : Z := 2.

Inductive IpamError :=
  | ErrParseCIDR
  | ErrPrefixLen
  | ErrNotIPv4
  | ErrEmptyPodID
  | ErrNoFreeIP
  | ErrUnknownPodID.

#[global] Instance IpamError_eq_dec : EqDecision IpamError.
Proof. solve_decision. Defined.

Record IPAM := mkIPAM {
  hostID : Z;
  podSubnetIPPrefix : IPNet;
  podNetworkIPPrefix : IPNet;
  podNetworkGatewayIP : IP;
  assignedPodIPs : gmap Z string;
  vSwitchSubnetIPPrefix : IPNet;
  vSwitchNetworkIPPrefix : IPNet;
  vethVPPEndIP : IP;
  vethHostEndIP : IP;
  hostNodeNetworkIPPrefix : IPNet
}.

Record IpamConfig := mkIpamConfig {
  PodSubnetCIDR : string;
  PodNetworkPrefixLen : Z;
  VSwitchSubnetCIDR : string;
  VSwitchNetworkPrefixLen : Z;
  HostNodeSubnetCidr : string
}.

(** ** Conversions *)

Definition ipv4ToUint32 (ip : IP) : result IpamError Z :=
  let ip := To4 ip in
  if bytesEqual ip [] then Err ErrNotIPv4
  else Ok (foldl (λ tmp bytePart, u32 (u32 (Z.shiftl tmp 8) + bytePart)) 0%Z ip).

Definition uint32ToIpv4 (ip : Z) : IP :=
  To4 (net_IPv4 (u8 (Z.shiftr ip 24)) (u8 (Z.shiftr ip 16)) (u8 (Z.shiftr ip 8)) (u8 ip)).

Definition uint32ToIpv4Mask (ip : Z) : IPMask :=
  net_IPv4Mask (u8 (Z.shiftr ip 24)) (u8 (Z.shiftr ip 16)) (u8 (Z.shiftr ip 8)) (u8 ip).

(** [newIP], [newIPNet]: defensive copies; [None] is the index panic. *)
Definition newIP (ip : IP) : option IP :=
  a ← ip !! 0; b ← ip !! 1; c ← ip !! 2; d ← ip !! 3; Some (To4 (net_IPv4 a b c d)).

Definition newIPNet (ipNet : IPNet) : option IPNet :=
  ip ← newIP (IPNet_IP ipNet);
  a ← IPNet_Mask ipNet !! 0; b ← IPNet_Mask ipNet !! 1; c ← IPNet_Mask ipNet !! 2; d ← IPNet_Mask ipNet !! 3;
  Some (mkIPNet ip (net_IPv4Mask a b c d)).

Definition convertToHostIPPart (hostID expectedHostPartBitSize : Z) : Z :=
  Z.land hostID (u8 (u8 (Z.shiftl 1 expectedHostPartBitSize) - 1)).

(** [((1 << uint(n)) - 1) << (32 - n)], computed in [uint32]; the second shift
    count is a [uint8]. *)
Definition prefix_mask (n : Z) : Z := u32 (Z.shiftl (u32 (u32 (Z.shiftl 1 n) - 1)) (u8 (32 - n))).

Definition applyHostID (subnetIPPrefix : IPNet) (hostID networkPrefixLen : Z) : result IpamError IPNet :=
  let subnetPrefixLen := (Mask_Size (IPNet_Mask subnetIPPrefix)).1 in
  let hostPartBitSize := u8 (networkPrefixLen - u8 subnetPrefixLen) in
  let hostIPPart := convertToHostIPPart hostID hostPartBitSize in
  subnetIPPartUint32 ← ipv4ToUint32 (IPNet_IP subnetIPPrefix);
  let networkPrefixUint32 := u32 (subnetIPPartUint32 + u32 (Z.shiftl hostIPPart (u8 (32 - networkPrefixLen)))) in
  Ok (mkIPNet (uint32ToIpv4 networkPrefixUint32) (uint32ToIpv4Mask (prefix_mask networkPrefixLen))).

Definition convertConfigNotation (subnetCIDR : string) (networkPrefixLen hostID : Z) : result IpamError (IPNet * IPNet) :=
  '(_, subnetIPPrefix) ← or_error ErrParseCIDR (ParseCIDR subnetCIDR);
  let subnetPrefixLen := (Mask_Size (IPNet_Mask subnetIPPrefix)).1 in
  _ ← check (negb (networkPrefixLen <=? u8 subnetPrefixLen)%Z) ErrPrefixLen;
  networkIPPrefix ← applyHostID subnetIPPrefix hostID networkPrefixLen;
  Ok (subnetIPPrefix, networkIPPrefix).

(** ** Creation *)

(** The results of the three initialisation steps. *)
Definition initializePodsIPAM (config : IpamConfig) (hostID : Z) : result IpamError (IPNet * IPNet * IP) :=
  '(podSubnet, podNetwork) ← convertConfigNotation (PodSubnetCIDR config) (PodNetworkPrefixLen config) hostID;
  podNetworkPrefixUint32 ← ipv4ToUint32 (IPNet_IP podNetwork);
  Ok (podSubnet, podNetwork, uint32ToIpv4 (u32 (podNetworkPrefixUint32 + gatewayPodSeqID))).

Definition initializeVSwitchIPAM (config : IpamConfig) (hostID : Z) : result IpamError (IPNet * IPNet * IP * IP) :=
  '(vSwitchSubnet, vSwitchNetwork) ← convertConfigNotation (VSwitchSubnetCIDR config) (VSwitchNetworkPrefixLen config) hostID;
  vSwitchNetworkPrefixUint32 ← ipv4ToUint32 (IPNet_IP vSwitchNetwork);
  Ok (vSwitchSubnet, vSwitchNetwork,
      uint32ToIpv4 (u32 (vSwitchNetworkPrefixUint32 + vethVPPEndIPHostSeqID)),
      uint32ToIpv4 (u32 (vSwitchNetworkPrefixUint32 + vethHostEndIPHostSeqID))).

Definition initializeHostNodeIPAM (config : IpamConfig) : result IpamError IPNet :=
  '(_, subnet) ← or_error ErrParseCIDR (ParseCIDR (HostNodeSubnetCidr config));
  Ok subnet.

Definition ipam_New (hostID : Z) (config : IpamConfig) : result IpamError IPAM :=
  '(podSubnet, podNetwork, gateway) ← initializePodsIPAM config hostID;
  '(vSwitchSubnet, vSwitchNetwork, vppEnd, hostEnd) ← initializeVSwitchIPAM config hostID;
  hostNodeNetwork ← initializeHostNodeIPAM config;
  Ok (mkIPAM hostID podSubnet podNetwork gateway ∅ vSwitchSubnet vSwitchNetwork vppEnd hostEnd hostNodeNetwork).

(** ** Queries *)

Definition computeHostIPAddress (i : IPAM) (hostID : Z) : result IpamError IP :=
  let subnetPrefixLen := (Mask_Size (IPNet_Mask (hostNodeNetworkIPPrefix i))).1 in
  let hostPartBitSize := u8 (32 - u8 subnetPrefixLen) in
  let hostIPPart := convertToHostIPPart hostID hostPartBitSize in
  networkIPPartUint32 ← ipv4ToUint32 (IPNet_IP (hostNodeNetworkIPPrefix i));
  Ok (uint32ToIpv4 (u32 (networkIPPartUint32 + hostIPPart))).

Definition HostIPAddress (i : IPAM) (hostID : Z) : result IpamError IP := computeHostIPAddress i hostID.

Definition HostIPNetwork (i : IPAM) (hostID : Z) : result IpamError IPNet :=
  hostIP ← computeHostIPAddress i hostID;
  let maskSize := (Mask_Size (IPNet_Mask (hostNodeNetworkIPPrefix i))).1 in
  Ok (mkIPNet hostIP (uint32ToIpv4Mask (u32 (Z.shiftl (u32 (u32 (Z.shiftl 1 maskSize) - 1)) (u8 (32 - u8 maskSize)))))).

Definition VEthVPPEndIP (i : IPAM) : option IP := newIP (vethVPPEndIP i).
Definition VEthHostEndIP (i : IPAM) : option IP := newIP (vethHostEndIP i).
Definition VSwitchNetwork (i : IPAM) : option IPNet := newIPNet (vSwitchNetworkIPPrefix i).
Definition PodSubnet (i : IPAM) : option IPNet := newIPNet (podSubnetIPPrefix i).
Definition PodNetwork (i : IPAM) : option IPNet := newIPNet (podNetworkIPPrefix i).
Definition PodGatewayIP (i : IPAM) : option IP := newIP (podNetworkGatewayIP i).
Definition HostID (i : IPAM) : Z := hostID i.

(** The network of another host; the outer option is the panic. *)
Definition OtherHostPodNetwork (i : IPAM) (hostID : Z) : option (result IpamError IPNet) :=
  let networkSize := (Mask_Size (IPNet_Mask (podNetworkIPPrefix i))).1 in
  match applyHostID (podSubnetIPPrefix i) hostID (u8 networkSize) with
  | Err e => Some (Err e)
  | Ok podNetworkIPPrefix => Ok <$> newIPNet podNetworkIPPrefix
  end.

Definition OtherHostVSwitchNetwork (i : IPAM) (hostID : Z) : option (result IpamError IPNet) :=
  let networkSize := (Mask_Size (IPNet_Mask (vSwitchNetworkIPPrefix i))).1 in
  match applyHostID (vSwitchSubnetIPPrefix i) hostID (u8 networkSize) with
  | Err e => Some (Err e)
  | Ok vSwitchNetworkIPPrefix => Ok <$> newIPNet vSwitchNetworkIPPrefix
  end.

(** ** Pod addresses *)

Definition set_assignedPodIPs (i : IPAM) (m : gmap Z string) : IPAM :=
  mkIPAM (hostID i) (podSubnetIPPrefix i) (podNetworkIPPrefix i) (podNetworkGatewayIP i) m
    (vSwitchSubnetIPPrefix i) (vSwitchNetworkIPPrefix i) (vethVPPEndIP i) (vethHostEndIP i) (hostNodeNetworkIPPrefix i).

(** The loop over the sequence IDs: the first one, from [j] on, that is not
    the gateway's and not assigned. [None] is out of fuel. *)
Fixpoint free_seq (fuel : nat) (assigned : gmap Z string) (networkPrefix maxSeqID j : Z) : option (option Z) :=
  match fuel with
  | O => None
  | S fuel =>
    if (j <? maxSeqID)%Z then
      if (j =? gatewayPodSeqID)%Z then free_seq fuel assigned networkPrefix maxSeqID (j + 1)
      else if bool_decide (is_Some (assigned !! u32 (networkPrefix + u32 j)))
      then free_seq fuel assigned networkPrefix maxSeqID (j + 1)
      else Some (Some j)
    else Some None
  end.

(** The loop skips the gateway and the assigned addresses: as many rounds, and
    the last one. *)
Definition free_fuel (assigned : gmap Z string) : nat := 3 + size assigned.

Definition NextPodIP (i : IPAM) (podID : string) : option (IPAM * result IpamError IP) :=
  if bool_decide (podID = ""%string) then Some (i, Err ErrEmptyPodID)
  else match ipv4ToUint32 (IPNet_IP (podNetworkIPPrefix i)) with
       | Err e => Some (i, Err e)
       | Ok networkPrefix =>
         let '(prefixBits, totalBits) := Mask_Size (IPNet_Mask (podNetworkIPPrefix i)) in
         let maxSeqID := Z.shiftl 1 (totalBits - prefixBits) in
         j ← free_seq (free_fuel (assignedPodIPs i)) (assignedPodIPs i) networkPrefix maxSeqID 1;
         match j with
         | None => Some (i, Err ErrNoFreeIP)
         | Some j =>
           let ip := u32 (networkPrefix + u32 j) in
           Some (set_assignedPodIPs i (<[ip := podID]> (assignedPodIPs i)), Ok (uint32ToIpv4 ip))
         end
       end.

Definition findIP `{RangeOracle} (i : IPAM) (podID : string) : result IpamError Z :=
  or_error ErrUnknownPodID
    (fst <$> List.find (λ '(_, curPodID), bool_decide (curPodID = podID)) (go_range [51]%Z (assignedPodIPs i))).

Definition ReleasePodIP `{RangeOracle} (i : IPAM) (podID : string) : IPAM * result IpamError () :=
  if bool_decide (podID = ""%string) then (i, Ok ())
  else match findIP i podID with
       | Err e => (i, Err e)
       | Ok ip => (set_assignedPodIPs i (delete ip (assignedPodIPs i)), Ok ())
       end.
