(* ===== verification/IpamProofs.v ===== *)
(** * Correctness of the address management

    The networks of different hosts are disjoint parts of the configured
    subnet; the pod addresses handed out are distinct addresses of the pod
    network, and an allocation fails only if the network is exhausted. *)

From Stdlib Require Import ZArith Lia Ascii String.
From stdpp Require Import prelude strings list gmap.
From S2P Require Import Prelude GoErrors GoNet SubtractSubnet Ipam.

(** ** IPv4 addresses as numbers *)

Definition is_u32 (v : Z) : Prop := (0 ≤ v < 2 ^ 32)%Z.

Lemma u8_byte v : is_byte (u8 v).
Proof. unfold is_byte, wrap. change (2 ^ 8)%Z with 256%Z. apply Z.mod_pos_bound. lia. Qed.

Lemma uint32ToIpv4_bytes v :
  uint32ToIpv4 v = [u8 (Z.shiftr v 24); u8 (Z.shiftr v 16); u8 (Z.shiftr v 8); u8 v].
Proof. unfold uint32ToIpv4. apply To4_net_IPv4. Qed.

Lemma uint32ToIpv4_wf v : length (uint32ToIpv4 v) = 4 ∧ wf_bytes (uint32ToIpv4 v).
Proof. rewrite uint32ToIpv4_bytes. split; [done|]. repeat constructor; apply u8_byte. Qed.

Lemma u8_testbit v m : (0 ≤ m < 8)%Z → Z.testbit (u8 v) m = Z.testbit v m.
Proof. intros Hm. unfold wrap. apply Z.mod_pow2_bits_low. lia. Qed.

Lemma uint32ToIpv4_bit v i : i < 32 → bit (uint32ToIpv4 v) i = Z.testbit v (31 - Z.of_nat i).
Proof.
  intros Hi. pose proof (Nat.div_mod_eq i 8) as He. pose proof (Nat.mod_upper_bound i 8 ltac:(lia)) as Hm.
  assert (i / 8 < 4) as Hd by (apply Nat.Div0.div_lt_upper_bound; lia).
  rewrite He, bit_split, uint32ToIpv4_bytes by done. revert He Hm Hd. generalize (i / 8) (i mod 8). intros j k -> Hk Hj.
  do 4 (destruct j as [|j]; [cbn [nth]; rewrite u8_testbit, ?Z.shiftr_spec by lia; f_equal; lia|]). lia.
Qed.

Lemma u32_high v m : is_u32 v → (32 ≤ m)%Z → Z.testbit v m = false.
Proof. intros Hv Hm. rewrite <-(Z.mod_small v (2 ^ 32)) by done. apply Z.mod_pow2_bits_high. lia. Qed.

Lemma uint32ToIpv4_inj v w : is_u32 v → is_u32 w → uint32ToIpv4 v = uint32ToIpv4 w → v = w.
Proof.
  intros Hv Hw He. apply Z.bits_inj'. intros m Hm. destruct (Z.lt_ge_cases m 32) as [Hlt|Hge].
  - pose proof (f_equal (λ l, bit l (Z.to_nat (31 - m))) He) as Hb. cbv beta in Hb.
    rewrite !uint32ToIpv4_bit in Hb by lia. rewrite Z2Nat.id in Hb by lia.
    replace (31 - (31 - m))%Z with m in Hb by lia. done.
  - by rewrite !u32_high.
Qed.

(** The value of four bytes. *)
Definition ipv4_value (a b c d : Z) : Z := (a * 2 ^ 24 + b * 2 ^ 16 + c * 2 ^ 8 + d)%Z.

Lemma ipv4_value_range a b c d : is_byte a → is_byte b → is_byte c → is_byte d → is_u32 (ipv4_value a b c d).
Proof. unfold is_byte, is_u32, ipv4_value. lia. Qed.

Lemma u32_small v : is_u32 v → u32 v = v.
Proof. intros. unfold wrap. by apply Z.mod_small. Qed.

Lemma shift_in_byte t x : (0 ≤ t < 2 ^ 24)%Z → is_byte x → u32 (u32 (Z.shiftl t 8) + x) = (t * 256 + x)%Z.
Proof.
  intros Ht Hx. unfold is_byte in Hx. rewrite Z.shiftl_mul_pow2 by lia.
  rewrite (u32_small (t * 2 ^ 8)) by (unfold is_u32; lia). rewrite u32_small by (unfold is_u32; lia). lia.
Qed.

Lemma ipv4ToUint32_bytes a b c d : is_byte a → is_byte b → is_byte c → is_byte d →
  ipv4ToUint32 [a; b; c; d] = Ok (ipv4_value a b c d).
Proof.
  intros Ha Hb Hc Hd. unfold ipv4ToUint32. cbn [To4 length IPv4len Nat.eqb].
  change (bytesEqual [a; b; c; d] []) with false. cbv iota. f_equal. cbn [foldl].
  rewrite (shift_in_byte 0 a), (shift_in_byte _ b) by (try done; unfold is_byte in *; lia).
  rewrite (shift_in_byte _ c) by (try done; unfold is_byte in *; lia).
  rewrite (shift_in_byte _ d) by (try done; unfold is_byte in *; lia). unfold ipv4_value. lia.
Qed.

Lemma uint32ToIpv4_value a b c d : is_byte a → is_byte b → is_byte c → is_byte d →
  uint32ToIpv4 (ipv4_value a b c d) = [a; b; c; d].
Proof.
  intros Ha Hb Hc Hd. rewrite uint32ToIpv4_bytes. unfold is_byte in *. rewrite !Z.shiftr_div_pow2 by lia.
  unfold ipv4_value, wrap. change (2 ^ 24)%Z with 16777216%Z. change (2 ^ 16)%Z with 65536%Z. change (2 ^ 8)%Z with 256%Z.
  apply (f_equal4 (λ a b c d, [a; b; c; d])); Z.to_euclidean_division_equations; lia.
Qed.

Lemma ipv4ToUint32_ToIpv4 v : is_u32 v → ipv4ToUint32 (uint32ToIpv4 v) = Ok v.
Proof.
  intros Hv. pose proof (uint32ToIpv4_bytes v) as He. rewrite He, ipv4ToUint32_bytes by apply u8_byte. f_equal.
  apply uint32ToIpv4_inj; [by apply ipv4_value_range; apply u8_byte|done|].
  by rewrite uint32ToIpv4_value by apply u8_byte.
Qed.

(** Every IPv4 address in normal form is a number. *)
Lemma bytes_u32 ip : length ip = 4 → wf_bytes ip → ∃ v, is_u32 v ∧ ip = uint32ToIpv4 v.
Proof.
  intros Hl Hw. destruct ip as [|a [|b [|c [|d [|]]]]]; try done. unfold wf_bytes in Hw.
  rewrite !Forall_cons in Hw. destruct Hw as (Ha & Hb & Hc & Hd & _).
  exists (ipv4_value a b c d). split; [by apply ipv4_value_range|by rewrite uint32ToIpv4_value].
Qed.

(** *** Prefixes *)

Lemma agree_prefix (p : nat) v w : is_u32 v → is_u32 w → p ≤ 32 →
  agree p (bit (uint32ToIpv4 v)) (bit (uint32ToIpv4 w)) ↔ Z.shiftr v (32 - Z.of_nat p) = Z.shiftr w (32 - Z.of_nat p).
Proof.
  intros Hv Hw Hp. split.
  - intros Ha. apply Z.bits_inj'. intros m Hm. rewrite !Z.shiftr_spec by done.
    destruct (Z.lt_ge_cases (m + (32 - Z.of_nat p)) 32) as [Hlt|Hge]; [|by rewrite !u32_high].
    specialize (Ha (Z.to_nat (31 - (m + (32 - Z.of_nat p)))) ltac:(lia)). rewrite !uint32ToIpv4_bit in Ha by lia.
    rewrite Z2Nat.id in Ha by lia. replace (31 - (31 - (m + (32 - Z.of_nat p))))%Z with (m + (32 - Z.of_nat p))%Z in Ha by lia.
    done.
  - intros He i Hi. rewrite !uint32ToIpv4_bit by lia.
    apply (f_equal (λ x, Z.testbit x (31 - Z.of_nat i - (32 - Z.of_nat p)))) in He.
    rewrite !Z.shiftr_spec in He by lia.
    by replace (31 - Z.of_nat i - (32 - Z.of_nat p) + (32 - Z.of_nat p))%Z with (31 - Z.of_nat i)%Z in He by lia.
Qed.

(** A network as a number: its low bits are zero. *)
Definition net_u32 (p : nat) (v : Z) (n : IPNet) : Prop :=
  is_u32 v ∧ p ≤ 32 ∧ (v mod 2 ^ (32 - Z.of_nat p) = 0)%Z ∧
  n = mkIPNet (uint32ToIpv4 v) (mask_bytes 4 (Z.of_nat p)).

Lemma low_bits_zero (p : nat) v : p ≤ 32 → is_u32 v →
  (v mod 2 ^ (32 - Z.of_nat p) = 0)%Z ↔ ∀ i, i < 32 → ¬ i < p → bit (uint32ToIpv4 v) i = false.
Proof.
  intros Hp Hv. split.
  - intros Hz i Hi Hge. rewrite uint32ToIpv4_bit by done.
    rewrite <-(Z.mod_pow2_bits_low v (32 - Z.of_nat p)) by lia. by rewrite Hz, Z.bits_0.
  - intros Hb. apply Z.bits_inj'. intros m Hm. rewrite Z.bits_0.
    destruct (Z.lt_ge_cases m (32 - Z.of_nat p)) as [Hlt|Hge]; [|apply Z.mod_pow2_bits_high; lia].
    rewrite Z.mod_pow2_bits_low by lia. specialize (Hb (Z.to_nat (31 - m)) ltac:(lia) ltac:(lia)).
    rewrite uint32ToIpv4_bit in Hb by lia. rewrite Z2Nat.id in Hb by lia. by replace (31 - (31 - m))%Z with m in Hb by lia.
Qed.

Lemma masked_bits (p : nat) ip : length ip = 4 → wf_bytes ip → p ≤ 32 →
  bytes_and ip (mask_bytes 4 (Z.of_nat p)) = ip ↔ ∀ i, i < 32 → ¬ i < p → bit ip i = false.
Proof.
  intros Hl Hw Hp. assert (length ip = length (mask_bytes 4 (Z.of_nat p))) as Hlm by (by rewrite mask_bytes_length).
  assert (∀ i, i < 32 → bit (bytes_and ip (mask_bytes 4 (Z.of_nat p))) i = bit ip i && (i <? p)) as Hb.
  { intros i Hi. by rewrite bit_and, mask_bytes_bit by (done || lia). }
  split.
  - intros He i Hi Hge. rewrite <-He, Hb by done. by rewrite (proj2 (Nat.ltb_nlt i p) Hge), andb_false_r.
  - intros Hz. apply bytes_ext; [apply bytes_and_wf; [done|apply mask_bytes_wf; lia]|done|by rewrite bytes_and_length|].
    rewrite bytes_and_length by done. intros i Hi. rewrite Hb by lia.
    destruct (Nat.ltb_spec i p); [by rewrite andb_true_r|]. rewrite Hz by lia. done.
Qed.

Lemma canonical_net_u32 p n : canonical_v4 p n ↔ ∃ v, net_u32 p v n.
Proof.
  split.
  - destruct n as [ip m]. intros (Hl & Hw & Hp & Hm & Hc). cbn [IPNet_IP IPNet_Mask] in *. subst m.
    destruct (bytes_u32 ip Hl Hw) as (v & Hv & ->). exists v. split_and!; [done|done| |done].
    apply low_bits_zero; [done|done|]. by apply masked_bits.
  - intros (v & Hv & Hp & Hz & ->). destruct (uint32ToIpv4_wf v) as [Hl Hw]. split_and!; try done.
    cbn [IPNet_IP IPNet_Mask]. apply masked_bits; [done..|]. by apply low_bits_zero.
Qed.

Lemma net_u32_Contains p v n ip : net_u32 p v n → wf_bytes ip →
  IPNet_Contains n ip = true ↔
  ∃ x, is_u32 x ∧ norm ip = uint32ToIpv4 x ∧ Z.shiftr x (32 - Z.of_nat p) = Z.shiftr v (32 - Z.of_nat p).
Proof.
  intros Hn Hip. assert (canonical_v4 p n) as Hc by (apply canonical_net_u32; eauto).
  destruct Hn as (Hv & Hp & Hz & ->). rewrite (canonical_Contains p) by done. cbn [IPNet_IP]. split.
  - intros [Hl Ha]. destruct (bytes_u32 (norm ip) Hl (norm_wf _ Hip)) as (x & Hx & He). exists x.
    split_and!; [done|done|]. rewrite He in Ha. by apply agree_prefix.
  - intros (x & Hx & He & Hs). rewrite He. split; [apply uint32ToIpv4_wf|by apply agree_prefix].
Qed.

(** ** Networks of hosts *)

Lemma convertToHostIPPart_mod h (k : nat) : is_byte h → k ≤ 32 →
  convertToHostIPPart h (Z.of_nat k) = (h mod 2 ^ Z.of_nat k)%Z.
Proof.
  intros Hh Hk. unfold convertToHostIPPart.
  assert (u8 (u8 (Z.shiftl 1 (Z.of_nat k)) - 1) = Z.ones (Z.of_nat (k `min` 8))) as ->.
  { do 33 (destruct k as [|k]; [reflexivity|]). lia. }
  rewrite Z.land_ones by lia. destruct (Nat.le_gt_cases k 8) as [Hle|Hgt].
  - by rewrite Nat.min_l by lia.
  - rewrite Nat.min_r by lia. unfold is_byte in Hh. change (2 ^ Z.of_nat 8)%Z with 256%Z. rewrite !Z.mod_small; [done| |lia].
    assert (2 ^ 8 ≤ 2 ^ Z.of_nat k)%Z by (apply Z.pow_le_mono_r; lia). lia.
Qed.

Lemma prefix_mask_bytes (n : nat) : n ≤ 32 → uint32ToIpv4Mask (prefix_mask (Z.of_nat n)) = mask_bytes 4 (Z.of_nat n).
Proof. intros Hn. do 33 (destruct n as [|n]; [reflexivity|]). lia. Qed.

(** The number of the network of a host: the host part is placed between the
    subnet and the network prefix. *)
Definition host_net (p n : nat) (s h : Z) : Z := (s + (h mod 2 ^ Z.of_nat (n - p)) * 2 ^ (32 - Z.of_nat n))%Z.

Lemma host_net_range p n s h : is_u32 s → (s mod 2 ^ (32 - Z.of_nat p) = 0)%Z → p ≤ n → n ≤ 32 →
  is_u32 (host_net p n s h) ∧ (host_net p n s h mod 2 ^ (32 - Z.of_nat n) = 0)%Z ∧
  Z.shiftr (host_net p n s h) (32 - Z.of_nat p) = Z.shiftr s (32 - Z.of_nat p) ∧
  (0 ≤ (h mod 2 ^ Z.of_nat (n - p)) * 2 ^ (32 - Z.of_nat n) < 2 ^ (32 - Z.of_nat p))%Z.
Proof.
  intros Hs Hz Hpn Hn. unfold host_net, is_u32 in *. rewrite !Z.shiftr_div_pow2 by lia.
  assert (2 ^ (32 - Z.of_nat p) = 2 ^ Z.of_nat (n - p) * 2 ^ (32 - Z.of_nat n))%Z as Hpow
    by (rewrite <-Z.pow_add_r by lia; f_equal; lia).
  assert (2 ^ 32 = 2 ^ Z.of_nat p * 2 ^ (32 - Z.of_nat p))%Z as H32 by (rewrite <-Z.pow_add_r by lia; f_equal; lia).
  pose proof (Z.mod_pos_bound h (2 ^ Z.of_nat (n - p)) ltac:(apply Z.pow_pos_nonneg; lia)) as Hq.
  assert (0 < 2 ^ (32 - Z.of_nat n))%Z as Hb by (apply Z.pow_pos_nonneg; lia).
  assert (0 < 2 ^ Z.of_nat (n - p))%Z as Hk by (apply Z.pow_pos_nonneg; lia).
  apply Z.mod_divide in Hz as [a ->]; [|lia]. rewrite H32 in Hs.
  set (q := (h mod _)%Z) in *. set (B := (2 ^ (32 - Z.of_nat n))%Z) in *. set (K := (2 ^ Z.of_nat (n - p))%Z) in *.
  rewrite Hpow in *. assert (0 ≤ q * B < K * B)%Z as HqB by nia.
  assert (a < 2 ^ Z.of_nat p)%Z as Ha by nia.
  split_and!; try nia.
  - replace (a * (K * B) + q * B)%Z with ((a * K + q) * B)%Z by lia. apply Z.mod_mul. lia.
  - rewrite Z.div_add_l by lia. rewrite Z.div_mul, (Z.div_small (q * B)) by lia. lia.
Qed.

Lemma applyHostID_spec p n s subnet h : net_u32 p s subnet → p ≤ n → n ≤ 32 → is_byte h →
  ∃ network, applyHostID subnet h (Z.of_nat n) = Ok network ∧ net_u32 n (host_net p n s h) network.
Proof.
  intros (Hs & Hp & Hz & ->) Hpn Hn Hh. unfold applyHostID. cbn [IPNet_IP IPNet_Mask].
  rewrite Mask_Size_mask by lia. cbn [fst].
  assert (u8 (Z.of_nat n - u8 (Z.of_nat p)) = Z.of_nat (n - p)) as ->.
  { unfold wrap. rewrite (Z.mod_small (Z.of_nat p)) by lia. rewrite Z.mod_small by lia. lia. }
  assert (u8 (32 - Z.of_nat n) = 32 - Z.of_nat n)%Z as -> by (unfold wrap; rewrite Z.mod_small; lia).
  rewrite convertToHostIPPart_mod by (done || lia). rewrite ipv4ToUint32_ToIpv4 by done. cbn [mbind result_bind].
  destruct (host_net_range p n s h Hs Hz Hpn Hn) as (Hr & Hz' & _ & Hq).
  assert (is_u32 ((h mod 2 ^ Z.of_nat (n - p)) * 2 ^ (32 - Z.of_nat n))) as Hq'.
  { unfold is_u32. assert (2 ^ (32 - Z.of_nat p) ≤ 2 ^ 32)%Z by (apply Z.pow_le_mono_r; lia). lia. }
  rewrite Z.shiftl_mul_pow2, (u32_small (_ * _)) by (done || lia). fold (host_net p n s h). rewrite u32_small by done.
  eexists. split; [reflexivity|]. rewrite prefix_mask_bytes by done. done.
Qed.

(** Two networks of the same size with an address in common are the same. *)
Lemma net_u32_disjoint p v w n m ip : net_u32 p v n → net_u32 p w m → wf_bytes ip →
  IPNet_Contains n ip = true → IPNet_Contains m ip = true → v = w.
Proof.
  intros Hn Hm Hip (x & Hx & He & Hs)%(net_u32_Contains p v n ip Hn Hip) (y & Hy & He' & Hs')%(net_u32_Contains p w m ip Hm Hip).
  assert (x = y) as <- by (apply uint32ToIpv4_inj; congruence). rewrite Hs in Hs'.
  destruct Hn as (_ & Hp & Hz & _), Hm as (_ & _ & Hz' & _). rewrite !Z.shiftr_div_pow2 in Hs' by lia.
  assert (2 ^ (32 - Z.of_nat p) ≠ 0)%Z by (apply Z.pow_nonzero; lia).
  by rewrite (Z.div_mod v (2 ^ (32 - Z.of_nat p))), (Z.div_mod w (2 ^ (32 - Z.of_nat p))), Hz, Hz', Hs'.
Qed.

(** ** The invariant *)

(** The shape of the networks: pod subnet and network of [p] and [n] bits, the
    numbers of both. *)
Record ipam_nets (p n : nat) (s : Z) (i : IPAM) : Prop := {
  in_subnet : net_u32 p s (podSubnetIPPrefix i);
  in_host : is_byte (hostID i);
  in_lens : p < n ∧ n ≤ 32;
  in_network : net_u32 n (host_net p n s (hostID i)) (podNetworkIPPrefix i);
  in_gateway : podNetworkGatewayIP i = uint32ToIpv4 (u32 (host_net p n s (hostID i) + 1))
}.

(** Only addresses between the gateway and the end of the network are assigned. *)
Definition ipam_inv (p n : nat) (s : Z) (i : IPAM) : Prop :=
  ipam_nets p n s i ∧
  ∀ key, is_Some (assignedPodIPs i !! key) →
    (host_net p n s (hostID i) + 1 < key < host_net p n s (hostID i) + 2 ^ (32 - Z.of_nat n))%Z.

Lemma network_end p n s i : ipam_nets p n s i →
  (0 ≤ host_net p n s (hostID i) ∧ host_net p n s (hostID i) + 2 ^ (32 - Z.of_nat n) ≤ 2 ^ 32)%Z.
Proof.
  intros [_ _ [_ Hn] (Hv & _ & Hz & _) _]. unfold is_u32 in Hv. split; [lia|].
  assert (2 ^ 32 = 2 ^ Z.of_nat n * 2 ^ (32 - Z.of_nat n))%Z as H32 by (rewrite <-Z.pow_add_r by lia; f_equal; lia).
  assert (0 < 2 ^ (32 - Z.of_nat n))%Z by (apply Z.pow_pos_nonneg; lia).
  apply Z.mod_divide in Hz as [a Ha]; [|lia]. rewrite Ha in Hv |- *. rewrite H32 in Hv |- *.
  set (B := (2 ^ (32 - Z.of_nat n))%Z) in *. assert (a < 2 ^ Z.of_nat n)%Z by nia. nia.
Qed.

(** *** The search for a free address *)

Definition assigned_from (assigned : gmap Z string) (v : Z) : nat := size (filter (λ kv, v ≤ kv.1)%Z assigned).

Lemma assigned_from_succ assigned v x : assigned !! v = Some x →
  assigned_from assigned v = S (assigned_from assigned (v + 1)).
Proof.
  intros Hx. unfold assigned_from.
  assert (filter (λ kv, v ≤ kv.1)%Z assigned = <[v := x]> (filter (λ kv, v + 1 ≤ kv.1)%Z assigned)) as ->.
  { apply map_eq. intros k. destruct (decide (k = v)) as [->|Hne].
    - rewrite lookup_insert_eq. apply map_lookup_filter_Some. simpl. split; [done|lia].
    - rewrite lookup_insert_ne by done. apply option_eq. intros y. rewrite !map_lookup_filter_Some. simpl.
      split; intros [? ?]; (split; [done|lia]). }
  apply map_size_insert_None. apply map_lookup_filter_None. right. simpl. intros. lia.
Qed.

Lemma assigned_from_le assigned v w : (v ≤ w)%Z → assigned_from assigned w ≤ assigned_from assigned v.
Proof.
  intros Hle. unfold assigned_from. apply map_subseteq_size, map_subseteq_spec. intros k x.
  rewrite !map_lookup_filter_Some. simpl. intros [? ?]. split; [done|lia].
Qed.

Lemma free_seq_spec fuel assigned b M j :
  (0 ≤ b)%Z → (b + M ≤ 2 ^ 32)%Z → (1 ≤ j)%Z →
  (if (j =? 1)%Z then 3 else 2) + assigned_from assigned (b + j) ≤ fuel →
  ∃ r, free_seq fuel assigned b M j = Some r ∧
    match r with
    | Some x => (j ≤ x < M)%Z ∧ (1 < x)%Z ∧ assigned !! (b + x)%Z = None ∧
                ∀ y, (j ≤ y < x)%Z → (1 < y)%Z → is_Some (assigned !! (b + y)%Z)
    | None => ∀ y, (j ≤ y < M)%Z → (1 < y)%Z → is_Some (assigned !! (b + y)%Z)
    end.
Proof.
  intros Hb HM. revert j. induction fuel as [|fuel IH]; intros j Hj Hf; [destruct (j =? 1)%Z; lia|]. cbn [free_seq].
  destruct (Z.ltb_spec j M); [|exists None; split; [done|]; intros; lia].
  assert (u32 (b + u32 j) = b + j)%Z as ->.
  { rewrite (u32_small j) by (unfold is_u32; lia). rewrite u32_small by (unfold is_u32; lia). lia. }
  unfold gatewayPodSeqID. destruct (Z.eqb_spec j 1) as [->|Hne].
  - destruct (IH (1 + 1)%Z) as (r & -> & Hr); [lia| |].
    + change (1 + 1 =? 1)%Z with false. cbv iota. pose proof (assigned_from_le assigned (b + 1) (b + (1 + 1)) ltac:(lia)). lia.
    + exists r. split; [done|]. destruct r as [x|].
      * destruct Hr as (Hx & H1 & Hn & Hy). split_and!; [lia|lia|lia|done|]. intros y Hy1 Hy2. apply Hy; lia.
      * intros y Hy1 Hy2. apply Hr; lia.
  - case_bool_decide as Ha.
    + destruct Ha as [x Hx]. rewrite (assigned_from_succ _ _ _ Hx) in Hf.
      destruct (IH (j + 1)%Z) as (r & -> & Hr); [lia| |].
      * rewrite (proj2 (Z.eqb_neq (j + 1) 1)) by lia. replace (b + (j + 1))%Z with (b + j + 1)%Z by lia. lia.
      * exists r. split; [done|]. destruct r as [z|].
        -- destruct Hr as (Hz & H1 & Hn & Hy). split_and!; [lia|lia|lia|done|]. intros y Hy1 Hy2.
           destruct (Z.eq_dec y j) as [->|]; [by exists x|]. apply Hy; lia.
        -- intros y Hy1 Hy2. destruct (Z.eq_dec y j) as [->|]; [by exists x|]. apply Hr; lia.
    + exists (Some j). split; [done|]. split_and!; [lia|lia|lia| |intros; lia].
      by apply eq_None_not_Some.
Qed.

(** *** Allocation and release *)

(** The assignable numbers of the pod network. *)
Definition pod_range (p n : nat) (s : Z) (i : IPAM) (x : Z) : Prop :=
  (host_net p n s (hostID i) + 1 < x < host_net p n s (hostID i) + 2 ^ (32 - Z.of_nat n))%Z.

Lemma ipam_nets_set p n s i m : ipam_nets p n s i → ipam_nets p n s (set_assignedPodIPs i m).
Proof. intros []. by split. Qed.

Lemma NextPodIP_outcome p n s i podID : ipam_inv p n s i → podID ≠ ""%string →
  (∃ x, NextPodIP i podID = Some (set_assignedPodIPs i (<[x := podID]> (assignedPodIPs i)), Ok (uint32ToIpv4 x)) ∧
     pod_range p n s i x ∧ assignedPodIPs i !! x = None ∧
     ∀ y, pod_range p n s i y → (y < x)%Z → is_Some (assignedPodIPs i !! y)) ∨
  (NextPodIP i podID = Some (i, Err ErrNoFreeIP) ∧ ∀ y, pod_range p n s i y → is_Some (assignedPodIPs i !! y)).
Proof.
  intros [Hnets Hkeys] Hid. pose proof (network_end _ _ _ _ Hnets) as [Hb He].
  destruct Hnets as [_ _ [_ Hn] (Hv & _ & _ & Hnet) _]. unfold NextPodIP. rewrite bool_decide_false by done.
  rewrite Hnet. cbn [IPNet_IP IPNet_Mask]. rewrite ipv4ToUint32_ToIpv4 by done. rewrite Mask_Size_mask by lia.
  set (b := host_net p n s (hostID i)) in *. replace (Z.of_nat 4 * 8 - Z.of_nat n)%Z with (32 - Z.of_nat n)%Z by lia.
  rewrite Z.shiftl_mul_pow2, Z.mul_1_l by lia. set (M := (2 ^ (32 - Z.of_nat n))%Z) in *.
  destruct (free_seq_spec (free_fuel (assignedPodIPs i)) (assignedPodIPs i) b M 1) as (r & -> & Hr); [done|done|lia| |].
  { change (1 =? 1)%Z with true. cbv iota. unfold free_fuel, assigned_from.
    pose proof (map_subseteq_size _ _ (map_filter_subseteq (λ kv : Z * string, b + 1 ≤ kv.1)%Z (assignedPodIPs i))). lia. }
  cbn [mbind option_bind]. unfold pod_range. fold b M. destruct r as [x|].
  - destruct Hr as ((Hx1 & Hx2) & H1 & Hfree & Hbelow). left. exists (b + x)%Z.
    assert (u32 (b + u32 x) = b + x)%Z as ->.
    { rewrite (u32_small x) by (unfold is_u32; lia). apply u32_small. unfold is_u32. lia. }
    split_and!; [done|lia|lia|done|]. intros y Hy Hlt. replace y with (b + (y - b))%Z by lia. apply Hbelow; lia.
  - right. split; [done|]. intros y Hy. replace y with (b + (y - b))%Z by lia. apply Hr; lia.
Qed.

Lemma NextPodIP_inv p n s i podID i' r : ipam_inv p n s i → NextPodIP i podID = Some (i', r) → ipam_inv p n s i'.
Proof.
  intros Hinv HN. destruct (decide (podID = ""%string)) as [->|Hid]; [by injection HN as <- _|].
  destruct (NextPodIP_outcome p n s i podID Hinv Hid) as [(x & He & Hx & _)|[He _]]; rewrite He in HN;
    injection HN as <- <-; [|done].
  destruct Hinv as [Hnets Hkeys]. split; [by apply ipam_nets_set|]. cbn [assignedPodIPs hostID set_assignedPodIPs].
  intros key [v [[<- _]|[_ Hv]]%lookup_insert_Some]; [done|]. by apply Hkeys.
Qed.

Lemma findIP_spec `{RangeOracle} i podID :
  match findIP i podID with
  | Ok ip => assignedPodIPs i !! ip = Some podID
  | Err e => e = ErrUnknownPodID ∧ ∀ ip, assignedPodIPs i !! ip ≠ Some podID
  end.
Proof.
  unfold findIP. destruct (List.find _ _) as [[ip pod]|] eqn:Hf; cbn [fmap option_fmap option_map or_error fst].
  - apply List.find_some in Hf as [Hin Hd%bool_decide_eq_true]. subst pod.
    by apply list_elem_of_In, go_range_lookup in Hin.
  - split; [done|]. intros ip Hip. apply (go_range_lookup [51]%Z), list_elem_of_In in Hip.
    apply (List.find_none _ _ Hf) in Hip. by apply bool_decide_eq_false in Hip.
Qed.

Lemma ReleasePodIP_outcome `{RangeOracle} i podID : podID ≠ ""%string →
  (∃ ip, ReleasePodIP i podID = (set_assignedPodIPs i (delete ip (assignedPodIPs i)), Ok ()) ∧
         assignedPodIPs i !! ip = Some podID) ∨
  (ReleasePodIP i podID = (i, Err ErrUnknownPodID) ∧ ∀ ip, assignedPodIPs i !! ip ≠ Some podID).
Proof.
  intros Hid. unfold ReleasePodIP. rewrite bool_decide_false by done. pose proof (findIP_spec i podID) as Hf.
  destruct (findIP i podID) as [ip|e]; [left; by exists ip|right]. by destruct Hf as [-> Hf].
Qed.

Lemma ReleasePodIP_inv `{RangeOracle} p n s i podID : ipam_inv p n s i → ipam_inv p n s (ReleasePodIP i podID).1.
Proof.
  intros Hinv. destruct (decide (podID = ""%string)) as [->|Hid]; [done|].
  destruct (ReleasePodIP_outcome i podID Hid) as [(ip & -> & _)|[-> _]]; [|done].
  destruct Hinv as [Hnets Hkeys]. split; [by apply ipam_nets_set|]. cbn [fst assignedPodIPs hostID set_assignedPodIPs].
  intros key [v Hv%lookup_delete_Some]. apply Hkeys. exists v. apply Hv.
Qed.

(** *** Creation *)

(** A configuration for IPv4: the pod subnet has [p] bits and the number [s]. *)
Definition ipv4_config (config : IpamConfig) (p n : nat) (s : Z) : Prop :=
  (∃ ip subnet, ParseCIDR (PodSubnetCIDR config) = Some (ip, subnet) ∧ net_u32 p s subnet) ∧
  PodNetworkPrefixLen config = Z.of_nat n ∧ p < n ∧ n ≤ 32.

Lemma convertConfigNotation_ok cidr ip subnet p n s h : ParseCIDR cidr = Some (ip, subnet) → net_u32 p s subnet →
  p < n → n ≤ 32 → is_byte h →
  ∃ network, convertConfigNotation cidr (Z.of_nat n) h = Ok (subnet, network) ∧ net_u32 n (host_net p n s h) network.
Proof.
  intros Hc Hs Hpn Hn Hh. destruct (applyHostID_spec p n s subnet h Hs ltac:(lia) Hn Hh) as (network & Ha & Hnet).
  exists network. split; [|done]. unfold convertConfigNotation. rewrite Hc. cbn [or_error mbind result_bind].
  destruct Hs as (_ & Hp & _ & Heq). rewrite Heq at 1. cbn [IPNet_Mask]. rewrite Mask_Size_mask by lia. cbn [fst].
  assert (u8 (Z.of_nat p) = Z.of_nat p) as -> by (unfold wrap; rewrite Z.mod_small; lia).
  rewrite (proj2 (Z.leb_gt (Z.of_nat n) (Z.of_nat p))) by lia. cbn [negb check]. by rewrite Ha.
Qed.

Lemma ipam_New_inv h config p n s i : ipv4_config config p n s → is_byte h → ipam_New h config = Ok i →
  ipam_inv p n s i ∧ hostID i = h.
Proof.
  intros ((ip & subnet & Hc & Hs) & Hlen & Hpn & Hn) Hh. unfold ipam_New, initializePodsIPAM. rewrite Hlen.
  destruct (convertConfigNotation_ok _ ip subnet p n s h Hc Hs Hpn Hn Hh) as (network & -> & Hnet).
  cbn [mbind result_bind]. destruct Hnet as (Hv & Hn' & Hz & ->). cbn [IPNet_IP].
  rewrite ipv4ToUint32_ToIpv4 by done. cbn [mbind result_bind].
  intros ([[[vs vn] ve] he] & _ & (hn & _ & [= <-])%bind_Ok)%bind_Ok. split; [|done]. split; [|by intros key [? ?]].
  by split.
Qed.

Lemma newIPNet_net p v n : net_u32 p v n → newIPNet n = Some n.
Proof.
  intros (_ & _ & _ & ->). unfold newIPNet, newIP. cbn [IPNet_IP IPNet_Mask]. rewrite uint32ToIpv4_bytes.
  pose proof (mask_bytes_length 4 (Z.of_nat p)) as Hl. destruct (mask_bytes 4 (Z.of_nat p)) as [|a [|b [|c [|d [|]]]]]; done.
Qed.

Lemma OtherHostPodNetwork_spec p n s i h : ipam_nets p n s i → is_byte h →
  ∃ network, OtherHostPodNetwork i h = Some (Ok network) ∧ net_u32 n (host_net p n s h) network.
Proof.
  intros [Hs _ [Hpn Hn] Hnet _] Hh. destruct (applyHostID_spec p n s _ h Hs ltac:(lia) Hn Hh) as (network & Ha & Hnw).
  exists network. split; [|done]. unfold OtherHostPodNetwork. destruct Hnet as (_ & _ & _ & ->). cbn [IPNet_Mask].
  rewrite Mask_Size_mask by lia. cbn [fst].
  assert (u8 (Z.of_nat n) = Z.of_nat n) as -> by (unfold wrap; rewrite Z.mod_small; lia).
  rewrite Ha, (newIPNet_net n _ _ Hnw). done.
Qed.

Lemma net_u32_eq p v n m : net_u32 p v n → net_u32 p v m → n = m.
Proof. intros (_ & _ & _ & ->) (_ & _ & _ & ->). done. Qed.

Lemma host_net_inj p n s h h' : p < n → n ≤ 32 → host_net p n s h = host_net p n s h' →
  (h mod 2 ^ Z.of_nat (n - p) = h' mod 2 ^ Z.of_nat (n - p))%Z.
Proof.
  unfold host_net. intros Hpn Hn He. assert (2 ^ (32 - Z.of_nat n) ≠ 0)%Z by (apply Z.pow_nonzero; lia).
  apply (Z.mul_reg_r _ _ (2 ^ (32 - Z.of_nat n))); [done|lia].
Qed.

Lemma subnet_network p n s h subnet network ip : net_u32 p s subnet → p ≤ n → n ≤ 32 →
  net_u32 n (host_net p n s h) network → wf_bytes ip → IPNet_Contains network ip = true → IPNet_Contains subnet ip = true.
Proof.
  intros Hs Hpn Hn Hnet Hip (x & Hx & He & Hsh)%(net_u32_Contains n _ _ _ Hnet Hip).
  apply (net_u32_Contains p s subnet ip Hs Hip). exists x. split_and!; [done|done|].
  destruct Hs as (Hsv & _ & Hz & _). destruct (host_net_range p n s h Hsv Hz Hpn Hn) as (_ & _ & Heq & _).
  rewrite <-Heq. replace (32 - Z.of_nat p)%Z with ((32 - Z.of_nat n) + Z.of_nat (n - p))%Z by lia.
  rewrite <-!Z.shiftr_shiftr by lia. by rewrite Hsh.
Qed.

(** Two nodes with the same configuration and host IDs that differ in the bits
    reserved for the host get pod networks that lie in the configured pod
    subnet and have no address in common, and each node computes the other
    one's network correctly (the static routes between nodes use it). *)
Theorem pod_networks_disjoint (config : IpamConfig) (p n : nat) (s h1 h2 : Z) (i1 i2 : IPAM) :
  ipv4_config config p n s → is_byte h1 → is_byte h2 →
  (h1 mod 2 ^ Z.of_nat (n - p) ≠ h2 mod 2 ^ Z.of_nat (n - p))%Z →
  ipam_New h1 config = Ok i1 → ipam_New h2 config = Ok i2 →
  ∃ subnet net1 net2,
    PodSubnet i1 = Some subnet ∧ PodNetwork i1 = Some net1 ∧ PodNetwork i2 = Some net2 ∧
    OtherHostPodNetwork i1 h2 = Some (Ok net2) ∧ OtherHostPodNetwork i2 h1 = Some (Ok net1) ∧
    ∀ ip, wf_bytes ip → IPNet_Contains net1 ip = true →
      IPNet_Contains subnet ip = true ∧ IPNet_Contains net2 ip = false.
Proof.
  intros Hc Hh1 Hh2 Hne H1 H2. destruct (ipam_New_inv _ _ _ _ _ _ Hc Hh1 H1) as [[N1 _] E1].
  destruct (ipam_New_inv _ _ _ _ _ _ Hc Hh2 H2) as [[N2 _] E2].
  destruct (OtherHostPodNetwork_spec p n s i1 h2 N1 Hh2) as (net2 & O1 & Hn2).
  destruct (OtherHostPodNetwork_spec p n s i2 h1 N2 Hh1) as (net1 & O2 & Hn1).
  destruct N1 as [S1 _ [Hpn Hn] W1 _], N2 as [S2 _ _ W2 _]. rewrite E1 in W1. rewrite E2 in W2.
  pose proof (net_u32_eq _ _ _ _ W1 Hn1) as P1. pose proof (net_u32_eq _ _ _ _ W2 Hn2) as P2.
  exists (podSubnetIPPrefix i1), net1, net2. unfold PodSubnet, PodNetwork.
  rewrite P1, P2, (newIPNet_net _ _ _ S1), (newIPNet_net _ _ _ Hn1), (newIPNet_net _ _ _ Hn2). split_and!; try done.
  intros ip Hip Hin. split; [by eapply (subnet_network p n s h1); [done|lia|done..]|].
  apply not_true_iff_false. intros Hin2. apply Hne, (host_net_inj p n s); [done|done|].
  by apply (net_u32_disjoint n _ _ net1 net2 ip).
Qed.

(** *** Allocation *)

(** The pool holds [2^(32-n) - 2] addresses. *)
Lemma pool_exhausted p n s i : ipam_inv p n s i →
  (∀ y, pod_range p n s i y → is_Some (assignedPodIPs i !! y)) →
  (2 ^ (32 - Z.of_nat n) - 2 ≤ Z.of_nat (size (assignedPodIPs i)))%Z.
Proof.
  intros _ Hall. set (b := host_net p n s (hostID i)) in *. set (M := (2 ^ (32 - Z.of_nat n))%Z) in *.
  destruct (Z.le_gt_cases (M - 2) 0) as [|Hgt]; [lia|].
  assert (list_to_set (C := gset Z) (seqZ (b + 2) (M - 2)) ⊆ dom (assignedPodIPs i)) as Hsub.
  { intros y. rewrite elem_of_list_to_set, elem_of_seqZ, elem_of_dom. intros Hy. apply Hall. unfold pod_range. fold b M. lia. }
  apply subseteq_size in Hsub. rewrite size_list_to_set, length_seqZ, size_dom in Hsub by apply NoDup_seqZ. lia.
Qed.

Lemma pod_range_net p n s i x : ipam_nets p n s i → pod_range p n s i x →
  IPNet_Contains (podNetworkIPPrefix i) (uint32ToIpv4 x) = true ∧
  uint32ToIpv4 x ≠ podNetworkGatewayIP i ∧ uint32ToIpv4 x ≠ IPNet_IP (podNetworkIPPrefix i).
Proof.
  intros Hnets Hx. pose proof (network_end _ _ _ _ Hnets) as [Hb He]. unfold pod_range in Hx.
  destruct Hnets as [_ _ [_ Hn] Hnet Hg]. destruct (uint32ToIpv4_wf x) as [Hl Hw].
  assert (is_u32 x) as Hx32 by (unfold is_u32; lia). split_and!.
  - apply (net_u32_Contains n _ _ _ Hnet Hw). exists x. rewrite norm_v4 by done. split_and!; [done|done|].
    destruct Hnet as (_ & _ & Hz & _). rewrite !Z.shiftr_div_pow2 by lia. set (b := host_net p n s (hostID i)) in *.
    assert (0 < 2 ^ (32 - Z.of_nat n))%Z by (apply Z.pow_pos_nonneg; lia). apply Z.mod_divide in Hz as [a Ha]; [|lia].
    rewrite Ha in *. rewrite Z.div_mul by lia. symmetry. apply (Z.div_unique _ _ _ (x - a * 2 ^ (32 - Z.of_nat n))); lia.
  - rewrite Hg, u32_small by (unfold is_u32; lia). intros Heq%uint32ToIpv4_inj; [lia|done|unfold is_u32; lia].
  - destruct Hnet as (Hv & _ & _ & ->). cbn [IPNet_IP]. intros Heq%uint32ToIpv4_inj; [lia|done|done].
Qed.

(** C23. For the IPAM of an IPv4 configuration whose records are addresses of its
    pod network, [NextPodIP] terminates and keeps the IPAM such. It refuses exactly
    the empty pod ID. For another one it either returns the lowest unassigned address of
    the pod network (never the network address, the gateway or an assigned one)
    and records it for the pod, or reports exhaustion; it does so only when
    all [2^(32-n) - 2] addresses are taken. *)
Theorem NextPodIP_correct (p n : nat) (s : Z) (i : IPAM) (podID : string) :
  ipam_inv p n s i →
  ∃ i' r, NextPodIP i podID = Some (i', r) ∧ ipam_inv p n s i' ∧
    (podID = ""%string ↔ r = Err ErrEmptyPodID) ∧
    match r with
    | Ok ip => ∃ x, ip = uint32ToIpv4 x ∧ IPNet_Contains (podNetworkIPPrefix i) ip = true ∧
        ip ≠ podNetworkGatewayIP i ∧ ip ≠ IPNet_IP (podNetworkIPPrefix i) ∧
        assignedPodIPs i !! x = None ∧ assignedPodIPs i' = <[x := podID]> (assignedPodIPs i) ∧
        ∀ y, pod_range p n s i y → (y < x)%Z → is_Some (assignedPodIPs i !! y)
    | Err ErrEmptyPodID => i' = i
    | Err ErrNoFreeIP => i' = i ∧ (2 ^ (32 - Z.of_nat n) - 2 ≤ Z.of_nat (size (assignedPodIPs i)))%Z
    | Err _ => False
    end.
Proof.
  intros Hinv. destruct (decide (podID = ""%string)) as [->|Hid]; [by exists i, (Err ErrEmptyPodID)|].
  destruct (NextPodIP_outcome p n s i podID Hinv Hid) as [(x & He & Hx & Hfree & Hlow)|[He Hall]].
  - eexists _, _. split; [exact He|]. split; [by eapply NextPodIP_inv|]. split; [done|]. exists x.
    destruct (pod_range_net p n s i x (proj1 Hinv) Hx) as (? & ? & ?). done.
  - eexists _, _. split; [exact He|]. split; [done|]. split; [done|]. split; [done|]. by apply (pool_exhausted p n s).
Qed.

(** ** Executions *)

Inductive IpamEvent := EvNext (podID : string) (r : result IpamError IP) | EvRelease (podID : string) (r : result IpamError ()).

#[global] Instance IpamEvent_eq_dec : EqDecision IpamEvent.
Proof. solve_decision. Defined.

Inductive ipam_step `{RangeOracle} : IPAM → IpamEvent → IPAM → Prop :=
  | step_next i podID i' r : NextPodIP i podID = Some (i', r) → ipam_step i (EvNext podID r) i'
  | step_release i podID i' r : ReleasePodIP i podID = (i', r) → ipam_step i (EvRelease podID r) i'.

Inductive ipam_exec `{RangeOracle} : IPAM → list IpamEvent → IPAM → Prop :=
  | exec_nil i : ipam_exec i [] i
  | exec_cons i e i' tr i'' : ipam_step i e i' → ipam_exec i' tr i'' → ipam_exec i (e :: tr) i''.

Lemma ipam_exec_inv `{RangeOracle} p n s i tr i' : ipam_exec i tr i' → ipam_inv p n s i → ipam_inv p n s i'.
Proof.
  induction 1 as [|i e i' tr i'' Hs _ IH]; [done|]. intros Hi. apply IH.
  destruct Hs as [i podID i' r HN|i podID i' r HR]; [by eapply NextPodIP_inv|].
  pose proof (ReleasePodIP_inv p n s i podID Hi) as Hr. by rewrite HR in Hr.
Qed.

(** An assignment lasts until the pod releases it. *)
Lemma ipam_exec_keeps `{RangeOracle} p n s i tr i' x podID : ipam_exec i tr i' → ipam_inv p n s i →
  assignedPodIPs i !! x = Some podID → podID ≠ ""%string → EvRelease podID (Ok ()) ∉ tr →
  assignedPodIPs i' !! x = Some podID.
Proof.
  induction 1 as [|i e i' tr i'' Hs _ IH]; [done|]. intros Hi Hx Hid Hnr.
  rewrite not_elem_of_cons in Hnr. destruct Hnr as [Hne Hnr].
  assert (ipam_exec i [e] i') as He1 by (econstructor; [done|constructor]).
  apply IH; [by eapply ipam_exec_inv| |done|done]. clear IH He1.
  destruct Hs as [i pod i' r HN|i pod i' r HR].
  - destruct (decide (pod = ""%string)) as [->|Hpod]; [by injection HN as <- _|].
    destruct (NextPodIP_outcome p n s i pod Hi Hpod) as [(y & He & _ & Hfree & _)|[He _]]; rewrite He in HN; injection HN as <- <-.
    + cbn [assignedPodIPs set_assignedPodIPs]. rewrite lookup_insert_ne; [done|]. intros ->. congruence.
    + done.
  - destruct (decide (pod = ""%string)) as [->|Hpod]; [by injection HR as <- _|].
    destruct (ReleasePodIP_outcome i pod Hpod) as [(y & He & Hy)|[He _]]; rewrite He in HR; injection HR as <- <-; [|done].
    cbn [assignedPodIPs set_assignedPodIPs]. rewrite lookup_delete_ne; [done|]. intros ->. congruence.
Qed.

(** An address given to a pod is not given out again before that pod has
    released it, in every sequence of allocations and releases. *)
Theorem no_double_assignment `{RangeOracle} (p n : nat) (s : Z) (i0 i1 i2 i3 : IPAM) (pod1 pod2 : string) (ip : IP) tr :
  ipam_inv p n s i0 →
  ipam_step i0 (EvNext pod1 (Ok ip)) i1 → ipam_exec i1 tr i2 → ipam_step i2 (EvNext pod2 (Ok ip)) i3 →
  EvRelease pod1 (Ok ()) ∈ tr.
Proof.
  intros Hi0 H1 Htr H2. destruct (decide (EvRelease pod1 (Ok ()) ∈ tr)) as [|Hn]; [done|exfalso].
  inversion H1 as [? ? ? ? HN1|]; subst. inversion H2 as [? ? ? ? HN2|]; subst.
  assert (ipam_inv p n s i1) as Hi1 by (by eapply NextPodIP_inv).
  assert (ipam_inv p n s i2) as Hi2 by (by eapply ipam_exec_inv).
  destruct (decide (pod1 = ""%string)) as [->|Hp1]; [done|]. destruct (decide (pod2 = ""%string)) as [->|Hp2]; [done|].
  destruct (NextPodIP_outcome p n s i0 pod1 Hi0 Hp1) as [(x & He & Hx & _)|[He _]]; rewrite He in HN1; [|done].
  destruct (NextPodIP_outcome p n s i2 pod2 Hi2 Hp2) as [(y & He' & Hy & Hfree & _)|[He' _]]; rewrite He' in HN2; [|done].
  assert (uint32ToIpv4 y = uint32ToIpv4 x) as Heq by congruence.
  assert (i1 = set_assignedPodIPs i0 (<[x := pod1]> (assignedPodIPs i0))) as -> by congruence.
  pose proof (network_end _ _ _ _ (proj1 Hi0)) as [Hb0 He0]. pose proof (network_end _ _ _ _ (proj1 Hi2)) as [Hb2 He2].
  unfold pod_range in *. apply uint32ToIpv4_inj in Heq; [|unfold is_u32; lia..]. subst y.
  apply (ipam_exec_keeps p n s _ _ _ x pod1) in Htr; [congruence|done| |done|done]. apply lookup_insert_eq.
Qed.

(** ** Examples *)

Definition ipam_config : IpamConfig :=
  mkIpamConfig "10.1.0.0/16" 24 "172.30.0.0/16" 24 "192.168.16.0/24".

Definition subnet_value : Z := ipv4_value 10 1 0 0.

Lemma ipam_config_ok : ipv4_config ipam_config 16 24 subnet_value.
Proof.
  split; [|split_and!; [done|lia|lia]]. eexists _, _. split; [reflexivity|].
  split_and!; [unfold is_u32, subnet_value, ipv4_value; lia|lia|reflexivity|reflexivity].
Qed.

(** The state of a host. *)
Definition ipam_of (h : Z) : IPAM :=
  match ipam_New h ipam_config with
  | Ok i => i
  | Err _ => mkIPAM 0 emptyIPNet emptyIPNet [] ∅ emptyIPNet emptyIPNet [] [] emptyIPNet
  end.

Definition example_ipam : IPAM := ipam_of 5.

Lemma example_inv : ipam_inv 16 24 subnet_value example_ipam.
Proof.
  apply (ipam_New_inv 5 ipam_config 16 24 subnet_value); [apply ipam_config_ok|unfold is_byte; lia|reflexivity].
Qed.

Lemma pod_networks_disjoint_witness :
  ∃ net1 net2, PodNetwork (ipam_of 5) = Some net1 ∧ OtherHostPodNetwork (ipam_of 5) 6 = Some (Ok net2) ∧
    IPNet_Contains net1 [10; 1; 5; 7]%Z = true ∧ IPNet_Contains net2 [10; 1; 5; 7]%Z = false.
Proof.
  destruct (pod_networks_disjoint ipam_config 16 24 subnet_value 5 6 (ipam_of 5) (ipam_of 6) ipam_config_ok
    ltac:(unfold is_byte; lia) ltac:(unfold is_byte; lia) ltac:(vm_compute; discriminate) eq_refl eq_refl)
    as (subnet & net1 & net2 & _ & H1 & _ & H2 & _ & H).
  exists net1, net2. split; [exact H1|]. split; [exact H2|].
  assert (IPNet_Contains net1 [10; 1; 5; 7]%Z = true) as Hin.
  { change (Some (mkIPNet [10; 1; 5; 0]%Z [255; 255; 255; 0]%Z) = Some net1) in H1. by injection H1 as <-. }
  split; [exact Hin|]. apply H; [|exact Hin]. repeat constructor; unfold is_byte; lia.
Defined.

Lemma NextPodIP_correct_witness :
  ∃ i' r, NextPodIP example_ipam "pod1" = Some (i', r) ∧ r = Ok [10; 1; 5; 2]%Z.
Proof.
  destruct (NextPodIP_correct 16 24 subnet_value example_ipam "pod1" example_inv) as (i' & r & Hr & _).
  exists i', r. split; [exact Hr|].
  assert (snd <$> NextPodIP example_ipam "pod1" = Some (Ok [10; 1; 5; 2]%Z)) as He by (vm_compute; reflexivity).
  rewrite Hr in He. by injection He.
Defined.

(** Three steps of host 5. *)
Definition after_next (i : IPAM) (pod : string) : IPAM := from_option fst i (NextPodIP i pod).
Definition ipam1 : IPAM := after_next example_ipam "pod1".
Definition ipam2 : IPAM := (@ReleasePodIP canonical_order ipam1 "pod1").1.

Lemma no_double_assignment_witness : EvRelease "pod1" (Ok ()) ∈ [EvRelease "pod1" (Ok ())].
Proof.
  apply (@no_double_assignment canonical_order 16 24 subnet_value example_ipam ipam1 ipam2 (after_next ipam2 "pod2")
    "pod1" "pod2" [10; 1; 5; 2]%Z).
  - apply example_inv.
  - constructor. vm_compute. reflexivity.
  - apply (exec_cons _ _ ipam2); [|constructor]. constructor. vm_compute. reflexivity.
  - constructor. vm_compute. reflexivity.
Defined.
