(* ===== verification/BinApi.v ===== *)
(** * The binary API of VPP

    bin_api/session/session.go and bin_api/stn/stn.go: the messages the policy and
    the contiv plugin exchange with VPP, as tables of their fields, with the layout
    their comments quote from the description of the API. [EncodeMsg] and
    [DecodeMsg] are the codec of GoVPP, which packs a message field by field in
    network byte order.

    The two copies of session.go are equal; the messages the contiv plugin sends
    are taken from its copy. *)

From Stdlib Require Import ZArith Lia Ascii String.
From stdpp Require Import prelude strings list gmap.
From S2P Require Import Prelude Slots GoStrings GoNet KsrModel Utils Rules Md5 SessionRules SessionCache VppTcpRenderer Ipam IpamProofs.

(** ** Messages *)

Inductive IntType := U8 | U16 | U32 | U64 | I32.
Inductive FieldType := Scalar (t : IntType) | Array (n : nat) (t : IntType).
Inductive MessageType := RequestMessage | ReplyMessage | EventMessage | OtherMessage.

#[global] Instance IntType_eq_dec : EqDecision IntType.
Proof. solve_decision. Defined.
#[global] Instance FieldType_eq_dec : EqDecision FieldType.
Proof. solve_decision. Defined.
#[global] Instance MessageType_eq_dec : EqDecision MessageType.
Proof. solve_decision. Defined.

(** A message of the generated code: what [GetMessageName], [GetMessageType] and
    [GetCrcString] return, the fields of the struct, and the fields and the CRC of
    the description it is generated from. *)
Record ApiMessage := mkApiMessage {
  GetMessageName : string;
  GetMessageType : MessageType;
  GetCrcString : string;
  api_fields : list (string * FieldType);
  json_fields : list (string * FieldType);
  json_crc : string
}.

Module session.

Definition ApplicationAttach : ApiMessage := mkApiMessage "application_attach" RequestMessage "f27e0a47"
  [("InitialSegmentSize", Scalar U32); ("Options", Array 16 U64); ("NamespaceIDLen", Scalar U8); ("NamespaceID", Array 64 U8)]
  [("_vl_msg_id", Scalar U16); ("client_index", Scalar U32); ("context", Scalar U32); ("initial_segment_size", Scalar U32);
   ("options", Array 16 U64); ("namespace_id_len", Scalar U8); ("namespace_id", Array 64 U8)] "f27e0a47".

Definition ApplicationAttachReply : ApiMessage := mkApiMessage "application_attach_reply" ReplyMessage "0df5c138"
  [("Retval", Scalar I32); ("AppEventQueueAddress", Scalar U64); ("SegmentSize", Scalar U32); ("SegmentNameLength", Scalar U8);
   ("SegmentName", Array 128 U8)]
  [("_vl_msg_id", Scalar U16); ("context", Scalar U32); ("retval", Scalar I32); ("app_event_queue_address", Scalar U64);
   ("segment_size", Scalar U32); ("segment_name_length", Scalar U8); ("segment_name", Array 128 U8)] "0df5c138".

Definition ApplicationDetach : ApiMessage := mkApiMessage "application_detach" RequestMessage "bf7e4352"
  []
  [("_vl_msg_id", Scalar U16); ("client_index", Scalar U32); ("context", Scalar U32)] "bf7e4352".

Definition ApplicationDetachReply : ApiMessage := mkApiMessage "application_detach_reply" ReplyMessage "fb879289"
  [("Retval", Scalar I32)]
  [("_vl_msg_id", Scalar U16); ("context", Scalar U32); ("retval", Scalar I32)] "fb879289".

Definition MapAnotherSegment : ApiMessage := mkApiMessage "map_another_segment" RequestMessage "28ca2003"
  [("SegmentSize", Scalar U32); ("SegmentName", Array 128 U8)]
  [("_vl_msg_id", Scalar U16); ("client_index", Scalar U32); ("context", Scalar U32); ("segment_size", Scalar U32);
   ("segment_name", Array 128 U8)] "28ca2003".

Definition MapAnotherSegmentReply : ApiMessage := mkApiMessage "map_another_segment_reply" ReplyMessage "76d11a9d"
  [("Retval", Scalar I32)]
  [("_vl_msg_id", Scalar U16); ("context", Scalar U32); ("retval", Scalar I32)] "76d11a9d".

Definition BindURI : ApiMessage := mkApiMessage "bind_uri" RequestMessage "ceafed7f"
  [("AcceptCookie", Scalar U32); ("URI", Array 128 U8)]
  [("_vl_msg_id", Scalar U16); ("client_index", Scalar U32); ("context", Scalar U32); ("accept_cookie", Scalar U32);
   ("uri", Array 128 U8)] "ceafed7f".

Definition BindURIReply : ApiMessage := mkApiMessage "bind_uri_reply" ReplyMessage "75918978"
  [("Retval", Scalar I32)]
  [("_vl_msg_id", Scalar U16); ("context", Scalar U32); ("retval", Scalar I32)] "75918978".

Definition UnbindURI : ApiMessage := mkApiMessage "unbind_uri" RequestMessage "46569743"
  [("URI", Array 128 U8)]
  [("_vl_msg_id", Scalar U16); ("client_index", Scalar U32); ("context", Scalar U32); ("uri", Array 128 U8)] "46569743".

Definition UnbindURIReply : ApiMessage := mkApiMessage "unbind_uri_reply" ReplyMessage "310db78f"
  [("Retval", Scalar I32)]
  [("_vl_msg_id", Scalar U16); ("context", Scalar U32); ("retval", Scalar I32)] "310db78f".

Definition ConnectURI : ApiMessage := mkApiMessage "connect_uri" RequestMessage "72035237"
  [("ClientQueueAddress", Scalar U64); ("Options", Array 16 U64); ("URI", Array 128 U8)]
  [("_vl_msg_id", Scalar U16); ("client_index", Scalar U32); ("context", Scalar U32); ("client_queue_address", Scalar U64);
   ("options", Array 16 U64); ("uri", Array 128 U8)] "72035237".

Definition ConnectURIReply : ApiMessage := mkApiMessage "connect_uri_reply" ReplyMessage "54ec1256"
  [("Retval", Scalar I32)]
  [("_vl_msg_id", Scalar U16); ("context", Scalar U32); ("retval", Scalar I32)] "54ec1256".

Definition AcceptSession : ApiMessage := mkApiMessage "accept_session" RequestMessage "8e2a127e"
  [("ListenerHandle", Scalar U64); ("Handle", Scalar U64); ("ServerRxFifo", Scalar U64); ("ServerTxFifo", Scalar U64);
   ("VppEventQueueAddress", Scalar U64); ("Port", Scalar U16); ("IsIP4", Scalar U8); ("IP", Array 16 U8)]
  [("_vl_msg_id", Scalar U16); ("client_index", Scalar U32); ("context", Scalar U32); ("listener_handle", Scalar U64); ("handle", Scalar U64);
   ("server_rx_fifo", Scalar U64); ("server_tx_fifo", Scalar U64); ("vpp_event_queue_address", Scalar U64); ("port", Scalar U16);
   ("is_ip4", Scalar U8); ("ip", Array 16 U8)] "8e2a127e".

Definition AcceptSessionReply : ApiMessage := mkApiMessage "accept_session_reply" ReplyMessage "67d8c22a"
  [("Retval", Scalar I32); ("Handle", Scalar U64)]
  [("_vl_msg_id", Scalar U16); ("context", Scalar U32); ("retval", Scalar I32); ("handle", Scalar U64)] "67d8c22a".

Definition DisconnectSession : ApiMessage := mkApiMessage "disconnect_session" RequestMessage "18addf61"
  [("Handle", Scalar U64)]
  [("_vl_msg_id", Scalar U16); ("client_index", Scalar U32); ("context", Scalar U32); ("handle", Scalar U64)] "18addf61".

Definition DisconnectSessionReply : ApiMessage := mkApiMessage "disconnect_session_reply" RequestMessage "6fb16b8f"
  [("Retval", Scalar I32); ("Handle", Scalar U64)]
  [("_vl_msg_id", Scalar U16); ("client_index", Scalar U32); ("context", Scalar U32); ("retval", Scalar I32); ("handle", Scalar U64)] "6fb16b8f".

Definition ResetSession : ApiMessage := mkApiMessage "reset_session" RequestMessage "601fefd7"
  [("Handle", Scalar U64)]
  [("_vl_msg_id", Scalar U16); ("client_index", Scalar U32); ("context", Scalar U32); ("handle", Scalar U64)] "601fefd7".

Definition ResetSessionReply : ApiMessage := mkApiMessage "reset_session_reply" RequestMessage "80f6c14f"
  [("Retval", Scalar I32); ("Handle", Scalar U64)]
  [("_vl_msg_id", Scalar U16); ("client_index", Scalar U32); ("context", Scalar U32); ("retval", Scalar I32); ("handle", Scalar U64)] "80f6c14f".

Definition BindSock : ApiMessage := mkApiMessage "bind_sock" RequestMessage "3f898291"
  [("Vrf", Scalar U32); ("IsIP4", Scalar U8); ("IP", Array 16 U8); ("Port", Scalar U16); ("Proto", Scalar U8); ("Options", Array 16 U64)]
  [("_vl_msg_id", Scalar U16); ("client_index", Scalar U32); ("context", Scalar U32); ("vrf", Scalar U32); ("is_ip4", Scalar U8);
   ("ip", Array 16 U8); ("port", Scalar U16); ("proto", Scalar U8); ("options", Array 16 U64)] "3f898291".

Definition UnbindSock : ApiMessage := mkApiMessage "unbind_sock" RequestMessage "9007c8c9"
  [("Handle", Scalar U64)]
  [("_vl_msg_id", Scalar U16); ("client_index", Scalar U32); ("context", Scalar U32); ("handle", Scalar U64)] "9007c8c9".

Definition UnbindSockReply : ApiMessage := mkApiMessage "unbind_sock_reply" ReplyMessage "5d9c5da6"
  [("Retval", Scalar I32)]
  [("_vl_msg_id", Scalar U16); ("context", Scalar U32); ("retval", Scalar I32)] "5d9c5da6".

Definition ConnectSock : ApiMessage := mkApiMessage "connect_sock" RequestMessage "0bf00e15"
  [("ClientQueueAddress", Scalar U64); ("Options", Array 16 U64); ("Vrf", Scalar U32); ("IsIP4", Scalar U8); ("IP", Array 16 U8);
   ("Port", Scalar U16); ("Proto", Scalar U8)]
  [("_vl_msg_id", Scalar U16); ("client_index", Scalar U32); ("context", Scalar U32); ("client_queue_address", Scalar U64);
   ("options", Array 16 U64); ("vrf", Scalar U32); ("is_ip4", Scalar U8); ("ip", Array 16 U8); ("port", Scalar U16); ("proto", Scalar U8)] "0bf00e15".

Definition ConnectSockReply : ApiMessage := mkApiMessage "connect_sock_reply" ReplyMessage "f6988664"
  [("Retval", Scalar I32)]
  [("_vl_msg_id", Scalar U16); ("context", Scalar U32); ("retval", Scalar I32)] "f6988664".

Definition BindSockReply : ApiMessage := mkApiMessage "bind_sock_reply" ReplyMessage "eecef9cc"
  [("Handle", Scalar U64); ("Retval", Scalar I32); ("ServerEventQueueAddress", Scalar U64); ("SegmentSize", Scalar U32);
   ("SegmentNameLength", Scalar U8); ("SegmentName", Array 128 U8)]
  [("_vl_msg_id", Scalar U16); ("context", Scalar U32); ("handle", Scalar U64); ("retval", Scalar I32); ("server_event_queue_address", Scalar U64);
   ("segment_size", Scalar U32); ("segment_name_length", Scalar U8); ("segment_name", Array 128 U8)] "eecef9cc".

Definition ConnectSession : ApiMessage := mkApiMessage "connect_session" RequestMessage "40ae01d1"
  []
  [("_vl_msg_id", Scalar U16); ("client_index", Scalar U32); ("context", Scalar U32)] "40ae01d1".

Definition ConnectSessionReply : ApiMessage := mkApiMessage "connect_session_reply" ReplyMessage "0bf3fdc2"
  [("Retval", Scalar I32); ("Handle", Scalar U64); ("ServerRxFifo", Scalar U64); ("ServerTxFifo", Scalar U64);
   ("VppEventQueueAddress", Scalar U64); ("SegmentSize", Scalar U32); ("SegmentNameLength", Scalar U8); ("SegmentName", Array 128 U8);
   ("LclIP", Array 16 U8); ("IsIP4", Scalar U8); ("LclPort", Scalar U16)]
  [("_vl_msg_id", Scalar U16); ("context", Scalar U32); ("retval", Scalar I32); ("handle", Scalar U64); ("server_rx_fifo", Scalar U64);
   ("server_tx_fifo", Scalar U64); ("vpp_event_queue_address", Scalar U64); ("segment_size", Scalar U32);
   ("segment_name_length", Scalar U8); ("segment_name", Array 128 U8); ("lcl_ip", Array 16 U8); ("is_ip4", Scalar U8);
   ("lcl_port", Scalar U16)] "0bf3fdc2".

Definition SessionEnableDisable : ApiMessage := mkApiMessage "session_enable_disable" RequestMessage "a4cfced4"
  [("IsEnable", Scalar U8)]
  [("_vl_msg_id", Scalar U16); ("client_index", Scalar U32); ("context", Scalar U32); ("is_enable", Scalar U8)] "a4cfced4".

Definition SessionEnableDisableReply : ApiMessage := mkApiMessage "session_enable_disable_reply" ReplyMessage "cfb0e390"
  [("Retval", Scalar I32)]
  [("_vl_msg_id", Scalar U16); ("context", Scalar U32); ("retval", Scalar I32)] "cfb0e390".

Definition AppNamespaceAddDel : ApiMessage := mkApiMessage "app_namespace_add_del" RequestMessage "9733ef2a"
  [("Secret", Scalar U64); ("SwIfIndex", Scalar U32); ("IP4FibID", Scalar U32); ("IP6FibID", Scalar U32); ("NamespaceIDLen", Scalar U8);
   ("NamespaceID", Array 64 U8)]
  [("_vl_msg_id", Scalar U16); ("client_index", Scalar U32); ("context", Scalar U32); ("secret", Scalar U64); ("sw_if_index", Scalar U32);
   ("ip4_fib_id", Scalar U32); ("ip6_fib_id", Scalar U32); ("namespace_id_len", Scalar U8); ("namespace_id", Array 64 U8)] "9733ef2a".

Definition AppNamespaceAddDelReply : ApiMessage := mkApiMessage "app_namespace_add_del_reply" ReplyMessage "8a5cd4ac"
  [("Retval", Scalar I32); ("AppnsIndex", Scalar U32)]
  [("_vl_msg_id", Scalar U16); ("context", Scalar U32); ("retval", Scalar I32); ("appns_index", Scalar U32)] "8a5cd4ac".

Definition SessionRuleAddDel : ApiMessage := mkApiMessage "session_rule_add_del" RequestMessage "f540e6fb"
  [("TransportProto", Scalar U8); ("IsIP4", Scalar U8); ("LclIP", Array 16 U8); ("LclPlen", Scalar U8); ("RmtIP", Array 16 U8);
   ("RmtPlen", Scalar U8); ("LclPort", Scalar U16); ("RmtPort", Scalar U16); ("ActionIndex", Scalar U32); ("IsAdd", Scalar U8);
   ("AppnsIndex", Scalar U32); ("Scope", Scalar U8); ("Tag", Array 64 U8)]
  [("_vl_msg_id", Scalar U16); ("client_index", Scalar U32); ("context", Scalar U32); ("transport_proto", Scalar U8); ("is_ip4", Scalar U8);
   ("lcl_ip", Array 16 U8); ("lcl_plen", Scalar U8); ("rmt_ip", Array 16 U8); ("rmt_plen", Scalar U8); ("lcl_port", Scalar U16);
   ("rmt_port", Scalar U16); ("action_index", Scalar U32); ("is_add", Scalar U8); ("appns_index", Scalar U32); ("scope", Scalar U8);
   ("tag", Array 64 U8)] "f540e6fb".

Definition SessionRuleAddDelReply : ApiMessage := mkApiMessage "session_rule_add_del_reply" ReplyMessage "a000e586"
  [("Retval", Scalar I32)]
  [("_vl_msg_id", Scalar U16); ("context", Scalar U32); ("retval", Scalar I32)] "a000e586".

Definition SessionRulesDump : ApiMessage := mkApiMessage "session_rules_dump" RequestMessage "cb37054a"
  []
  [("_vl_msg_id", Scalar U16); ("client_index", Scalar U32); ("context", Scalar U32)] "cb37054a".

Definition SessionRulesDetails : ApiMessage := mkApiMessage "session_rules_details" ReplyMessage "081d0d82"
  [("TransportProto", Scalar U8); ("IsIP4", Scalar U8); ("LclIP", Array 16 U8); ("LclPlen", Scalar U8); ("RmtIP", Array 16 U8);
   ("RmtPlen", Scalar U8); ("LclPort", Scalar U16); ("RmtPort", Scalar U16); ("ActionIndex", Scalar U32); ("AppnsIndex", Scalar U32);
   ("Scope", Scalar U8); ("Tag", Array 64 U8)]
  [("_vl_msg_id", Scalar U16); ("context", Scalar U32); ("transport_proto", Scalar U8); ("is_ip4", Scalar U8); ("lcl_ip", Array 16 U8);
   ("lcl_plen", Scalar U8); ("rmt_ip", Array 16 U8); ("rmt_plen", Scalar U8); ("lcl_port", Scalar U16); ("rmt_port", Scalar U16);
   ("action_index", Scalar U32); ("appns_index", Scalar U32); ("scope", Scalar U8); ("tag", Array 64 U8)] "081d0d82".

Definition messages : list ApiMessage :=
  [ApplicationAttach; ApplicationAttachReply; ApplicationDetach; ApplicationDetachReply; MapAnotherSegment; MapAnotherSegmentReply; BindURI;
   BindURIReply; UnbindURI; UnbindURIReply; ConnectURI; ConnectURIReply; AcceptSession; AcceptSessionReply; DisconnectSession;
     DisconnectSessionReply; ResetSession; ResetSessionReply; BindSock; UnbindSock; UnbindSockReply; ConnectSock; ConnectSockReply;
     BindSockReply; ConnectSession; ConnectSessionReply; SessionEnableDisable; SessionEnableDisableReply; AppNamespaceAddDel;
     AppNamespaceAddDelReply; SessionRuleAddDel; SessionRuleAddDelReply; SessionRulesDump; SessionRulesDetails].
End session.

Module stn.

Definition StnAddDelRule : ApiMessage := mkApiMessage "stn_add_del_rule" RequestMessage "4a761a12"
  [("IsIP4", Scalar U8); ("IPAddress", Array 16 U8); ("SwIfIndex", Scalar U32); ("IsAdd", Scalar U8)]
  [("_vl_msg_id", Scalar U16); ("client_index", Scalar U32); ("context", Scalar U32); ("is_ip4", Scalar U8); ("ip_address", Array 16 U8);
   ("sw_if_index", Scalar U32); ("is_add", Scalar U8)] "4a761a12".

Definition StnAddDelRuleReply : ApiMessage := mkApiMessage "stn_add_del_rule_reply" ReplyMessage "7af79b37"
  [("Retval", Scalar I32)]
  [("_vl_msg_id", Scalar U16); ("context", Scalar U32); ("retval", Scalar I32)] "7af79b37".

Definition StnRulesDump : ApiMessage := mkApiMessage "stn_rules_dump" RequestMessage "e3b863a5"
  []
  [("_vl_msg_id", Scalar U16); ("client_index", Scalar U32); ("context", Scalar U32)] "e3b863a5".

Definition StnRuleDetails : ApiMessage := mkApiMessage "stn_rule_details" ReplyMessage "af614822"
  [("IsIP4", Scalar U8); ("IPAddress", Array 16 U8); ("SwIfIndex", Scalar U32)]
  [("_vl_msg_id", Scalar U16); ("context", Scalar U32); ("is_ip4", Scalar U8); ("ip_address", Array 16 U8); ("sw_if_index", Scalar U32)] "af614822".

Definition messages : list ApiMessage := [StnAddDelRule; StnAddDelRuleReply; StnRulesDump; StnRuleDetails].
End stn.

(** ** The codec *)

Definition width (t : IntType) : nat := match t with U8 => 1 | U16 => 2 | U32 | I32 => 4 | U64 => 8 end.

(** The values of a type. *)
Definition in_range (t : IntType) (z : Z) : Prop :=
  match t with I32 => (- 2 ^ 31 ≤ z < 2 ^ 31)%Z | _ => (0 ≤ z < 256 ^ Z.of_nat (width t))%Z end.

Fixpoint be_bytes (n : nat) (z : Z) : list Z :=
  match n with O => [] | S n => be_bytes n (z / 256) ++ [(z mod 256)%Z] end.

Definition be_value (l : list Z) : Z := foldl (λ acc b, acc * 256 + b)%Z 0%Z l.

(** The conversion of the unsigned value to the type of the field. *)
Definition to_type (t : IntType) (z : Z) : Z :=
  match t with I32 => if (z <? 2 ^ 31)%Z then z else (z - 2 ^ 32)%Z | _ => z end.

Inductive FieldValue := VInt (z : Z) | VSlice (l : list Z).

Definition field_size (t : FieldType) : nat := match t with Scalar t => width t | Array n t => n * width t end.
Definition Sizeof (fields : list (string * FieldType)) : nat := sum_list (field_size ∘ snd <$> fields).

(** [struc.Pack] writes the fields one after the other into a buffer of [size]
    bytes; [None] is the panic of an index beyond the buffer. A slice of bytes
    that is shorter than its field is padded; of a longer one all bytes are
    written, as far as the buffer reaches. *)
Fixpoint Pack (size : nat) (fields : list (string * FieldType)) (vals : list FieldValue) (buf : list Z) : option (list Z) :=
  match fields, vals with
  | [], [] => Some (take size buf)
  | (_, Scalar t) :: fields, VInt z :: vals =>
    if length buf + width t <=? size then Pack size fields vals (buf ++ be_bytes (width t) z) else None
  | (_, Array n U8) :: fields, VSlice l :: vals =>
    if length buf + (if length l <? n then length l else 0) <=? size
    then Pack size fields vals (buf ++ l ++ replicate (n - length l) 0%Z) else None
  | (_, Array n t) :: fields, VSlice l :: vals =>
    if length buf + n * width t <=? size
    then Pack size fields vals (buf ++ (take n (l ++ replicate n 0%Z) ≫= be_bytes (width t))) else None
  | _, _ => None
  end.

(** The elements of an array. *)
Fixpoint unpack_array (n : nat) (t : IntType) (data : list Z) : list Z :=
  match n with O => [] | S n => to_type t (be_value (take (width t) data)) :: unpack_array n t (drop (width t) data) end.

Definition unpack_field (t : FieldType) (data : list Z) : FieldValue :=
  match t with Scalar t => VInt (to_type t (be_value data)) | Array n t => VSlice (unpack_array n t data) end.

(** [struc.Unpack]; [None] is the error of data that ends too early. *)
Fixpoint Unpack (fields : list (string * FieldType)) (data : list Z) : option (list FieldValue) :=
  match fields with
  | [] => Some []
  | (_, t) :: fields =>
    if field_size t <=? length data then cons (unpack_field t (take (field_size t) data)) <$> Unpack fields (drop (field_size t) data) else None
  end.

(** The header: the ID of the message, and room for the client and the context. *)
Definition header (type : MessageType) (msgID : Z) : list Z :=
  match type with
  | RequestMessage => be_bytes 2 msgID ++ be_bytes 4 0 ++ be_bytes 4 0
  | ReplyMessage | EventMessage => be_bytes 2 msgID ++ be_bytes 4 0
  | OtherMessage => be_bytes 2 msgID
  end.
Definition headerSize (type : MessageType) : nat :=
  match type with RequestMessage => 10 | ReplyMessage | EventMessage => 6 | OtherMessage => 2 end.

Definition EncodeMsg (msg : ApiMessage) (msgID : Z) (vals : list FieldValue) : option (list Z) :=
  body ← Pack (Sizeof (api_fields msg)) (api_fields msg) vals [];
  Some (header (GetMessageType msg) msgID ++ body).

(** A struct without fields is not unpacked. *)
Definition DecodeMsg (msg : ApiMessage) (data : list Z) : option (list FieldValue) :=
  if bool_decide (api_fields msg = []) || (length data <? headerSize (GetMessageType msg)) then None
  else Unpack (api_fields msg) (drop (headerSize (GetMessageType msg)) data).

(** ** Round trip *)

Lemma be_bytes_length n z : length (be_bytes n z) = n.
Proof. revert z. induction n as [|n IH]; intros z; [done|]. cbn [be_bytes]. rewrite length_app, IH. simpl. lia. Qed.

Lemma be_bytes_wf n z : wf_bytes (be_bytes n z).
Proof.
  revert z. induction n as [|n IH]; intros z; [by constructor|]. cbn [be_bytes]. apply Forall_app. split; [apply IH|].
  constructor; [|constructor]. unfold is_byte. pose proof (Z.mod_pos_bound z 256). lia.
Qed.

Lemma be_value_bytes n z : be_value (be_bytes n z) = (z mod 256 ^ Z.of_nat n)%Z.
Proof.
  revert z. induction n as [|n IH]; intros z; [cbn; by rewrite Z.mod_1_r|]. cbn [be_bytes]. unfold be_value in *. rewrite foldl_app.
  cbn [foldl]. rewrite IH.
  rewrite Nat2Z.inj_succ, Z.pow_succ_r, Z.rem_mul_r by lia. lia.
Qed.

Lemma to_type_value t z : in_range t z → to_type t (be_value (be_bytes (width t) z)) = z.
Proof.
  rewrite be_value_bytes. destruct t; cbn [in_range to_type width]; intros Hz; try (apply Z.mod_small; lia).
  change (256 ^ Z.of_nat 4)%Z with (2 ^ 32)%Z.
  assert (z < 0 → z mod 2 ^ 32 = z + 2 ^ 32)%Z as Hneg by (intros; symmetry; apply (Z.mod_unique _ _ (-1)); lia).
  destruct (Z.ltb_spec (z mod 2 ^ 32) (2 ^ 31)) as [Hlt|Hge].
  - destruct (decide (0 ≤ z)%Z) as [Hp|Hn]; [apply Z.mod_small; lia|]. rewrite Hneg in Hlt by lia. lia.
  - destruct (decide (0 ≤ z)%Z) as [Hp|Hn]; [rewrite Z.mod_small in Hge; lia|]. rewrite Hneg by lia. lia.
Qed.

(** The values of a message: every number fits its field, every slice has the
    length of its array. *)
Definition field_ok (f : string * FieldType) (v : FieldValue) : Prop :=
  match f.2, v with
  | Scalar t, VInt z => in_range t z
  | Array n t, VSlice l => length l = n ∧ Forall (in_range t) l
  | _, _ => False
  end.

Definition field_bytes (f : string * FieldType) (v : FieldValue) : list Z :=
  match f.2, v with
  | Scalar t, VInt z => be_bytes (width t) z
  | Array n t, VSlice l => l ≫= be_bytes (width t)
  | _, _ => []
  end.

Lemma array_bytes_length t l : length (l ≫= be_bytes (width t)) = length l * width t.
Proof. induction l as [|z l IH]; [done|]. rewrite bind_cons, length_app, be_bytes_length, IH. simpl. lia. Qed.

Lemma byte_array l : Forall (in_range U8) l → l ≫= be_bytes 1 = l.
Proof.
  induction 1 as [|z l Hz _ IH]; [done|]. rewrite bind_cons, IH. cbn [be_bytes app]. cbn [in_range width] in Hz. by rewrite Z.mod_small by lia.
Qed.

Lemma field_bytes_length f v : field_ok f v → length (field_bytes f v) = field_size f.2.
Proof.
  destruct f as [name [t|n t]], v as [z|l]; cbn [field_ok field_bytes field_size snd]; try done; [by rewrite be_bytes_length|].
  intros [Hl _]. by rewrite array_bytes_length, Hl.
Qed.

Lemma unpack_array_bytes t l rest : Forall (in_range t) l → unpack_array (length l) t ((l ≫= be_bytes (width t)) ++ rest) = l.
Proof.
  induction 1 as [|z l Hz _ IH]; [done|]. rewrite bind_cons, <- app_assoc. cbn [length unpack_array].
  rewrite take_app_length', drop_app_length' by (by rewrite be_bytes_length). by rewrite to_type_value, IH.
Qed.

Lemma unpack_field_bytes f v : field_ok f v → unpack_field f.2 (field_bytes f v) = v.
Proof.
  destruct f as [name [t|n t]], v as [z|l]; cbn [field_ok field_bytes unpack_field snd]; try done; [intros Hz; by rewrite to_type_value|].
  intros [<- Hl]. f_equal. by rewrite <- (app_nil_r (l ≫= _)), unpack_array_bytes.
Qed.

Lemma Sizeof_cons name t fields : Sizeof ((name, t) :: fields) = field_size t + Sizeof fields.
Proof. done. Qed.

Lemma Pack_fields size fields vals buf : Forall2 field_ok fields vals → length buf + Sizeof fields = size →
  Pack size fields vals buf = Some (buf ++ concat (zip_with field_bytes fields vals)).
Proof.
  intros Hok. revert buf. induction Hok as [|[name t] v fields vals Hv Hok IH]; intros buf Hsz.
  - cbn in *. rewrite app_nil_r, take_ge; [done|lia].
  - rewrite Sizeof_cons in Hsz.
    assert (Pack size fields vals (buf ++ field_bytes (name, t) v)
      = Some (buf ++ field_bytes (name, t) v ++ concat (zip_with field_bytes fields vals))) as Hrest.
    { rewrite (assoc_L app), IH; [done|]. rewrite length_app, field_bytes_length by done. cbn [snd]. lia. }
    cbn [zip_with concat]. rewrite <- Hrest. destruct t as [t|n t], v as [z|l]; try done.
    + cbn [Pack field_bytes snd]. cbn [field_size] in Hsz. by rewrite (proj2 (Nat.leb_le _ _)) by lia.
    + destruct Hv as [Hl Hr]. cbn [snd field_size] in *. cbn [Pack]. destruct t; cbn [width] in *; try
        (rewrite (proj2 (Nat.leb_le _ _)) by lia; cbn [field_bytes snd width]; by rewrite take_app_length').
      rewrite (proj2 (Nat.ltb_ge _ _)), (proj2 (Nat.leb_le _ _)) by lia. cbn [field_bytes snd width].
      by rewrite Hl, Nat.sub_diag, app_nil_r, byte_array.
Qed.

Lemma Unpack_fields fields vals : Forall2 field_ok fields vals → Unpack fields (concat (zip_with field_bytes fields vals)) = Some vals.
Proof.
  induction 1 as [|f v fields vals Hv Hok IH]; [done|]. destruct f as [name t]. cbn [zip_with concat Unpack].
  pose proof (field_bytes_length (name, t) v Hv) as Hlen. cbn [snd] in Hlen. rewrite (proj2 (Nat.leb_le _ _)) by (rewrite length_app; lia).
  rewrite take_app_length', drop_app_length' by done. rewrite IH. cbn [fmap option_fmap option_map].
  pose proof (unpack_field_bytes (name, t) v Hv) as Hu. cbn [snd] in Hu. by rewrite Hu.
Qed.

Lemma concat_fields_length fields vals : Forall2 field_ok fields vals → length (concat (zip_with field_bytes fields vals)) = Sizeof fields.
Proof.
  induction 1 as [|f v fields vals Hv Hok IH]; [done|]. cbn [zip_with concat]. rewrite length_app, field_bytes_length, IH by done. done.
Qed.

Lemma header_length type msgID : length (header type msgID) = headerSize type.
Proof. by destruct type. Qed.

Lemma message_roundtrip msg msgID vals : api_fields msg ≠ [] → Forall2 field_ok (api_fields msg) vals →
  ∃ data, EncodeMsg msg msgID vals = Some data ∧ length data = headerSize (GetMessageType msg) + Sizeof (api_fields msg) ∧
    DecodeMsg msg data = Some vals.
Proof.
  intros Hne Hok. unfold EncodeMsg. rewrite (Pack_fields _ _ vals []) by done. cbn [mbind option_bind app].
  eexists. split; [done|]. rewrite length_app, header_length, concat_fields_length by done. split; [done|].
  unfold DecodeMsg. rewrite bool_decide_eq_false_2, (proj2 (Nat.ltb_ge _ _)) by (done || (rewrite length_app, header_length; lia)). cbn [orb].
  rewrite drop_app_length' by (by rewrite header_length). by apply Unpack_fields.
Qed.

(** ** The description *)

Definition lower (c : ascii) : ascii := let n := nat_of_ascii c in if (65 <=? n) && (n <=? 90) then ascii_of_nat (n + 32) else c.

(** [initial_segment_size] and [InitialSegmentSize] are the same name. *)
Definition normal_name (s : string) : list ascii := lower <$> filter (λ c, c ≠ "_"%char) (list_ascii_of_string s).

Definition json_header (type : MessageType) : list (string * FieldType) :=
  match type with
  | RequestMessage => [("_vl_msg_id", Scalar U16); ("client_index", Scalar U32); ("context", Scalar U32)]%string
  | ReplyMessage | EventMessage => [("_vl_msg_id", Scalar U16); ("context", Scalar U32)]%string
  | OtherMessage => [("_vl_msg_id", Scalar U16)]%string
  end.

Definition normal_fields (fields : list (string * FieldType)) : list (list ascii * FieldType) := prod_map normal_name id <$> fields.

(** The generated code follows the description: the CRC, the header that the type
    of the message stands for, and the names and types of the fields in order. *)
Definition described (msg : ApiMessage) : Prop :=
  GetCrcString msg = json_crc msg ∧
  normal_fields (json_header (GetMessageType msg) ++ api_fields msg) = normal_fields (json_fields msg).

#[global] Instance described_dec msg : Decision (described msg).
Proof. apply _. Defined.

(** The binary API. All messages of session.go and stn.go have the CRC, the
    header and the fields, in order and with their types, that the description
    quoted beside them has; their names differ; and a message whose values fit its
    fields is encoded in exactly the size of its header and its fields, and
    decoding the bytes gives the values back. *)
Theorem messages_as_described msg : msg ∈ session.messages ++ stn.messages →
  described msg ∧ NoDup (GetMessageName <$> session.messages ++ stn.messages) ∧
  ∀ msgID vals, api_fields msg ≠ [] → Forall2 field_ok (api_fields msg) vals →
    ∃ data, EncodeMsg msg msgID vals = Some data ∧ length data = headerSize (GetMessageType msg) + Sizeof (api_fields msg) ∧
      DecodeMsg msg data = Some vals.
Proof.
  intros Hin. assert (Forall described (session.messages ++ stn.messages)) as Hall by (apply (bool_decide_unpack _); vm_compute; exact I).
  split; [by eapply Forall_forall|]. split; [apply (bool_decide_unpack _); vm_compute; exact I|]. intros msgID vals. apply message_roundtrip.
Qed.

(** ** Session rules on the wire *)

(** The request of [makeSessionRuleAddDelReq] and the message of a dump, as values
    of their fields. *)
Definition add_del_values (req : SessionRuleAddDel) : list FieldValue :=
  [VInt (msg_TransportProto req); VInt (msg_IsIP4 req); VSlice (msg_LclIP req); VInt (msg_LclPlen req);
   VSlice (msg_RmtIP req); VInt (msg_RmtPlen req); VInt (msg_LclPort req); VInt (msg_RmtPort req);
   VInt (msg_ActionIndex req); VInt (msg_IsAdd req); VInt (msg_AppnsIndex req); VInt (msg_Scope req);
   VSlice (msg_Tag req)].

(** The value of a field, by the name of the field, in a message. *)
Definition decoded_field (msg : ApiMessage) (data : list Z) (name : string) : option FieldValue :=
  vals ← DecodeMsg msg data;
  list_to_map (M := gmap string FieldValue) (zip (fst <$> api_fields msg) vals) !! name.

(** What the request to add or to delete a rule says, field by field. *)
Definition request_fields (r : SessionRule) (add : bool) : list (string * FieldValue) :=
  [("TransportProto", VInt (TransportProto r)); ("IsIP4", VInt (IsIP4 r)); ("LclIP", VSlice (LclIP r));
   ("LclPlen", VInt (LclPlen r)); ("RmtIP", VSlice (RmtIP r)); ("RmtPlen", VInt (RmtPlen r));
   ("LclPort", VInt (LclPort r)); ("RmtPort", VInt (RmtPort r)); ("ActionIndex", VInt (ActionIndex r));
   ("IsAdd", VInt (if add then 1 else 0)); ("AppnsIndex", VInt (AppnsIndex r)); ("Scope", VInt (Scope r));
   ("Tag", VSlice (Tag r))].

Definition details_values (r : SessionRule) : list FieldValue :=
  [VInt (TransportProto r); VInt (IsIP4 r); VSlice (LclIP r); VInt (LclPlen r); VSlice (RmtIP r); VInt (RmtPlen r); VInt (LclPort r);
  VInt (RmtPort r);
   VInt (ActionIndex r); VInt (AppnsIndex r); VInt (Scope r); VSlice (Tag r)].

Definition details_of (vals : list FieldValue) : option SessionRule :=
  match vals with
  | [VInt proto; VInt isIP4; VSlice lclIP; VInt lclPlen; VSlice rmtIP; VInt rmtPlen; VInt lclPort; VInt rmtPort; VInt action; VInt appns;
    VInt scope; VSlice tag] =>
    Some (mkSessionRule proto isIP4 lclIP lclPlen rmtIP rmtPlen lclPort rmtPort action appns scope tag)
  | _ => None
  end.

(** A rule that fits the fields. *)
Record rule_fits (r : SessionRule) : Prop := {
  fits_bytes : is_byte (TransportProto r) ∧ is_byte (IsIP4 r) ∧ is_byte (LclPlen r) ∧ is_byte (RmtPlen r) ∧ is_byte (Scope r);
  fits_ports : (0 ≤ LclPort r < 2 ^ 16 ∧ 0 ≤ RmtPort r < 2 ^ 16)%Z;
  fits_words : (0 ≤ ActionIndex r < 2 ^ 32 ∧ 0 ≤ AppnsIndex r < 2 ^ 32)%Z;
  fits_arrays : wf_bytes (LclIP r) ∧ wf_bytes (RmtIP r) ∧ wf_bytes (Tag r)
}.

Lemma bytes_in_range l : wf_bytes l → Forall (in_range U8) l.
Proof. intros Hl. eapply Forall_impl; [exact Hl|]. intros b Hb. exact Hb. Qed.

Lemma add_del_values_ok r add : wf_rule r → rule_fits r → Forall2 field_ok (api_fields session.SessionRuleAddDel)
  (add_del_values (makeSessionRuleAddDelReq r add)).
Proof.
  intros (Hl & Hr & Ht & _) [Hb Hp Hw (Bl & Br & Bt)]. unfold is_byte in Hb.
  unfold add_del_values, makeSessionRuleAddDelReq.
  cbn [msg_TransportProto msg_IsIP4 msg_LclIP msg_LclPlen msg_RmtIP msg_RmtPlen msg_LclPort msg_RmtPort msg_ActionIndex msg_IsAdd
    msg_AppnsIndex msg_Scope msg_Tag]. assert (in_range U8 (if add then 1 else 0)) by (destruct add; cbn; lia).
  repeat first [apply Forall2_nil_2|apply Forall2_cons; split]; cbn [field_ok snd]; try done;
    try (split; [done|by apply bytes_in_range]); cbn [in_range width]; lia.
Qed.

Lemma request_field_value r add name v : (name, v) ∈ request_fields r add →
  list_to_map (M := gmap string FieldValue)
    (zip (fst <$> api_fields session.SessionRuleAddDel) (add_del_values (makeSessionRuleAddDelReq r add))) !! name = Some v.
Proof.
  intros Hv. apply elem_of_list_to_map_1; [apply (bool_decide_unpack _); vm_compute; exact I|exact Hv].
Qed.

Lemma details_values_ok r : wf_rule r → rule_fits r → Forall2 field_ok (api_fields session.SessionRulesDetails) (details_values r).
Proof.
  intros (Hl & Hr & Ht & _) [Hb Hp Hw (Bl & Br & Bt)]. unfold is_byte in Hb.
  repeat first [apply Forall2_nil_2|apply Forall2_cons; split]; cbn [field_ok snd in_range width]; try (split; [done|by apply bytes_in_range]); lia.
Qed.

(** *** The rules of the cache fit *)

Lemma copy_into_wf (dst src : list Z) : wf_bytes dst → wf_bytes src → wf_bytes (copy_into dst src).
Proof. intros Hd Hs. apply Forall_app. split; [by apply Forall_take|by apply Forall_drop]. Qed.

Lemma zeros_wf n : wf_bytes (replicate n 0%Z).
Proof. apply Forall_replicate. unfold is_byte. lia. Qed.

Lemma To4_wf ip : wf_bytes ip → wf_bytes (To4 ip).
Proof. intros Hip. unfold To4. repeat case_match; [done|by apply Forall_drop|constructor]. Qed.

Lemma To16_wf ip : wf_bytes ip → wf_bytes (To16 ip).
Proof.
  intros Hip. unfold To16. repeat case_match; [|done|constructor]. apply Forall_app. split; [|done].
  repeat (constructor; [unfold is_byte; lia|]). constructor.
Qed.

Lemma string_bytes_wf s : wf_bytes (string_bytes s).
Proof.
  apply Forall_fmap, Forall_fmap, Forall_true. intros c. cbn. pose proof (N_ascii_bounded c). unfold is_byte. lia.
Qed.

Lemma set_Tag_fits r text : rule_fits r → rule_fits (set_Tag r text).
Proof. intros [Hb Hp Hw (Hl & Hr & Ht)]. split; [done..|]. split_and!; [done|done|]. apply copy_into_wf; [done|apply string_bytes_wf]. Qed.

Lemma set_IsIP4_fits r : rule_fits r → rule_fits (set_IsIP4 r 1).
Proof.
  intros [(H1 & _ & H3) Hp Hw Ha]. split; [|done..]. split; [exact H1|]. split; [|exact H3]. unfold is_byte. cbn. lia.
Qed.

Lemma set_upper_half_fits r : rule_fits r → rule_fits (set_upper_half r).
Proof.
  intros [Hb Hp Hw (Hl & Hr & Ht)]. split; [done..|]. split_and!; [done| |done]. cbn [RmtIP set_upper_half].
  apply Forall_insert; [done|]. change (is_byte 128). unfold is_byte. lia.
Qed.

Lemma transport_proto_byte p : is_byte (transport_proto p).
Proof. unfold is_byte, transport_proto, RuleProtoTCP, RuleProtoUDP. destruct p; lia. Qed.

Lemma action_index_word a : (0 ≤ action_index a < 2 ^ 32)%Z.
Proof. unfold action_index, RuleActionAllow, RuleActionDeny. destruct a; lia. Qed.

(** A Contiv rule with ports and addresses of their types. *)
Definition rule_typed (rule : ContivRule) : Prop :=
  (0 ≤ SrcPort rule < 2 ^ 16 ∧ 0 ≤ DestPort rule < 2 ^ 16)%Z ∧
  wf_bytes (IPNet_IP (SrcNetwork rule)) ∧ wf_bytes (IPNet_IP (DestNetwork rule)).

Lemma addr_wf (b : bool) ip : wf_bytes ip → wf_bytes (copy_into zeroIP (if b then To4 ip else To16 ip)).
Proof. intros Hip. apply copy_into_wf; [apply zeros_wf|]. destruct b; [by apply To4_wf|by apply To16_wf]. Qed.

Lemma session_rule_fits rule isIP4 lclIP lclPlen rmtIP rmtPlen lclPort rmtPort ns scope :
  is_byte isIP4 → is_byte lclPlen → is_byte rmtPlen → is_byte scope → (0 ≤ lclPort < 2 ^ 16)%Z → (0 ≤ rmtPort < 2 ^ 16)%Z → (0 ≤ ns < 2 ^ 32)%Z →
  wf_bytes lclIP → wf_bytes rmtIP →
  rule_fits (mkSessionRule (transport_proto (Protocol rule))
    isIP4 lclIP lclPlen rmtIP rmtPlen lclPort rmtPort (action_index (Action rule)) ns scope zeroTag).
Proof.
  intros. split; [|done|split; [apply action_index_word|done]|split_and!; [done|done|apply zeros_wf]].
  split_and!; [apply transport_proto_byte|done..].
Qed.

Lemma byte_bool (b : bool) : is_byte (if b then 1 else 0).
Proof. destruct b; unfold is_byte; lia. Qed.

Lemma convertEgressRule_fits ns ip p rule r : wf_bytes (IPNet_IP ip) → rule_typed rule → r ∈ convertEgressRule ns ip p rule → rule_fits r.
Proof.
  intros Hip ((Hs & Hd) & Hsrc & _). unfold convertEgressRule. destruct (_ && _); [by intros ?%elem_of_nil|].
  destruct (0 <? length _), (length (IPNet_IP (SrcNetwork rule)) =? 0); cbv zeta; intros Hr; rewrite ?elem_of_cons, ?elem_of_nil in Hr;
    destruct_or! Hr; subst; try done; apply set_Tag_fits; try apply set_upper_half_fits;
    (apply session_rule_fits; try done; try apply byte_bool; try apply u8_byte; try (by apply addr_wf); try apply zeros_wf;
    unfold is_byte, RuleScopeGlobal, RuleScopeLocal; lia).
Qed.

Lemma convertIngressRule_fits ns p rule r : (0 ≤ ns < 2 ^ 32)%Z → rule_typed rule → r ∈ convertIngressRule ns p rule → rule_fits r.
Proof.
  intros Hns ((Hs & Hd) & _ & Hdst). unfold convertIngressRule. destruct (_ && _); [by intros ?%elem_of_nil|].
  destruct (0 <? length _), (length (IPNet_IP (DestNetwork rule)) =? 0); cbv zeta; intros Hr; rewrite ?elem_of_cons, ?elem_of_nil in Hr;
    destruct_or! Hr; subst; try done; apply set_Tag_fits; try apply set_upper_half_fits; try apply set_IsIP4_fits;
    (apply session_rule_fits; try done; try apply byte_bool; try apply u8_byte; try (by apply addr_wf); try apply zeros_wf;
    unfold is_byte, RuleScopeGlobal, RuleScopeLocal; lia).
Qed.

(** C37. Session rules on the wire. The rules the session-rule cache makes of a
    Contiv rule with 16-bit ports and addresses of bytes, for a 32-bit namespace
    index and a pod address of bytes, are encoded in a request of 124 bytes. The
    fields decoded from these bytes are, name by name, those of the rule, with
    IsAdd one for an addition and zero for a removal. And what is sent for an
    installed rule is decoded, and taken by the dump of the renderer, as that rule. *)
Theorem session_rules_on_wire ns ip rule r add msgID : (0 ≤ ns < 2 ^ 32)%Z → wf_bytes (IPNet_IP ip) → rule_typed rule →
  r ∈ convertEgressRule ns ip SessionRuleTagPrefix rule ++ convertIngressRule ns SessionRuleTagPrefix rule →
  (∃ data, EncodeMsg session.SessionRuleAddDel msgID (add_del_values (makeSessionRuleAddDelReq r add)) = Some data ∧ length data = 124 ∧
    (∀ name v, (name, v) ∈ request_fields r add → decoded_field session.SessionRuleAddDel data name = Some v)) ∧
  (∃ data msg, EncodeMsg session.SessionRulesDetails msgID (details_values r) = Some data ∧
    DecodeMsg session.SessionRulesDetails data ≫= details_of = Some msg ∧ dumpRules [inl msg] = Some (Some [r])).
Proof.
  intros Hns Hip Hrule Hr.
  assert (tagged SessionRuleTagPrefix r ∧ rule_fits r) as [Htag Hfits].
  { apply elem_of_app in Hr as [Hr|Hr].
    - split; [by eapply convertEgressRule_tagged|by eapply convertEgressRule_fits].
    - split; [by eapply convertIngressRule_tagged|by eapply convertIngressRule_fits]. }
  apply tagged_own in Htag as [Hown Hwf]. split.
  - destruct (message_roundtrip session.SessionRuleAddDel msgID _ ltac:(done) (add_del_values_ok r add Hwf Hfits)) as (data & He & Hl & Hd).
    exists data. split; [exact He|]. split; [exact Hl|].
    intros name v Hv. unfold decoded_field. rewrite Hd. cbn [mbind option_bind]. by apply request_field_value.
  - destruct (message_roundtrip session.SessionRulesDetails msgID _ ltac:(done) (details_values_ok r Hwf Hfits)) as (data & He & _ & Hd).
    exists data, r. split; [exact He|]. split; [rewrite Hd; by destruct r|]. change [inl r] with (inl (B := ()) <$> [r]).
    rewrite dumpRules_spec by auto.
    by rewrite filter_cons_True, filter_nil.
Qed.

(** ** Short slices *)

(** A slice of bytes that is shorter than its field is sent with zeros. *)
Definition pad_field (f : string * FieldType) (v : FieldValue) : FieldValue :=
  match f.2, v with Array n U8, VSlice l => VSlice (l ++ replicate (n - length l) 0%Z) | _, _ => v end.

Definition short_field (f : string * FieldType) (v : FieldValue) : Prop :=
  match f.2, v with Array n U8, VSlice l => length l ≤ n | _, _ => True end.

Lemma Pack_pad size fields vals buf : Forall2 short_field fields vals → Forall2 field_ok fields (zip_with pad_field fields vals) →
  length buf + Sizeof fields = size → Pack size fields vals buf = Pack size fields (zip_with pad_field fields vals) buf.
Proof.
  intros Hs. revert buf. induction Hs as [|[name t] v fields vals Hv Hs IH]; intros buf Hok Hsz; [done|]. cbn [zip_with] in *.
  apply Forall2_cons in Hok as [Hf Hok]. rewrite Sizeof_cons in Hsz. destruct t as [t|n t], v as [z|l]; [|done|by destruct t|].
  - cbn [Pack pad_field snd]. cbn [field_size] in Hsz. rewrite (proj2 (Nat.leb_le _ _)) by lia. apply IH; [done|].
    rewrite length_app, be_bytes_length. lia.
  - cbn [field_size] in Hsz. destruct t; cbn [Pack pad_field snd width] in *; try
      (rewrite (proj2 (Nat.leb_le _ _)) by lia; destruct Hf as [Hl _]; apply IH; [done|];
       rewrite length_app, take_app_length' by done; rewrite (array_bytes_length U16) || rewrite (array_bytes_length U32)
         || rewrite (array_bytes_length U64) ||
         rewrite (array_bytes_length I32); cbn [width]; lia).
    cbn [short_field snd] in Hv. rewrite length_app, length_replicate.
    assert ((length l + (n - length l) <? n) = false) as -> by (apply Nat.ltb_ge; lia).
    rewrite (proj2 (Nat.leb_le (length buf + 0) size)) by lia. replace (n - (length l + (n - length l))) with 0 by lia. cbn [replicate].
    rewrite app_nil_r.
    rewrite (proj2 (Nat.leb_le _ size)) by (destruct (length l <? n); lia). apply IH; [done|]. rewrite !length_app, length_replicate. lia.
Qed.

(** What VPP decodes then. *)
Lemma padded_roundtrip msg msgID vals : api_fields msg ≠ [] → Forall2 short_field (api_fields msg) vals →
  Forall2 field_ok (api_fields msg) (zip_with pad_field (api_fields msg) vals) →
  ∃ data, EncodeMsg msg msgID vals = Some data ∧ length data = headerSize (GetMessageType msg) + Sizeof (api_fields msg) ∧
    DecodeMsg msg data = Some (zip_with pad_field (api_fields msg) vals).
Proof.
  intros Hne Hs Hok. destruct (message_roundtrip msg msgID _ Hne Hok) as (data & He & Hrest). exists data. split; [|done].
  unfold EncodeMsg in *. by rewrite (Pack_pad _ _ vals []).
Qed.

(** ** Examples *)

Definition example_rule : ContivRule :=
  mkContivRule "r1" ActionPermit (mkIPNet [10; 1; 1; 0]%Z [255; 255; 255; 0]%Z) (mkIPNet [10; 1; 2; 3]%Z [255; 255; 255; 255]%Z) TCP 0 80.
Definition example_session_rule : SessionRule := default zeroSessionRule (head (convertIngressRule 5 SessionRuleTagPrefix example_rule)).

Lemma session_rules_on_wire_witness : ∃ data,
  EncodeMsg session.SessionRuleAddDel 7 (add_del_values (makeSessionRuleAddDelReq example_session_rule true)) = Some data ∧ length data = 124.
Proof.
  destruct (proj1 (session_rules_on_wire 5 (mkIPNet [10; 1; 1; 4] [255; 255; 255; 255])%Z example_rule example_session_rule true 7
    ltac:(lia) ltac:(apply (bool_decide_unpack _); vm_compute; exact I)
    ltac:(split_and!; [cbn; lia|cbn; lia|cbn; lia|cbn; lia|apply (bool_decide_unpack _); vm_compute;
      exact I|apply (bool_decide_unpack _); vm_compute; exact I])
    ltac:(apply elem_of_app; right; apply (bool_decide_unpack _); vm_compute; exact I))) as (data & He & Hl & _).
  exists data. exact (conj He Hl).
Defined.

Lemma messages_as_described_witness : ∃ data, EncodeMsg session.AppNamespaceAddDelReply 3 [VInt (-1); VInt 9] = Some data ∧
  DecodeMsg session.AppNamespaceAddDelReply data = Some [VInt (-1); VInt 9].
Proof.
  destruct (proj2 (proj2 (messages_as_described session.AppNamespaceAddDelReply ltac:(apply elem_of_app; left; unfold session.messages; set_solver)))
    3%Z [VInt (-1); VInt 9] ltac:(done) ltac:(repeat constructor; cbn; lia)) as (data & He & _ & Hd).
  exists data. exact (conj He Hd).
Defined.
