(* ===== verification/NodeId.v ===== *)
(** * plugins/contiv/node_id_allocator.go

    The allocation of a number for every node of the cluster: nodes race for
    keys of etcd. etcd is the class [Etcd]: its operations and, in
    [EtcdLaws], what its documentation says about them in terms of the stored
    keys. [getID] is broken at its accesses to etcd into atomic steps
    ([getID_step]); [cluster_step] interleaves the steps of all nodes and lets
    a node restart at any time. *)

From Stdlib Require Import ZArith Lia Ascii String.
From stdpp Require Import prelude strings list gmap sorting pretty.
From S2P Require Import Prelude GoStrings GoErrors GoNet.

Definition allocatedIDsKeyPrefix : string := "allocatedIDs/".
Definition maxAttempts : nat := 10.

(** model/uid: the value stored for a node. *)
Record Identifier := mkIdentifier { Identifier_Id : Z; Identifier_Name : string }.

#[global] Instance Identifier_eq_dec : EqDecision Identifier.
Proof. solve_decision. Defined.

(** ** Keys *)

(** [strconv.Atoi] of a text without underscores; the range is that of [int]. *)
Fixpoint parse_digits (acc : Z) (s : string) : option Z :=
  match s with
  | EmptyString => Some acc
  | String c s => d ← digit_val 10 c; parse_digits (acc * 10 + d) s
  end.

Definition Atoi (s : string) : option Z :=
  let '(neg, digits) := match s with
                        | String "-" s => (true, s)
                        | String "+" s => (false, s)
                        | s => (false, s)
                        end in
  if bool_decide (digits = ""%string) then None
  else v ← parse_digits 0 digits;
       let v := if neg : bool then (- v)%Z else v in
       if ((v <? - 2 ^ 63) || (2 ^ 63 <=? v))%Z then None else Some v.

Inductive AllocError (E : Type) :=
  | EtcdError (e : E)
  | errInvalidKey
  | errAtoi
  | errUnableToAllocateID
  | errNoIDallocated.
Arguments EtcdError {E} _.
Arguments errInvalidKey {E}.
Arguments errAtoi {E}.
Arguments errUnableToAllocateID {E}.
Arguments errNoIDallocated {E}.

Definition extractIndexFromKey {E} (key : string) : result (AllocError E) Z :=
  if HasPrefix key allocatedIDsKeyPrefix
  then or_error errAtoi (Atoi (Replace1 key allocatedIDsKeyPrefix ""))
  else Err errInvalidKey.

Definition createKey (index : Z) : string := (allocatedIDsKeyPrefix +:+ Itoa index)%string.

(** ** etcd *)

Class Etcd (S E : Type) := {
  ListValues : S → string → result E (list (result E Identifier));
  ListKeys : S → string → result E (list string);
  PutIfNotExists : S → string → Identifier → S * result E bool;
  etcd_Delete : S → string → S * result E ()
}.

(** ** The allocator *)

Record idAllocator := mkIdAllocator {
  serviceLabel : string;
  allocated : bool;
  ia_ID : Z
}.

Definition newIDAllocator (serviceLabel : string) : idAllocator := mkIdAllocator serviceLabel false 0.

Definition set_allocated (ia : idAllocator) (b : bool) : idAllocator := mkIdAllocator (serviceLabel ia) b (ia_ID ia).
Definition set_ID (ia : idAllocator) (id : Z) : idAllocator := mkIdAllocator (serviceLabel ia) (allocated ia) id.

(** The loop stops at the first entry that does not continue the sequence. *)
Fixpoint findFirst_loop (res : Z) (ids : list Z) : Z :=
  match ids with
  | [] => res
  | v :: ids => if (res =? v)%Z then findFirst_loop (res + 1) ids else res
  end.

Definition findFirstAvailableIndex (ids : list Z) : Z := findFirst_loop 1 ids.

Section allocator.
Context {S E : Type} `{!Etcd S E}.

(** The first value with the label; a value that cannot be decoded before it is
    an error. *)
Fixpoint find_entry (label : string) (items : list (result E Identifier)) : result (AllocError E) (option Identifier) :=
  match items with
  | [] => Ok None
  | Err e :: _ => Err (EtcdError e)
  | Ok item :: items => if bool_decide (Identifier_Name item = label) then Ok (Some item) else find_entry label items
  end.

Definition findExistingEntry (ia : idAllocator) (s : S) : result (AllocError E) (option Identifier) :=
  match ListValues s allocatedIDsKeyPrefix with
  | Err e => Err (EtcdError e)
  | Ok items => find_entry (serviceLabel ia) items
  end.

Fixpoint extract_all (keys : list string) : result (AllocError E) (list Z) :=
  match keys with
  | [] => Ok []
  | key :: keys => id ← extractIndexFromKey key; ids ← extract_all keys; Ok (id :: ids)
  end.

Definition listAllIDs (s : S) : result (AllocError E) (list Z) :=
  match ListKeys s allocatedIDsKeyPrefix with
  | Err e => Err (EtcdError e)
  | Ok keys => extract_all keys
  end.

(** The JSON encoding of the value never fails. *)
Definition writeIfNotExists (ia : idAllocator) (s : S) (id : Z) : S * result (AllocError E) bool :=
  match PutIfNotExists s (createKey id) (mkIdentifier id (serviceLabel ia)) with
  | (s, Ok succeeded) => (s, Ok succeeded)
  | (s, Err e) => (s, Err (EtcdError e))
  end.

(** *** Steps of [getID] *)

(** Where a call of [getID] is: before the search for an existing entry, before
    listing the IDs, or before writing one, with the number of attempts. *)
Inductive AllocPc := PcFind | PcList (attempts : nat) | PcWrite (attempts : nat).

Inductive Outcome := Continue (pc : AllocPc) | Return (r : result (AllocError E) Z).

(** Up to the first access to etcd. *)
Definition getID_begin (ia : idAllocator) : Outcome :=
  if allocated ia then Return (Ok (u8 (ia_ID ia))) else Continue PcFind.

(** One access to etcd and the code up to the next one. *)
Definition getID_step (s : S) (ia : idAllocator) (pc : AllocPc) : S * idAllocator * Outcome :=
  match pc with
  | PcFind =>
    match findExistingEntry ia s with
    | Err e => (s, ia, Return (Err e))
    | Ok (Some existingEntry) =>
      (s, set_ID (set_allocated ia true) (Identifier_Id existingEntry), Return (Ok (u8 (Identifier_Id existingEntry))))
    | Ok None => (s, ia, Continue (PcList 0))
    end
  | PcList attempts =>
    match listAllIDs s with
    | Err e => (s, ia, Return (Err e))
    | Ok ids => (s, set_ID ia (u32 (findFirstAvailableIndex (merge_sort Z.le ids))), Continue (PcWrite (attempts + 1)))
    end
  | PcWrite attempts =>
    match writeIfNotExists ia s (ia_ID ia) with
    | (s, Err e) => (s, ia, Return (Err e))
    | (s, Ok true) => (s, set_allocated ia true, Return (Ok (u8 (ia_ID ia))))
    | (s, Ok false) =>
      (s, ia, if maxAttempts <? attempts then Return (Err errUnableToAllocateID) else Continue (PcList attempts))
    end
  end.

Definition releaseID (s : S) (ia : idAllocator) : S * idAllocator * result (AllocError E) () :=
  if negb (allocated ia) then (s, ia, Err errNoIDallocated)
  else match etcd_Delete s (createKey (ia_ID ia)) with
       | (s, Ok _) => (s, set_allocated ia false, Ok ())
       | (s, Err e) => (s, ia, Err (EtcdError e))
       end.

(** *** The cluster *)

(** A node: its allocator, the call of [getID] it is in (the mutex of the
    allocator excludes a second call), and whether it was closed: only [Close]
    calls [releaseID], once, and nothing else happens until a restart. *)
Record Node := mkNode { node_alloc : idAllocator; node_pc : option AllocPc; node_closed : bool }.

Record Cluster := mkCluster { etcd : S; nodes : gmap string Node }.

Definition finish (ia : idAllocator) (o : Outcome) : Node :=
  mkNode ia (match o with Continue pc => Some pc | Return _ => None end) false.

Inductive cluster_step : Cluster → Cluster → Prop :=
  | step_begin c label node :
      nodes c !! label = Some node → node_pc node = None → node_closed node = false →
      cluster_step c (mkCluster (etcd c) (<[label := finish (node_alloc node) (getID_begin (node_alloc node))]> (nodes c)))
  | step_getID c label node pc s ia o :
      nodes c !! label = Some node → node_pc node = Some pc →
      getID_step (etcd c) (node_alloc node) pc = (s, ia, o) →
      cluster_step c (mkCluster s (<[label := finish ia o]> (nodes c)))
  | step_releaseID c label node s ia r :
      nodes c !! label = Some node → node_pc node = None → node_closed node = false →
      releaseID (etcd c) (node_alloc node) = (s, ia, r) →
      cluster_step c (mkCluster s (<[label := mkNode ia None true]> (nodes c)))
  | step_restart c label node :
      nodes c !! label = Some node →
      cluster_step c (mkCluster (etcd c) (<[label := mkNode (newIDAllocator label) None false]> (nodes c))).

End allocator.

Arguments Cluster S : clear implicits.
Arguments Outcome E : clear implicits.
