(* ===== verification/NodeIdProofs.v ===== *)
(** * Uniqueness of node IDs

    For every interleaving of the allocators of a cluster: two nodes that hold
    an ID (and were not closed) hold different ones, an ID is at most the number of nodes, and every
    call of [getID] ends after a bounded number of accesses to etcd. *)

From Stdlib Require Import ZArith Lia Ascii String.
From stdpp Require Import prelude strings list gmap sorting pretty relations.
From S2P Require Import Prelude GoStrings GoErrors GoNet GoText NodeId.

(** ** Keys *)

Lemma digit_val_char x : (x < 10)%N → digit_val 10 (pretty_N_char x) = Some (Z.of_N x).
Proof.
  intros Hx. destruct x as [|[[[|[|[]|]|]|[[|[]|]|[]|]|]|[[[|[]|]|[|[]|]|]|[[|[]|]|[]|]|]|]]; try reflexivity; exfalso; lia.
Qed.

Lemma parse_pretty_go x s : parse_digits 0 (pretty_N_go x s) = parse_digits (Z.of_N x) s.
Proof.
  revert s. induction (N.lt_wf_0 x) as [x _ IH]. intros s. destruct (decide (0 < x)%N) as [Hx|Hx].
  - rewrite pretty_N_go_step by done. rewrite IH by (apply N.div_lt; lia). cbn [parse_digits].
    rewrite digit_val_char by (apply N.mod_lt; lia). cbn [mbind option_bind]. f_equal.
    rewrite N2Z.inj_div, N2Z.inj_mod. change (Z.of_N 10) with 10%Z. pose proof (Z.div_mod (Z.of_N x) 10). lia.
  - assert (x = 0%N) as -> by lia. by rewrite pretty_N_go_0.
Qed.

Lemma parse_Itoa z : (0 ≤ z)%Z → parse_digits 0 (Itoa z) = Some z.
Proof.
  intros Hz. unfold Itoa. assert (pretty z = pretty (Z.to_N z)) as -> by (destruct z; [done|done|lia]).
  unfold pretty, pretty_N. destruct (decide _) as [He|Hn].
  - assert (z = 0%Z) as -> by lia. reflexivity.
  - rewrite parse_pretty_go. cbn [parse_digits]. f_equal. lia.
Qed.

Lemma Atoi_Itoa z : (0 ≤ z < 2 ^ 63)%Z → Atoi (Itoa z) = Some z.
Proof.
  intros Hz. pose proof (Itoa_nonempty z ltac:(lia)) as Hne. pose proof (parse_Itoa z ltac:(lia)) as Hp.
  pose proof (Itoa_free "-" z dash_not_digit ltac:(lia)) as Hd. pose proof (Itoa_free "+" z plus_not_digit ltac:(lia)) as Hpl.
  unfold Atoi. destruct (Itoa z) as [|c s]; [done|]. apply char_free_head in Hd, Hpl.
  destruct c as [[] [] [] [] [] [] [] []]; try done; rewrite bool_decide_false by done; rewrite Hp; cbn [mbind option_bind];
    rewrite (proj2 (Z.ltb_ge z (- 2 ^ 63))), (proj2 (Z.leb_gt (2 ^ 63) z)) by lia; done.
Qed.

Lemma extractIndex_createKey {E} z : (0 ≤ z < 2 ^ 63)%Z → extractIndexFromKey (E := E) (createKey z) = Ok z.
Proof.
  intros Hz. unfold extractIndexFromKey, createKey. rewrite HasPrefix_app.
  assert (Replace1 (allocatedIDsKeyPrefix +:+ Itoa z) allocatedIDsKeyPrefix "" = Itoa z) as ->.
  { change (allocatedIDsKeyPrefix +:+ Itoa z)%string with (String "a" ("llocatedIDs/" +:+ Itoa z)) at 1.
    cbn [Replace1]. change (String "a" ("llocatedIDs/" +:+ Itoa z)) with (allocatedIDsKeyPrefix +:+ Itoa z)%string.
    by rewrite HasPrefix_app, string_drop_app. }
  by rewrite Atoi_Itoa.
Qed.

Lemma createKey_inj a b : createKey a = createKey b → a = b.
Proof. unfold createKey. intros H%append_inj_l. by apply (inj pretty). Qed.

(** ** The first free number *)

Lemma findFirst_loop_ge res ids : (res ≤ findFirst_loop res ids)%Z.
Proof.
  revert res. induction ids as [|v ids IH]; intros res; simpl; [lia|].
  destruct (Z.eqb_spec res v); [|lia]. specialize (IH (res + 1)%Z). lia.
Qed.

Lemma findFirst_loop_spec res ids : StronglySorted Z.lt ids → Forall (λ v, res ≤ v)%Z ids →
  (findFirst_loop res ids ∉ ids) ∧ (∀ v, (res ≤ v < findFirst_loop res ids)%Z → v ∈ ids) ∧
  (findFirst_loop res ids ≤ res + Z.of_nat (length ids))%Z.
Proof.
  intros Hs. revert res. induction Hs as [|v ids Hs IH Hv]; intros res Hge; simpl.
  { split_and!; [apply not_elem_of_nil|lia|lia]. }
  apply Forall_cons in Hge as [Hrv Hge]. destruct (Z.eqb_spec res v) as [->|Hne].
  - destruct (IH (v + 1)%Z) as (Hn & Hall & Hle).
    { apply Forall_forall. intros w Hw. rewrite Forall_forall in Hv. specialize (Hv w Hw). lia. }
    pose proof (findFirst_loop_ge (v + 1) ids). split_and!.
    + rewrite not_elem_of_cons. split; [lia|done].
    + intros w Hw. rewrite elem_of_cons. destruct (Z.eq_dec w v); [by left|right]. apply Hall. lia.
    + lia.
  - split_and!; [|intros; lia|lia]. rewrite not_elem_of_cons. split; [done|].
    intros Hin. rewrite Forall_forall in Hv. specialize (Hv res Hin). lia.
Qed.

(** Sorting a list without duplicates makes it strictly increasing. *)
Lemma sorted_ids ids : NoDup ids → StronglySorted Z.lt (merge_sort Z.le ids).
Proof.
  intros Hnd. assert (NoDup (merge_sort Z.le ids)) as Hnd' by (by rewrite merge_sort_Permutation).
  pose proof (StronglySorted_merge_sort Z.le ids) as Hs. revert Hnd'.
  induction Hs as [|v l Hs IH Hv]; intros Hn; [constructor|]. apply NoDup_cons in Hn as [Hni Hn].
  constructor; [by apply IH|]. apply Forall_forall. intros w Hw. rewrite Forall_forall in Hv. specialize (Hv w Hw).
  destruct (Z.eq_dec v w) as [->|]; [done|]. lia.
Qed.

(** The lowest positive number that is not taken. *)
Lemma firstAvailable_spec ids : NoDup ids → Forall (λ v, 1 ≤ v)%Z ids →
  let id := findFirstAvailableIndex (merge_sort Z.le ids) in
  (id ∉ ids) ∧ (1 ≤ id ≤ Z.of_nat (length ids) + 1)%Z ∧ ∀ v, (1 ≤ v < id)%Z → v ∈ ids.
Proof.
  intros Hnd Hpos. pose proof (merge_sort_Permutation Z.le ids) as Hp.
  destruct (findFirst_loop_spec 1 (merge_sort Z.le ids)) as (Hn & Hall & Hle); [by apply sorted_ids|by rewrite Hp|].
  unfold findFirstAvailableIndex. pose proof (findFirst_loop_ge 1 (merge_sort Z.le ids)) as Hge.
  rewrite (Permutation_length Hp) in Hle. revert Hn Hall Hle Hge. generalize (findFirst_loop 1 (merge_sort Z.le ids)) as id.
  intros id Hn Hall Hle Hge. cbv zeta. split_and!; [by rewrite Hp in Hn|lia|lia|].
  intros v Hv%Hall. by rewrite Hp in Hv.
Qed.

(** ** etcd *)

(** What the documentation of etcd and of the broker says: listings return the
    keys with the prefix, a conditional put and a delete are atomic. Of an
    operation that fails (a timeout, say) it is not known whether it took place;
    it took place by the time the error is returned, or it never does. *)
Class EtcdLaws (S E : Type) `{!Etcd S E} := {
  etcd_view : S → gmap string Identifier;
  ListValues_ok s p l : ListValues s p = Ok l →
    l ≡ₚ (λ kv, Ok kv.2) <$> filter (λ kv, HasPrefix kv.1 p = true) (map_to_list (etcd_view s));
  ListKeys_ok s p l : ListKeys s p = Ok l →
    l ≡ₚ (filter (λ kv, HasPrefix kv.1 p = true) (map_to_list (etcd_view s))).*1;
  PutIfNotExists_ok s k v s' r : PutIfNotExists s k v = (s', r) →
    match r with
    | Ok true => etcd_view s !! k = None ∧ etcd_view s' = <[k := v]> (etcd_view s)
    | Ok false => is_Some (etcd_view s !! k) ∧ etcd_view s' = etcd_view s
    | Err _ => etcd_view s' = etcd_view s ∨ etcd_view s !! k = None ∧ etcd_view s' = <[k := v]> (etcd_view s)
    end;
  etcd_Delete_ok s k s' r : etcd_Delete s k = (s', r) →
    etcd_view s' = delete k (etcd_view s) ∨ is_ok r = false ∧ etcd_view s' = etcd_view s
}.

(** ** The invariant of the cluster *)

(** The entries of etcd, for a cluster with nodes [labels]: the key has the
    number, numbers do not exceed the number of nodes, a node has one entry. *)
Record entries_ok (labels : gset string) (view : gmap string Identifier) : Prop := {
  eo_entry key e : view !! key = Some e →
    key = createKey (Identifier_Id e) ∧ (1 ≤ Identifier_Id e ≤ Z.of_nat (size labels))%Z ∧ Identifier_Name e ∈ labels;
  eo_unique key key' e e' : view !! key = Some e → view !! key' = Some e' →
    Identifier_Name e = Identifier_Name e' → key = key'
}.

Definition no_entry (label : string) (view : gmap string Identifier) : Prop :=
  ∀ key e, view !! key = Some e → Identifier_Name e ≠ label.

(** A node: an allocated ID is in etcd under the node's name until the node is
    closed; a call that is past the search knows that the node has no entry. *)
Definition node_ok (n : nat) (view : gmap string Identifier) (label : string) (node : Node) : Prop :=
  serviceLabel (node_alloc node) = label ∧
  (allocated (node_alloc node) = true ∨ node_closed node = true → node_pc node = None) ∧
  (allocated (node_alloc node) = true → node_closed node = false →
     view !! createKey (ia_ID (node_alloc node)) = Some (mkIdentifier (ia_ID (node_alloc node)) label)) ∧
  match node_pc node with
  | Some (PcList _) => no_entry label view
  | Some (PcWrite _) => no_entry label view ∧ (1 ≤ ia_ID (node_alloc node) ≤ Z.of_nat n)%Z
  | _ => True
  end.

Section cluster.
Context {S E : Type} `{!Etcd S E, !EtcdLaws S E}.

Record cluster_inv (c : Cluster S) : Prop := {
  ci_size : (Z.of_nat (size (nodes c)) < 2 ^ 32)%Z;
  ci_entries : entries_ok (dom (nodes c)) (etcd_view (etcd c));
  ci_nodes label node : nodes c !! label = Some node → node_ok (size (nodes c)) (etcd_view (etcd c)) label node
}.

Lemma all_prefixed labels view : entries_ok labels view →
  filter (λ kv, HasPrefix kv.1 allocatedIDsKeyPrefix = true) (map_to_list view) = map_to_list view.
Proof.
  intros He. apply filter_all, Forall_forall. intros [k e] Hin%elem_of_map_to_list.
  destruct (eo_entry _ _ He k e Hin) as (-> & _). apply HasPrefix_app.
Qed.

Lemma listAllIDs_spec labels s ids : entries_ok labels (etcd_view s) → (Z.of_nat (size labels) < 2 ^ 32)%Z →
  listAllIDs s = Ok ids → (createKey <$> ids ≡ₚ (map_to_list (etcd_view s)).*1).
Proof.
  intros He Hsz. unfold listAllIDs. destruct (ListKeys s allocatedIDsKeyPrefix) as [keys|] eqn:Hk; [|done].
  apply ListKeys_ok in Hk. rewrite (all_prefixed labels) in Hk by done.
  assert (Forall (λ key, ∃ z, key = createKey z ∧ (0 ≤ z < 2 ^ 63)%Z) keys) as Hkeys.
  { rewrite Hk. apply Forall_forall. intros key ([k e] & -> & Hin%elem_of_map_to_list)%list_elem_of_fmap.
    destruct (eo_entry _ _ He k e Hin) as (-> & Hr & _). exists (Identifier_Id e). split; [done|lia]. }
  intros Hx. rewrite <-Hk. clear Hk. revert ids Hx.
  induction Hkeys as [|key keys (z & -> & Hz) _ IH]; intros ids; cbn [extract_all].
  - intros [= <-]. done.
  - rewrite extractIndex_createKey by done. cbn [mbind result_bind].
    destruct (extract_all keys) as [ids'|]; [|done]. intros [= <-]. rewrite fmap_cons. by rewrite (IH ids').
Qed.

Lemma find_entry_spec label items : (∀ item, item ∈ items → ∃ e, item = Ok e) →
  match find_entry (E := E) label items with
  | Ok (Some e) => Ok e ∈ items ∧ Identifier_Name e = label
  | Ok None => ∀ e, Ok e ∈ items → Identifier_Name e ≠ label
  | Err _ => False
  end.
Proof.
  induction items as [|item items IH]; intros Hall; simpl; [by intros e []%elem_of_nil|].
  destruct (Hall item) as [e ->]; [left|]. case_bool_decide as Hn; [by split; [left|]|].
  specialize (IH (λ i Hi, Hall i ltac:(by right))).
  destruct (find_entry label items) as [[e'|]|]; [|intros e' [[= ->]|Hin]%elem_of_cons; [done|by apply IH]|done].
  destruct IH. split; [by right|done].
Qed.

Lemma findExistingEntry_spec labels (s : S) ia : entries_ok labels (etcd_view s) →
  match findExistingEntry ia s with
  | Ok (Some e) => etcd_view s !! createKey (Identifier_Id e) = Some e ∧ Identifier_Name e = serviceLabel ia
  | Ok None => no_entry (serviceLabel ia) (etcd_view s)
  | Err _ => True
  end.
Proof.
  intros He. unfold findExistingEntry. destruct (ListValues s allocatedIDsKeyPrefix) as [items|] eqn:Hl; [|done].
  apply ListValues_ok in Hl. rewrite (all_prefixed labels) in Hl by done.
  assert (∀ e, Ok e ∈ items ↔ ∃ key, etcd_view s !! key = Some e) as Hin.
  { intros e. rewrite Hl, list_elem_of_fmap. split.
    - intros ([k e'] & [= ->] & Hin%elem_of_map_to_list). by exists k.
    - intros [k Hk]. exists (k, e). by rewrite elem_of_map_to_list. }
  pose proof (find_entry_spec (serviceLabel ia) items) as Hf.
  destruct (find_entry _ items) as [[e|]|].
  - destruct Hf as [[k Hk]%Hin Hn]; [intros item; rewrite Hl; intros (kv & -> & _)%list_elem_of_fmap; eauto|].
    split; [|done]. by destruct (eo_entry _ _ He k e Hk) as (<- & _).
  - intros k e Hk. apply Hf; [intros item; rewrite Hl; intros (kv & -> & _)%list_elem_of_fmap; eauto|]. apply Hin. eauto.
  - done.
Qed.

(** A node without an entry finds a number that is at most the number of nodes. *)
Lemma free_id labels (s : S) ids label : entries_ok labels (etcd_view s) → (Z.of_nat (size labels) < 2 ^ 32)%Z →
  label ∈ labels → no_entry label (etcd_view s) → listAllIDs s = Ok ids →
  (1 ≤ u32 (findFirstAvailableIndex (merge_sort Z.le ids)) ≤ Z.of_nat (size labels))%Z.
Proof.
  intros He Hsz Hlabel Hno Hids. pose proof (listAllIDs_spec _ _ _ He Hsz Hids) as Hp.
  assert (NoDup ids) as Hnd.
  { apply (NoDup_fmap_1 createKey). rewrite Hp. apply NoDup_fst_map_to_list. }
  assert (∀ z, z ∈ ids → ∃ e, etcd_view s !! createKey z = Some e ∧ Identifier_Id e = z) as Hel.
  { intros z Hz. assert (createKey z ∈ createKey <$> ids) as Hk by (by apply list_elem_of_fmap_2).
    rewrite Hp in Hk. apply list_elem_of_fmap in Hk as ([k e] & Hk & Hin%elem_of_map_to_list). simpl in Hk. subst k.
    exists e. split; [done|]. by destruct (eo_entry _ _ He _ _ Hin) as (Heq%createKey_inj & _). }
  assert (length ids + 1 ≤ size labels) as Hlen.
  { assert (Identifier_Name <$> (map_to_list (etcd_view s)).*2 ⊆+ elements (labels ∖ {[label]})) as Hsub.
    { apply NoDup_submseteq.
      - rewrite <-list_fmap_compose. apply NoDup_fmap_2_strong; [|apply NoDup_map_to_list].
        intros [k e] [k' e'] Hk%elem_of_map_to_list Hk'%elem_of_map_to_list Heq. simpl in Heq.
        pose proof (eo_unique _ _ He k k' e e' Hk Hk' Heq). subst k'. congruence.
      - intros x. rewrite <-list_fmap_compose. intros ([k e] & -> & Hin%elem_of_map_to_list)%list_elem_of_fmap.
        rewrite elem_of_elements, elem_of_difference, elem_of_singleton.
        split; [by apply (eo_entry _ _ He k e)|by apply (Hno k e)]. }
    apply submseteq_length in Hsub. rewrite !length_fmap in Hsub.
    change (length (elements (labels ∖ {[label]}))) with (size (labels ∖ {[label]})) in Hsub.
    rewrite size_difference, size_singleton in Hsub by set_solver.
    assert (size labels ≠ 0) by (apply size_non_empty_iff; set_solver).
    apply Permutation_length in Hp. rewrite !length_fmap in Hp. lia. }
  destruct (firstAvailable_spec ids Hnd) as (_ & Hr & _).
  { apply Forall_forall. intros z Hz. destruct (Hel z Hz) as (e & He' & <-).
    destruct (eo_entry _ _ He _ _ He') as (_ & Hr & _). lia. }
  unfold wrap. rewrite Z.mod_small; lia.
Qed.
(** *** Steps preserve the invariant *)

Lemma entries_insert labels view id label : entries_ok labels view → label ∈ labels → no_entry label view →
  (1 ≤ id ≤ Z.of_nat (size labels))%Z → entries_ok labels (<[createKey id := mkIdentifier id label]> view).
Proof.
  intros He Hl Hno Hid. split.
  - intros key e [[<- <-]|[_ Hk]]%lookup_insert_Some; [done|]. by apply (eo_entry _ _ He).
  - intros key key' e e' [[<- <-]|[_ Hk]]%lookup_insert_Some [[<- <-]|[_ Hk']]%lookup_insert_Some Hn; simpl in Hn.
    + done.
    + by apply Hno in Hk'.
    + by apply Hno in Hk.
    + by apply (eo_unique _ _ He key key' e e').
Qed.

Lemma entries_delete labels view key : entries_ok labels view → entries_ok labels (delete key view).
Proof.
  intros He. split.
  - intros k e [_ Hk]%lookup_delete_Some. by apply (eo_entry _ _ He).
  - intros k k' e e' [_ Hk]%lookup_delete_Some [_ Hk']%lookup_delete_Some. by apply (eo_unique _ _ He).
Qed.

Lemma other_insert n view id label label' node : label' ≠ label → view !! createKey id = None →
  node_ok n view label' node → node_ok n (<[createKey id := mkIdentifier id label]> view) label' node.
Proof.
  intros Hne Hfree (Hl & Hc & Ha & Hpc). split_and!; [done|done| |].
  - intros Hal Hcl. pose proof (Ha Hal Hcl) as Hk. rewrite lookup_insert_ne by congruence. done.
  - assert (no_entry label' view → no_entry label' (<[createKey id := mkIdentifier id label]> view)) as Hno.
    { intros Hno key e [[_ <-]|[_ Hk]]%lookup_insert_Some; [simpl; congruence|]. by apply Hno in Hk. }
    destruct (node_pc node) as [[]|]; naive_solver.
Qed.

Lemma other_delete n view key e label label' node : label' ≠ label → view !! key = Some e → Identifier_Name e = label →
  node_ok n view label' node → node_ok n (delete key view) label' node.
Proof.
  intros Hne Hk Hn (Hl & Hc & Ha & Hpc). split_and!; [done|done| |].
  - intros Hal Hcl. pose proof (Ha Hal Hcl) as Hv. rewrite lookup_delete_ne; [done|].
    intros ->. rewrite Hk in Hv. injection Hv as ->. simpl in Hn. congruence.
  - assert (no_entry label' view → no_entry label' (delete key view)) as Hno.
    { intros Hno k e' [_ Hk']%lookup_delete_Some. by apply Hno in Hk'. }
    destruct (node_pc node) as [[]|]; naive_solver.
Qed.

Lemma inv_update c label node s' node' : cluster_inv c → nodes c !! label = Some node →
  entries_ok (dom (nodes c)) (etcd_view s') →
  node_ok (size (nodes c)) (etcd_view s') label node' →
  (∀ label' n', label' ≠ label → node_ok (size (nodes c)) (etcd_view (etcd c)) label' n' →
     node_ok (size (nodes c)) (etcd_view s') label' n') →
  cluster_inv (mkCluster s' (<[label := node']> (nodes c))).
Proof.
  intros Hc Hl He Hn Ho.
  assert (size (<[label := node']> (nodes c)) = size (nodes c)) as Hsz by (apply map_size_insert_Some; eauto).
  split; cbn [nodes etcd].
  - rewrite Hsz. apply Hc.
  - rewrite dom_insert_lookup_L by eauto. done.
  - intros l n. rewrite Hsz. intros [[<- <-]|[Hne Hln]]%lookup_insert_Some; [done|].
    apply Ho; [congruence|]. by apply Hc.
Qed.

(** The same view. *)
Lemma inv_same_view c label node s' node' : cluster_inv c → nodes c !! label = Some node →
  etcd_view s' = etcd_view (etcd c) → node_ok (size (nodes c)) (etcd_view (etcd c)) label node' →
  cluster_inv (mkCluster s' (<[label := node']> (nodes c))).
Proof.
  intros Hc Hl Hv Hn. eapply inv_update; [done..| | |]; rewrite Hv; [apply Hc|done|done].
Qed.

Lemma getID_step_inv c label node pc s ia o : cluster_inv c → nodes c !! label = Some node → node_pc node = Some pc →
  getID_step (etcd c) (node_alloc node) pc = (s, ia, o) →
  cluster_inv (mkCluster s (<[label := finish ia o]> (nodes c))).
Proof.
  intros Hc Hl Hpc. pose proof (ci_nodes c Hc label node Hl) as (Hlab & Hall & _ & Hok). rewrite Hpc in Hok.
  assert (allocated (node_alloc node) = false) as Hna.
  { destruct (allocated (node_alloc node)); [|done]. rewrite Hall in Hpc by (by left). done. }
  assert (label ∈ dom (nodes c)) as Hin by (apply elem_of_dom; eauto).
  assert (Z.of_nat (size (dom (nodes c))) < 2 ^ 32)%Z as Hsz by (rewrite size_dom; apply Hc).
  assert (∀ r, cluster_inv (mkCluster (etcd c) (<[label := finish (node_alloc node) (Return r : Outcome E)]> (nodes c)))) as Hstay.
  { intros r. eapply inv_same_view; [done..|]. split_and!; [done|done| |done]. simpl. by rewrite Hna. }
  destruct pc as [|attempts|attempts]; cbn [getID_step].
  - pose proof (findExistingEntry_spec _ (etcd c) (node_alloc node) (ci_entries c Hc)) as Hf.
    destruct (findExistingEntry (node_alloc node) (etcd c)) as [[e|]|]; intros [= <- <- <-]; [..|apply Hstay].
    + destruct Hf as [Hk Hn]. eapply inv_same_view; [done..|]. split_and!; [done|done| |done]. intros _ _.
      simpl. rewrite Hk. destruct e as [id name]. simpl in *. congruence.
    + eapply inv_same_view; [done..|].
      split_and!; [done|simpl; by rewrite Hna; intros [|]|simpl; by rewrite Hna|by rewrite <-Hlab].
  - destruct (listAllIDs (etcd c)) as [ids|] eqn:Hids; intros [= <- <- <-]; [|apply Hstay].
    eapply inv_same_view; [done..|].
    split_and!; [done|simpl; by rewrite Hna; intros [|]|simpl; by rewrite Hna|]. simpl. split; [done|].
    pose proof (free_id (dom (nodes c)) (etcd c) ids label (ci_entries c Hc) Hsz Hin Hok Hids) as Hf. by rewrite size_dom in Hf.
  - destruct Hok as [Hno Hid]. unfold writeIfNotExists. rewrite Hlab.
    destruct (PutIfNotExists _ _ _) as [s1 r1] eqn:Hput. apply PutIfNotExists_ok in Hput.
    destruct r1 as [[]|e]; intros [= <- <- <-].
    + destruct Hput as [Hfree Hv]. eapply inv_update; [done..| | |]; rewrite Hv.
      * apply entries_insert; [apply Hc|done|done|by rewrite size_dom].
      * split_and!; [done|done| |done]. intros _ _. simpl. apply lookup_insert_eq.
      * intros. by apply other_insert.
    + destruct Hput as [_ Hv]. eapply inv_same_view; [done..|].
      split_and!; [done|simpl; by rewrite Hna; intros [|]|simpl; by rewrite Hna|]. by destruct (maxAttempts <? attempts).
    + assert (∀ view, node_ok (size (nodes c)) view label (finish (node_alloc node) (Return (Err (EtcdError e)) : Outcome E))) as Hself
        by (intros view; split_and!; [done|done|simpl; by rewrite Hna|done]).
      destruct Hput as [Hv|[Hfree Hv]]; [eapply inv_same_view; [done..|apply Hself]|].
      eapply inv_update; [done..| | |]; rewrite Hv.
      * apply entries_insert; [apply Hc|done|done|by rewrite size_dom].
      * apply Hself.
      * intros. by apply other_insert.
Qed.

(** A closed node is no longer bound to its entry. *)
Lemma releaseID_inv c label node s ia r : cluster_inv c → nodes c !! label = Some node → node_closed node = false →
  releaseID (etcd c) (node_alloc node) = (s, ia, r) → cluster_inv (mkCluster s (<[label := mkNode ia None true]> (nodes c))).
Proof.
  intros Hc Hl Hcl Hr. pose proof (ci_nodes c Hc label node Hl) as (Hlab & _ & Hall & _). unfold releaseID in Hr.
  assert (∀ view ia, serviceLabel ia = label → node_ok (size (nodes c)) view label (mkNode ia None true)) as Hself
    by (intros view ia' Hia; by split_and!).
  destruct (allocated (node_alloc node)) eqn:Ha; simpl in Hr.
  - pose proof (Hall eq_refl Hcl) as Hk. destruct (etcd_Delete _ _) as [s1 r1] eqn:Hd. apply etcd_Delete_ok in Hd.
    assert (s = s1 ∧ serviceLabel ia = label) as [-> Hia] by (destruct r1 as [[]|e]; by injection Hr as <- <- <-).
    destruct Hd as [Hd|[_ Hd]]; [|eapply inv_same_view; [done..|by apply Hself]].
    eapply inv_update; [done..| | |]; rewrite Hd; [by apply entries_delete, Hc|by apply Hself|].
    intros. by eapply other_delete.
  - injection Hr as <- <- <-. eapply inv_same_view; [done..|by apply Hself].
Qed.

Lemma cluster_step_inv c c' : cluster_step c c' → cluster_inv c → cluster_inv c'.
Proof.
  intros Hs Hc. destruct Hs as [c label node Hl Hpc Hcl|c label node pc s ia o Hl Hpc Hg|c label node s ia r Hl Hpc Hcl Hr|c label node Hl].
  - pose proof (ci_nodes c Hc label node Hl) as (Hlab & _ & Hall & _). eapply inv_same_view; [done..|].
    unfold getID_begin. split_and!; [done|..|by destruct (allocated (node_alloc node))].
    + intros [Ha|Ha]; [|done]. simpl in *. by rewrite Ha.
    + intros Ha _. by apply Hall.
  - by eapply getID_step_inv.
  - by eapply releaseID_inv.
  - eapply inv_same_view; [done..|]. by split_and!.
Qed.

Lemma cluster_steps_inv c c' : rtc cluster_step c c' → cluster_inv c → cluster_inv c'.
Proof. induction 1 as [|c1 c2 c3 Hs _ IH]; [done|]. intros Hc. by eapply IH, cluster_step_inv. Qed.

End cluster.

(** ** The theorems *)

(** A cluster that starts: allocators are new, etcd holds what earlier runs of
    the same nodes left. *)
Definition cluster_start {S E} `{!Etcd S E, !EtcdLaws S E} (c : Cluster S) : Prop :=
  entries_ok (dom (nodes c)) (etcd_view (etcd c)) ∧
  ∀ label node, nodes c !! label = Some node → node = mkNode (newIDAllocator label) None false.

Lemma cluster_start_inv {S E} `{!Etcd S E, !EtcdLaws S E} (c : Cluster S) :
  (Z.of_nat (size (nodes c)) < 2 ^ 32)%Z → cluster_start c → cluster_inv c.
Proof. intros Hsz [He Hn]. split; [done|done|]. intros label node ->%Hn. by split_and!. Qed.

Lemma distinct_ids {S E} `{!Etcd S E, !EtcdLaws S E} (c0 c : Cluster S) label1 label2 node1 node2 :
  size (nodes c0) ≤ 255 → cluster_start c0 → rtc cluster_step c0 c →
  nodes c !! label1 = Some node1 → nodes c !! label2 = Some node2 → label1 ≠ label2 →
  allocated (node_alloc node1) = true → allocated (node_alloc node2) = true →
  node_closed node1 = false → node_closed node2 = false →
  u8 (ia_ID (node_alloc node1)) ≠ u8 (ia_ID (node_alloc node2)) ∧
  (1 ≤ u8 (ia_ID (node_alloc node1)) ≤ Z.of_nat (size (nodes c0)))%Z.
Proof.
  intros Hsz Hstart Hsteps H1 H2 Hne Ha1 Ha2 Hcl1 Hcl2.
  assert (cluster_inv c) as Hc by (eapply cluster_steps_inv; [done|]; apply cluster_start_inv; [lia|done]).
  assert (size (nodes c) = size (nodes c0)) as Hs.
  { clear -Hsteps. induction Hsteps as [|c1 c2 c3 Hstep _ IH]; [done|]. rewrite IH. destruct Hstep; simpl;
      (eapply map_size_insert_Some; eauto). }
  destruct (ci_nodes c Hc _ _ H1) as (_ & _ & Hn1 & _), (ci_nodes c Hc _ _ H2) as (_ & _ & Hn2 & _).
  pose proof (Hn1 Ha1 Hcl1) as He1. pose proof (Hn2 Ha2 Hcl2) as He2.
  destruct (eo_entry _ _ (ci_entries c Hc) _ _ He1) as (_ & Hr1 & _).
  destruct (eo_entry _ _ (ci_entries c Hc) _ _ He2) as (_ & Hr2 & _). simpl in Hr1, Hr2. rewrite size_dom, Hs in Hr1, Hr2.
  unfold wrap. rewrite !Z.mod_small by lia. split; [|lia].
  intros Heq. rewrite Heq in He1. rewrite He1 in He2. congruence.
Qed.

(** C22. In a cluster of at most 255 nodes, whatever the interleaving of the
    nodes' allocations, releases and restarts, two nodes that hold an ID and
    were not closed since they started hold different ones, also after the
    conversion to [uint8], and the IDs lie between 1 and the number of nodes. At
    the start the allocators are new and etcd holds at most one entry per node,
    numbered up to the number of nodes, under the key of its number; only these
    nodes write the keys of the allocator. The listings of etcd are complete,
    its conditional put and its delete are atomic; one that returns an error
    either took place already or never does. *)
Theorem node_ids_unique {S E} `{!Etcd S E, !EtcdLaws S E} (c0 c : Cluster S) label1 label2 node1 node2 :
  size (nodes c0) ≤ 255 → cluster_start c0 → rtc cluster_step c0 c →
  nodes c !! label1 = Some node1 → nodes c !! label2 = Some node2 → label1 ≠ label2 →
  allocated (node_alloc node1) = true → allocated (node_alloc node2) = true →
  node_closed node1 = false → node_closed node2 = false →
  u8 (ia_ID (node_alloc node1)) ≠ u8 (ia_ID (node_alloc node2)) ∧
  (1 ≤ u8 (ia_ID (node_alloc node1)) ≤ Z.of_nat (size (nodes c0)))%Z.
Proof. apply distinct_ids. Qed.

(** The results of the accesses to etcd a call of [getID] makes, the state of
    etcd before each of them being arbitrary. *)
Fixpoint getID_run {S E} `{!Etcd S E} (stores : list S) (ia : idAllocator) (pc : AllocPc) : option (result (AllocError E) Z) :=
  match stores with
  | [] => None
  | s :: stores =>
    match getID_step s ia pc with
    | (_, _, Return r) => Some r
    | (_, ia, Continue pc) => getID_run stores ia pc
    end
  end.

(** The accesses that may still follow. *)
Definition pc_measure (pc : AllocPc) : nat :=
  match pc with
  | PcFind => 1 + 2 * (maxAttempts + 1)
  | PcList attempts => 2 * (maxAttempts + 1 - attempts)
  | PcWrite attempts => 2 * (maxAttempts + 1 - attempts) + 1
  end.

Definition pc_attempts (pc : AllocPc) : Prop :=
  match pc with PcFind => True | PcList a => a ≤ maxAttempts | PcWrite a => a ≤ maxAttempts + 1 end.

Lemma getID_step_measure {S E} `{!Etcd S E} (s : S) ia pc s' ia' pc' : pc_attempts pc →
  getID_step s ia pc = (s', ia', Continue pc') → pc_attempts pc' ∧ pc_measure pc' < pc_measure pc.
Proof.
  unfold pc_attempts. destruct pc as [|a|a]; cbn [getID_step]; intros Ha.
  - destruct (findExistingEntry ia s) as [[e|]|]; intros [= _ _ <-]. unfold pc_measure, maxAttempts. lia.
  - destruct (listAllIDs s) as [ids|]; intros [= _ _ <-]. unfold pc_measure, maxAttempts in *. lia.
  - destruct (writeIfNotExists ia s (ia_ID ia)) as [s1 [[]|e]]; try done.
    destruct (Nat.ltb_spec maxAttempts a); intros [= _ _ <-]. unfold pc_measure, maxAttempts in *. lia.
Qed.

(** C35. [getID] ends: after at most 23 accesses to etcd a call returns an ID or
    an error, whatever the other nodes do between the accesses and whatever
    etcd answers. *)
Theorem getID_terminates {S E} `{!Etcd S E} (stores : list S) (ia : idAllocator) :
  23 ≤ length stores → is_Some (getID_run stores ia PcFind).
Proof.
  assert (∀ pc ia, pc_attempts pc → pc_measure pc ≤ length stores → 0 < length stores → is_Some (getID_run stores ia pc)) as Hgen.
  { induction stores as [|s stores IH]; intros pc ia' Ha Hm Hl; simpl in *; [lia|].
    destruct (getID_step s ia' pc) as [[s' ia''] [pc'|r]] eqn:Hs; [|done].
    apply getID_step_measure in Hs as [Ha' Hlt]; [|done]. apply IH; [done|lia|].
    assert (0 < pc_measure pc') by (destruct pc'; simpl in *; unfold maxAttempts in *; lia). lia. }
  intros Hl. apply Hgen; [done|unfold pc_measure, maxAttempts; lia|lia].
Qed.

(** ** etcd as a map *)

Definition etcd_in_map (E : Type) : Etcd (gmap string Identifier) E := {|
  ListValues s p := Ok ((λ kv, Ok kv.2) <$> filter (λ kv, HasPrefix kv.1 p = true) (map_to_list s));
  ListKeys s p := Ok (filter (λ kv, HasPrefix kv.1 p = true) (map_to_list s)).*1;
  PutIfNotExists s k v := match s !! k with None => (<[k := v]> s, Ok true) | Some _ => (s, Ok false) end;
  etcd_Delete s k := (delete k s, Ok ())
|}.

#[global] Instance map_etcd : Etcd (gmap string Identifier) unit := etcd_in_map unit.

#[refine] Definition etcd_in_map_laws (E : Type) : @EtcdLaws (gmap string Identifier) E (etcd_in_map E) := {| etcd_view s := s |}.
Proof.
  - by intros s p l [= <-].
  - by intros s p l [= <-].
  - simpl. intros s k v s' r. destruct (s !! k) eqn:Hk; intros [= <- <-]; eauto.
  - intros s k s' r [= <- <-]. by left.
Defined.

#[global] Instance map_etcd_laws : EtcdLaws (gmap string Identifier) unit := etcd_in_map_laws unit.

(** Two nodes race: both list the IDs before one of them writes. *)
Definition fresh_node (label : string) : Node := mkNode (newIDAllocator label) None false.
Definition race0 : Cluster (gmap string Identifier) :=
  mkCluster ∅ {[ "n1"%string := fresh_node "n1"; "n2"%string := fresh_node "n2" ]}.

(** One step of the node: the begin of a call or the next access. *)
Definition advance (label : string) (c : Cluster (gmap string Identifier)) : Cluster (gmap string Identifier) :=
  match nodes c !! label with
  | Some node =>
    match node_pc node with
    | None => mkCluster (etcd c) (<[label := finish (node_alloc node) (getID_begin (E := unit) (node_alloc node))]> (nodes c))
    | Some pc => let '(s, ia, o) := getID_step (etcd c) (node_alloc node) pc in
                 mkCluster s (<[label := finish ia o]> (nodes c))
    end
  | None => c
  end.

Lemma advance_step label c : node_closed <$> nodes c !! label = Some false → cluster_step c (advance label c).
Proof.
  intros (node & Hl & Hcl)%fmap_Some. unfold advance. rewrite Hl. destruct (node_pc node) as [pc|] eqn:Hpc.
  - destruct (getID_step _ _ _) as [[s ia] o] eqn:Hg. by eapply step_getID.
  - by eapply step_begin.
Qed.

Definition schedule : list string :=
  ["n1"; "n1"; "n1"; "n2"; "n2"; "n2"; "n1"; "n2"; "n2"; "n2"]%string.
Definition race_end : Cluster (gmap string Identifier) := foldl (λ c l, advance l c) race0 schedule.

Lemma race0_start : cluster_start race0.
Proof.
  split.
  - change (etcd_view (etcd race0)) with (∅ : gmap string Identifier).
    split; [by intros ? ? ?%lookup_empty_Some|by intros ? ? ? ? ?%lookup_empty_Some].
  - intros label node. unfold race0. cbn [nodes].
    by intros [[<- <-]|[_ [<- <-]%lookup_singleton_Some]]%lookup_insert_Some.
Qed.

Lemma node_ids_unique_witness :
  ∃ node1 node2, nodes race_end !! "n1"%string = Some node1 ∧ nodes race_end !! "n2"%string = Some node2 ∧
    u8 (ia_ID (node_alloc node1)) ≠ u8 (ia_ID (node_alloc node2)).
Proof.
  set (node1 := mkNode (mkIdAllocator "n1" true 1) None false). set (node2 := mkNode (mkIdAllocator "n2" true 2) None false).
  assert (nodes race_end !! "n1"%string = Some node1) as H1 by (vm_compute; reflexivity).
  assert (nodes race_end !! "n2"%string = Some node2) as H2 by (vm_compute; reflexivity).
  exists node1, node2. split; [exact H1|]. split; [exact H2|].
  apply (node_ids_unique race0 race_end "n1" "n2" node1 node2); [vm_compute; lia| | |exact H1|exact H2|done..].
  - apply race0_start.
  - unfold race_end, schedule. cbn [foldl].
    do 10 (eapply rtc_r; [|apply advance_step; vm_compute; reflexivity]). apply rtc_refl.
Defined.

Lemma getID_terminates_witness : is_Some (getID_run (replicate 23 (etcd race_end)) (newIDAllocator "n3") PcFind).
Proof. apply getID_terminates. rewrite length_replicate. lia. Defined.

(** An ID above 255 is truncated: the node with ID 257 uses the host ID of the
    node with ID 1. *)
Example node_id_truncated :
  let store := {[ createKey 1 := mkIdentifier 1 "n1"; createKey 257 := mkIdentifier 257 "n257" ]} : gmap string Identifier in
  getID_run [store] (newIDAllocator "n257") PcFind = Some (Ok 1%Z) ∧
  getID_run [store] (newIDAllocator "n1") PcFind = Some (Ok 1%Z).
Proof. vm_compute. auto. Qed.
