(* ===== verification/Codecs.v ===== *)
(** * Round trips and orders

    The encodings of the program and their inverses: keys of the data store,
    texts of IDs, node keys, IPv4 addresses, ACL rules; and the orders of rules
    that the ordered lists of the caches depend on. *)

From Stdlib Require Import ZArith Lia Ascii String.
From stdpp Require Import prelude strings list gmap sorting.
From S2P Require Import Prelude Slots GoStrings GoErrors GoNet KsrModel Utils Rules SessionRules SessionCache AclRenderer AclResync Ipam IpamProofs NodeId NodeIdProofs.

Lemma mapM_fmap_inverse {A B} (f : A → B) (g : B → option A) l :
  Forall (λ x, g (f x) = Some x) l → mapM g (f <$> l) = Some l.
Proof. induction 1 as [|x l Hx _ IH]; [done|]. rewrite fmap_cons. cbn [mapM]. by rewrite Hx, IH. Qed.

Lemma node_keys_roundtrip (E : Type) (id id' : Z) :
  (0 ≤ id < 2 ^ 32)%Z → extractIndexFromKey (E := E) (createKey id) = Ok id ∧ (createKey id = createKey id' → id = id').
Proof. intros Hid. split; [apply extractIndex_createKey; lia|apply createKey_inj]. Qed.

Lemma ids_roundtrip (pods : list PodID) (policies : list PolicyID) :
  Forall (λ p, no_slash (PodID_Name p) ∧ no_slash (PodID_Namespace p)) pods →
  Forall (λ p, no_slash (PolicyID_Name p) ∧ no_slash (PolicyID_Namespace p)) policies →
  UnstringPodID (StringPodID pods) = Some pods ∧ UnstringPolicyID (StringPolicyID policies) = Some policies.
Proof.
  intros Hpods Hpols. split; apply mapM_fmap_inverse;
    [eapply Forall_impl; [exact Hpods|]|eapply Forall_impl; [exact Hpols|]];
    intros [] [Hn Hs]; simpl in *; by rewrite split_id_text.
Qed.

(** C38. The keys of the data store: parsing inverts the construction for names
    without slashes, only constructed keys parse, and a key is never taken for
    one of another kind (a namespace, a pod or a policy); pod and policy IDs
    survive the conversion to the texts the indexes of the policy cache store; the
    key of a node ID, a [uint32], parses to the number that was written, and
    different numbers have different keys. *)
Theorem ksr_keys_roundtrip :
  (∀ ns, no_slash ns → ParseNamespaceFromKey (namespace_Key ns) = Some ns ∧
     ParsePodFromKey (namespace_Key ns) = None ∧ ParsePolicyFromKey (namespace_Key ns) = None) ∧
  (∀ name ns, no_slash name → no_slash ns →
     ParsePodFromKey (pod_Key name ns) = Some (name, ns) ∧ ParsePolicyFromKey (policy_Key name ns) = Some (name, ns) ∧
     ParsePolicyFromKey (pod_Key name ns) = None ∧ ParsePodFromKey (policy_Key name ns) = None ∧
     ParseNamespaceFromKey (pod_Key name ns) = None ∧ ParseNamespaceFromKey (policy_Key name ns) = None) ∧
  (∀ key ns, ParseNamespaceFromKey key = Some ns → key = namespace_Key ns) ∧
  (∀ key name ns, ParsePodFromKey key = Some (name, ns) → key = pod_Key name ns) ∧
  (∀ key name ns, ParsePolicyFromKey key = Some (name, ns) → key = policy_Key name ns) ∧
  (∀ pods policies, Forall (λ p, no_slash (PodID_Name p) ∧ no_slash (PodID_Namespace p)) pods →
     Forall (λ p, no_slash (PolicyID_Name p) ∧ no_slash (PolicyID_Namespace p)) policies →
     UnstringPodID (StringPodID pods) = Some pods ∧ UnstringPolicyID (StringPolicyID policies) = Some policies) ∧
  (∀ (E : Type) (id id' : Z), (0 ≤ id < 2 ^ 32)%Z →
     extractIndexFromKey (E := E) (createKey id) = Ok id ∧ (createKey id = createKey id' → id = id')).
Proof.
  split_and!; [..|exact ids_roundtrip|exact node_keys_roundtrip].
  - intros ns Hns. split_and!; [|by apply parse_scoped_key_namespace..].
    unfold ParseNamespaceFromKey, namespace_Key. by rewrite HasPrefix_app, TrimPrefix_app, Split_free.
  - intros name ns Hname Hns. unfold ParsePodFromKey, ParsePolicyFromKey. rewrite pod_Key_eq, policy_Key_eq.
    rewrite !parse_scoped_key_build by done. split_and!; [done|done|..].
    1-2: unfold parse_scoped_key; rewrite HasPrefix_app, TrimPrefix_app, !Split_app, Split_free by done; done.
    all: unfold ParseNamespaceFromKey; rewrite HasPrefix_app, TrimPrefix_app, !Split_app by done; done.
  - exact ParseNamespaceFromKey_inv.
  - intros key name ns (-> & _)%parse_scoped_key_inv. by rewrite pod_Key_eq.
  - intros key name ns (-> & _)%parse_scoped_key_inv. by rewrite policy_Key_eq.
Qed.

(** C39. IPv4 addresses and their [uint32] numbers convert into each other without
    loss, at the full width. *)
Theorem ipv4_roundtrip (v : Z) (ip : IP) :
  (0 ≤ v < 2 ^ 32)%Z → length ip = 4 → wf_bytes ip →
  ipv4ToUint32 (uint32ToIpv4 v) = Ok v ∧
  ∃ w, ipv4ToUint32 ip = Ok w ∧ (0 ≤ w < 2 ^ 32)%Z ∧ uint32ToIpv4 w = ip.
Proof.
  intros Hv Hl Hw. split; [by apply ipv4ToUint32_ToIpv4|].
  destruct (bytes_u32 ip Hl Hw) as (w & Hr & ->). exists w. by rewrite ipv4ToUint32_ToIpv4.
Qed.

Lemma ipv4_roundtrip_witness : ipv4ToUint32 (uint32ToIpv4 4294967295) = Ok 4294967295%Z.
Proof. apply (ipv4_roundtrip 4294967295 [10; 1; 5; 2]%Z); [lia|done|]. repeat constructor; lia. Defined.

(** A list of rules rendered as an ACL and dumped from VPP is the same list:
    the resynchronisation reads back what was configured. *)
Theorem acl_rules_roundtrip (rules : list ContivRule) :
  Forall plain_rule rules → dump_rules (render_rule <$> rules) = Some rules.
Proof. apply dump_render_rules. Qed.

Definition example_rules : list ContivRule :=
  [mkContivRule "" ActionPermit (mkIPNet [10; 1; 0; 0]%Z [255; 255; 0; 0]%Z) emptyIPNet TCP 0 80;
   mkContivRule "" ActionDeny emptyIPNet emptyIPNet UDP 0 0].

Lemma acl_rules_roundtrip_witness : dump_rules (render_rule <$> example_rules) = Some example_rules.
Proof.
  apply acl_rules_roundtrip. apply Forall_cons; split; [|apply Forall_cons; split; [|by constructor]];
    (split_and!; [..|unfold plain_port; simpl; lia|unfold plain_port; simpl; lia]); try (by left).
  right. exists 16. vm_compute. intuition (repeat constructor; congruence).
Defined.

(** C40. [Compare] of Contiv rules and of session rules (with the tag) is a total
    order: it is reflexive exactly on equal rules, antisymmetric and
    transitive, so sorting and binary search by it are well defined. *)
Theorem rule_orders_total :
  (∀ a b, ContivRule_Compare a b = Eq ↔ a = b) ∧
  (∀ a b, ContivRule_Compare b a = CompOpp (ContivRule_Compare a b)) ∧
  (∀ a b c, ContivRule_Compare a b = Lt → ContivRule_Compare b c = Lt → ContivRule_Compare a c = Lt) ∧
  (∀ a b, SessionRule_Compare a b true = Eq ↔ a = b) ∧
  (∀ a b, SessionRule_Compare b a true = CompOpp (SessionRule_Compare a b true)) ∧
  (∀ a b c, SessionRule_Compare a b true = Lt → SessionRule_Compare b c true = Lt → SessionRule_Compare a c true = Lt).
Proof.
  pose proof SessionRule_Compare_total as [H1 H2 H3].
  split_and!; [apply (cmp_eq ContivRule_Compare)|apply (cmp_opp ContivRule_Compare)|apply (cmp_trans ContivRule_Compare)|done..].
Qed.

(** The ordered list of session rules: inserting never panics and keeps the
    list sorted, without two rules of the same key and without unused slots;
    [Diff] of two such lists returns exactly the rules of one that are not in
    the other. *)
Theorem session_list_diff (srl srl2 : SessionRuleList) (rs : list SessionRule) :
  srl_wf srl → srl_wf srl2 →
  ∃ srl' ok, Insert srl rs = Some (srl', ok) ∧ srl_wf srl' ∧
    (∀ r, r ∈ srl_list srl → r ∈ srl_list srl') ∧ (∀ r, r ∈ srl_list srl' → r ∈ srl_list srl ∨ r ∈ rs) ∧
    (∀ r, r ∈ rs → SessionRule_key r ∈ SessionRule_key <$> srl_list srl') ∧
    ∃ added removed, Diff srl' srl2 = Some (Some <$> added, Some <$> removed) ∧ NoDup added ∧ NoDup removed ∧
      (∀ r, r ∈ added ↔ r ∈ srl_list srl' ∧ (r ∉ srl_list srl2)) ∧
      (∀ r, r ∈ removed ↔ r ∈ srl_list srl2 ∧ (r ∉ srl_list srl')).
Proof.
  intros H1 H2. destruct (Insert_wf srl rs H1) as (srl' & ok & Hi & Hw & Hadd).
  exists srl', ok. split; [done|]. split; [done|]. split_and!.
  - intros r. by apply (add_rules_mono _ _ _ r Hadd).
  - intros r. by apply (add_rules_elem _ _ _ r Hadd).
  - intros r Hr. apply (add_rules_keys _ _ _ _ Hadd). right. by apply list_elem_of_fmap_2.
  - eexists _, _. split; [by apply Diff_wf|]. split_and!.
    + by apply rules_minus_NoDup, srl_wf_NoDup.
    + by apply rules_minus_NoDup, srl_wf_NoDup.
    + intros r. apply elem_of_rules_minus.
    + intros r. apply elem_of_rules_minus.
Qed.

Lemma session_list_diff_witness : ∃ srl' ok, Insert NewSessionRuleList [] = Some (srl', ok) ∧ srl_wf srl'.
Proof.
  destruct (session_list_diff NewSessionRuleList NewSessionRuleList [] new_wf new_wf) as (srl' & ok & Hi & Hw & _).
  by exists srl', ok.
Defined.
