(* ===== verification/PolicyCache.v ===== *)
(** * The policy cache

    plugins/policy/cache: the state of Kubernetes (policies, pods, namespaces)
    in three indexed maps, lookups by label selectors, and the propagation of
    change and resync events to the watchers.

    The indexed maps are [idxmap] of cn-infra: the class [NamedMapping], whose
    [Put] gets the result of the index function. [ListNames] may return nil
    ([None]), which the code tells from an empty slice. A watcher is the class
    [PolicyCacheWatcher]: its state and the reaction to an event, which may read
    the cache. [None] as a result of an operation is a panic. *)

From Stdlib Require Import ZArith Lia Ascii String.
From stdpp Require Import prelude strings list gmap.
From S2P Require Import Prelude GoStrings GoErrors GoNet KsrModel Utils.

(** ** Indexed maps *)

Abbreviation Indexes := (gmap string (list string)) (only parsing).

Class NamedMapping (M V : Type) := {
  NewNamedMapping : M;
  Put : M → string → V → Indexes → M;
  nm_Delete : M → string → M * option V;
  GetValue : M → string → option V;
  ListNames : M → string → string → option (list string);
  ListAllNames : M → list string
}.

(** *** podidx *)

Definition podLabelSelectorKey : string := "podLabelSelectorKey".
Definition podKeySelectorKey : string := "podKeySelectorKey".
Definition podNSKeySelectorKey : string := "podNamespaceKey".
Definition podNSLabelSelectorKey : string := "podNamespaceLabelKey".
Definition podNamespace : string := "podNamespace".

Definition label_text (l : Label) : string := (Label_Key l +:+ "/" +:+ Label_Value l)%string.
Definition ns_label_text (namespace : string) (l : Label) : string := (namespace +:+ "/" +:+ label_text l)%string.

Definition pod_IndexFunction `{RangeOracle} (config : Pod) : Indexes :=
  let labels := label_text <$> Pod_Label config in
  let keys := RemoveDuplicates [61]%Z (Label_Key <$> Pod_Label config) in
  let nsLabels := ns_label_text (Pod_Namespace config) <$> Pod_Label config in
  let nsKeys := RemoveDuplicates [62]%Z ((λ v, Pod_Namespace config +:+ "/" +:+ Label_Key v)%string <$> Pod_Label config) in
  <[podNSKeySelectorKey := nsKeys]> (<[podNSLabelSelectorKey := nsLabels]> (<[podNamespace := [Pod_Namespace config]]>
    (<[podKeySelectorKey := keys]> (<[podLabelSelectorKey := labels]> ∅)))).

Section podidx.
Context `{RangeOracle} {M : Type} `{!NamedMapping M Pod}.

Definition RegisterPod (ci : M) (podID : string) (data : Pod) : M := Put ci podID data (pod_IndexFunction data).
Definition UnregisterPod (ci : M) (podID : string) : M * option Pod := nm_Delete ci podID.
Definition podidx_LookupPod (ci : M) (podID : string) : option Pod := GetValue ci podID.
Definition podidx_LookupPodsByLabelSelector (ci : M) (podLabelSelector : string) : option (list string) :=
  ListNames ci podLabelSelectorKey podLabelSelector.
Definition podidx_LookupPodsByLabelKey (ci : M) (podKeySelector : string) : option (list string) :=
  ListNames ci podKeySelectorKey podKeySelector.
(** The parameter [podNamespace] hides the constant: it is the name of the index
    and the value. *)
Definition podidx_LookupPodsByNamespace (ci : M) (podNamespace : string) : option (list string) :=
  ListNames ci podNamespace podNamespace.
Definition podidx_LookupPodsByNSLabelSelector (ci : M) (podNSLabelSelector : string) : option (list string) :=
  ListNames ci podNSLabelSelectorKey podNSLabelSelector.
Definition podidx_LookupPodsByNSKey (ci : M) (podNSKeySelector : string) : option (list string) :=
  ListNames ci podNSKeySelectorKey podNSKeySelector.
End podidx.

(** *** policyidx *)

Definition policyPodLabelKey : string := "policyPodLabelKey".
Definition policyPodNSLabelKey : string := "policyPodNSLabelKey".

(** [None]: [config.Pods] is nil. *)
Definition policy_IndexFunction (config : Policy) : option Indexes :=
  pods ← Policy_Pods config;
  Some (<[policyPodNSLabelKey := ns_label_text (Policy_Namespace config) <$> LS_MatchLabel pods]>
    (<[policyPodLabelKey := label_text <$> LS_MatchLabel pods]> (∅ : Indexes))).

Section policyidx.
Context {M : Type} `{!NamedMapping M Policy}.

Definition RegisterPolicy (ci : M) (policyID : string) (data : Policy) : option M :=
  ix ← policy_IndexFunction data; Some (Put ci policyID data ix).
Definition UnregisterPolicy (ci : M) (policyID : string) : M * option Policy := nm_Delete ci policyID.
Definition policyidx_LookupPolicy (ci : M) (policyID : string) : option Policy := GetValue ci policyID.
Definition LookupPolicyByLabelSelector (ci : M) (policyLabelSelector : string) : option (list string) :=
  ListNames ci policyPodLabelKey policyLabelSelector.
Definition LookupPolicyByNSLabelSelector (ci : M) (policyNSLabelSelector : string) : option (list string) :=
  ListNames ci policyPodNSLabelKey policyNSLabelSelector.
End policyidx.

(** *** namespaceidx *)

Definition namespaceLabelSelectorKey : string := "namespaceLabelSelectorKey".

Definition namespace_IndexFunction (config : Namespace) : Indexes :=
  {[ namespaceLabelSelectorKey := label_text <$> Namespace_Label config ]}.

Section namespaceidx.
Context {M : Type} `{!NamedMapping M Namespace}.

Definition RegisterNamespace (ci : M) (namespaceID : string) (data : Namespace) : M :=
  Put ci namespaceID data (namespace_IndexFunction data).
Definition UnRegisterNamespace (ci : M) (namespaceID : string) : M * option Namespace := nm_Delete ci namespaceID.
Definition namespaceidx_LookupNamespace (ci : M) (namespaceID : string) : option Namespace := GetValue ci namespaceID.
Definition namespaceidx_LookupNamespacesByLabelSelector (ci : M) (namespaceLabelSelector : string) : option (list string) :=
  ListNames ci namespaceLabelSelectorKey namespaceLabelSelector.
End namespaceidx.

(** ** The cache *)

Section cache.
Context `{RangeOracle} {MP MO MN : Type} `{!NamedMapping MP Policy, !NamedMapping MO Pod, !NamedMapping MN Namespace}.

(** The maps of the cache; the watchers are a separate argument of the
    operations that notify them. *)
Record PolicyCache := mkPolicyCache {
  configuredPolicies : MP;
  configuredPods : MO;
  configuredNamespaces : MN
}.

Definition Cache_New : PolicyCache := mkPolicyCache NewNamedMapping NewNamedMapping NewNamedMapping.

Definition set_policies (pc : PolicyCache) (m : MP) : PolicyCache :=
  mkPolicyCache m (configuredPods pc) (configuredNamespaces pc).
Definition set_pods (pc : PolicyCache) (m : MO) : PolicyCache :=
  mkPolicyCache (configuredPolicies pc) m (configuredNamespaces pc).
Definition set_namespaces (pc : PolicyCache) (m : MN) : PolicyCache :=
  mkPolicyCache (configuredPolicies pc) (configuredPods pc) m.

(** [if !found { return !found, nil }]: an unknown pod is reported as found. *)
Definition cache_LookupPod (pc : PolicyCache) (pod : PodID) : bool * option Pod :=
  match podidx_LookupPod (configuredPods pc) (PodID_String pod) with
  | None => (true, None)
  | Some data => (true, Some data)
  end.

Definition cache_LookupPolicy (pc : PolicyCache) (policy : PolicyID) : bool * option Policy :=
  match policyidx_LookupPolicy (configuredPolicies pc) (PolicyID_String policy) with
  | None => (true, None)
  | Some data => (true, Some data)
  end.

Definition cache_LookupNamespace (pc : PolicyCache) (namespace : NamespaceID) : bool * option Namespace :=
  match namespaceidx_LookupNamespace (configuredNamespaces pc) namespace with
  | None => (true, None)
  | Some data => (true, Some data)
  end.

(** *** match_label.go *)

(** The loop over the labels from the second one: the sets of the previous
    label, of this label, and the result. *)
Fixpoint label_loop (lookup : string → option (list string)) (text : Label → string) (labels : list Label)
    (prevPodSet newPodSet : list string) : bool * list string :=
  match labels with
  | [] => (true, newPodSet)
  | l :: labels =>
    let podSet := default [] (lookup (text l)) in
    let tmp := Intersect prevPodSet podSet in
    if length tmp =? 0 then (false, []) else label_loop lookup text labels podSet tmp
  end.

(** The pods that have the labels; [None]: no label. *)
Definition pods_by_labels (lookup : string → option (list string)) (text : Label → string) (labels : list Label) :
    option (bool * list string) :=
  match labels with
  | [] => None
  | [l] => Some (true, default [] (lookup (text l)))
  | l :: labels => Some (label_loop lookup text labels (default [] (lookup (text l))) [])
  end.

Definition getPodsByNSLabelSelector (pc : PolicyCache) (namespace : string) (labels : list Label) :
    option (bool * list string) :=
  pods_by_labels (podidx_LookupPodsByNSLabelSelector (configuredPods pc)) (ns_label_text namespace) labels.

Definition getPodsByLabelSelector (pc : PolicyCache) (labels : list Label) : option (bool * list string) :=
  pods_by_labels (podidx_LookupPodsByLabelSelector (configuredPods pc)) label_text labels.

(** *** match_expression.go *)

(** [append(s, l...)] of a slice that may be nil. *)
Definition go_append (s : option (list string)) (l : list string) : option (list string) :=
  match s, l with None, [] => None | _, _ => Some (default [] s ++ l) end.

(** The sets collected by the loop; [inr] is an early return. *)
Record ExprSets := mkExprSets {
  inPodSet : option (list string);
  notInPodSet : option (list string);
  existsPodSet : option (list string);
  notExistPodSet : option (list string)
}.

Definition expression_step (pc : PolicyCache) (namespace : string) (s : ExprSets) (e : LabelExpression) :
    option (option ExprSets) :=
  let all := podidx_LookupPodsByNamespace (configuredPods pc) namespace in
  let key := (namespace +:+ "/" +:+ LE_Key e)%string in
  match LE_Operator e with
  | OpIn =>
    '(isMatch, podSet) ← getPodsByNSLabelSelector pc namespace (ConstructLabels (LE_Key e) (LE_Value e));
    Some (if negb isMatch then None
          else Some (mkExprSets (go_append (inPodSet s) podSet) (notInPodSet s) (existsPodSet s) (notExistPodSet s)))
  | OpNotIn =>
    '(isMatch, podSet) ← getPodsByNSLabelSelector pc namespace (ConstructLabels (LE_Key e) (LE_Value e));
    let upd l := mkExprSets (inPodSet s) l (existsPodSet s) (notExistPodSet s) in
    Some (if negb isMatch then
            match all with None => None | Some l => Some (upd (go_append (notInPodSet s) l)) end
          else
            match go_append (notInPodSet s) (Difference (default [] all) podSet) with
            | None => None
            | l => Some (upd l)
            end)
  | OpExists =>
    Some (match podidx_LookupPodsByNSKey (configuredPods pc) key with
          | None => None
          | Some l => Some (mkExprSets (inPodSet s) (notInPodSet s) (go_append (existsPodSet s) l) (notExistPodSet s))
          end)
  | OpDoesNotExist =>
    let upd l := mkExprSets (inPodSet s) (notInPodSet s) (existsPodSet s) l in
    Some (match podidx_LookupPodsByNSKey (configuredPods pc) key with
          | None => match all with None => None | Some l => Some (upd (go_append (notExistPodSet s) l)) end
          | Some podSet =>
            match go_append (notExistPodSet s) (Difference (default [] all) podSet) with
            | None => None
            | l => Some (upd l)
            end
          end)
  end.

Fixpoint expression_loop (pc : PolicyCache) (namespace : string) (s : ExprSets) (es : list LabelExpression) :
    option (option ExprSets) :=
  match es with
  | [] => Some (Some s)
  | e :: es => r ← expression_step pc namespace s e;
               match r with None => Some None | Some s => expression_loop pc namespace s es end
  end.

(** The four sets after the loop are all made from the first one. *)
Definition getMatchExpressionPods (pc : PolicyCache) (namespace : string) (expressions : list LabelExpression) :
    option (bool * list string) :=
  r ← expression_loop pc namespace (mkExprSets None None None None) expressions;
  Some (match r with
        | None => (false, [])
        | Some s =>
          let inPodSet := RemoveDuplicates [63]%Z (default [] (inPodSet s)) in
          let notInPodSet := RemoveDuplicates [64]%Z inPodSet in
          let existsPodSet := RemoveDuplicates [65]%Z inPodSet in
          let notExistPodSet := RemoveDuplicates [66]%Z inPodSet in
          let inMatcher := Intersect inPodSet notInPodSet in
          let existsMatcher := Intersect existsPodSet notExistPodSet in
          (true, Intersect inMatcher existsMatcher)
        end).

(** *** cache_impl.go: lookups *)

Definition cache_LookupPodsByNSLabelSelector (pc : PolicyCache) (policyNamespace : string)
    (podLabelSelector : option LabelSelector) : option (list PodID) :=
  match podLabelSelector with
  | None => UnstringPodID (default [] (podidx_LookupPodsByNamespace (configuredPods pc) policyNamespace))
  | Some sel =>
    match LS_MatchLabel sel, LS_MatchExpression sel with
    | _ :: _, [] =>
      '(found, pods) ← getPodsByNSLabelSelector pc policyNamespace (LS_MatchLabel sel);
      if negb found then Some [] else UnstringPodID pods
    | [], _ :: _ =>
      '(found, pods) ← getMatchExpressionPods pc policyNamespace (LS_MatchExpression sel);
      if negb found then Some [] else UnstringPodID pods
    | _ :: _, _ :: _ =>
      '(foundMlPods, mlPods) ← getPodsByNSLabelSelector pc policyNamespace (LS_MatchLabel sel);
      if negb foundMlPods then Some []
      else
        '(foundMePods, mePods) ← getMatchExpressionPods pc policyNamespace (LS_MatchExpression sel);
        if negb foundMePods then Some [] else UnstringPodID (Intersect mlPods mePods)
    | [], [] => Some []
    end
  end.

(** Not implemented: nil. *)
Definition cache_LookupPodsByLabelSelector (pc : PolicyCache) (podLabelSelector : option LabelSelector) : list PodID := [].
Definition cache_LookupNamespacesByLabelSelector (pc : PolicyCache) (nsLabelSelector : option LabelSelector) : list NamespaceID := [].

Definition cache_LookupPodsByNamespace (pc : PolicyCache) (namespace : NamespaceID) : option (list PodID) :=
  UnstringPodID (default [] (podidx_LookupPodsByNamespace (configuredPods pc) namespace)).

Definition cache_ListAllPods (pc : PolicyCache) : option (list PodID) := UnstringPodID (ListAllNames (configuredPods pc)).
Definition cache_ListAllPolicies (pc : PolicyCache) : option (list PolicyID) :=
  UnstringPolicyID (ListAllNames (configuredPolicies pc)).
Definition cache_ListAllNamespaces (pc : PolicyCache) : list NamespaceID :=
  UnstringNamespaceID (ListAllNames (configuredNamespaces pc)).

(** The policies with a label of the pod in their selector. *)
Definition policies_with_label (pc : PolicyCache) (podData : Pod) (policyMap : gmap string Policy) (podLabel : Label) :
    gmap string Policy :=
  foldl (λ m policyID, match policyidx_LookupPolicy (configuredPolicies pc) policyID with
                       | Some policyData => <[policyID := policyData]> m
                       | None => m
                       end) policyMap
    (default [] (LookupPolicyByNSLabelSelector (configuredPolicies pc) (ns_label_text (Pod_Namespace podData) podLabel))).

(** One policy per occurrence of the pod among the pods it selects. *)
Definition append_policies (pc : PolicyCache) (pod : PodID) (policies : list PolicyID) (entry : string * Policy) :
    option (list PolicyID) :=
  let '(k, v) := entry in
  podByNS ← cache_LookupPodsByNSLabelSelector pc (Policy_Namespace v) (Policy_Pods v);
  foldM (λ policies podID,
    if bool_decide (podID = pod) then '(name, ns) ← split_id k; Some (policies ++ [mkPolicyID name ns])
    else Some policies) policies podByNS.

Definition cache_LookupPoliciesByPod (pc : PolicyCache) (pod : PodID) : option (list PolicyID) :=
  match podidx_LookupPod (configuredPods pc) (PodID_String pod) with
  | None => Some []
  | Some podData =>
    let policyMap := foldl (policies_with_label pc podData) ∅ (Pod_Label podData) in
    foldM (append_policies pc pod) [] (go_range [67]%Z policyMap)
  end.

End cache.

Arguments PolicyCache MP MO MN : clear implicits.
