(* ===== verification/PolicyCacheEvents.v ===== *)
(** * Events of the policy cache

    plugins/policy/cache/{data_change,data_resync,cache_impl}.go: a change event
    is applied to the maps and forwarded to the watchers, a resync event is
    parsed and forwarded. The decoders of an event ([GetValue], [GetPrevValue]
    of datasync) are fields of the event. *)

From Stdlib Require Import ZArith Lia Ascii String.
From stdpp Require Import prelude strings list gmap.
From S2P Require Import Prelude GoStrings GoErrors GoNet KsrModel Utils PolicyCache.

Inductive ChangeType := ChangePut | ChangeDelete.

#[global] Instance ChangeType_eq_dec : EqDecision ChangeType.
Proof. solve_decision. Defined.

(** [datasync.ChangeEvent]: the value and the previous value, decoded as a
    policy, a pod or a namespace; the boolean of a previous value tells if there
    was one. *)
Record ChangeEvent (E : Type) := mkChangeEvent {
  ev_key : string;
  ev_type : ChangeType;
  ev_policy : result E Policy;
  ev_prevPolicy : result E (bool * Policy);
  ev_pod : result E Pod;
  ev_prevPod : result E (bool * Pod);
  ev_namespace : result E Namespace;
  ev_prevNamespace : result E (bool * Namespace)
}.
Arguments ev_key {E} _.
Arguments ev_type {E} _.
Arguments ev_policy {E} _.
Arguments ev_prevPolicy {E} _.
Arguments ev_pod {E} _.
Arguments ev_prevPod {E} _.
Arguments ev_namespace {E} _.
Arguments ev_prevNamespace {E} _.

Record DataResyncEvent := mkDataResyncEvent {
  dre_Namespaces : list Namespace;
  dre_Pods : list Pod;
  dre_Policies : list Policy
}.

Definition NewDataResyncEvent : DataResyncEvent := mkDataResyncEvent [] [] [].

(** An entry of a resync event; [None]: the value cannot be decoded. *)
Record ResyncEntry := mkResyncEntry {
  re_key : string;
  re_policy : option Policy;
  re_pod : option Pod;
  re_namespace : option Namespace
}.

(** The callbacks of a watcher. *)
Inductive WatcherCall :=
  | WResync (data : DataResyncEvent)
  | WAddPod (pod : Pod)
  | WDelPod (pod : Pod)
  | WUpdatePod (oldPod newPod : Pod)
  | WAddPolicy (policy : Policy)
  | WDelPolicy (policy : Policy)
  | WUpdatePolicy (oldPolicy newPolicy : Policy)
  | WAddNamespace (ns : Namespace)
  | WDelNamespace (ns : Namespace)
  | WUpdateNamespace (oldNs newNs : Namespace).

Class PolicyCacheWatcher (W E C : Type) := { watcher_call : W → C → WatcherCall → option (W * option E) }.

Section notify.
Context {W E C : Type} `{!PolicyCacheWatcher W E C}.

(** The loop over the watchers ends at the first error. *)
Fixpoint notify (ws : list W) (pc : C) (call : WatcherCall) : option (list W * option E) :=
  match ws with
  | [] => Some ([], None)
  | w :: ws =>
    '(w, err) ← watcher_call w pc call;
    match err with
    | Some e => Some (w :: ws, Some e)
    | None => '(ws, err) ← notify ws pc call; Some (w :: ws, err)
    end
  end.

(** The same loop with the errors ignored. *)
Fixpoint notify_all (ws : list W) (pc : C) (call : WatcherCall) : option (list W) :=
  match ws with
  | [] => Some []
  | w :: ws => '(w, _) ← watcher_call w pc call; ws ← notify_all ws pc call; Some (w :: ws)
  end.
End notify.

(** ** Resync *)

(** One entry of the event. *)
Definition parse_entry (event : DataResyncEvent) (evData : ResyncEntry) : DataResyncEvent :=
  match ParsePolicyFromKey (re_key evData) with
  | Some _ =>
    match re_policy evData with
    | Some value => mkDataResyncEvent (dre_Namespaces event) (dre_Pods event) (dre_Policies event ++ [value])
    | None => event
    end
  | None =>
    match ParsePodFromKey (re_key evData) with
    | Some _ =>
      match re_pod evData with
      | Some value => mkDataResyncEvent (dre_Namespaces event) (dre_Pods event ++ [value]) (dre_Policies event)
      | None => event
      end
    | None =>
      match re_namespace evData with
      | Some value => mkDataResyncEvent (dre_Namespaces event ++ [value]) (dre_Pods event) (dre_Policies event)
      | None => event
      end
    end
  end.

Definition resyncParseEvent `{RangeOracle} (values : gmap string (list ResyncEntry)) : DataResyncEvent :=
  foldl (λ event '(key, resyncData),
    if HasPrefix key NamespacePrefix then foldl parse_entry event resyncData else event)
    NewDataResyncEvent (go_range [68]%Z values).

(** ** Changes *)

Section events.
Context `{RangeOracle} {MP MO MN : Type} `{!NamedMapping MP Policy, !NamedMapping MO Pod, !NamedMapping MN Namespace}.
Context {W E : Type} `{!PolicyCacheWatcher W E (PolicyCache MP MO MN)}.

(** The cache and its watchers. *)
Abbreviation State := (PolicyCache MP MO MN * list W)%type.

(** Notification, then the rest of the function unless a watcher failed. *)
Definition and_then (st : State) (call : WatcherCall) (rest : State → option (State * option E)) : option (State * option E) :=
  '(ws, err) ← notify st.2 st.1 call;
  match err with Some e => Some ((st.1, ws), Some e) | None => rest (st.1, ws) end.

Definition return_nil (st : State) : option (State * option E) := Some (st, None).

Definition policy_change (st : State) (ev : ChangeEvent E) : option (State * option E) :=
  match ev_policy ev, ev_prevPolicy ev with
  | Err e, _ => Some (st, Some e)
  | Ok _, Err e => Some (st, Some e)
  | Ok value, Ok (diff, prevValue) =>
    let register (st : State) :=
      m ← RegisterPolicy (configuredPolicies st.1) (PolicyID_String (policy_GetID (Some value))) value;
      Some (set_policies st.1 m, st.2) in
    let unregister (st : State) :=
      (set_policies st.1 (UnregisterPolicy (configuredPolicies st.1) (PolicyID_String (policy_GetID (Some prevValue)))).1, st.2) in
    let add (st : State) := st ← register st; and_then st (WAddPolicy value) return_nil in
    if bool_decide (ev_type ev = ChangeDelete) then and_then (unregister st) (WDelPolicy prevValue) return_nil
    else if diff : bool then st ← register (unregister st); and_then st (WUpdatePolicy prevValue value) add
    else add st
  end.

Definition pod_change (st : State) (ev : ChangeEvent E) : option (State * option E) :=
  match ev_pod ev, ev_prevPod ev with
  | Err e, _ => Some (st, Some e)
  | Ok _, Err e => Some (st, Some e)
  | Ok value, Ok (diff, prevValue) =>
    let register (st : State) :=
      (set_pods st.1 (RegisterPod (configuredPods st.1) (PodID_String (pod_GetID (Some value))) value), st.2) in
    let unregister (st : State) :=
      (set_pods st.1 (UnregisterPod (configuredPods st.1) (PodID_String (pod_GetID (Some prevValue)))).1, st.2) in
    let add (st : State) := and_then (register st) (WAddPod value) return_nil in
    if bool_decide (ev_type ev = ChangeDelete) then and_then (unregister st) (WDelPod prevValue) return_nil
    else if diff : bool then and_then (register (unregister st)) (WUpdatePod prevValue value) add
    else add st
  end.

Definition namespace_change (st : State) (ev : ChangeEvent E) : option (State * option E) :=
  match ev_namespace ev, ev_prevNamespace ev with
  | Err e, _ => Some (st, Some e)
  | Ok _, Err e => Some (st, Some e)
  | Ok value, Ok (diff, prevValue) =>
    let register (st : State) :=
      (set_namespaces st.1 (RegisterNamespace (configuredNamespaces st.1) (Namespace_Name value) value), st.2) in
    let unregister (st : State) :=
      (set_namespaces st.1 (UnRegisterNamespace (configuredNamespaces st.1) (Namespace_Name prevValue)).1, st.2) in
    let add (st : State) := and_then (register st) (WAddNamespace value) return_nil in
    if bool_decide (ev_type ev = ChangeDelete) then and_then (unregister st) (WDelNamespace prevValue) return_nil
    else if diff : bool then and_then (register (unregister st)) (WUpdateNamespace prevValue value) add
    else add st
  end.

Definition changePropagateEvent (st : State) (ev : ChangeEvent E) : option (State * option E) :=
  if HasPrefix (ev_key ev) NamespacePrefix then
    match ParsePolicyFromKey (ev_key ev) with
    | Some _ => policy_change st ev
    | None =>
      match ParsePodFromKey (ev_key ev) with
      | Some _ => pod_change st ev
      | None => namespace_change st ev
      end
    end
  else Some (st, None).

Definition cache_Update (st : State) (ev : ChangeEvent E) : option (State * option E) := changePropagateEvent st ev.

Definition cache_Resync (st : State) (values : gmap string (list ResyncEntry)) : option (State * option E) :=
  ws ← notify_all st.2 st.1 (WResync (resyncParseEvent values));
  Some ((st.1, ws), None).

Definition cache_Watch (st : State) (watcher : W) : State := (st.1, st.2 ++ [watcher]).

End events.
