(* ===== verification/PolicyCacheProofs.v ===== *)
(** * Correctness of the policy cache

    The maps of the cache follow the change events (a refinement of the state
    of Kubernetes they describe), whatever the watchers answer; label selectors
    with one or two labels select exactly the pods with these labels, and the
    policies found for a pod are exactly those that select it. *)

From Stdlib Require Import ZArith Lia Ascii String.
From stdpp Require Import prelude strings list gmap.
From S2P Require Import Prelude GoStrings GoErrors GoNet GoText KsrModel Utils PolicyCache PolicyCacheEvents.

(** ** Indexed maps *)

(** What the documentation of idxmap says: a map from names to values; a
    secondary index lists the names of the values that were put with the given
    value in the given field. *)
Class NamedMappingLaws (M V : Type) `{!NamedMapping M V} := {
  nm_view : M → gmap string (V * Indexes);
  nm_new : nm_view NewNamedMapping = ∅;
  nm_put m k v ix : nm_view (Put m k v ix) = <[k := (v, ix)]> (nm_view m);
  nm_delete m k : nm_view (nm_Delete m k).1 = delete k (nm_view m);
  nm_deleted m k : (nm_Delete m k).2 = fst <$> nm_view m !! k;
  nm_get m k : GetValue m k = fst <$> nm_view m !! k;
  nm_names m f v name : name ∈ default [] (ListNames m f v) ↔
    ∃ d ix l, nm_view m !! name = Some (d, ix) ∧ ix !! f = Some l ∧ v ∈ l;
  nm_names_NoDup m f v : NoDup (default [] (ListNames m f v));
  nm_all m : ListAllNames m ≡ₚ (map_to_list (nm_view m)).*1
}.

(** The indexed map as a map. *)
#[global] Instance map_mapping V : NamedMapping (gmap string (V * Indexes)) V := {|
  NewNamedMapping := ∅;
  Put m k v ix := <[k := (v, ix)]> m;
  nm_Delete m k := (delete k m, fst <$> m !! k);
  GetValue m k := fst <$> m !! k;
  ListNames m f v := Some (fst <$> filter (λ kv : string * (V * Indexes), v ∈ default [] (kv.2.2 !! f)) (map_to_list m));
  ListAllNames m := (map_to_list m).*1
|}.

#[global] Program Instance map_mapping_laws V : NamedMappingLaws (gmap string (V * Indexes)) V := {| nm_view m := m |}.
Next Obligation. done. Qed.
Next Obligation. done. Qed.
Next Obligation. done. Qed.
Next Obligation. done. Qed.
Next Obligation. done. Qed.
Next Obligation.
  intros V m f v name. cbn [ListNames map_mapping default from_option id]. rewrite list_elem_of_fmap. split.
  - intros ([k [d ix]] & -> & [Hv Hin]%list_elem_of_filter). apply elem_of_map_to_list in Hin. simpl in Hv.
    destruct (ix !! f) as [l|] eqn:Hl; [by exists d, ix, l|by apply elem_of_nil in Hv].
  - intros (d & ix & l & Hk & Hl & Hv). exists (name, (d, ix)). split; [done|]. apply list_elem_of_filter. simpl.
    rewrite Hl. by rewrite elem_of_map_to_list.
Qed.
Next Obligation.
  intros V m f v. cbn [ListNames map_mapping default from_option id]. pose proof (NoDup_fst_map_to_list m) as Hnd.
  eapply sublist_NoDup; [exact Hnd|]. apply fmap_sublist, sublist_filter.
Qed.
Next Obligation. done. Qed.

(** ** Change events *)

(** The state of Kubernetes the cache represents. *)
Record K8sState := mkK8sState {
  ks_policies : gmap string Policy;
  ks_pods : gmap string Pod;
  ks_namespaces : gmap string Namespace
}.

(** The abstract effect of a change on a map: the previous value is removed, the
    new one is stored under its own name. *)
Definition change_map {V} (name : V → string) (type : ChangeType) (value prev : V) (diff : bool) (m : gmap string V) : gmap string V :=
  match type with
  | ChangeDelete => delete (name prev) m
  | ChangePut => <[name value := value]> (if diff then delete (name prev) m else m)
  end.

Definition policy_name (p : Policy) : string := PolicyID_String (policy_GetID (Some p)).
Definition pod_name (p : Pod) : string := PodID_String (pod_GetID (Some p)).

(** The abstract effect of an event: nothing if it cannot be decoded or is not
    about the state of Kubernetes. *)
Definition apply_change {E} (ev : ChangeEvent E) (s : K8sState) : K8sState :=
  if negb (HasPrefix (ev_key ev) NamespacePrefix) then s
  else if ParsePolicyFromKey (ev_key ev) is Some _ then
    match ev_policy ev, ev_prevPolicy ev with
    | Ok value, Ok (diff, prev) =>
      mkK8sState (change_map policy_name (ev_type ev) value prev diff (ks_policies s)) (ks_pods s) (ks_namespaces s)
    | _, _ => s
    end
  else if ParsePodFromKey (ev_key ev) is Some _ then
    match ev_pod ev, ev_prevPod ev with
    | Ok value, Ok (diff, prev) =>
      mkK8sState (ks_policies s) (change_map pod_name (ev_type ev) value prev diff (ks_pods s)) (ks_namespaces s)
    | _, _ => s
    end
  else
    match ev_namespace ev, ev_prevNamespace ev with
    | Ok value, Ok (diff, prev) =>
      mkK8sState (ks_policies s) (ks_pods s) (change_map Namespace_Name (ev_type ev) value prev diff (ks_namespaces s))
    | _, _ => s
    end.

Section refinement.
Context `{RangeOracle} {MP MO MN : Type} `{!NamedMapping MP Policy, !NamedMapping MO Pod, !NamedMapping MN Namespace}.
Context `{!NamedMappingLaws MP Policy, !NamedMappingLaws MO Pod, !NamedMappingLaws MN Namespace}.
Context {W E : Type} `{!PolicyCacheWatcher W E (PolicyCache MP MO MN)}.

Definition cache_view (pc : PolicyCache MP MO MN) : K8sState :=
  mkK8sState (fst <$> nm_view (configuredPolicies pc)) (fst <$> nm_view (configuredPods pc)) (fst <$> nm_view (configuredNamespaces pc)).

(** What holds of the maps before a notification holds after it. *)
Lemma and_then_maps (P : PolicyCache MP MO MN → Prop) st call rest st' (err : option E) :
  and_then st call rest = Some (st', err) → P st.1 →
  (∀ ws st' err, rest (st.1, ws) = Some (st', err) → P st'.1) → P st'.1.
Proof.
  unfold and_then. destruct (notify st.2 st.1 call) as [[ws [e|]]|]; simpl; [|..|done].
  - intros [= <- <-] HP _. done.
  - intros Hr _ Hrest. by eapply Hrest.
Qed.

Lemma return_nil_maps (P : PolicyCache MP MO MN → Prop) (st st' : PolicyCache MP MO MN * list W) (err : option E) :
  return_nil st = Some (st', err) → P st.1 → P st'.1.
Proof. intros [= <- <-]. done. Qed.

Lemma RegisterPolicy_view (m m' : MP) k p : RegisterPolicy m k p = Some m' → fst <$> nm_view m' = <[k := p]> (fst <$> nm_view m).
Proof.
  unfold RegisterPolicy. destruct (policy_IndexFunction p) as [ix|]; [|done]. intros [= <-]. by rewrite nm_put, fmap_insert.
Qed.

Lemma UnregisterPolicy_view (m : MP) k : fst <$> nm_view (UnregisterPolicy m k).1 = delete k (fst <$> nm_view m : gmap string Policy).
Proof. unfold UnregisterPolicy. by rewrite nm_delete, fmap_delete. Qed.

Lemma RegisterPod_view (m : MO) k p : fst <$> nm_view (RegisterPod m k p) = <[k := p]> (fst <$> nm_view m : gmap string Pod).
Proof. unfold RegisterPod. by rewrite nm_put, fmap_insert. Qed.

Lemma UnregisterPod_view (m : MO) k : fst <$> nm_view (UnregisterPod m k).1 = delete k (fst <$> nm_view m : gmap string Pod).
Proof. unfold UnregisterPod. by rewrite nm_delete, fmap_delete. Qed.

Lemma RegisterNamespace_view (m : MN) k p : fst <$> nm_view (RegisterNamespace m k p) = <[k := p]> (fst <$> nm_view m : gmap string Namespace).
Proof. unfold RegisterNamespace. by rewrite nm_put, fmap_insert. Qed.

Lemma UnRegisterNamespace_view (m : MN) k : fst <$> nm_view (UnRegisterNamespace m k).1 = delete k (fst <$> nm_view m : gmap string Namespace).
Proof. unfold UnRegisterNamespace. by rewrite nm_delete, fmap_delete. Qed.

(** The view of the maps after registrations. *)
Ltac view_maps := unfold cache_view, set_policies, set_pods, set_namespaces; cbn [configuredPolicies configuredPods configuredNamespaces fst snd];
  rewrite ?RegisterPod_view, ?UnregisterPod_view, ?RegisterNamespace_view, ?UnRegisterNamespace_view, ?UnregisterPolicy_view, ?insert_insert_eq.

(** A notification and what follows it. *)
Ltac after_notify := let Ht := fresh in intros Ht; eapply and_then_maps; [exact Ht|by view_maps|]; clear Ht; intros ? ? ?; cbn [fst snd].

Lemma policy_change_view st (ev : ChangeEvent E) st' err value diff prev :
  ev_policy ev = Ok value → ev_prevPolicy ev = Ok (diff, prev) → policy_change st ev = Some (st', err) →
  cache_view st'.1 = mkK8sState (change_map policy_name (ev_type ev) value prev diff (ks_policies (cache_view st.1)))
    (ks_pods (cache_view st.1)) (ks_namespaces (cache_view st.1)).
Proof.
  intros Hv Hp. unfold policy_change. rewrite Hv, Hp.
  destruct (ev_type ev); [rewrite bool_decide_false by done; destruct diff|rewrite bool_decide_true by done].
  - destruct (RegisterPolicy _ _ value) as [m|] eqn:Hm; [|done]. cbn [mbind option_bind]. apply RegisterPolicy_view in Hm.
    cbn [set_policies configuredPolicies fst] in Hm. rewrite UnregisterPolicy_view in Hm.
    intros Ht. eapply and_then_maps; [exact Ht|view_maps; by rewrite Hm|]. clear Ht. intros ws st1 err1. cbn [fst snd].
    destruct (RegisterPolicy _ _ value) as [m2|] eqn:Hm2; [|done]. cbn [mbind option_bind]. apply RegisterPolicy_view in Hm2.
    cbn [set_policies configuredPolicies fst] in Hm2. rewrite Hm, insert_insert_eq in Hm2.
    intros Ht. eapply and_then_maps; [exact Ht|view_maps; by rewrite Hm2|]. intros ? ? ? Hret.
    eapply return_nil_maps; [exact Hret|]. view_maps. by rewrite Hm2.
  - destruct (RegisterPolicy _ _ value) as [m|] eqn:Hm; [|done]. cbn [mbind option_bind]. apply RegisterPolicy_view in Hm.
    intros Ht. eapply and_then_maps; [exact Ht|view_maps; by rewrite Hm|]. intros ? ? ? Hret.
    eapply return_nil_maps; [exact Hret|]. view_maps. by rewrite Hm.
  - after_notify. intros Hret. eapply return_nil_maps; [exact Hret|]. by view_maps.
Qed.

Lemma pod_change_view st (ev : ChangeEvent E) st' err value diff prev :
  ev_pod ev = Ok value → ev_prevPod ev = Ok (diff, prev) → pod_change st ev = Some (st', err) →
  cache_view st'.1 = mkK8sState (ks_policies (cache_view st.1))
    (change_map pod_name (ev_type ev) value prev diff (ks_pods (cache_view st.1))) (ks_namespaces (cache_view st.1)).
Proof.
  intros Hv Hp. unfold pod_change. rewrite Hv, Hp.
  destruct (ev_type ev); [rewrite bool_decide_false by done; destruct diff|rewrite bool_decide_true by done]; cbv zeta; after_notify.
  - after_notify. intros Hret. eapply return_nil_maps; [exact Hret|]. by view_maps.
  - intros Hret. eapply return_nil_maps; [exact Hret|]. by view_maps.
  - intros Hret. eapply return_nil_maps; [exact Hret|]. by view_maps.
Qed.

Lemma namespace_change_view st (ev : ChangeEvent E) st' err value diff prev :
  ev_namespace ev = Ok value → ev_prevNamespace ev = Ok (diff, prev) → namespace_change st ev = Some (st', err) →
  cache_view st'.1 = mkK8sState (ks_policies (cache_view st.1)) (ks_pods (cache_view st.1))
    (change_map Namespace_Name (ev_type ev) value prev diff (ks_namespaces (cache_view st.1))).
Proof.
  intros Hv Hp. unfold namespace_change. rewrite Hv, Hp.
  destruct (ev_type ev); [rewrite bool_decide_false by done; destruct diff|rewrite bool_decide_true by done]; cbv zeta; after_notify.
  - after_notify. intros Hret. eapply return_nil_maps; [exact Hret|]. by view_maps.
  - intros Hret. eapply return_nil_maps; [exact Hret|]. by view_maps.
  - intros Hret. eapply return_nil_maps; [exact Hret|]. by view_maps.
Qed.

Lemma cache_Update_view st (ev : ChangeEvent E) st' err :
  cache_Update st ev = Some (st', err) → cache_view st'.1 = apply_change ev (cache_view st.1).
Proof.
  unfold cache_Update, changePropagateEvent, apply_change. destruct (HasPrefix _ _); cbn [negb]; [|congruence].
  destruct (ParsePolicyFromKey _) as [k|]; [|destruct (ParsePodFromKey _) as [k|]].
  - destruct (ev_policy ev) as [v|] eqn:Hv; [destruct (ev_prevPolicy ev) as [[d p]|] eqn:Hp|]; [by apply policy_change_view|..];
      unfold policy_change; rewrite Hv, ?Hp; congruence.
  - destruct (ev_pod ev) as [v|] eqn:Hv; [destruct (ev_prevPod ev) as [[d p]|] eqn:Hp|]; [by apply pod_change_view|..];
      unfold pod_change; rewrite Hv, ?Hp; congruence.
  - destruct (ev_namespace ev) as [v|] eqn:Hv; [destruct (ev_prevNamespace ev) as [[d p]|] eqn:Hp|]; [by apply namespace_change_view|..];
      unfold namespace_change; rewrite Hv, ?Hp; congruence.
Qed.

(** The secondary indexes of all three maps are those of the index functions. *)
Record indexed_maps (pc : PolicyCache MP MO MN) : Prop := {
  im_policies k d ix : nm_view (configuredPolicies pc) !! k = Some (d, ix) → policy_IndexFunction d = Some ix;
  im_pods k d ix : nm_view (configuredPods pc) !! k = Some (d, ix) → ix = pod_IndexFunction d;
  im_namespaces k d ix : nm_view (configuredNamespaces pc) !! k = Some (d, ix) → ix = namespace_IndexFunction d
}.

Lemma Cache_New_indexed : indexed_maps Cache_New.
Proof.
  split; intros k d ix; unfold Cache_New; cbn [configuredPolicies configuredPods configuredNamespaces]; by rewrite nm_new, lookup_empty.
Qed.

Lemma set_pods_indexed pc k p : indexed_maps pc → indexed_maps (set_pods pc (RegisterPod (configuredPods pc) k p)).
Proof.
  intros [HP HO HN]. split; [exact HP| |exact HN]. intros k' d ix. cbn. unfold RegisterPod. rewrite nm_put, lookup_insert_Some.
  intros [[<- [= <- <-]]|[_ Hk]]; [done|by eapply HO].
Qed.

Lemma unset_pods_indexed pc k : indexed_maps pc → indexed_maps (set_pods pc (UnregisterPod (configuredPods pc) k).1).
Proof.
  intros [HP HO HN]. split; [exact HP| |exact HN]. intros k' d ix. cbn. unfold UnregisterPod. rewrite nm_delete, lookup_delete_Some.
  intros [_ Hk]. by eapply HO.
Qed.

Lemma set_policies_indexed pc k p m : indexed_maps pc → RegisterPolicy (configuredPolicies pc) k p = Some m → indexed_maps (set_policies pc m).
Proof.
  intros [HP HO HN]. unfold RegisterPolicy. destruct (policy_IndexFunction p) as [ixp|] eqn:Hix; [|done]. intros [= <-].
  split; [|exact HO|exact HN]. intros k' d ix. cbn. rewrite nm_put, lookup_insert_Some. intros [[<- [= <- <-]]|[_ Hk]]; [done|by eapply HP].
Qed.

Lemma unset_policies_indexed pc k : indexed_maps pc → indexed_maps (set_policies pc (UnregisterPolicy (configuredPolicies pc) k).1).
Proof.
  intros [HP HO HN]. split; [|exact HO|exact HN]. intros k' d ix. cbn. unfold UnregisterPolicy. rewrite nm_delete, lookup_delete_Some.
  intros [_ Hk]. by eapply HP.
Qed.

Lemma set_namespaces_indexed pc k n : indexed_maps pc → indexed_maps (set_namespaces pc (RegisterNamespace (configuredNamespaces pc) k n)).
Proof.
  intros [HP HO HN]. split; [exact HP|exact HO|]. intros k' d ix. cbn. unfold RegisterNamespace. rewrite nm_put, lookup_insert_Some.
  intros [[<- [= <- <-]]|[_ Hk]]; [done|by eapply HN].
Qed.

Lemma unset_namespaces_indexed pc k : indexed_maps pc → indexed_maps (set_namespaces pc (UnRegisterNamespace (configuredNamespaces pc) k).1).
Proof.
  intros [HP HO HN]. split; [exact HP|exact HO|]. intros k' d ix. cbn. unfold UnRegisterNamespace. rewrite nm_delete, lookup_delete_Some.
  intros [_ Hk]. by eapply HN.
Qed.

Lemma return_nil_ok (st : PolicyCache MP MO MN * list W) : indexed_maps st.1 → ∃ st' (err : option E), return_nil st = Some (st', err) ∧
  indexed_maps st'.1.
Proof. intros Hst. by eexists st, None. Qed.

(** *** No panic *)

(** The watchers do not panic. *)
Hypothesis watchers_return : ∀ (w : W) (pc : PolicyCache MP MO MN) call, is_Some (watcher_call (E := E) w pc call).

Lemma notify_returns ws pc call : ∃ ws' (err : option E), notify ws pc call = Some (ws', err).
Proof.
  induction ws as [|w ws IH]; simpl; [by eexists _, _|]. destruct (watchers_return w pc call) as [[w' [e|]] ->]; simpl; [by eexists _, _|].
  destruct IH as (ws' & err & ->). by eexists _, _.
Qed.

Lemma and_then_ok st call rest :
  indexed_maps st.1 → (∀ ws, ∃ st' (err : option E), rest (st.1, ws) = Some (st', err) ∧ indexed_maps st'.1) →
  ∃ st' (err : option E), and_then st call rest = Some (st', err) ∧ indexed_maps st'.1.
Proof.
  intros Hst Hrest. unfold and_then. destruct (notify_returns st.2 st.1 call) as (ws & [e|] & ->); simpl; [by eexists _, _|apply Hrest].
Qed.

Lemma RegisterPolicy_ok (m : MP) k p : is_Some (Policy_Pods p) → is_Some (RegisterPolicy m k p).
Proof. intros [sel Hsel]. unfold RegisterPolicy, policy_IndexFunction. rewrite Hsel. eauto. Qed.

Lemma policy_change_ok st (ev : ChangeEvent E) :
  indexed_maps st.1 → (ev_type ev = ChangePut → ∀ value, ev_policy ev = Ok value → is_Some (Policy_Pods value)) →
  ∃ st' err, policy_change st ev = Some (st', err) ∧ indexed_maps st'.1.
Proof.
  intros Hst Hsel. unfold policy_change. destruct (ev_policy ev) as [value|]; [|by eexists _, _].
  destruct (ev_prevPolicy ev) as [[diff prev]|]; [|by eexists _, _].
  destruct (ev_type ev); cycle 1.
  { rewrite bool_decide_true by done. apply and_then_ok; [by apply unset_policies_indexed|]. intros ws.
    by apply return_nil_ok, unset_policies_indexed. }
  specialize (Hsel eq_refl value eq_refl). rewrite bool_decide_false by done.
  assert (∀ st : PolicyCache MP MO MN * list W, indexed_maps st.1 → ∃ m,
    RegisterPolicy (configuredPolicies st.1) (PolicyID_String (policy_GetID (Some value))) value = Some m ∧
      indexed_maps (set_policies st.1 m)) as Hreg.
  { intros st0 Hst0. destruct (RegisterPolicy_ok (configuredPolicies st0.1) (PolicyID_String (policy_GetID (Some value))) value Hsel) as [m Hm].
    exists m. split; [exact Hm|by eapply set_policies_indexed]. }
  assert (∀ st : PolicyCache MP MO MN * list W, indexed_maps st.1 → ∃ st' (err : option E),
    (st ← m ← RegisterPolicy (configuredPolicies st.1) (PolicyID_String (policy_GetID (Some value))) value; Some (set_policies st.1 m, st.2);
     and_then st (WAddPolicy value) return_nil) = Some (st', err) ∧ indexed_maps st'.1) as Hadd.
  { intros st0 Hst0. destruct (Hreg st0 Hst0) as (m & -> & Hm). cbn [mbind option_bind]. apply and_then_ok; [exact Hm|]. intros ws.
    by apply return_nil_ok. }
  destruct diff.
  - cbv zeta. destruct (Hreg (set_policies st.1 (UnregisterPolicy (configuredPolicies st.1)
      (PolicyID_String (policy_GetID (Some prev)))).1, st.2)) as (m & -> & Hm);
      [by apply unset_policies_indexed|]. cbn [mbind option_bind]. apply and_then_ok; [exact Hm|]. intros ws. by apply Hadd.
  - by apply Hadd.
Qed.

Lemma pod_change_ok st (ev : ChangeEvent E) :
  indexed_maps st.1 → ∃ st' err, pod_change st ev = Some (st', err) ∧ indexed_maps st'.1.
Proof.
  intros Hst. unfold pod_change. destruct (ev_pod ev) as [value|]; [|by eexists _, _].
  destruct (ev_prevPod ev) as [[diff prev]|]; [|by eexists _, _].
  case_bool_decide; [|destruct diff]; cbv zeta.
  - apply and_then_ok; [|intros ws; apply return_nil_ok]; by apply unset_pods_indexed.
  - apply and_then_ok; [by apply set_pods_indexed, unset_pods_indexed|]. intros ws.
    apply and_then_ok; [|intros ws'; apply return_nil_ok]; by apply set_pods_indexed, set_pods_indexed, unset_pods_indexed.
  - apply and_then_ok; [|intros ws; apply return_nil_ok]; by apply set_pods_indexed.
Qed.

Lemma namespace_change_ok st (ev : ChangeEvent E) :
  indexed_maps st.1 → ∃ st' err, namespace_change st ev = Some (st', err) ∧ indexed_maps st'.1.
Proof.
  intros Hst. unfold namespace_change. destruct (ev_namespace ev) as [value|]; [|by eexists _, _].
  destruct (ev_prevNamespace ev) as [[diff prev]|]; [|by eexists _, _].
  case_bool_decide; [|destruct diff]; cbv zeta.
  - apply and_then_ok; [|intros ws; apply return_nil_ok]; by apply unset_namespaces_indexed.
  - apply and_then_ok; [by apply set_namespaces_indexed, unset_namespaces_indexed|]. intros ws.
    apply and_then_ok; [|intros ws'; apply return_nil_ok]; by apply set_namespaces_indexed, set_namespaces_indexed, unset_namespaces_indexed.
  - apply and_then_ok; [|intros ws; apply return_nil_ok]; by apply set_namespaces_indexed.
Qed.

(** A policy that is put has a pod selector, as the Kubernetes API requires. *)
Definition good_event (ev : ChangeEvent E) : Prop := ev_type ev = ChangePut → ∀ value, ev_policy ev = Ok value → is_Some (Policy_Pods value).

Lemma cache_Update_ok st (ev : ChangeEvent E) :
  indexed_maps st.1 → good_event ev →
  ∃ st' err, cache_Update st ev = Some (st', err) ∧ cache_view st'.1 = apply_change ev (cache_view st.1) ∧ indexed_maps st'.1.
Proof.
  intros Hst Hev. assert (∃ st' err, cache_Update st ev = Some (st', err) ∧ indexed_maps st'.1) as (st' & err & Hup & Hst').
  { unfold cache_Update, changePropagateEvent. destruct (HasPrefix _ _); [|by eexists _, _].
    destruct (ParsePolicyFromKey _) as [k|]; [by apply policy_change_ok|].
    destruct (ParsePodFromKey _) as [k|]; [by apply pod_change_ok|by apply namespace_change_ok]. }
  exists st', err. split; [exact Hup|]. split; [by eapply cache_Update_view|done].
Qed.

(** A sequence of events; the caller goes on after an error. *)
Definition cache_updates (st : PolicyCache MP MO MN * list W) (evs : list (ChangeEvent E)) : option (PolicyCache MP MO MN * list W) :=
  foldM (λ st ev, fst <$> cache_Update st ev) st evs.

(** C10. The policy cache refines the state of Kubernetes: any sequence of
    change events (puts with or without a previous value, deletes, events that
    cannot be decoded, events of other keys) is handled without a panic if the
    watchers do not panic and every policy has a pod selector, the three maps of
    the cache hold exactly the objects that the events leave, whatever the
    watchers answer, and in all three maps the secondary indexes stay those that
    the index functions give for the stored objects. *)
Theorem cache_updates_refine st evs :
  indexed_maps st.1 → Forall good_event evs →
  ∃ st', cache_updates st evs = Some st' ∧
    cache_view st'.1 = foldl (λ s ev, apply_change ev s) (cache_view st.1) evs ∧ indexed_maps st'.1.
Proof.
  intros Hst Hevs. revert st Hst. induction Hevs as [|ev evs Hev _ IH]; intros st Hst; [by exists st|].
  destruct (cache_Update_ok st ev Hst Hev) as (st1 & err & Hup & Hview & Hst1).
  unfold cache_updates. cbn [foldM]. rewrite Hup. cbn. destruct (IH st1 Hst1) as (st' & Hrun & Hview' & Hst').
  exists st'. split; [exact Hrun|]. split; [|exact Hst']. by rewrite Hview', Hview.
Qed.
End refinement.
