(* ===== verification/PolicyCacheSelect.v ===== *)
(** * Label selectors of the policy cache

    With one or two labels, a selector finds exactly the pods of the namespace
    that have these labels, and the policies found for a pod are exactly those
    that select it. Examples evaluate the cache on the selectors where the code
    does something else. *)

From Stdlib Require Import ZArith Lia Ascii String.
From stdpp Require Import prelude strings list gmap.
From S2P Require Import Prelude GoStrings GoErrors GoNet GoText KsrModel Utils PolicyCache PolicyCacheEvents PolicyCacheProofs.

(** The names Kubernetes admits: no slash in the names of pods, policies and
    namespaces and in the values of labels (label keys may have one); objects are
    stored under their names. *)
Definition good_state (s : K8sState) : Prop :=
  (∀ k d, ks_pods s !! k = Some d →
    k = pod_name d ∧ no_slash (Pod_Namespace d) ∧ no_slash (Pod_Name d) ∧ Forall (λ l, no_slash (Label_Value l)) (Pod_Label d)) ∧
  (∀ k p, ks_policies s !! k = Some p → k = policy_name p ∧ no_slash (Policy_Namespace p) ∧ no_slash (Policy_Name p)).

(** The pods selected by the labels in a namespace. *)
Definition has_labels (ns : string) (labels : list Label) (d : Pod) : Prop :=
  Pod_Namespace d = ns ∧ ∀ l, l ∈ labels → l ∈ Pod_Label d.

(** Selectors with one or two labels and no expression. *)
Definition simple_labels (labels : list Label) : Prop :=
  1 ≤ length labels ≤ 2 ∧ Forall (λ l, no_slash (Label_Value l)) labels.
Definition simple_policy (p : Policy) : Prop :=
  ∃ labels, Policy_Pods p = Some (mkLabelSelector labels []) ∧ simple_labels labels.

Lemma ns_label_text_inj ns ns' l l' :
  no_slash ns → no_slash ns' → no_slash (Label_Value l) → no_slash (Label_Value l') →
  ns_label_text ns l = ns_label_text ns' l' → ns = ns' ∧ l = l'.
Proof.
  intros Hns Hns' Hl Hl'. unfold ns_label_text, label_text. intros [-> Heq]%ID_text_inj; [|done..].
  apply last_sep_inj in Heq as [Hk Hv]; [|done..]. split; [done|]. destruct l, l'. simpl in *. by subst.
Qed.

Lemma Intersect_NoDup a b : NoDup b → NoDup (Intersect a b).
Proof. apply NoDup_filter. Qed.

(** Names of pods turned to identifiers. *)
Lemma Unstring_pods (names : list string) :
  NoDup names → (∀ k, k ∈ names → ∃ i, k = PodID_String i ∧ no_slash (PodID_Namespace i) ∧ no_slash (PodID_Name i)) →
  ∃ ids, UnstringPodID names = Some ids ∧ NoDup ids ∧
    ∀ i, i ∈ ids ↔ PodID_String i ∈ names ∧ no_slash (PodID_Namespace i) ∧ no_slash (PodID_Name i).
Proof.
  induction 1 as [|k names Hk _ IH]; intros Hgood.
  { exists []. split; [done|]. split; [constructor|]. intros i. rewrite !elem_of_nil. naive_solver. }
  destruct IH as (ids & Hids & Hnd & Hin); [intros k' Hk'; apply Hgood; by right|].
  destruct (Hgood k) as (j & -> & Hjn & Hjp); [by left|]. destruct j as [name ns]. simpl in *.
  exists (mkPodID name ns :: ids). unfold UnstringPodID in *. cbn [mapM]. unfold PodID_String at 1. simpl.
  rewrite split_id_text by done. cbn [mbind option_bind]. rewrite Hids. split; [done|]. split.
  - constructor; [|done]. rewrite Hin. intros [Hbad _]. by apply Hk.
  - intros i. rewrite !elem_of_cons, Hin. split.
    + intros [->|(Hi & Hn & Hp)]; simpl; auto.
    + intros ([Heq|Hi] & Hn & Hp); [left|by right; auto]. unfold PodID_String in Heq. simpl in Heq.
      apply ID_text_inj in Heq as [H1 H2]; [|done..]. destruct i; simpl in *; by subst.
Qed.

Section selectors.
Context `{RangeOracle} {MP MO MN : Type} `{!NamedMapping MP Policy, !NamedMapping MO Pod, !NamedMapping MN Namespace}.
Context `{!NamedMappingLaws MP Policy, !NamedMappingLaws MO Pod, !NamedMappingLaws MN Namespace}.
Variable pc : PolicyCache MP MO MN.
Hypothesis Hindexed : indexed_maps pc.
Hypothesis Hgood : good_state (cache_view pc).

Lemma view_pod k d : ks_pods (cache_view pc) !! k = Some d ↔ nm_view (configuredPods pc) !! k = Some (d, pod_IndexFunction d).
Proof.
  cbn. rewrite lookup_fmap, fmap_Some. split; [|by intros Hk; eexists].
  intros ([d' ix] & Hk & ->). simpl. by rewrite (im_pods _ Hindexed _ _ _ Hk) in Hk.
Qed.

Lemma view_policy k p : ks_policies (cache_view pc) !! k = Some p ↔
  ∃ ix, policy_IndexFunction p = Some ix ∧ nm_view (configuredPolicies pc) !! k = Some (p, ix).
Proof.
  cbn. rewrite lookup_fmap, fmap_Some. split; [|intros (ix & _ & Hk); by eexists].
  intros ([d' ix] & Hk & ->). simpl. exists ix. split; [by eapply (im_policies _ Hindexed)|done].
Qed.

Lemma pod_ns_labels d : pod_IndexFunction d !! podNSLabelSelectorKey = Some (ns_label_text (Pod_Namespace d) <$> Pod_Label d).
Proof. unfold pod_IndexFunction. by rewrite lookup_insert_ne, lookup_insert_eq. Qed.

(** The index of labels. *)
Lemma lookup_label ns l k : no_slash ns → no_slash (Label_Value l) →
  k ∈ default [] (podidx_LookupPodsByNSLabelSelector (configuredPods pc) (ns_label_text ns l)) ↔
  ∃ d, ks_pods (cache_view pc) !! k = Some d ∧ has_labels ns [l] d.
Proof.
  intros Hns Hl. unfold podidx_LookupPodsByNSLabelSelector. rewrite nm_names. split.
  - intros (d & ix & texts & Hk & Hf & Hv). assert (ix = pod_IndexFunction d) as -> by (by eapply (im_pods _ Hindexed)).
    rewrite pod_ns_labels in Hf. injection Hf as <-. apply view_pod in Hk. exists d. split; [done|].
    apply list_elem_of_fmap in Hv as (l' & Heq & Hl'). destruct (proj1 Hgood _ _ Hk) as (_ & Hdn & _ & Hvals).
    rewrite Forall_forall in Hvals. apply ns_label_text_inj in Heq as [-> ->]; auto.
    split; [done|]. intros l ->%list_elem_of_singleton. done.
  - intros (d & Hk & <- & Hin). apply view_pod in Hk. exists d, (pod_IndexFunction d), (ns_label_text (Pod_Namespace d) <$> Pod_Label d).
    split; [done|]. split; [apply pod_ns_labels|]. apply list_elem_of_fmap. exists l. split; [done|]. apply Hin. by left.
Qed.

Lemma pods_by_simple_labels ns labels : no_slash ns → simple_labels labels →
  ∃ found names, getPodsByNSLabelSelector pc ns labels = Some (found, names) ∧ (found = false → names = []) ∧ NoDup names ∧
    ∀ k, k ∈ names ↔ ∃ d, ks_pods (cache_view pc) !! k = Some d ∧ has_labels ns labels d.
Proof.
  intros Hns [Hlen Hvals]. unfold getPodsByNSLabelSelector, pods_by_labels.
  destruct labels as [|l [|l' [|]]]; simpl in Hlen; try lia.
  - eexists _, _. split; [done|]. split; [done|]. apply Forall_cons in Hvals as [Hvals _].
    split; [apply nm_names_NoDup|]. intros k. apply (lookup_label ns l k Hns Hvals).
  - apply Forall_cons in Hvals as [Hl Hl']. apply Forall_cons in Hl' as [Hl' _]. cbn [label_loop].
    set (a := default [] _) in |- *. set (b := default [] (podidx_LookupPodsByNSLabelSelector _ (ns_label_text ns l'))) in |- *.
    assert (∀ k, k ∈ Intersect a b ↔ ∃ d, ks_pods (cache_view pc) !! k = Some d ∧ has_labels ns [l; l'] d) as Hspec.
    { intros k. rewrite elem_of_Intersect. unfold a, b. rewrite !lookup_label by done. unfold has_labels. split.
      - intros [(d & Hk & Hd & Hin) (d' & Hk' & _ & Hin')]. assert (d' = d) as -> by congruence. exists d. split; [done|]. split; [done|].
        intros x [->|Hx]%elem_of_cons; [apply Hin; by left|by apply Hin'].
      - intros (d & Hk & Hd & Hin). split; exists d; (split; [done|]); (split; [done|]);
          intros x ->%list_elem_of_singleton; apply Hin; [by left|by right; left]. }
    assert (NoDup (Intersect a b)) as Hnd by apply Intersect_NoDup, nm_names_NoDup.
    destruct (length (Intersect a b) =? 0) eqn:Hz.
    + apply Nat.eqb_eq, nil_length_inv in Hz. rewrite Hz in *. by eexists _, [].
    + eexists true, _. by split_and!.
Qed.

(** The pods selected in a namespace. *)
Lemma pods_by_selector ns labels : no_slash ns → simple_labels labels →
  ∃ ids, cache_LookupPodsByNSLabelSelector pc ns (Some (mkLabelSelector labels [])) = Some ids ∧ NoDup ids ∧
    ∀ i, i ∈ ids ↔ ∃ d, ks_pods (cache_view pc) !! PodID_String i = Some d ∧ i = pod_GetID (Some d) ∧ has_labels ns labels d.
Proof.
  intros Hns Hlabels. destruct (pods_by_simple_labels ns labels Hns Hlabels) as (found & names & Hget & Hf & Hnd & Hin).
  destruct (Unstring_pods names Hnd) as (ids & Hids & Hnd' & Hids').
  { intros k (d & Hk & _)%Hin. destruct (proj1 Hgood _ _ Hk) as (-> & Hn & Hp & _). by exists (pod_GetID (Some d)). }
  exists (if found then ids else []). split; [|split].
  - unfold cache_LookupPodsByNSLabelSelector. cbn [LS_MatchLabel LS_MatchExpression].
    destruct labels as [|l labels]; [by destruct Hlabels as [Hlen _]; simpl in Hlen; lia|]. rewrite Hget. by destruct found.
  - destruct found; [done|constructor].
  - assert (ids = if found then ids else []) as <-. { destruct found; [done|]. rewrite Hf in Hids by done. by injection Hids. }
    intros i. rewrite Hids', Hin. split.
    + intros ((d & Hk & Hd) & Hn & Hp). exists d. split_and!; [done| |done].
      destruct (proj1 Hgood _ _ Hk) as (Heq & Hdn & _). unfold pod_name, PodID_String in Heq.
      apply ID_text_inj in Heq as [H1 H2]; [|done..]. destruct i. cbn in *. by subst.
    + intros (d & Hk & -> & Hd). destruct (proj1 Hgood _ _ Hk) as (_ & Hdn & Hdp & _). split; [by exists d|done].
Qed.

(** *** Policies of a pod *)

Hypothesis Hsimple : ∀ k p, ks_policies (cache_view pc) !! k = Some p → simple_policy p.

(** A policy selects the pod with these labels. *)
Definition selects (p : Policy) (d : Pod) : Prop :=
  ∃ sel, Policy_Pods p = Some sel ∧ has_labels (Policy_Namespace p) (LS_MatchLabel sel) d.

(** A policy has the label in its selector. *)
Definition mentions (ns : string) (l : Label) (p : Policy) : Prop :=
  Policy_Namespace p = ns ∧ ∃ sel, Policy_Pods p = Some sel ∧ l ∈ LS_MatchLabel sel.

Lemma policy_ns_labels p ix sel : policy_IndexFunction p = Some ix → Policy_Pods p = Some sel →
  ix !! policyPodNSLabelKey = Some (ns_label_text (Policy_Namespace p) <$> LS_MatchLabel sel).
Proof. unfold policy_IndexFunction. intros Hix Hsel. rewrite Hsel in Hix. injection Hix as <-. by rewrite lookup_insert_eq. Qed.

Lemma lookup_policies ns l k : no_slash ns → no_slash (Label_Value l) →
  k ∈ default [] (LookupPolicyByNSLabelSelector (configuredPolicies pc) (ns_label_text ns l)) ↔
  ∃ p, ks_policies (cache_view pc) !! k = Some p ∧ mentions ns l p.
Proof.
  intros Hns Hl. unfold LookupPolicyByNSLabelSelector. rewrite nm_names. split.
  - intros (p & ix & texts & Hk & Hf & Hv). assert (policy_IndexFunction p = Some ix) as Hix by (by eapply (im_policies _ Hindexed)).
    assert (ks_policies (cache_view pc) !! k = Some p) as Hkp by (apply view_policy; eauto).
    destruct (Hsimple _ _ Hkp) as (labels & Hsel & _ & Hvals). rewrite (policy_ns_labels _ _ _ Hix Hsel) in Hf. injection Hf as <-.
    apply list_elem_of_fmap in Hv as (l' & Heq & Hl'). rewrite Forall_forall in Hvals.
    destruct (proj2 Hgood _ _ Hkp) as (_ & Hpn & _). apply ns_label_text_inj in Heq as [-> ->]; auto.
    exists p. split; [done|]. split; [done|]. by eexists.
  - intros (p & Hk & <- & sel & Hsel & Hin). apply view_policy in Hk as (ix & Hix & Hk).
    eexists p, ix, _. split; [done|]. split; [by apply policy_ns_labels|]. apply list_elem_of_fmap. eauto.
Qed.

(** The inner loop adds the policies found. *)
Lemma add_policies_spec names (m : gmap string Policy) k p :
  foldl (λ m policyID, match policyidx_LookupPolicy (configuredPolicies pc) policyID with
                       | Some policyData => <[policyID := policyData]> m
                       | None => m
                       end) m names !! k = Some p ↔
  (k ∈ names ∧ ks_policies (cache_view pc) !! k = Some p) ∨
  ((k ∉ names ∨ ks_policies (cache_view pc) !! k = None) ∧ m !! k = Some p).
Proof.
  assert (∀ k, policyidx_LookupPolicy (configuredPolicies pc) k = ks_policies (cache_view pc) !! k) as Hlook.
  { intros k'. unfold policyidx_LookupPolicy. rewrite nm_get. cbn. by rewrite lookup_fmap. }
  revert m. induction names as [|x names IH]; intros m; cbn [foldl].
  - rewrite elem_of_nil. naive_solver.
  - rewrite IH, elem_of_cons, Hlook. destruct (ks_policies (cache_view pc) !! x) as [px|] eqn:Hx.
    + destruct (decide (k = x)) as [->|Hne]; [rewrite lookup_insert_eq, Hx; destruct (decide (x ∈ names)); intuition congruence|].
      rewrite lookup_insert_ne by done. tauto.
    + destruct (decide (k = x)) as [->|Hne]; [rewrite Hx; intuition congruence|tauto].
Qed.

(** The map of candidate policies. *)
Lemma policyMap_spec d k p : no_slash (Pod_Namespace d) → Forall (λ l, no_slash (Label_Value l)) (Pod_Label d) →
  foldl (policies_with_label pc d) ∅ (Pod_Label d) !! k = Some p ↔
  ks_policies (cache_view pc) !! k = Some p ∧ ∃ l, l ∈ Pod_Label d ∧ mentions (Pod_Namespace d) l p.
Proof.
  intros Hns Hvals.
  assert (∀ labels (m : gmap string Policy), Forall (λ l, no_slash (Label_Value l)) labels →
    (∀ p, m !! k = Some p → ks_policies (cache_view pc) !! k = Some p) →
    foldl (policies_with_label pc d) m labels !! k = Some p ↔
    m !! k = Some p ∨ (ks_policies (cache_view pc) !! k = Some p ∧ ∃ l, l ∈ labels ∧ mentions (Pod_Namespace d) l p)) as Hgen.
  { induction labels as [|l labels IH]; intros m Hvs Hm; cbn [foldl].
    { split; [by left|]. intros [?|(_ & l & []%elem_of_nil & _)]. done. }
    apply Forall_cons in Hvs as [Hl Hvs].
    assert (∀ p, policies_with_label pc d m l !! k = Some p ↔
      m !! k = Some p ∨ (ks_policies (cache_view pc) !! k = Some p ∧ mentions (Pod_Namespace d) l p)) as Hstep.
    { intros q. unfold policies_with_label. rewrite add_policies_spec.
      pose proof (lookup_policies (Pod_Namespace d) l k Hns Hl) as Hin. set (names := default [] _) in *.
      destruct (m !! k) as [pm|] eqn:Hmk.
      - rewrite (Hm _ eq_refl) in *. destruct (decide (k ∈ names)); intuition congruence.
      - split; [|intros [[=]|[Hk Hq]]; left; split; [apply Hin; by exists q|done]].
        intros [[(p' & Hk' & Hq)%Hin Hk]|[_ [=]]]. right. split; [done|]. congruence. }
    rewrite IH, Hstep; [|done|intros q [Hq|[Hq _]]%Hstep; auto]. split.
    - intros [[?|[??]]|[? (l' & ? & ?)]]; [by left|right; split; [done|]; exists l; by split; [left|]|].
      right. split; [done|]. exists l'. by split; [right|].
    - intros [?|[? (l' & [->|?]%elem_of_cons & ?)]]; [by left; left|by left; right|]. right. split; [done|]. by exists l'. }
  rewrite Hgen, lookup_empty by done. split; [intros [[=]|?]; done|by right].
Qed.

(** The inner loop finds the pod at most once. *)
Lemma find_pod_once (pod : PodID) (k : string) (i : PolicyID) acc (l : list PodID) :
  split_id k = Some (PolicyID_Name i, PolicyID_Namespace i) → NoDup l →
  foldM (λ policies podID,
    if bool_decide (podID = pod) then '(name, ns) ← split_id k; Some (policies ++ [mkPolicyID name ns])
    else Some policies) acc l = Some (acc ++ if bool_decide (pod ∈ l) then [i] else []).
Proof.
  intros Hk Hnd. match goal with |- foldM ?g _ _ = _ => set (f := g) end.
  assert (∀ acc, f acc pod = Some (acc ++ [i])) as Hpod. { intros a. unfold f. rewrite bool_decide_true, Hk by done. by destruct i. }
  assert (∀ acc x, x ≠ pod → f acc x = Some acc) as Hother. { intros a x Hx. unfold f. by rewrite bool_decide_false. }
  clearbody f. revert acc. induction Hnd as [|x l Hx _ IH]; intros acc; cbn [foldM]; [by rewrite app_nil_r|].
  destruct (decide (x = pod)) as [->|Hne].
  - rewrite Hpod. cbn [mbind option_bind]. rewrite IH, bool_decide_false, bool_decide_true by (done || by left). by rewrite app_nil_r.
  - rewrite Hother by done. cbn [mbind option_bind]. rewrite IH. f_equal. f_equal.
    rewrite (bool_decide_ext (pod ∈ x :: l) (pod ∈ l)); [done|]. rewrite elem_of_cons. naive_solver.
Qed.

Lemma append_policies_ok pod d acc k p :
  ks_pods (cache_view pc) !! PodID_String pod = Some d → pod = pod_GetID (Some d) →
  ks_policies (cache_view pc) !! k = Some p →
  ∃ ids, append_policies pc pod acc (k, p) = Some (acc ++ ids) ∧ NoDup ids ∧ ∀ i, i ∈ ids ↔ i = policy_GetID (Some p) ∧ selects p d.
Proof.
  intros Hd Hpod Hp. destruct (proj2 Hgood _ _ Hp) as (-> & Hns & Hname). destruct (Hsimple _ _ Hp) as (labels & Hsel & Hlabels).
  destruct (pods_by_selector (Policy_Namespace p) labels Hns Hlabels) as (ids & Hids & Hnd & Hin).
  eexists. unfold append_policies. rewrite Hsel, Hids. cbn [mbind option_bind].
  rewrite (find_pod_once pod _ (policy_GetID (Some p))); [|by apply split_id_text|done]. split; [done|].
  assert (pod ∈ ids ↔ selects p d) as Hiff.
  { rewrite Hin. split.
    - intros (d' & Hd' & _ & Hl). assert (d' = d) as -> by congruence. by exists (mkLabelSelector labels []).
    - intros (sel & Hsel' & Hl). assert (sel = mkLabelSelector labels []) as -> by congruence. by exists d. }
  case_bool_decide as Hc; (split; [apply NoDup_singleton || apply NoDup_nil_2|]); intros i;
    rewrite ?list_elem_of_singleton, ?elem_of_nil; tauto.
Qed.

Lemma append_all_policies pod d es acc :
  ks_pods (cache_view pc) !! PodID_String pod = Some d → pod = pod_GetID (Some d) →
  NoDup es.*1 → (∀ k p, (k, p) ∈ es → ks_policies (cache_view pc) !! k = Some p) →
  ∃ ids, foldM (append_policies pc pod) acc es = Some (acc ++ ids) ∧ NoDup ids ∧
    ∀ i, i ∈ ids ↔ ∃ k p, (k, p) ∈ es ∧ i = policy_GetID (Some p) ∧ selects p d.
Proof.
  intros Hd Hpod. revert acc. induction es as [|[k p] es IH]; intros acc Hnd Hes; cbn [foldM].
  { exists []. rewrite app_nil_r. split; [done|]. split; [constructor|]. intros i. rewrite elem_of_nil. split; [done|].
    intros (? & ? & []%elem_of_nil & _). }
  rewrite fmap_cons in Hnd. apply NoDup_cons in Hnd as [Hk Hnd].
  assert (ks_policies (cache_view pc) !! k = Some p) as Hkp by (apply Hes; by left).
  destruct (append_policies_ok pod d acc k p Hd Hpod Hkp) as (ids1 & -> & Hnd1 & Hin1). cbn [mbind option_bind].
  destruct (IH (acc ++ ids1) Hnd) as (ids & -> & Hnd2 & Hin2); [intros k' p' Hin; apply Hes; by right|].
  exists (ids1 ++ ids). rewrite <- app_assoc. split; [done|]. split.
  - apply NoDup_app. split; [done|]. split; [|done]. intros i [-> _]%Hin1 (k' & p' & Hin & Heq & _)%Hin2. apply Hk.
    assert (ks_policies (cache_view pc) !! k' = Some p') as Hkp' by (apply Hes; by right).
    destruct (proj2 Hgood _ _ Hkp) as [-> _], (proj2 Hgood _ _ Hkp') as [Hk' _].
    assert (policy_name p = k') as -> by (unfold policy_name in *; by rewrite Hk', Heq). apply list_elem_of_fmap. by exists (k', p').
  - intros i. rewrite elem_of_app, Hin1, Hin2. setoid_rewrite elem_of_cons. split.
    + intros [[-> Hs]|(k' & p' & Hin & Hs)]; [exists k, p; auto|exists k', p'; auto].
    + intros (k' & p' & [[= -> ->]|Hin] & Hs); [by left|right; by exists k', p'].
Qed.

Lemma policies_of_pod (pod : PodID) :
  no_slash (PodID_Namespace pod) → no_slash (PodID_Name pod) →
  ∃ ids, cache_LookupPoliciesByPod pc pod = Some ids ∧ NoDup ids ∧
    ∀ i, i ∈ ids ↔ ∃ d p, ks_pods (cache_view pc) !! PodID_String pod = Some d ∧
      ks_policies (cache_view pc) !! PolicyID_String i = Some p ∧ i = policy_GetID (Some p) ∧ selects p d.
Proof.
  intros Hns Hname. unfold cache_LookupPoliciesByPod, podidx_LookupPod. rewrite nm_get.
  change (fst <$> nm_view (configuredPods pc) !! PodID_String pod) with (fst <$> (nm_view (configuredPods pc) !! PodID_String pod)).
  rewrite <- lookup_fmap. change (fst <$> nm_view (configuredPods pc)) with (ks_pods (cache_view pc)).
  destruct (ks_pods (cache_view pc) !! PodID_String pod) as [d|] eqn:Hd; cycle 1.
  { exists []. split; [done|]. split; [constructor|]. intros i. rewrite elem_of_nil. split; [done|]. by intros (d & p & [=] & _). }
  destruct (proj1 Hgood _ _ Hd) as (Heq & Hdn & Hdp & Hvals).
  assert (pod = pod_GetID (Some d)) as Hpod.
  { unfold pod_name, PodID_String in Heq. apply ID_text_inj in Heq as [H1 H2]; [|done..]. destruct pod; cbn in *. by subst. }
  set (m := foldl _ _ _). pose proof (policyMap_spec d) as Hm.
  destruct (append_all_policies pod d (go_range [67]%Z m) [] Hd Hpod) as (ids & Hids & Hnd & Hin).
  - apply (range_keys_NoDup [67]%Z m).
  - intros k p Hkp%go_range_lookup. by apply Hm in Hkp as [Hkp _].
  - exists ids. split; [done|]. split; [done|]. intros i. rewrite Hin. split.
    + intros (k & p & Hkp%go_range_lookup & -> & Hs). apply Hm in Hkp as [Hkp _]; [|done..]. exists d, p.
      destruct (proj2 Hgood _ _ Hkp) as [-> _]. done.
    + intros (d' & p & [= <-] & Hp & -> & Hs). exists (policy_name p), p. split_and!; [|done|done]. apply go_range_lookup, Hm; [done..|].
      split; [done|]. destruct (Hsimple _ _ Hp) as (labels & Hsel & Hlen & _), Hs as (sel & Hsel' & Hpn & Hl).
      assert (sel = mkLabelSelector labels []) as -> by congruence. destruct labels as [|l labels]; [simpl in Hlen; lia|].
      exists l. split; [apply Hl; by left|]. split; [done|]. eexists. split; [done|]. by left.
Qed.

(** C21. Which policies apply to a pod. If every policy of the cache has a pod
    selector of one or two labels, [LookupPoliciesByPod] of a pod of the cache
    returns, without duplicates, exactly the policies of the pod's namespace
    whose labels the pod all has; of an unknown pod it returns none. *)
Theorem policies_of_pod_exact (pod : PodID) :
  no_slash (PodID_Namespace pod) → no_slash (PodID_Name pod) →
  ∃ ids, cache_LookupPoliciesByPod pc pod = Some ids ∧ NoDup ids ∧
    ∀ i, i ∈ ids ↔ ∃ d p, ks_pods (cache_view pc) !! PodID_String pod = Some d ∧
      ks_policies (cache_view pc) !! PolicyID_String i = Some p ∧ i = policy_GetID (Some p) ∧ selects p d.
Proof. apply policies_of_pod. Qed.

(** Which pods a label selector selects. With one or two labels and no
    expression, [LookupPodsByNSLabelSelector] returns, without duplicates,
    exactly the pods of the namespace that have all the labels. *)
Theorem pods_by_selector_exact ns labels : no_slash ns → simple_labels labels →
  ∃ ids, cache_LookupPodsByNSLabelSelector pc ns (Some (mkLabelSelector labels [])) = Some ids ∧ NoDup ids ∧
    ∀ i, i ∈ ids ↔ ∃ d, ks_pods (cache_view pc) !! PodID_String i = Some d ∧ i = pod_GetID (Some d) ∧ has_labels ns labels d.
Proof. apply pods_by_selector. Qed.
End selectors.

(** ** Concrete caches *)

(** The cache on maps, with a watcher that records the calls and refuses to
    delete pods. *)
Abbreviation MapCache := (PolicyCache (gmap string (Policy * Indexes)) (gmap string (Pod * Indexes)) (gmap string (Namespace * Indexes))).

Definition recorder : PolicyCacheWatcher (list WatcherCall) string MapCache :=
  {| watcher_call w pc call := Some (w ++ [call], match call with WDelPod _ => Some "refused"%string | _ => None end) |}.

#[local] Existing Instance canonical_order.
#[local] Existing Instance recorder.

Definition web_pod (name : string) (labels : list Label) : Pod := mkPod name "default" labels "10.1.1.2" "" [].
Definition web_policy (name : string) (labels : list Label) : Policy :=
  mkPolicy name "default" [] (Some (mkLabelSelector labels [])) PolicyIngress [] [].

Definition no_pod : Pod := mkPod "" "" [] "" "" [].
Definition no_policy : Policy := mkPolicy "" "" [] None PolicyDefault [] [].
Definition no_namespace : Namespace := mkNamespace "" [].

Definition pod_event (type : ChangeType) (value prev : Pod) (diff : bool) : ChangeEvent string :=
  mkChangeEvent string (pod_Key (Pod_Name value) (Pod_Namespace value)) type
    (Err "not a policy"%string) (Err "not a policy"%string) (Ok value) (Ok (diff, prev)) (Err "no"%string) (Err "no"%string).
Definition policy_event (value : Policy) : ChangeEvent string :=
  mkChangeEvent string (policy_Key (Policy_Name value) (Policy_Namespace value)) ChangePut
    (Ok value) (Ok (false, no_policy)) (Err "no"%string) (Err "no"%string) (Err "no"%string) (Err "no"%string).

Definition app_web : Label := mkLabel "app" "web".
Definition tier_front : Label := mkLabel "tier" "front".
Definition env_prod : Label := mkLabel "env" "prod".

(** Three pods and two policies. *)
Definition example_events : list (ChangeEvent string) :=
  [pod_event ChangePut (web_pod "a" [app_web; tier_front]) no_pod false;
   pod_event ChangePut (web_pod "b" [app_web]) no_pod false;
   pod_event ChangePut (web_pod "c" [tier_front; env_prod]) no_pod false;
   policy_event (web_policy "one" [app_web]);
   policy_event (web_policy "two" [app_web; tier_front])].

Definition new_cache : MapCache * list (list WatcherCall) := (Cache_New, [[]]).
Definition example_cache : MapCache := default Cache_New (fst <$> cache_updates (E := string) new_cache example_events).

Lemma new_cache_indexed : indexed_maps (Cache_New : MapCache).
Proof. apply Cache_New_indexed. Qed.

Lemma example_events_good : Forall good_event example_events.
Proof. repeat constructor; intros _ value [= <-]; by eexists. Qed.

Lemma recorder_returns (w : list WatcherCall) (pc : MapCache) call : is_Some (watcher_call (E := string) w pc call).
Proof. by eexists. Qed.

Lemma cache_updates_refine_witness : ∃ st', cache_updates (E := string) new_cache example_events = Some st' ∧
  cache_view st'.1 = foldl (λ s ev, apply_change ev s) (cache_view (Cache_New : MapCache)) example_events ∧ indexed_maps st'.1.
Proof. exact (cache_updates_refine recorder_returns new_cache example_events new_cache_indexed example_events_good). Defined.

Definition example_state : K8sState := mkK8sState
  (<["default/one" := web_policy "one" [app_web]]> {["default/two" := web_policy "two" [app_web; tier_front]]})
  (<["default/a" := web_pod "a" [app_web; tier_front]]> (<["default/b" := web_pod "b" [app_web]]>
    {["default/c" := web_pod "c" [tier_front; env_prod]]})) ∅.

Lemma example_cache_view : cache_view example_cache = example_state.
Proof. vm_compute. reflexivity. Qed.

Lemma example_cache_indexed : indexed_maps example_cache.
Proof.
  split; intros k d ix.
  - assert (map_Forall (λ _ e, policy_IndexFunction e.1 = Some e.2) (configuredPolicies example_cache)) as Hall
      by (apply (bool_decide_unpack _); vm_compute; reflexivity).
    intros Hk. exact (Hall k (d, ix) Hk).
  - assert (map_Forall (λ _ e, e.2 = pod_IndexFunction e.1) (configuredPods example_cache)) as Hall
      by (apply (bool_decide_unpack _); vm_compute; reflexivity).
    intros Hk. exact (Hall k (d, ix) Hk).
  - assert (map_Forall (λ _ e, e.2 = namespace_IndexFunction e.1) (configuredNamespaces example_cache)) as Hall
      by (apply (bool_decide_unpack _); vm_compute; reflexivity).
    intros Hk. exact (Hall k (d, ix) Hk).
Qed.

Lemma example_cache_good : good_state (cache_view example_cache).
Proof.
  rewrite example_cache_view. split; intros k d; cbn [ks_pods ks_policies example_state];
    rewrite !lookup_insert_Some, lookup_singleton_Some; intros Hk; repeat first [progress destruct_and?|progress destruct_or?]; subst; split_and!;
    try reflexivity; repeat (apply Forall_cons; split; [reflexivity|]); by apply Forall_nil.
Qed.

Lemma example_cache_simple k p : ks_policies (cache_view example_cache) !! k = Some p → simple_policy p.
Proof.
  rewrite example_cache_view. cbn [ks_policies example_state]. rewrite lookup_insert_Some, lookup_singleton_Some.
  intros [[_ <-]|[_ [_ <-]]]; eexists; (split; [reflexivity|]); split; simpl; [lia|by repeat constructor|lia|by repeat constructor].
Qed.

Lemma policies_of_pod_exact_witness :
  ∃ ids, cache_LookupPoliciesByPod example_cache (mkPodID "a" "default") = Some ids ∧ NoDup ids ∧
    ∀ i, i ∈ ids ↔ ∃ d p, ks_pods (cache_view example_cache) !! "default/a"%string = Some d ∧
      ks_policies (cache_view example_cache) !! PolicyID_String i = Some p ∧ i = policy_GetID (Some p) ∧ selects p d.
Proof. exact (policies_of_pod_exact example_cache example_cache_indexed example_cache_good example_cache_simple (mkPodID "a" "default")
  eq_refl eq_refl). Defined.

Lemma two_labels_simple : simple_labels [app_web; tier_front].
Proof. split; [simpl; lia|by repeat constructor]. Qed.

Lemma pods_by_selector_exact_witness :
  ∃ ids, cache_LookupPodsByNSLabelSelector example_cache "default" (Some (mkLabelSelector [app_web; tier_front] [])) = Some ids ∧ NoDup ids ∧
    ∀ i, i ∈ ids ↔ ∃ d, ks_pods (cache_view example_cache) !! PodID_String i = Some d ∧ i = pod_GetID (Some d) ∧
      has_labels "default" [app_web; tier_front] d.
Proof. exact (pods_by_selector_exact example_cache example_cache_indexed example_cache_good "default" [app_web;
  tier_front] eq_refl two_labels_simple). Defined.

(** ** Where the code does something else *)

(** With three labels only the last two are intersected: a pod without the
    label app=web is selected. *)
Example third_label_drops_first :
  cache_LookupPodsByNSLabelSelector example_cache "default" (Some (mkLabelSelector [app_web; tier_front; env_prod] []))
  = Some [mkPodID "c" "default"].
Proof. vm_compute. reflexivity. Qed.

(** EXISTS selects no pod: after the loop the four sets are all made from the
    set of IN. *)
Example exists_selects_nothing :
  cache_LookupPodsByNSLabelSelector example_cache "default" (Some (mkLabelSelector [] [mkLabelExpression "app" OpExists []])) = Some [].
Proof. vm_compute. reflexivity. Qed.

(** IN with two values wants both. *)
Example in_wants_all_values :
  cache_LookupPodsByNSLabelSelector example_cache "default" (Some (mkLabelSelector [] [mkLabelExpression "app" OpIn ["web"; "db"]]))
  = Some [].
Proof. vm_compute. reflexivity. Qed.

(** The pods of a namespace are not found: the name of the namespace is used as
    the name of the index. *)
Example namespace_has_no_pods : cache_LookupPodsByNamespace example_cache "default" = Some [].
Proof. vm_compute. reflexivity. Qed.

(** A pod that is not in the cache is reported as found, with a nil value. *)
Example unknown_pod_found : cache_LookupPod example_cache (mkPodID "x" "default") = (true, None).
Proof. vm_compute. reflexivity. Qed.

(** A resync leaves the maps as they are. *)
Example resync_keeps_maps :
  (λ r, cache_view r.1.1) <$> cache_Resync (E := string) (example_cache, [[]] : list (list WatcherCall)) ∅ = Some example_state.
Proof. vm_compute. reflexivity. Qed.

(** An update of a pod reaches the watchers twice: as an update and as an
    addition. *)
Example update_is_also_added :
  (λ r, r.1.2) <$> cache_Update (E := string) new_cache (pod_event ChangePut (web_pod "a" []) (web_pod "a" [app_web]) true)
  = Some [[WUpdatePod (web_pod "a" [app_web]) (web_pod "a" []); WAddPod (web_pod "a" [])]].
Proof. vm_compute. reflexivity. Qed.
