(* ===== verification/Processor.v ===== *)
(** * The policy processor

    plugins/policy/processor: reacts to the events of the policy cache, finds
    the pods of this node whose policies may have changed, translates their
    Kubernetes policies into Contiv policies and configures them.

    [hostNetwork] is the subnet of the pods of this node (the result of
    [Contiv.GetPodNetwork()]). The rules [IngressRule] and [EgressRule] have the
    same code with other names: it is written once, with the direction as an
    argument. [None] is a panic. *)

From Stdlib Require Import ZArith Lia Ascii String.
From stdpp Require Import prelude strings list gmap.
From S2P Require Import Prelude GoStrings GoErrors GoNet KsrModel Utils Rules Configurator PolicyCache PolicyCacheEvents.

(** ** rules_match_label.go, rules_match_expression.go *)

(** [labelExists] is a set. *)
Definition isMatchLabel (pod : Pod) (matchLabels : list Label) (policyNamespace : string) : bool :=
  let labelExists := ns_label_text (Pod_Namespace pod) <$> Pod_Label pod in
  forallb (λ matchLabel, bool_decide (ns_label_text policyNamespace matchLabel ∈ labelExists)) matchLabels.

(** The loop over the expressions: [EXISTS] returns from it. *)
Fixpoint isMatchExpression (pod : Pod) (expressions : list LabelExpression) (policyNamespace : string) : bool :=
  match expressions with
  | [] => true
  | expression :: expressions =>
    let podKeyMap := (λ podLabel, Pod_Namespace pod +:+ "/" +:+ Label_Key podLabel)%string <$> Pod_Label pod in
    let labels := ConstructLabels (LE_Key expression) (LE_Value expression) in
    let expressionKey := (policyNamespace +:+ "/" +:+ LE_Key expression)%string in
    match LE_Operator expression with
    | OpIn => if negb (isMatchLabel pod labels policyNamespace) then false else isMatchExpression pod expressions policyNamespace
    | OpNotIn => if isMatchLabel pod labels policyNamespace then false else isMatchExpression pod expressions policyNamespace
    | OpExists => if bool_decide (expressionKey ∈ podKeyMap) then true else isMatchExpression pod expressions policyNamespace
    | OpDoesNotExist => if negb (bool_decide (expressionKey ∈ podKeyMap)) then false else isMatchExpression pod expressions policyNamespace
    end
  end.

(** ** matches_calculator.go *)

Definition calculateLabelSelectorMatches (newPod : Pod) (matchLabels : list Label) (matchExpressions : list LabelExpression)
    (policyNamespace : string) : bool :=
  match matchLabels, matchExpressions with
  | _ :: _, _ :: _ => isMatchLabel newPod matchLabels policyNamespace && isMatchExpression newPod matchExpressions policyNamespace
  | [], _ :: _ => isMatchExpression newPod matchExpressions policyNamespace
  | _ :: _, [] => isMatchLabel newPod matchLabels policyNamespace
  | [], [] => true
  end.

(** The network of a CIDR; the error of [ParseCIDR] is ignored, its nil network
    is dereferenced. *)
Definition parse_net (cidr : string) : option IPNet := snd <$> ParseCIDR cidr.

Definition calculate_block (block : PeerIPBlock) : option IPBlock :=
  excepts ← mapM parse_net (PIB_Except block);
  cidr ← parse_net (PIB_Cidr block);
  Some (mkIPBlock cidr excepts).

(** A port by name has no number; a nil port is dereferenced. *)
Definition calculate_port (port : PolicyPort) : option Port :=
  p ← PP_Port port;
  Some (mkPort (if bool_decide (PP_Protocol port = ProtoUDP) then PortUDP else PortTCP) (u16 (PNN_Number p))).

Section processor.
Context `{RangeOracle} {MP MO MN : Type} `{!NamedMapping MP Policy, !NamedMapping MO Pod, !NamedMapping MN Namespace}.

(** One round of the loop over the peers of a rule. *)
Definition calculate_peer (pc : PolicyCache MP MO MN) (namespace : string) (st : list PodID * list IPBlock) (peer : Peer) :
    option (list PodID * list IPBlock) :=
  let '(pods, blocks) := st in
  found ← cache_LookupPodsByNSLabelSelector pc namespace (Peer_Pods peer);
  match Peer_IpBlock peer with
  | None => Some (pods ++ found, blocks)
  | Some block => b ← calculate_block block; Some (pods ++ found, blocks ++ [b])
  end.

Definition calculate_match (pc : PolicyCache MP MO MN) (namespace : string) (matchType : MatchType) (rule : PolicyRule) : option Match :=
  '(pods, blocks) ← foldM (calculate_peer pc namespace) ([], []) (PR_Peers rule);
  ports ← mapM calculate_port (PR_Port rule);
  let nil := length (PR_Peers rule) =? 0 in
  Some (mkMatch matchType (if nil then None else Some pods) (if nil then None else Some blocks) ports).

Definition calculateMatches (pc : PolicyCache MP MO MN) (policyData : Policy) : option (list Match) :=
  ingress ← mapM (calculate_match pc (Policy_Namespace policyData) MatchIngress) (Policy_IngressRule policyData);
  egress ← mapM (calculate_match pc (Policy_Namespace policyData) MatchEgress) (Policy_EgressRule policyData);
  Some (ingress ++ egress).

(** ** processor.go *)

Record PolicyProcessor (R : Type) := mkPolicyProcessor {
  podIPAddressMap : gmap string string;
  pp_Configurator : PolicyConfigurator R
}.
Arguments mkPolicyProcessor {R} _ _.
Arguments podIPAddressMap {R} _.
Arguments pp_Configurator {R} _.

Definition policy_type (t : PolicyType) : ContivPolicyType :=
  match t with
  | PolicyIngress => ContivPolicyIngress
  | PolicyEgress => ContivPolicyEgress
  | PolicyIngressAndEgress => ContivPolicyAll
  | PolicyDefault => ContivPolicyIngress
  end.

(** One round of the loop over the policies of a pod. *)
Definition process_policy (pc : PolicyCache MP MO MN) (policies : list ContivPolicy) (policyByPod : PolicyID) :
    option (list ContivPolicy) :=
  let '(found, policyData) := cache_LookupPolicy pc policyByPod in
  if negb found then Some policies
  else
    policyData ← policyData;
    matches ← calculateMatches pc policyData;
    Some (policies ++ [mkContivPolicy (mkPolicyID (Policy_Name policyData) (Policy_Namespace policyData))
                         (policy_type (Policy_Type policyData)) matches]).

Definition process_pod (pc : PolicyCache MP MO MN) (txn : ConfiguratorTxn) (pod : PodID) : option ConfiguratorTxn :=
  policiesByPod ← cache_LookupPoliciesByPod pc pod;
  policies ← foldM (process_policy pc) [] policiesByPod;
  Some (Configure txn pod policies).

(** The configurator looks pods up in the same cache. *)
Definition cache_PodLookup (pc : PolicyCache MP MO MN) : PodLookup := {| LookupPod := cache_LookupPod pc |}.

Context {R E : Type} `{!PolicyRenderer R E} (hostNetwork : IPNet) (arrival : list (option E) → list (option E)).

(** The flag [resync] is only logged: the transaction is never a resync. *)
Definition Process (pc : PolicyCache MP MO MN) (pp : PolicyProcessor R) (resync : bool) (pods : list PodID) :
    option (PolicyProcessor R * option E) :=
  txn ← foldM (process_pod pc) (Configurator_NewTxn false) pods;
  '(configurator, err) ← @Configurator_Commit _ (cache_PodLookup pc) _ _ _ arrival (pp_Configurator pp) txn;
  Some (mkPolicyProcessor (podIPAddressMap pp) configurator, err).

(** The processor registers itself at the cache (see [cache_Watch]). *)
Definition Processor_Init (configurator : PolicyConfigurator R) : PolicyProcessor R := mkPolicyProcessor ∅ configurator.

Definition Processor_Resync (pc : PolicyCache MP MO MN) (pp : PolicyProcessor R) (data : DataResyncEvent) :
    option (PolicyProcessor R * option E) :=
  pods ← cache_ListAllPods pc; Process pc pp true pods.

(** Both guards and the end return nil. *)
Definition AddPod (pp : PolicyProcessor R) (pod : Pod) : option (PolicyProcessor R * option E) :=
  if bool_decide (Pod_IpAddress pod = ""%string) then Some (pp, None)
  else if bool_decide (Pod_Namespace pod = "kube-system"%string) then Some (pp, None)
  else Some (pp, None).

(** The data of all policies; the loops that follow dereference every one. *)
Definition data_policies (pc : PolicyCache MP MO MN) : option (list Policy) :=
  allPolicies ← cache_ListAllPolicies pc;
  foldM (λ (dataPolicies : list Policy) stringPolicy,
    let '(found, policyData) := cache_LookupPolicy pc stringPolicy in
    if negb found then Some dataPolicies else data ← policyData; Some (dataPolicies ++ [data])) [] allPolicies.

(** The selector of a peer, as the loops over the rules read it. *)
Definition peer_matches (pod : Pod) (dataPolicy : Policy) (peer : Peer) : bool :=
  let '(matchLabels, matchExpressions) :=
    match Peer_Pods peer with Some sel => (LS_MatchLabel sel, LS_MatchExpression sel) | None => ([], []) end in
  calculateLabelSelectorMatches pod matchLabels matchExpressions (Policy_Namespace dataPolicy).

(** [policies] and [addedPolicies]. *)
Definition add_policy (pod : Pod) (dataPolicy : Policy) (st : list Policy * gmap string bool) (peer : Peer) :
    list Policy * gmap string bool :=
  if negb (peer_matches pod dataPolicy peer) then st
  else
    let id := PolicyID_String (policy_GetID (Some dataPolicy)) in
    if bool_decide (st.2 !! id = Some true) then st else (st.1 ++ [dataPolicy], <[id := true]> st.2).

(** The two loops over the rules of all policies. *)
Definition matched_policies (pod : Pod) (dataPolicies : list Policy) (st : list Policy * gmap string bool) :
    list Policy * gmap string bool :=
  foldl (λ st dataPolicy,
    foldl (add_policy pod dataPolicy) st
      ((Policy_IngressRule dataPolicy ≫= PR_Peers) ++ (Policy_EgressRule dataPolicy ≫= PR_Peers))) st dataPolicies.

(** The pods the policies are attached to. *)
Definition attached_pods (pc : PolicyCache MP MO MN) (pods : list PodID) (policies : list Policy) : option (list PodID) :=
  foldM (λ (pods : list PodID) policy,
    policyPods ← cache_LookupPodsByNSLabelSelector pc (Policy_Namespace policy) (Policy_Pods policy);
    Some (pods ++ policyPods)) pods policies.

(** The pods of this node, with the address given by [address]. *)
Definition host_pods (pc : PolicyCache MP MO MN) (address : option Pod → option string) (pods : list PodID) : option (list PodID) :=
  foldM (λ (hostPods : list PodID) hostPod,
    let '(found, hostPodData) := cache_LookupPod pc hostPod in
    if negb found then Some hostPods
    else
      ip ← address hostPodData;
      Some (if negb (IPNet_Contains hostNetwork (ParseIP ip)) then hostPods else hostPods ++ [hostPod])) [] pods.

(** [hostPodData.IpAddress] *)
Definition data_address (hostPodData : option Pod) : option string := Pod_IpAddress <$> hostPodData.
(** [pp.podIPAddressMap\[podmodel.GetID(hostPodData).String()\]] *)
Definition map_address (pp : PolicyProcessor R) (hostPodData : option Pod) : option string :=
  Some (default ""%string (podIPAddressMap pp !! PodID_String (pod_GetID hostPodData))).

Definition DelPod (pc : PolicyCache MP MO MN) (pp : PolicyProcessor R) (pod : Pod) : option (PolicyProcessor R * option E) :=
  if bool_decide (Pod_Namespace pod = "kube-system"%string) then Some (pp, None)
  else
    dataPolicies ← data_policies pc;
    let policies := (matched_policies pod dataPolicies ([], ∅)).1 in
    pods ← attached_pods pc [] policies;
    pods ← UnstringPodID (RemoveDuplicates [71]%Z (StringPodID pods));
    hostPods ← host_pods pc (map_address pp) pods;
    if 0 <? length hostPods then Process pc pp false hostPods else Some (pp, None).

Definition UpdatePod (pc : PolicyCache MP MO MN) (pp : PolicyProcessor R) (oldPod newPod : Pod) : option (PolicyProcessor R * option E) :=
  if bool_decide (Pod_Namespace newPod = "kube-system"%string) then Some (pp, None)
  else if bool_decide (Pod_IpAddress newPod = ""%string) then Some (pp, None)
  else
    let newPodID := pod_GetID (Some newPod) in
    let pp := mkPolicyProcessor (<[PodID_String newPodID := Pod_IpAddress newPod]> (podIPAddressMap pp)) (pp_Configurator pp) in
    dataPolicies ← data_policies pc;
    let policies := (matched_policies newPod dataPolicies (matched_policies oldPod dataPolicies ([], ∅))).1 in
    pods ← attached_pods pc [newPodID] policies;
    pods ← UnstringPodID (RemoveDuplicates [72]%Z (StringPodID pods));
    hostPods ← host_pods pc data_address pods;
    if 0 <? length hostPods then Process pc pp false hostPods else Some (pp, None).

Definition AddPolicy (pc : PolicyCache MP MO MN) (pp : PolicyProcessor R) (policy : option Policy) : option (PolicyProcessor R * option E) :=
  match policy with
  | None => Some (pp, None)
  | Some policy =>
    pods ← cache_LookupPodsByNSLabelSelector pc (Policy_Namespace policy) (Policy_Pods policy);
    hostPods ← host_pods pc data_address pods;
    if 0 <? length hostPods then Process pc pp false hostPods else Some (pp, None)
  end.

Definition DelPolicy (pc : PolicyCache MP MO MN) (pp : PolicyProcessor R) (policy : option Policy) : option (PolicyProcessor R * option E) :=
  match policy with
  | None => Some (pp, None)
  | Some policy =>
    pods ← cache_LookupPodsByNSLabelSelector pc (Policy_Namespace policy) (Policy_Pods policy);
    hostPods ← host_pods pc data_address pods;
    if 0 <? length pods then Process pc pp false hostPods else Some (pp, None)
  end.

Definition UpdatePolicy (pc : PolicyCache MP MO MN) (pp : PolicyProcessor R) (oldPolicy newPolicy : option Policy) :
    option (PolicyProcessor R * option E) :=
  match newPolicy, oldPolicy with
  | None, _ | Some _, None => Some (pp, None)
  | Some newPolicy, Some oldPolicy =>
    oldPolicyPods ← cache_LookupPodsByNSLabelSelector pc (Policy_Namespace oldPolicy) (Policy_Pods oldPolicy);
    newPolicyPods ← cache_LookupPodsByNSLabelSelector pc (Policy_Namespace newPolicy) (Policy_Pods newPolicy);
    pods ← UnstringPodID (RemoveDuplicates [73]%Z (StringPodID (oldPolicyPods ++ newPolicyPods)));
    hostPods ← host_pods pc data_address pods;
    if 0 <? length pods then Process pc pp false hostPods else Some (pp, None)
  end.

Definition AddNamespace (pc : PolicyCache MP MO MN) (pp : PolicyProcessor R) (ns : option Namespace) : option (PolicyProcessor R * option E) :=
  match ns with None => Some (pp, None) | Some _ => Process pc pp false [] end.
Definition DelNamespace (pc : PolicyCache MP MO MN) (pp : PolicyProcessor R) (ns : option Namespace) : option (PolicyProcessor R * option E) :=
  match ns with None => Some (pp, None) | Some _ => Process pc pp false [] end.
Definition UpdateNamespace (pc : PolicyCache MP MO MN) (pp : PolicyProcessor R) (oldNs newNs : option Namespace) :
    option (PolicyProcessor R * option E) :=
  match newNs with None => Some (pp, None) | Some _ => Process pc pp false [] end.

(** The processor as a watcher of the cache. *)
Definition processor_watcher : PolicyCacheWatcher (PolicyProcessor R) E (PolicyCache MP MO MN) := {|
  watcher_call pp pc call :=
    match call with
    | WResync data => Processor_Resync pc pp data
    | WAddPod pod => AddPod pp pod
    | WDelPod pod => DelPod pc pp pod
    | WUpdatePod oldPod newPod => UpdatePod pc pp oldPod newPod
    | WAddPolicy policy => AddPolicy pc pp (Some policy)
    | WDelPolicy policy => DelPolicy pc pp (Some policy)
    | WUpdatePolicy oldPolicy newPolicy => UpdatePolicy pc pp (Some oldPolicy) (Some newPolicy)
    | WAddNamespace ns => AddNamespace pc pp (Some ns)
    | WDelNamespace ns => DelNamespace pc pp (Some ns)
    | WUpdateNamespace oldNs newNs => UpdateNamespace pc pp (Some oldNs) (Some newNs)
    end
|}.

End processor.

Arguments mkPolicyProcessor {R} _ _.
Arguments podIPAddressMap {R} _.
Arguments pp_Configurator {R} _.
