(* ===== verification/ProcessorProofs.v ===== *)
(** * Correctness of the policy processor

    The meaning of the Kubernetes policies of the cache ([k8s_allows]), and the
    composition of cache, processor and configurator: what is rendered for a pod
    decides every packet the way the policies do. *)

From Stdlib Require Import ZArith Lia Ascii String.
From stdpp Require Import prelude strings list gmap.
From S2P Require Import Prelude GoStrings GoErrors GoNet GoText KsrModel Utils Rules Configurator SubtractSubnet.
From S2P Require Import ConfiguratorRules RuleIds ConfiguratorProofs ConfiguratorCommit.
From S2P Require Import PolicyCache PolicyCacheEvents PolicyCacheProofs PolicyCacheSelect Processor.

(** ** What Kubernetes policies mean *)

(** The one-host network of a pod that has an address. *)
Definition pod_net (d : Pod) : option IPNet :=
  if bool_decide (Pod_IpAddress d = ""%string) then None else GetOneHostSubnet (Pod_IpAddress d).

(** A peer stands for the pods of the namespace with its labels and for the
    addresses of its block without the exceptions. *)
Definition peer_allows (s : K8sState) (ns : string) (peer : Peer) (ip : IP) : Prop :=
  (∃ sel k d n, Peer_Pods peer = Some sel ∧ ks_pods s !! k = Some d ∧ has_labels ns (LS_MatchLabel sel) d ∧
     pod_net d = Some n ∧ net_matches n ip = true) ∨
  (∃ block n, Peer_IpBlock peer = Some block ∧ snd <$> ParseCIDR (PIB_Cidr block) = Some n ∧ IPNet_Contains n ip = true ∧
     ∀ e m, e ∈ PIB_Except block → snd <$> ParseCIDR e = Some m → IPNet_Contains m ip = false).

Definition policy_port_allows (port : PolicyPort) (pkt : Packet) : Prop :=
  ∃ p, PP_Port port = Some p ∧ pkt_proto pkt = match PP_Protocol port with ProtoTCP => TCP | ProtoUDP => UDP end ∧
    (PNN_Number p = 0 ∨ PNN_Number p = pkt_dport pkt)%Z.

Definition rule_allows (s : K8sState) (ns : string) (direction : MatchType) (rule : PolicyRule) (pkt : Packet) : Prop :=
  (PR_Peers rule = [] ∨ ∃ peer, peer ∈ PR_Peers rule ∧ peer_allows s ns peer (peer_ip direction pkt)) ∧
  (PR_Port rule = [] ∨ ∃ port, port ∈ PR_Port rule ∧ policy_port_allows port pkt).

Definition dir_rules (direction : MatchType) (p : Policy) : list PolicyRule :=
  match direction with MatchIngress => Policy_IngressRule p | MatchEgress => Policy_EgressRule p end.

(** The directions a policy affects, as policy.proto documents them. *)
Definition affects (direction : MatchType) (p : Policy) : Prop :=
  match Policy_Type p, direction with
  | PolicyDefault, MatchIngress => True
  | PolicyDefault, MatchEgress => Policy_EgressRule p ≠ []
  | PolicyIngress, _ => direction = MatchIngress
  | PolicyEgress, _ => direction = MatchEgress
  | PolicyIngressAndEgress, _ => True
  end.

(** The policies that restrict the traffic of a pod. *)
Definition restricts (s : K8sState) (direction : MatchType) (d : Pod) (p : Policy) : Prop :=
  (∃ k, ks_policies s !! k = Some p) ∧ selects p d ∧ affects direction p.

Definition k8s_allows (s : K8sState) (direction : MatchType) (d : Pod) (pkt : Packet) : Prop :=
  (∀ p, ¬ restricts s direction d p) ∨
  ∃ p rule, restricts s direction d p ∧ rule ∈ dir_rules direction p ∧ rule_allows s (Policy_Namespace p) direction rule pkt.

(** policy.proto documents one more case: traffic whose source is the node of the
    pod is allowed whatever the policies say. The code has no such case; the
    theorems are about [k8s_allows], which agrees with the documentation on all
    other traffic. *)
Definition local_node_traffic (direction : MatchType) (hostIP : string) (pkt : Packet) : Prop :=
  direction = MatchIngress ∧ ∃ n, GetOneHostSubnet hostIP = Some n ∧ net_matches n (pkt_src pkt) = true.

Definition documented_allows (s : K8sState) (direction : MatchType) (d : Pod) (pkt : Packet) : Prop :=
  k8s_allows s direction d pkt ∨ local_node_traffic direction (Pod_HostIpAddress d) pkt.

Lemma documented_allows_other s direction d pkt : ¬ local_node_traffic direction (Pod_HostIpAddress d) pkt →
  documented_allows s direction d pkt ↔ k8s_allows s direction d pkt.
Proof. unfold documented_allows. tauto. Qed.

Lemma no_local_egress hostIP pkt : ¬ local_node_traffic MatchEgress hostIP pkt.
Proof. by intros [[=] _]. Qed.

(** ** The policies the processor handles *)

(** A block whose networks are printed IPv4 networks. *)
Definition simple_block (block : PeerIPBlock) : Prop :=
  ∃ b, canonical_block b ∧ PIB_Cidr block = IPNet_String (Network b) ∧ PIB_Except block = IPNet_String <$> Except b.

(** Peers are pods of the policy's namespace with one or two labels, or blocks. *)
Definition simple_peer (peer : Peer) : Prop :=
  Peer_Namespaces peer = None ∧
  ((∃ labels, Peer_Pods peer = Some (mkLabelSelector labels []) ∧ simple_labels labels ∧ Peer_IpBlock peer = None) ∨
   (Peer_Pods peer = None ∧ ∃ block, Peer_IpBlock peer = Some block ∧ simple_block block)).

(** Ports by number. *)
Definition simple_port (port : PolicyPort) : Prop :=
  ∃ p, PP_Port port = Some p ∧ PNN_Type p = PortNumber ∧ (0 ≤ PNN_Number p < 2 ^ 16)%Z.

(** At most one block in a rule. *)
Definition simple_rule (rule : PolicyRule) : Prop :=
  Forall simple_peer (PR_Peers rule) ∧ Forall simple_port (PR_Port rule) ∧ length (omap Peer_IpBlock (PR_Peers rule)) ≤ 1.

Definition pod_indexes : list string :=
  [podLabelSelectorKey; podKeySelectorKey; podNSKeySelectorKey; podNSLabelSelectorKey; podNamespace].

Record simple_state (s : K8sState) : Prop := {
  ss_good : good_state s;
  ss_pods k d : ks_pods s !! k = Some d → good_pod (pod_GetID (Some d));
  ss_policies k p : ks_policies s !! k = Some p → simple_policy p;
  ss_rules k p : ks_policies s !! k = Some p → Forall simple_rule (Policy_IngressRule p ++ Policy_EgressRule p);
  ss_default k p : ks_policies s !! k = Some p → Policy_Type p = PolicyDefault → Policy_EgressRule p = [];
  ss_namespaces k p : ks_policies s !! k = Some p → Policy_Namespace p ∉ pod_indexes;
  ss_names k p k' q : ks_policies s !! k = Some p → ks_policies s !! k' = Some q →
    HasPrefix (policy_name q +:+ "-") (policy_name p +:+ "-") = true → policy_name p = policy_name q
}.

(** ** Parts of a rule *)

Lemma parse_net_String n : canonical n → parse_net (IPNet_String n) = Some n.
Proof. intros [p Hn]. unfold parse_net. destruct (ParseCIDR_String p n Hn) as (a & b & c & d & _ & ->). done. Qed.

Lemma parse_nets_String ns : Forall canonical ns → mapM parse_net (IPNet_String <$> ns) = Some ns.
Proof. induction 1 as [|n ns Hn _ IH]; [done|]. rewrite fmap_cons. cbn [mapM]. by rewrite parse_net_String, IH. Qed.

Lemma calculate_block_simple block b : canonical_block b → PIB_Cidr block = IPNet_String (Network b) →
  PIB_Except block = IPNet_String <$> Except b → calculate_block block = Some b.
Proof.
  intros [Hn He] Hc Hx. unfold calculate_block. rewrite Hc, Hx, parse_nets_String, parse_net_String by done. by destruct b.
Qed.

Lemma simple_block_allows block b ip : canonical_block b → PIB_Cidr block = IPNet_String (Network b) →
  PIB_Except block = IPNet_String <$> Except b →
  block_contains b ip = true ↔
  ∃ n, snd <$> ParseCIDR (PIB_Cidr block) = Some n ∧ IPNet_Contains n ip = true ∧
    ∀ e m, e ∈ PIB_Except block → snd <$> ParseCIDR e = Some m → IPNet_Contains m ip = false.
Proof.
  intros [Hn He] Hc Hx. rewrite Hc, Hx. pose proof (parse_net_String _ Hn) as Hp. unfold parse_net in Hp.
  unfold block_contains. rewrite andb_true_iff, negb_true_iff, <- not_true_iff_false, existsb_exists. rewrite Forall_forall in He. split.
  - intros [Hin Hex]. exists (Network b). split_and!; [done..|]. intros e m (m' & -> & Hm')%list_elem_of_fmap Hm.
    pose proof (parse_net_String m' (He _ Hm')) as Hp'. unfold parse_net in Hp'. rewrite Hp' in Hm. injection Hm as <-.
    apply not_true_iff_false. intros Hc'. apply Hex. exists m'. split; [by apply list_elem_of_In|done].
  - intros (n & Hn' & Hin & Hex). rewrite Hp in Hn'. injection Hn' as <-. split; [done|].
    intros (m & Hm%list_elem_of_In & Hc'). pose proof (parse_net_String m (He _ Hm)) as Hp'. unfold parse_net in Hp'.
    rewrite (Hex (IPNet_String m) m) in Hc'; [done| |done]. by apply list_elem_of_fmap_2.
Qed.

Lemma calculate_ports_simple ports : Forall simple_port ports →
  ∃ ps, mapM calculate_port ports = Some ps ∧ Forall good_port ps ∧
    ∀ pkt, ports_allow ps pkt = true ↔ ports = [] ∨ ∃ port, port ∈ ports ∧ policy_port_allows port pkt.
Proof.
  intros Hports.
  assert (∃ ps, mapM calculate_port ports = Some ps ∧ Forall good_port ps ∧ length ps = length ports ∧ ∀ pkt,
    existsb (λ port, bool_decide (port_proto port = pkt_proto pkt) && port_matches (Port_Number port) (pkt_dport pkt)) ps = true ↔
    ∃ port, port ∈ ports ∧ policy_port_allows port pkt) as (ps & Hps & Hg & Hl & Hall).
  { induction Hports as [|port ports (p & Hp & _ & Hr) _ (ps & Hps & Hg & Hl & IH)].
    { exists []. split_and!; [done|constructor|done|]. intros pkt. split; [done|]. by intros (? & []%elem_of_nil & _). }
    assert (calculate_port port = Some (mkPort (if bool_decide (PP_Protocol port = ProtoUDP) then PortUDP else PortTCP) (u16 (PNN_Number p))))
      as Hcp by (unfold calculate_port; by rewrite Hp).
    cbn [mapM]. rewrite Hcp, Hps. cbn [mbind option_bind].
    assert (u16 (PNN_Number p) = PNN_Number p) as Hu by (unfold wrap; apply Z.mod_small; lia).
    eexists. split; [done|]. split_and!; [constructor; [unfold good_port; simpl; lia|done]|simpl; by rewrite Hl|].
    intros pkt. cbn [existsb]. rewrite orb_true_iff, IH, andb_true_iff, bool_decide_eq_true. setoid_rewrite elem_of_cons.
    cbn [Port_Number]. rewrite Hu. unfold port_matches. rewrite orb_true_iff, !Z.eqb_eq.
    assert (port_proto (mkPort (if bool_decide (PP_Protocol port = ProtoUDP) then PortUDP else PortTCP) (PNN_Number p)) = pkt_proto pkt ↔
      pkt_proto pkt = match PP_Protocol port with ProtoTCP => TCP | ProtoUDP => UDP end) as Hproto.
    { unfold port_proto. cbn [Port_Protocol]. destruct (PP_Protocol port); simpl; split; congruence. }
    rewrite Hproto. split.
    - intros [[H1 H2]|(q & Hq & Ha)]; [exists port; split; [by left|]; by exists p|exists q; auto].
    - intros (q & [->|Hq] & Ha); [|right; eauto]. left. destruct Ha as (p' & Hp' & H1 & H2). rewrite Hp in Hp'. by simplify_eq. }
  exists ps. split_and!; [done..|]. intros pkt. unfold ports_allow. rewrite orb_true_iff, Hall, Nat.eqb_eq, Hl.
  destruct ports; simpl; [tauto|]. split; intros [?|?]; (done || tauto).
Qed.

Section composition.
Context `{RangeOracle} {MP MO MN : Type} `{!NamedMapping MP Policy, !NamedMapping MO Pod, !NamedMapping MN Namespace}.
Context `{!NamedMappingLaws MP Policy, !NamedMappingLaws MO Pod, !NamedMappingLaws MN Namespace}.
Variable pc : PolicyCache MP MO MN.
Hypothesis Hindexed : indexed_maps pc.
Hypothesis Hstate : simple_state (cache_view pc).

#[local] Instance lookup : PodLookup := cache_PodLookup pc.
#[local] Abbreviation pods_of_cache := (ks_pods (cache_view pc)).
#[local] Abbreviation policies_of_cache := (ks_policies (cache_view pc)).

Lemma lookup_pod i : LookupPod i = (true, pods_of_cache !! PodID_String i).
Proof.
  unfold LookupPod, lookup, cache_PodLookup, cache_LookupPod, podidx_LookupPod. rewrite nm_get. cbn [cache_view ks_pods].
  rewrite lookup_fmap. by destruct (nm_view _ !! _).
Qed.

Lemma lookup_policy i : cache_LookupPolicy pc i = (true, policies_of_cache !! PolicyID_String i).
Proof.
  unfold cache_LookupPolicy, policyidx_LookupPolicy. rewrite nm_get. cbn [cache_view ks_policies]. rewrite lookup_fmap. by destruct (nm_view _ !! _).
Qed.

Lemma peer_net_pod i d : pods_of_cache !! PodID_String i = Some d → peer_net i = pod_net d.
Proof. intros Hd. unfold peer_net. rewrite lookup_pod, Hd. done. Qed.

Lemma known_pod_iff i : known_pod i ↔ is_Some (pods_of_cache !! PodID_String i).
Proof. unfold known_pod. rewrite lookup_pod. simpl. tauto. Qed.

Lemma no_selector ns : ns ∉ pod_indexes → cache_LookupPodsByNSLabelSelector pc ns None = Some [].
Proof.
  intros Hns. unfold cache_LookupPodsByNSLabelSelector, podidx_LookupPodsByNamespace.
  assert (default [] (ListNames (configuredPods pc) ns ns) = []) as ->; [|done].
  apply elem_of_nil_inv. intros k (d & ix & l & Hk & Hix & _)%nm_names. rewrite (im_pods _ Hindexed _ _ _ Hk) in Hix.
  unfold pod_indexes in Hns. rewrite !not_elem_of_cons in Hns. destruct Hns as (H1 & H2 & H3 & H4 & H5 & _).
  unfold pod_IndexFunction in Hix. by rewrite !lookup_insert_ne, lookup_empty in Hix by done.
Qed.

(** The pods of a match are pods of the cache. *)
Definition cached_pod (i : PodID) : Prop := ∃ d, pods_of_cache !! PodID_String i = Some d ∧ i = pod_GetID (Some d).

Definition some_pod (pods : list PodID) (ip : IP) : bool :=
  existsb (λ pod, if peer_net pod is Some n then net_matches n ip else false) pods.

Lemma some_pod_spec pods ip : Forall cached_pod pods → some_pod pods ip = true ↔
  ∃ i d n, i ∈ pods ∧ pods_of_cache !! PodID_String i = Some d ∧ pod_net d = Some n ∧ net_matches n ip = true.
Proof.
  intros Hp. rewrite Forall_forall in Hp. unfold some_pod. rewrite existsb_exists. split.
  - intros (i & Hi%list_elem_of_In & Hm). destruct (Hp i Hi) as (d & Hd & _). rewrite (peer_net_pod i d Hd) in Hm.
    destruct (pod_net d) as [n|] eqn:Hn; [|done]. by exists i, d, n.
  - intros (i & d & n & Hi & Hd & Hn & Hm). exists i. split; [by apply list_elem_of_In|]. by rewrite (peer_net_pod i d Hd), Hn.
Qed.

(** One peer. *)
Lemma calculate_peer_simple ns peer pods blocks : no_slash ns → ns ∉ pod_indexes → simple_peer peer →
  ∃ ps bs, calculate_peer pc ns (pods, blocks) peer = Some (pods ++ ps, blocks ++ bs) ∧ Forall cached_pod ps ∧
    Forall canonical_block bs ∧ length bs = length (omap Peer_IpBlock [peer]) ∧
    ∀ ip, some_pod ps ip || existsb (λ b, block_contains b ip) bs = true ↔ peer_allows (cache_view pc) ns peer ip.
Proof.
  intros Hns Hidx [_ [(labels & Hsel & Hlabels & Hb)|(Hsel & block & Hb & b & Hcb & Hc & Hx)]]; unfold calculate_peer; rewrite Hsel, Hb.
  - destruct (pods_by_selector pc Hindexed (ss_good _ Hstate) ns labels Hns Hlabels) as (ids & -> & _ & Hin). cbn [mbind option_bind].
    assert (Forall cached_pod ids) as Hids. { apply Forall_forall. intros i (d & Hd & Hi & _)%Hin. by exists d. }
    exists ids, []. rewrite app_nil_r. cbn [omap list_omap]. rewrite Hb. split_and!; [done|done|constructor|done|].
    intros ip. cbn [existsb]. rewrite orb_false_r, some_pod_spec by done. unfold peer_allows. rewrite Hsel, Hb. split.
    + intros (i & d & n & (d' & Hd' & _ & Hl)%Hin & Hd & Hn & Hm). left. assert (d' = d) as -> by congruence. by eexists _, _, d, n.
    + intros [(sel & k & d & n & [= <-] & Hk & Hl & Hn & Hm)|(block & n & [=] & _)]. cbn [LS_MatchLabel] in Hl.
      destruct (proj1 (ss_good _ Hstate) _ _ Hk) as [-> _]. exists (pod_GetID (Some d)), d, n. split_and!; [|done..]. apply Hin. by exists d.
  - rewrite no_selector by done. cbn [mbind option_bind]. rewrite (calculate_block_simple block b) by done. cbn [mbind option_bind].
    exists [], [b]. cbn [omap list_omap]. rewrite Hb, app_nil_r.
    split; [done|]. split; [by apply Forall_nil|]. split; [by apply Forall_singleton|]. split; [done|].
    intros ip. cbn [existsb some_pod]. rewrite orb_false_r, orb_false_l, (simple_block_allows block b) by done.
    unfold peer_allows. rewrite Hsel, Hb. split.
    + intros (n & Hn & Hin & Hex). right. by exists block, n.
    + intros [(sel & k & d & n & [=] & _)|(block' & n & [= <-] & Hn & Hin & Hex)]. by exists n.
Qed.

Lemma calculate_peers_simple ns peers pods blocks : no_slash ns → ns ∉ pod_indexes → Forall simple_peer peers →
  ∃ ps bs, foldM (calculate_peer pc ns) (pods, blocks) peers = Some (pods ++ ps, blocks ++ bs) ∧ Forall cached_pod ps ∧
    Forall canonical_block bs ∧ length bs = length (omap Peer_IpBlock peers) ∧
    ∀ ip, some_pod ps ip || existsb (λ b, block_contains b ip) bs = true ↔ ∃ peer, peer ∈ peers ∧ peer_allows (cache_view pc) ns peer ip.
Proof.
  intros Hns Hidx Hpeers. revert pods blocks. induction Hpeers as [|peer peers Hpeer _ IH]; intros pods blocks; cbn [foldM].
  { exists [], []. rewrite !app_nil_r. split_and!; [done|constructor|constructor|done|]. intros ip. split; [done|].
    by intros (? & []%elem_of_nil & _). }
  destruct (calculate_peer_simple ns peer pods blocks Hns Hidx Hpeer) as (ps & bs & -> & Hp & Hb & Hl & Hip). cbn [mbind option_bind].
  destruct (IH (pods ++ ps) (blocks ++ bs)) as (ps' & bs' & -> & Hp' & Hb' & Hl' & Hip').
  exists (ps ++ ps'), (bs ++ bs'). rewrite !app_assoc. split_and!; [done|by apply Forall_app|by apply Forall_app| |].
  - rewrite length_app, Hl, Hl'. cbn [omap list_omap]. destruct (Peer_IpBlock peer); done.
  - intros ip. unfold some_pod. rewrite !existsb_app. setoid_rewrite elem_of_cons. split.
    + intros Hor. assert (some_pod ps ip || existsb (λ b, block_contains b ip) bs = true ∨
        some_pod ps' ip || existsb (λ b, block_contains b ip) bs' = true) as [Ho|Ho].
      { unfold some_pod. rewrite !orb_true_iff in *. tauto. }
      * apply Hip in Ho. exists peer. auto.
      * apply Hip' in Ho as (q & Hq & Ha). exists q. auto.
    + intros (q & [->|Hq] & Ha).
      * apply Hip in Ha. unfold some_pod in Ha. rewrite !orb_true_iff in *. tauto.
      * assert (∃ peer, peer ∈ peers ∧ peer_allows (cache_view pc) ns peer ip) as Ha' by eauto. apply Hip' in Ha'.
        unfold some_pod in Ha'. rewrite !orb_true_iff in *. tauto.
Qed.

(** One rule. *)
Lemma calculate_match_simple ns direction rule : no_slash ns → ns ∉ pod_indexes → simple_rule rule →
  ∃ m, calculate_match pc ns direction rule = Some m ∧ Match_Type m = direction ∧ good_match m ∧
    Forall good_pod (default [] (Match_Pods m)) ∧ Forall good_port (Match_Ports m) ∧
    ∀ pkt, match_allows direction m pkt = true ↔ rule_allows (cache_view pc) ns direction rule pkt.
Proof.
  intros Hns Hidx (Hpeers & Hports & Hone). unfold calculate_match.
  destruct (calculate_peers_simple ns (PR_Peers rule) [] [] Hns Hidx Hpeers) as (ps & bs & -> & Hp & Hb & Hl & Hip). cbn [mbind option_bind].
  destruct (calculate_ports_simple _ Hports) as (ports & -> & Hg & Hpa). cbn [mbind option_bind]. eexists. split; [done|]. cbn [Match_Type].
  assert (Forall cached_pod (default [] (if length (PR_Peers rule) =? 0 then None else Some ps))) as Hc.
  { destruct (_ =? 0); [constructor|done]. }
  split; [done|]. split; [split_and!|split_and!].
  - cbn [Match_Pods]. eapply Forall_impl; [exact Hc|]. intros i (d & Hd & _). apply known_pod_iff. by eexists.
  - cbn [Match_IPBlocks]. destruct (_ =? 0); [constructor|done].
  - cbn [Match_IPBlocks]. destruct (_ =? 0); simpl; [lia|]. by rewrite Hl.
  - cbn [Match_Pods]. eapply Forall_impl; [exact Hc|]. intros i (d & Hd & ->). by apply (ss_pods _ Hstate _ _ Hd).
  - done.
  - intros pkt. unfold match_allows, rule_allows. cbn [Match_Pods Match_IPBlocks Match_Ports]. rewrite andb_true_iff, Hpa.
    destruct (PR_Peers rule) as [|peer peers] eqn:Hpe; cbn [length Nat.eqb any_peer Match_Pods Match_IPBlocks default from_option id].
    + simpl. tauto.
    + rewrite orb_false_l. specialize (Hip (peer_ip direction pkt)). unfold some_pod in Hip. rewrite Hip.
      split; intros [Hd ?]; (split; [|done]); [by right|by destruct Hd].
Qed.

Lemma calculate_rules_simple ns direction rules : no_slash ns → ns ∉ pod_indexes → Forall simple_rule rules →
  ∃ ms, mapM (calculate_match pc ns direction) rules = Some ms ∧
    Forall (λ m, Match_Type m = direction ∧ good_match m ∧ Forall good_pod (default [] (Match_Pods m)) ∧ Forall good_port (Match_Ports m)) ms ∧
    ∀ pkt, (∃ m, m ∈ ms ∧ match_allows direction m pkt = true) ↔
      ∃ rule, rule ∈ rules ∧ rule_allows (cache_view pc) ns direction rule pkt.
Proof.
  intros Hns Hidx. induction 1 as [|rule rules Hrule _ (ms & Hms & Hgood & IH)].
  { exists []. split; [done|]. split; [by apply Forall_nil|]. intros pkt. split; by intros (? & []%elem_of_nil & _). }
  destruct (calculate_match_simple ns direction rule Hns Hidx Hrule) as (m & Hm & Ht & Hg & Hpods & Hports & Ha).
  exists (m :: ms). cbn [mapM]. rewrite Hm, Hms. split; [done|]. split; [by apply Forall_cons|].
  intros pkt. setoid_rewrite elem_of_cons. specialize (IH pkt). specialize (Ha pkt). split.
  - intros (m' & [->|Hin] & Hm'); [exists rule; tauto|]. destruct IH as [IH _]. destruct IH as (r & Hr & Hra); [by exists m'|]. exists r. auto.
  - intros (r & [->|Hin] & Hr); [exists m; tauto|]. destruct IH as [_ IH]. destruct IH as (m' & Hm' & Hma); [by exists r|]. exists m'. auto.
Qed.

(** The Contiv policy of a policy. *)
Definition contiv_policy (p : Policy) : ContivPolicy :=
  mkContivPolicy (policy_GetID (Some p)) (policy_type (Policy_Type p)) (default [] (calculateMatches pc p)).

Lemma contiv_policy_simple k p : policies_of_cache !! k = Some p →
  calculateMatches pc p = Some (CPolicy_Matches (contiv_policy p)) ∧
  Forall (λ m, good_match m ∧ Forall good_pod (default [] (Match_Pods m)) ∧ Forall good_port (Match_Ports m)) (CPolicy_Matches (contiv_policy p)) ∧
  ∀ direction pkt, (∃ m, m ∈ CPolicy_Matches (contiv_policy p) ∧ Match_Type m = direction ∧ match_allows direction m pkt = true) ↔
    ∃ rule, rule ∈ dir_rules direction p ∧ rule_allows (cache_view pc) (Policy_Namespace p) direction rule pkt.
Proof.
  intros Hk. destruct (proj2 (ss_good _ Hstate) _ _ Hk) as (_ & Hns & _). pose proof (ss_namespaces _ Hstate _ _ Hk) as Hidx.
  pose proof (ss_rules _ Hstate _ _ Hk) as Hrules. apply Forall_app in Hrules as [Hin Heg].
  destruct (calculate_rules_simple _ MatchIngress _ Hns Hidx Hin) as (mi & Hmi & Hgi & Hai).
  destruct (calculate_rules_simple _ MatchEgress _ Hns Hidx Heg) as (me & Hme & Hge & Hae).
  assert (calculateMatches pc p = Some (mi ++ me)) as Hcalc by (unfold calculateMatches; rewrite Hmi, Hme; done).
  unfold contiv_policy. rewrite Hcalc. cbn [CPolicy_Matches default from_option id]. split; [done|]. split.
  - apply Forall_app. split; [eapply Forall_impl; [exact Hgi|]|eapply Forall_impl; [exact Hge|]]; intros m (_ & ?); done.
  - intros direction pkt. rewrite Forall_forall in Hgi, Hge. setoid_rewrite elem_of_app. destruct direction; cbn [dir_rules];
      [rewrite <- Hai|rewrite <- Hae]; split.
    + intros (m & [Hm|Hm] & Ht & Ha); [by exists m|]. destruct (Hge m Hm) as [Ht' _]. congruence.
    + intros (m & Hm & Ha). destruct (Hgi m Hm) as [Ht _]. exists m. auto.
    + intros (m & [Hm|Hm] & Ht & Ha); [|by exists m]. destruct (Hgi m Hm) as [Ht' _]. congruence.
    + intros (m & Hm & Ha). destruct (Hge m Hm) as [Ht _]. exists m. auto.
Qed.

Lemma affects_skips k p direction : policies_of_cache !! k = Some p → skips direction (contiv_policy p) = false ↔ affects direction p.
Proof.
  intros Hk. pose proof (ss_default _ Hstate _ _ Hk) as Hd. unfold skips, affects. cbn [contiv_policy CPolicy_Type].
  destruct (Policy_Type p), direction; simpl; try (split; done). rewrite Hd by done. split; done.
Qed.

(** *** The policies of a pod *)

(** The list holds the policies that select the pod, translated. *)
Definition translated (d : Pod) (ps : list ContivPolicy) : Prop :=
  ∀ c, c ∈ ps ↔ ∃ k p, policies_of_cache !! k = Some p ∧ selects p d ∧ c = contiv_policy p.

Lemma process_policies ids acc : (∀ i, i ∈ ids → ∃ p, policies_of_cache !! PolicyID_String i = Some p ∧ i = policy_GetID (Some p)) →
  ∃ ps, foldM (process_policy pc) acc ids = Some (acc ++ ps) ∧
    ∀ c, c ∈ ps ↔ ∃ i p, i ∈ ids ∧ policies_of_cache !! PolicyID_String i = Some p ∧ c = contiv_policy p.
Proof.
  revert acc. induction ids as [|i ids IH]; intros acc Hids; cbn [foldM].
  { exists []. rewrite app_nil_r. split; [done|]. intros c. rewrite elem_of_nil. split; [done|]. by intros (? & ? & []%elem_of_nil & _). }
  destruct (Hids i) as (p & Hp & Hi); [by left|].
  assert (process_policy pc acc i = Some (acc ++ [contiv_policy p])) as ->.
  { unfold process_policy. rewrite lookup_policy, Hp. cbn [negb mbind option_bind].
    destruct (contiv_policy_simple _ _ Hp) as (Hc & _). rewrite Hc. done. }
  cbn [mbind option_bind]. destruct (IH (acc ++ [contiv_policy p])) as (ps & -> & Hin); [intros j Hj; apply Hids; by right|].
  exists (contiv_policy p :: ps). rewrite <- app_assoc. split; [done|]. intros c. rewrite elem_of_cons, Hin. setoid_rewrite elem_of_cons. split.
  - intros [->|(j & q & Hj & Hq & ->)]; [exists i, p; auto|exists j, q; auto].
  - intros (j & q & [->|Hj] & Hq & ->); [left; congruence|right; by exists j, q].
Qed.

Lemma process_pod_ok txn i d : pods_of_cache !! PodID_String i = Some d → i = pod_GetID (Some d) →
  ∃ ps, process_pod pc txn i = Some (Configure txn i ps) ∧ translated d ps.
Proof.
  intros Hd Hi. destruct (proj1 (ss_good _ Hstate) _ _ Hd) as (_ & Hns & Hname & _).
  destruct (policies_of_pod pc Hindexed (ss_good _ Hstate) (ss_policies _ Hstate) i) as (ids & Hids & _ & Hin); [by rewrite Hi..|].
  unfold process_pod. rewrite Hids. cbn [mbind option_bind].
  destruct (process_policies ids []) as (ps & -> & Hps).
  { intros j (d' & p & _ & Hp & Hj & _)%Hin. by exists p. }
  exists ps. split; [done|]. intros c. rewrite Hps. split.
  - intros (j & p & (d' & p' & Hd' & Hp' & _ & Hs)%Hin & Hp & ->). rewrite Hd in Hd'. rewrite Hp in Hp'. simplify_eq. eauto.
  - intros (k & p & Hp & Hs & ->). destruct (proj2 (ss_good _ Hstate) _ _ Hp) as (-> & _).
    exists (policy_GetID (Some p)), p. split; [|done]. apply Hin. by exists d, p.
Qed.

Lemma process_pods_ok pods txn : Forall cached_pod pods →
  (∀ i ps, ct_config txn !! i = Some ps → ∃ d, pods_of_cache !! PodID_String i = Some d ∧ i = pod_GetID (Some d) ∧ translated d ps) →
  ∃ txn', foldM (process_pod pc) txn pods = Some txn' ∧ ct_resync txn' = ct_resync txn ∧
    (∀ i, is_Some (ct_config txn' !! i) ↔ i ∈ pods ∨ is_Some (ct_config txn !! i)) ∧
    ∀ i ps, ct_config txn' !! i = Some ps → ∃ d, pods_of_cache !! PodID_String i = Some d ∧ i = pod_GetID (Some d) ∧ translated d ps.
Proof.
  intros Hpods. revert txn. induction Hpods as [|i pods (d & Hd & Hi) _ IH]; intros txn Htxn; cbn [foldM].
  { exists txn. split_and!; [done|done| |done]. intros i. rewrite elem_of_nil. tauto. }
  destruct (process_pod_ok txn i d Hd Hi) as (ps & -> & Hps). cbn [mbind option_bind].
  destruct (IH (Configure txn i ps)) as (txn' & Hrun & Hr & Hdom & Hall).
  { intros j qs. cbn [Configure ct_config]. intros [[<- <-]|[_ Hj]]%lookup_insert_Some; [by exists d|by apply Htxn]. }
  exists txn'. split_and!; [done|by rewrite Hr| |done]. intros j. rewrite Hdom, elem_of_cons. cbn [Configure ct_config].
  rewrite lookup_insert_is_Some'. split; [intros [?|[->|?]]; auto|intros [[->|?]|?]; auto].
Qed.

Lemma policies_allow_k8s direction d ps pkt : translated d ps →
  policies_allow direction ps pkt = true ↔ k8s_allows (cache_view pc) direction d pkt.
Proof.
  intros Hps. rewrite policies_allow_skips. cbv zeta. set (applying := filter _ ps).
  assert (∀ c, c ∈ applying ↔ ∃ p, restricts (cache_view pc) direction d p ∧ c = contiv_policy p) as Happ.
  { intros c. unfold applying. rewrite list_elem_of_filter, (Hps c). split.
    - intros (Hskip & k & p & Hp & Hs & ->). exists p. split; [|done]. rewrite (affects_skips k) in Hskip by done. split_and!; eauto.
    - intros (p & ((k & Hp) & Hs & Ha) & ->). rewrite (affects_skips k) by done. split; [done|]. by exists k, p. }
  rewrite orb_true_iff, Nat.eqb_eq, existsb_exists. unfold k8s_allows. split.
  - intros [Hnil%nil_length_inv|(c & Hc%list_elem_of_In & Hm)].
    + left. intros p Hp. assert (contiv_policy p ∈ applying) as Hin by (apply Happ; eauto). rewrite Hnil in Hin. by apply elem_of_nil in Hin.
    + right. apply Happ in Hc as (p & Hp & ->). apply existsb_exists in Hm as (m & Hm%list_elem_of_In & [Ht Ha]%andb_true_iff).
      apply bool_decide_eq_true in Ht. pose proof Hp as ((k & Hk) & _).
      destruct (contiv_policy_simple k p Hk) as (_ & _ & Hiff). destruct (proj1 (Hiff direction pkt)) as (rule & Hr & Hra); [by exists m|].
      by exists p, rule.
  - intros [Hnone|(p & rule & Hp & Hr & Hra)].
    + left. destruct applying as [|c l]; [done|]. exfalso. destruct (proj1 (Happ c)) as (p & Hp & _); [by left|]. by apply (Hnone p).
    + right. pose proof Hp as ((k & Hk) & _). destruct (contiv_policy_simple k p Hk) as (_ & _ & Hiff).
      destruct (proj2 (Hiff direction pkt)) as (m & Hm & Ht & Ha); [by exists rule|].
      exists (contiv_policy p). split; [apply list_elem_of_In, Happ; eauto|]. apply existsb_exists. exists m.
      split; [by apply list_elem_of_In|]. rewrite andb_true_iff, bool_decide_eq_true. done.
Qed.

Lemma translated_good d ps : translated d ps → good_policies ps.
Proof.
  intros Hps. assert (∀ c m, c ∈ ps → m ∈ CPolicy_Matches c →
    good_match m ∧ Forall good_pod (default [] (Match_Pods m)) ∧ Forall good_port (Match_Ports m)) as Hm.
  { intros c m (k & p & Hp & _ & ->)%Hps Hm. destruct (contiv_policy_simple k p Hp) as (_ & Hall & _).
    rewrite Forall_forall in Hall. by apply Hall. }
  constructor; [apply Hm|apply Hm|apply Hm|].
  intros c c' (k & p & Hp & _ & ->)%Hps (k' & q & Hq & _ & ->)%Hps. apply (ss_names _ Hstate _ _ _ _ Hp Hq).
Qed.

Lemma processed_good_config txn :
  (∀ i ps, ct_config txn !! i = Some ps → ∃ d, pods_of_cache !! PodID_String i = Some d ∧ i = pod_GetID (Some d) ∧ translated d ps) →
  good_config (ct_config txn).
Proof.
  intros Htxn. split.
  - intros i ps (d & Hd & _ & Hps)%Htxn. split; [apply known_pod_iff; by eexists|by apply (translated_good d)].
  - intros i ps i' ps' c c' (d & _ & _ & Hps)%Htxn (d' & _ & _ & Hps')%Htxn (k & p & Hp & _ & ->)%Hps (k' & q & Hq & _ & ->)%Hps'.
    cbn [contiv_policy CPolicy_ID]. intros Hid. destruct (proj2 (ss_good _ Hstate) _ _ Hp) as [Hk _].
    destruct (proj2 (ss_good _ Hstate) _ _ Hq) as [Hk' _]. unfold policy_name in Hk, Hk'. rewrite Hid, <- Hk' in Hk. congruence.
Qed.

(** ** The theorems *)

(** What is rendered for the processed pods. *)
Definition renders (pods : list PodID) (calls : list RenderCall) : Prop :=
  NoDup (rc_pod <$> calls) ∧
  (∀ i, i ∈ rc_pod <$> calls ↔ i ∈ pods ∧ ∃ d, pods_of_cache !! PodID_String i = Some d ∧ is_Some (pod_net d)) ∧
  ∀ call, call ∈ calls → ∃ d, pods_of_cache !! PodID_String (rc_pod call) = Some d ∧ pod_net d = Some (rc_podIP call) ∧
    ∀ pkt, wf_bytes (pkt_src pkt) → wf_bytes (pkt_dst pkt) →
      (rules_allow (rc_ingress call) pkt = true ↔ k8s_allows (cache_view pc) MatchEgress d pkt) ∧
      (rules_allow (rc_egress call) pkt = true ↔ k8s_allows (cache_view pc) MatchIngress d pkt).

Lemma renders_decide pods txn : foldM (process_pod pc) (Configurator_NewTxn false) pods = Some txn → Forall cached_pod pods →
  ct_resync txn = false ∧ ∃ calls, render_calls txn = Some calls ∧ renders pods calls.
Proof.
  intros Hrun Hpods. destruct (process_pods_ok pods (Configurator_NewTxn false) Hpods) as (txn' & Hrun' & Hr & Hdom & Hall).
  { intros i ps. cbn [Configurator_NewTxn ct_config]. by rewrite lookup_empty. }
  rewrite Hrun in Hrun'. injection Hrun' as <-. split; [done|].
  destruct (render_calls_decide txn (processed_good_config txn Hall)) as (calls & Hc & Hnd & Hin & Hdec).
  exists calls. split; [done|]. split; [done|]. split.
  - intros i. rewrite Hin, Hdom. cbn [Configurator_NewTxn ct_config]. rewrite lookup_empty. rewrite Forall_forall in Hpods. split.
    + intros [[Hi|[? [=]]] Hn]. split; [done|]. destruct (Hpods i Hi) as (d & Hd & _). exists d. split; [done|]. by rewrite <- (peer_net_pod i d Hd).
    + intros [Hi (d & Hd & Hn)]. split; [by left|]. by rewrite (peer_net_pod i d Hd).
  - intros call (ps & Hps & Hn & Hpkt)%Hdec. destruct (Hall _ _ Hps) as (d & Hd & _ & Htr). exists d. split; [done|].
    rewrite <- (peer_net_pod _ d Hd). split; [done|]. intros pkt Hs Hdst. destruct (Hpkt pkt Hs Hdst) as [-> ->].
    split; by apply policies_allow_k8s.
Qed.

Context {R E : Type} `{!PolicyRenderer R E} (arrival : list (option E) → list (option E)).

(** The run of [Process] and its transaction. *)
Lemma Process_run pp resync pods : Forall cached_pod pods →
  ∃ txn calls, good_config (ct_config txn) ∧ render_calls txn = Some calls ∧ renders pods calls ∧
    Process arrival pc pp resync pods = Some (
      if calls is [] then (pp, None)
      else let results := (λ r, renderer_run r false calls) <$> renderers (pp_Configurator pp) in
        (mkPolicyProcessor (podIPAddressMap pp) (mkPolicyConfigurator results.*1 (parallelRendering (pp_Configurator pp))),
         last_error (if parallelRendering (pp_Configurator pp) then arrival results.*2 else results.*2))).
Proof.
  intros Hpods. destruct (process_pods_ok pods (Configurator_NewTxn false) Hpods) as (txn & Hrun & _ & _ & Hall).
  { intros i ps. cbn [Configurator_NewTxn ct_config]. by rewrite lookup_empty. }
  destruct (renders_decide pods txn Hrun Hpods) as (Hr & calls & Hc & Hren).
  exists txn, calls. split; [by apply processed_good_config|]. split; [done|]. split; [done|].
  unfold Process. rewrite Hrun. cbn [mbind option_bind]. unfold Configurator_Commit. fold lookup. rewrite Hc, Hr. cbn [mbind option_bind].
  destruct calls as [|call calls]; [by destruct pp as [? []]|done].
Qed.

Lemma Process_renders pp resync pods : Forall cached_pod pods →
  ∃ calls err, Process arrival pc pp resync pods = Some (mkPolicyProcessor (podIPAddressMap pp)
      (mkPolicyConfigurator (if calls is [] then renderers (pp_Configurator pp)
        else (λ r, (renderer_run r false calls).1) <$> renderers (pp_Configurator pp)) (parallelRendering (pp_Configurator pp))), err) ∧
    renders pods calls.
Proof.
  intros Hpods. destruct (Process_run pp resync pods Hpods) as (txn & calls & _ & _ & Hren & ->). exists calls.
  destruct calls as [|call calls]; eexists; (split; [|exact Hren]).
  - by destruct pp as [? []].
  - cbv zeta. by rewrite <- list_fmap_compose.
Qed.

(** C4. From Kubernetes to the renderers. Let the indexes of the cache be those of
    its objects and its state be a [simple_state]: names and label values without
    slashes, namespaces without dots, no policy whose name continues another one's
    with a dash; policies that select pods by one or two labels without
    expressions, without egress rules if their type is the default; peers that
    are pod selectors of the same shape in the namespace of the policy or IPv4
    blocks in canonical form, at most one block in a rule; ports by number. Then
    [Process] of pods of the cache does not panic and hands to every renderer one
    transaction that holds exactly one call for each of the pods that has an
    address (none if there is no such pod), and the rules of the call let a packet
    pass in a direction iff no policy of the cache that selects the pod affects
    the direction, or a rule of such a policy allows the peer (its labels, or its
    address outside the exceptions of a block) and the port. The exception that
    policy.proto documents for traffic from the node of the pod is not made. *)
Theorem Process_correct pp resync pods : Forall cached_pod pods →
  ∃ calls err, Process arrival pc pp resync pods = Some (mkPolicyProcessor (podIPAddressMap pp)
      (mkPolicyConfigurator (if calls is [] then renderers (pp_Configurator pp)
        else (λ r, (renderer_run r false calls).1) <$> renderers (pp_Configurator pp)) (parallelRendering (pp_Configurator pp))), err) ∧
    renders pods calls.
Proof. apply Process_renders. Qed.

(** ** Which pods an event reprocesses *)

Variable hostNetwork : IPNet.

(** A pod of this node. *)
Definition on_node (d : Pod) : Prop := IPNet_Contains hostNetwork (ParseIP (Pod_IpAddress d)) = true.

(** The loop keeps the pods whose address [f] is in the network of the node. *)
Lemma host_pods_by address (f : Pod → string) pods : (∀ d, address (Some d) = Some (f d)) → Forall cached_pod pods →
  ∃ hps, host_pods hostNetwork pc address pods = Some hps ∧ Forall cached_pod hps ∧
    ∀ i, i ∈ hps ↔ i ∈ pods ∧ ∃ d, pods_of_cache !! PodID_String i = Some d ∧ IPNet_Contains hostNetwork (ParseIP (f d)) = true.
Proof.
  intros Haddr Hpods. unfold host_pods. match goal with |- context [foldM ?g _ _] => set (step := g) end.
  assert (∀ acc, ∃ hps, foldM step acc pods = Some (acc ++ hps) ∧ Forall cached_pod hps ∧
    ∀ i, i ∈ hps ↔ i ∈ pods ∧ ∃ d, pods_of_cache !! PodID_String i = Some d ∧ IPNet_Contains hostNetwork (ParseIP (f d)) = true) as Hgen;
      [|apply (Hgen [])].
  induction Hpods as [|i pods (d & Hd & Hi) _ IH]; intros acc; cbn [foldM].
  { exists []. rewrite app_nil_r. split; [done|]. split; [by apply Forall_nil|]. intros i. rewrite !elem_of_nil. tauto. }
  assert (step acc i = Some (acc ++ if IPNet_Contains hostNetwork (ParseIP (f d)) then [i] else [])) as ->.
  { unfold step. change (cache_LookupPod pc i) with (LookupPod i). rewrite lookup_pod, Hd. cbn [negb]. rewrite Haddr. cbn [mbind option_bind].
    destruct (IPNet_Contains _ _); [done|by rewrite app_nil_r]. }
  cbn [mbind option_bind]. destruct (IPNet_Contains hostNetwork (ParseIP (f d))) eqn:Hc.
  - destruct (IH (acc ++ [i])) as (hps & -> & Hall & Hin). exists (i :: hps). rewrite <- app_assoc. split; [done|].
    split; [apply Forall_cons; split; [by exists d|done]|]. intros j. rewrite !elem_of_cons, Hin. split.
    + intros [->|[Hj ?]]; [split; [by left|]; by exists d|auto].
    + intros [[->|Hj] ?]; auto.
  - rewrite app_nil_r. destruct (IH acc) as (hps & -> & Hall & Hin). exists hps. split; [done|]. split; [done|].
    intros j. rewrite elem_of_cons, Hin. split; [tauto|]. intros [[->|Hj] (d' & Hd' & Hn)]; [|eauto].
    exfalso. congruence.
Qed.

Lemma host_pods_spec pods : Forall cached_pod pods →
  ∃ hps, host_pods hostNetwork pc data_address pods = Some hps ∧ Forall cached_pod hps ∧
    ∀ i, i ∈ hps ↔ i ∈ pods ∧ ∃ d, pods_of_cache !! PodID_String i = Some d ∧ on_node d.
Proof. by apply (host_pods_by data_address Pod_IpAddress). Qed.

(** Selected pods are in the cache. *)
Lemma selected_pods ns labels : no_slash ns → simple_labels labels →
  ∃ ids, cache_LookupPodsByNSLabelSelector pc ns (Some (mkLabelSelector labels [])) = Some ids ∧ Forall cached_pod ids ∧
    ∀ i, i ∈ ids ↔ ∃ d, pods_of_cache !! PodID_String i = Some d ∧ i = pod_GetID (Some d) ∧ has_labels ns labels d.
Proof.
  intros Hns Hl. destruct (pods_by_selector pc Hindexed (ss_good _ Hstate) ns labels Hns Hl) as (ids & Hids & _ & Hin).
  exists ids. split; [done|]. split; [|done]. apply Forall_forall. intros i (d & Hd & Hi & _)%Hin. by exists d.
Qed.

(** Duplicates are removed through the names. *)
Lemma unique_pods site pods : Forall cached_pod pods →
  ∃ ids, UnstringPodID (RemoveDuplicates site (StringPodID pods)) = Some ids ∧ Forall cached_pod ids ∧ ∀ i, i ∈ ids ↔ i ∈ pods.
Proof.
  intros Hpods. destruct (RemoveDuplicates_spec site (StringPodID pods)) as [Hnd Hin]. rewrite Forall_forall in Hpods.
  assert (∀ i, cached_pod i → no_slash (PodID_Namespace i) ∧ no_slash (PodID_Name i)) as Hfree.
  { intros i (d & Hd & ->). by destruct (proj1 (ss_good _ Hstate) _ _ Hd) as (_ & ? & ? & _). }
  destruct (Unstring_pods _ Hnd) as (ids & Hids & _ & Hids').
  { intros k (i & -> & Hi)%Hin%list_elem_of_fmap. exists i. split; [done|]. by apply Hfree, Hpods. }
  assert (∀ i, i ∈ ids ↔ i ∈ pods) as Hiff.
  { intros i. rewrite Hids', Hin. unfold StringPodID. rewrite list_elem_of_fmap. split.
    - intros ((j & Heq & Hj) & Hns & Hn). destruct (Hfree j (Hpods j Hj)) as [Hjn _]. unfold PodID_String in Heq.
      apply ID_text_inj in Heq as [H1 H2]; [|done..]. assert (i = j) as ->; [|done]. destruct i, j. simpl in *. by subst.
    - intros Hi. destruct (Hfree i (Hpods i Hi)). split_and!; [by exists i|done|done]. }
  exists ids. split; [done|]. split; [|done]. apply Forall_forall. intros i Hi%Hiff. by apply Hpods.
Qed.

(** An empty list of pods is processed without effect. *)
Lemma Process_nil pp resync : Process arrival pc pp resync [] = Some (pp, None).
Proof.
  destruct pp as [m [rs par]]. unfold Process, Configurator_Commit, render_calls.
  cbn [foldM mbind option_bind Configurator_NewTxn ct_config]. by rewrite go_range_empty.
Qed.

(** The pods of this node the policy selects. *)
Definition policy_pod (p : Policy) (i : PodID) : Prop :=
  ∃ d, pods_of_cache !! PodID_String i = Some d ∧ i = pod_GetID (Some d) ∧ selects p d ∧ on_node d.

Lemma policy_selected p : simple_policy p → no_slash (Policy_Namespace p) →
  ∃ ids, cache_LookupPodsByNSLabelSelector pc (Policy_Namespace p) (Policy_Pods p) = Some ids ∧ Forall cached_pod ids ∧
    ∀ i, i ∈ ids ↔ ∃ d, pods_of_cache !! PodID_String i = Some d ∧ i = pod_GetID (Some d) ∧ selects p d.
Proof.
  intros (labels & Hsel & Hl) Hns. destruct (selected_pods (Policy_Namespace p) labels Hns Hl) as (ids & Hids & Hc & Hin).
  exists ids. rewrite Hsel. split; [done|]. split; [done|]. intros i. rewrite Hin. unfold selects. rewrite Hsel. split.
  - intros (d & Hd & Hi & Hlab). exists d. split_and!; [done..|]. by eexists.
  - intros (d & Hd & Hi & sel & [= <-] & Hlab). by exists d.
Qed.

(** The pods of this node among the pods of a list that are selected by the
    policies [P]. *)
Lemma process_host_pods pp pods (P : Pod → Prop) : Forall cached_pod pods →
  (∀ i, i ∈ pods ↔ ∃ d, pods_of_cache !! PodID_String i = Some d ∧ i = pod_GetID (Some d) ∧ P d) →
  ∃ hps, host_pods hostNetwork pc data_address pods = Some hps ∧ Forall cached_pod hps ∧
    (∀ i, i ∈ hps ↔ ∃ d, pods_of_cache !! PodID_String i = Some d ∧ i = pod_GetID (Some d) ∧ P d ∧ on_node d) ∧
    (length pods = 0 → hps = []) ∧
    (if 0 <? length hps then Process arrival pc pp false hps else Some (pp, None)) = Process arrival pc pp false hps.
Proof.
  intros Hpods HP. destruct (host_pods_spec pods Hpods) as (hps & Hhps & Hc & Hin). exists hps. split_and!; [done|done| | |].
  - intros i. rewrite Hin, HP. split.
    + intros ((d & Hd & Hi & HPd) & d' & Hd' & Hn). assert (d' = d) as -> by congruence. by exists d.
    + intros (d & Hd & Hi & HPd & Hn). split; by exists d.
  - intros Hnil%nil_length_inv. subst pods. destruct hps as [|i hps]; [done|]. exfalso. destruct (proj1 (Hin i)) as [[]%elem_of_nil _]. by left.
  - destruct hps; [by rewrite Process_nil|done].
Qed.

Lemma AddPolicy_pods pp p : simple_policy p → no_slash (Policy_Namespace p) →
  ∃ pods, AddPolicy hostNetwork arrival pc pp (Some p) = Process arrival pc pp false pods ∧
    DelPolicy hostNetwork arrival pc pp (Some p) = Process arrival pc pp false pods ∧
    Forall cached_pod pods ∧ ∀ i, i ∈ pods ↔ policy_pod p i.
Proof.
  intros Hp Hns. destruct (policy_selected p Hp Hns) as (ids & Hids & Hc & Hin).
  destruct (process_host_pods pp ids (selects p) Hc Hin) as (hps & Hhps & Hc' & Hin' & Hnil & Hrun).
  exists hps. unfold AddPolicy, DelPolicy. rewrite Hids. cbn [mbind option_bind]. rewrite Hhps. cbn [mbind option_bind]. rewrite Hrun.
  split_and!; [done| |done|done]. destruct ids; [|done]. rewrite Hnil by done. by rewrite Process_nil.
Qed.

Lemma UpdatePolicy_pods pp p q : simple_policy p → no_slash (Policy_Namespace p) → simple_policy q → no_slash (Policy_Namespace q) →
  ∃ pods, UpdatePolicy hostNetwork arrival pc pp (Some p) (Some q) = Process arrival pc pp false pods ∧
    Forall cached_pod pods ∧ ∀ i, i ∈ pods ↔ policy_pod p i ∨ policy_pod q i.
Proof.
  intros Hp Hpn Hq Hqn. destruct (policy_selected p Hp Hpn) as (ps & Hps & Hcp & Hinp), (policy_selected q Hq Hqn) as (qs & Hqs & Hcq & Hinq).
  destruct (unique_pods [73]%Z (ps ++ qs)) as (ids & Hids & Hc & Hin); [by apply Forall_app|].
  destruct (process_host_pods pp ids (λ d, selects p d ∨ selects q d) Hc) as (hps & Hhps & Hc' & Hin' & Hnil & Hrun).
  { intros i. rewrite Hin, elem_of_app, Hinp, Hinq. split.
    - intros [(d & Hd & Hi & Hs)|(d & Hd & Hi & Hs)]; exists d; auto.
    - intros (d & Hd & Hi & [Hs|Hs]); [left|right]; by exists d. }
  exists hps. unfold UpdatePolicy. rewrite Hps. cbn [mbind option_bind]. rewrite Hqs. cbn [mbind option_bind].
  rewrite Hids. cbn [mbind option_bind]. rewrite Hhps. cbn [mbind option_bind]. split_and!; [|done|].
  - destruct ids; [|done]. rewrite Hnil by done. by rewrite Process_nil.
  - intros i. rewrite Hin'. unfold policy_pod. split.
    + intros (d & Hd & Hi & [Hs|Hs] & Hn); [left|right]; by exists d.
    + intros [(d & Hd & Hi & Hs & Hn)|(d & Hd & Hi & Hs & Hn)]; exists d; auto.
Qed.

(** C20. Policy events, for a cache as in [Process_correct] (indexes in order, a
    [simple_state]) and policies that select pods by one or two labels without
    expressions, in namespaces without slashes: the pods that are processed when
    a policy is added or removed are exactly the pods of this node that the policy
    selects, when a policy is changed exactly those that the old or the new policy
    selects; those with an address are rendered, with rules that decide every
    packet as the policies in the cache do (without the exception that policy.proto
    documents for traffic from the node of the pod, which the code does not make). *)
Theorem policy_events_correct pp p q :
  simple_policy p → no_slash (Policy_Namespace p) → simple_policy q → no_slash (Policy_Namespace q) →
  ∃ pods pods' calls calls' err err' pp1 pp2,
    (∀ i, i ∈ pods ↔ policy_pod p i) ∧ renders pods calls ∧
    AddPolicy hostNetwork arrival pc pp (Some p) = Some (pp1, err) ∧ DelPolicy hostNetwork arrival pc pp (Some p) = Some (pp1, err) ∧
    (calls ≠ [] → renderers (pp_Configurator pp1) = (λ r, (renderer_run r false calls).1) <$> renderers (pp_Configurator pp)) ∧
    (∀ i, i ∈ pods' ↔ policy_pod p i ∨ policy_pod q i) ∧ renders pods' calls' ∧
    UpdatePolicy hostNetwork arrival pc pp (Some p) (Some q) = Some (pp2, err') ∧
    (calls' ≠ [] → renderers (pp_Configurator pp2) = (λ r, (renderer_run r false calls').1) <$> renderers (pp_Configurator pp)).
Proof.
  intros Hp Hpn Hq Hqn. destruct (AddPolicy_pods pp p Hp Hpn) as (pods & -> & -> & Hc & Hin).
  destruct (UpdatePolicy_pods pp p q Hp Hpn Hq Hqn) as (pods' & -> & Hc' & Hin').
  destruct (Process_renders pp false pods Hc) as (calls & err & -> & Hr). destruct (Process_renders pp false pods' Hc') as (calls' & err' & -> & Hr').
  exists pods, pods', calls, calls', err, err'. do 2 eexists. split_and!; [done|done|reflexivity|reflexivity| |done|done|reflexivity|];
    cbn [pp_Configurator renderers]; [by destruct calls|by destruct calls'].
Qed.

(** *** Pod events *)

Lemma Unstring_policies (names : list string) :
  (∀ k, k ∈ names → ∃ p, policies_of_cache !! k = Some p) →
  UnstringPolicyID names = Some (omap (λ k, (λ p, policy_GetID (Some p)) <$> policies_of_cache !! k) names).
Proof.
  induction names as [|k names IH]; intros Hn; [done|]. unfold UnstringPolicyID in *. cbn [mapM omap list_omap].
  destruct (Hn k) as [p Hp]; [by left|]. destruct (proj2 (ss_good _ Hstate) _ _ Hp) as (Hk & Hns & Hname). rewrite Hp.
  cbn [fmap option_fmap option_map]. rewrite Hk at 1. unfold policy_name, PolicyID_String. cbn [policy_GetID PolicyID_Namespace PolicyID_Name].
  rewrite split_id_text by done. cbn [mbind option_bind]. rewrite IH; [done|]. intros k' Hk'. apply Hn. by right.
Qed.

(** All policies of the cache. *)
Lemma data_policies_spec : ∃ dps, data_policies pc = Some dps ∧ ∀ p, p ∈ dps ↔ ∃ k, policies_of_cache !! k = Some p.
Proof.
  set (names := ListAllNames (configuredPolicies pc)).
  assert (∀ k, k ∈ names ↔ ∃ p, policies_of_cache !! k = Some p) as Hnames.
  { intros k. unfold names. rewrite nm_all, list_elem_of_fmap. cbn [cache_view ks_policies]. split.
    - intros ([k' [p ix]] & -> & Hin%elem_of_map_to_list). exists p. cbn [fst]. by rewrite lookup_fmap, Hin.
    - intros [p Hp]. rewrite lookup_fmap in Hp. apply fmap_Some in Hp as ([p' ix] & Hk & ->). exists (k, (p', ix)). by rewrite elem_of_map_to_list. }
  unfold data_policies, cache_ListAllPolicies. fold names. rewrite Unstring_policies by (intros k; apply Hnames). cbn [mbind option_bind].
  match goal with |- context [foldM ?g _ _] => set (f := g) end.
  assert (∀ l acc, (∀ k, k ∈ l → ∃ p, policies_of_cache !! k = Some p) →
    foldM f acc (omap (λ k, (λ p, policy_GetID (Some p)) <$> policies_of_cache !! k) l) = Some (acc ++ omap (λ k, policies_of_cache !! k) l)) as Hgen.
  { induction l as [|k l IH]; intros acc Hl; cbn [omap list_omap foldM]; [by rewrite app_nil_r|].
    destruct (Hl k) as [p Hp]; [by left|]. destruct (proj2 (ss_good _ Hstate) _ _ Hp) as (Hk & _). rewrite Hp.
    cbn [fmap option_fmap option_map foldM].
    assert (f acc (policy_GetID (Some p)) = Some (acc ++ [p])) as ->.
    { unfold f. rewrite lookup_policy. change (PolicyID_String (policy_GetID (Some p))) with (policy_name p). rewrite <- Hk, Hp. done. }
    cbn [mbind option_bind]. rewrite IH by (intros k' Hk'; apply Hl; by right). by rewrite <- app_assoc. }
  rewrite Hgen by (intros k; apply Hnames). eexists. split; [done|]. intros p. rewrite app_nil_l, list_elem_of_omap. split.
  - intros (k & _ & Hk). eauto.
  - intros [k Hk]. exists k. split; [|done]. apply Hnames. eauto.
Qed.

(** The policies collected so far are policies of the cache, and the marked names
    are theirs. *)
Definition collected (st : list Policy * gmap string bool) : Prop :=
  (∀ p, p ∈ st.1 → ∃ k, policies_of_cache !! k = Some p) ∧
  ∀ id, st.2 !! id = Some true → ∃ p, p ∈ st.1 ∧ policy_name p = id.

Lemma add_policy_collected pod k p st peer : policies_of_cache !! k = Some p → collected st →
  collected (add_policy pod p st peer) ∧ (∀ q, q ∈ st.1 → q ∈ (add_policy pod p st peer).1) ∧
  (peer_matches pod p peer = true → p ∈ (add_policy pod p st peer).1).
Proof.
  intros Hk [Hreg Hmark]. unfold add_policy. change (PolicyID_String (policy_GetID (Some p))) with (policy_name p).
  destruct (peer_matches pod p peer); cbn [negb]; [|done]. case_bool_decide as Hm; cbn [fst snd].
  - split; [done|]. split; [done|]. intros _. destruct (Hmark _ Hm) as (q & Hq & Hname). destruct (Hreg q Hq) as [k' Hk'].
    destruct (proj2 (ss_good _ Hstate) _ _ Hk) as [-> _], (proj2 (ss_good _ Hstate) _ _ Hk') as [Hkq _].
    assert (q = p) as ->; [|done]. rewrite Hkq, Hname in Hk'. congruence.
  - split; [split|split].
    + intros q [Hq|Hq%list_elem_of_singleton]%elem_of_app; [eauto|subst; eauto].
    + intros id. cbn [snd]. intros [[<- _]|[_ Hid]]%lookup_insert_Some.
      * exists p. split; [|done]. apply elem_of_app. right. by left.
      * destruct (Hmark id Hid) as (q & Hq & Hn). exists q. split; [|done]. apply elem_of_app. by left.
    + intros q Hq. apply elem_of_app. by left.
    + intros _. apply elem_of_app. right. by left.
Qed.

Lemma add_peers_collected pod k p peers st : policies_of_cache !! k = Some p → collected st →
  collected (foldl (add_policy pod p) st peers) ∧ (∀ q, q ∈ st.1 → q ∈ (foldl (add_policy pod p) st peers).1) ∧
  ((∃ peer, peer ∈ peers ∧ peer_matches pod p peer = true) → p ∈ (foldl (add_policy pod p) st peers).1).
Proof.
  intros Hk. revert st. induction peers as [|peer peers IH]; intros st Hst; cbn [foldl].
  { split; [done|]. split; [done|]. by intros (? & []%elem_of_nil & _). }
  destruct (add_policy_collected pod k p st peer Hk Hst) as (Hst' & Hkeep & Hadd).
  destruct (IH _ Hst') as (Hst'' & Hkeep' & Hadd'). split; [done|]. split; [auto|].
  intros (x & [->|Hx]%elem_of_cons & Hm); [auto|]. apply Hadd'. eauto.
Qed.

(** All peers of a policy. *)
Definition policy_peers (p : Policy) : list Peer := (Policy_IngressRule p ≫= PR_Peers) ++ (Policy_EgressRule p ≫= PR_Peers).

Lemma matched_policies_collected pod dps st : (∀ p, p ∈ dps → ∃ k, policies_of_cache !! k = Some p) → collected st →
  collected (matched_policies pod dps st) ∧ (∀ q, q ∈ st.1 → q ∈ (matched_policies pod dps st).1) ∧
  ∀ p, p ∈ dps → (∃ peer, peer ∈ policy_peers p ∧ peer_matches pod p peer = true) → p ∈ (matched_policies pod dps st).1.
Proof.
  unfold matched_policies. revert st. induction dps as [|p dps IH]; intros st Hdps Hst; cbn [foldl].
  { split; [done|]. split; [done|]. by intros p []%elem_of_nil. }
  destruct (Hdps p) as [k Hk]; [by left|].
  destruct (add_peers_collected pod k p (policy_peers p) st Hk Hst) as (Hst' & Hkeep & Hadd). unfold policy_peers in Hst', Hkeep, Hadd.
  destruct (IH _ (λ q Hq, Hdps q (list_elem_of_further _ _ _ Hq)) Hst') as (Hst'' & Hkeep' & Hadd'). split; [done|]. split; [auto|].
  intros q [->|Hq]%elem_of_cons Hm; [by apply Hkeep', Hadd|by apply Hadd'].
Qed.

Lemma attached_pods_spec pods policies : Forall cached_pod pods → (∀ p, p ∈ policies → ∃ k, policies_of_cache !! k = Some p) →
  ∃ ids, attached_pods pc pods policies = Some ids ∧ Forall cached_pod ids ∧
    ∀ i, i ∈ ids ↔ i ∈ pods ∨ ∃ p d, p ∈ policies ∧ pods_of_cache !! PodID_String i = Some d ∧ i = pod_GetID (Some d) ∧ selects p d.
Proof.
  unfold attached_pods. match goal with |- context [foldM ?g _ _] => set (f := g) end. revert pods.
  induction policies as [|p policies IH]; intros pods Hpods Hreg; cbn [foldM].
  { exists pods. split; [done|]. split; [done|]. intros i. split; [by left|]. intros [?|(? & ? & []%elem_of_nil & _)]. done. }
  destruct (Hreg p) as [k Hk]; [by left|]. destruct (proj2 (ss_good _ Hstate) _ _ Hk) as (_ & Hns & _).
  destruct (policy_selected p (ss_policies _ Hstate _ _ Hk) Hns) as (sel & Hsel & Hc & Hin).
  assert (f pods p = Some (pods ++ sel)) as -> by (unfold f; by rewrite Hsel). cbn [mbind option_bind].
  destruct (IH (pods ++ sel)) as (ids & Hids & Hc' & Hin'); [by apply Forall_app|intros q Hq; apply Hreg; by right|].
  exists ids. split; [done|]. split; [done|]. intros i. rewrite Hin', elem_of_app, Hin. setoid_rewrite elem_of_cons. split.
  - intros [[?|(d & Hd & Hi & Hs)]|(q & d & Hq & Hd & Hi & Hs)]; [by left|right; exists p, d; auto|right; exists q, d; auto].
  - intros [?|(q & d & [->|Hq] & Hd & Hi & Hs)]; [by left; left|left; right; by exists d|right; by exists q, d].
Qed.

(** A policy has a peer with labels that the pod has. *)
Definition peers_with (p : Policy) (pod : Pod) : Prop :=
  ∃ peer sel, peer ∈ policy_peers p ∧ Peer_Pods peer = Some sel ∧ has_labels (Policy_Namespace p) (LS_MatchLabel sel) pod.

Lemma peer_rules k p peer : policies_of_cache !! k = Some p → peer ∈ policy_peers p → simple_peer peer.
Proof.
  intros Hk Hin. pose proof (ss_rules _ Hstate _ _ Hk) as Hr. rewrite Forall_forall in Hr. unfold policy_peers in Hin.
  rewrite elem_of_app, !list_elem_of_bind in Hin.
  assert (∃ rule, peer ∈ PR_Peers rule ∧ rule ∈ Policy_IngressRule p ++ Policy_EgressRule p) as (rule & Hp & Hrule).
  { setoid_rewrite elem_of_app. destruct Hin as [(rule & Hp & Hi)|(rule & Hp & Hi)]; exists rule; auto. }
  destruct (Hr rule Hrule) as (Hpeers & _). rewrite Forall_forall in Hpeers. by apply Hpeers.
Qed.

Lemma peers_with_matches k p pod : policies_of_cache !! k = Some p → peers_with p pod →
  ∃ peer, peer ∈ policy_peers p ∧ peer_matches pod p peer = true.
Proof.
  intros Hk (peer & sel & Hin & Hsel & Hns & Hlabels). exists peer. split; [done|].
  destruct (peer_rules k p peer Hk Hin) as [_ [(labels & Hsel' & (Hlen & _) & _)|[? _]]]; [|congruence].
  rewrite Hsel in Hsel'. injection Hsel' as ->. unfold peer_matches. rewrite Hsel. cbn [LS_MatchLabel LS_MatchExpression] in *.
  destruct labels as [|l labels]; [simpl in Hlen; lia|]. cbn [calculateLabelSelectorMatches]. unfold isMatchLabel.
  apply forallb_forall. intros x Hx%list_elem_of_In. apply bool_decide_eq_true. rewrite Hns. by apply list_elem_of_fmap_2, Hlabels.
Qed.

Lemma process_if_pods pp hps :
  (if 0 <? length hps then Process arrival pc pp false hps else Some (pp, None)) = Process arrival pc pp false hps.
Proof. destruct hps; [by rewrite Process_nil|done]. Qed.

Lemma no_policies_collected : collected ([], ∅).
Proof. split; [by intros p []%elem_of_nil|]. intros id. cbn [snd]. by rewrite lookup_empty. Qed.

Lemma UpdatePod_pods pp oldPod newPod :
  Pod_Namespace newPod ≠ "kube-system"%string → Pod_IpAddress newPod ≠ ""%string → pods_of_cache !! pod_name newPod = Some newPod →
  ∃ pods, UpdatePod hostNetwork arrival pc pp oldPod newPod =
      Process arrival pc (mkPolicyProcessor (<[pod_name newPod := Pod_IpAddress newPod]> (podIPAddressMap pp)) (pp_Configurator pp)) false pods ∧
    Forall cached_pod pods ∧ (∀ i, i ∈ pods → ∃ d, pods_of_cache !! PodID_String i = Some d ∧ on_node d) ∧
    ∀ d, pods_of_cache !! pod_name d = Some d → on_node d →
      d = newPod ∨ (∃ k p, policies_of_cache !! k = Some p ∧ selects p d ∧ (peers_with p oldPod ∨ peers_with p newPod)) →
      pod_GetID (Some d) ∈ pods.
Proof.
  intros Hns Hip Hnew. unfold UpdatePod. rewrite !bool_decide_false by done. cbv zeta.
  destruct data_policies_spec as (dps & -> & Hdps). cbn [mbind option_bind].
  assert (∀ p, p ∈ dps → ∃ k, policies_of_cache !! k = Some p) as Hreg by (intros p; apply Hdps).
  destruct (matched_policies_collected oldPod dps _ Hreg no_policies_collected) as (Hst1 & _ & Hadd1).
  destruct (matched_policies_collected newPod dps _ Hreg Hst1) as ([Hreg2 _] & Hkeep2 & Hadd2).
  set (policies := (matched_policies newPod dps _).1) in *.
  destruct (attached_pods_spec [pod_GetID (Some newPod)] policies) as (ids & -> & Hc & Hin); [apply Forall_singleton; by exists newPod|done|].
  cbn [mbind option_bind]. destruct (unique_pods [72]%Z ids Hc) as (ids' & -> & Hc' & Hin'). cbn [mbind option_bind].
  destruct (host_pods_spec ids' Hc') as (hps & -> & Hch & Hinh). cbn [mbind option_bind].
  rewrite process_if_pods. exists hps. split_and!; [done|done|by intros i [_ Hi]%Hinh|].
  intros d Hd Hn Hor. apply Hinh. split; [|by exists d]. apply Hin', Hin. destruct Hor as [->|(k & p & Hk & Hs & Hpw)]; [left; by left|right].
  exists p, d. split_and!; [|done..]. assert (p ∈ dps) as Hp by (apply Hdps; eauto). destruct Hpw as [Hpw|Hpw].
  - apply Hkeep2, Hadd1; [done|]. by apply (peers_with_matches k).
  - apply Hadd2; [done|]. by apply (peers_with_matches k).
Qed.

(** A removed pod: the pods selected by policies that have it as a peer, if the
    address remembered for them is on this node. *)
Lemma DelPod_pods pp pod : Pod_Namespace pod ≠ "kube-system"%string →
  ∃ pods, DelPod hostNetwork arrival pc pp pod = Process arrival pc pp false pods ∧ Forall cached_pod pods ∧
    ∀ d k p, pods_of_cache !! pod_name d = Some d → policies_of_cache !! k = Some p → selects p d → peers_with p pod →
      on_node d → podIPAddressMap pp !! pod_name d = Some (Pod_IpAddress d) → pod_GetID (Some d) ∈ pods.
Proof.
  intros Hns. unfold DelPod. rewrite bool_decide_false by done. cbv zeta.
  destruct data_policies_spec as (dps & -> & Hdps). cbn [mbind option_bind].
  assert (∀ p, p ∈ dps → ∃ k, policies_of_cache !! k = Some p) as Hreg by (intros p; apply Hdps).
  destruct (matched_policies_collected pod dps _ Hreg no_policies_collected) as ([Hreg1 _] & _ & Hadd).
  set (policies := (matched_policies pod dps _).1) in *.
  destruct (attached_pods_spec [] policies) as (ids & -> & Hc & Hin); [by apply Forall_nil|done|].
  cbn [mbind option_bind]. destruct (unique_pods [71]%Z ids Hc) as (ids' & -> & Hc' & Hin'). cbn [mbind option_bind].
  destruct (host_pods_by (map_address pp) (λ d, default ""%string (podIPAddressMap pp !! pod_name d)) ids') as (hps & -> & Hch & Hinh); [done|done|].
  cbn [mbind option_bind]. rewrite process_if_pods. exists hps. split_and!; [done|done|].
  intros d k p Hd Hk Hs Hpw Hn Haddr. apply Hinh. split.
  - apply Hin', Hin. right. exists p, d. split_and!; [|done..]. apply Hadd; [apply Hdps; eauto|by apply (peers_with_matches k)].
  - exists d. split; [done|]. by rewrite Haddr.
Qed.

(** Pod events: when a pod with an address (outside kube-system) changes, the
    processed pods are pods of this node; they include the pod itself, if it is
    on this node, and every pod of this node selected by a policy that names the
    labels the pod had before or has now among its peers. Each is rendered with
    rules that decide as the policies of the cache do. *)
Theorem UpdatePod_correct pp oldPod newPod :
  Pod_Namespace newPod ≠ "kube-system"%string → Pod_IpAddress newPod ≠ ""%string →
  pods_of_cache !! pod_name newPod = Some newPod →
  ∃ pods calls err pp', UpdatePod hostNetwork arrival pc pp oldPod newPod = Some (pp', err) ∧
    podIPAddressMap pp' = <[pod_name newPod := Pod_IpAddress newPod]> (podIPAddressMap pp) ∧
    (∀ i, i ∈ pods → ∃ d, pods_of_cache !! PodID_String i = Some d ∧ on_node d) ∧
    (∀ d, pods_of_cache !! pod_name d = Some d → on_node d →
      d = newPod ∨ (∃ k p, policies_of_cache !! k = Some p ∧ selects p d ∧ (peers_with p oldPod ∨ peers_with p newPod)) →
      pod_GetID (Some d) ∈ pods) ∧
    renders pods calls ∧
    (calls ≠ [] → renderers (pp_Configurator pp') = (λ r, (renderer_run r false calls).1) <$> renderers (pp_Configurator pp)).
Proof.
  intros Hns Hip Hnew. destruct (UpdatePod_pods pp oldPod newPod Hns Hip Hnew) as (pods & -> & Hc & Hn & Hin).
  destruct (Process_renders (mkPolicyProcessor (<[pod_name newPod := Pod_IpAddress newPod]> (podIPAddressMap pp)) (pp_Configurator pp)) false pods Hc)
    as (calls & err & -> & Hr).
  exists pods, calls, err. eexists. split; [reflexivity|]. cbn [podIPAddressMap pp_Configurator renderers]. split_and!; try done. by destruct calls.
Qed.
End composition.
