(* ===== verification/ProcessorExamples.v ===== *)
(** * The policy pipeline on a concrete cluster

    Cache, processor and configurator evaluated together: a cluster in which the
    hypotheses of the theorems hold, and events that the code handles in another
    way than its comments say. *)

From Stdlib Require Import ZArith Lia Ascii String.
From stdpp Require Import prelude strings list gmap.
From S2P Require Import Prelude GoStrings GoErrors GoNet GoText KsrModel Utils Rules Configurator SubtractSubnet.
From S2P Require Import ConfiguratorRules RuleIds ConfiguratorProofs ConfiguratorCommit.
From S2P Require Import PolicyCache PolicyCacheEvents PolicyCacheProofs PolicyCacheSelect Processor ProcessorProofs.

#[local] Existing Instance canonical_order.

(** A renderer that keeps the calls of its last transaction. *)
Definition last_calls : PolicyRenderer (list RenderCall) string := {| renderer_run _ _ calls := (calls, None) |}.
#[local] Existing Instance last_calls.

Definition app_label (v : string) : Label := mkLabel "app" v.
Definition web1 : Pod := mkPod "web" "default" [app_label "web"] "10.1.1.2" "192.168.16.1" [].
Definition db1 : Pod := mkPod "db" "default" [app_label "db"] "10.1.1.3" "192.168.16.1" [].

(** Ingress to the web pods: from the database pods on port 80, and from a block
    with an exception. *)
Definition allow_db : Policy :=
  mkPolicy "allow-db" "default" [] (Some (mkLabelSelector [app_label "web"] [])) PolicyIngress
    [mkPolicyRule [mkPolicyPort ProtoTCP (Some (mkPortNameOrNumber PortNumber 80 ""))]
       [mkPeer (Some (mkLabelSelector [app_label "db"] [])) None None; mkPeer None None (Some (mkPeerIPBlock "10.0.0.0/8" ["10.1.0.0/16"]))]] [].

Definition cluster_state : K8sState :=
  mkK8sState {["default/allow-db" := allow_db]} (<["default/web" := web1]> {["default/db" := db1]}) ∅.

Definition cluster_cache : MapCache :=
  mkPolicyCache {["default/allow-db" := (allow_db, default ∅ (policy_IndexFunction allow_db))]}
    (<["default/web" := (web1, pod_IndexFunction web1)]> {["default/db" := (db1, pod_IndexFunction db1)]}) ∅.

Lemma cluster_view : cache_view cluster_cache = cluster_state.
Proof. unfold cache_view, cluster_cache, cluster_state. cbn. by rewrite fmap_insert, !map_fmap_singleton, fmap_empty. Qed.

Lemma cluster_indexed : indexed_maps cluster_cache.
Proof.
  split; intros k d ix; cbn.
  - intros [_ [= <- <-]]%lookup_singleton_Some. done.
  - intros [[_ [= <- <-]]|[_ [_ [= <- <-]]%lookup_singleton_Some]]%lookup_insert_Some; done.
  - by rewrite lookup_empty.
Qed.

Lemma cluster_pod k d : ks_pods cluster_state !! k = Some d → (k = "default/web"%string ∧ d = web1) ∨ (k = "default/db"%string ∧ d = db1).
Proof. cbn. rewrite lookup_insert_Some, lookup_singleton_Some. naive_solver. Qed.

Lemma cluster_policy k p : ks_policies cluster_state !! k = Some p → k = "default/allow-db"%string ∧ p = allow_db.
Proof. cbn. rewrite lookup_singleton_Some. naive_solver. Qed.

Lemma one_label_simple v : no_slash v → simple_labels [app_label v].
Proof. intros Hv. split; [simpl; lia|]. by apply Forall_singleton. Qed.

Lemma allow_db_simple : simple_policy allow_db.
Proof. exists [app_label "web"]. split; [done|]. by apply one_label_simple. Qed.

Lemma allow_db_rules : Forall simple_rule (Policy_IngressRule allow_db ++ Policy_EgressRule allow_db).
Proof.
  apply Forall_singleton. split_and!.
  - apply Forall_cons. split; [|apply Forall_singleton]; (split; [done|]).
    + left. exists [app_label "db"]. split; [done|]. split; [by apply one_label_simple|done].
    + right. split; [done|]. eexists. split; [done|]. exists ten_block. split; [apply ten_block_canonical|]. split; vm_compute; reflexivity.
  - apply Forall_singleton. eexists. split; [done|]. split; [done|]. simpl. lia.
  - simpl. lia.
Qed.

Lemma cluster_simple : simple_state (cache_view cluster_cache).
Proof.
  rewrite cluster_view. constructor.
  - split; intros k d.
    + intros [[-> ->]|[-> ->]]%cluster_pod; (split_and!; [reflexivity..|by apply Forall_singleton]).
    + intros [-> ->]%cluster_policy. done.
  - intros k d [[-> ->]|[-> ->]]%cluster_pod; done.
  - intros k p [_ ->]%cluster_policy. apply allow_db_simple.
  - intros k p [_ ->]%cluster_policy. apply allow_db_rules.
  - intros k p [_ ->]%cluster_policy. done.
  - intros k p [_ ->]%cluster_policy. by apply (bool_decide_unpack _).
  - intros k p k' q [_ ->]%cluster_policy [_ ->]%cluster_policy. done.
Qed.

Definition one_renderer : PolicyProcessor (list RenderCall) :=
  Processor_Init (RegisterRenderer (Configurator_Init false) []).

Definition web_id : PodID := mkPodID "web" "default".
Definition node_net : IPNet := mkIPNet [10; 1; 1; 0]%Z [255; 255; 255; 0]%Z.

Lemma web_cached : Forall (cached_pod cluster_cache) [web_id].
Proof. apply Forall_singleton. exists web1. rewrite cluster_view. done. Qed.

Lemma Process_correct_witness :
  ∃ calls err, Process (E := string) id cluster_cache one_renderer false [web_id] =
      Some (mkPolicyProcessor ∅ (mkPolicyConfigurator (if calls is [] then [[]] else [calls]) false), err) ∧
    renders cluster_cache [web_id] calls.
Proof.
  destruct (Process_correct cluster_cache cluster_indexed cluster_simple (E := string) id one_renderer false [web_id] web_cached)
    as (calls & err & Hp & Hr).
  exists calls, err. split; [|exact Hr]. rewrite Hp. reflexivity.
Defined.

Lemma policy_events_correct_witness :
  ∃ (pods : list PodID) pp1 err, AddPolicy node_net (E := string) id cluster_cache one_renderer (Some allow_db) = Some (pp1, err) ∧
    ∀ i, i ∈ pods ↔ policy_pod cluster_cache node_net allow_db i.
Proof.
  destruct (policy_events_correct cluster_cache cluster_indexed cluster_simple (E := string) id node_net one_renderer allow_db allow_db
    allow_db_simple eq_refl allow_db_simple eq_refl) as (pods & pods' & calls & calls' & err & err' & pp1 & pp2 & Hin & _ & Ha & _).
  exists pods, pp1, err. split; [exact Ha|exact Hin].
Defined.

Lemma web_selected : selects allow_db web1.
Proof. exists (mkLabelSelector [app_label "web"] []). split; [reflexivity|]. split; [reflexivity|]. intros l Hl. exact Hl. Qed.

Lemma db_is_peer : peers_with allow_db db1.
Proof.
  exists (mkPeer (Some (mkLabelSelector [app_label "db"] [])) None None), (mkLabelSelector [app_label "db"] []).
  split; [left|]. split; [reflexivity|]. split; [reflexivity|]. intros l Hl. exact Hl.
Qed.

Lemma cluster_lookups : ks_pods (cache_view cluster_cache) !! pod_name db1 = Some db1 ∧
  ks_pods (cache_view cluster_cache) !! pod_name web1 = Some web1 ∧ ks_policies (cache_view cluster_cache)
    !! "default/allow-db"%string = Some allow_db.
Proof. rewrite cluster_view. split_and!; reflexivity. Qed.

Lemma web_on_node : on_node node_net web1.
Proof. vm_compute. reflexivity. Qed.

Lemma UpdatePod_correct_witness :
  ∃ (pods : list PodID) calls err pp', UpdatePod node_net (E := string) id cluster_cache one_renderer db1 db1 = Some (pp', err) ∧
    pod_GetID (Some web1) ∈ pods ∧ renders cluster_cache pods calls.
Proof.
  destruct cluster_lookups as (Hdb & Hweb & Hpol).
  destruct (UpdatePod_correct cluster_cache cluster_indexed cluster_simple (E := string) id node_net one_renderer db1 db1)
    as (pods & calls & err & pp' & Hup & _ & _ & Hin & Hr & _); [discriminate|discriminate|exact Hdb|].
  exists pods, calls, err, pp'. split; [exact Hup|]. split; [|exact Hr].
  apply (Hin web1 Hweb web_on_node). right. exists "default/allow-db"%string, allow_db.
  split; [exact Hpol|]. split; [exact web_selected|]. left. exact db_is_peer.
Defined.

(** ** Evaluation *)

Definition packet_from (src : IP) (dport : Z) : Packet := mkPacket src [10; 1; 1; 2]%Z TCP 1234 dport.

(** What the rendered rules decide on traffic to the web pod. *)
Definition decides (r : option (PolicyProcessor (list RenderCall) * option string)) (pkt : Packet) : list (PodID * bool) :=
  match r with
  | Some (pp, _) => (λ call, (rc_pod call, rules_allow (rc_egress call) pkt)) <$> mjoin (renderers (pp_Configurator pp))
  | None => []
  end.

Example web_from_db :
  let r := Process (E := string) id cluster_cache one_renderer false [web_id] in
  decides r (packet_from [10; 1; 1; 3]%Z 80) = [(web_id, true)] ∧ decides r (packet_from [10; 1; 1; 3]%Z 81) = [(web_id, false)] ∧
  decides r (packet_from [10; 2; 0; 1]%Z 80) = [(web_id, true)] ∧ decides r (packet_from [10; 1; 7; 7]%Z 80) = [(web_id, false)].
Proof. vm_compute. split_and!; reflexivity. Qed.

(** ** Where the code does something else *)

(** The addition of a pod configures nothing, also for a pod that a policy of the
    cache selects. *)
Example added_pod_not_configured :
  watcher_call (PolicyCacheWatcher := processor_watcher node_net (E := string) id) one_renderer cluster_cache (WAddPod web1)
    = Some (one_renderer, None).
Proof. vm_compute. reflexivity. Qed.

(** The removal of a pod does not reprocess the pods that were only added: their
    addresses are recorded by updates only. *)
Example removed_peer_stays :
  watcher_call (PolicyCacheWatcher := processor_watcher node_net (E := string) id) one_renderer cluster_cache (WDelPod db1)
    = Some (one_renderer, None).
Proof. vm_compute. reflexivity. Qed.

(** A policy of the default type with an egress section does not affect egress. *)
Definition default_egress : Policy :=
  mkPolicy "no-egress" "default" [] (Some (mkLabelSelector [app_label "web"] [])) PolicyDefault []
    [mkPolicyRule [] [mkPeer (Some (mkLabelSelector [app_label "db"] [])) None None]].

Definition default_cache : MapCache :=
  mkPolicyCache {["default/no-egress" := (default_egress, default ∅ (policy_IndexFunction default_egress))]} (configuredPods cluster_cache) ∅.

Example default_ignores_egress :
  (λ r, (λ call, rc_ingress call) <$> mjoin (renderers (pp_Configurator r.1))) <$>
    Process (E := string) id default_cache one_renderer false [web_id] = Some [[]].
Proof. vm_compute. reflexivity. Qed.

(** A block that is not a CIDR makes the processor panic. *)
Example bad_cidr_panics : calculate_block (mkPeerIPBlock "10.0.0.0" []) = None.
Proof. vm_compute. reflexivity. Qed.

(** EXISTS ends the evaluation of the expressions: the second one is ignored. *)
Example exists_returns_early :
  isMatchExpression web1 [mkLabelExpression "app" OpExists []; mkLabelExpression "app" OpNotIn ["web"%string]] "default" = true.
Proof. vm_compute. reflexivity. Qed.

(** DOES_NOT_EXIST is satisfied by the pods that have the key. *)
Example does_not_exist_inverted : isMatchExpression web1 [mkLabelExpression "app" OpDoesNotExist []] "default" = true.
Proof. vm_compute. reflexivity. Qed.

(** A rule for a pod the cache does not know makes the configurator panic. *)
Example unknown_pod_panics : Process (E := string) id cluster_cache one_renderer false [mkPodID "gone" "default"] = None.
Proof. vm_compute. reflexivity. Qed.
