(* ===== verification/PolicyPlugin.v ===== *)
(** * The policy plugin

    plugins/policy/plugin_impl_policy.go: the events of the data store are
    handled by two goroutines, [watchEvents] and [handleResync], under one lock.
    A resync is delayed until the contiv plugin has been synchronized; the
    changes that follow it wait as well. An interleaving of the goroutines is a
    sequence of the bodies that the lock protects. *)

From Stdlib Require Import ZArith Lia Ascii String.
From stdpp Require Import prelude strings list gmap.
From S2P Require Import Prelude GoStrings GoErrors GoNet KsrModel Utils Rules Configurator Processor PolicyCache PolicyCacheEvents PolicyCacheProofs PolicyCacheSelect.

Section plugin.
Context `{RangeOracle} {MP MO MN : Type} `{!NamedMapping MP Policy, !NamedMapping MO Pod, !NamedMapping MN Namespace}.
Context {W E : Type} `{!PolicyCacheWatcher W E (PolicyCache MP MO MN)}.

#[local] Abbreviation CacheState := (PolicyCache MP MO MN * list W)%type.
Abbreviation ResyncEvent := (gmap string (list ResyncEntry)) (only parsing).

Record Plugin := mkPlugin {
  policyCache : CacheState;
  pendingResync : option ResyncEvent;
  pendingChanges : list (ChangeEvent E)
}.

(** What the goroutines receive; [Started] and other values of the status. *)
Inductive PluginInput :=
  | ResyncConfigEv (ev : ResyncEvent)
  | DataChngEv (ev : ChangeEvent E)
  | ResyncStatus (started : bool).

(** The body of [case resyncConfigEv]. *)
Definition on_resync (p : Plugin) (ev : ResyncEvent) : Plugin := mkPlugin (policyCache p) (Some ev) [].

(** The body of [case dataChngEv]; the second component is what [Done] gets. *)
Definition on_change (p : Plugin) (ev : ChangeEvent E) : option (Plugin * option E) :=
  match pendingResync p with
  | Some _ => Some (mkPlugin (policyCache p) (pendingResync p) (pendingChanges p ++ [ev]), None)
  | None =>
    '(c, err) ← cache_Update (policyCache p) ev;
    Some (mkPlugin c (pendingResync p) (pendingChanges p), err)
  end.

(** The loop over the delayed changes ends at the first error. *)
Fixpoint apply_changes (c : CacheState) (err : option E) (evs : list (ChangeEvent E)) : option (CacheState * option E) :=
  match err, evs with
  | None, ev :: evs => '(c, err) ← cache_Update c ev; apply_changes c err evs
  | _, _ => Some (c, err)
  end.

(** The body of [case ev := <-resyncChan] of [handleResync]. *)
Definition on_status (p : Plugin) (started : bool) : option (Plugin * option E) :=
  if started then
    match pendingResync p with
    | None => Some (p, None)
    | Some ev =>
      '(c, err) ← cache_Resync (policyCache p) ev;
      '(c, err) ← apply_changes c err (pendingChanges p);
      Some (mkPlugin c None [], err)
    end
  else Some (p, None).

Definition plugin_step (p : Plugin) (i : PluginInput) : option (Plugin * option E) :=
  match i with
  | ResyncConfigEv ev => Some (on_resync p ev, None)
  | DataChngEv ev => on_change p ev
  | ResyncStatus started => on_status p started
  end.

(** A run reports the first error, if any. *)
Fixpoint plugin_run (p : Plugin) (ins : list PluginInput) : option (Plugin * option E) :=
  match ins with
  | [] => Some (p, None)
  | i :: ins =>
    '(p, err) ← plugin_step p i;
    '(p, err') ← plugin_run p ins;
    Some (p, match err with Some _ => err | None => err' end)
  end.

(** No event is pending. *)
Definition idle_plugin (c : CacheState) : Plugin := mkPlugin c None [].

(** ** The order of the events *)

(** The operations of the cache. *)
Inductive CacheOp := OpResync (ev : ResyncEvent) | OpUpdate (ev : ChangeEvent E).

Definition exec_op (c : CacheState) (op : CacheOp) : option CacheState :=
  match op with
  | OpResync ev => fst <$> cache_Resync (E := E) c ev
  | OpUpdate ev => fst <$> cache_Update c ev
  end.

Definition exec_ops (c : CacheState) (ops : list CacheOp) : option CacheState := foldM exec_op c ops.

(** The operation an event asks for. *)
Definition input_ops (ins : list PluginInput) : list CacheOp :=
  omap (λ i, match i with ResyncConfigEv ev => Some (OpResync ev) | DataChngEv ev => Some (OpUpdate ev) | ResyncStatus _ => None end) ins.

(** The operations that wait. *)
Definition pending_ops (p : Plugin) : list CacheOp :=
  match pendingResync p with Some ev => OpResync ev :: (OpUpdate <$> pendingChanges p) | None => [] end.

Definition is_resync (op : CacheOp) : bool := match op with OpResync _ => true | OpUpdate _ => false end.

(** Without a pending resync there are no pending changes. *)
Definition plugin_inv (p : Plugin) : Prop := pendingResync p = None → pendingChanges p = [].

Lemma cache_Resync_no_error c ev c' (err : option E) : cache_Resync c ev = Some (c', err) → err = None.
Proof. unfold cache_Resync. destruct (notify_all _ _ _); [|done]. by intros [= _ <-]. Qed.

Lemma apply_changes_exec c evs c' : apply_changes c None evs = Some (c', None) → exec_ops c (OpUpdate <$> evs) = Some c'.
Proof.
  revert c. induction evs as [|ev evs IH]; intros c; cbn [apply_changes]; [by intros [= <-]|].
  rewrite fmap_cons. unfold exec_ops. cbn [foldM exec_op]. destruct (cache_Update c ev) as [[c1 [e|]]|]; cbn; [|apply IH|done].
  by destruct evs.
Qed.

(** What one input does to the operations done and to those that wait. *)
Lemma plugin_step_ops p i p' : plugin_inv p → plugin_step p i = Some (p', None) →
  plugin_inv p' ∧ ∃ now, exec_ops (policyCache p) now = Some (policyCache p') ∧
    now ++ pending_ops p' = match i with ResyncConfigEv ev => [OpResync ev] | _ => pending_ops p ++ input_ops [i] end.
Proof.
  intros Hinv. destruct i as [ev|ev|started]; cbn [plugin_step].
  - intros [= <-]. split; [done|]. by exists [].
  - unfold on_change. destruct (pendingResync p) as [r|] eqn:Hr.
    + intros [= <-]. split; [done|]. exists []. split; [done|]. unfold pending_ops. cbn [pendingResync pendingChanges]. rewrite Hr.
      rewrite fmap_app. done.
    + destruct (cache_Update (policyCache p) ev) as [[c err]|] eqn:Hc; [|done]. intros [= <- ->]. split; [by intros _; apply Hinv|].
      exists [OpUpdate ev]. unfold exec_ops. cbn [foldM exec_op]. rewrite Hc. split; [done|]. unfold pending_ops. cbn [pendingResync]. by rewrite Hr.
  - unfold on_status. destruct started; cycle 1. { intros [= <-]. split; [done|]. exists []. split; [done|]. by rewrite app_nil_r. }
    destruct (pendingResync p) as [r|] eqn:Hr; cycle 1. { intros [= <-]. split; [done|]. exists []. split; [done|]. by rewrite app_nil_r. }
    destruct (cache_Resync (policyCache p) r) as [[c err]|] eqn:Hc; [|done]. cbn [mbind option_bind].
    pose proof (cache_Resync_no_error _ _ _ _ Hc) as ->. destruct (apply_changes c None (pendingChanges p)) as [[c' err]|] eqn:Ha; [|done].
    cbn [mbind option_bind]. intros [= <- ->]. split; [done|]. exists (pending_ops p). rewrite !app_nil_r. split; [|done].
    unfold pending_ops. rewrite Hr. unfold exec_ops. cbn [foldM exec_op]. rewrite Hc. by apply apply_changes_exec.
Qed.

Lemma exec_ops_app c ops ops' c' : exec_ops c ops = Some c' → exec_ops c (ops ++ ops') = exec_ops c' ops'.
Proof. unfold exec_ops. intros Hc. by rewrite foldM_app, Hc. Qed.

(** Updates since the last resync of a list. *)
Fixpoint since_resync (ops : list CacheOp) : list CacheOp :=
  match ops with
  | [] => []
  | op :: ops' => if existsb is_resync ops' then since_resync ops' else ops
  end.

Lemma plugin_run_ops ins p p' : plugin_inv p → plugin_run p ins = Some (p', None) →
  plugin_inv p' ∧ ∃ ops, exec_ops (policyCache p) ops = Some (policyCache p') ∧
    (ops ++ pending_ops p') `sublist_of` (pending_ops p ++ input_ops ins) ∧
    (existsb is_resync (input_ops ins) = false → ops ++ pending_ops p' = pending_ops p ++ input_ops ins) ∧
    (existsb is_resync (input_ops ins) = true → since_resync (input_ops ins) `suffix_of` ops ++ pending_ops p').
Proof.
  revert p. induction ins as [|i ins IH]; intros p Hinv; cbn [plugin_run].
  { intros [= <-]. split; [done|]. exists []. split_and!; [done| | |done]; rewrite app_nil_l, app_nil_r; done. }
  destruct (plugin_step p i) as [[p1 err]|] eqn:Hs; [|done]. cbn [mbind option_bind].
  destruct (plugin_run p1 ins) as [[p2 err']|] eqn:Hr; [|done]. cbn [mbind option_bind]. intros [= <- He].
  destruct err as [e|]; [done|]. subst err'. destruct (plugin_step_ops p i p1 Hinv Hs) as (Hinv1 & now & Hnow & Heq).
  destruct (IH p1 Hinv1 Hr) as (Hinv2 & ops & Hops & Hsub & Hall & Hlast). split; [done|]. exists (now ++ ops).
  split; [by rewrite (exec_ops_app _ _ _ _ Hnow)|]. rewrite <- app_assoc.
  assert (now ++ pending_ops p1 ++ input_ops ins = match i with ResyncConfigEv ev => [OpResync ev] | _ => pending_ops p ++ input_ops [i] end ++ input_ops ins)
    as Heq'. { by rewrite app_assoc, Heq. }
  assert (input_ops (i :: ins) = input_ops [i] ++ input_ops ins) as Hcons. { unfold input_ops. by rewrite <- omap_app. }
  rewrite Hcons. split_and!.
  - etransitivity; [apply sublist_app; [reflexivity|exact Hsub]|]. rewrite Heq'. destruct i; [|by rewrite <- app_assoc..].
    apply sublist_inserts_l. done.
  - rewrite existsb_app. intros [Hi Hrest]%orb_false_iff. rewrite (Hall Hrest), Heq'. destruct i; [done|by rewrite <- app_assoc..].
  - destruct (existsb is_resync (input_ops ins)) eqn:Hrest.
    + intros _. assert (since_resync (input_ops [i] ++ input_ops ins) = since_resync (input_ops ins)) as ->.
      { destruct i; cbn [input_ops omap list_omap app since_resync]; fold (input_ops ins); rewrite ?Hrest; done. }
      by apply suffix_app_r, Hlast.
    + rewrite (Hall eq_refl), Heq'. destruct i; cbn [input_ops omap list_omap app since_resync existsb is_resync orb];
        fold (input_ops ins); rewrite ?Hrest; done.
Qed.

(** C19. No event is lost or reordered while the synchronization of the contiv
    plugin is awaited. After any interleaving of resync events, changes and
    status notifications that reports no error, the cache is in the state to
    which some operations lead; these, followed by the ones that still wait, are
    the events in the order of arrival with some left out; none is left out
    since the last resync, and none at all if there was no resync. *)
Theorem plugin_events_in_order ins c p' :
  plugin_run (idle_plugin c) ins = Some (p', None) →
  ∃ ops, exec_ops c ops = Some (policyCache p') ∧
    (ops ++ pending_ops p') `sublist_of` input_ops ins ∧
    (existsb is_resync (input_ops ins) = false → ops ++ pending_ops p' = input_ops ins) ∧
    (existsb is_resync (input_ops ins) = true → since_resync (input_ops ins) `suffix_of` ops ++ pending_ops p').
Proof. intros Hr. destruct (plugin_run_ops ins (idle_plugin c) p') as (_ & ops & Hops); [done..|]. by exists ops. Qed.
End plugin.

Arguments Plugin MP MO MN W E : clear implicits.
Arguments PluginInput E : clear implicits.

(** ** Init *)

(** The layers of the plugin: the processor watches the cache and drives the
    configurator, which has the ACL renderer and, unless the TCP stack is
    disabled, the VPPTCP renderer. *)
Definition plugin_Init {MP MO MN R : Type} `{!NamedMapping MP Policy, !NamedMapping MO Pod, !NamedMapping MN Namespace} {E : Type}
    (aclRenderer vppTCPRenderer : R) (tcpStackDisabled : bool) : Plugin MP MO MN (PolicyProcessor R) E :=
  let configurator := RegisterRenderer (Configurator_Init false) aclRenderer in
  let configurator := if tcpStackDisabled then configurator else RegisterRenderer configurator vppTCPRenderer in
  idle_plugin (cache_Watch (Cache_New, []) (Processor_Init configurator)).

(** ** Examples *)

#[local] Existing Instance canonical_order.
#[local] Existing Instance recorder.

Abbreviation MapPlugin := (Plugin (gmap string (Policy * Indexes)) (gmap string (Pod * Indexes)) (gmap string (Namespace * Indexes))
  (list WatcherCall) string).

Definition new_plugin : MapPlugin := idle_plugin new_cache.
Definition put_pod (name : string) : PluginInput string := DataChngEv (pod_event ChangePut (web_pod name [app_web]) no_pod false).
Definition del_pod (name : string) : PluginInput string := DataChngEv (pod_event ChangeDelete (web_pod name [app_web]) (web_pod name [app_web]) true).

Definition example_inputs : list (PluginInput string) :=
  [put_pod "a"; ResyncConfigEv ∅; put_pod "b"; ResyncConfigEv ∅; put_pod "c"; ResyncStatus true; put_pod "d"].

Lemma example_runs : ∃ p', plugin_run new_plugin example_inputs = Some (p', None).
Proof.
  assert (snd <$> plugin_run new_plugin example_inputs = Some None) as Hr by (vm_compute; reflexivity).
  apply fmap_Some in Hr as ([p' err] & Hr & He). exists p'. rewrite Hr. simpl in He. by rewrite <- He.
Qed.

Lemma plugin_events_in_order_witness :
  ∃ p' ops, plugin_run new_plugin example_inputs = Some (p', None) ∧ exec_ops new_cache ops = Some (policyCache p') ∧
    (ops ++ pending_ops p') `sublist_of` input_ops example_inputs.
Proof.
  destruct example_runs as [p' Hr]. destruct (plugin_events_in_order example_inputs new_cache p' Hr) as (ops & Hops & Hsub & _).
  exists p', ops. split; [exact Hr|]. split; [exact Hops|exact Hsub].
Defined.

(** The pods of the cache after a run. *)
Definition pods_after (ins : list (PluginInput string)) : option (list string) :=
  (λ r, (map_to_list (ks_pods (cache_view (policyCache r.1).1))).*1) <$> plugin_run new_plugin ins.

(** A delayed change that fails takes the later ones with it: the pod is not in
    the cache, although its event arrived; without the delay it is. *)
Example failed_change_drops_later_ones :
  pods_after [ResyncConfigEv ∅; del_pod "a"; put_pod "b"; ResyncStatus true] = Some [] ∧
  pods_after [del_pod "a"; put_pod "b"] = Some ["default/b"%string].
Proof. vm_compute. split; reflexivity. Qed.
