(* ===== verification/AclSemantics.v ===== *)
(** * What the ACLs of an interface decide

    The rules of the configurator are decided by the first match and permit what
    no rule matches; an ACL of VPP denies it. This file relates the two: the
    rules the configurator generates match every packet (or there are none), and
    an ACL rule made by [renderACL] matches the packets of its Contiv rule, so the
    ACLs decide as the rules do.

    VPP is not part of the repository: what it does with the ACLs of an interface
    is the parameter [acl_permits] of [VppAcl], what it documents is [VppAclLaws]. *)

From Stdlib Require Import ZArith Lia Ascii String.
From stdpp Require Import prelude strings list gmap.
From S2P Require Import Prelude GoStrings GoNet KsrModel Utils Rules AclCache AclRenderer AclRendererProofs.
From S2P Require Import Configurator SubtractSubnet ConfiguratorRules RuleIds ConfiguratorProofs ConfiguratorCommit.

(** ** ACLs in VPP *)

(** The fields of an ACL rule, as the model of the agent documents them: a
    network without text is any, a range of ports includes both ends. *)
Definition acl_net_matches (text : string) (ip : IP) : bool :=
  bool_decide (text = ""%string) || (if ParseCIDR text is Some (_, n) then IPNet_Contains n ip else false).

Definition range_matches (r : option PortRange) (port : Z) : bool :=
  if r is Some r then ((LowerPort r <=? port) && (port <=? UpperPort r))%Z else true.

Definition l4_matches (ports : option L4Ports) (pkt : Packet) : bool :=
  if ports is Some p
  then range_matches (SourcePortRange p) (pkt_sport pkt) && range_matches (DestinationPortRange p) (pkt_dport pkt)
  else false.

Definition acl_rule_matches (r : AclRule) (pkt : Packet) : bool :=
  if Matches r is Some (Some ip) then
    (if IpRule_Ip ip is Some nets
     then acl_net_matches (SourceNetwork nets) (pkt_src pkt) && acl_net_matches (DestinationNetwork nets) (pkt_dst pkt)
     else true)
    && l4_matches (match pkt_proto pkt with TCP => IpRule_Tcp ip | UDP => IpRule_Udp ip end) pkt
  else false.

(** The decision on the first packet of a connection (the answers to a reflected
    one are permitted by VPP without a look at the rules). *)
Class VppAcl := { acl_permits : list (list AclRule) → Packet → bool }.

(** An interface without ACL passes everything; the first rule of an ACL that
    matches decides; without a match the packet is dropped. *)
Class VppAclLaws `{VppAcl} := {
  permits_none pkt : acl_permits [] pkt = true;
  permits_acl rules pkt : acl_permits [rules] pkt =
    if List.find (λ r, acl_rule_matches r pkt) rules is Some r
    then match Actions r with Some AclDENY | None => false | Some _ => true end
    else false
}.

(** ** Networks with a text *)

(** The empty network, or an IPv4 network in either length of its address. *)
Definition v4_net (n : IPNet) : Prop :=
  n = emptyIPNet ∨ (IPNet_IP n ≠ [] ∧ ∃ c, canonical c ∧ networkNumberAndMask n = networkNumberAndMask c).

Definition v4_rule (r : ContivRule) : Prop := v4_net (SrcNetwork r) ∧ v4_net (DestNetwork r).

Definition wf_packet (pkt : Packet) : Prop :=
  wf_bytes (pkt_src pkt) ∧ wf_bytes (pkt_dst pkt) ∧ (0 ≤ pkt_sport pkt < 65536)%Z ∧ (0 ≤ pkt_dport pkt < 65536)%Z.

(** No rules, or some rule for every packet. *)
Definition total_rules (rules : list ContivRule) : Prop :=
  rules = [] ∨ ∀ pkt, wf_packet pkt → existsb (λ r, rule_matches r pkt) rules = true.

Lemma canonical_v4_net n : canonical n → v4_net n.
Proof. intros Hn. right. split; [|by exists n]. destruct Hn as [p (Hl & _)]. by intros E; rewrite E in Hl. Qed.

Lemma acl_net_rendered n ip : v4_net n →
  acl_net_matches (if 0 <? length (IPNet_IP n) then IPNet_String n else ""%string) ip = net_matches n ip.
Proof.
  intros [->|(Hne & c & [p Hc] & Heq)]; [done|]. unfold net_matches.
  assert ((0 <? length (IPNet_IP n)) = true) as -> by (destruct (IPNet_IP n); done).
  assert ((length (IPNet_IP n) =? 0) = false) as -> by (destruct (IPNet_IP n); done).
  assert (IPNet_String n = IPNet_String c) as -> by (unfold IPNet_String; by rewrite Heq).
  assert (IPNet_Contains n ip = IPNet_Contains c ip) as -> by (unfold IPNet_Contains; by rewrite Heq).
  destruct (ParseCIDR_String p c Hc) as (a & b & x & y & _ & HP). unfold acl_net_matches. rewrite HP.
  rewrite bool_decide_false; [done|]. intros E. by rewrite E in HP.
Qed.

Lemma range_rendered p port : (0 ≤ port < 65536)%Z → range_matches (Some (render_port p)) port = port_matches p port.
Proof.
  intros Hp. unfold range_matches, port_matches, render_port, maxPortNum. cbn [LowerPort UpperPort].
  destruct (Z.eqb_spec p 0) as [->|Hne]; cbn [orb]; [apply andb_true_iff; lia|].
  apply eq_bool_prop_intro. rewrite !Is_true_true, andb_true_iff, Z.eqb_eq. lia.
Qed.

Lemma render_rule_matches r pkt : v4_rule r → wf_packet pkt → acl_rule_matches (render_rule r) pkt = rule_matches r pkt.
Proof.
  intros [Hs Hd] (_ & _ & Hsp & Hdp). unfold acl_rule_matches, render_rule, rule_matches.
  cbn [Matches IpRule_Ip IpRule_Tcp IpRule_Udp SourceNetwork DestinationNetwork]. rewrite !acl_net_rendered by done.
  destruct (Protocol r), (pkt_proto pkt); cbn [bool_decide decide ProtocolType_eq_dec]; repeat case_bool_decide; try done;
    unfold l4_matches; cbn [SourcePortRange DestinationPortRange];
    rewrite ?range_rendered by done; rewrite ?andb_false_r, ?andb_true_r, ?andb_assoc; done.
Qed.

Lemma find_rendered rules pkt : Forall v4_rule rules → wf_packet pkt →
  List.find (λ r, acl_rule_matches r pkt) (render_rule <$> rules) = render_rule <$> List.find (λ r, rule_matches r pkt) rules.
Proof.
  intros Hr Hp. induction Hr as [|r rules Hr _ IH]; [done|]. rewrite fmap_cons. cbn [List.find].
  rewrite render_rule_matches by done. by destruct (rule_matches r pkt).
Qed.

Lemma permits_rendered `{VppAcl, !VppAclLaws} rules pkt : Forall v4_rule rules → total_rules rules → wf_packet pkt →
  acl_permits (rendered (Some (Some rules))) pkt = rules_allow rules pkt.
Proof.
  intros Hv Ht Hp. unfold rendered. cbn [len_of_rules from_option default id].
  destruct (length rules =? 0) eqn:El; [apply Nat.eqb_eq, nil_length_inv in El; subst; apply permits_none|].
  rewrite permits_acl, find_rendered by done. unfold rules_allow.
  destruct (List.find _ rules) as [r|] eqn:Ef; cbn [fmap option_fmap option_map].
  - unfold render_rule. cbn [Actions]. by destruct (Action r).
  - exfalso. destruct Ht as [->|Ht]; [done|]. specialize (Ht pkt Hp). apply existsb_exists in Ht as (r & Hr & Hm).
    by rewrite (List.find_none _ _ Ef r Hr) in Hm.
Qed.

(** ** The rules of the configurator *)

Definition good_rules (rules : list ContivRule) : Prop := Forall v4_rule rules ∧ total_rules rules.

Lemma port_rules_v4 direction prefix net ports : v4_net net → Forall v4_rule (port_rules direction prefix net ports).
Proof.
  intros Hn. assert (v4_net emptyIPNet) as He by by left.
  assert (∀ id proto port, v4_rule (permit_rule direction id net proto port)) as Hp by (intros; by destruct direction).
  unfold port_rules. destruct (length ports =? 0); [apply Forall_cons; split; [apply Hp|by apply Forall_singleton]|]. apply Forall_forall.
  intros r (port & -> & _)%list_elem_of_fmap. apply Hp.
Qed.

Lemma appendRules_sub rules l r : r ∈ appendRules rules l → r ∈ rules ∨ r ∈ l.
Proof.
  revert rules. induction l as [|x l IH]; intros rules; [by left|].
  change (appendRules rules (x :: l)) with (appendRules (appendRule rules x) l). intros [Hr|Hr]%IH; [|right; by right].
  destruct (appendRule_cases rules x) as [[E _]|[E _]]; rewrite E in Hr; [|by left].
  apply elem_of_app in Hr as [Hr|Hr%list_elem_of_singleton]; [by left|right; subst; by left].
Qed.

Section generated.
Context `{PodLookup}.
(** The addresses of the pods are IPv4 addresses. *)
Hypothesis Hpods : ∀ pod n, peer_net pod = Some n → v4_net n.

Lemma match_rules_v4 direction id m l : good_match m → match_rules direction id m = Some l → Forall v4_rule l.
Proof.
  intros (Hk & Hb & Hl). destruct (collect_subnets_spec _ Hb Hl) as (nets & Hn & Hc & _).
  unfold match_rules. rewrite collect_peers_spec, Hn by done. cbn [mbind option_bind]. intros [= <-].
  rewrite !Forall_app. split_and!.
  - destruct (any_peer m); [apply port_rules_v4; by left|constructor].
  - apply Forall_forall. intros r (peer & Hr & (pod & _ & Hp)%list_elem_of_omap)%list_elem_of_bind.
    destruct (peer_net pod) as [n|] eqn:En; [|done]. injection Hp as <-.
    revert r Hr. apply Forall_forall, port_rules_v4. by apply (Hpods pod).
  - apply Forall_forall. intros r (net & Hr & Hin)%list_elem_of_bind. rewrite Forall_forall in Hc.
    revert r Hr. apply Forall_forall, port_rules_v4. by apply canonical_v4_net, Hc.
Qed.

Lemma permit_rules_v4 direction ms l : (∀ id m, (id, m) ∈ ms → good_match m) → permit_rules direction ms = Some l → Forall v4_rule l.
Proof.
  revert l. induction ms as [|[id m] ms IH]; intros l Hms Hl; [injection Hl as <-; constructor|].
  rewrite permit_rules_cons in Hl. destruct (match_rules direction id m) as [k|] eqn:Ek; [|done]. cbn [mbind option_bind] in Hl.
  destruct (permit_rules direction ms) as [l'|]; [|done]. injection Hl as <-. apply Forall_app. split.
  - apply (match_rules_v4 direction id m); [|done]. apply (Hms id). by left.
  - apply IH; [|done]. intros i m' Hin. apply (Hms i). by right.
Qed.

(** A match of everything has the rules for any packet. *)
Lemma match_any_allows direction m pkt : match_any m = true → match_allows direction m pkt = true.
Proof. unfold match_any, match_allows, ports_allow. intros [-> ->]%andb_true_iff. done. Qed.

Lemma none_matches rules pkt : existsb (λ r, rule_matches r pkt) (rules ++ [ruleTCPNone; ruleUDPNone]) = true.
Proof. rewrite existsb_app. apply orb_true_iff. right. destruct pkt as [src dst [] sp dp]; done. Qed.

Lemma generateRules_good direction policies rules : good_policies policies → generateRules direction policies = Some rules →
  good_rules rules.
Proof.
  intros Hg. assert (∀ id m, (id, m) ∈ dir_matches direction policies → good_match m) as Hms.
  { intros id m (p & Hin & _ & _ & Hm & _)%elem_of_dir_matches. by apply (gp_match _ Hg p). }
  destruct (permit_rules_spec direction _ Hms) as (l & Hl & Hp & Hm). rewrite generateRules_eq, Hl. cbn [mbind option_bind].
  pose proof (permit_rules_v4 direction _ l Hms Hl) as Hv. rewrite Forall_forall in Hv.
  pose proof (permit_rules_unambiguous direction policies l Hg Hl) as Hu.
  assert (∀ r, r ∈ appendRules [] l ↔ r ∈ l) as Hel by (intros r; by apply elem_of_appendRules).
  intros [= <-]. split.
  - apply Forall_forall. intros r [Hr%Hel|Hr]%appendRules_sub; [by apply Hv|].
    destruct (_ && _); [|by apply elem_of_nil in Hr].
    rewrite !elem_of_cons in Hr. destruct Hr as [->|[->|[]%elem_of_nil]]; by split; left.
  - destruct (existsb match_any _) eqn:Hany; cbn [negb]; [rewrite andb_false_r|rewrite andb_true_r].
    + right. intros pkt (Hs & Hd & _). assert (wf_bytes (peer_ip direction pkt)) by (by destruct direction).
      change (appendRules (appendRules [] l) []) with (appendRules [] l).
      rewrite (existsb_same _ _ _ Hel), Hm by done. apply existsb_exists in Hany as (m & Hin & Hma).
      apply existsb_exists. exists m. split; [done|]. by apply match_any_allows.
    + destruct (existsb _ policies) eqn:Hsk.
      * right. intros pkt _. rewrite append_none; [apply none_matches|]. intros r Hr%Hel. by apply Hp.
      * left. assert (dir_matches direction policies = []) as E; [|rewrite E in Hl; by injection Hl as <-].
        apply elem_of_nil_inv. intros [id m] (p & Hin & _ & Hs & _)%elem_of_dir_matches.
        apply not_true_iff_false in Hsk. apply Hsk, existsb_exists. exists p. rewrite Hs. split; [by apply list_elem_of_In|done].
Qed.

(** Every call for a renderer has such rules. *)
Lemma render_calls_good `{RangeOracle} pct calls : good_config (ct_config pct) → render_calls pct = Some calls →
  ∀ call, call ∈ calls → good_rules (rc_ingress call) ∧ good_rules (rc_egress call).
Proof.
  intros Hg Hc call Hin. rewrite render_calls_ref in Hc by done. injection Hc as <-.
  destruct (elem_of_ref_calls pct call Hg Hin) as (ps & Hps & _ & Hi & He).
  assert (good_policies (sort_policies ps)) as Hgs.
  { apply (good_policies_perm ps); [by rewrite sort_policies_perm|]. by apply (proj1 Hg (rc_pod call)). }
  split; by eapply generateRules_good.
Qed.
End generated.

(** ** Addresses of pods *)

Definition v4_address (s : string) : Prop := ∃ a b c d, wf_bytes [a; b; c; d] ∧ s = IP_String [a; b; c; d].

Lemma host_net_v4 s n : v4_address s → GetOneHostSubnet s = Some n → v4_net n.
Proof.
  intros (a & b & c & d & Hw & ->). unfold GetOneHostSubnet. rewrite ParseIP_String by done. cbv zeta.
  change (bytesEqual (net_IPv4 a b c d) []) with false. rewrite To4_net_IPv4. cbn [negb bytesEqual]. intros [= <-].
  right. split; [done|]. exists (mkIPNet [a; b; c; d] (mask_bytes 4 (Z.of_nat 32))). split.
  - exists 32. split_and!; [done|done|lia|done|]. cbn [IPNet_IP IPNet_Mask]. unfold wf_bytes in Hw.
    rewrite !Forall_cons in Hw. destruct Hw as (Ha & Hb & Hc & Hd & _).
    change (mask_bytes 4 (Z.of_nat 32)) with [255; 255; 255; 255]%Z. unfold bytes_and. cbn [zip_with].
    assert (∀ x, is_byte x → Z.land x 255 = x) as Hland by (intros x [? ?]; change 255%Z with (Z.ones 8); rewrite Z.land_ones by lia;
      apply Z.mod_small; lia).
    by rewrite !Hland by done.
  - unfold networkNumberAndMask. cbn [IPNet_IP IPNet_Mask]. rewrite To4_net_IPv4. reflexivity.
Qed.

(** ** VPP as documented *)

#[local] Instance first_match : VppAcl := {|
  acl_permits acls pkt :=
    match acls with
    | [] => true
    | _ =>
      if List.find (λ r, acl_rule_matches r pkt) (concat acls) is Some r
      then match Actions r with Some AclDENY | None => false | Some _ => true end
      else false
    end
|}.

#[local] Program Instance first_match_laws : VppAclLaws.
Next Obligation. done. Qed.
Next Obligation. intros rules pkt. cbn [acl_permits first_match concat]. by rewrite app_nil_r. Qed.
