(* ===== verification/AclPipeline.v ===== *)
(** * From the policy processor to the ACLs in VPP

    The ACL renderer as one of the renderers of the configurator: processing a
    list of pods leaves the interface of each of them with ACLs that decide as the
    Kubernetes policies of the cache do, and the other interfaces as they were. *)

From Stdlib Require Import ZArith Lia Ascii String.
From stdpp Require Import prelude strings list gmap.
From S2P Require Import Prelude GoStrings GoErrors GoNet GoText KsrModel Utils Rules AclCache AclCacheProofs AclRenderer AclRendererProofs.
From S2P Require Import Configurator SubtractSubnet ConfiguratorRules RuleIds ConfiguratorProofs ConfiguratorCommit.
From S2P Require Import PolicyCache PolicyCacheEvents PolicyCacheProofs PolicyCacheSelect Processor ProcessorProofs AclSemantics.

(** ** Transactions of the ACL renderer *)

Section txn.
Variable GetIfName : string → string → option string.

Definition call_if (c : RenderCall) : option string := GetIfName (PodID_Namespace (rc_pod c)) (PodID_Name (rc_pod c)).

(** The calls of the configurator in a transaction. *)
Definition render_txn (resync : bool) (calls : list RenderCall) : AclRendererTxn :=
  foldl (λ art c, AclRenderer_Render GetIfName art (rc_pod c) (rc_podIP c) (Some (rc_ingress c)) (Some (rc_egress c)))
    (AclRenderer_NewTxn resync) calls.

Lemma render_txn_snoc resync calls c :
  render_txn resync (calls ++ [c]) =
  AclRenderer_Render GetIfName (render_txn resync calls) (rc_pod c) (rc_podIP c) (Some (rc_ingress c)) (Some (rc_egress c)).
Proof. unfold render_txn. by rewrite foldl_app. Qed.

Lemma render_txn_resync resync calls : acl_resync (render_txn resync calls) = resync.
Proof.
  induction calls as [|c calls IH] using rev_ind; [done|]. rewrite render_txn_snoc. unfold AclRenderer_Render.
  by destruct (GetIfName _ _).
Qed.

Lemma render_txn_size resync calls : size (acl_config (render_txn resync calls)) ≤ length calls.
Proof.
  induction calls as [|c calls IH] using rev_ind; [done|]. rewrite render_txn_snoc, length_app. unfold AclRenderer_Render.
  destruct (GetIfName _ _); cbn [acl_config length]; [rewrite map_size_insert; destruct (_ !! _); simpl|]; lia.
Qed.

Lemma render_txn_out resync calls i : (∀ c, c ∈ calls → call_if c ≠ Some i) → acl_config (render_txn resync calls) !! i = None.
Proof.
  induction calls as [|c calls IH] using rev_ind; intros Hc; [done|]. rewrite render_txn_snoc. unfold AclRenderer_Render.
  assert (call_if c ≠ Some i) as Hn by (apply Hc, elem_of_app; right; by left). unfold call_if in Hn.
  assert (acl_config (render_txn resync calls) !! i = None) as Hi by (apply IH; intros c' Hc'; apply Hc, elem_of_app; by left).
  destruct (GetIfName _ _) as [j|]; [|done]. cbn [acl_config]. rewrite lookup_insert_ne by congruence. done.
Qed.

(** Different pods have different interfaces. *)
Hypothesis Hinj : ∀ ns name ns' name' i, GetIfName ns name = Some i → GetIfName ns' name' = Some i → ns = ns' ∧ name = name'.

Lemma call_if_inj c c' i : call_if c = Some i → call_if c' = Some i → rc_pod c = rc_pod c'.
Proof.
  unfold call_if. intros H1 H2. destruct (Hinj _ _ _ _ _ H1 H2) as [Hns Hn]. destruct (rc_pod c), (rc_pod c'). simpl in *. congruence.
Qed.

Lemma render_txn_in resync calls c i : NoDup (rc_pod <$> calls) → c ∈ calls → call_if c = Some i →
  acl_config (render_txn resync calls) !! i = Some (mkInterfaceConfig (Some (rc_ingress c)) (Some (rc_egress c))).
Proof.
  induction calls as [|c' calls IH] using rev_ind; [by intros _ ?%elem_of_nil|].
  rewrite fmap_app, NoDup_app. intros (Hnd & Hdis & _) Hc Hi. rewrite render_txn_snoc. unfold AclRenderer_Render.
  apply elem_of_app in Hc as [Hc|Hc%list_elem_of_singleton].
  - specialize (IH Hnd Hc Hi). destruct (GetIfName _ _) as [j|] eqn:Hj; [|done]. cbn [acl_config].
    rewrite lookup_insert_ne; [done|]. intros ->. apply (Hdis (rc_pod c)); [by apply list_elem_of_fmap_2|].
    apply list_elem_of_singleton. by apply (call_if_inj c c' i).
  - subst c'. unfold call_if in Hi. rewrite Hi. cbn [acl_config]. by rewrite lookup_insert_eq.
Qed.

(** ** The renderer *)

Context `{RangeOracle} {A : Type} `{!AclAgent A}.

(** The state of the ACL renderer, or nothing after a panic. *)
Definition acl_renderer : PolicyRenderer (option (AclState A)) AclCommitError := {|
  renderer_run r resync calls :=
    match r ≫= AclRenderer_Commit (render_txn resync calls) with
    | Some (s, err) => (Some s, err)
    | None => (None, None)
    end
|}.
End txn.

(** ** The random source *)

Definition allocated_ids {A} (s : AclState A) : gset string := allocatedIngress (st_cache s) ∪ allocatedEgress (st_cache s).

Lemma supply_weaken n m rands used used' : supply n rands used → m ≤ n → used' ⊆ used → supply m rands used'.
Proof. intros (Hnd & Hnew & Hl) Hm Hsub. split_and!; [done|set_solver|lia]. Qed.

Lemma run_updates_supply `{RangeOracle} us h crc crct blsI hlsI blsE hlsE rands n used h' crc' crct' rands' :
  txn_good h crc crct blsI hlsI blsE hlsE → supply (2 * length us + n) rands used → allocatedIngress crc ∪ allocatedEgress crc ⊆ used →
  run_updates (h, crc, crct, rands) us = Some (h', crc', crct', rands') →
  ∃ used', supply n rands' used' ∧ allocatedIngress crc' ∪ allocatedEgress crc' ⊆ used'.
Proof.
  revert h crc crct hlsI hlsE rands used. induction us as [|u us IH]; intros h crc crct hlsI hlsE rands used Hg Hsup Hsub Hrun.
  { injection Hrun as <- <- <- <-. by exists used. }
  replace (2 * length (u :: us) + n) with (2 + (2 * length us + n)) in Hsup by (simpl; lia).
  destruct (Txn_Update_spec h crc crct blsI hlsI blsE hlsE rands (2 * length us + n) used (up_ifName u) (up_ingress u) (up_egress u) Hg Hsup Hsub)
    as (h1 & crc1 & crct1 & hlsI1 & hlsE1 & rands1 & used1 & Hu & Hg1 & Hsup1 & Hsub1 & _).
  unfold run_updates in Hrun. cbn [foldM] in Hrun. rewrite Hu in Hrun. cbn [mbind option_bind] in Hrun.
  by apply (IH h1 crc1 crct1 hlsI1 hlsE1 rands1 used1).
Qed.

Lemma send_changes_ids `{RangeOracle} {A} `{!AclAgent A} h crc crct rands (agent : A) s err :
  send_changes h crc crct rands agent = Some (s, err) →
  st_rands s = rands ∧ allocated_ids s = allocatedIngress crc ∪ allocatedEgress crc ∧
  (err = None ∨ ∃ ops, (SendTxn agent ops).2 = false).
Proof.
  unfold send_changes, allocated_ids. intros Hs.
  destruct (Txn_Changes h crc crct) as [[ingress egress]|]; [|done]. cbn [mbind option_bind] in Hs.
  destruct (filterEmpty h ingress) as [cs|]; [|done]. cbn [mbind option_bind] in Hs.
  destruct (filterEmpty h egress) as [cs'|]; [|done]. cbn [mbind option_bind] in Hs.
  destruct (_ && _); [injection Hs as <- <-; by auto|].
  destruct (renderChanges h [] cs true) as [[h1 ops]|]; [|done]. cbn [mbind option_bind] in Hs.
  destruct (renderChanges h1 ops cs' false) as [[h2 ops']|]; [|done]. cbn [mbind option_bind] in Hs.
  destruct (SendTxn agent ops') as [agent' []] eqn:Hsend; cbn [negb] in Hs;
    [|injection Hs as <- <-; split_and!; [done..|right; exists ops'; by rewrite Hsend]].
  unfold Txn_Commit in Hs. destruct (commit h2 _ _) as [[h3 i]|]; [|done]. cbn [mbind option_bind] in Hs.
  destruct (commit h3 _ _) as [[h4 e]|]; [|done]. injection Hs as <- <-. by auto.
Qed.

(** The agent accepts every transaction. *)
Definition accepts (A : Type) `{!AclAgent A} : Prop := ∀ (a : A) ops, (SendTxn a ops).2 = true.

(** VPP has the ACLs of the cache of the renderer. *)
Definition synced {A} `{!AclAgent A, !AclAgentLaws A} (s : AclState A) : Prop :=
  acl_consistent (st_heap s) (st_cache s) (agent_acls (st_agent s)).

Lemma commit_accepted `{RangeOracle} {A} `{!AclAgent A, !AclAgentLaws A} (art : AclRendererTxn) (s : AclState A) n :
  accepts A → acl_resync art = false → synced s → supply (2 * size (acl_config art) + n) (st_rands s) (allocated_ids s) →
  ∃ s', AclRenderer_Commit art s = Some (s', None) ∧ synced s' ∧ supply n (st_rands s') (allocated_ids s') ∧
    ∀ i, vpp_view (agent_acls (st_agent s')) i =
      match acl_config art !! i with
      | Some c => rendered_view (Some (if_ingress c), Some (if_egress c))
      | None => vpp_view (agent_acls (st_agent s)) i
      end.
Proof.
  intros Hacc Hres Hcons Hsup. destruct s as [h crc rands agent]. unfold synced, allocated_ids in *. cbn [st_heap st_cache st_rands st_agent] in *.
  rewrite <-length_config_updates in Hsup. rewrite commit_no_resync_eq by done. cbn [st_heap st_cache st_rands st_agent].
  destruct (updates_then_send (config_updates (acl_config art)) h crc rands agent Hcons)
    as (h1 & crc1 & crct & rands1 & s & err & Hrun & Hsend & Hout).
  { eapply supply_weaken; [exact Hsup|lia|done]. }
  rewrite Hrun. cbn [mbind option_bind]. rewrite Hsend. destruct (send_changes_ids _ _ _ _ _ _ _ Hsend) as (Hr & Ha & [->|[ops Hops]]);
    [|by rewrite Hacc in Hops].
  exists s. destruct Hout as [Hc Hv]. split; [done|]. split; [done|]. split.
  - destruct (NewTxn_good h crc (proj1 Hcons)) as (blsI & blsE & Htg & _).
    destruct (run_updates_supply _ _ _ _ _ _ _ _ _ _ _ _ _ _ _ Htg Hsup (reflexivity _) Hrun) as (used & Hs & Hsub).
    unfold allocated_ids in Ha. rewrite Hr, Ha. eapply supply_weaken; [exact Hs|lia|done].
  - intros i. rewrite Hv, config_updates_view. destruct (acl_config art !! i); [done|]. symmetry. by apply consistent_view.
Qed.

(** ** Processing pods *)

(** All pods of the cluster have IPv4 addresses, or none yet. *)
Definition v4_pods (s : K8sState) : Prop :=
  ∀ k d, ks_pods s !! k = Some d → Pod_IpAddress d = ""%string ∨ v4_address (Pod_IpAddress d).

Lemma v4_pod_net s k d n : v4_pods s → ks_pods s !! k = Some d → pod_net d = Some n → v4_net n.
Proof.
  intros Hv Hk. unfold pod_net. case_bool_decide as He; [done|]. destruct (Hv k d Hk) as [?|Ha]; [done|]. by apply host_net_v4.
Qed.

Section pipeline.
Context `{RangeOracle} {MP MO MN : Type} `{!NamedMapping MP Policy, !NamedMapping MO Pod, !NamedMapping MN Namespace}.
Context `{!NamedMappingLaws MP Policy, !NamedMappingLaws MO Pod, !NamedMappingLaws MN Namespace}.
Context {A : Type} `{!AclAgent A, !AclAgentLaws A} `{VppAcl, !VppAclLaws}.
Variable GetIfName : string → string → option string.
Hypothesis Hinj : ∀ ns name ns' name' i, GetIfName ns name = Some i → GetIfName ns' name' = Some i → ns = ns' ∧ name = name'.
Variable arrival : list (option AclCommitError) → list (option AclCommitError).
Hypothesis Harrival : ∀ l, arrival l ≡ₚ l.
Hypothesis Haccepts : accepts A.

#[local] Existing Instance acl_renderer.
#[local] Instance the_renderer : PolicyRenderer (option (AclState A)) AclCommitError := acl_renderer GetIfName.

(** The ACLs of the interface [i] decide the traffic of the pod as the policies
    do; the directions of VPP are those of the vswitch. *)
Definition decides (s : K8sState) (acls : gmap string Acl) (d : Pod) (i : string) : Prop :=
  ∀ pkt, wf_packet pkt →
    (acl_permits (vpp_view acls i).1 pkt = true ↔ k8s_allows s MatchEgress d pkt) ∧
    (acl_permits (vpp_view acls i).2 pkt = true ↔ k8s_allows s MatchIngress d pkt).

Definition pod_if (d : Pod) : option string := GetIfName (Pod_Namespace d) (Pod_Name d).

(** A processor with the ACL renderer as its only renderer. *)
Definition runs_acl (pp : PolicyProcessor (option (AclState A))) (s : AclState A) : Prop :=
  renderers (pp_Configurator pp) = [Some s].

Section cache.
Variable pc : PolicyCache MP MO MN.
Hypothesis Hindexed : indexed_maps pc.
Hypothesis Hstate : simple_state (cache_view pc).
Hypothesis Hv4 : v4_pods (cache_view pc).

Lemma peer_nets_v4 pod n : @peer_net (cache_PodLookup pc) pod = Some n → v4_net n.
Proof.
  change (cache_PodLookup pc) with (ProcessorProofs.lookup pc).
  destruct (ks_pods (cache_view pc) !! PodID_String pod) as [d|] eqn:Hd.
  - rewrite (peer_net_pod pc pod d Hd). by apply (v4_pod_net _ _ _ _ Hv4 Hd).
  - unfold peer_net. rewrite lookup_pod, Hd. done.
Qed.

(** No more calls than pods. *)
Lemma renders_length pods calls : Forall (cached_pod pc) pods → renders pc pods calls → length calls ≤ size (ks_pods (cache_view pc)).
Proof.
  intros Hpods (Hnd & Hin & _). rewrite Forall_forall in Hpods.
  assert (NoDup (PodID_String <$> (rc_pod <$> calls))) as Hnames.
  { apply NoDup_fmap_2_strong; [|done]. intros i j [Hi _]%Hin [Hj _]%Hin Heq.
    destruct (Hpods i Hi) as (d & Hd & ->), (Hpods j Hj) as (d' & Hd' & ->). rewrite Heq, Hd' in Hd. by simplify_eq. }
  transitivity (size (list_to_set (C := gset string) (PodID_String <$> (rc_pod <$> calls)))).
  - rewrite size_list_to_set by done. by rewrite !length_fmap.
  - rewrite <- size_dom. apply subseteq_size. intros k. rewrite elem_of_list_to_set, elem_of_dom.
    intros (i & -> & (_ & d & Hd & _)%Hin)%list_elem_of_fmap. by exists d.
Qed.

Lemma renderer_run_acl calls s n :
  synced s → supply (2 * length calls + n) (st_rands s) (allocated_ids s) →
  ∃ s', renderer_run (Some s) false calls = (Some s', None) ∧ synced s' ∧ supply n (st_rands s') (allocated_ids s') ∧
    ∀ i, vpp_view (agent_acls (st_agent s')) i =
      match acl_config (render_txn GetIfName false calls) !! i with
      | Some c => rendered_view (Some (if_ingress c), Some (if_egress c))
      | None => vpp_view (agent_acls (st_agent s)) i
      end.
Proof.
  intros Hs Hsup. destruct (commit_accepted (render_txn GetIfName false calls) s n Haccepts) as (s' & Hc & Hrest).
  - apply render_txn_resync.
  - done.
  - eapply supply_weaken; [exact Hsup| |done]. pose proof (render_txn_size GetIfName false calls). lia.
  - exists s'. split; [|done]. unfold renderer_run, the_renderer, acl_renderer. cbn [mbind option_bind]. by rewrite Hc.
Qed.

(** The effect on VPP of processing [pods]. *)
Definition processed (pods : list PodID) (s s' : AclState A) : Prop :=
  (∀ d i, ks_pods (cache_view pc) !! pod_name d = Some d → pod_GetID (Some d) ∈ pods → is_Some (pod_net d) → pod_if d = Some i →
    decides (cache_view pc) (agent_acls (st_agent s')) d i) ∧
  ∀ i, (∀ id, id ∈ pods → GetIfName (PodID_Namespace id) (PodID_Name id) ≠ Some i) →
    vpp_view (agent_acls (st_agent s')) i = vpp_view (agent_acls (st_agent s)) i.

Lemma rendered_call_decides pods calls txn call d i (acls : gmap string Acl) :
  good_config (H := cache_PodLookup pc) (ct_config txn) → render_calls (H0 := cache_PodLookup pc) txn = Some calls → renders pc pods calls →
  call ∈ calls → ks_pods (cache_view pc) !! PodID_String (rc_pod call) = Some d →
  vpp_view acls i = rendered_view (Some (Some (rc_ingress call)), Some (Some (rc_egress call))) →
  decides (cache_view pc) acls d i.
Proof.
  intros Hg Hc (_ & _ & Hdec) Hin Hd Hview pkt Hpkt. rewrite Hview. unfold rendered_view. cbn [fst snd].
  destruct (@render_calls_good (cache_PodLookup pc) peer_nets_v4 _ txn calls Hg Hc call Hin) as [[Hvi Hti] [Hve Hte]].
  rewrite !permits_rendered by done. destruct (Hdec call Hin) as (d' & Hd' & _ & Hpkts).
  assert (d' = d) as -> by congruence. apply Hpkts; apply Hpkt.
Qed.

Lemma Process_decides pp s resync pods n :
  runs_acl pp s → synced s → supply (2 * size (ks_pods (cache_view pc)) + n) (st_rands s) (allocated_ids s) → Forall (cached_pod pc) pods →
  ∃ pp' s', Process arrival pc pp resync pods = Some (pp', None) ∧ podIPAddressMap pp' = podIPAddressMap pp ∧
    runs_acl pp' s' ∧ synced s' ∧ supply n (st_rands s') (allocated_ids s') ∧ processed pods s s'.
Proof.
  intros Hpp Hs Hsup Hpods. destruct (Process_run pc Hindexed Hstate arrival pp resync pods Hpods) as (txn & calls & Hg & Hc & Hren & ->).
  pose proof (renders_length pods calls Hpods Hren) as Hlen. pose proof Hren as (Hnd & Hin & _).
  destruct (renderer_run_acl calls s n Hs) as (s' & Hrun & Hs' & Hsup' & Hview); [eapply supply_weaken; [exact Hsup|lia|done]|].
  assert (processed pods s s') as Hproc.
  { split.
    - intros d i Hd Hi Hn Hif. assert (pod_GetID (Some d) ∈ rc_pod <$> calls) as (call & Hid & Hcall)%list_elem_of_fmap by (apply Hin; eauto).
      apply (rendered_call_decides pods calls txn call); [done..|by rewrite <- Hid|].
      rewrite Hview, (render_txn_in GetIfName Hinj false calls call i Hnd Hcall); [done|]. unfold call_if. by rewrite <- Hid.
    - intros i Hi. rewrite Hview, render_txn_out; [done|]. intros c Hc'. apply Hi.
      by apply (Hin (rc_pod c)), list_elem_of_fmap_2. }
  destruct calls as [|call calls].
  - exists pp, s. split_and!; [done..|eapply supply_weaken; [exact Hsup|lia|done]|].
    destruct Hproc as [Hd _]. split; [|done]. intros d i Hcd Hdp Hn _. exfalso.
    assert (pod_GetID (Some d) ∈ rc_pod <$> []) as Hnil by (apply Hin; by eauto). by apply elem_of_nil in Hnil.
  - cbv zeta. rewrite Hpp. cbn [fmap list_fmap]. rewrite Hrun. cbn [fst snd].
    assert (∀ b : bool, last_error (if b then arrival [None] else [None]) = None) as ->.
    { intros []; [|done]. assert (arrival [None] = [None]) as -> by apply Permutation_singleton_r, Harrival. done. }
    eexists _, s'. split; [reflexivity|]. by split_and!.
Qed.
End cache.
End pipeline.
