(* ===== verification/PolicyStack.v ===== *)
(** * The policy stack: from Kubernetes events to the ACLs in VPP

    Cache, processor, configurator, ACL cache and ACL renderer together, driven by
    the change events of the data store. The invariant [enforces]: the traffic of
    every pod of this node with an address and an interface is subject to ACLs
    that decide as the Kubernetes policies of the cache do. It holds initially and
    every event preserves it. *)

From Stdlib Require Import ZArith Lia Ascii String.
From stdpp Require Import prelude strings list gmap.
From S2P Require Import Prelude GoStrings GoErrors GoNet GoText KsrModel Utils Rules AclCache AclCacheProofs AclRenderer AclRendererProofs.
From S2P Require Import Configurator SubtractSubnet ConfiguratorRules RuleIds ConfiguratorProofs ConfiguratorCommit.
From S2P Require Import PolicyCache PolicyCacheEvents PolicyCacheProofs PolicyCacheSelect Processor ProcessorProofs AclSemantics AclPipeline PolicyPlugin.

(** ** What an event changes *)

Definition registered (s : K8sState) (p : Policy) : Prop := ∃ k, ks_policies s !! k = Some p.

Lemma rule_allows_ext s s' ns direction rule pkt :
  (∀ peer ip, peer ∈ PR_Peers rule → peer_allows s ns peer ip ↔ peer_allows s' ns peer ip) →
  rule_allows s ns direction rule pkt ↔ rule_allows s' ns direction rule pkt.
Proof.
  intros Hp. unfold rule_allows. split; intros [[?|(peer & Hin & Ha)] Hport]; (split; [|done]); [by left|right|by left|right];
    exists peer; (split; [done|]); by apply (Hp peer).
Qed.

(** The policies that select the pod are the same and their peers allow the same. *)
Lemma k8s_allows_ext s s' direction d pkt :
  (∀ p, selects p d → registered s p ↔ registered s' p) →
  (∀ p peer ip, registered s p → selects p d → peer ∈ policy_peers p →
    peer_allows s (Policy_Namespace p) peer ip ↔ peer_allows s' (Policy_Namespace p) peer ip) →
  k8s_allows s direction d pkt ↔ k8s_allows s' direction d pkt.
Proof.
  intros Hreg Hpeers.
  assert (∀ p, restricts s direction d p ↔ restricts s' direction d p) as Hres.
  { intros p. unfold restricts. split; intros (Hr & Hs & Ha); (split; [|done]); by apply (Hreg p Hs). }
  assert (∀ p rule, restricts s direction d p → rule ∈ dir_rules direction p →
    rule_allows s (Policy_Namespace p) direction rule pkt ↔ rule_allows s' (Policy_Namespace p) direction rule pkt) as Hrule.
  { intros p rule (Hr & Hs & _) Hin. apply rule_allows_ext. intros peer ip Hpeer. apply Hpeers; [done..|].
    unfold policy_peers. rewrite elem_of_app, !list_elem_of_bind. destruct direction; [left|right]; by exists rule. }
  unfold k8s_allows. split.
  - intros [Hn|(p & rule & Hp & Hin & Ha)]; [left; intros p Hp; by apply (Hn p), Hres|right].
    exists p, rule. split; [by apply Hres|]. split; [done|]. by apply Hrule.
  - intros [Hn|(p & rule & Hp & Hin & Ha)]; [left; intros p Hp; by apply (Hn p), Hres|right].
    apply Hres in Hp. exists p, rule. split; [done|]. split; [done|]. by apply Hrule.
Qed.

(** The states differ in policies among [ps]. *)
Definition policy_diff (s s' : K8sState) (ps : list Policy) : Prop :=
  ks_pods s' = ks_pods s ∧ ∀ q, q ∉ ps → registered s q ↔ registered s' q.

Lemma policy_diff_allows s s' ps direction d pkt : policy_diff s s' ps → (∀ p, p ∈ ps → ¬ selects p d) →
  k8s_allows s direction d pkt ↔ k8s_allows s' direction d pkt.
Proof.
  intros [Hpods Hreg] Hsel. apply k8s_allows_ext.
  - intros p Hs. apply Hreg. intros Hin. by apply (Hsel p).
  - intros p peer ip _ _ _. unfold peer_allows. by rewrite Hpods.
Qed.

(** The states differ in the pod called [name]. *)
Definition pod_diff (s s' : K8sState) (name : string) : Prop :=
  ks_policies s' = ks_policies s ∧ ∀ k, k ≠ name → ks_pods s' !! k = ks_pods s !! k.

(** The pod matters to the traffic of another one as a peer, with its address. *)
Definition no_peer (d x : Pod) (s : K8sState) : Prop :=
  pod_net x = None ∨ ∀ p, registered s p → selects p d → ¬ peers_with p x.

Lemma peer_allows_diff s s' name d p peer ip : pod_diff s s' name →
  (∀ x, ks_pods s !! name = Some x → no_peer d x s) → registered s p → selects p d → peer ∈ policy_peers p →
  peer_allows s (Policy_Namespace p) peer ip → peer_allows s' (Policy_Namespace p) peer ip.
Proof.
  intros [_ Hpods] Hx Hreg Hsel Hpeer [(sel & k & x & n & Hps & Hk & Hl & Hn & Hm)|?]; [left|by right].
  exists sel, k, x, n. split_and!; [done| |done..]. destruct (decide (k = name)) as [->|Hne]; [|by rewrite Hpods].
  destruct (Hx x Hk) as [?|Hnp]; [congruence|]. exfalso. apply (Hnp p Hreg Hsel). by exists peer, sel.
Qed.

Lemma pod_diff_allows s s' name direction d pkt : pod_diff s s' name →
  (∀ x, ks_pods s !! name = Some x ∨ ks_pods s' !! name = Some x → no_peer d x s) →
  k8s_allows s direction d pkt ↔ k8s_allows s' direction d pkt.
Proof.
  intros Hdiff Hx. pose proof Hdiff as [Hpol Hpods]. apply k8s_allows_ext.
  { intros p _. unfold registered. by rewrite Hpol. }
  intros p peer ip Hreg Hsel Hpeer. split.
  - apply (peer_allows_diff s s' name d); [done| |done..]. eauto.
  - apply (peer_allows_diff s' s name d); [|..|done|done].
    + split; [done|]. intros k Hk. by rewrite Hpods.
    + intros x Hk. destruct (Hx x) as [?|Hnp]; [by right|by left|right]. intros q Hq. apply Hnp. unfold registered in *. by rewrite Hpol in Hq.
    + unfold registered. by rewrite Hpol.
Qed.

(** ** The invariant *)

(** Clusters the stack handles: the policies of [simple_state], IPv4 pods, and no
    policies in the namespace whose pods the processor ignores. *)
Record simple_cluster (s : K8sState) : Prop := {
  sc_state : simple_state s;
  sc_v4 : v4_pods s;
  sc_system p : registered s p → Policy_Namespace p ≠ "kube-system"%string
}.

(** ** Events *)

(** Events as the data store produces them: the previous value of an object is the
    stored one and has the same name; a new object has no previous value. *)
Definition ok_policy_change (s : K8sState) (type : ChangeType) (value prev : Policy) (diff : bool) : Prop :=
  match type with
  | ChangeDelete => ks_policies s !! policy_name prev = Some prev
  | ChangePut =>
    if diff then ks_policies s !! policy_name prev = Some prev ∧ policy_name value = policy_name prev
    else ks_policies s !! policy_name value = None
  end.

(** A pod without address, or of kube-system. *)
Definition silent (x : Pod) : Prop := Pod_IpAddress x = ""%string ∨ Pod_Namespace x = "kube-system"%string.

(** A pod is added before it has an address, and does not lose it again (or is in
    kube-system). *)
Definition ok_pod_change (s : K8sState) (type : ChangeType) (value prev : Pod) (diff : bool) : Prop :=
  match type with
  | ChangeDelete => ks_pods s !! pod_name prev = Some prev
  | ChangePut =>
    if diff then ks_pods s !! pod_name prev = Some prev ∧ pod_name value = pod_name prev ∧ (silent value → silent prev)
    else ks_pods s !! pod_name value = None ∧ silent value
  end.

Definition ok_event {E} (s : K8sState) (ev : ChangeEvent E) : Prop :=
  simple_cluster (apply_change ev s) ∧
  (HasPrefix (ev_key ev) NamespacePrefix = true →
   if ParsePolicyFromKey (ev_key ev) is Some _ then
     ∀ value diff prev, ev_policy ev = Ok value → ev_prevPolicy ev = Ok (diff, prev) → ok_policy_change s (ev_type ev) value prev diff
   else if ParsePodFromKey (ev_key ev) is Some _ then
     ∀ value diff prev, ev_pod ev = Ok value → ev_prevPod ev = Ok (diff, prev) → ok_pod_change s (ev_type ev) value prev diff
   else True).

Section stack.
Context `{RangeOracle} {MP MO MN : Type} `{!NamedMapping MP Policy, !NamedMapping MO Pod, !NamedMapping MN Namespace}.
Context `{!NamedMappingLaws MP Policy, !NamedMappingLaws MO Pod, !NamedMappingLaws MN Namespace}.
Context {A : Type} `{!AclAgent A, !AclAgentLaws A} `{VppAcl, !VppAclLaws}.
Variable GetIfName : string → string → option string.
Hypothesis Hinj : ∀ ns name ns' name' i, GetIfName ns name = Some i → GetIfName ns' name' = Some i → ns = ns' ∧ name = name'.
Variable arrival : list (option AclCommitError) → list (option AclCommitError).
Hypothesis Harrival : ∀ l, arrival l ≡ₚ l.
Hypothesis Haccepts : accepts A.
Variable hostNetwork : IPNet.

#[local] Instance stack_renderer : PolicyRenderer (option (AclState A)) AclCommitError := acl_renderer GetIfName.
#[local] Abbreviation Processor := (PolicyProcessor (option (AclState A))).
#[local] Abbreviation Cache := (PolicyCache MP MO MN).

(** The pods of this node whose traffic is restricted through [i]. *)
Definition policed (s : K8sState) (d : Pod) (i : string) : Prop :=
  ks_pods s !! pod_name d = Some d ∧ Pod_Namespace d ≠ "kube-system"%string ∧ on_node hostNetwork d ∧ is_Some (pod_net d) ∧
  pod_if GetIfName d = Some i.

Definition enforces (s : K8sState) (acls : gmap string Acl) : Prop := ∀ d i, policed s d i → decides s acls d i.

(** The processor remembers the addresses of the pods. *)
Definition remembers (s : K8sState) (pp : Processor) : Prop :=
  ∀ d, ks_pods s !! pod_name d = Some d → Pod_Namespace d ≠ "kube-system"%string → Pod_IpAddress d ≠ ""%string →
    podIPAddressMap pp !! pod_name d = Some (Pod_IpAddress d).

(** The renderer of the processor is in step with VPP, [n] list identifiers can
    still be generated, and VPP enforces the policies of [s]. *)
Definition enforcing (s : K8sState) (n : nat) (pp : Processor) : Prop :=
  ∃ a, runs_acl pp a ∧ synced a ∧ supply n (st_rands a) (allocated_ids a) ∧ enforces s (agent_acls (st_agent a)).

Definition stack_ok (n : nat) (st : Cache * list Processor) : Prop :=
  ∃ pp, st.2 = [pp] ∧ indexed_maps st.1 ∧ simple_cluster (cache_view st.1) ∧ enforcing (cache_view st.1) n pp ∧ remembers (cache_view st.1) pp.

Lemma enforcing_weaken s n m pp : enforcing s n pp → m ≤ n → enforcing s m pp.
Proof. intros (a & Hr & Hs & Hsup & He) Hm. exists a. split_and!; [done..|by eapply supply_weaken|done]. Qed.

(** A pod is processed, or nothing has changed for it. *)
Definition covered (s s' : K8sState) (pods : list PodID) : Prop :=
  ∀ d i, policed s' d i → pod_GetID (Some d) ∉ pods →
    ks_pods s !! pod_name d = Some d ∧ ∀ direction pkt, k8s_allows s direction d pkt ↔ k8s_allows s' direction d pkt.

Lemma processed_enforces (pc : Cache) s pods a a' : enforces s (agent_acls (st_agent a)) →
  processed GetIfName pc pods a a' → covered s (cache_view pc) pods → enforces (cache_view pc) (agent_acls (st_agent a')).
Proof.
  intros He [Hin Hout] Hcov d i Hd. pose proof Hd as (Hpod & Hns & Hnode & Hnet & Hif).
  destruct (decide (pod_GetID (Some d) ∈ pods)) as [Hi|Hi]; [by apply Hin|].
  destruct (Hcov d i Hd Hi) as [Hold Hsame]. intros pkt Hpkt. rewrite (Hout i).
  - rewrite <- !Hsame. by apply (He d i).
  - intros [name ns] Hid Hif'. apply Hi. destruct (Hinj _ _ _ _ _ Hif Hif') as [Hns' Hname']. cbn in Hns', Hname'.
    unfold pod_GetID. by rewrite Hns', Hname'.
Qed.

(** Processing the pods an event affects restores the invariant. *)
Lemma process_step (pc : Cache) s pp resync pods n : indexed_maps pc → simple_cluster (cache_view pc) →
  enforcing s (2 * size (ks_pods (cache_view pc)) + n) pp → Forall (cached_pod pc) pods → covered s (cache_view pc) pods →
  ∃ pp', Process arrival pc pp resync pods = Some (pp', None) ∧ podIPAddressMap pp' = podIPAddressMap pp ∧ enforcing (cache_view pc) n pp'.
Proof.
  intros Hix Hsc (a & Hr & Hs & Hsup & He) Hpods Hcov.
  destruct (Process_decides GetIfName Hinj arrival Harrival Haccepts pc Hix (sc_state _ Hsc) (sc_v4 _ Hsc) pp a resync pods n Hr Hs Hsup Hpods)
    as (pp' & a' & Hp & Hm & Hr' & Hs' & Hsup' & Hproc).
  exists pp'. split; [done|]. split; [done|]. exists a'. split_and!; [done..|]. by apply (processed_enforces pc s pods a a').
Qed.

(** Nothing to process. *)
Lemma quiet_step (pc : Cache) s pp n : enforcing s n pp → covered s (cache_view pc) [] → enforcing (cache_view pc) n pp.
Proof.
  intros (a & Hr & Hs & Hsup & He) Hcov. exists a. split_and!; [done..|]. apply (processed_enforces pc s [] a a); [done| |done].
  split; [by intros d i _ Hd%elem_of_nil|done].
Qed.
(** ** The callbacks *)

#[local] Instance stack_watcher : PolicyCacheWatcher Processor AclCommitError Cache := processor_watcher hostNetwork arrival.

(** A callback that leads from the policies of [s] to those of the cache. *)
Definition call_ok (pc : Cache) (s : K8sState) (pp : Processor) (call : WatcherCall) : Prop :=
  ∀ n, enforcing s (2 * size (ks_pods (cache_view pc)) + n) pp → remembers s pp →
    ∃ pp', watcher_call pp pc call = Some (pp', None) ∧ enforcing (cache_view pc) n pp' ∧ remembers (cache_view pc) pp'.

Lemma remembers_same s s' (pp pp' : Processor) : ks_pods s' = ks_pods s → podIPAddressMap pp' = podIPAddressMap pp →
  remembers s pp → remembers s' pp'.
Proof. intros Hp Hm Hr d. rewrite Hp, Hm. apply Hr. Qed.

Section policies.
Variable pc : Cache.
Hypothesis Hix : indexed_maps pc.
Hypothesis Hsc : simple_cluster (cache_view pc).

Lemma policies_covered s ps pods : policy_diff s (cache_view pc) ps →
  (∀ p i, p ∈ ps → policy_pod pc hostNetwork p i → i ∈ pods) → covered s (cache_view pc) pods.
Proof.
  intros Hdiff Hps d i (Hd & _ & Hnode & _) Hin. split; [by rewrite <- (proj1 Hdiff)|]. intros direction pkt.
  apply (policy_diff_allows s _ ps); [done|]. intros p Hp Hsel. apply Hin, (Hps p); [done|]. by exists d.
Qed.

Lemma policy_call s pp call ps pods : policy_diff s (cache_view pc) ps → Forall (cached_pod pc) pods →
  (∀ p i, p ∈ ps → policy_pod pc hostNetwork p i → i ∈ pods) →
  watcher_call pp pc call = Process arrival pc pp false pods → call_ok pc s pp call.
Proof.
  intros Hdiff Hc Hps Hcall n He Hr. rewrite Hcall.
  destruct (process_step pc s pp false pods n Hix Hsc He Hc) as (pp' & -> & Hm & He'); [by apply (policies_covered s ps)|].
  exists pp'. split; [done|]. split; [done|]. eapply remembers_same; [exact (proj1 Hdiff)|exact Hm|done].
Qed.

Lemma AddPolicy_call s pp p : simple_policy p → no_slash (Policy_Namespace p) → policy_diff s (cache_view pc) [p] →
  call_ok pc s pp (WAddPolicy p) ∧ call_ok pc s pp (WDelPolicy p).
Proof.
  intros Hp Hns Hdiff. destruct (AddPolicy_pods pc Hix (sc_state _ Hsc) arrival hostNetwork pp p Hp Hns) as (pods & Ha & Hd & Hc & Hin).
  split; (apply (policy_call s pp _ [p] pods); [done|done| |done]); intros q i Hq%list_elem_of_singleton; subst q; by apply Hin.
Qed.

Lemma UpdatePolicy_call s pp p q : simple_policy p → no_slash (Policy_Namespace p) → simple_policy q → no_slash (Policy_Namespace q) →
  policy_diff s (cache_view pc) [p; q] → call_ok pc s pp (WUpdatePolicy p q).
Proof.
  intros Hp Hpn Hq Hqn Hdiff.
  destruct (UpdatePolicy_pods pc Hix (sc_state _ Hsc) arrival hostNetwork pp p q Hp Hpn Hq Hqn) as (pods & Hu & Hc & Hin).
  apply (policy_call s pp _ [p; q] pods); [done..| |done]. intros r i Hr Hpod. apply Hin.
  rewrite elem_of_cons, list_elem_of_singleton in Hr. destruct Hr as [->| ->]; auto.
Qed.
End policies.

(** *** Pods *)

Section pods.
Variable pc : Cache.
Hypothesis Hix : indexed_maps pc.
Hypothesis Hsc : simple_cluster (cache_view pc).

Lemma pods_covered s name pods : pod_diff s (cache_view pc) name →
  (∀ d i, policed (cache_view pc) d i → pod_GetID (Some d) ∉ pods → pod_name d ≠ name ∧
    ∀ x, ks_pods s !! name = Some x ∨ ks_pods (cache_view pc) !! name = Some x → no_peer d x (cache_view pc)) →
  covered s (cache_view pc) pods.
Proof.
  intros Hdiff Hcov d i Hd Hin. destruct (Hcov d i Hd Hin) as [Hne Hx]. split.
  - rewrite <- (proj2 Hdiff) by done. apply Hd.
  - intros direction pkt. apply (pod_diff_allows s _ name); [done|]. intros x Hk. destruct (Hx x Hk) as [?|Hnp]; [by left|right].
    intros p Hp. apply Hnp. unfold registered in *. by rewrite (proj1 Hdiff).
Qed.

(** Pods of kube-system are not peers. *)
Lemma system_no_peer d x : Pod_Namespace x = "kube-system"%string → no_peer d x (cache_view pc).
Proof. intros Hx. right. intros p Hp _ (peer & sel & _ & _ & Hns & _). apply (sc_system _ Hsc p Hp). congruence. Qed.

Lemma address_no_peer d x : Pod_IpAddress x = ""%string → no_peer d x (cache_view pc).
Proof. intros Hx. left. unfold pod_net. by rewrite bool_decide_true. Qed.

Lemma silent_no_peer d x : silent x → no_peer d x (cache_view pc).
Proof. intros [?|?]; [by apply address_no_peer|by apply system_no_peer]. Qed.

Lemma policed_not_silent s d i : policed s d i → ¬ silent d.
Proof.
  intros (_ & Hns & _ & Hnet & _) [Hip|?]; [|done]. unfold pod_net in Hnet. rewrite bool_decide_true in Hnet by done. by destruct Hnet.
Qed.

(** A change between silent pods is covered without processing. *)
Lemma silent_covered s name : pod_diff s (cache_view pc) name →
  (∀ x, ks_pods s !! name = Some x ∨ ks_pods (cache_view pc) !! name = Some x → silent x) → covered s (cache_view pc) [].
Proof.
  intros Hdiff Hsil. apply (pods_covered s name); [done|]. intros d i Hd _. split.
  - intros <-. apply (policed_not_silent _ _ _ Hd), Hsil. right. apply Hd.
  - intros x Hx. by apply silent_no_peer, Hsil.
Qed.

(** A silent change does not touch what is remembered. *)
Lemma silent_remembers s name (pp : Processor) : pod_diff s (cache_view pc) name →
  (∀ x, ks_pods (cache_view pc) !! name = Some x → silent x) → remembers s pp → remembers (cache_view pc) pp.
Proof.
  intros [_ Hpods] Hsil Hr d Hd Hns Hip. destruct (decide (pod_name d = name)) as [Heq|Hne].
  - subst name. by destruct (Hsil d Hd).
  - apply Hr; [|done..]. by rewrite <- Hpods.
Qed.

Lemma silent_call s pp call name : pod_diff s (cache_view pc) name →
  (∀ x, ks_pods s !! name = Some x ∨ ks_pods (cache_view pc) !! name = Some x → silent x) →
  watcher_call pp pc call = Some (pp, None) → call_ok pc s pp call.
Proof.
  intros Hdiff Hsil Hcall n He Hr. exists pp. split; [done|]. split.
  - apply (quiet_step pc s); [eapply enforcing_weaken; [done|lia]|by apply (silent_covered s name)].
  - apply (silent_remembers s name); [done| |done]. intros x Hx. apply Hsil. by right.
Qed.

Lemma AddPod_call s pp pod : pod_diff s (cache_view pc) (pod_name pod) → ks_pods s !! pod_name pod = None →
  ks_pods (cache_view pc) !! pod_name pod = Some pod → silent pod → call_ok pc s pp (WAddPod pod).
Proof.
  intros Hdiff Hold Hnew Hsil. apply (silent_call s pp _ (pod_name pod)); [done| |].
  - intros x [Hx|Hx]; congruence.
  - cbn. unfold AddPod. by repeat case_bool_decide.
Qed.

(** The second callback of an update: nothing. *)
Lemma AddPod_again pp pod : watcher_call pp pc (WAddPod pod) = Some (pp, None).
Proof. cbn. unfold AddPod. by repeat case_bool_decide. Qed.

Lemma UpdatePod_silent pp oldPod newPod : silent newPod → watcher_call pp pc (WUpdatePod oldPod newPod) = Some (pp, None).
Proof.
  intros Hsil. cbn. unfold UpdatePod. case_bool_decide; [done|]. case_bool_decide; [done|]. by destruct Hsil.
Qed.

Lemma UpdatePod_call s pp oldPod newPod : pod_name oldPod = pod_name newPod → pod_diff s (cache_view pc) (pod_name newPod) →
  ks_pods s !! pod_name newPod = Some oldPod → ks_pods (cache_view pc) !! pod_name newPod = Some newPod →
  (silent newPod → silent oldPod) → call_ok pc s pp (WUpdatePod oldPod newPod).
Proof.
  intros Hname Hdiff Hold Hnew Hsil.
  destruct (decide (Pod_IpAddress newPod = "")) as [Hip|Hip]; [|destruct (decide (Pod_Namespace newPod = "kube-system")) as [Hns|Hns]].
  1-2: assert (silent newPod) as Hn by (unfold silent; auto); apply (silent_call s pp _ (pod_name newPod)); [done| |by apply UpdatePod_silent];
    intros x [Hx|Hx]; assert (x = oldPod ∨ x = newPod) as [->| ->] by (left + right; congruence); auto.
  intros n (a & Hrun & Hs & Hsup & He) Hr.
  destruct (UpdatePod_pods pc Hix (sc_state _ Hsc) arrival hostNetwork pp oldPod newPod Hns Hip Hnew) as (pods & Hcall & Hc & _ & Hin).
  cbn [watcher_call stack_watcher processor_watcher]. rewrite Hcall.
  set (pp1 := mkPolicyProcessor _ _). destruct (process_step pc s pp1 false pods n Hix Hsc) as (pp' & -> & Hm & He').
  - by exists a.
  - done.
  - apply (pods_covered s (pod_name newPod)); [done|]. intros d i (Hd & _ & Hnode & _) Hnin. split.
    + intros Heq. apply Hnin, Hin; [done..|]. left. congruence.
    + intros x Hx. assert (x = oldPod ∨ x = newPod) as Hxs by (destruct Hx as [Hx|Hx]; [left|right]; congruence).
      right. intros p [k Hk] Hsel Hpw. apply Hnin, Hin; [done..|]. right. exists k, p. destruct Hxs as [->| ->]; auto.
  - exists pp'. split; [done|]. split; [done|]. intros d Hd Hdn Hdip. rewrite Hm. cbn [podIPAddressMap pp1].
    destruct (decide (pod_name d = pod_name newPod)) as [Heq|Hne].
    + rewrite Heq, lookup_insert_eq. rewrite Heq in Hd. congruence.
    + rewrite lookup_insert_ne by done. apply Hr; [|done..]. by rewrite <- (proj2 Hdiff).
Qed.

Lemma DelPod_call s pp pod : pod_diff s (cache_view pc) (pod_name pod) → ks_pods s !! pod_name pod = Some pod →
  ks_pods (cache_view pc) !! pod_name pod = None → call_ok pc s pp (WDelPod pod).
Proof.
  intros Hdiff Hold Hnew. destruct (decide (Pod_Namespace pod = "kube-system")) as [Hns|Hns].
  { apply (silent_call s pp _ (pod_name pod)); [done| |cbn; unfold DelPod; by rewrite bool_decide_true].
    intros x [Hx|Hx]; [|congruence]. rewrite Hold in Hx. injection Hx as <-. by right. }
  intros n He Hr. destruct (DelPod_pods pc Hix (sc_state _ Hsc) arrival hostNetwork pp pod Hns) as (pods & Hcall & Hc & Hin).
  assert (remembers (cache_view pc) pp) as Hr'. { apply (silent_remembers s (pod_name pod)); [done|congruence|done]. }
  cbn [watcher_call stack_watcher processor_watcher]. rewrite Hcall.
  destruct (process_step pc s pp false pods n Hix Hsc He Hc) as (pp' & -> & Hm & He').
  - apply (pods_covered s (pod_name pod)); [done|]. intros d i Hpol Hnin. pose proof Hpol as (Hd & Hdn & Hnode & _). split; [congruence|].
    intros x [Hx|Hx]; [|congruence]. rewrite Hold in Hx. injection Hx as <-. right. intros p [k Hk] Hsel Hpw.
    apply Hnin, (Hin d k p); [done..|]. apply Hr'; [done..|]. intros Hip. apply (policed_not_silent _ _ _ Hpol). by left.
  - exists pp'. split; [done|]. split; [done|]. by eapply remembers_same; [..|exact Hr'].
Qed.
End pods.

(** ** Change events *)

Lemma and_then_call (pc : Cache) (pp pp' : Processor) call rest :
  watcher_call pp pc call = Some (pp', None) → and_then (E := AclCommitError) (pc, [pp]) call rest = rest (pc, [pp']).
Proof. intros Hc. unfold and_then. cbn [notify fst snd]. rewrite Hc. done. Qed.

(** The state after a change, with what the callbacks left. *)
Definition changed (s' : K8sState) (n : nat) (r : option ((Cache * list Processor) * option AclCommitError)) : Prop :=
  ∃ st', r = Some (st', None) ∧ cache_view st'.1 = s' ∧ stack_ok n st'.

Lemma call_changed (pc : Cache) s pp call n : indexed_maps pc → simple_cluster (cache_view pc) →
  enforcing s (2 * size (ks_pods (cache_view pc)) + n) pp → remembers s pp → call_ok pc s pp call →
  changed (cache_view pc) n (and_then (pc, [pp]) call return_nil).
Proof.
  intros Hix Hsc He Hr Hcall. destruct (Hcall n He Hr) as (pp' & Hc & He' & Hr'). rewrite (and_then_call _ _ _ _ _ Hc).
  exists (pc, [pp']). split; [done|]. split; [done|]. by exists pp'.
Qed.

(** Two callbacks on the same state of the cache, the maps being written again
    in between. *)
Lemma calls_changed (pc pc' : Cache) s pp call call' n (again : Cache * list Processor → option ((Cache * list Processor) * option AclCommitError)) :
  indexed_maps pc → indexed_maps pc' → simple_cluster (cache_view pc) → cache_view pc' = cache_view pc →
  enforcing s (4 * size (ks_pods (cache_view pc)) + n) pp → remembers s pp → call_ok pc s pp call →
  (∀ pp', call_ok pc' (cache_view pc) pp' call') → (∀ pp', again (pc, [pp']) = and_then (pc', [pp']) call' return_nil) →
  changed (cache_view pc) n (and_then (pc, [pp]) call again).
Proof.
  intros Hix Hix' Hsc Hview He Hr Hcall Hcall' Hagain.
  destruct (Hcall (2 * size (ks_pods (cache_view pc)) + n)) as (pp' & Hc & He' & Hr'); [eapply enforcing_weaken; [done|lia]|done|].
  rewrite (and_then_call _ _ _ _ _ Hc), Hagain. rewrite <- Hview. apply (call_changed pc' (cache_view pc)); [done|by rewrite Hview| |done|done].
  by rewrite Hview.
Qed.

Lemma policy_diff_refl s ps : policy_diff s s ps.
Proof. done. Qed.

Lemma set_policies_view (pc : Cache) m x : fst <$> nm_view m = x →
  cache_view (set_policies pc m) = mkK8sState x (ks_pods (cache_view pc)) (ks_namespaces (cache_view pc)).
Proof. by intros <-. Qed.

Lemma set_pods_view (pc : Cache) m x : fst <$> nm_view m = x →
  cache_view (set_pods pc m) = mkK8sState (ks_policies (cache_view pc)) x (ks_namespaces (cache_view pc)).
Proof. by intros <-. Qed.

(** A registered policy of a simple cluster is one the callbacks handle. *)
Lemma registered_simple s p k : simple_cluster s → ks_policies s !! k = Some p →
  simple_policy p ∧ no_slash (Policy_Namespace p) ∧ is_Some (Policy_Pods p).
Proof.
  intros Hsc Hk. pose proof (ss_policies _ (sc_state _ Hsc) _ _ Hk) as Hp. split; [done|]. split.
  - by destruct (proj2 (ss_good _ (sc_state _ Hsc)) _ _ Hk) as (_ & ? & _).
  - destruct Hp as (labels & -> & _). by eexists.
Qed.

Section change.
Variable (pc : Cache) (pp : Processor) (n : nat).
Hypothesis Hix : indexed_maps pc.
Hypothesis Hsc : simple_cluster (cache_view pc).
Hypothesis Hr : remembers (cache_view pc) pp.

Lemma policy_delete (ev : ChangeEvent AclCommitError) value diff prev : ev_policy ev = Ok value → ev_prevPolicy ev = Ok (diff, prev) →
  ev_type ev = ChangeDelete → ks_policies (cache_view pc) !! policy_name prev = Some prev →
  let s' := mkK8sState (delete (policy_name prev) (ks_policies (cache_view pc))) (ks_pods (cache_view pc)) (ks_namespaces (cache_view pc)) in
  simple_cluster s' → enforcing (cache_view pc) (4 * size (ks_pods s') + n) pp → changed s' n (policy_change (pc, [pp]) ev).
Proof.
  intros Hv Hp Ht Hk s' Hsc' He. unfold policy_change. rewrite Hv, Hp, Ht, bool_decide_true by done. cbv zeta. cbn [fst snd].
  fold (policy_name prev). set (pc' := set_policies pc _).
  assert (cache_view pc' = s') as Hview by (apply set_policies_view, UnregisterPolicy_view).
  destruct (registered_simple _ _ _ Hsc Hk) as (Hps & Hns & _). rewrite <- Hview.
  assert (indexed_maps pc') as Hix' by by apply unset_policies_indexed.
  apply (call_changed pc' (cache_view pc)); [done|by rewrite Hview|eapply enforcing_weaken; [exact He|rewrite Hview; lia]|done|].
  apply AddPolicy_call; [done|by rewrite Hview|done|done|]. rewrite Hview. split; [done|]. intros q Hq. split.
  - intros [k Hkq]. exists k. cbn. rewrite lookup_delete_ne; [done|]. intros <-. apply Hq, list_elem_of_singleton. congruence.
  - intros [k Hkq]. cbn in Hkq. apply lookup_delete_Some in Hkq as [_ Hkq]. by exists k.
Qed.

Lemma policy_add (ev : ChangeEvent AclCommitError) value prev : ev_policy ev = Ok value → ev_prevPolicy ev = Ok (false, prev) →
  ev_type ev = ChangePut → ks_policies (cache_view pc) !! policy_name value = None →
  let s' := mkK8sState (<[policy_name value := value]> (ks_policies (cache_view pc))) (ks_pods (cache_view pc)) (ks_namespaces (cache_view pc)) in
  simple_cluster s' → enforcing (cache_view pc) (4 * size (ks_pods s') + n) pp → changed s' n (policy_change (pc, [pp]) ev).
Proof.
  intros Hv Hp Ht Hk s' Hsc' He. unfold policy_change. rewrite Hv, Hp, Ht, bool_decide_false by done. cbv zeta. cbn [fst snd].
  fold (policy_name value). destruct (registered_simple s' value (policy_name value) Hsc') as (Hps & Hns & Hsel); [apply lookup_insert_eq|].
  destruct (RegisterPolicy_ok (configuredPolicies pc) (policy_name value) value Hsel) as [m Hm]. rewrite Hm. cbn [mbind option_bind fst snd].
  assert (cache_view (set_policies pc m) = s') as Hview by (by apply set_policies_view, RegisterPolicy_view). rewrite <- Hview.
  assert (indexed_maps (set_policies pc m)) as Hix' by (by eapply set_policies_indexed).
  apply (call_changed _ (cache_view pc)); [done|by rewrite Hview|eapply enforcing_weaken; [exact He|rewrite Hview; lia]|done|].
  apply AddPolicy_call; [done|by rewrite Hview|done|done|]. rewrite Hview. split; [done|]. intros q Hq. split.
  - intros [k Hkq]. exists k. cbn. rewrite lookup_insert_ne; [done|]. intros <-. congruence.
  - intros [k Hkq]. cbn in Hkq. apply lookup_insert_Some in Hkq as [[_ <-]|[_ Hkq]]; [|by exists k]. by destruct Hq; left.
Qed.

Lemma policy_update (ev : ChangeEvent AclCommitError) value prev : ev_policy ev = Ok value → ev_prevPolicy ev = Ok (true, prev) →
  ev_type ev = ChangePut → ks_policies (cache_view pc) !! policy_name prev = Some prev → policy_name value = policy_name prev →
  let s' := mkK8sState (<[policy_name value := value]> (delete (policy_name prev) (ks_policies (cache_view pc))))
    (ks_pods (cache_view pc)) (ks_namespaces (cache_view pc)) in
  simple_cluster s' → enforcing (cache_view pc) (4 * size (ks_pods s') + n) pp → changed s' n (policy_change (pc, [pp]) ev).
Proof.
  intros Hv Hp Ht Hk Hname s' Hsc' He. unfold policy_change. rewrite Hv, Hp, Ht, bool_decide_false by done. cbv zeta. cbn [fst snd].
  fold (policy_name value) (policy_name prev). destruct (registered_simple s' value (policy_name value) Hsc') as (Hps & Hns & Hsel);
    [apply lookup_insert_eq|].
  destruct (registered_simple _ _ _ Hsc Hk) as (Hpp & Hpn & _). set (pc0 := set_policies pc _).
  destruct (RegisterPolicy_ok (configuredPolicies pc0) (policy_name value) value Hsel) as [m Hm].
  rewrite Hm. cbn [mbind option_bind fst snd]. set (pc1 := set_policies pc0 m).
  assert (fst <$> nm_view m = ks_policies s') as Hview1 by (erewrite RegisterPolicy_view by exact Hm; unfold pc0, s'; cbn;
    by rewrite UnregisterPolicy_view).
  assert (cache_view pc1 = s') as Hview by (unfold pc1; erewrite set_policies_view by exact Hview1; done).
  destruct (RegisterPolicy_ok m (policy_name value) value Hsel) as [m2 Hm2].
  assert (indexed_maps pc1) as Hix1 by (by eapply set_policies_indexed; [apply unset_policies_indexed|exact Hm]).
  assert (indexed_maps (set_policies pc1 m2)) as Hix2 by (by eapply set_policies_indexed; [|exact Hm2]).
  assert (cache_view (set_policies pc1 m2) = s') as Hview2.
  { erewrite set_policies_view by (by apply RegisterPolicy_view). rewrite Hview1, Hview. unfold s'. cbn. by rewrite insert_insert_eq. }
  rewrite <- Hview. apply (calls_changed pc1 (set_policies pc1 m2) (cache_view pc) pp _ (WAddPolicy value)).
  - done.
  - done.
  - by rewrite Hview.
  - by rewrite Hview.
  - by rewrite Hview.
  - done.
  - apply UpdatePolicy_call; [done|by rewrite Hview|done..|]. rewrite Hview. split; [done|]. intros q Hq.
    rewrite !not_elem_of_cons in Hq. destruct Hq as (Hqp & Hqv & _). split.
    + intros [k Hkq]. exists k. cbn. assert (k ≠ policy_name prev) by congruence. rewrite Hname, lookup_insert_ne, lookup_delete_ne by done. done.
    + intros [k Hkq]. cbn in Hkq. apply lookup_insert_Some in Hkq as [[_ <-]|[_ [_ Hkq]%lookup_delete_Some]]; [done|by exists k].
  - intros pp'. apply AddPolicy_call; [done|by rewrite Hview2|done|done|]. rewrite Hview, Hview2. apply policy_diff_refl.
  - intros pp'. cbn [fst snd]. change (configuredPolicies pc1) with m. rewrite Hm2. done.
Qed.

Lemma pod_delete (ev : ChangeEvent AclCommitError) value diff prev : ev_pod ev = Ok value → ev_prevPod ev = Ok (diff, prev) →
  ev_type ev = ChangeDelete → ks_pods (cache_view pc) !! pod_name prev = Some prev →
  let s' := mkK8sState (ks_policies (cache_view pc)) (delete (pod_name prev) (ks_pods (cache_view pc))) (ks_namespaces (cache_view pc)) in
  simple_cluster s' → enforcing (cache_view pc) (4 * size (ks_pods s') + n) pp → changed s' n (pod_change (pc, [pp]) ev).
Proof.
  intros Hv Hp Ht Hk s' Hsc' He. unfold pod_change. rewrite Hv, Hp, Ht, bool_decide_true by done. cbv zeta. cbn [fst snd].
  fold (pod_name prev). set (pc' := set_pods pc _).
  assert (cache_view pc' = s') as Hview by (apply set_pods_view, UnregisterPod_view). rewrite <- Hview.
  assert (indexed_maps pc') as Hix' by by apply unset_pods_indexed.
  apply (call_changed pc' (cache_view pc)); [done|by rewrite Hview|eapply enforcing_weaken; [exact He|rewrite Hview; lia]|done|].
  apply DelPod_call; [done|by rewrite Hview| |done|].
  - rewrite Hview. split; [done|]. intros k Hne. cbn. by rewrite lookup_delete_ne.
  - rewrite Hview. cbn. apply lookup_delete_eq.
Qed.

Lemma pod_add (ev : ChangeEvent AclCommitError) value prev : ev_pod ev = Ok value → ev_prevPod ev = Ok (false, prev) →
  ev_type ev = ChangePut → ks_pods (cache_view pc) !! pod_name value = None → silent value →
  let s' := mkK8sState (ks_policies (cache_view pc)) (<[pod_name value := value]> (ks_pods (cache_view pc))) (ks_namespaces (cache_view pc)) in
  simple_cluster s' → enforcing (cache_view pc) (4 * size (ks_pods s') + n) pp → changed s' n (pod_change (pc, [pp]) ev).
Proof.
  intros Hv Hp Ht Hk Hsil s' Hsc' He. unfold pod_change. rewrite Hv, Hp, Ht, bool_decide_false by done. cbv zeta. cbn [fst snd].
  fold (pod_name value). set (pc' := set_pods pc _).
  assert (cache_view pc' = s') as Hview by (apply set_pods_view, RegisterPod_view). rewrite <- Hview.
  assert (indexed_maps pc') as Hix' by by apply set_pods_indexed.
  apply (call_changed pc' (cache_view pc)); [done|by rewrite Hview|eapply enforcing_weaken; [exact He|rewrite Hview; lia]|done|].
  apply AddPod_call; [by rewrite Hview| |done| |done].
  - rewrite Hview. split; [done|]. intros k Hne. cbn. by rewrite lookup_insert_ne.
  - rewrite Hview. cbn. apply lookup_insert_eq.
Qed.

Lemma pod_update (ev : ChangeEvent AclCommitError) value prev : ev_pod ev = Ok value → ev_prevPod ev = Ok (true, prev) →
  ev_type ev = ChangePut → ks_pods (cache_view pc) !! pod_name prev = Some prev → pod_name value = pod_name prev → (silent value → silent prev) →
  let s' := mkK8sState (ks_policies (cache_view pc)) (<[pod_name value := value]> (delete (pod_name prev) (ks_pods (cache_view pc))))
    (ks_namespaces (cache_view pc)) in
  simple_cluster s' → enforcing (cache_view pc) (4 * size (ks_pods s') + n) pp → changed s' n (pod_change (pc, [pp]) ev).
Proof.
  intros Hv Hp Ht Hk Hname Hsil s' Hsc' He. unfold pod_change. rewrite Hv, Hp, Ht, bool_decide_false by done. cbv zeta. cbn [fst snd].
  fold (pod_name value) (pod_name prev). set (pc1 := set_pods (set_pods pc _) _).
  assert (cache_view pc1 = s') as Hview.
  { unfold pc1. erewrite set_pods_view by apply RegisterPod_view. cbn. by rewrite UnregisterPod_view. }
  set (pc2 := set_pods pc1 (RegisterPod (configuredPods pc1) (pod_name value) value)).
  assert (cache_view pc2 = s') as Hview2.
  { unfold pc2. erewrite set_pods_view by apply RegisterPod_view. change (fst <$> nm_view (configuredPods pc1)) with (ks_pods (cache_view pc1)).
    rewrite Hview. cbn. by rewrite insert_insert_eq. }
  assert (indexed_maps pc1) as Hix1 by by apply set_pods_indexed, unset_pods_indexed.
  rewrite <- Hview. apply (calls_changed pc1 pc2 (cache_view pc) pp _ (WAddPod value)).
  - done.
  - by apply set_pods_indexed.
  - by rewrite Hview.
  - by rewrite Hview.
  - by rewrite Hview.
  - done.
  - apply UpdatePod_call; [done|by rewrite Hview|done| |by rewrite Hname| |done].
    + rewrite Hview. split; [done|]. intros k Hne. cbn. rewrite lookup_insert_ne, lookup_delete_ne by congruence. done.
    + rewrite Hview. cbn. apply lookup_insert_eq.
  - intros pp' n' He' Hr'. exists pp'. split; [apply AddPod_again|]. rewrite Hview2, <- Hview. split; [|done].
    eapply enforcing_weaken; [done|lia].
  - done.
Qed.

(** Namespaces do not matter to the policies of [simple_state]: their callbacks
    process no pods. *)
Lemma namespace_calls (pc' : Cache) s pp' ns old : indexed_maps pc' → simple_cluster (cache_view pc') →
  ks_policies (cache_view pc') = ks_policies s → ks_pods (cache_view pc') = ks_pods s →
  call_ok pc' s pp' (WAddNamespace ns) ∧ call_ok pc' s pp' (WDelNamespace ns) ∧ call_ok pc' s pp' (WUpdateNamespace old ns).
Proof.
  intros Hix' Hsc' Hpol Hpods. assert (policy_diff s (cache_view pc') []) as Hdiff.
  { split; [done|]. intros q _. unfold registered. by rewrite Hpol. }
  split_and!; (apply (policy_call pc' Hix' Hsc' s pp' _ [] []); [done|by apply Forall_nil|by intros p i Hp%elem_of_nil|done]).
Qed.

Lemma set_namespaces_view (pc' : Cache) m x : fst <$> nm_view m = x →
  cache_view (set_namespaces pc' m) = mkK8sState (ks_policies (cache_view pc')) (ks_pods (cache_view pc')) x.
Proof. by intros <-. Qed.

Lemma namespaces_changed (ev : ChangeEvent AclCommitError) value diff prev : ev_namespace ev = Ok value → ev_prevNamespace ev = Ok (diff, prev) →
  let s' := mkK8sState (ks_policies (cache_view pc)) (ks_pods (cache_view pc))
    (change_map Namespace_Name (ev_type ev) value prev diff (ks_namespaces (cache_view pc))) in
  simple_cluster s' → enforcing (cache_view pc) (4 * size (ks_pods s') + n) pp → changed s' n (namespace_change (pc, [pp]) ev).
Proof.
  intros Hv Hp s' Hsc' He. unfold namespace_change. rewrite Hv, Hp. cbv zeta. cbn [fst snd].
  assert (∀ pc' call, cache_view pc' = s' → indexed_maps pc' → call_ok pc' (cache_view pc) pp call →
    changed s' n (and_then (pc', [pp]) call return_nil)) as Hone.
  { intros pc' call Hview Hix' Hcall. rewrite <- Hview. apply (call_changed pc' (cache_view pc)); [done|by rewrite Hview| |done|done].
    eapply enforcing_weaken; [exact He|rewrite Hview; lia]. }
  destruct (ev_type ev) eqn:Ht; cycle 1.
  { rewrite bool_decide_true by done. set (pc' := set_namespaces pc _).
    assert (cache_view pc' = s') as Hview by (apply set_namespaces_view, UnRegisterNamespace_view).
    assert (indexed_maps pc') as Hix' by (by apply unset_namespaces_indexed). apply Hone; [done|done|].
    apply (namespace_calls pc' _ pp prev prev); [done|by rewrite Hview|by rewrite Hview..]. }
  rewrite bool_decide_false by done. destruct diff.
  - set (pc1 := set_namespaces (set_namespaces pc _) _).
    assert (cache_view pc1 = s') as Hview.
    { unfold pc1. erewrite set_namespaces_view by apply RegisterNamespace_view. cbn. by rewrite UnRegisterNamespace_view. }
    set (pc2 := set_namespaces pc1 (RegisterNamespace (configuredNamespaces pc1) (Namespace_Name value) value)).
    assert (cache_view pc2 = s') as Hview2.
    { unfold pc2. erewrite set_namespaces_view by apply RegisterNamespace_view.
      change (fst <$> nm_view (configuredNamespaces pc1)) with (ks_namespaces (cache_view pc1)). rewrite Hview. cbn. by rewrite insert_insert_eq. }
    assert (indexed_maps pc1) as Hix1 by (by apply set_namespaces_indexed, unset_namespaces_indexed).
    assert (indexed_maps pc2) as Hix2 by (by apply set_namespaces_indexed).
    rewrite <- Hview. apply (calls_changed pc1 pc2 (cache_view pc) pp _ (WAddNamespace value));
      [done|done|by rewrite Hview|by rewrite Hview|by rewrite Hview|done| | |done].
    + apply (namespace_calls pc1 _ pp value prev); [done|by rewrite Hview|by rewrite Hview..].
    + intros pp'. apply (namespace_calls pc2 _ pp' value prev); [done|by rewrite Hview2|by rewrite Hview, Hview2..].
  - set (pc' := set_namespaces pc _).
    assert (cache_view pc' = s') as Hview by (apply set_namespaces_view, RegisterNamespace_view).
    assert (indexed_maps pc') as Hix' by (by apply set_namespaces_indexed). apply Hone; [done|done|].
    apply (namespace_calls pc' _ pp value prev); [done|by rewrite Hview|by rewrite Hview..].
Qed.
End change.

(** ** The invariant along the events *)

(** One event: it is handled without panic, the cache follows it, and the ACLs
    follow the cache. *)
Lemma stack_step st (ev : ChangeEvent AclCommitError) n : ok_event (cache_view st.1) ev →
  stack_ok (4 * size (ks_pods (apply_change ev (cache_view st.1))) + n) st →
  ∃ st' err, cache_Update st ev = Some (st', err) ∧ cache_view st'.1 = apply_change ev (cache_view st.1) ∧ stack_ok n st'.
Proof.
  destruct st as [pc pps]. intros [Hsc' Hev] (pp & Hpp & Hix & Hsc & He & Hr). cbn [fst snd] in *. subst pps.
  assert (∀ e : AclCommitError, apply_change ev (cache_view pc) = cache_view pc →
    ∃ st' err, Some ((pc, [pp]), Some e) = Some (st', err) ∧ cache_view st'.1 = apply_change ev (cache_view pc) ∧ stack_ok n st') as Herr.
  { intros e Hsame. exists (pc, [pp]), (Some e). split; [done|]. split; [done|]. exists pp. split_and!; [done..| |done].
    eapply enforcing_weaken; [exact He|lia]. }
  assert (∀ r, changed (apply_change ev (cache_view pc)) n r →
    ∃ st' err, r = Some (st', err) ∧ cache_view st'.1 = apply_change ev (cache_view pc) ∧ stack_ok n st') as Hok.
  { intros r (st' & -> & Hview & Hst). by exists st', None. }
  unfold cache_Update, changePropagateEvent. unfold apply_change in *. destruct (HasPrefix (ev_key ev) NamespacePrefix); cbn [negb] in *; cycle 1.
  { exists (pc, [pp]), None. split; [done|]. split; [done|]. exists pp. split_and!; [done..| |done]. eapply enforcing_weaken; [exact He|lia]. }
  specialize (Hev eq_refl). destruct (ParsePolicyFromKey (ev_key ev)) as [k|]; [|destruct (ParsePodFromKey (ev_key ev)) as [k|]].
  - destruct (ev_policy ev) as [value|] eqn:Hv; [destruct (ev_prevPolicy ev) as [[diff prev]|] eqn:Hp|];
      [|unfold policy_change; rewrite Hv, ?Hp; by apply Herr..].
    specialize (Hev value diff prev eq_refl eq_refl). apply Hok. unfold ok_policy_change in Hev.
    destruct (ev_type ev) eqn:Ht; [destruct diff|].
    + destruct Hev as [Hk Hname]. by apply policy_update.
    + by eapply policy_add.
    + by eapply policy_delete.
  - destruct (ev_pod ev) as [value|] eqn:Hv; [destruct (ev_prevPod ev) as [[diff prev]|] eqn:Hp|];
      [|unfold pod_change; rewrite Hv, ?Hp; by apply Herr..].
    specialize (Hev value diff prev eq_refl eq_refl). apply Hok. unfold ok_pod_change in Hev.
    destruct (ev_type ev) eqn:Ht; [destruct diff|].
    + destruct Hev as (Hk & Hname & Hsil). by apply pod_update.
    + destruct Hev as [Hk Hsil]. by eapply pod_add.
    + by eapply pod_delete.
  - destruct (ev_namespace ev) as [value|] eqn:Hv; [destruct (ev_prevNamespace ev) as [[diff prev]|] eqn:Hp|];
      [|unfold namespace_change; rewrite Hv, ?Hp; by apply Herr..].
    apply Hok. by apply namespaces_changed.
Qed.
(** The events of a sequence, each in the state it meets. *)
Fixpoint ok_events (s : K8sState) (evs : list (ChangeEvent AclCommitError)) : Prop :=
  match evs with [] => True | ev :: evs => ok_event s ev ∧ ok_events (apply_change ev s) evs end.

(** The identifiers of rule lists the events may need: two commits for each, two
    lists for each pod in a commit. *)
Fixpoint budget (s : K8sState) (evs : list (ChangeEvent AclCommitError)) : nat :=
  match evs with
  | [] => 0
  | ev :: evs => 4 * size (ks_pods (apply_change ev s)) + budget (apply_change ev s) evs
  end.

Lemma stack_run st evs : ok_events (cache_view st.1) evs → stack_ok (budget (cache_view st.1) evs) st →
  ∃ st', cache_updates st evs = Some st' ∧ cache_view st'.1 = foldl (λ s ev, apply_change ev s) (cache_view st.1) evs ∧ stack_ok 0 st'.
Proof.
  revert st. induction evs as [|ev evs IH]; intros st; cbn [ok_events budget foldl]; [intros _ Hst; by exists st|].
  intros [Hev Hevs] Hst. destruct (stack_step st ev _ Hev Hst) as (st1 & err & Hup & Hview & Hst1).
  rewrite <- Hview in Hevs, Hst1 |- *. destruct (IH st1 Hevs Hst1) as (st' & Hrun & Hrest).
  exists st'. split; [|done]. unfold cache_updates in *. cbn [foldM]. rewrite Hup. done.
Qed.

(** The stack before the first event. *)
Definition stack_init (par : bool) (rands : list (list Z)) (agent : A) : Cache * list Processor :=
  cache_Watch (Cache_New, [])
    (Processor_Init (RegisterRenderer (Configurator_Init par) (Some (mkAclState ∅ AclRenderer_Init rands agent)))).

(** It is the one of the plugin. *)
Lemma plugin_Init_stack vppTCPRenderer rands agent :
  policyCache (plugin_Init (E := AclCommitError) (Some (mkAclState ∅ AclRenderer_Init rands agent)) vppTCPRenderer true)
    = stack_init false rands agent.
Proof. done. Qed.

Lemma Cache_New_view : cache_view (Cache_New : Cache) = mkK8sState ∅ ∅ ∅.
Proof. unfold cache_view, Cache_New. cbn. by rewrite !nm_new, !fmap_empty. Qed.

Lemma empty_cluster : simple_cluster (mkK8sState ∅ ∅ ∅).
Proof.
  constructor; [constructor; [split|..]|..]; intros k d; cbn; try (rewrite lookup_empty; discriminate).
  destruct d as [k' Hk']. cbn in Hk'. rewrite lookup_empty in Hk'. discriminate.
Qed.

Lemma stack_init_ok par rands agent n : agent_acls agent = ∅ → NoDup (Sprintf_X <$> rands) → n ≤ length rands →
  stack_ok n (stack_init par rands agent).
Proof.
  intros Hacls Hnd Hlen. eexists. split; [done|]. cbn [fst stack_init cache_Watch]. rewrite Cache_New_view.
  split; [apply Cache_New_indexed|]. split; [apply empty_cluster|]. split.
  - exists (mkAclState ∅ AclRenderer_Init rands agent). split_and!; [done| | |].
    + unfold synced. cbn [st_heap st_cache st_agent]. rewrite Hacls. apply init_consistent.
    + split_and!; [done| |done]. intros b _. apply not_elem_of_empty.
    + intros d i (Hd & _). cbn in Hd. by rewrite lookup_empty in Hd.
  - intros d Hd. cbn in Hd. by rewrite lookup_empty in Hd.
Qed.

(** C2. End to end. The policy stack as [Init] of the policy plugin builds it
    without the TCP stack (cache, processor, configurator, ACL cache and ACL
    renderer) starts with an empty VPP and handles any sequence of change events of
    policies, pods and namespaces that satisfies the assumptions. It never panics;
    afterwards the cache holds the state of Kubernetes, and for every pod of this
    node with an address and an interface (outside kube-system) the ACLs VPP has on
    that interface let the first packet of a TCP or UDP connection pass in a
    direction exactly if no policy of that state restricts the pod in the direction
    or a rule of such a policy allows the packet. This is what policy.proto
    documents, except for ingress traffic from the node of the pod, which it always
    allows and the code does not. Assumed: after every event the state is a
    [simple_state] (see [Process_correct]) with IPv4 pods and without policies in
    kube-system; an event carries the stored object as its previous value; a pod is
    added before it has an address and does not lose its address; [GetIfName] does
    not change and gives different pods different interfaces; the agent accepts all
    transactions; the random source does not repeat within the sequence. *)
Theorem policies_enforced par rands agent evs :
  agent_acls agent = ∅ → NoDup (Sprintf_X <$> rands) → budget (mkK8sState ∅ ∅ ∅) evs ≤ length rands →
  ok_events (mkK8sState ∅ ∅ ∅) evs →
  ∃ pc pp a, cache_updates (stack_init par rands agent) evs = Some (pc, [pp]) ∧
    let s := foldl (λ s ev, apply_change ev s) (mkK8sState ∅ ∅ ∅) evs in
    cache_view pc = s ∧ runs_acl pp a ∧
    ∀ d i, policed s d i → ∀ pkt, wf_packet pkt →
      (acl_permits (vpp_view (agent_acls (st_agent a)) i).1 pkt = true ↔ k8s_allows s MatchEgress d pkt) ∧
      (acl_permits (vpp_view (agent_acls (st_agent a)) i).2 pkt = true ↔ k8s_allows s MatchIngress d pkt) ∧
      (acl_permits (vpp_view (agent_acls (st_agent a)) i).1 pkt = true ↔ documented_allows s MatchEgress d pkt) ∧
      (¬ local_node_traffic MatchIngress (Pod_HostIpAddress d) pkt →
        (acl_permits (vpp_view (agent_acls (st_agent a)) i).2 pkt = true ↔ documented_allows s MatchIngress d pkt)).
Proof.
  intros Hacls Hnd Hlen Hevs. destruct (stack_run (stack_init par rands agent) evs)
    as ([pc pps] & Hrun & Hview & pp & Hpp & _ & _ & (a & Hr & _ & _ & He) & _).
  - cbn [fst stack_init cache_Watch]. by rewrite Cache_New_view.
  - cbn [fst stack_init cache_Watch]. rewrite Cache_New_view. by apply stack_init_ok.
  - cbn [fst snd stack_init cache_Watch] in *. subst pps. rewrite Cache_New_view in Hview. exists pc, pp, a. split; [done|].
    cbv zeta. rewrite <- Hview. split; [done|]. split; [done|]. intros d i Hd pkt Hpkt.
    destruct (He d i Hd pkt Hpkt) as [Hegress Hingress]. split; [done|]. split; [done|]. split.
    + by rewrite (documented_allows_other _ _ _ _ (no_local_egress _ _)).
    + intros Hlocal. by rewrite (documented_allows_other _ _ _ _ Hlocal).
Qed.
End stack.
