(* ===== verification/PolicyStackExamples.v ===== *)
(** * The policy stack on a concrete cluster

    The hypotheses of [policies_enforced] hold for a sequence of events with an
    agent that keeps ACLs by name and a VPP that does what it documents; the ACLs
    of the example are evaluated. The last part shows event sequences on which
    the ACLs do not follow the policies. *)

From Stdlib Require Import ZArith Lia Ascii String.
From stdpp Require Import prelude strings list gmap.
From S2P Require Import Prelude GoStrings GoErrors GoNet GoText KsrModel Utils Rules AclCache AclCacheProofs AclRenderer AclRendererProofs.
From S2P Require Import Configurator SubtractSubnet ConfiguratorRules RuleIds ConfiguratorProofs ConfiguratorCommit.
From S2P Require Import PolicyCache PolicyCacheEvents PolicyCacheProofs PolicyCacheSelect Processor ProcessorProofs ProcessorExamples.
From S2P Require Import AclSemantics AclPipeline PolicyStack.

#[local] Existing Instance canonical_order.
#[local] Existing Instance first_match.

(** The interfaces of the pods of the namespace default. *)
Definition tap_of (ns name : string) : option string :=
  if bool_decide (ns = "default"%string) then Some ("tap-" +:+ name)%string else None.

Lemma tap_of_inj ns name ns' name' i : tap_of ns name = Some i → tap_of ns' name' = Some i → ns = ns' ∧ name = name'.
Proof.
  unfold tap_of. do 2 (case_bool_decide; [|discriminate]). intros [= <-] [= Heq]. subst. by split.
Qed.

(** Pods before they have an address. *)
Definition web0 : Pod := mkPod "web" "default" [app_label "web"] "" "192.168.16.1" [].
Definition db0 : Pod := mkPod "db" "default" [app_label "db"] "" "192.168.16.1" [].

Abbreviation StackEvent := (ChangeEvent AclCommitError).

Definition policy_put (value : Policy) : StackEvent :=
  mkChangeEvent _ (policy_Key (Policy_Name value) (Policy_Namespace value)) ChangePut (Ok value) (Ok (false, no_policy))
    (Err SendFailed) (Err SendFailed) (Err SendFailed) (Err SendFailed).
Definition pod_put (value prev : Pod) (diff : bool) : StackEvent :=
  mkChangeEvent _ (pod_Key (Pod_Name value) (Pod_Namespace value)) ChangePut (Err SendFailed) (Err SendFailed)
    (Ok value) (Ok (diff, prev)) (Err SendFailed) (Err SendFailed).
Definition pod_del (prev : Pod) : StackEvent :=
  mkChangeEvent _ (pod_Key (Pod_Name prev) (Pod_Namespace prev)) ChangeDelete (Err SendFailed) (Err SendFailed)
    (Ok no_pod) (Ok (true, prev)) (Err SendFailed) (Err SendFailed).

(** The policy, two pods, their addresses, and the end of the peer. *)
Definition stack_events : list StackEvent :=
  [policy_put allow_db; pod_put web0 no_pod false; pod_put db0 no_pod false; pod_put web1 web0 true; pod_put db1 db0 true].
Definition random_bytes : list (list Z) := (λ n, [Z.of_nat n]) <$> seq 0 40.

Abbreviation MapProcessor := (PolicyProcessor (option (AclState (gmap string Acl)))).
#[local] Instance tap_renderer : PolicyRenderer (option (AclState (gmap string Acl))) AclCommitError := acl_renderer tap_of.
#[local] Instance tap_watcher : PolicyCacheWatcher MapProcessor AclCommitError MapCache := processor_watcher node_net id.

Definition example_stack (evs : list StackEvent) : option (MapCache * list MapProcessor) :=
  cache_updates (stack_init false random_bytes ∅) evs.

(** The ACLs in VPP at the end. *)
Definition final_acls (evs : list StackEvent) : gmap string Acl :=
  match example_stack evs with
  | Some (_, [pp]) => if renderers (pp_Configurator pp) is [Some a] then st_agent a else ∅
  | _ => ∅
  end.

(** Traffic to the web pod leaves VPP through its interface. *)
Definition to_web (evs : list StackEvent) (src : IP) (dport : Z) : bool :=
  acl_permits (vpp_view (final_acls evs) "tap-web").2 (packet_from src dport).

Example stack_evaluates :
  to_web stack_events [10; 1; 1; 3]%Z 80 = true ∧ to_web stack_events [10; 1; 1; 3]%Z 81 = false ∧
  to_web stack_events [10; 2; 0; 1]%Z 80 = true ∧ to_web stack_events [10; 1; 7; 7]%Z 80 = false ∧
  to_web (stack_events ++ [pod_del db1]) [10; 1; 1; 3]%Z 80 = false.
Proof. vm_compute. split_and!; reflexivity. Qed.

(** ** The hypotheses hold *)

(** States with parts of the example. *)
Definition example_pods : list Pod := [web0; web1; db0; db1].

Definition example_part (s : K8sState) : Prop :=
  (∀ k p, ks_policies s !! k = Some p → k = "default/allow-db"%string ∧ p = allow_db) ∧
  ∀ k d, ks_pods s !! k = Some d → k = pod_name d ∧ d ∈ example_pods.

Lemma example_pod_cases (P : Pod → Prop) : P web0 → P web1 → P db0 → P db1 → ∀ d, d ∈ example_pods → P d.
Proof. intros ???? d. unfold example_pods. rewrite !elem_of_cons, elem_of_nil. intros [->|[->|[->|[->|[]]]]]; done. Qed.

Lemma example_part_simple s : example_part s → simple_cluster s.
Proof.
  intros [Hpol Hpod]. constructor; [constructor|..].
  - split; [intros k d [-> Hd]%Hpod|intros k p [-> ->]%Hpol; done]. split; [done|]. revert d Hd.
    apply example_pod_cases; (split_and!; [reflexivity..|by apply Forall_singleton]).
  - intros k d [_ Hd]%Hpod. revert d Hd. by apply example_pod_cases.
  - intros k p [_ ->]%Hpol. apply allow_db_simple.
  - intros k p [_ ->]%Hpol. apply allow_db_rules.
  - intros k p [_ ->]%Hpol. done.
  - intros k p [_ ->]%Hpol. by apply (bool_decide_unpack _).
  - intros k p k' q [_ ->]%Hpol [_ ->]%Hpol. done.
  - intros k d [_ Hd]%Hpod. revert d Hd. apply example_pod_cases; [by left|right|by left|right].
    + exists 10%Z, 1%Z, 1%Z, 2%Z. split; [apply (bool_decide_unpack _); vm_compute; exact I|reflexivity].
    + exists 10%Z, 1%Z, 1%Z, 3%Z. split; [apply (bool_decide_unpack _); vm_compute; exact I|reflexivity].
  - intros p [k [_ ->]%Hpol]. done.
Qed.

Lemma example_part_empty : example_part (mkK8sState ∅ ∅ ∅).
Proof. split; intros k d; cbn; rewrite lookup_empty; discriminate. Qed.

Lemma example_policy_put s : example_part s → example_part (apply_change (policy_put allow_db) s).
Proof.
  intros [Hpol Hpod]. split; [|exact Hpod]. intros k p. change (ks_policies (apply_change (policy_put allow_db) s)) with
    (<[policy_name allow_db := allow_db]> (ks_policies s)). rewrite lookup_insert_Some. intros [[<- <-]|[_ Hk]]; [done|by apply Hpol].
Qed.

Lemma pod_put_pods value prev diff s : value ∈ example_pods →
  apply_change (pod_put value prev diff) s =
  mkK8sState (ks_policies s) (<[pod_name value := value]> (if diff then delete (pod_name prev) (ks_pods s) else ks_pods s)) (ks_namespaces s).
Proof. revert value. by apply example_pod_cases. Qed.

Lemma example_pod_put value prev diff s : value ∈ example_pods → example_part s → example_part (apply_change (pod_put value prev diff) s).
Proof.
  intros Hv [Hpol Hpod]. rewrite pod_put_pods by done. split; [exact Hpol|]. intros k d. cbn [ks_pods].
  rewrite lookup_insert_Some. intros [[<- <-]|[_ Hk]]; [done|]. destruct diff; [apply lookup_delete_Some in Hk as [_ Hk]|]; by apply Hpod.
Qed.

Lemma example_key_policy value : value ∈ example_pods → ParsePolicyFromKey (pod_Key (Pod_Name value) (Pod_Namespace value)) = None.
Proof. revert value. by apply example_pod_cases. Qed.

Lemma example_key_pod value : value ∈ example_pods → is_Some (ParsePodFromKey (pod_Key (Pod_Name value) (Pod_Namespace value))).
Proof. revert value. apply example_pod_cases; by eexists. Qed.

Lemma pod_put_ok value prev diff s : value ∈ example_pods → example_part s → ok_pod_change s ChangePut value prev diff →
  ok_event s (pod_put value prev diff).
Proof.
  intros Hv Hs Hok. split; [by apply example_part_simple, example_pod_put|]. intros _.
  change (ev_key (pod_put value prev diff)) with (pod_Key (Pod_Name value) (Pod_Namespace value)). rewrite (example_key_policy value Hv).
  destruct (example_key_pod value Hv) as [k Hk]. rewrite Hk.
  intros v d p [= <-] [= <- <-]. exact Hok.
Qed.

Lemma stack_events_ok : ok_events (mkK8sState ∅ ∅ ∅) stack_events.
Proof.
  assert (∀ x, x ∈ example_pods → x ∈ example_pods) as Hin by done. pose proof example_part_empty as H0.
  pose proof (example_policy_put _ H0) as H1.
  assert (web0 ∈ example_pods ∧ web1 ∈ example_pods ∧ db0 ∈ example_pods ∧ db1 ∈ example_pods) as (Hw0 & Hw1 & Hd0 & Hd1)
    by (unfold example_pods; rewrite !elem_of_cons; auto 10).
  pose proof (example_pod_put web0 no_pod false _ Hw0 H1) as H2. pose proof (example_pod_put db0 no_pod false _ Hd0 H2) as H3.
  pose proof (example_pod_put web1 web0 true _ Hw1 H3) as H4. cbn [ok_events stack_events].
  split; [|split_and!; [apply pod_put_ok; [done|done|]..|exact I]].
  - split; [by apply example_part_simple|]. intros _. change (ParsePolicyFromKey (ev_key (policy_put allow_db)))
      with (Some ("allow-db", "default")%string).
    intros v d p [= <-] [= <- <-]. cbn. apply lookup_empty.
  - split; [apply lookup_empty|by left].
  - split; [reflexivity|by left].
  - split; [reflexivity|]. split; [reflexivity|]. by left.
  - split; [reflexivity|]. split; [reflexivity|]. by left.
Qed.

Definition final_state (evs : list StackEvent) : K8sState := foldl (λ s ev, apply_change ev s) (mkK8sState ∅ ∅ ∅) evs.

Lemma map_agent_accepts : accepts (gmap string Acl).
Proof. done. Qed.

Lemma web_policed : policed tap_of node_net (final_state stack_events) web1 "tap-web".
Proof. split_and!; [vm_compute; reflexivity|discriminate|vm_compute; reflexivity|vm_compute; eauto|vm_compute; reflexivity]. Qed.

Lemma random_bytes_distinct : NoDup (Sprintf_X <$> random_bytes).
Proof. apply (bool_decide_unpack _). vm_compute. exact I. Qed.

Lemma stack_budget : budget (mkK8sState ∅ ∅ ∅) stack_events ≤ length random_bytes.
Proof. apply Nat.leb_le. vm_compute. reflexivity. Qed.

Lemma policies_enforced_witness :
  ∃ pc pp a, example_stack stack_events = Some (pc, [pp]) ∧ cache_view pc = final_state stack_events ∧ runs_acl pp a ∧
    ∀ pkt, wf_packet pkt →
      (acl_permits (vpp_view (st_agent a) "tap-web").1 pkt = true ↔ k8s_allows (final_state stack_events) MatchEgress web1 pkt) ∧
      (acl_permits (vpp_view (st_agent a) "tap-web").2 pkt = true ↔ k8s_allows (final_state stack_events) MatchIngress web1 pkt) ∧
      (acl_permits (vpp_view (st_agent a) "tap-web").1 pkt = true ↔ documented_allows (final_state stack_events) MatchEgress web1 pkt) ∧
      (¬ local_node_traffic MatchIngress (Pod_HostIpAddress web1) pkt →
        (acl_permits (vpp_view (st_agent a) "tap-web").2 pkt = true ↔ documented_allows (final_state stack_events) MatchIngress web1 pkt)).
Proof.
  destruct (@policies_enforced canonical_order _ _ _ _ _ _ _ _ _ _ _ map_agent_laws first_match first_match_laws tap_of tap_of_inj id
    (λ l, reflexivity l) map_agent_accepts node_net false random_bytes ∅ stack_events eq_refl random_bytes_distinct stack_budget stack_events_ok)
    as (pc & pp & a & Hrun & Hview & Hr & He).
  exists pc, pp, a. split; [exact Hrun|]. split; [exact Hview|]. split; [exact Hr|]. exact (He web1 "tap-web"%string web_policed).
Defined.

(** ** Where the ACLs do not follow the policies *)

(** The state forbids the traffic: the pod is selected by the policy and the
    address is in the exception of its block. *)
Definition outsider : IP := [10; 1; 7; 7]%Z.

(** A pod that is first seen with its address is never processed: its traffic is
    not restricted, although the policy selects it. *)
Example added_with_address_unrestricted :
  to_web stack_events outsider 80 = false ∧ to_web [policy_put allow_db; pod_put web1 no_pod false] outsider 80 = true ∧
  to_web [pod_put web1 no_pod false; policy_put allow_db] outsider 80 = false.
Proof. vm_compute. split_and!; reflexivity. Qed.

(** A peer that loses its address: the event is ignored, the old address stays
    permitted. *)
Example lost_address_stays_permitted :
  to_web (stack_events ++ [pod_put db0 db1 true]) [10; 1; 1; 3]%Z 80 = true ∧
  ks_pods (final_state (stack_events ++ [pod_put db0 db1 true])) !! "default/db"%string = Some db0.
Proof. vm_compute. split; reflexivity. Qed.

(** Traffic from the node of the pod is allowed according to policy.proto; the
    ACLs deny it like any other. *)
Example local_node_denied :
  documented_allows (final_state stack_events) MatchIngress web1 (packet_from [192; 168; 16; 1]%Z 80) ∧
  to_web stack_events [192; 168; 16; 1]%Z 80 = false.
Proof.
  split; [|vm_compute; reflexivity]. right. split; [reflexivity|].
  eexists. split; vm_compute; reflexivity.
Qed.
