(* ===== verification/Reflectors.v ===== *)
(** * The reflectors of KSR

    plugins/ksr/{pod,policy,namespace}_reflector.go: the objects of Kubernetes are
    converted to the messages of the data model and published in the data store.

    The objects are those of the Kubernetes API, with the fields that the code
    reads; protocols, operators and policy types are strings there. The data
    store is the class [KeyProtoValWriter]. A loop over labels visits a map: the
    order is that of [RangeOracle], with a site of its own for every call. *)

From Stdlib Require Import ZArith Lia Ascii String.
From stdpp Require Import prelude strings list gmap.
From S2P Require Import Prelude GoStrings GoErrors GoNet KsrModel Utils PolicyCache PolicyCacheEvents PolicyCacheProofs PolicyCacheSelect.

(** ** Objects of the Kubernetes API *)

Record ObjectMeta := mkObjectMeta { om_Name : string; om_Namespace : string; om_Labels : gmap string string }.

Record ApiContainerPort := mkApiContainerPort {
  acp_Name : string; acp_HostPort : Z; acp_ContainerPort : Z; acp_Protocol : string; acp_HostIP : string
}.
Record ApiContainer := mkApiContainer { ac_Name : string; ac_Ports : list ApiContainerPort }.
Record ApiPod := mkApiPod { apod_Meta : ObjectMeta; apod_PodIP : string; apod_HostIP : string; apod_Containers : list ApiContainer }.

Record ApiNamespace := mkApiNamespace { ans_Meta : ObjectMeta }.

Record ApiRequirement := mkApiRequirement { ar_Key : string; ar_Operator : string; ar_Values : list string }.
Record ApiSelector := mkApiSelector { asel_MatchLabels : gmap string string; asel_MatchExpressions : list ApiRequirement }.

(** [intstr.IntOrString]: the type is an integer. *)
Record IntOrString := mkIntOrString { ios_Type : Z; ios_IntVal : Z; ios_StrVal : string }.
Definition intstr_Int : Z := 0.
Definition intstr_String : Z := 1.

Record ApiPort := mkApiPort { aport_Protocol : option string; aport_Port : option IntOrString }.
Record ApiIPBlock := mkApiIPBlock { aib_CIDR : string; aib_Except : list string }.
Record ApiPeer := mkApiPeer { apeer_PodSelector : option ApiSelector; apeer_NamespaceSelector : option ApiSelector;
  apeer_IPBlock : option ApiIPBlock }.
Record ApiRule := mkApiRule { arule_Ports : list ApiPort; arule_Peers : list ApiPeer }.
Record ApiPolicy := mkApiPolicy {
  apol_Meta : ObjectMeta;
  apol_PodSelector : ApiSelector;
  apol_PolicyTypes : list string;
  apol_Ingress : list ApiRule;
  apol_Egress : list ApiRule
}.

(** ** Conversion *)

Section convert.
Context `{RangeOracle}.

Definition labels_to_proto (site : list Z) (labels : gmap string string) : list Label :=
  (λ '(key, val), mkLabel key val) <$> go_range site labels.

Definition protocol_to_proto (p : string) : Proto := if bool_decide (p = "UDP"%string) then ProtoUDP else ProtoTCP.

Definition containerToProto (container : ApiContainer) : Container :=
  mkContainer (ac_Name container)
    ((λ port, mkContainerPort (acp_Name port) (acp_HostPort port) (acp_ContainerPort port) (protocol_to_proto (acp_Protocol port)) (acp_HostIP port))
       <$> ac_Ports container).

Definition podToProto (pod : ApiPod) : Pod :=
  mkPod (om_Name (apod_Meta pod)) (om_Namespace (apod_Meta pod)) (labels_to_proto [81]%Z (om_Labels (apod_Meta pod)))
    (apod_PodIP pod) (apod_HostIP pod) (containerToProto <$> apod_Containers pod).

Definition namespaceToProto (ns : ApiNamespace) : Namespace :=
  mkNamespace (om_Name (ans_Meta ns)) (labels_to_proto [82]%Z (om_Labels (ans_Meta ns))).

(** An unknown operator leaves the zero value of the enum. *)
Definition operator_to_proto (op : string) : Operator :=
  if bool_decide (op = "In"%string) then OpIn
  else if bool_decide (op = "NotIn"%string) then OpNotIn
  else if bool_decide (op = "Exists"%string) then OpExists
  else if bool_decide (op = "DoesNotExist"%string) then OpDoesNotExist
  else OpIn.

Definition labelSelectorToProto (site : list Z) (selector : ApiSelector) : LabelSelector :=
  mkLabelSelector (labels_to_proto site (asel_MatchLabels selector))
    ((λ e, mkLabelExpression (ar_Key e) (operator_to_proto (ar_Operator e)) (ar_Values e)) <$> asel_MatchExpressions selector).

Definition portToProto (port : ApiPort) : PolicyPort :=
  mkPolicyPort
    match aport_Protocol port with Some p => protocol_to_proto p | None => ProtoTCP end
    ((λ p : IntOrString,
        if (ios_Type p =? intstr_Int)%Z then mkPortNameOrNumber PortNumber (ios_IntVal p) ""
        else if (ios_Type p =? intstr_String)%Z then mkPortNameOrNumber PortName 0 (ios_StrVal p)
        else mkPortNameOrNumber PortNumber 0 "") <$> aport_Port port).

Definition portsToProto (ports : list ApiPort) : list PolicyPort := portToProto <$> ports.

Definition peerToProto (site : list Z) (peer : ApiPeer) : Peer :=
  match apeer_PodSelector peer, apeer_NamespaceSelector peer, apeer_IPBlock peer with
  | Some sel, _, _ => mkPeer (Some (labelSelectorToProto site sel)) None None
  | None, Some sel, _ => mkPeer None (Some (labelSelectorToProto site sel)) None
  | None, None, Some block => mkPeer None None (Some (mkPeerIPBlock (aib_CIDR block) (aib_Except block)))
  | None, None, None => mkPeer None None None
  end.

Definition peersToProto (site : list Z) (peers : list ApiPeer) : list Peer :=
  imap (λ j peer, peerToProto (Z.of_nat j :: site) peer) peers.

Definition ruleToProto (site : list Z) (rule : ApiRule) : PolicyRule :=
  mkPolicyRule (portsToProto (arule_Ports rule)) (peersToProto site (arule_Peers rule)).

Definition policyTypeToProto (types : list string) : PolicyType :=
  let ingress := length (filter (λ t, t = "Ingress"%string) types) in
  let egress := length (filter (λ t, t = "Egress"%string) types) in
  if (0 <? ingress) && (0 <? egress) then PolicyIngressAndEgress
  else if 0 <? ingress then PolicyIngress
  else if 0 <? egress then PolicyEgress
  else PolicyDefault.

Definition policyToProto (policy : ApiPolicy) : Policy :=
  mkPolicy (om_Name (apol_Meta policy)) (om_Namespace (apol_Meta policy)) (labels_to_proto [83]%Z (om_Labels (apol_Meta policy)))
    (Some (labelSelectorToProto [84]%Z (apol_PodSelector policy)))
    (policyTypeToProto (apol_PolicyTypes policy))
    (imap (λ i rule, ruleToProto [Z.of_nat i; 85]%Z rule) (apol_Ingress policy))
    (imap (λ i rule, ruleToProto [Z.of_nat i; 86]%Z rule) (apol_Egress policy)).

(** ** Publication *)

Inductive Message := MsgPod (p : Pod) | MsgPolicy (p : Policy) | MsgNamespace (n : Namespace).

(** keyval_writer.go *)
Class KeyProtoValWriter (S E : Type) := {
  Publish_Put : S → string → Message → S * option E;
  Publish_Delete : S → string → S * result E bool
}.

Context {S E : Type} `{!KeyProtoValWriter S E}.

(** The error is logged. *)
Definition publish (s : S) (key : string) (m : Message) : S * option E := Publish_Put s key m.
Definition unpublish (s : S) (key : string) : S * option E :=
  let '(s, r) := Publish_Delete s key in (s, match r with Ok _ => None | Err e => Some e end).

Definition addPod (s : S) (pod : ApiPod) : S * option E :=
  publish s (pod_Key (om_Name (apod_Meta pod)) (om_Namespace (apod_Meta pod))) (MsgPod (podToProto pod)).
Definition deletePod (s : S) (pod : ApiPod) : S * option E :=
  unpublish s (pod_Key (om_Name (apod_Meta pod)) (om_Namespace (apod_Meta pod))).
Definition updatePod (s : S) (podNew podOld : ApiPod) : S * option E :=
  publish s (pod_Key (om_Name (apod_Meta podNew)) (om_Namespace (apod_Meta podNew))) (MsgPod (podToProto podNew)).

Definition addPolicy (s : S) (policy : ApiPolicy) : S * option E :=
  publish s (policy_Key (om_Name (apol_Meta policy)) (om_Namespace (apol_Meta policy))) (MsgPolicy (policyToProto policy)).
Definition deletePolicy (s : S) (policy : ApiPolicy) : S * option E :=
  unpublish s (policy_Key (om_Name (apol_Meta policy)) (om_Namespace (apol_Meta policy))).
Definition updatePolicy (s : S) (policyNew policyOld : ApiPolicy) : S * option E :=
  publish s (policy_Key (om_Name (apol_Meta policyNew)) (om_Namespace (apol_Meta policyNew))) (MsgPolicy (policyToProto policyNew)).

Definition addNamespace (s : S) (ns : ApiNamespace) : S * option E :=
  publish s (namespace_Key (om_Name (ans_Meta ns))) (MsgNamespace (namespaceToProto ns)).
Definition deleteNamespace (s : S) (ns : ApiNamespace) : S * option E := unpublish s (namespace_Key (om_Name (ans_Meta ns))).
Definition updateNamespace (s : S) (nsNew nsOld : ApiNamespace) : S * option E :=
  publish s (namespace_Key (om_Name (ans_Meta nsNew))) (MsgNamespace (namespaceToProto nsNew)).

(** ** Informers *)

(** An informer of client-go calls the handlers with the objects of its resource;
    for a removal it has not seen itself, with the key of the object only. *)
Inductive Informer := PodInformer | PolicyInformer | NamespaceInformer.
Inductive ApiObject :=
  | ObjPod (p : ApiPod)
  | ObjPolicy (p : ApiPolicy)
  | ObjNamespace (n : ApiNamespace)
  | ObjDeletedFinalStateUnknown (i : Informer) (key : string).
Inductive ApiEvent := ApiAdd (o : ApiObject) | ApiDelete (o : ApiObject) | ApiUpdate (old new : ApiObject).

Record ResourceEventHandlerFuncs := mkResourceEventHandlerFuncs {
  AddFunc : S → ApiObject → S * option E;
  DeleteFunc : S → ApiObject → S * option E;
  UpdateFunc : S → ApiObject → ApiObject → S * option E
}.

(** The handlers [Init] of each reflector registers; an object of another type is
    only logged. *)
Definition PodReflector_Init : ResourceEventHandlerFuncs := {|
  AddFunc s obj := match obj with ObjPod pod => addPod s pod | _ => (s, None) end;
  DeleteFunc s obj := match obj with ObjPod pod => deletePod s pod | _ => (s, None) end;
  UpdateFunc s oldObj newObj := match oldObj, newObj with ObjPod podOld, ObjPod podNew => updatePod s podNew podOld | _, _ => (s, None) end
|}.

Definition PolicyReflector_Init : ResourceEventHandlerFuncs := {|
  AddFunc s obj := match obj with ObjPolicy policy => addPolicy s policy | _ => (s, None) end;
  DeleteFunc s obj := match obj with ObjPolicy policy => deletePolicy s policy | _ => (s, None) end;
  UpdateFunc s oldObj newObj :=
    match oldObj, newObj with ObjPolicy policyOld, ObjPolicy policyNew => updatePolicy s policyNew policyOld | _, _ => (s, None) end
|}.

Definition NamespaceReflector_Init : ResourceEventHandlerFuncs := {|
  AddFunc s obj := match obj with ObjNamespace ns => addNamespace s ns | _ => (s, None) end;
  DeleteFunc s obj := match obj with ObjNamespace ns => deleteNamespace s ns | _ => (s, None) end;
  UpdateFunc s oldObj newObj := match oldObj, newObj with ObjNamespace nsOld, ObjNamespace nsNew => updateNamespace s nsNew nsOld | _,
    _ => (s, None) end
|}.

Definition handlers (i : Informer) : ResourceEventHandlerFuncs :=
  match i with PodInformer => PodReflector_Init | PolicyInformer => PolicyReflector_Init | NamespaceInformer => NamespaceReflector_Init end.

Definition informer_of (o : ApiObject) : Informer :=
  match o with
  | ObjPod _ => PodInformer
  | ObjPolicy _ => PolicyInformer
  | ObjNamespace _ => NamespaceInformer
  | ObjDeletedFinalStateUnknown i _ => i
  end.

(** An event, handled by the reflector that gets it. *)
Definition reflect (s : S) (ev : ApiEvent) : S * option E :=
  match ev with
  | ApiAdd o => AddFunc (handlers (informer_of o)) s o
  | ApiDelete o => DeleteFunc (handlers (informer_of o)) s o
  | ApiUpdate old new => UpdateFunc (handlers (informer_of new)) s old new
  end.
End convert.
