(* ===== verification/ReflectorsProofs.v ===== *)
(** * Correctness of the reflectors

    The conversion keeps what policies mean: label selectors and affected
    directions are read off the converted messages as the Kubernetes API defines
    them. Reflectors, data store and policy cache together: the cache holds the
    converted form of exactly the objects that exist in Kubernetes. *)

From Stdlib Require Import ZArith Lia Ascii String.
From stdpp Require Import prelude strings list gmap.
From S2P Require Import Prelude GoStrings GoErrors GoNet GoText KsrModel Utils Rules Configurator PolicyCache PolicyCacheEvents.
From S2P Require Import PolicyCacheProofs PolicyCacheSelect ProcessorProofs Reflectors.

(** ** Conversion *)

Section convert.
Context `{RangeOracle}.

Lemma elem_of_labels site labels l : l ∈ labels_to_proto site labels ↔ labels !! Label_Key l = Some (Label_Value l).
Proof.
  unfold labels_to_proto. rewrite list_elem_of_fmap. split.
  - intros ([k v] & -> & Hin%go_range_lookup). done.
  - intros Hl. exists (Label_Key l, Label_Value l). split; [by destruct l|]. by apply go_range_lookup.
Qed.

Lemma labels_included site site' m m' :
  (∀ l, l ∈ labels_to_proto site m → l ∈ labels_to_proto site' m') ↔ m ⊆ m'.
Proof.
  rewrite map_subseteq_spec. split.
  - intros Hl k v Hk. specialize (Hl (mkLabel k v)). rewrite !elem_of_labels in Hl. by apply Hl.
  - intros Hs l. rewrite !elem_of_labels. apply Hs.
Qed.

Lemma selects_proto policy pod :
  selects (policyToProto policy) (podToProto pod) ↔
  om_Namespace (apod_Meta pod) = om_Namespace (apol_Meta policy) ∧
  asel_MatchLabels (apol_PodSelector policy) ⊆ om_Labels (apod_Meta pod).
Proof.
  unfold selects, has_labels. cbn [policyToProto Policy_Pods Policy_Namespace podToProto Pod_Namespace Pod_Label]. split.
  - intros (sel & [= <-] & Hns & Hl). split; [done|]. exact (proj1 (labels_included [84]%Z [81]%Z _ _) Hl).
  - intros [Hns Hl]. eexists. split; [done|]. split; [done|]. exact (proj2 (labels_included [84]%Z [81]%Z _ _) Hl).
Qed.

Lemma type_count (t : string) types : (0 <? length (filter (λ x, x = t) types)) = bool_decide (t ∈ types).
Proof.
  case_bool_decide as Hin.
  - apply Nat.ltb_lt. assert (t ∈ filter (λ x, x = t) types) as Hf by (by apply list_elem_of_filter).
    destruct (filter _ types); [by apply elem_of_nil in Hf|simpl; lia].
  - apply Nat.ltb_ge. destruct (filter (λ x, x = t) types) as [|x l] eqn:Hf; [done|]. exfalso. apply Hin.
    assert (x ∈ filter (λ x, x = t) types) as Hx by (rewrite Hf; by left). by apply list_elem_of_filter in Hx as [-> ?].
Qed.

Lemma affects_proto direction policy :
  affects direction (policyToProto policy) ↔
  match direction with
  | MatchIngress => "Ingress"%string ∈ apol_PolicyTypes policy ∨ ("Egress"%string ∉ apol_PolicyTypes policy)
  | MatchEgress => "Egress"%string ∈ apol_PolicyTypes policy ∨ (("Ingress"%string ∉ apol_PolicyTypes policy) ∧ apol_Egress policy ≠ [])
  end.
Proof.
  unfold affects. cbn [policyToProto Policy_Type Policy_EgressRule]. unfold policyTypeToProto. rewrite !type_count.
  assert (imap (λ i rule, ruleToProto [Z.of_nat i; 86%Z] rule) (apol_Egress policy) ≠ [] ↔ apol_Egress policy ≠ []) as Hne.
  { destruct (apol_Egress policy); simpl; split; done. }
  destruct direction; (destruct (decide ("Ingress"%string ∈ apol_PolicyTypes policy)) as [Hi|Hi];
    [rewrite (bool_decide_true _ Hi)|rewrite (bool_decide_false _ Hi)]); (destruct (decide ("Egress"%string ∈ apol_PolicyTypes policy)) as [He|He];
    [rewrite (bool_decide_true _ He)|rewrite (bool_decide_false _ He)]); cbn [andb]; try (by rewrite Hne; tauto);
    (split; [intros; tauto || done|]); tauto || done || intuition.
Qed.

(** C26. The conversion of policies and pods keeps what policies mean: the
    converted policy selects the converted pod iff they are in the same namespace
    and the match labels of the selector are labels of the pod (the match
    expressions are not part of this); it affects ingress iff
    the policy lists ingress or does not list egress, and egress iff the policy
    lists it, or lists neither and has an egress section; a peer has at most one of pod
    selector, namespace selector and IP block. *)
Theorem conversion_keeps_meaning policy pod :
  (selects (policyToProto policy) (podToProto pod) ↔
     om_Namespace (apod_Meta pod) = om_Namespace (apol_Meta policy) ∧
     asel_MatchLabels (apol_PodSelector policy) ⊆ om_Labels (apod_Meta pod)) ∧
  (affects MatchIngress (policyToProto policy) ↔
     "Ingress"%string ∈ apol_PolicyTypes policy ∨ ("Egress"%string ∉ apol_PolicyTypes policy)) ∧
  (affects MatchEgress (policyToProto policy) ↔
     "Egress"%string ∈ apol_PolicyTypes policy ∨ (("Ingress"%string ∉ apol_PolicyTypes policy) ∧ apol_Egress policy ≠ [])) ∧
  ∀ peer, peer ∈ policy_peers (policyToProto policy) →
    (is_Some (Peer_Pods peer) → Peer_Namespaces peer = None ∧ Peer_IpBlock peer = None) ∧ (is_Some (Peer_Namespaces peer) → Peer_IpBlock peer = None).
Proof.
  split; [apply selects_proto|]. split; [apply (affects_proto MatchIngress)|]. split; [apply (affects_proto MatchEgress)|].
  assert (∀ site rules peer, peer ∈ imap (λ i rule, ruleToProto (Z.of_nat i :: site) rule) rules ≫= PR_Peers →
    ∃ s p, peer = peerToProto s p) as Hrule.
  { intros site rules peer (rule & Hp & Hr)%list_elem_of_bind. apply elem_of_lookup_imap in Hr as (i & r & -> & _).
    cbn [ruleToProto PR_Peers] in Hp. apply elem_of_lookup_imap in Hp as (j & p & -> & _). eauto. }
  intros peer Hin. assert (∃ s p, peer = peerToProto s p) as (s & p & ->).
  { unfold policy_peers in Hin. apply elem_of_app in Hin as [Hin|Hin]; by apply Hrule in Hin. }
  unfold peerToProto. destruct (apeer_PodSelector p), (apeer_NamespaceSelector p), (apeer_IPBlock p); cbn; split; try done; by intros [? [=]].
Qed.
End convert.

(** ** From Kubernetes to the policy cache *)

(** The data store as documented: a map that the operations change unless they
    report an error. *)
Class KeyProtoValWriterLaws (S E : Type) `{!KeyProtoValWriter S E} := {
  kv_view : S → gmap string Message;
  kv_put s key m s' : Publish_Put s key m = (s', None) → kv_view s' = <[key := m]> (kv_view s);
  kv_delete s key s' b : Publish_Delete s key = (s', Ok b) → kv_view s' = delete key (kv_view s)
}.

(** The change a reflector makes: a key and the new message, if any. *)
Definition effect `{RangeOracle} (ev : ApiEvent) : option (string * option Message) :=
  let put o := match o with
    | ObjPod p => Some (pod_Key (om_Name (apod_Meta p)) (om_Namespace (apod_Meta p)), MsgPod (podToProto p))
    | ObjPolicy p => Some (policy_Key (om_Name (apol_Meta p)) (om_Namespace (apol_Meta p)), MsgPolicy (policyToProto p))
    | ObjNamespace n => Some (namespace_Key (om_Name (ans_Meta n)), MsgNamespace (namespaceToProto n))
    | ObjDeletedFinalStateUnknown _ _ => None
    end in
  match ev with
  | ApiAdd o => '(key, m) ← put o; Some (key, Some m)
  | ApiDelete o => '(key, m) ← put o; Some (key, None)
  | ApiUpdate old new =>
    match old, new with
    | ObjPod _, ObjPod _ | ObjPolicy _, ObjPolicy _ | ObjNamespace _, ObjNamespace _ => '(key, m) ← put new; Some (key, Some m)
    | _, _ => None
    end
  end.

(** How a message is decoded: as what it was encoded, or with the error [bad]. *)
Definition as_pod {E} (bad : E) (m : Message) : result E Pod := match m with MsgPod p => Ok p | _ => Err bad end.
Definition as_policy {E} (bad : E) (m : Message) : result E Policy := match m with MsgPolicy p => Ok p | _ => Err bad end.
Definition as_namespace {E} (bad : E) (m : Message) : result E Namespace := match m with MsgNamespace n => Ok n | _ => Err bad end.

(** The value of a deletion is empty; the previous value is the old message, if
    there was one. *)
Definition decode_new {E A} (zero : A) (as_A : Message → result E A) (new : option Message) : result E A :=
  match new with Some m => as_A m | None => Ok zero end.
Definition decode_old {E A} (zero : A) (as_A : Message → result E A) (old : option Message) : result E (bool * A) :=
  match old with Some m => match as_A m with Ok a => Ok (true, a) | Err e => Err e end | None => Ok (false, zero) end.

(** The event that a watcher of the store gets for a change of a key. *)
Definition watch_event {E} (bad : E) (key : string) (old new : option Message) : ChangeEvent E :=
  mkChangeEvent E key (if new is Some _ then ChangePut else ChangeDelete)
    (decode_new no_policy (as_policy bad) new) (decode_old no_policy (as_policy bad) old)
    (decode_new no_pod (as_pod bad) new) (decode_old no_pod (as_pod bad) old)
    (decode_new no_namespace (as_namespace bad) new) (decode_old no_namespace (as_namespace bad) old).

(** ** The state of Kubernetes *)

Record ApiState := mkApiState {
  api_policies : gmap string ApiPolicy;
  api_pods : gmap string ApiPod;
  api_namespaces : gmap string ApiNamespace
}.

Definition meta_name (m : ObjectMeta) : string := (om_Namespace m +:+ "/" +:+ om_Name m)%string.

Definition api_put (o : ApiObject) (s : ApiState) : ApiState :=
  match o with
  | ObjPolicy p => mkApiState (<[meta_name (apol_Meta p) := p]> (api_policies s)) (api_pods s) (api_namespaces s)
  | ObjPod p => mkApiState (api_policies s) (<[meta_name (apod_Meta p) := p]> (api_pods s)) (api_namespaces s)
  | ObjNamespace n => mkApiState (api_policies s) (api_pods s) (<[om_Name (ans_Meta n) := n]> (api_namespaces s))
  | ObjDeletedFinalStateUnknown _ _ => s
  end.

Definition api_del (o : ApiObject) (s : ApiState) : ApiState :=
  match o with
  | ObjPolicy p => mkApiState (delete (meta_name (apol_Meta p)) (api_policies s)) (api_pods s) (api_namespaces s)
  | ObjPod p => mkApiState (api_policies s) (delete (meta_name (apod_Meta p)) (api_pods s)) (api_namespaces s)
  | ObjNamespace n => mkApiState (api_policies s) (api_pods s) (delete (om_Name (ans_Meta n)) (api_namespaces s))
  | ObjDeletedFinalStateUnknown PodInformer key => mkApiState (api_policies s) (delete key (api_pods s)) (api_namespaces s)
  | ObjDeletedFinalStateUnknown PolicyInformer key => mkApiState (delete key (api_policies s)) (api_pods s) (api_namespaces s)
  | ObjDeletedFinalStateUnknown NamespaceInformer key => mkApiState (api_policies s) (api_pods s) (delete key (api_namespaces s))
  end.

Definition api_apply (s : ApiState) (ev : ApiEvent) : ApiState :=
  match ev with ApiAdd o => api_put o s | ApiDelete o => api_del o s | ApiUpdate _ new => api_put new s end.

(** Names have no slash; an update is of one object and a deletion of an object
    that exists, whose state the informer knows. *)
Definition good_object (o : ApiObject) : Prop :=
  let good meta := no_slash (om_Name meta) ∧ no_slash (om_Namespace meta) in
  match o with
  | ObjPod p => good (apod_Meta p)
  | ObjPolicy p => good (apol_Meta p)
  | ObjNamespace n => good (ans_Meta n)
  | ObjDeletedFinalStateUnknown _ _ => False
  end.
Definition same_kind (o o' : ApiObject) : Prop :=
  match o, o' with ObjPod _, ObjPod _ | ObjPolicy _, ObjPolicy _ | ObjNamespace _, ObjNamespace _ => True | _, _ => False end.
Definition exists_in (s : ApiState) (o : ApiObject) : Prop :=
  match o with
  | ObjPod p => is_Some (api_pods s !! meta_name (apod_Meta p))
  | ObjPolicy p => is_Some (api_policies s !! meta_name (apol_Meta p))
  | ObjNamespace n => is_Some (api_namespaces s !! om_Name (ans_Meta n))
  | ObjDeletedFinalStateUnknown _ _ => False
  end.
Definition good_api_event (s : ApiState) (ev : ApiEvent) : Prop :=
  match ev with
  | ApiAdd o => good_object o
  | ApiDelete o => good_object o ∧ exists_in s o
  | ApiUpdate old new => good_object new ∧ same_kind old new
  end.
Fixpoint good_api_events (s : ApiState) (evs : list ApiEvent) : Prop :=
  match evs with [] => True | ev :: evs => good_api_event s ev ∧ good_api_events (api_apply s ev) evs end.

(** The converted state. *)
Definition proto_state `{RangeOracle} (s : ApiState) : K8sState :=
  mkK8sState (policyToProto <$> api_policies s) (podToProto <$> api_pods s) (namespaceToProto <$> api_namespaces s).

(** ** Keys *)

Lemma pod_Key_parses p n : no_slash p → no_slash n →
  ParsePodFromKey (pod_Key p n) = Some (p, n) ∧ ParsePolicyFromKey (pod_Key p n) = None ∧ HasPrefix (pod_Key p n) NamespacePrefix = true.
Proof.
  intros Hp Hn. rewrite pod_Key_eq. unfold ParsePodFromKey, ParsePolicyFromKey.
  rewrite parse_scoped_key_build, parse_scoped_key_other, HasPrefix_app by done. done.
Qed.

Lemma policy_Key_parses p n : no_slash p → no_slash n →
  ParsePolicyFromKey (policy_Key p n) = Some (p, n) ∧ ParsePodFromKey (policy_Key p n) = None ∧ HasPrefix (policy_Key p n) NamespacePrefix = true.
Proof.
  intros Hp Hn. rewrite policy_Key_eq. unfold ParsePodFromKey, ParsePolicyFromKey.
  rewrite parse_scoped_key_build, parse_scoped_key_other, HasPrefix_app by done. done.
Qed.

Lemma namespace_Key_parses n : no_slash n →
  ParsePolicyFromKey (namespace_Key n) = None ∧ ParsePodFromKey (namespace_Key n) = None ∧ HasPrefix (namespace_Key n) NamespacePrefix = true.
Proof.
  intros Hn. unfold ParsePodFromKey, ParsePolicyFromKey. rewrite !parse_scoped_key_namespace by done.
  unfold namespace_Key. by rewrite HasPrefix_app.
Qed.

Lemma namespace_Key_inj n n' : namespace_Key n = namespace_Key n' → n = n'.
Proof. unfold namespace_Key. intros Heq. apply (f_equal (λ k, TrimPrefix k NamespacePrefix)) in Heq. by rewrite !TrimPrefix_app in Heq. Qed.

(** What the store has under the keys of the three kinds. *)
Record store_ok `{RangeOracle} (v : gmap string Message) (s : ApiState) : Prop := {
  so_pods name ns : no_slash name → no_slash ns →
    v !! pod_Key name ns = MsgPod ∘ podToProto <$> api_pods s !! meta_name (mkObjectMeta name ns ∅);
  so_policies name ns : no_slash name → no_slash ns →
    v !! policy_Key name ns = MsgPolicy ∘ policyToProto <$> api_policies s !! meta_name (mkObjectMeta name ns ∅);
  so_namespaces n : no_slash n → v !! namespace_Key n = MsgNamespace ∘ namespaceToProto <$> api_namespaces s !! n
}.

(** Objects are known under their names. *)
Record api_ok (s : ApiState) : Prop := {
  ao_pods k p : api_pods s !! k = Some p → k = meta_name (apod_Meta p);
  ao_policies k p : api_policies s !! k = Some p → k = meta_name (apol_Meta p);
  ao_namespaces k n : api_namespaces s !! k = Some n → k = om_Name (ans_Meta n)
}.

Section pipeline.
Context `{RangeOracle} {EC : Type} (bad : EC).

Lemma keys_differ name ns name' ns' n : no_slash name → no_slash ns → no_slash name' → no_slash ns' → no_slash n →
  pod_Key name ns ≠ policy_Key name' ns' ∧ pod_Key name ns ≠ namespace_Key n ∧ policy_Key name ns ≠ namespace_Key n.
Proof.
  intros H1 H2 H3 H4 H5. destruct (pod_Key_parses name ns H1 H2) as (Ha & Hb & _), (policy_Key_parses name' ns' H3 H4) as (Hc & Hd & _),
    (namespace_Key_parses n H5) as (He & Hf & _), (policy_Key_parses name ns H1 H2) as (Hg & _).
  split_and!; intros Heq; rewrite Heq in *; congruence.
Qed.

Lemma pod_Key_same name ns name' ns' : no_slash name → no_slash ns → no_slash name' → no_slash ns' →
  pod_Key name ns = pod_Key name' ns' ↔ meta_name (mkObjectMeta name ns ∅) = meta_name (mkObjectMeta name' ns' ∅).
Proof.
  intros H1 H2 H3 H4. split.
  - intros Heq. destruct (pod_Key_parses name ns H1 H2) as (Ha & _), (pod_Key_parses name' ns' H3 H4) as (Hb & _).
    rewrite Heq, Hb in Ha. by injection Ha as -> ->.
  - unfold meta_name. cbn [om_Namespace om_Name]. intros [-> ->]%ID_text_inj; done.
Qed.

Lemma policy_Key_same name ns name' ns' : no_slash name → no_slash ns → no_slash name' → no_slash ns' →
  policy_Key name ns = policy_Key name' ns' ↔ meta_name (mkObjectMeta name ns ∅) = meta_name (mkObjectMeta name' ns' ∅).
Proof.
  intros H1 H2 H3 H4. split.
  - intros Heq. destruct (policy_Key_parses name ns H1 H2) as (Ha & _), (policy_Key_parses name' ns' H3 H4) as (Hb & _).
    rewrite Heq, Hb in Ha. by injection Ha as -> ->.
  - unfold meta_name. cbn [om_Namespace om_Name]. intros [-> ->]%ID_text_inj; done.
Qed.

(** Setting or removing one key of both maps keeps them related. *)
Lemma related_alter {A} (key : string → string → string) (f : A → Message) (v v' : gmap string Message) (m m' : gmap string A) name ns new :
  (∀ n s, no_slash n → no_slash s → key name ns = key n s ↔ meta_name (mkObjectMeta name ns ∅) = meta_name (mkObjectMeta n s ∅)) →
  (∀ n s, no_slash n → no_slash s → v !! key n s = f <$> m !! meta_name (mkObjectMeta n s ∅)) →
  v' = partial_alter (λ _, f <$> new) (key name ns) v → m' = partial_alter (λ _, new) (meta_name (mkObjectMeta name ns ∅)) m →
  ∀ n s, no_slash n → no_slash s → v' !! key n s = f <$> m' !! meta_name (mkObjectMeta n s ∅).
Proof.
  intros Hkey Hv -> -> n s Hn Hs. destruct (decide (key name ns = key n s)) as [Heq|Hne].
  - rewrite <- Heq. apply Hkey in Heq as <-; [|done..]. by rewrite !lookup_partial_alter_eq.
  - rewrite !lookup_partial_alter_ne; [by apply Hv| |done]. intros Heq. apply Hne. by apply Hkey.
Qed.

(** The map of a kind after a change event. *)
Lemma change_map_event {A V} (name : V → string) (f : A → V) (as_V : Message → result EC V) (msg : V → Message) (zero : V)
    (m : gmap string A) k new :
  (∀ v, as_V (msg v) = Ok v) → (∀ a, m !! k = Some a → name (f a) = k) → (∀ a, new = Some a → name (f a) = k) → (new = None → is_Some (m !! k)) →
  ∃ value diff prev, decode_new zero as_V (msg ∘ f <$> new) = Ok value ∧ decode_old zero as_V (msg ∘ f <$> m !! k) = Ok (diff, prev) ∧
    change_map name (if msg ∘ f <$> new is Some _ then ChangePut else ChangeDelete) value prev diff (f <$> m)
    = f <$> partial_alter (λ _, new) k m.
Proof.
  intros Has Hold Hnew Hdel. destruct (m !! k) as [a|] eqn:Ha; destruct new as [b|];
    cbn [fmap option_fmap option_map decode_new decode_old compose change_map].
  - rewrite !Has. do 3 eexists. split; [done|]. split; [done|]. rewrite (Hold a), (Hnew b) by done. rewrite insert_delete_eq. symmetry.
    exact (fmap_insert f m k b).
  - rewrite Has. do 3 eexists. split; [done|]. split; [done|]. rewrite (Hold a) by done. symmetry. exact (fmap_delete f m k).
  - rewrite Has. do 3 eexists. split; [done|]. split; [done|]. rewrite (Hnew b) by done. symmetry. exact (fmap_insert f m k b).
  - destruct Hdel as [? [=]]. done.
Qed.

Definition set_pod (s : ApiState) (k : string) (new : option ApiPod) : ApiState :=
  mkApiState (api_policies s) (partial_alter (λ _, new) k (api_pods s)) (api_namespaces s).
Definition set_policy (s : ApiState) (k : string) (new : option ApiPolicy) : ApiState :=
  mkApiState (partial_alter (λ _, new) k (api_policies s)) (api_pods s) (api_namespaces s).
Definition set_namespace (s : ApiState) (k : string) (new : option ApiNamespace) : ApiState :=
  mkApiState (api_policies s) (api_pods s) (partial_alter (λ _, new) k (api_namespaces s)).

Lemma pod_step v s name ns new : store_ok v s → api_ok s → no_slash name → no_slash ns →
  let k := meta_name (mkObjectMeta name ns ∅) in
  (∀ p, new = Some p → meta_name (apod_Meta p) = k) → (new = None → is_Some (api_pods s !! k)) →
  apply_change (watch_event bad (pod_Key name ns) (v !! pod_Key name ns) (MsgPod ∘ podToProto <$> new)) (proto_state s)
    = proto_state (set_pod s k new) ∧
  store_ok (partial_alter (λ _, MsgPod ∘ podToProto <$> new) (pod_Key name ns) v) (set_pod s k new).
Proof.
  intros Hv Ha Hname Hns k Hnew Hdel. split.
  - destruct (pod_Key_parses name ns Hname Hns) as (Hp & Hq & Hpre). unfold apply_change. cbn [watch_event ev_key ev_pod ev_prevPod ev_type].
    rewrite Hpre, Hq, Hp. cbn [negb]. rewrite (so_pods _ _ Hv) by done. fold k.
    destruct (change_map_event pod_name podToProto (as_pod bad) MsgPod no_pod (api_pods s) k new)
      as (value & diff & prev & -> & -> & Heq); [done| |done|done|].
    + intros a Hk. symmetry. by apply (ao_pods _ Ha).
    + cbn [proto_state ks_policies ks_pods ks_namespaces set_pod api_policies api_pods api_namespaces] in *. by rewrite Heq.
  - split; cbn [set_pod api_policies api_pods api_namespaces].
    + intros n s' Hn Hs'. eapply (related_alter pod_Key (MsgPod ∘ podToProto) v _ (api_pods s)); [|by apply (so_pods _ _ Hv)|done|done|done|done].
      intros n' s'' ? ?. by apply pod_Key_same.
    + intros n s' Hn Hs'. rewrite lookup_partial_alter_ne; [by apply (so_policies _ _ Hv)|].
      exact (proj1 (keys_differ name ns n s' name Hname Hns Hn Hs' Hname)).
    + intros n Hn. rewrite lookup_partial_alter_ne; [by apply (so_namespaces _ _ Hv)|].
      exact (proj1 (proj2 (keys_differ name ns name ns n Hname Hns Hname Hns Hn))).
Qed.

Lemma policy_step v s name ns new : store_ok v s → api_ok s → no_slash name → no_slash ns →
  let k := meta_name (mkObjectMeta name ns ∅) in
  (∀ p, new = Some p → meta_name (apol_Meta p) = k) → (new = None → is_Some (api_policies s !! k)) →
  apply_change (watch_event bad (policy_Key name ns) (v !! policy_Key name ns) (MsgPolicy ∘ policyToProto <$> new)) (proto_state s)
    = proto_state (set_policy s k new) ∧
  store_ok (partial_alter (λ _, MsgPolicy ∘ policyToProto <$> new) (policy_Key name ns) v) (set_policy s k new).
Proof.
  intros Hv Ha Hname Hns k Hnew Hdel. split.
  - destruct (policy_Key_parses name ns Hname Hns) as (Hp & Hq & Hpre). unfold apply_change. cbn [watch_event ev_key ev_policy ev_prevPolicy ev_type].
    rewrite Hpre, Hp. cbn [negb]. rewrite (so_policies _ _ Hv) by done. fold k.
    destruct (change_map_event policy_name policyToProto (as_policy bad) MsgPolicy no_policy (api_policies s) k new)
      as (value & diff & prev & -> & -> & Heq); [done| |done|done|].
    + intros a Hk. symmetry. by apply (ao_policies _ Ha).
    + cbn [proto_state ks_policies ks_pods ks_namespaces set_policy api_policies api_pods api_namespaces] in *. by rewrite Heq.
  - split; cbn [set_policy api_policies api_pods api_namespaces].
    + intros n s' Hn Hs'. rewrite lookup_partial_alter_ne; [by apply (so_pods _ _ Hv)|]. apply not_eq_sym.
      exact (proj1 (keys_differ n s' name ns name Hn Hs' Hname Hns Hname)).
    + intros n s' Hn Hs'. eapply (related_alter policy_Key (MsgPolicy ∘ policyToProto) v _ (api_policies s));
        [|by apply (so_policies _ _ Hv)|done|done|done|done].
      intros n' s'' ? ?. by apply policy_Key_same.
    + intros n Hn. rewrite lookup_partial_alter_ne; [by apply (so_namespaces _ _ Hv)|].
      exact (proj2 (proj2 (keys_differ name ns name ns n Hname Hns Hname Hns Hn))).
Qed.

Lemma namespace_step v s n new : store_ok v s → api_ok s → no_slash n →
  (∀ p, new = Some p → om_Name (ans_Meta p) = n) → (new = None → is_Some (api_namespaces s !! n)) →
  apply_change (watch_event bad (namespace_Key n) (v !! namespace_Key n) (MsgNamespace ∘ namespaceToProto <$> new)) (proto_state s)
    = proto_state (set_namespace s n new) ∧
  store_ok (partial_alter (λ _, MsgNamespace ∘ namespaceToProto <$> new) (namespace_Key n) v) (set_namespace s n new).
Proof.
  intros Hv Ha Hn Hnew Hdel. split.
  - destruct (namespace_Key_parses n Hn) as (Hp & Hq & Hpre). unfold apply_change. cbn [watch_event ev_key ev_namespace ev_prevNamespace ev_type].
    rewrite Hpre, Hp, Hq. cbn [negb]. rewrite (so_namespaces _ _ Hv) by done.
    destruct (change_map_event Namespace_Name namespaceToProto (as_namespace bad) MsgNamespace no_namespace (api_namespaces s) n new)
      as (value & diff & prev & -> & -> & Heq); [done| |done|done|].
    + intros a Hk. symmetry. by apply (ao_namespaces _ Ha).
    + cbn [proto_state ks_policies ks_pods ks_namespaces set_namespace api_policies api_pods api_namespaces] in *. by rewrite Heq.
  - split; cbn [set_namespace api_policies api_pods api_namespaces].
    + intros m s' Hm Hs'. rewrite lookup_partial_alter_ne; [by apply (so_pods _ _ Hv)|]. apply not_eq_sym.
      exact (proj1 (proj2 (keys_differ m s' m s' n Hm Hs' Hm Hs' Hn))).
    + intros m s' Hm Hs'. rewrite lookup_partial_alter_ne; [by apply (so_policies _ _ Hv)|]. apply not_eq_sym.
      exact (proj2 (proj2 (keys_differ m s' m s' n Hm Hs' Hm Hs' Hn))).
    + intros m Hm. destruct (decide (n = m)) as [->|Hne]; [by rewrite !lookup_partial_alter_eq|].
      rewrite !lookup_partial_alter_ne; [by apply (so_namespaces _ _ Hv)|done|]. by intros ?%namespace_Key_inj.
Qed.

(** The empty store of an empty cluster. *)
Lemma store_ok_empty : store_ok ∅ (mkApiState ∅ ∅ ∅).
Proof. split; intros; cbn [api_pods api_policies api_namespaces]; by rewrite !lookup_empty. Qed.

Lemma api_ok_empty : api_ok (mkApiState ∅ ∅ ∅).
Proof. split; intros k x; cbn [api_pods api_policies api_namespaces]; by rewrite lookup_empty. Qed.

Lemma api_ok_apply s ev : api_ok s → api_ok (api_apply s ev).
Proof.
  intros Ha. assert (∀ o, api_ok (api_put o s)) as Hput.
  { intros [p|p|n|i k]; [..|exact Ha]; split; cbn [api_put api_pods api_policies api_namespaces]; try apply Ha;
      intros k x [[<- <-]|[_ Hk]]%lookup_insert_Some; try done; by apply Ha. }
  destruct ev as [o|[p|p|n|[] k0]|old new]; cbn [api_apply]; [apply Hput|..|apply Hput];
    (split; cbn [api_del api_pods api_policies api_namespaces]; try apply Ha; intros k x [_ Hk]%lookup_delete_Some; by apply Ha).
Qed.

(** One event of Kubernetes as a change of the store. *)
Lemma effect_step v s ev : store_ok v s → api_ok s → good_api_event s ev →
  ∃ key new, effect ev = Some (key, new) ∧
    apply_change (watch_event bad key (v !! key) new) (proto_state s) = proto_state (api_apply s ev) ∧
    store_ok (partial_alter (λ _, new) key v) (api_apply s ev) ∧ good_event (watch_event bad key (v !! key) new).
Proof.
  intros Hv Ha Hev.
  assert (∀ key old (m : Message), (∀ p, m = MsgPolicy p → is_Some (Policy_Pods p)) → good_event (watch_event bad key old (Some m))) as Hgood.
  { intros key old m Hm _ value. cbn [watch_event ev_policy decode_new]. destruct m; cbn [as_policy]; intros [=]. subst. by apply Hm. }
  assert (∀ o, good_object o → ∃ key new, effect (ApiAdd o) = Some (key, new) ∧
    apply_change (watch_event bad key (v !! key) new) (proto_state s) = proto_state (api_put o s) ∧
    store_ok (partial_alter (λ _, new) key v) (api_put o s) ∧ good_event (watch_event bad key (v !! key) new)) as Hput.
  { intros [p|p|n|i k]; [..|done]; intros [Hn Hs]; do 2 eexists; (split; [reflexivity|]).
    - destruct (pod_step v s _ _ (Some p) Hv Ha Hn Hs) as [H1 H2]; [by intros ? [= ->]|done|]. split; [exact H1|]. split; [exact H2|]. by apply Hgood.
    - destruct (policy_step v s _ _ (Some p) Hv Ha Hn Hs) as [H1 H2]; [by intros ? [= ->]|done|]. split; [exact H1|]. split; [exact H2|].
      apply Hgood. intros q [= <-]. by eexists.
    - destruct (namespace_step v s _ (Some n) Hv Ha Hn) as [H1 H2]; [by intros ? [= ->]|done|]. split; [exact H1|]. split; [exact H2|].
      by apply Hgood. }
  destruct ev as [o|o|old new]; cbn [good_api_event api_apply] in *.
  - by apply Hput.
  - destruct Hev as [Hgo Hex]. destruct o as [p|p|n|i k]; [..|done]; destruct Hgo as [Hn Hs]; do 2 eexists; (split; [reflexivity|]).
    + destruct (pod_step v s _ _ None Hv Ha Hn Hs) as [H1 H2]; [intros ? [=]|by intros _|]. split; [exact H1|]. split; [exact H2|]. intros [=].
    + destruct (policy_step v s _ _ None Hv Ha Hn Hs) as [H1 H2]; [intros ? [=]|by intros _|]. split; [exact H1|]. split; [exact H2|]. intros [=].
    + destruct (namespace_step v s _ None Hv Ha Hn) as [H1 H2]; [intros ? [=]|by intros _|]. split; [exact H1|]. split; [exact H2|]. intros [=].
  - destruct Hev as [Hg Hk]. destruct (Hput new Hg) as (key & m & He & Hrest). exists key, m. split; [|exact Hrest].
    rewrite <- He. by destruct old, new.
Qed.

(** *** The run *)

Context {S EW : Type} `{!KeyProtoValWriter S EW, !KeyProtoValWriterLaws S EW}.
Context {MP MO MN : Type} `{!NamedMapping MP Policy, !NamedMapping MO Pod, !NamedMapping MN Namespace}.
Context `{!NamedMappingLaws MP Policy, !NamedMappingLaws MO Pod, !NamedMappingLaws MN Namespace}.
Context {W : Type} `{!PolicyCacheWatcher W EC (PolicyCache MP MO MN)}.
Hypothesis cache_watchers_return : ∀ (w : W) (pc : PolicyCache MP MO MN) call, is_Some (watcher_call (E := EC) w pc call).
Hypothesis put_succeeds : ∀ (s : S) key m, (Publish_Put (E := EW) s key m).2 = None.
Hypothesis delete_succeeds : ∀ (s : S) key, ∃ b, (Publish_Delete (E := EW) s key).2 = Ok b.

(** A reflector changes the store, the cache gets the change. *)
Definition ksr_step (st : S * (PolicyCache MP MO MN * list W)) (ev : ApiEvent) : option (S * (PolicyCache MP MO MN * list W)) :=
  let '(s, _) := reflect (E := EW) st.1 ev in
  match effect ev with
  | Some (key, new) => '(c, _) ← cache_Update st.2 (watch_event bad key (kv_view st.1 !! key) new); Some (s, c)
  | None => Some (s, st.2)
  end.

Definition ksr_run (st : S * (PolicyCache MP MO MN * list W)) (evs : list ApiEvent) := foldM ksr_step st evs.

Lemma reflect_view (s : S) ev key new : effect ev = Some (key, new) →
  kv_view (reflect (E := EW) s ev).1 = partial_alter (λ _, new) key (kv_view s).
Proof.
  assert (∀ k m, kv_view (publish (E := EW) s k m).1 = partial_alter (λ _, Some m) k (kv_view s)) as Hput.
  { intros k m. unfold publish. destruct (Publish_Put s k m) as [s' e] eqn:Hp. pose proof (put_succeeds s k m) as He. rewrite Hp in He. simpl in He.
    subst e. exact (kv_put s k m s' Hp). }
  assert (∀ k, kv_view (unpublish (E := EW) s k).1 = partial_alter (λ _, None) k (kv_view s)) as Hdel.
  { intros k. unfold unpublish. destruct (delete_succeeds s k) as [b Hb]. destruct (Publish_Delete s k) as [s' r] eqn:Hp. simpl in Hb. subst r.
    exact (kv_delete s k s' b Hp). }
  destruct ev as [[]|[]|[] []]; cbn [effect mbind option_bind]; intros [= <- <-]; (apply Hput || apply Hdel).
Qed.

Lemma ksr_run_ok evs a s c ws : store_ok (kv_view s) a → api_ok a → cache_view c = proto_state a → indexed_maps c → good_api_events a evs →
  ∃ st', ksr_run (s, (c, ws)) evs = Some st' ∧ cache_view st'.2.1 = proto_state (foldl api_apply a evs).
Proof.
  revert a s c ws. induction evs as [|ev evs IH]; intros a s c ws Hv Ha Hc Hi Hevs; [by eexists|]. destruct Hevs as [Hev Hevs].
  destruct (effect_step (kv_view s) a ev Hv Ha Hev) as (key & new & He & Happ & Hv' & Hg).
  destruct (cache_Update_ok cache_watchers_return (c, ws) _ Hi Hg) as ([c' ws'] & err & Hup & Hview & Hi').
  pose proof (reflect_view s ev key new He) as Hs. destruct (reflect s ev) as [s' e] eqn:Hr. cbn [fst snd] in *. rewrite <- Hs in Hv'.
  assert (ksr_step (s, (c, ws)) ev = Some (s', (c', ws'))) as Hstep.
  { unfold ksr_step. cbn [fst snd]. rewrite Hr, He, Hup. done. }
  unfold ksr_run. cbn [foldM foldl]. rewrite Hstep. cbn [mbind option_bind]. apply IH; [done|by apply api_ok_apply|by rewrite Hview, Hc|done|done].
Qed.

End pipeline.

(** ** Examples *)

#[local] Existing Instance canonical_order.
#[local] Existing Instance recorder.

(** The store of keyval_writer.go, a map in memory. *)
Definition mock_Put (ds : gmap string Message) (key : string) (data : Message) : gmap string Message * option string :=
  (<[key := data]> ds, None).
Definition mock_Delete (ds : gmap string Message) (key : string) : gmap string Message * result string bool :=
  if bool_decide (is_Some (ds !! key)) then (delete key ds, Ok true) else (ds, Ok false).

#[local] Instance map_store : KeyProtoValWriter (gmap string Message) string := {| Publish_Put := mock_Put; Publish_Delete := mock_Delete |}.
#[local] Program Instance map_store_laws : KeyProtoValWriterLaws (gmap string Message) string := {| kv_view s := s |}.
Next Obligation. by intros s key m s' [= <-]. Qed.
Next Obligation.
  intros s key s' b. cbn. unfold mock_Delete. case_bool_decide as Hin; intros [= <- _]; [done|].
  symmetry. by apply delete_id, eq_None_not_Some.
Qed.

Definition api_pod : ApiPod := mkApiPod (mkObjectMeta "web" "default" {["app"%string := "web"%string]}) "10.1.1.2" "192.168.0.1" [].
Definition api_policy (labels : gmap string string) : ApiPolicy := mkApiPolicy (mkObjectMeta "deny" "default" ∅) (mkApiSelector labels []) [] [] [].

Definition bad_message : string := "not of this kind".

Definition api_events : list ApiEvent :=
  [ApiAdd (ObjPod api_pod); ApiAdd (ObjPolicy (api_policy ∅)); ApiUpdate (ObjPod api_pod) (ObjPod api_pod); ApiDelete (ObjPod api_pod)].

Lemma api_events_good : good_api_events (mkApiState ∅ ∅ ∅) api_events.
Proof.
  split; [by split|]. split; [by split|]. split; [by split|]. split; [|exact I]. split; [by split|].
  unfold exists_in. apply (bool_decide_unpack _). vm_compute. exact I.
Qed.

Lemma map_store_puts (s : gmap string Message) key m : (Publish_Put s key m).2 = None.
Proof. reflexivity. Qed.
Lemma map_store_deletes (s : gmap string Message) key : ∃ b, (Publish_Delete s key).2 = Ok b.
Proof. cbn. unfold mock_Delete. case_bool_decide; by eexists. Qed.


Definition policies_of_web (policy : ApiPolicy) : option (list PolicyID) :=
  st ← ksr_run bad_message ((∅ : gmap string Message), new_cache) [ApiAdd (ObjPod api_pod); ApiAdd (ObjPolicy policy)];
  cache_LookupPoliciesByPod st.2.1 (mkPodID "web" "default").

(** A policy with an empty pod selector stands for all pods of the namespace,
    and its converted form still does; but the cache finds policies only
    through the labels of their selectors, so the policy applies to no pod. The
    same policy with a label of the pod in its selector is found. *)
Example empty_selector_selects_nothing :
  selects (policyToProto (api_policy ∅)) (podToProto api_pod) ∧ policies_of_web (api_policy ∅) = Some [] ∧
  policies_of_web (api_policy {["app"%string := "web"%string]}) = Some [mkPolicyID "deny" "default"].
Proof.
  split; [apply selects_proto; split; [reflexivity|apply map_empty_subseteq]|]. split; vm_compute; reflexivity.
Qed.

(** *** Removals that are not seen *)

Definition api_pod_names (s : ApiState) : list string := (map_to_list (api_pods s)).*1.
Definition cached_pods (o : option (gmap string Message * (PolicyCache _ _ _ * list (list WatcherCall)))) : option (list string) :=
  st ← o; Some (map_to_list (ks_pods (cache_view st.2.1))).*1.

(** When an informer has missed a removal it only has the key of the object; the
    reflector does not handle this case, and the pod stays in the store and in the
    cache. *)
Example missed_removal_stays :
  let evs := [ApiAdd (ObjPod api_pod); ApiDelete (ObjDeletedFinalStateUnknown PodInformer "default/web")] in
  api_pod_names (foldl api_apply (mkApiState ∅ ∅ ∅) evs) = [] ∧
  cached_pods (ksr_run bad_message ((∅ : gmap string Message), new_cache) evs) = Some ["default/web"%string].
Proof. vm_compute. split; reflexivity. Qed.

(** The reflectors write what they find when they start and remove nothing: a
    pod that was removed while KSR was not running stays. *)
Example removed_during_restart_stays :
  let before := ksr_run bad_message ((∅ : gmap string Message), new_cache) [ApiAdd (ObjPod api_pod); ApiAdd (ObjPolicy (api_policy ∅))] in
  let after := before ≫= λ st, ksr_run bad_message st [ApiAdd (ObjPolicy (api_policy ∅))] in
  cached_pods after = Some ["default/web"%string].
Proof. vm_compute. reflexivity. Qed.
