(* ===== verification/KsrPlugin.v ===== *)
(** * The life cycle of KSR

    plugins/ksr/plugin_impl_ksr.go with Init, Start, run and Close of the
    reflectors. The agent calls Init, AfterInit and Close; the goroutines that
    AfterInit starts run concurrently with it. A call is a list of instructions;
    between any two instructions the goroutines take steps of their own.

    The informers are those of client-go: [Controller.Run] calls the handlers of
    its resource and returns only when the channel it has got is closed. It may
    still call handlers between the close and its return. *)

From Stdlib Require Import ZArith Lia String.
From stdpp Require Import prelude strings list gmap relations.
From S2P Require Import Prelude GoStrings GoErrors GoNet KsrModel Utils PolicyCache PolicyCacheEvents PolicyCacheProofs PolicyCacheSelect Reflectors ReflectorsProofs.

(** ** State *)

Inductive Channel := NilChan | OpenChan | ClosedChan.

(** A reflector that has been initialized; its [stopCh] and [wg] are those of the
    plugin. *)
Record Reflector := mkReflector { ref_resource : Informer }.

Record KsrPlugin := mkKsrPlugin {
  stopCh : Channel;
  wg : Z;
  nsReflector : option Reflector;
  podReflector : option Reflector;
  policyReflector : option Reflector
}.

Definition new_plugin : KsrPlugin := mkKsrPlugin NilChan 0 None None None.

Definition set_wg (n : Z) (p : KsrPlugin) : KsrPlugin := mkKsrPlugin (stopCh p) n (nsReflector p) (podReflector p) (policyReflector p).
Definition set_stopCh (c : Channel) (p : KsrPlugin) : KsrPlugin :=
  mkKsrPlugin c (wg p) (nsReflector p) (podReflector p) (policyReflector p).

Definition reflector (p : KsrPlugin) (i : Informer) : option Reflector :=
  match i with NamespaceInformer => nsReflector p | PodInformer => podReflector p | PolicyInformer => policyReflector p end.

(** ** Init *)

Section init.
Context {Config Clientset : Type}.
Context (BuildConfigFromFlags : string → string → result string Config) (NewForConfig : Config → result string Clientset).

(** The reflectors do not fail: they only create their informers. *)
Definition Plugin_Init (kubeconfig : string) (p : KsrPlugin) : KsrPlugin * option string :=
  let p := set_stopCh OpenChan p in
  match BuildConfigFromFlags "" kubeconfig with
  | Err err => (p, Some ("failed to build kubernetes client config: " +:+ err)%string)
  | Ok config =>
    match NewForConfig config with
    | Err err => (p, Some ("failed to build kubernetes client: " +:+ err)%string)
    | Ok _ => (mkKsrPlugin (stopCh p) (wg p) (Some (mkReflector NamespaceInformer)) (Some (mkReflector PodInformer))
                 (Some (mkReflector PolicyInformer)), None)
    end
  end.
End init.

(** ** AfterInit and Close *)

Inductive Instr :=
  | WgAdd (i : Informer)      (* of the reflector's WaitGroup *)
  | Go (i : Informer)         (* go run() *)
  | CloseStopCh
  | CloseAll                  (* the reflectors have nothing to close *)
  | WgWait.

Definition Start (i : Informer) : list Instr := [WgAdd i; Go i].
Definition AfterInit : list Instr := Start NamespaceInformer ++ Start PodInformer ++ Start PolicyInformer.
Definition Close : list Instr := [CloseStopCh; CloseAll; WgWait].

(** [run] of a reflector: inside [Controller.Run], before the deferred [Done],
    and at its end. *)
Inductive RunState := InController | BeforeDone | Finished.
#[export] Instance RunState_eq_dec : EqDecision RunState.
Proof. solve_decision. Defined.
#[export] Instance Informer_eq_dec : EqDecision Informer.
Proof. solve_decision. Defined.

(** What the agent has called last. *)
Inductive Phase := Created | InitFailed | Initialized | AfterInitCalled | CloseCalled.

Section world.
Context `{RangeOracle} {S E : Type} `{!KeyProtoValWriter S E}.

Record KsrWorld := mkKsrWorld {
  w_plugin : KsrPlugin;
  w_phase : Phase;
  w_todo : list Instr;
  w_routines : list (Informer * RunState);
  w_store : S;
  w_handled : list ApiEvent
}.

(** An instruction of the agent's goroutine; [None] is a panic. [WgWait] is only
    executed when the counter is zero. *)
Definition exec (ins : Instr) (w : KsrWorld) : option KsrWorld :=
  let set p rs := mkKsrWorld p (w_phase w) (w_todo w) rs (w_store w) (w_handled w) in
  match ins with
  | WgAdd i => _ ← reflector (w_plugin w) i; Some (set (set_wg (wg (w_plugin w) + 1)%Z (w_plugin w)) (w_routines w))
  | Go i => r ← reflector (w_plugin w) i; Some (set (w_plugin w) (w_routines w ++ [(ref_resource r, InController)]))
  | CloseStopCh =>
    match stopCh (w_plugin w) with
    | OpenChan => Some (set (set_stopCh ClosedChan (w_plugin w)) (w_routines w))
    | NilChan | ClosedChan => None
    end
  | CloseAll | WgWait => Some w
  end.

(** [Done] panics when the counter becomes negative. *)
Definition Done (p : KsrPlugin) : option KsrPlugin := if decide (0 < wg p)%Z then Some (set_wg (wg p - 1)%Z p) else None.

Definition ev_informer (ev : ApiEvent) : Informer := match ev with ApiAdd o | ApiDelete o => informer_of o | ApiUpdate _ new => informer_of new end.

Definition blocked (ins : Instr) (p : KsrPlugin) : bool := match ins with WgWait => negb (wg p =? 0)%Z | _ => false end.
End world.
Arguments KsrWorld S : clear implicits.
Arguments mkKsrWorld {S} _ _ _ _ _ _.

(** ** Interleavings *)

Section lifecycle.
Context `{RangeOracle} {S E : Type} `{!KeyProtoValWriter S E} {Config Clientset : Type}.
Context (BuildConfigFromFlags : string → string → result string Config) (NewForConfig : Config → result string Clientset).

Definition call (phase : Phase) (todo : list Instr) (w : KsrWorld S) : KsrWorld S :=
  mkKsrWorld (w_plugin w) phase todo (w_routines w) (w_store w) (w_handled w).
Definition next (rest : list Instr) (w : KsrWorld S) : KsrWorld S := call (w_phase w) rest w.
Definition set_run (n : nat) (r : Informer * RunState) (p : KsrPlugin) (w : KsrWorld S) : KsrWorld S :=
  mkKsrWorld p (w_phase w) (w_todo w) (<[n := r]> (w_routines w)) (w_store w) (w_handled w).
Definition handle (ev : ApiEvent) (w : KsrWorld S) : KsrWorld S :=
  mkKsrWorld (w_plugin w) (w_phase w) (w_todo w) (w_routines w) (reflect (w_store w) ev).1 (w_handled w ++ [ev]).

(** The agent calls Init once, AfterInit only after it has succeeded, and Close
    at the end, in any case. A step is labelled with the event it handles; it
    leads to [None] when it panics. *)
Inductive lifecycle_step : KsrWorld S → option ApiEvent → option (KsrWorld S) → Prop :=
  | step_Init w kubeconfig p err : w_phase w = Created → Plugin_Init BuildConfigFromFlags NewForConfig kubeconfig (w_plugin w) = (p, err) →
      lifecycle_step w None (Some (mkKsrWorld p (match err with Some _ => InitFailed | None => Initialized end) [] (w_routines w)
        (w_store w) (w_handled w)))
  | step_AfterInit w : w_phase w = Initialized → lifecycle_step w None (Some (call AfterInitCalled AfterInit w))
  | step_Close w : w_phase w = InitFailed ∨ w_phase w = Initialized ∨ w_phase w = AfterInitCalled → w_todo w = [] →
      lifecycle_step w None (Some (call CloseCalled Close w))
  | step_exec w ins rest : w_todo w = ins :: rest → blocked ins (w_plugin w) = false → lifecycle_step w None (exec ins (next rest w))
  | step_handle w n ev : w_routines w !! n = Some (ev_informer ev, InController) → lifecycle_step w (Some ev) (Some (handle ev w))
  | step_return w n i : w_routines w !! n = Some (i, InController) → stopCh (w_plugin w) = ClosedChan →
      lifecycle_step w None (Some (set_run n (i, BeforeDone) (w_plugin w) w))
  | step_Done w n i : w_routines w !! n = Some (i, BeforeDone) →
      lifecycle_step w None (p ← Done (w_plugin w); Some (set_run n (i, Finished) p w)).

Inductive lifecycle_run (w : KsrWorld S) : list (option ApiEvent) → KsrWorld S → Prop :=
  | steps_none : lifecycle_run w [] w
  | steps_snoc labels w1 lab w2 : lifecycle_run w labels w1 → lifecycle_step w1 lab (Some w2) → lifecycle_run w (labels ++ [lab]) w2.

Definition ksr_start (s0 : S) : KsrWorld S := mkKsrWorld new_plugin Created [] [] s0 [].

(** Close has returned. *)
Definition closed (w : KsrWorld S) : Prop := w_phase w = CloseCalled ∧ w_todo w = [].

(** ** Invariant *)

Definition unfinished (rs : list (Informer * RunState)) : nat := length (filter (λ r, r.2 ≠ Finished) rs).

(** The counter is one ahead between [Add] and [go]. *)
Definition ahead (todo : list Instr) : Z := match todo with Go _ :: _ => 1 | _ => 0 end.

Definition spawned (done : list Instr) : list Informer := omap (λ ins, match ins with Go i => Some i | _ => None end) done.

Definition ready (p : KsrPlugin) : Prop := stopCh p = OpenChan ∧ ∀ i, reflector p i = Some (mkReflector i).

Definition phase_inv (w : KsrWorld S) : Prop :=
  let idle := w_todo w = [] ∧ w_routines w = [] ∧ w_handled w = [] in
  match w_phase w with
  | Created => w_plugin w = new_plugin ∧ idle
  | InitFailed => stopCh (w_plugin w) = OpenChan ∧ idle
  | Initialized => ready (w_plugin w) ∧ idle
  | AfterInitCalled => ready (w_plugin w) ∧
      ∃ done, AfterInit = done ++ w_todo w ∧ w_routines w = (λ i, (i, InController)) <$> spawned done
  | CloseCalled => length (w_routines w) ≤ 3 ∧
      (w_todo w = Close ∧ stopCh (w_plugin w) = OpenChan ∨
       stopCh (w_plugin w) = ClosedChan ∧ (w_todo w = [CloseAll; WgWait] ∨ w_todo w = [WgWait] ∨ w_todo w = [] ∧ wg (w_plugin w) = 0%Z))
  end.

Record ksr_inv (s0 : S) (w : KsrWorld S) : Prop := {
  ki_store : w_store w = foldl (λ s ev, (reflect s ev).1) s0 (w_handled w);
  ki_wg : wg (w_plugin w) = (Z.of_nat (unfinished (w_routines w)) + ahead (w_todo w))%Z;
  ki_phase : phase_inv w
}.

Lemma unfinished_insert rs n i r r' : rs !! n = Some (i, r) →
  (Z.of_nat (unfinished (<[n := (i, r')]> rs)) =
   Z.of_nat (unfinished rs) - (if decide (r = Finished) then 0 else 1) + (if decide (r' = Finished) then 0 else 1))%Z.
Proof.
  intros Hn. rewrite insert_take_drop by (by eapply lookup_lt_Some).
  assert (unfinished rs = unfinished (take n rs ++ (i, r) :: drop (Datatypes.S n) rs)) as -> by (by rewrite take_drop_middle).
  unfold unfinished. rewrite !filter_app, !filter_cons, !length_app. cbn [snd].
  destruct (decide (r = Finished)), (decide (r' = Finished)); repeat case_decide; try done; cbn [length]; lia.
Qed.

Lemma unfinished_pos rs n i r : rs !! n = Some (i, r) → r ≠ Finished → (0 < Z.of_nat (unfinished rs))%Z.
Proof.
  intros Hn Hr. pose proof (unfinished_insert rs n i r Finished Hn) as Hu. rewrite (decide_False (P := r = Finished)) in Hu by done.
  rewrite (decide_True (P := Finished = Finished)) in Hu by done. lia.
Qed.

Lemma unfinished_0 rs : unfinished rs = 0 → Forall (λ r, r.2 = Finished) rs.
Proof.
  intros Hu. apply Forall_forall. intros r Hr. destruct (decide (r.2 = Finished)) as [|Hne]; [done|].
  apply nil_length_inv in Hu. assert (r ∈ filter (λ r, r.2 ≠ Finished) rs) as Hin by (by apply list_elem_of_filter).
  rewrite Hu in Hin. by apply elem_of_nil in Hin.
Qed.

Lemma ksr_start_inv s0 : ksr_inv s0 (ksr_start s0).
Proof. by split. Qed.

Lemma plugin_Init_inv s0 w kubeconfig p err :
  ksr_inv s0 w → w_phase w = Created → Plugin_Init BuildConfigFromFlags NewForConfig kubeconfig (w_plugin w) = (p, err) →
  ksr_inv s0 (mkKsrWorld p (match err with Some _ => InitFailed | None => Initialized end) [] (w_routines w) (w_store w) (w_handled w)).
Proof.
  intros [Hs Hw Hp] Hph. unfold phase_inv in Hp. rewrite Hph in Hp. destruct Hp as (Hpl & _ & Hr & Hh). rewrite Hpl. unfold Plugin_Init.
  destruct (BuildConfigFromFlags _ _) as [config|]; [destruct (NewForConfig config)|]; intros [= <- <-]; (split; [done|cbn; by rewrite Hr|]);
    unfold phase_inv, ready; cbn; rewrite ?Hr; split_and!; try done. by intros [].
Qed.

(** The instructions of AfterInit. *)
Lemma exec_AfterInit_inv s0 w ins rest : ksr_inv s0 w → w_phase w = AfterInitCalled → w_todo w = ins :: rest →
  ∃ w', exec ins (next rest w) = Some w' ∧ ksr_inv s0 w'.
Proof.
  intros [Hs Hw Hp] Hph Htodo. unfold phase_inv in Hp. rewrite Hph in Hp. destruct Hp as ((Ho & Hr) & done & Hd & Hrs).
  rewrite Htodo in Hd, Hw. rewrite (cons_middle ins done rest) in Hd.
  assert ((∃ i rest', ins = WgAdd i ∧ rest = Go i :: rest') ∨ (∃ i, ins = Go i ∧ ahead rest = 0%Z)) as [(i & rest' & -> & ->)|(i & -> & Ha)].
  { do 6 (destruct done as [|? done]; [injection Hd as <- <-; eauto 6|injection Hd as _ Hd]). destruct done; discriminate Hd. }
  - eexists. cbn [exec next call w_plugin]. rewrite Hr. split; [done|]. split; [done|cbn in *; unfold unfinished in *; lia|].
    unfold phase_inv. cbn. rewrite Hph. split; [done|]. exists (done ++ [WgAdd i]). rewrite <-app_assoc. split; [done|].
    unfold spawned. rewrite omap_app. cbn. by rewrite app_nil_r.
  - eexists. cbn [exec next call w_plugin]. rewrite Hr. split; [done|]. split; [done| |].
    + cbn in *. rewrite Ha. unfold unfinished in *. rewrite filter_app, length_app, filter_cons_True by done. cbn. lia.
    + unfold phase_inv. cbn. rewrite Hph. split; [done|]. exists (done ++ [Go i]). rewrite <-app_assoc. split; [done|].
      unfold spawned. rewrite omap_app, fmap_app. cbn. by rewrite Hrs.
Qed.

Lemma exec_Close_inv s0 w ins rest : ksr_inv s0 w → w_phase w = CloseCalled → w_todo w = ins :: rest → blocked ins (w_plugin w) = false →
  ∃ w', exec ins (next rest w) = Some w' ∧ ksr_inv s0 w'.
Proof.
  intros [Hs Hw Hp] Hph Htodo Hb. unfold phase_inv in Hp. rewrite Hph in Hp. rewrite Htodo in Hw, Hp.
  destruct Hp as [Hlen [[[= -> ->] Ho]|[Hc [[= -> ->]|[[= -> ->]|[[=] _]]]]]].
  - eexists. cbn [exec next call w_plugin]. rewrite Ho. split; [done|]. split; [done|done|]. unfold phase_inv; cbn. rewrite Hph. tauto.
  - eexists. split; [done|]. split; [done|done|]. unfold phase_inv; cbn. rewrite Hph. tauto.
  - eexists. split; [done|]. split; [done|done|]. unfold phase_inv; cbn. rewrite Hph. cbn in Hb.
    apply negb_false_iff, Z.eqb_eq in Hb. tauto.
Qed.

(** A goroutine has returned from the controller: Close has been called. *)
Lemma returned_phase s0 w n i r : ksr_inv s0 w → w_routines w !! n = Some (i, r) → r ≠ InController ∨ stopCh (w_plugin w) = ClosedChan →
  w_phase w = CloseCalled.
Proof.
  intros [_ _ Hp] Hn Hr. unfold phase_inv in Hp. destruct (w_phase w); [..|done]; exfalso.
  1-3: destruct Hp as (_ & _ & Hrs & _); by rewrite Hrs in Hn.
  destruct Hp as ((Ho & _) & done & _ & Hrs). rewrite Hrs in Hn. apply list_lookup_fmap_Some in Hn as (? & [= -> ->] & ?).
  destruct Hr; congruence.
Qed.

Lemma set_run_inv s0 w n i r r' p : ksr_inv s0 w → w_phase w = CloseCalled → w_routines w !! n = Some (i, r) →
  stopCh p = stopCh (w_plugin w) → r ≠ Finished →
  wg p = (wg (w_plugin w) - 1 + (if decide (r' = Finished) then 0 else 1))%Z → ksr_inv s0 (set_run n (i, r') p w).
Proof.
  intros [Hs Hw Hp] Hph Hn Hst Hr Hwg. split; [done| |].
  - cbn [set_run w_plugin w_routines w_todo]. rewrite Hwg, Hw, (unfinished_insert _ _ _ _ r' Hn), (decide_False (P := r = Finished)) by done. lia.
  - unfold phase_inv in *. cbn. rewrite Hph in *. rewrite length_insert, Hst. destruct Hp as [Hlen Hp]. split; [done|].
    destruct Hp as [?|[Hc [?|[?|[Htodo Hz]]]]]; [tauto..|]. exfalso. rewrite Htodo in Hw. cbn in Hw.
    pose proof (unfinished_pos _ _ _ _ Hn Hr). lia.
Qed.

Lemma call_Close_inv s0 w : ksr_inv s0 w → w_phase w = InitFailed ∨ w_phase w = Initialized ∨ w_phase w = AfterInitCalled → w_todo w = [] →
  ksr_inv s0 (call CloseCalled Close w).
Proof.
  intros [Hs Hw Hp] Hph Htodo. rewrite Htodo in Hw. split; [done|done|]. unfold phase_inv in *. cbn.
  destruct Hph as [Hph|[Hph|Hph]]; rewrite Hph in Hp.
  - destruct Hp as (Ho & _ & -> & _). cbn. split; [lia|tauto].
  - destruct Hp as ((Ho & _) & _ & -> & _). cbn. split; [lia|tauto].
  - destruct Hp as ((Ho & _) & done & Hd & ->). rewrite Htodo, app_nil_r in Hd. subst done. cbn. split; [lia|tauto].
Qed.

Lemma lifecycle_step_inv s0 w lab ow : ksr_inv s0 w → lifecycle_step w lab ow → ∃ w', ow = Some w' ∧ ksr_inv s0 w'.
Proof.
  intros Hinv Hstep. destruct Hstep as [w kubeconfig p err Hph Hi|w Hph|w Hph Ht|w ins rest Ht Hb|w n ev Hn|w n i Hn Hc|w n i Hn].
  - eexists. split; [done|]. by eapply plugin_Init_inv.
  - eexists. split; [done|]. destruct Hinv as [Hs Hw Hp]. unfold phase_inv in Hp. rewrite Hph in Hp. destruct Hp as (Hr & Ht & Hrs & _).
    rewrite Ht in Hw. split; [done|done|]. unfold phase_inv. cbn. split; [done|]. exists []. by rewrite Hrs.
  - eexists. split; [done|]. by apply call_Close_inv.
  - destruct (w_phase w) eqn:Hph; [..|by eapply exec_AfterInit_inv|by eapply exec_Close_inv];
      destruct Hinv as [_ _ Hp]; unfold phase_inv in Hp; rewrite Hph in Hp; destruct Hp as (_ & Ht' & _); congruence.
  - eexists. split; [done|]. pose proof Hinv as [Hs Hw Hp]. split; [cbn; by rewrite foldl_app, Hs|done|].
    unfold phase_inv in *. cbn. destruct (w_phase w); [..|done|done]; destruct Hp as (_ & _ & Hrs & _); by rewrite Hrs in Hn.
  - eexists. split; [done|]. eapply set_run_inv; [done| |done..|rewrite decide_False by done; lia]. eapply returned_phase; eauto.
  - assert (w_phase w = CloseCalled) as Hph by (eapply returned_phase; [done|done|by left]). pose proof Hinv as [_ Hw _].
    pose proof (unfinished_pos _ _ _ _ Hn ltac:(done)) as Hpos. assert (0 ≤ ahead (w_todo w))%Z by (by destruct (w_todo w) as [|[]]).
    unfold Done. rewrite decide_True by lia. eexists. split; [done|]. eapply set_run_inv; [done..|rewrite decide_True by done; cbn; lia].
Qed.

Lemma lifecycle_run_inv s0 w labels w' : ksr_inv s0 w → lifecycle_run w labels w' → ksr_inv s0 w'.
Proof.
  intros Hinv Hsteps. induction Hsteps as [|labels w1 lab w2 _ IH Hstep]; [done|].
  destruct (lifecycle_step_inv s0 w1 lab _ IH Hstep) as (w2' & [= <-] & Hinv'). done.
Qed.

(** ** Close returns *)

Definition routine_left (r : RunState) : nat := match r with InController => 2 | BeforeDone => 1 | Finished => 0 end.

(** The steps that are left, apart from those that handle an event. *)
Definition steps_left (w : KsrWorld S) : nat := length (w_todo w) + sum_list_with (routine_left ∘ snd) (w_routines w).

Lemma left_insert (rs : list (Informer * RunState)) n i r r' : rs !! n = Some (i, r) →
  sum_list_with (routine_left ∘ snd) (<[n := (i, r')]> rs) + routine_left r = sum_list_with (routine_left ∘ snd) rs + routine_left r'.
Proof.
  revert n. induction rs as [|x rs IH]; intros [|n]; [done|done|intros [= ->]; simpl; lia|]. intros Hn. specialize (IH n Hn). simpl. lia.
Qed.

Lemma steps_left_step s0 w lab w' : ksr_inv s0 w → w_phase w = CloseCalled → lifecycle_step w lab (Some w') →
  w_phase w' = CloseCalled ∧ steps_left w' + (if decide (lab = None) then 1 else 0) = steps_left w.
Proof.
  intros Hinv Hph Hstep. remember (Some w') as ow eqn:Hx.
  destruct Hstep as [w ? ? ? Hph'|w Hph'|w Hph'|w ins rest Ht Hb|w n ev Hn|w n i Hn Hc|w n i Hn].
  - congruence.
  - congruence.
  - destruct Hph' as [?|[?|?]]; congruence.
  - destruct Hinv as [_ _ Hp]. unfold phase_inv in Hp. rewrite Hph in Hp. rewrite Ht in Hp.
    destruct Hp as [_ [[[= -> ->] Ho]|[_ [[= -> ->]|[[= -> ->]|[[=] _]]]]]]; cbn in Hx.
    + rewrite Ho in Hx. injection Hx as <-. split; [done|]. unfold steps_left. rewrite Ht, decide_True by done. cbn. lia.
    + injection Hx as <-. split; [done|]. unfold steps_left. rewrite Ht, decide_True by done. cbn. lia.
    + injection Hx as <-. split; [done|]. unfold steps_left. rewrite Ht, decide_True by done. cbn. lia.
  - injection Hx as <-. split; [done|]. rewrite decide_False by done. unfold steps_left. cbn. lia.
  - injection Hx as <-. split; [done|]. pose proof (left_insert _ _ _ _ BeforeDone Hn) as Hl. cbn [routine_left] in Hl. unfold steps_left.
    rewrite decide_True by done. cbn [set_run w_todo w_routines]. lia.
  - unfold Done in Hx. case_decide; [|done]. injection Hx as <-. split; [done|].
    pose proof (left_insert _ _ _ _ Finished Hn) as Hl. cbn [routine_left] in Hl. unfold steps_left.
    rewrite decide_True by done. cbn [set_run w_todo w_routines]. lia.
Qed.

Lemma left_bound s0 w : ksr_inv s0 w → w_phase w = CloseCalled → steps_left w ≤ 9.
Proof.
  intros [_ _ Hp] Hph. unfold phase_inv in Hp. rewrite Hph in Hp. destruct Hp as [Hlen Ht]. unfold steps_left.
  assert (∀ rs : list (Informer * RunState), sum_list_with (routine_left ∘ snd) rs ≤ 2 * length rs) as Hsum.
  { induction rs as [|[i []] rs IH]; cbn in *; lia. }
  specialize (Hsum (w_routines w)). assert (length (w_todo w) ≤ 3); [|lia].
  destruct Ht as [[-> _]|[_ [->|[->|[-> _]]]]]; cbn; lia.
Qed.

(** Until Close has returned there is something to do besides handling events. *)
Lemma close_progress s0 w : ksr_inv s0 w → w_phase w = CloseCalled → closed w ∨ ∃ w', lifecycle_step w None (Some w').
Proof.
  intros Hinv Hph. pose proof Hinv as [_ Hw Hp]. unfold phase_inv in Hp. rewrite Hph in Hp. destruct (w_todo w) as [|ins rest] eqn:Ht; [by left|].
  right. destruct (blocked ins (w_plugin w)) eqn:Hb.
  - destruct ins; try discriminate Hb. cbn in Hb. apply negb_true_iff, Z.eqb_neq in Hb.
    destruct Hp as [_ [[[=] _]|[Hc _]]]. cbn in Hw.
    destruct (filter (λ r, r.2 ≠ Finished) (w_routines w)) as [|[i r] rs] eqn:Hf.
    { unfold unfinished in Hw. rewrite Hf in Hw. cbn in Hw. lia. }
    assert ((i, r) ∈ filter (λ r, r.2 ≠ Finished) (w_routines w)) as Hin by (rewrite Hf; by left).
    apply list_elem_of_filter in Hin as [Hr [n Hn]%list_elem_of_lookup]. destruct r; [|..|done].
    + eexists. by eapply step_return.
    + destruct (lifecycle_step_inv s0 w None _ Hinv (step_Done w n i Hn)) as (w' & Hw' & _). exists w'. rewrite <-Hw'. by apply step_Done.
  - destruct (lifecycle_step_inv s0 w None _ Hinv (step_exec w ins rest Ht Hb)) as (w' & Hw' & _). exists w'. rewrite <-Hw'. by apply step_exec.
Qed.

Lemma steps_left_run s0 w labels w' : ksr_inv s0 w → w_phase w = CloseCalled → lifecycle_run w labels w' →
  w_phase w' = CloseCalled ∧ steps_left w' + length (filter (λ lab, lab = None) labels) = steps_left w.
Proof.
  intros Hinv Hph Hrun. induction Hrun as [|labels w1 lab w2 Hrun [Hph1 Hl] Hstep]; [split; [done|cbn; lia]|].
  destruct (steps_left_step s0 w1 lab w2 (lifecycle_run_inv s0 _ _ _ Hinv Hrun) Hph1 Hstep) as [Hph2 Hl2]. split; [done|].
  rewrite filter_app, length_app, filter_cons. case_decide; cbn; lia.
Qed.

(** Nothing happens after Close. *)
Lemma closed_final s0 w lab ow : ksr_inv s0 w → closed w → ¬ lifecycle_step w lab ow.
Proof.
  intros [_ Hw Hp] [Hph Ht] Hstep. unfold phase_inv in Hp. rewrite Hph, Ht in Hp. rewrite Ht in Hw. cbn [ahead] in Hw.
  destruct Hp as [_ [[[=] _]|[_ [[=]|[[=]|[_ Hz]]]]]].
  assert (∀ n i r, w_routines w !! n = Some (i, r) → r = Finished) as Hfin.
  { intros n i r Hn. destruct (decide (r = Finished)) as [|Hr]; [done|]. pose proof (unfinished_pos _ _ _ _ Hn Hr). lia. }
  destruct Hstep as [? ? ? ? Hph'|? Hph'|? Hph'|? ? ? Ht'|? ? ? Hn|? ? ? Hn|? ? ? Hn]; try congruence;
    [destruct Hph' as [?|[?|?]]; congruence|by apply Hfin in Hn..].
Qed.
End lifecycle.

(** ** The store *)

Section store.
Context `{RangeOracle} {S E : Type} `{!KeyProtoValWriter S E, !KeyProtoValWriterLaws S E} {Config Clientset : Type}.
Context (BuildConfigFromFlags : string → string → result string Config) (NewForConfig : Config → result string Clientset).

Lemma reflected_store evs a (s : S) : (∀ (s : S) key m, (Publish_Put (E := E) s key m).2 = None) →
  (∀ (s : S) key, ∃ b, (Publish_Delete (E := E) s key).2 = Ok b) → store_ok (kv_view s) a → api_ok a → good_api_events a evs →
  store_ok (kv_view (foldl (λ s ev, (reflect (E := E) s ev).1) s evs)) (foldl api_apply a evs).
Proof.
  intros Hput Hdel. revert a s. induction evs as [|ev evs IH]; intros a s Hv Ha Hevs; [done|]. destruct Hevs as [Hev Hevs]. cbn [foldl].
  destruct (effect_step tt (kv_view s) a ev Hv Ha Hev) as (key & new & He & _ & Hv' & _).
  apply IH; [|by apply api_ok_apply|done]. by rewrite (reflect_view Hput Hdel s ev key new He).
Qed.

(** C12. The life cycle of KSR, for every interleaving of the agent's calls (Init
    once, AfterInit only after a successful Init, Close at the end) with the
    goroutines of the reflectors. Nothing panics (no double close, no negative
    counter, no call of a missing reflector). The store is the result of the
    events that were handled, and as long as AfterInit has not been called it is
    untouched. If it was empty, its operations succeed and the handled events are
    those of [cache_follows_kubernetes] (removals come with the removed object,
    updates are of the same kind, names have no slashes), it holds exactly the
    objects of Kubernetes that these events leave. When AfterInit has returned,
    each resource is watched by one goroutine. Once Close has been called, at most
    nine steps other than the handling of an event are left, and until it has
    returned one of them is possible: Close returns unless events are handled
    forever. Then all goroutines have finished and nothing can happen any more. *)
Theorem ksr_lifecycle (s0 : S) labels w :
  lifecycle_run (E := E) BuildConfigFromFlags NewForConfig (ksr_start s0) labels w →
  (∀ lab, ¬ lifecycle_step (E := E) BuildConfigFromFlags NewForConfig w lab None) ∧
  w_store w = foldl (λ s ev, (reflect (E := E) s ev).1) s0 (w_handled w) ∧
  (w_phase w = Created ∨ w_phase w = InitFailed ∨ w_phase w = Initialized → w_store w = s0) ∧
  (w_phase w = AfterInitCalled → w_todo w = [] →
    w_routines w = [(NamespaceInformer, InController); (PodInformer, InController); (PolicyInformer, InController)]) ∧
  (closed w → Forall (λ r, r.2 = Finished) (w_routines w) ∧
    ∀ lab ow, ¬ lifecycle_step (E := E) BuildConfigFromFlags NewForConfig w lab ow) ∧
  (w_phase w = CloseCalled → ∀ labels' w', lifecycle_run (E := E) BuildConfigFromFlags NewForConfig w labels' w' →
    length (filter (λ lab, lab = None) labels') ≤ 9 ∧
    (closed w' ∨ ∃ w'', lifecycle_step (E := E) BuildConfigFromFlags NewForConfig w' None (Some w''))) ∧
  (kv_view s0 = ∅ → (∀ (s : S) key m, (Publish_Put (E := E) s key m).2 = None) → (∀ (s : S) key, ∃ b, (Publish_Delete (E := E) s key).2 = Ok b) →
    good_api_events (mkApiState ∅ ∅ ∅) (w_handled w) → store_ok (kv_view (w_store w)) (foldl api_apply (mkApiState ∅ ∅ ∅) (w_handled w))).
Proof.
  intros Hrun. pose proof (lifecycle_run_inv _ _ s0 _ _ _ (ksr_start_inv s0) Hrun) as Hinv. pose proof Hinv as [Hs Hw Hp]. split_and!.
  - intros lab Hstep. by destruct (lifecycle_step_inv _ _ s0 w lab None Hinv Hstep) as (? & [=] & _).
  - exact Hs.
  - rewrite Hs. unfold phase_inv in Hp. intros [Hph|[Hph|Hph]]; rewrite Hph in Hp; by destruct Hp as (_ & _ & _ & ->).
  - intros Hph Ht. unfold phase_inv in Hp. rewrite Hph, Ht in Hp. destruct Hp as (_ & done & Hd & ->). rewrite app_nil_r in Hd. by subst.
  - intros Hc. split; [|intros lab ow; by eapply closed_final]. apply unfinished_0. destruct Hc as [Hph Ht]. unfold phase_inv in Hp.
    rewrite Hph, Ht in Hp. rewrite Ht in Hw. cbn [ahead] in Hw. destruct Hp as [_ [[[=] _]|[_ [[=]|[[=]|[_ Hz]]]]]]. lia.
  - intros Hph labels' w' Hrun'. destruct (steps_left_run _ _ s0 w labels' w' Hinv Hph Hrun') as [Hph' Hl].
    pose proof (left_bound s0 w Hinv Hph). split; [lia|]. eapply close_progress; [|done]. by eapply lifecycle_run_inv.
  - intros Hv Hput Hdel Hev. rewrite Hs. apply reflected_store; [done|done|rewrite Hv; apply store_ok_empty|apply api_ok_empty|done].
Qed.
End store.

(** ** Examples *)

(** A schedule: which step is next. *)
Inductive Choice :=
  | DoInit (kubeconfig : string) | DoAfterInit | DoClose | DoExec
  | DoHandle (n : nat) (ev : ApiEvent) | DoReturn (n : nat) | DoDone (n : nat).

Definition choice_label (c : Choice) : option ApiEvent := match c with DoHandle _ ev => Some ev | _ => None end.

Section schedule.
Context `{RangeOracle} {S E : Type} `{!KeyProtoValWriter S E} {Config Clientset : Type}.
Context (BuildConfigFromFlags : string → string → result string Config) (NewForConfig : Config → result string Clientset).

Definition sched_step (w : KsrWorld S) (c : Choice) : option (KsrWorld S) :=
  match c with
  | DoInit kubeconfig =>
    match w_phase w, Plugin_Init BuildConfigFromFlags NewForConfig kubeconfig (w_plugin w) with
    | Created, (p, err) =>
      Some (mkKsrWorld p (match err with Some _ => InitFailed | None => Initialized end) [] (w_routines w) (w_store w) (w_handled w))
    | _, _ => None
    end
  | DoAfterInit => match w_phase w with Initialized => Some (call AfterInitCalled AfterInit w) | _ => None end
  | DoClose =>
    match w_phase w, w_todo w with InitFailed, [] | Initialized, [] | AfterInitCalled, [] => Some (call CloseCalled Close w) | _, _ => None end
  | DoExec => match w_todo w with ins :: rest => if blocked ins (w_plugin w) then None else exec ins (next rest w) | [] => None end
  | DoHandle n ev => if decide (w_routines w !! n = Some (ev_informer ev, InController)) then Some (handle (E := E) ev w) else None
  | DoReturn n =>
    match w_routines w !! n, stopCh (w_plugin w) with
    | Some (i, InController), ClosedChan => Some (set_run n (i, BeforeDone) (w_plugin w) w)
    | _, _ => None
    end
  | DoDone n =>
    match w_routines w !! n with Some (i, BeforeDone) => p ← Done (w_plugin w); Some (set_run n (i, Finished) p w) | _ => None end
  end.

Lemma sched_step_sound w c w' : sched_step w c = Some w' →
  lifecycle_step (E := E) BuildConfigFromFlags NewForConfig w (choice_label c) (Some w').
Proof.
  destruct c as [kubeconfig| | | |n ev|n|n]; cbn [sched_step choice_label].
  - destruct (w_phase w) eqn:Hph; try done. destruct (Plugin_Init _ _ _ _) as [p err] eqn:Hi. intros [= <-]. by eapply step_Init.
  - destruct (w_phase w) eqn:Hph; try done. intros [= <-]. by apply step_AfterInit.
  - destruct (w_phase w) eqn:Hph, (w_todo w) eqn:Ht; try done; intros [= <-]; apply step_Close; tauto.
  - destruct (w_todo w) as [|ins rest] eqn:Ht; [done|]. destruct (blocked _ _) eqn:Hb; [done|]. intros <-. by apply step_exec.
  - case_decide as Hn; [|done]. intros [= <-]. by eapply step_handle.
  - destruct (w_routines w !! n) as [[i []]|] eqn:Hn; try done. destruct (stopCh _) eqn:Hc; try done. intros [= <-]. by apply step_return.
  - destruct (w_routines w !! n) as [[i []]|] eqn:Hn; try done. intros <-. by apply step_Done.
Qed.

Lemma sched_sound cs : ∀ w w', foldM sched_step w cs = Some w' →
  lifecycle_run (E := E) BuildConfigFromFlags NewForConfig w (choice_label <$> cs) w'.
Proof.
  induction cs as [|c cs IH] using rev_ind; intros w w'; [intros [= ->]; constructor|].
  rewrite foldM_app, fmap_app. destruct (foldM sched_step w cs) as [w1|] eqn:Hc; [|done]. cbn [mbind option_bind foldM].
  destruct (sched_step w1 c) as [w2|] eqn:Hs; [|done]. intros [= <-]. econstructor; [by apply IH|by apply sched_step_sound].
Qed.
End schedule.

#[local] Existing Instance canonical_order.
#[local] Existing Instance map_store.
#[local] Existing Instance map_store_laws.

Definition load_config (masterUrl kubeconfigPath : string) : result string unit :=
  if bool_decide (kubeconfigPath = ""%string) then Err "no configuration"%string else Ok tt.
Definition new_client (config : unit) : result string unit := Ok tt.
Abbreviation ksr_schedule := (@sched_step canonical_order _ _ map_store _ _ load_config new_client) (only parsing).

(** KSR from Init to the end of Close: an event comes while AfterInit is still
    starting the policy reflector, another one after the channel is closed. *)
Definition ksr_session : list Choice :=
  [DoInit "/etc/kubernetes/admin.conf"; DoAfterInit; DoExec; DoExec; DoExec; DoExec; DoHandle 1 (ApiAdd (ObjPod api_pod)); DoExec; DoExec;
   DoHandle 2 (ApiAdd (ObjPolicy (api_policy ∅))); DoClose; DoExec; DoReturn 0; DoHandle 1 (ApiDelete (ObjPod api_pod)); DoExec;
   DoDone 0; DoReturn 1; DoReturn 2; DoDone 2; DoDone 1; DoExec].

Definition ksr_end : KsrWorld (gmap string Message) := default (ksr_start ∅) (foldM ksr_schedule (ksr_start ∅) ksr_session).

Lemma ksr_session_runs : foldM ksr_schedule (ksr_start ∅) ksr_session = Some ksr_end.
Proof. vm_compute. reflexivity. Qed.

(** At the end Close has returned and only the policy is in the store. *)
Lemma ksr_lifecycle_witness : closed ksr_end ∧ w_handled ksr_end = omap id (choice_label <$> ksr_session) ∧
  map fst (map_to_list (w_store ksr_end)) = [policy_Key "deny" "default"] ∧
  Forall (λ r, r.2 = Finished) (w_routines ksr_end) ∧
  (∀ lab ow, ¬ lifecycle_step (E := string) load_config new_client ksr_end lab ow) ∧
  store_ok (kv_view (w_store ksr_end)) (foldl api_apply (mkApiState ∅ ∅ ∅) (w_handled ksr_end)).
Proof.
  destruct (ksr_lifecycle (E := string) load_config new_client ∅ (choice_label <$> ksr_session) ksr_end) as (_ & _ & _ & _ & Hclosed & _ & Hstore).
  { apply sched_sound, ksr_session_runs. }
  assert (closed ksr_end) as Hc by (split; vm_compute; reflexivity). destruct (Hclosed Hc) as [Hfin Hfinal].
  split; [exact Hc|]. split; [vm_compute; reflexivity|]. split; [vm_compute; reflexivity|]. split; [exact Hfin|]. split; [exact Hfinal|].
  apply Hstore; [reflexivity|exact map_store_puts|exact map_store_deletes|].
  change (w_handled ksr_end) with [ApiAdd (ObjPod api_pod); ApiAdd (ObjPolicy (api_policy ∅)); ApiDelete (ObjPod api_pod)].
  split; [by split|]. split; [by split|]. split; [|exact I]. split; [by split|]. apply (bool_decide_unpack _). vm_compute. exact I.
Defined.

(** While a reflector is running, Close waits; and Close of a plugin that was
    never initialized panics: there is no channel to close. *)
Example close_waits :
  foldM ksr_schedule (ksr_start ∅) (take 20 ksr_session) ≠ None ∧
  foldM ksr_schedule (ksr_start ∅) (take 18 ksr_session ++ [DoExec]) = None.
Proof. split; vm_compute; [discriminate|reflexivity]. Qed.

Example close_without_init : exec CloseStopCh (ksr_start (∅ : gmap string Message)) = None.
Proof. reflexivity. Qed.
