(* ===== verification/KsrStack.v ===== *)
(** * From the Kubernetes API to the ACLs

    The composition of all parts of the policy path: the informers of Kubernetes,
    the reflectors of KSR, the data store, and the policy stack of a node. What the
    network policies of the API allow ([api_allows]) is what the ACLs in VPP
    permit. *)

From Stdlib Require Import ZArith Lia Ascii String.
From stdpp Require Import prelude strings list gmap.
From S2P Require Import Prelude GoStrings GoErrors GoNet GoText KsrModel Utils Rules AclCache AclCacheProofs AclRenderer AclRendererProofs.
From S2P Require Import Configurator SubtractSubnet ConfiguratorRules RuleIds ConfiguratorProofs ConfiguratorCommit.
From S2P Require Import PolicyCache PolicyCacheEvents PolicyCacheProofs PolicyCacheSelect Processor ProcessorProofs AclSemantics AclPipeline.
From S2P Require Import PolicyPlugin PolicyStack Reflectors ReflectorsProofs.

(** ** What the network policies of the API mean *)

(** The number of a port; a named port has none. *)
Definition port_number (p : IntOrString) : option Z :=
  if (ios_Type p =? intstr_Int)%Z then Some (ios_IntVal p) else if (ios_Type p =? intstr_String)%Z then None else Some 0%Z.

(** The protocol is TCP unless it is given; 0 stands for all ports. *)
Definition api_port_allows (port : ApiPort) (pkt : Packet) : Prop :=
  ∃ p n, aport_Port port = Some p ∧ port_number p = Some n ∧
    pkt_proto pkt = (if bool_decide (aport_Protocol port = Some "UDP"%string) then UDP else TCP) ∧ (n = 0 ∨ n = pkt_dport pkt)%Z.

(** The labels of a selector are labels of the pod, in the namespace of the policy. *)
Definition api_selected (ns : string) (selector : ApiSelector) (pod : ApiPod) : Prop :=
  om_Namespace (apod_Meta pod) = ns ∧ asel_MatchLabels selector ⊆ om_Labels (apod_Meta pod).

Definition pod_address (pod : ApiPod) : option IPNet := if bool_decide (apod_PodIP pod = ""%string) then None else GetOneHostSubnet (apod_PodIP pod).

Definition api_peer_allows (k : ApiState) (ns : string) (peer : ApiPeer) (ip : IP) : Prop :=
  match apeer_PodSelector peer, apeer_NamespaceSelector peer, apeer_IPBlock peer with
  | Some selector, _, _ => ∃ key pod n, api_pods k !! key = Some pod ∧ api_selected ns selector pod ∧ pod_address pod = Some n ∧
    net_matches n ip = true
  | None, None, Some block => ∃ n, snd <$> ParseCIDR (aib_CIDR block) = Some n ∧ IPNet_Contains n ip = true ∧
      ∀ e m, e ∈ aib_Except block → snd <$> ParseCIDR e = Some m → IPNet_Contains m ip = false
  | _, _, _ => False
  end.

Definition api_rule_allows (k : ApiState) (ns : string) (direction : MatchType) (rule : ApiRule) (pkt : Packet) : Prop :=
  (arule_Peers rule = [] ∨ ∃ peer, peer ∈ arule_Peers rule ∧ api_peer_allows k ns peer (peer_ip direction pkt)) ∧
  (arule_Ports rule = [] ∨ ∃ port, port ∈ arule_Ports rule ∧ api_port_allows port pkt).

Definition api_rules (direction : MatchType) (policy : ApiPolicy) : list ApiRule :=
  match direction with MatchIngress => apol_Ingress policy | MatchEgress => apol_Egress policy end.

(** The directions of a policy: those it lists; without a list, ingress, and egress
    if there is an egress section. *)
Definition api_affects (direction : MatchType) (policy : ApiPolicy) : Prop :=
  match direction with
  | MatchIngress => "Ingress"%string ∈ apol_PolicyTypes policy ∨ ("Egress"%string ∉ apol_PolicyTypes policy)
  | MatchEgress => "Egress"%string ∈ apol_PolicyTypes policy ∨ (("Ingress"%string ∉ apol_PolicyTypes policy) ∧ apol_Egress policy ≠ [])
  end.

Definition api_restricts (k : ApiState) (direction : MatchType) (pod : ApiPod) (policy : ApiPolicy) : Prop :=
  (∃ key, api_policies k !! key = Some policy) ∧ api_selected (om_Namespace (apol_Meta policy)) (apol_PodSelector policy) pod ∧
  api_affects direction policy.

Definition api_allows (k : ApiState) (direction : MatchType) (pod : ApiPod) (pkt : Packet) : Prop :=
  (∀ policy, ¬ api_restricts k direction pod policy) ∨
  ∃ policy rule, api_restricts k direction pod policy ∧ rule ∈ api_rules direction policy ∧
    api_rule_allows k (om_Namespace (apol_Meta policy)) direction rule pkt.

(** With the exception that policy.proto documents for traffic from the node of
    the pod (see [local_node_traffic]). *)
Definition api_documented (k : ApiState) (direction : MatchType) (pod : ApiPod) (pkt : Packet) : Prop :=
  api_allows k direction pod pkt ∨ local_node_traffic direction (apod_HostIP pod) pkt.

(** ** The conversion keeps it *)

Section meaning.
Context `{RangeOracle}.

Lemma port_proto_allows port pkt : simple_port (portToProto port) → policy_port_allows (portToProto port) pkt ↔ api_port_allows port pkt.
Proof.
  intros (pn & Hpn & Hty & _). unfold policy_port_allows, api_port_allows, portToProto in *. cbn [PP_Port PP_Protocol] in *.
  assert (match (match aport_Protocol port with Some p => protocol_to_proto p | None => ProtoTCP end) with ProtoTCP => TCP | ProtoUDP => UDP end =
    if bool_decide (aport_Protocol port = Some "UDP"%string) then UDP else TCP) as ->.
  { destruct (aport_Protocol port) as [p|]; [|done]. unfold protocol_to_proto. destruct (decide (p = "UDP"%string)) as [->|Hne]; [done|].
    rewrite !bool_decide_eq_false_2 by congruence. done. }
  destruct (aport_Port port) as [p|]; [|done]. cbn [fmap option_fmap option_map] in *. injection Hpn as <-. unfold port_number.
  destruct (ios_Type p =? intstr_Int)%Z eqn:H1; [|destruct (ios_Type p =? intstr_String)%Z eqn:H2; [done|]].
  - split; [intros (q & [= <-] & Hp & Hn); exists p, (ios_IntVal p); by rewrite H1|].
    intros (q & n & [= <-] & Hn & Hp & Hd). rewrite H1 in Hn. injection Hn as <-. by eexists.
  - split; [intros (q & [= <-] & Hp & Hn); exists p, 0%Z; by rewrite H1, H2|].
    intros (q & n & [= <-] & Hn & Hp & Hd). rewrite H1, H2 in Hn. injection Hn as <-. by eexists.
Qed.

Lemma selected_proto ns site selector pod :
  has_labels ns (LS_MatchLabel (labelSelectorToProto site selector)) (podToProto pod) ↔ api_selected ns selector pod.
Proof.
  unfold has_labels, api_selected. cbn [podToProto Pod_Namespace Pod_Label labelSelectorToProto LS_MatchLabel]. by rewrite labels_included.
Qed.

Lemma peer_proto_allows k ns site peer ip : peer_allows (proto_state k) ns (peerToProto site peer) ip ↔ api_peer_allows k ns peer ip.
Proof.
  unfold peer_allows, api_peer_allows, peerToProto. destruct (apeer_PodSelector peer) as [sel|];
    [|destruct (apeer_NamespaceSelector peer); [|destruct (apeer_IPBlock peer) as [block|]]];
    cbn [Peer_Pods Peer_IpBlock].
  - split.
    + intros [(s & key & d & n & [= <-] & Hd & Hl & Hn)|(b & n & [=] & _)]. cbn [proto_state ks_pods] in Hd. rewrite lookup_fmap in Hd.
      apply fmap_Some in Hd as (pod & Hp & ->). exists key, pod, n. split; [done|]. split; [by apply selected_proto in Hl|done].
    + intros (key & pod & n & Hp & Hs & Hn). left. eexists _, key, (podToProto pod), n. split; [done|].
      split; [cbn [proto_state ks_pods]; by rewrite lookup_fmap, Hp|].
      split; [by apply selected_proto|done].
  - split; [|done]. by intros [(? & ? & ? & ? & [=] & _)|(? & ? & [=] & _)].
  - split; [intros [(? & ? & ? & ? & [=] & _)|(b & n & [= <-] & Hrest)]; by exists n|]. intros (n & Hrest). right.
    by exists (mkPeerIPBlock (aib_CIDR block) (aib_Except block)), n.
  - split; [|done]. by intros [(? & ? & ? & ? & [=] & _)|(? & ? & [=] & _)].
Qed.

Lemma rule_proto_allows k ns site direction rule pkt : simple_rule (ruleToProto site rule) →
  rule_allows (proto_state k) ns direction (ruleToProto site rule) pkt ↔ api_rule_allows k ns direction rule pkt.
Proof.
  intros (_ & Hports & _). unfold rule_allows, api_rule_allows, ruleToProto in *. cbn [PR_Peers PR_Port] in *. unfold peersToProto, portsToProto in *.
  rewrite Forall_fmap, Forall_forall in Hports. f_equiv.
  - f_equiv; [by destruct (arule_Peers rule)|]. split.
    + intros (q & Hq & Ha). apply elem_of_lookup_imap in Hq as (j & peer & -> & Hj). exists peer.
      split; [by eapply list_elem_of_lookup_2|by eapply peer_proto_allows].
    + intros (peer & [j Hj]%list_elem_of_lookup & Ha). eexists. split; [eapply elem_of_lookup_imap_2; exact Hj|]. by apply peer_proto_allows.
  - f_equiv; [by destruct (arule_Ports rule)|]. split.
    + intros (q & (port & -> & Hin)%list_elem_of_fmap & Ha). exists port. split; [done|]. apply port_proto_allows; [by apply Hports|done].
    + intros (port & Hin & Ha). exists (portToProto port). split; [by apply list_elem_of_fmap_2|]. apply port_proto_allows; [by apply Hports|done].
Qed.

(** The site of the rules of a direction. *)
Definition rules_site (direction : MatchType) : Z := match direction with MatchIngress => 85 | MatchEgress => 86 end.

Lemma dir_rules_proto direction policy r : r ∈ dir_rules direction (policyToProto policy) ↔
  ∃ i rule, r = ruleToProto [Z.of_nat i; rules_site direction] rule ∧ api_rules direction policy !! i = Some rule.
Proof. destruct direction; apply elem_of_lookup_imap. Qed.

Lemma restricts_proto k direction pod policy : (∃ key, api_policies k !! key = Some policy) →
  restricts (proto_state k) direction (podToProto pod) (policyToProto policy) ↔ api_restricts k direction pod policy.
Proof.
  intros [key Hkey]. unfold restricts, api_restricts. rewrite selects_proto, affects_proto. split.
  - intros (_ & Hs & Ha). split; [by exists key|]. split; [exact Hs|by destruct direction].
  - intros (_ & Hs & Ha). split; [|split; [exact Hs|by destruct direction]]. exists key. cbn [proto_state ks_policies]. by rewrite lookup_fmap, Hkey.
Qed.

Lemma restricts_from k direction pod p : restricts (proto_state k) direction (podToProto pod) p →
  ∃ policy, p = policyToProto policy ∧ api_restricts k direction pod policy.
Proof.
  intros Hr. pose proof Hr as ([key Hkey] & _). cbn [proto_state ks_policies] in Hkey. rewrite lookup_fmap in Hkey.
  apply fmap_Some in Hkey as (policy & Hp & ->). exists policy. split; [done|]. apply restricts_proto; [by exists key|done].
Qed.

(** The converted policies allow what the policies allow. *)
Lemma allows_proto k direction pod pkt : simple_state (proto_state k) →
  k8s_allows (proto_state k) direction (podToProto pod) pkt ↔ api_allows k direction pod pkt.
Proof.
  intros Hsimple.
  assert (∀ policy i rule, (∃ key, api_policies k !! key = Some policy) → api_rules direction policy !! i = Some rule →
    simple_rule (ruleToProto [Z.of_nat i; rules_site direction] rule)) as Hrule.
  { intros policy i rule [key Hkey] Hi. pose proof (ss_rules _ Hsimple key (policyToProto policy)) as Hr.
    rewrite Forall_forall in Hr. apply Hr; [cbn [proto_state ks_policies]; by rewrite lookup_fmap, Hkey|].
    assert (ruleToProto [Z.of_nat i; rules_site direction] rule ∈ dir_rules direction (policyToProto policy)) as Hin
      by (apply dir_rules_proto; by exists i, rule).
    apply elem_of_app. destruct direction; [by left|by right]. }
  unfold k8s_allows, api_allows. split.
  - intros [Hno|(p & r & Hr & Hin & Ha)].
    + left. intros policy Hr. apply (Hno (policyToProto policy)). apply restricts_proto; [apply Hr|done].
    + right. destruct (restricts_from _ _ _ _ Hr) as (policy & -> & Hr'). apply dir_rules_proto in Hin as (i & rule & -> & Hi).
      exists policy, rule. split; [done|]. split; [by eapply list_elem_of_lookup_2|]. eapply rule_proto_allows; [|exact Ha].
      by eapply Hrule; [apply Hr'|].
  - intros [Hno|(policy & rule & Hr & [i Hi]%list_elem_of_lookup & Ha)].
    + left. intros p Hr. destruct (restricts_from _ _ _ _ Hr) as (policy & _ & Hr'). by apply (Hno policy).
    + right. exists (policyToProto policy), (ruleToProto [Z.of_nat i; rules_site direction] rule). split; [apply restricts_proto; [apply Hr|done]|].
      split; [apply dir_rules_proto; by exists i, rule|]. apply rule_proto_allows; [|done]. by eapply Hrule; [apply Hr|].
Qed.
End meaning.

(** ** Events *)

Section events.
Context `{RangeOracle} {EC : Type} (bad : EC).

Definition quiet (pod : ApiPod) : Prop := apod_PodIP pod = ""%string ∨ om_Namespace (apod_Meta pod) = "kube-system"%string.

(** A pod is added before it has an address and keeps one. *)
Definition pod_phase (k : ApiState) (ev : ApiEvent) : Prop :=
  match ev with
  | ApiAdd (ObjPod pod) | ApiUpdate _ (ObjPod pod) =>
    if api_pods k !! meta_name (apod_Meta pod) is Some old then quiet pod → quiet old else quiet pod
  | _ => True
  end.

(** An event after which the cluster is one the stack handles. *)
Definition ok_api_event (k : ApiState) (ev : ApiEvent) : Prop :=
  good_api_event k ev ∧ simple_cluster (proto_state (api_apply k ev)) ∧ pod_phase k ev.

(** The event of a pod at the cache. *)
Lemma pod_watch_ok v k name ns (new : option ApiPod) : store_ok v k → api_ok k → no_slash name → no_slash ns →
  (∀ p, new = Some p → apod_Meta p = mkObjectMeta name ns (om_Labels (apod_Meta p)) ∧
    if api_pods k !! meta_name (apod_Meta p) is Some old then quiet p → quiet old else quiet p) →
  (new = None → is_Some (api_pods k !! meta_name (mkObjectMeta name ns ∅))) →
  let ev := watch_event bad (pod_Key name ns) (v !! pod_Key name ns) (MsgPod ∘ podToProto <$> new) in
  ∀ value diff prev, ev_pod ev = Ok value → ev_prevPod ev = Ok (diff, prev) → ok_pod_change (proto_state k) (ev_type ev) value prev diff.
Proof.
  intros Hv Ha Hname Hns Hnew Hdel ev value diff prev. subst ev. cbn [watch_event ev_pod ev_prevPod ev_type]. rewrite (so_pods _ _ Hv) by done.
  assert (∀ old, api_pods k !! meta_name (mkObjectMeta name ns ∅) = Some old → ks_pods (proto_state k) !! pod_name (podToProto old)
    = Some (podToProto old)) as Hold.
  { intros old Ho. cbn [proto_state ks_pods]. rewrite lookup_fmap. change (pod_name (podToProto old)) with (meta_name (apod_Meta old)).
    rewrite <- (ao_pods _ Ha _ _ Ho), Ho. done. }
  destruct new as [p|].
  - destruct (Hnew p eq_refl) as [Hm Hq]. assert (meta_name (apod_Meta p) = meta_name (mkObjectMeta name ns ∅)) as Hk by (by rewrite Hm).
    rewrite Hk in Hq. cbn [fmap option_fmap option_map compose decode_new as_pod]. intros [= <-].
    destruct (api_pods k !! meta_name (mkObjectMeta name ns ∅)) as [old|] eqn:Ho;
      cbn [fmap option_fmap option_map compose decode_old as_pod]; intros [= <- <-]; cbn [ok_pod_change].
    + split; [by apply Hold|]. split; [|exact Hq]. change (meta_name (apod_Meta p) = meta_name (apod_Meta old)). by rewrite Hk, (ao_pods _ Ha _ _ Ho).
    + split; [|exact Hq]. cbn [proto_state ks_pods]. rewrite lookup_fmap.
      change (pod_name (podToProto p)) with (meta_name (apod_Meta p)). by rewrite Hk, Ho.
  - intros _. destruct (Hdel eq_refl) as [old Ho]. rewrite Ho. cbn [fmap option_fmap option_map compose decode_old as_pod].
    intros [= <- <-]. by apply Hold.
Qed.

Lemma policy_watch_ok v k name ns (new : option ApiPolicy) : store_ok v k → api_ok k → no_slash name → no_slash ns →
  (∀ p, new = Some p → apol_Meta p = mkObjectMeta name ns (om_Labels (apol_Meta p))) →
  (new = None → is_Some (api_policies k !! meta_name (mkObjectMeta name ns ∅))) →
  let ev := watch_event bad (policy_Key name ns) (v !! policy_Key name ns) (MsgPolicy ∘ policyToProto <$> new) in
  ∀ value diff prev, ev_policy ev = Ok value → ev_prevPolicy ev = Ok (diff, prev) → ok_policy_change (proto_state k) (ev_type ev) value prev diff.
Proof.
  intros Hv Ha Hname Hns Hnew Hdel ev value diff prev. subst ev. cbn [watch_event ev_policy ev_prevPolicy ev_type].
  rewrite (so_policies _ _ Hv) by done.
  assert (∀ old, api_policies k !! meta_name (mkObjectMeta name ns ∅) = Some old →
    ks_policies (proto_state k) !! policy_name (policyToProto old) = Some (policyToProto old)) as Hold.
  { intros old Ho. cbn [proto_state ks_policies]. rewrite lookup_fmap. change (policy_name (policyToProto old)) with (meta_name (apol_Meta old)).
    rewrite <- (ao_policies _ Ha _ _ Ho), Ho. done. }
  destruct new as [p|].
  - pose proof (Hnew p eq_refl) as Hm. assert (meta_name (apol_Meta p) = meta_name (mkObjectMeta name ns ∅)) as Hk by (by rewrite Hm).
    cbn [fmap option_fmap option_map compose decode_new as_policy]. intros [= <-].
    destruct (api_policies k !! meta_name (mkObjectMeta name ns ∅)) as [old|] eqn:Ho;
      cbn [fmap option_fmap option_map compose decode_old as_policy]; intros [= <- <-]; cbn [ok_policy_change].
    + split; [by apply Hold|]. change (meta_name (apol_Meta p) = meta_name (apol_Meta old)). by rewrite Hk, (ao_policies _ Ha _ _ Ho).
    + cbn [proto_state ks_policies]. rewrite lookup_fmap. change (policy_name (policyToProto p)) with (meta_name (apol_Meta p)). by rewrite Hk, Ho.
  - intros _. destruct (Hdel eq_refl) as [old Ho]. rewrite Ho. cbn [fmap option_fmap option_map compose decode_old as_policy].
    intros [= <- <-]. by apply Hold.
Qed.

(** What [ok_event] asks of the values of an event. *)
Definition values_ok (s : K8sState) (ev : ChangeEvent EC) : Prop :=
  if ParsePolicyFromKey (ev_key ev) is Some _ then
    ∀ value diff prev, ev_policy ev = Ok value → ev_prevPolicy ev = Ok (diff, prev) → ok_policy_change s (ev_type ev) value prev diff
  else if ParsePodFromKey (ev_key ev) is Some _ then
    ∀ value diff prev, ev_pod ev = Ok value → ev_prevPod ev = Ok (diff, prev) → ok_pod_change s (ev_type ev) value prev diff
  else True.

Lemma put_values_ok v k o key new : store_ok v k → api_ok k → good_object o → pod_phase k (ApiAdd o) → effect (ApiAdd o) = Some (key, new) →
  values_ok (proto_state k) (watch_event bad key (v !! key) new).
Proof.
  intros Hv Ha Hgood Hphase He. unfold values_ok. cbn [watch_event ev_key]. destruct o as [p|p|n|i x]; [..|done];
    destruct Hgood as [Hn Hs]; injection He as <- <-.
  - destruct (pod_Key_parses _ _ Hn Hs) as (-> & -> & _). eapply (pod_watch_ok v k _ _ (Some p));
      [done..|intros q [= <-]; split; [by destruct (apod_Meta p)|exact Hphase]|done].
  - destruct (policy_Key_parses _ _ Hn Hs) as (-> & _). eapply (policy_watch_ok v k _ _ (Some p));
      [done..|intros q [= <-]; by destruct (apol_Meta p)|done].
  - by destruct (namespace_Key_parses _ Hn) as (-> & -> & _).
Qed.

Lemma delete_values_ok v k o key new : store_ok v k → api_ok k → good_object o → exists_in k o → effect (ApiDelete o) = Some (key, new) →
  values_ok (proto_state k) (watch_event bad key (v !! key) new).
Proof.
  intros Hv Ha Hgood Hex He. unfold values_ok. cbn [watch_event ev_key]. destruct o as [p|p|n|i x]; [..|done]; destruct Hgood as [Hn Hs];
    injection He as <- <-.
  - destruct (pod_Key_parses _ _ Hn Hs) as (-> & -> & _). eapply (pod_watch_ok v k _ _ None); [done..|by intros q [=]|done].
  - destruct (policy_Key_parses _ _ Hn Hs) as (-> & _). eapply (policy_watch_ok v k _ _ None); [done..|by intros q [=]|done].
  - by destruct (namespace_Key_parses _ Hn) as (-> & -> & _).
Qed.

(** An event of the API as an event of the data store. *)
Lemma api_event_ok v k ev : store_ok v k → api_ok k → ok_api_event k ev →
  ∃ key new, effect ev = Some (key, new) ∧ apply_change (watch_event bad key (v !! key) new) (proto_state k) = proto_state (api_apply k ev) ∧
    store_ok (partial_alter (λ _, new) key v) (api_apply k ev) ∧ ok_event (proto_state k) (watch_event bad key (v !! key) new).
Proof.
  intros Hv Ha (Hgood & Hsimple & Hphase). destruct (effect_step bad v k ev Hv Ha Hgood) as (key & new & He & Happ & Hv' & _).
  exists key, new. split_and!; [done..|]. split; [by rewrite Happ|]. intros _.
  change (values_ok (proto_state k) (watch_event bad key (v !! key) new)).
  destruct ev as [o|o|old o]; cbn [good_api_event] in Hgood.
  - by apply (put_values_ok v k o).
  - destruct Hgood as [Hgood Hex]. by apply (delete_values_ok v k o).
  - destruct Hgood as [Hgood Hkind]. apply (put_values_ok v k o); [done..| |]; by destruct old, o.
Qed.
End events.

(** ** The run *)

Section run.
Context `{RangeOracle} {MP MO MN : Type} `{!NamedMapping MP Policy, !NamedMapping MO Pod, !NamedMapping MN Namespace}.
Context `{!NamedMappingLaws MP Policy, !NamedMappingLaws MO Pod, !NamedMappingLaws MN Namespace}.
Context {A : Type} `{!AclAgent A, !AclAgentLaws A} `{VppAcl, !VppAclLaws}.
Variable GetIfName : string → string → option string.
Hypothesis Hinj : ∀ ns name ns' name' i, GetIfName ns name = Some i → GetIfName ns' name' = Some i → ns = ns' ∧ name = name'.
Variable arrival : list (option AclCommitError) → list (option AclCommitError).
Hypothesis Harrival : ∀ l, arrival l ≡ₚ l.
Hypothesis Haccepts : accepts A.
Variable hostNetwork : IPNet.
Variable bad : AclCommitError.
Context {S EW : Type} `{!KeyProtoValWriter S EW, !KeyProtoValWriterLaws S EW}.
Hypothesis put_succeeds : ∀ (s : S) key m, (Publish_Put (E := EW) s key m).2 = None.
Hypothesis delete_succeeds : ∀ (s : S) key, ∃ b, (Publish_Delete (E := EW) s key).2 = Ok b.

#[local] Instance run_renderer : PolicyRenderer (option (AclState A)) AclCommitError := acl_renderer GetIfName.
#[local] Instance run_watcher : PolicyCacheWatcher (PolicyProcessor (option (AclState A))) AclCommitError (PolicyCache MP MO MN) :=
  processor_watcher hostNetwork arrival.

Fixpoint ok_api_events (k : ApiState) (evs : list ApiEvent) : Prop :=
  match evs with [] => True | ev :: evs => ok_api_event k ev ∧ ok_api_events (api_apply k ev) evs end.

(** Four identifiers of rule lists for each pod at each event. *)
Fixpoint api_budget (k : ApiState) (evs : list ApiEvent) : nat :=
  match evs with [] => 0 | ev :: evs => 4 * size (api_pods (api_apply k ev)) + api_budget (api_apply k ev) evs end.

Lemma ksr_stack_run evs k s st : store_ok (kv_view s) k → api_ok k → cache_view st.1 = proto_state k → ok_api_events k evs →
  stack_ok GetIfName hostNetwork (api_budget k evs) st →
  ∃ s' st', ksr_run bad (S := S) (EW := EW) (s, st) evs = Some (s', st') ∧ cache_view st'.1 = proto_state (foldl api_apply k evs) ∧
    stack_ok GetIfName hostNetwork 0 st'.
Proof.
  revert k s st. induction evs as [|ev evs IH]; intros k s st Hv Ha Hc; cbn [ok_api_events api_budget foldl]; [intros _ Hst; by exists s, st|].
  intros [Hev Hevs] Hst. destruct (api_event_ok bad (kv_view s) k ev Hv Ha Hev) as (key & new & He & Happ & Hv' & Hok).
  rewrite <- Hc in Hok, Happ. destruct (stack_step GetIfName Hinj arrival Harrival Haccepts hostNetwork st _ (api_budget (api_apply k ev) evs) Hok)
    as (st1 & err & Hup & Hview & Hst1).
  { rewrite Happ. cbn [proto_state ks_pods]. by rewrite map_size_fmap. }
  pose proof (reflect_view put_succeeds delete_succeeds s ev key new He) as Hs.
  destruct (reflect (E := EW) s ev) as [s1 e] eqn:Hr. cbn [fst] in Hs. rewrite <- Hs in Hv'.
  destruct (IH (api_apply k ev) s1 st1 Hv' (api_ok_apply k ev Ha) (eq_trans Hview Happ) Hevs Hst1) as (s' & st' & Hrun & Hrest).
  assert (cache_Update st (watch_event bad key (kv_view s !! key) new) = Some (st1, err)) as Hup' by exact Hup.
  assert (ksr_step bad (S := S) (EW := EW) (s, st) ev = Some (s1, st1)) as Hstep by (unfold ksr_step; cbn [fst snd]; by rewrite Hr, He, Hup').
  exists s', st'. split; [|done]. unfold ksr_run in *. cbn [foldM]. rewrite Hstep. exact Hrun.
Qed.

End run.
