(* ===== verification/KsrStackExamples.v ===== *)
(** * From the API to the ACLs on a concrete cluster

    The objects of the API whose converted forms are those of [PolicyStackExamples],
    an instance of [kubernetes_enforced] on their events, and the ACLs evaluated. *)

From Stdlib Require Import ZArith Lia Ascii String.
From stdpp Require Import prelude strings list gmap.
From S2P Require Import Prelude GoStrings GoErrors GoNet GoText KsrModel Utils Rules AclCache AclCacheProofs AclRenderer AclRendererProofs.
From S2P Require Import Configurator SubtractSubnet ConfiguratorRules RuleIds ConfiguratorProofs ConfiguratorCommit.
From S2P Require Import PolicyCache PolicyCacheEvents PolicyCacheProofs PolicyCacheSelect Processor ProcessorProofs ProcessorExamples.
From S2P Require Import AclSemantics AclPipeline PolicyStack PolicyStackExamples Reflectors ReflectorsProofs KsrStack.

#[local] Existing Instances canonical_order first_match map_store map_store_laws tap_renderer tap_watcher.

Definition app (v : string) : gmap string string := {["app"%string := v]}.

Definition api_allow_db : ApiPolicy :=
  mkApiPolicy (mkObjectMeta "allow-db" "default" ∅) (mkApiSelector (app "web") []) ["Ingress"%string]
    [mkApiRule [mkApiPort (Some "TCP"%string) (Some (mkIntOrString intstr_Int 80 ""))]
       [mkApiPeer (Some (mkApiSelector (app "db") [])) None None; mkApiPeer None None (Some (mkApiIPBlock "10.0.0.0/8" ["10.1.0.0/16"%string]))]] [].

Definition api_example_pod (name ip : string) : ApiPod := mkApiPod (mkObjectMeta name "default" (app name)) ip "192.168.16.1" [].
Definition api_web0 : ApiPod := api_example_pod "web" "".
Definition api_web1 : ApiPod := api_example_pod "web" "10.1.1.2".
Definition api_db0 : ApiPod := api_example_pod "db" "".
Definition api_db1 : ApiPod := api_example_pod "db" "10.1.1.3".

Definition cluster_events : list ApiEvent :=
  [ApiAdd (ObjPolicy api_allow_db); ApiAdd (ObjPod api_web0); ApiAdd (ObjPod api_db0);
   ApiUpdate (ObjPod api_web0) (ObjPod api_web1); ApiUpdate (ObjPod api_db0) (ObjPod api_db1)].

(** ** The hypotheses hold *)

Lemma allow_db_proto : policyToProto api_allow_db = allow_db.
Proof. vm_compute. reflexivity. Qed.

Definition api_example_pods : list ApiPod := [api_web0; api_web1; api_db0; api_db1].

Lemma example_pods_proto : podToProto <$> api_example_pods = example_pods.
Proof. vm_compute. reflexivity. Qed.

Definition api_part (k : ApiState) : Prop :=
  (∀ key p, api_policies k !! key = Some p → key = "default/allow-db"%string ∧ p = api_allow_db) ∧
  ∀ key pod, api_pods k !! key = Some pod → key = meta_name (apod_Meta pod) ∧ pod ∈ api_example_pods.

Lemma api_part_simple k : api_part k → simple_cluster (proto_state k).
Proof.
  intros [Hpol Hpod]. apply example_part_simple. split; intros key x; cbn [proto_state ks_policies ks_pods]; rewrite lookup_fmap.
  - intros (p & [-> ->]%Hpol & ->)%fmap_Some. split; [done|apply allow_db_proto].
  - intros (pod & [-> Hin]%Hpod & ->)%fmap_Some. split; [done|]. rewrite <- example_pods_proto. by apply list_elem_of_fmap_2.
Qed.

Lemma api_part_policy k : api_part k → api_part (api_put (ObjPolicy api_allow_db) k).
Proof.
  intros [Hpol Hpod]. split; [|exact Hpod]. intros key p. cbn [api_put api_policies]. intros [[<- <-]|[_ Hk]]%lookup_insert_Some;
    [done|by apply Hpol].
Qed.

Lemma api_part_pod k pod : pod ∈ api_example_pods → api_part k → api_part (api_put (ObjPod pod) k).
Proof.
  intros Hin [Hpol Hpod]. split; [exact Hpol|]. intros key p. cbn [api_put api_pods]. intros [[<- <-]|[_ Hk]]%lookup_insert_Some;
    [done|by apply Hpod].
Qed.

Lemma cluster_events_ok : ok_api_events (mkApiState ∅ ∅ ∅) cluster_events.
Proof.
  assert (api_part (mkApiState ∅ ∅ ∅)) as H0 by (split; intros key x; cbn; by rewrite lookup_empty).
  assert (api_web0 ∈ api_example_pods ∧ api_web1 ∈ api_example_pods ∧ api_db0 ∈ api_example_pods ∧ api_db1 ∈ api_example_pods)
    as (Hw0 & Hw1 & Hd0 & Hd1)
    by (unfold api_example_pods; rewrite !elem_of_cons; auto 10).
  pose proof (api_part_policy _ H0) as H1. pose proof (api_part_pod _ _ Hw0 H1) as H2. pose proof (api_part_pod _ _ Hd0 H2) as H3.
  pose proof (api_part_pod _ _ Hw1 H3) as H4. pose proof (api_part_pod _ _ Hd1 H4) as H5.
  cbn [ok_api_events cluster_events]. split_and!; [split; [|split; [by apply api_part_simple|]]..|exact I]; try (by repeat split).
  - vm_compute. by left.
  - vm_compute. by left.
  - vm_compute. by left.
  - vm_compute. by left.
Qed.

Lemma cluster_budget : api_budget (mkApiState ∅ ∅ ∅) cluster_events ≤ length random_bytes.
Proof. apply Nat.leb_le. vm_compute. reflexivity. Qed.

Definition final_cluster : ApiState := foldl api_apply (mkApiState ∅ ∅ ∅) cluster_events.

Lemma web_known : api_pods final_cluster !! meta_name (apod_Meta api_web1) = Some api_web1.
Proof. vm_compute. reflexivity. Qed.


(** ** Evaluation *)

(** Connections to port [dport] of the web pod from [src]. *)
Definition web_reachable (src : IP) (dport : Z) : option bool :=
  match ksr_run SendFailed ((∅ : gmap string Message), stack_init false random_bytes ∅) cluster_events with
  | Some (_, (_, [pp])) =>
    if renderers (pp_Configurator pp) is [Some a] then Some (acl_permits (vpp_view (st_agent a) "tap-web").2 (packet_from src dport)) else None
  | _ => None
  end.

Example cluster_evaluates :
  web_reachable [10; 1; 1; 3]%Z 80 = Some true ∧ web_reachable [10; 1; 1; 3]%Z 81 = Some false ∧
  web_reachable [10; 2; 0; 1]%Z 80 = Some true ∧ web_reachable [10; 1; 7; 7]%Z 80 = Some false.
Proof. vm_compute. split_and!; reflexivity. Qed.
