(* ===== verification/KvdbProxy.v ===== *)
(** * plugins/kvdbproxy

    The proxy of the data store that hides the echo of the agent's own writes:
    before a write the CNI server announces the change, and the filter between
    the store and the watcher drops the first change that matches. The
    function [persistChanges] of remote_cni_server.go, which announces and
    writes, is here as well.

    The store is the class [KvsyncDelegate]: a write returns the new store, the
    change events it sends to the watcher, and its result. A write that returns an
    error may still take place: its event comes at any later time ([SLate] below)
    or never. *)

From Stdlib Require Import ZArith Lia Ascii String.
From stdpp Require Import prelude strings list gmap.
From S2P Require Import Prelude GoErrors PolicyCacheEvents.

(** ** The proxy *)

Record ProxyEvent (V : Type) := mkProxyEvent { pe_key : string; pe_type : ChangeType; pe_value : option V }.
Arguments mkProxyEvent {V} _ _ _.
Arguments pe_key {V} _.
Arguments pe_type {V} _.
Arguments pe_value {V} _.

(** The lock makes the methods and the body of the filter atomic. *)
Record ProxyPlugin := mkProxyPlugin { ignoreList : gmap string ChangeType }.

Definition proxy_Init : ProxyPlugin := mkProxyPlugin ∅.
Definition AddIgnoreEntry (plugin : ProxyPlugin) (key : string) (op : ChangeType) : ProxyPlugin :=
  mkProxyPlugin (<[key := op]> (ignoreList plugin)).
Definition DelIgnoreEntry (plugin : ProxyPlugin) (key : string) : ProxyPlugin :=
  mkProxyPlugin (delete key (ignoreList plugin)).

(** One round of the goroutine of [Watch]: what is passed on to the watcher. *)
Definition filter_change {V} (plugin : ProxyPlugin) (m : ProxyEvent V) : ProxyPlugin * list (ProxyEvent V) :=
  match ignoreList plugin !! pe_key m with
  | Some op =>
    if bool_decide (op = pe_type m) then (mkProxyPlugin (delete (pe_key m) (ignoreList plugin)), [])
    else (plugin, [m])
  | None => (plugin, [m])
  end.

Class KvsyncDelegate (S E V : Type) := {
  KVDB_Put : S → string → V → S * list (ProxyEvent V) * option E;
  KVDB_Delete : S → string → S * list (ProxyEvent V) * result E bool
}.

(** A successful write sends one change to the watcher, the removal of a missing
    key sends none; a write that fails has sent none when it returns. *)
Class KvsyncDelegateLaws (S E V : Type) `{!KvsyncDelegate S E V} : Prop := {
  kvdb_put s key v s' evs r : KVDB_Put s key v = (s', evs, r) →
    evs = match r with None => [mkProxyEvent key ChangePut (Some v)] | Some _ => [] end;
  kvdb_delete s key s' evs r : KVDB_Delete s key = (s', evs, r) →
    evs = match r with Ok true => [mkProxyEvent key ChangeDelete None] | _ => [] end
}.

(** ** [persistChanges] *)

Section persist.
Context `{RangeOracle} {S E V : Type} `{!KvsyncDelegate S E V}.

(** The proxy, the store and the changes the store has sent to the proxy. *)
Record ProxySys := mkProxySys { sys_plugin : ProxyPlugin; sys_store : S; sys_chan : list (ProxyEvent V) }.

Definition proxy_AddIgnoreEntry (st : ProxySys) (key : string) (op : ChangeType) : ProxySys :=
  mkProxySys (AddIgnoreEntry (sys_plugin st) key op) (sys_store st) (sys_chan st).

Definition proxy_Put (st : ProxySys) (key : string) (data : V) : ProxySys * option E :=
  let '(s, evs, err) := KVDB_Put (sys_store st) key data in
  (mkProxySys (sys_plugin st) s (sys_chan st ++ evs), err).

Definition proxy_Delete (st : ProxySys) (key : string) : ProxySys * result E bool :=
  let '(s, evs, r) := KVDB_Delete (sys_store st) key in
  (mkProxySys (sys_plugin st) s (sys_chan st ++ evs), r).

Fixpoint persist_removed (st : ProxySys) (removedKeys : list string) : ProxySys * option E :=
  match removedKeys with
  | [] => (st, None)
  | key :: removedKeys =>
    match proxy_Delete (proxy_AddIgnoreEntry st key ChangeDelete) key with
    | (st, Err err) => (st, Some err)
    | (st, Ok _) => persist_removed st removedKeys
    end
  end.

Fixpoint persist_puts (st : ProxySys) (putChanges : list (string * V)) : ProxySys * option E :=
  match putChanges with
  | [] => (st, None)
  | (k, v) :: putChanges =>
    match proxy_Put (proxy_AddIgnoreEntry st k ChangePut) k v with
    | (st, Some err) => (st, Some err)
    | (st, None) => persist_puts st putChanges
    end
  end.

Definition persistChanges (st : ProxySys) (removedKeys : list string) (putChanges : gmap string V) : ProxySys * option E :=
  match persist_removed st removedKeys with
  | (st, Some err) => (st, Some err)
  | (st, None) => persist_puts st (go_range [91]%Z putChanges)
  end.

End persist.

Arguments ProxySys S V : clear implicits.
Arguments mkProxySys {S V} _ _ _.

(** ** Interleavings

    [persistChanges] as a thread: each call to the proxy is a step of its own,
    between any two of them the filter and other writers of the store may run. *)

Section interleave.
Context `{RangeOracle} {S E V : Type} `{!KvsyncDelegate S E V}.

Inductive Write := WDelete (key : string) | WPut (key : string) (v : V).
Definition write_key (w : Write) : string := match w with WDelete key | WPut key _ => key end.
Definition write_op (w : Write) : ChangeType := match w with WDelete _ => ChangeDelete | WPut _ _ => ChangePut end.

(** The change a write sends. *)
Definition write_event (w : Write) : ProxyEvent V :=
  match w with WDelete key => mkProxyEvent key ChangeDelete None | WPut key v => mkProxyEvent key ChangePut (Some v) end.

(** Before the announcement of a write, before the write, at the end; [lost] is
    the write that failed, as long as its change may still come. *)
Inductive PersistThread :=
  | ThAnnounce (w : Write) (rest : list Write)
  | ThWrite (w : Write) (rest : list Write)
  | ThDone (err : option E) (lost : option Write).

Definition thread_begin (ws : list Write) : PersistThread :=
  match ws with [] => ThDone None None | w :: ws => ThAnnounce w ws end.

Definition do_write (st : ProxySys S V) (w : Write) : ProxySys S V * option E :=
  match w with
  | WDelete key => let '(st, r) := proxy_Delete (E := E) st key in (st, match r with Ok _ => None | Err err => Some err end)
  | WPut key v => proxy_Put st key v
  end.

Definition thread_step (c : ProxySys S V * PersistThread) : ProxySys S V * PersistThread :=
  match c with
  | (st, ThAnnounce w rest) => (proxy_AddIgnoreEntry st (write_key w) (write_op w), ThWrite w rest)
  | (st, ThWrite w rest) => let '(st, err) := do_write st w in (st, match err with Some _ => ThDone err (Some w) | None => thread_begin rest end)
  | (st, ThDone err lost) => (st, ThDone err lost)
  end.

Definition persist_script (removedKeys : list string) (putChanges : gmap string V) : list Write :=
  (WDelete <$> removedKeys) ++ ((λ '(k, v), WPut k v) <$> go_range [91]%Z putChanges).

(** The choices of the scheduler: a step of the thread, a write of somebody else
    (with the store after it), the late effect of a failed write, the filter. *)
Inductive Sched := SThread | SExternal (s : S) (ev : ProxyEvent V) | SLate (s : S) | SFilter.

Record ProxyWorld := mkProxyWorld { pw_sys : ProxySys S V; pw_thread : PersistThread; pw_out : list (ProxyEvent V) }.

Definition sched_step (w : ProxyWorld) (c : Sched) : ProxyWorld :=
  let st := pw_sys w in
  match c with
  | SThread => let '(st, th) := thread_step (st, pw_thread w) in mkProxyWorld st th (pw_out w)
  | SExternal s ev => mkProxyWorld (mkProxySys (sys_plugin st) s (sys_chan st ++ [ev])) (pw_thread w) (pw_out w)
  | SLate s =>
    match pw_thread w with
    | ThDone err (Some x) =>
      mkProxyWorld (mkProxySys (sys_plugin st) s (sys_chan st ++ [write_event x])) (ThDone err None) (pw_out w)
    | _ => w
    end
  | SFilter =>
    match sys_chan st with
    | [] => w
    | m :: chan =>
      let '(p, out) := filter_change (sys_plugin st) m in
      mkProxyWorld (mkProxySys p (sys_store st) chan) (pw_thread w) (pw_out w ++ out)
    end
  end.

Definition externals (sched : list Sched) : list (ProxyEvent V) :=
  omap (λ c, match c with SExternal _ ev => Some ev | _ => None end) sched.

(** Nobody writes. *)
Definition quiet (sched : list Sched) : Prop :=
  Forall (λ c, match c with SThread | SFilter => True | _ => False end) sched.

(** The thread without interruption is [persistChanges]. *)
Lemma thread_done n st err lost : Nat.iter n thread_step (st, ThDone err lost) = (st, ThDone err lost).
Proof. induction n as [|n IH]; [done|]. simpl. by rewrite IH. Qed.

Lemma thread_two st w rest n :
  Nat.iter (Datatypes.S (Datatypes.S n)) thread_step (st, ThAnnounce w rest) =
  let '(st, err) := do_write (proxy_AddIgnoreEntry st (write_key w) (write_op w)) w in
  Nat.iter n thread_step (st, match err with Some _ => ThDone err (Some w) | None => thread_begin rest end).
Proof. rewrite !Nat.iter_succ_r. cbn [thread_step]. destruct (do_write _ w) as [st' err]. done. Qed.

(** A state of the thread at the end. *)
Definition ended (c : ProxySys S V * PersistThread) (r : ProxySys S V * option E) : Prop :=
  c.1 = r.1 ∧ ∃ lost, c.2 = ThDone r.2 lost.

Lemma puts_thread puts st :
  ended (Nat.iter (2 * length puts) thread_step (st, thread_begin ((λ '(k, v), WPut k v) <$> puts))) (persist_puts (E := E) st puts).
Proof.
  revert st. induction puts as [|[k v] puts IH]; intros st; [by split; [|eexists]|].
  replace (2 * length ((k, v) :: puts)) with (Datatypes.S (Datatypes.S (2 * length puts))) by (simpl; lia).
  cbn [fmap list_fmap thread_begin]. rewrite thread_two. cbn [write_key write_op do_write persist_puts].
  destruct (proxy_Put _ k v) as [st' [err|]]; [rewrite thread_done; by split; [|eexists]|apply IH].
Qed.

Lemma persist_thread removedKeys putChanges st :
  ended (Nat.iter (2 * length (persist_script removedKeys putChanges)) thread_step (st, thread_begin (persist_script removedKeys putChanges)))
    (persistChanges (E := E) st removedKeys putChanges).
Proof.
  unfold persist_script, persistChanges. revert st. induction removedKeys as [|key keys IH]; intros st.
  - cbn [fmap list_fmap app persist_removed]. rewrite length_fmap. apply puts_thread.
  - cbn [fmap list_fmap app length]. rewrite Nat.mul_succ_r, Nat.add_comm. cbn [Nat.add].
    cbn [fmap list_fmap app thread_begin]. rewrite thread_two. cbn [write_key write_op do_write persist_removed].
    destruct (proxy_Delete _ key) as [st' [b|err]]; [apply IH|rewrite thread_done; by split; [|eexists]].
Qed.

(** *** Invariant

    [K] are the keys the plugin writes itself; the events of other writers have
    other keys. *)

Context `{!KvsyncDelegateLaws S E V}.
Variable K : gset string.

Definition own (ev : ProxyEvent V) : Prop := pe_key ev ∈ K.
Definition foreign (ev : ProxyEvent V) : Prop := pe_key ev ∉ K.
Definition own_keys (chan : list (ProxyEvent V)) : list string := pe_key <$> filter own chan.

(** The writes whose change may still come. *)
Definition thread_todo (th : PersistThread) : list Write :=
  match th with ThAnnounce w rest | ThWrite w rest => w :: rest | ThDone _ (Some w) => [w] | ThDone _ None => [] end.

Record proxy_inv (w : ProxyWorld) : Prop := {
  pi_entries : ∀ key, is_Some (ignoreList (sys_plugin (pw_sys w)) !! key) → key ∈ K;
  pi_announced : ∀ ev, ev ∈ sys_chan (pw_sys w) → own ev → ignoreList (sys_plugin (pw_sys w)) !! pe_key ev = Some (pe_type ev);
  pi_once : NoDup (own_keys (sys_chan (pw_sys w)) ++ (write_key <$> thread_todo (pw_thread w)));
  pi_own : Forall (λ x, write_key x ∈ K) (thread_todo (pw_thread w));
  pi_write : match pw_thread w with
             | ThWrite x _ | ThDone _ (Some x) => ignoreList (sys_plugin (pw_sys w)) !! write_key x = Some (write_op x)
             | _ => True
             end
}.

Lemma elem_of_own_keys ev chan : ev ∈ chan → own ev → pe_key ev ∈ own_keys chan.
Proof. intros. apply list_elem_of_fmap. exists ev. split; [done|]. by apply list_elem_of_filter. Qed.

Lemma own_keys_app c c' : own_keys (c ++ c') = own_keys c ++ own_keys c'.
Proof. unfold own_keys. by rewrite filter_app, fmap_app. Qed.

Lemma do_write_emits st x st' err : do_write st x = (st', err) →
  sys_plugin st' = sys_plugin st ∧
  ∃ evs, sys_chan st' = sys_chan st ++ evs ∧ (evs = [] ∨ (evs = [write_event x] ∧ err = None)).
Proof.
  destruct x as [key|key v]; unfold do_write, proxy_Delete, proxy_Put.
  - destruct (KVDB_Delete (sys_store st) key) as [[s evs] r] eqn:Hd. intros [= <- <-]. split; [done|]. exists evs. split; [done|].
    rewrite (kvdb_delete _ _ _ _ _ Hd). destruct r as [[]|]; [by right|by left..].
  - destruct (KVDB_Put (sys_store st) key v) as [[s evs] r] eqn:Hd. intros [= <- <-]. split; [done|]. exists evs. split; [done|].
    rewrite (kvdb_put _ _ _ _ _ _ Hd). destruct r; [by left|by right].
Qed.

Lemma write_event_key x : pe_key (write_event x) = write_key x ∧ pe_type (write_event x) = write_op x.
Proof. by destruct x. Qed.

Lemma announce_inv st x rest out : proxy_inv (mkProxyWorld st (ThAnnounce x rest) out) →
  proxy_inv (mkProxyWorld (proxy_AddIgnoreEntry st (write_key x) (write_op x)) (ThWrite x rest) out).
Proof.
  intros [Hk Ha Ho Hw _]. cbn [pw_sys pw_thread thread_todo] in *. split;
    cbn [pw_sys pw_thread thread_todo proxy_AddIgnoreEntry sys_plugin sys_chan AddIgnoreEntry ignoreList].
  - intros key. destruct (decide (key = write_key x)) as [->|Hne]; [intros _; by apply Forall_inv in Hw|].
    rewrite lookup_insert_ne by done. apply Hk.
  - intros ev Hev Hown. rewrite lookup_insert_ne; [by apply Ha|]. intros He.
    apply NoDup_app in Ho as (_ & Hd & _). apply (Hd (pe_key ev)); [by apply elem_of_own_keys|]. rewrite <-He. by left.
  - done.
  - done.
  - apply lookup_insert_eq.
Qed.

(** The change of an announced write is sent, or not. *)
Lemma emit_inv (st st' : ProxySys S V) th th' x rest out evs : proxy_inv (mkProxyWorld st th out) →
  thread_todo th = x :: rest → ignoreList (sys_plugin st) !! write_key x = Some (write_op x) →
  sys_plugin st' = sys_plugin st → sys_chan st' = sys_chan st ++ evs → evs = [] ∨ evs = [write_event x] →
  th' = thread_begin rest ∨ (rest = [] ∧ ∃ err, th' = ThDone err None) → proxy_inv (mkProxyWorld st' th' out).
Proof.
  intros [Hk Ha Ho Hw _] Htodo Hx Hp Hc He Hth. cbn [pw_sys pw_thread] in *. rewrite Htodo in Ho, Hw.
  destruct (write_event_key x) as [Hkey Hop].
  assert (thread_todo th' = rest) as Htodo' by (destruct Hth as [->|[-> [err ->]]]; [by destruct rest|done]).
  split; cbn [pw_sys pw_thread]; rewrite ?Hp, ?Hc, ?Htodo'.
  - done.
  - intros ev [Hev|Hev]%elem_of_app Hown; [by apply Ha|]. destruct He as [->| ->]; [by apply elem_of_nil in Hev|].
    apply list_elem_of_singleton in Hev as ->. by rewrite Hkey, Hop.
  - rewrite own_keys_app. destruct He as [->| ->].
    + cbn [own_keys fmap list_fmap]. rewrite app_nil_r. cbn [fmap list_fmap] in Ho.
      apply (NoDup_app (own_keys (sys_chan st)) _) in Ho as (? & Hd' & Hr%NoDup_cons). apply NoDup_app. split_and!; [done| |by destruct Hr].
      intros k Hin Hin'. apply (Hd' k Hin). by right.
    + assert (own_keys [write_event x] = [write_key x]) as ->.
      { unfold own_keys. rewrite filter_cons_True; [cbn; by rewrite Hkey|]. unfold own. rewrite Hkey. by apply Forall_inv in Hw. }
      by rewrite <-app_assoc.
  - by apply Forall_inv_tail in Hw.
  - destruct Hth as [->|[_ [err ->]]]; [by destruct rest|done].
Qed.

Lemma write_inv st x rest out st' err : proxy_inv (mkProxyWorld st (ThWrite x rest) out) → do_write st x = (st', err) →
  proxy_inv (mkProxyWorld st' (match err with Some _ => ThDone err (Some x) | None => thread_begin rest end) out).
Proof.
  intros Hinv Hd. destruct (do_write_emits st x st' err Hd) as (Hp & evs & Hc & Hevs). destruct err as [e|].
  - destruct Hevs as [->|[_ He]]; [|done]. rewrite app_nil_r in Hc. destruct Hinv as [Hk Ha Ho Hw Hx].
    cbn [pw_sys pw_thread thread_todo] in *. split; cbn [pw_sys pw_thread thread_todo]; rewrite ?Hp, ?Hc; [done|done| | |done].
    + apply NoDup_app in Ho as (Hc' & Hd' & _). apply NoDup_app. split_and!; [done| |apply NoDup_singleton].
      intros k Hin ->%list_elem_of_singleton. apply (Hd' _ Hin). by left.
    + constructor; [by apply Forall_inv in Hw|constructor].
  - eapply (emit_inv st st' (ThWrite x rest)); [done|done|apply Hinv|done|done| |by left].
    destruct Hevs as [?|[? _]]; [by left|by right].
Qed.

Lemma filter_own (st : ProxySys S V) (m : ProxyEvent V) : ignoreList (sys_plugin st) !! pe_key m = Some (pe_type m) →
  filter_change (sys_plugin st) m = (mkProxyPlugin (delete (pe_key m) (ignoreList (sys_plugin st))), []).
Proof. intros Hm. unfold filter_change. by rewrite Hm, bool_decide_true. Qed.

(** The filter drops exactly the changes of own keys. *)
Lemma filter_inv w m chan : proxy_inv w → sys_chan (pw_sys w) = m :: chan →
  proxy_inv (sched_step w SFilter) ∧ sys_chan (pw_sys (sched_step w SFilter)) = chan ∧
  pw_out (sched_step w SFilter) = pw_out w ++ (if decide (own m) then [] else [m]).
Proof.
  intros [Hk Ha Ho Hw Hx] Hc. cbn [sched_step]. rewrite Hc. rewrite Hc in Ha, Ho. destruct (decide (own m)) as [Hm|Hm].
  - assert (own_keys (m :: chan) = pe_key m :: own_keys chan) as Hcons by (unfold own_keys; by rewrite filter_cons_True).
    rewrite Hcons in Ho. cbn [app] in Ho. apply NoDup_cons in Ho as [Hnew Ho]. apply not_elem_of_app in Hnew as [Hnc Hnt].
    rewrite (filter_own _ m) by (apply Ha; [by left|done]). split; [|done].
    split; cbn [pw_sys pw_thread sys_plugin sys_chan ignoreList]; [| | done | done |].
    + intros key [op [_ Hop]%lookup_delete_Some]. apply Hk. by exists op.
    + intros ev Hev Hown. rewrite lookup_delete_ne; [apply Ha; [by right|done]|]. intros He. apply Hnc. rewrite He. by apply elem_of_own_keys.
    + destruct (pw_thread w) as [|x rest|err [x|]]; [done| | |done];
        (rewrite lookup_delete_ne; [done|]; intros He; apply Hnt; rewrite He; by left).
  - assert (filter_change (sys_plugin (pw_sys w)) m = (sys_plugin (pw_sys w), [m])) as ->.
    { unfold filter_change. destruct (ignoreList _ !! pe_key m) as [op|] eqn:Hi; [|done]. destruct Hm. apply Hk. by exists op. }
    split; [|done]. assert (own_keys (m :: chan) = own_keys chan) as Hcons by (unfold own_keys; by rewrite filter_cons_False).
    rewrite Hcons in Ho. split; cbn [pw_sys pw_thread sys_plugin sys_chan ignoreList]; [done| |done..].
    intros ev Hev. apply Ha. by right.
Qed.

(** What has been passed on, and what is still to be passed on. *)
Definition passed (w : ProxyWorld) : list (ProxyEvent V) := pw_out w ++ filter foreign (sys_chan (pw_sys w)).

Lemma thread_chan st th : ∃ evs, sys_chan (thread_step (st, th)).1 = sys_chan st ++ evs ∧
  Forall (λ ev, ∃ x, x ∈ thread_todo th ∧ pe_key ev = write_key x) evs.
Proof.
  destruct th as [x rest|x rest|err lost]; cbn [thread_step]; [exists []; by rewrite app_nil_r| |exists []; by rewrite app_nil_r].
  destruct (do_write st x) as [st' err] eqn:Hd. destruct (do_write_emits st x st' err Hd) as (_ & evs & Hc & Hevs).
  exists evs. split; [done|]. destruct Hevs as [->|[-> _]]; [done|]. constructor; [|done]. exists x. split; [by left|].
  by destruct (write_event_key x).
Qed.

Lemma late_inv w s : proxy_inv w →
  proxy_inv (sched_step w (SLate s)) ∧ passed (sched_step w (SLate s)) = passed w.
Proof.
  intros Hinv. destruct w as [st [x rest|x rest|err [x|]] out]; cbn [sched_step pw_thread]; try done. split.
  - eapply (emit_inv st _ (ThDone err (Some x)) _ x []); [done|done|apply Hinv|done|done|by right|]. right. split; [done|by eexists].
  - unfold passed. cbn [pw_sys sys_chan pw_out]. rewrite filter_app, (filter_cons_False _ (write_event x) []); [by rewrite app_nil_r|].
    intros Hf. apply Hf. destruct (write_event_key x) as [-> _]. pose proof (pi_own _ Hinv) as Hw. by apply Forall_inv in Hw.
Qed.

Lemma sched_step_inv w c : proxy_inv w → (∀ s ev, c = SExternal s ev → foreign ev) →
  proxy_inv (sched_step w c) ∧ passed (sched_step w c) = passed w ++ externals [c].
Proof.
  intros Hinv Hext. destruct c as [|s ev|s|].
  - split.
    + destruct w as [st [x rest|x rest|err lost] out]; cbn [sched_step pw_sys pw_thread thread_step pw_out]; [by apply announce_inv| |done].
      destruct (do_write st x) as [st' err] eqn:Hd. by apply (write_inv st x rest out st' err).
    + cbn [externals omap list_omap]. rewrite app_nil_r. destruct (thread_chan (pw_sys w) (pw_thread w)) as (evs & Hc & Hevs).
      cbn [sched_step]. destruct (thread_step (pw_sys w, pw_thread w)) as [st th]. unfold passed. cbn [pw_sys pw_out fst] in *.
      rewrite Hc, filter_app. assert (filter foreign evs = []) as ->; [|by rewrite app_nil_r].
      apply elem_of_nil_inv. intros ev [Hf Hin]%list_elem_of_filter. rewrite Forall_forall in Hevs.
      destruct (Hevs ev Hin) as (x & Hx & He). apply Hf. rewrite He.
      pose proof (pi_own _ Hinv) as Hw. rewrite Forall_forall in Hw. by apply Hw.
  - destruct Hinv as [Hk Ha Ho Hw Hx]. pose proof (Hext s ev eq_refl) as Hf. split.
    + split; cbn [sched_step pw_sys pw_thread sys_plugin sys_chan]; [done| | |done..].
      * intros e [Hin| ->%list_elem_of_singleton]%elem_of_app Hown; [by apply Ha|done].
      * rewrite own_keys_app. assert (own_keys [ev] = []) as -> by (unfold own_keys; by rewrite filter_cons_False). by rewrite app_nil_r.
    + unfold passed. cbn [sched_step pw_sys sys_chan pw_out externals omap list_omap].
      by rewrite filter_app, (filter_cons_True _ ev []), app_assoc.
  - cbn [externals omap list_omap]. rewrite app_nil_r. by apply late_inv.
  - cbn [externals omap list_omap]. rewrite app_nil_r. destruct (sys_chan (pw_sys w)) as [|m chan] eqn:Hc; [cbn [sched_step]; by rewrite Hc|].
    destruct (filter_inv w m chan Hinv Hc) as (Hi & Hc' & Hout). split; [done|]. unfold passed. rewrite Hout, Hc', Hc, <-app_assoc. f_equal.
    destruct (decide (own m)) as [Hm|Hm]; [by rewrite filter_cons_False by (intros Hf; by apply Hf)|by rewrite filter_cons_True].
Qed.

Lemma sched_run_inv w sched : proxy_inv w → Forall foreign (externals sched) →
  proxy_inv (foldl sched_step w sched) ∧ passed (foldl sched_step w sched) = passed w ++ externals sched.
Proof.
  revert w. induction sched as [|c sched IH]; intros w Hinv Hf; [by rewrite app_nil_r|].
  assert (externals (c :: sched) = externals [c] ++ externals sched) as Hcons by (by destruct c).
  rewrite Hcons in Hf |- *. apply Forall_app in Hf as [Hc Hf].
  destruct (sched_step_inv w c Hinv) as [Hi Hp]; [intros s ev ->; by apply Forall_inv in Hc|].
  destruct (IH _ Hi Hf) as [Hi' Hp']. split; [done|]. cbn [foldl]. by rewrite Hp', Hp, app_assoc.
Qed.

(** *** Delivery *)

(** Steps the thread still has to do. *)
Definition thread_left (th : PersistThread) : nat :=
  match th with ThAnnounce _ rest => 2 + 2 * length rest | ThWrite _ rest => 1 + 2 * length rest | ThDone _ _ => 0 end.

Definition is_thread (c : Sched) : bool := match c with SThread => true | _ => false end.
Definition is_filter (c : Sched) : bool := match c with SFilter => true | _ => false end.
Definition turns (f : Sched → bool) (sched : list Sched) : nat := length (List.filter f sched).

Lemma begin_left ws : thread_left (thread_begin ws) = 2 * length ws.
Proof. destruct ws; simpl; lia. Qed.

Lemma step_left w c : thread_left (pw_thread (sched_step w c)) ≤ thread_left (pw_thread w) - (if is_thread c then 1 else 0).
Proof.
  destruct c as [|s ev|s|]; cbn [sched_step is_thread pw_thread]; [|lia| |].
  - destruct (pw_thread w) as [x rest|x rest|err lost]; cbn [thread_step thread_left]; [simpl; lia| |simpl; lia].
    destruct (do_write (pw_sys w) x) as [st' [e|]]; cbn [pw_thread thread_left]; [lia|rewrite begin_left; lia].
  - destruct (pw_thread w) as [x rest|x rest|err [x|]] eqn:Hth; cbn [pw_thread thread_left]; rewrite ?Hth; simpl; lia.
  - destruct (sys_chan (pw_sys w)) as [|m chan]; [lia|]. destruct (filter_change _ m). cbn [pw_thread]. lia.
Qed.

Lemma run_left w sched : thread_left (pw_thread (foldl sched_step w sched)) ≤ thread_left (pw_thread w) - turns is_thread sched.
Proof.
  revert w. induction sched as [|c sched IH]; intros w; [unfold turns; simpl; lia|]. cbn [foldl].
  pose proof (IH (sched_step w c)). pose proof (step_left w c). unfold turns in *. cbn [List.filter]. destruct (is_thread c); simpl; lia.
Qed.

Lemma thread_left_done th : thread_left th = 0 → ∃ err lost, th = ThDone err lost.
Proof. destruct th; simpl; [lia|lia|by eexists _, _]. Qed.

(** Once the thread is done and nobody else writes, the filter empties the channel. *)
Lemma drain w sched err lost : pw_thread w = ThDone err lost → quiet sched → length (sys_chan (pw_sys w)) ≤ turns is_filter sched →
  sys_chan (pw_sys (foldl sched_step w sched)) = [].
Proof.
  revert w. induction sched as [|c sched IH]; intros w Hth Hq Hlen.
  - unfold turns in Hlen. cbn [List.filter length] in Hlen. cbn [foldl]. apply nil_length_inv. lia.
  - cbn [foldl]. unfold turns in Hlen. cbn [List.filter] in Hlen.
    apply Forall_cons in Hq as [Hqc Hq]. destruct c as [|s ev|s|]; [|done..|]; cbn [is_filter] in Hlen.
    + apply IH; [cbn [sched_step]; by rewrite Hth|done|]. cbn [sched_step]. by rewrite Hth.
    + cbn [sched_step]. destruct (sys_chan (pw_sys w)) as [|m chan] eqn:Hc; [apply IH; [done|done|rewrite Hc; simpl; lia]|].
      destruct (filter_change (sys_plugin (pw_sys w)) m) as [p out]. apply IH; [done|done|]. cbn [pw_sys sys_chan]. simpl in Hlen. unfold turns. lia.
Qed.

Lemma filter_foreign_all chan : Forall foreign chan → filter foreign chan = chan.
Proof. induction 1 as [|ev chan Hev _ IH]; [done|]. by rewrite filter_cons_True, IH. Qed.

Lemma script_keys removedKeys putChanges : NoDup removedKeys → (∀ key, key ∈ removedKeys → putChanges !! key = None) →
  NoDup (write_key <$> persist_script removedKeys putChanges).
Proof.
  intros Hnd Hdis. unfold persist_script. rewrite fmap_app, <-!list_fmap_compose.
  assert (write_key ∘ WDelete <$> removedKeys = removedKeys) as -> by (apply list_fmap_id).
  assert (write_key ∘ (λ '(k, v), WPut k v) <$> go_range [91]%Z putChanges = (go_range [91]%Z putChanges).*1) as ->.
  { apply list_fmap_ext. by intros ? [] ?. }
  apply NoDup_app. split_and!; [done| |].
  - intros key Hin Hk. apply list_elem_of_fmap in Hk as ([k v] & Hk & Hg). cbn in Hk. subst key. apply go_range_lookup in Hg.
    by rewrite (Hdis k Hin) in Hg.
  - rewrite (go_range_perm [91]%Z putChanges). apply NoDup_fst_map_to_list.
Qed.

(** The server writes keys of its own, each once, and all earlier changes of
    these keys have been seen. *)
Record good_start (st : ProxySys S V) (removedKeys : list string) (putChanges : gmap string V) : Prop := {
  gs_entries : ∀ key, is_Some (ignoreList (sys_plugin st) !! key) → key ∈ K;
  gs_chan : Forall foreign (sys_chan st);
  gs_once : NoDup removedKeys;
  gs_removed : ∀ key, key ∈ removedKeys → key ∈ K ∧ putChanges !! key = None;
  gs_puts : ∀ key, is_Some (putChanges !! key) → key ∈ K
}.

Lemma start_inv (st : ProxySys S V) removedKeys putChanges : good_start st removedKeys putChanges →
  proxy_inv (mkProxyWorld st (thread_begin (persist_script removedKeys putChanges)) []).
Proof.
  intros [Hk Hc Hnd Hrem Hput]. set (script := persist_script removedKeys putChanges).
  assert (own_keys (sys_chan st) = []) as Hnone.
  { unfold own_keys. apply elem_of_nil_inv. intros k ([e] & _ & [Ho Hin]%list_elem_of_filter)%list_elem_of_fmap.
    rewrite Forall_forall in Hc. exact (Hc _ Hin Ho). }
  assert (thread_todo (thread_begin script) = script) as Htodo by (by destruct script).
  split; cbn [pw_sys pw_thread]; [done| |rewrite Hnone, Htodo; apply script_keys;
    [done|intros k Hin; by destruct (Hrem k Hin)]|rewrite Htodo|by destruct script].
  - intros ev Hin Ho. rewrite Forall_forall in Hc. destruct (Hc ev Hin Ho).
  - apply Forall_app. split; apply Forall_fmap, Forall_forall; [intros k Hin; by destruct (Hrem k Hin)|].
    intros [k v] Hg%go_range_lookup. cbn. apply Hput. by exists v.
Qed.

Lemma passed_start (st : ProxySys S V) th : Forall foreign (sys_chan st) → passed (mkProxyWorld st th []) = sys_chan st.
Proof. intros Hc. unfold passed. cbn [pw_out pw_sys app]. by apply filter_foreign_all. Qed.

Lemma quiet_externals sched : quiet sched → externals sched = [].
Proof. induction 1 as [|c sched Hc _ IH]; [done|]. unfold externals in *. destruct c; cbn; done. Qed.



End interleave.

(** ** Examples *)

#[local] Existing Instance canonical_order.

(** A store with a map of values. Writes below "readonly" fail. *)
#[local] Instance map_kvsync : KvsyncDelegate (gmap string string) string string := {|
  KVDB_Put s key v :=
    if String.prefix "readonly" key then (s, [], Some "failed"%string) else (<[key := v]> s, [mkProxyEvent key ChangePut (Some v)], None);
  KVDB_Delete s key :=
    match s !! key with
    | Some _ => (delete key s, [mkProxyEvent key ChangeDelete None], Ok true)
    | None => (s, [], Ok false)
    end
|}.

#[local] Instance map_kvsync_laws : KvsyncDelegateLaws (gmap string string) string string.
Proof.
  split; cbn.
  - intros s key v s' evs r. destruct (String.prefix _ key); by intros [= <- <- <-].
  - intros s key s' evs r. destruct (s !! key); by intros [= <- <- <-].
Qed.

Definition idle_sys (m : gmap string string) : ProxySys (gmap string string) string := mkProxySys proxy_Init m [].
Definition other_change : ProxyEvent string := mkProxyEvent "other" ChangePut (Some "x"%string).
Definition example_store : gmap string string := {["a" := "1"; "other" := "x"]}.
Definition example_sched : list (Sched (S := gmap string string) (V := string)) := [SThread; SExternal example_store other_change;
  SThread; SFilter; SThread; SFilter; SThread; SFilter].
Definition example_world := foldl (sched_step (E := string))
  (mkProxyWorld (idle_sys {["a" := "1"]}) (thread_begin (persist_script ["a"%string] {["b"%string := "2"%string]})) []) example_sched.

Lemma example_start : good_start {["a"; "b"]} (idle_sys {["a" := "1"]}) ["a"%string] {["b"%string := "2"%string]}.
Proof.
  split.
  - intros key [op Hop]. discriminate (eq_trans (eq_sym (lookup_empty key)) Hop).
  - constructor.
  - apply NoDup_singleton.
  - intros key ->%list_elem_of_singleton. split; [set_solver|reflexivity].
  - intros key [v [<- _]%lookup_singleton_Some]. set_solver.
Qed.

Lemma other_change_foreign : foreign {["a"; "b"]} other_change.
Proof. unfold foreign. cbn. set_solver. Qed.



(** "It is not possible to define multiple ignored events for the key": when a key
    is written and removed before its first change is filtered, the removal
    overwrites the entry, and the server sees its own write. *)
Example overwritten_entry_echoes :
  let st := (persistChanges (E := string) (idle_sys ∅) [] {["a"%string := "1"%string]}).1 in
  let st := (persistChanges (E := string) st ["a"%string] ∅).1 in
  (filter_change (sys_plugin st) (mkProxyEvent "a" ChangePut (Some "1"%string))).2 = [mkProxyEvent "a" ChangePut (Some "1"%string)].
Proof. vm_compute. reflexivity. Qed.

(** The entry of a write that failed is never removed: the next change of the
    key by somebody else is dropped. *)
Example failed_write_hides_change :
  let st := (persistChanges (E := string) (idle_sys ∅) [] {["readonly"%string := "1"%string]}).1 in
  (filter_change (sys_plugin st) (mkProxyEvent "readonly" ChangePut (Some "2"%string))).2 = [].
Proof. vm_compute. reflexivity. Qed.

(** So does the entry for the removal of a key that does not exist. *)
Example missing_key_hides_change :
  let st := (persistChanges (E := string) (idle_sys ∅) ["a"%string] ∅).1 in
  (filter_change (sys_plugin st) (mkProxyEvent (V := string) "a" ChangeDelete None)).2 = [].
Proof. vm_compute. reflexivity. Qed.
