(* ===== verification/CniModel.v ===== *)
(** * Data of the CNI server

    The requests and replies of plugins/contiv/model/cni, the objects the server
    configures through the VPP agent (with the fields that the code sets), and
    the functions of pod.go and host.go that build them. *)

From Stdlib Require Import ZArith Lia Ascii String.
From stdpp Require Import prelude strings list gmap.
From S2P Require Import Prelude GoStrings GoErrors GoNet Ipam NodeId.

(** ** Requests and replies *)

Record CNIRequest := mkCNIRequest {
  Request_Version : string;
  ContainerId : string;
  NetworkNamespace : string;
  InterfaceName : string;
  ExtraNwConfig : string;
  ExtraArguments : string
}.

Inductive IPVersion := IPV4 | IPV6.
Record ReplyIP := mkReplyIP { ReplyIP_Version : IPVersion; ReplyIP_Address : string; ReplyIP_Gateway : string }.
Record ReplyInterface := mkReplyInterface {
  ReplyInterface_Name : string; ReplyInterface_Mac : string; Sandbox : string; ReplyInterface_IpAddresses : list ReplyIP
}.
Record ReplyRoute := mkReplyRoute { ReplyRoute_Dst : string; ReplyRoute_Gw : string }.

Record ReplyDNS := mkReplyDNS { DNS_Domain : string; DNS_Nameservers : list string; DNS_Search : list string; DNS_Options : list string }.

Definition resultOk : Z := 0.
Definition resultErr : Z := 1.

(** The error itself stands for its text. *)
Record CNIReply (E : Type) := mkCNIReply {
  Reply_Result : Z; Reply_Error : option E; Reply_Interfaces : list ReplyInterface; Reply_Routes : list ReplyRoute; Reply_Dns : list ReplyDNS
}.
Arguments mkCNIReply {E} _ _ _ _ _.
Arguments Reply_Result {E} _.
Arguments Reply_Error {E} _.
Arguments Reply_Interfaces {E} _.
Arguments Reply_Routes {E} _.
Arguments Reply_Dns {E} _.

(** ** Objects of the VPP agent *)

Record LinuxInterface := mkLinuxInterface {
  LI_Name : string;
  LI_Enabled : bool;
  LI_HostIfName : string;
  LI_PhysAddress : string;
  LI_PeerIfName : string;
  LI_IpAddresses : list string;
  LI_Namespace : option string  (* FILE_REF_NS with this path *)
}.

Inductive InterfaceType := AF_PACKET_INTERFACE | TAP_INTERFACE | SOFTWARE_LOOPBACK | ETHERNET_CSMACD.
Record Tap := mkTap { Tap_HostIfName : string; Tap_Version : Z; Tap_RxRingSize : Z; Tap_TxRingSize : Z }.
Record VppInterface := mkVppInterface {
  VI_Name : string;
  VI_Type : InterfaceType;
  VI_Enabled : bool;
  VI_Afpacket : option string;  (* HostIfName *)
  VI_Tap : option Tap;
  VI_IpAddresses : list string
}.

Record StaticRoute := mkStaticRoute { SR_VrfId : Z; SR_DstIpAddr : string; SR_NextHopAddr : string; SR_OutgoingInterface : string }.

(** ** Configuration of the server *)

Record InterfaceWithIP := mkInterfaceWithIP { IWI_InterfaceName : string; IWI_IP : string }.
Record OneNodeConfig := mkOneNodeConfig {
  NodeName : string; MainVppInterfaceName : string; OtherVPPInterfaces : list InterfaceWithIP
}.

(** The fields of [remoteCNIserver] that are its own state; [hasGovpp] and
    [hasSwIfIndex] tell whether the two handles are not nil. *)
Record CNIServer := mkCNIServer {
  srv_ipam : IPAM;
  counter : Z;
  agentLabel : string;
  nodeConfigs : list OneNodeConfig;
  tcpChecksumOffloadDisabled : bool;
  vswitchConnectivityConfigured : bool;
  disableTCPstack : bool;
  useTAPInterfaces : bool;
  tapVersion : Z;
  tapV2RxRingSize : Z;
  tapV2TxRingSize : Z;
  hasGovpp : bool;
  hasSwIfIndex : bool
}.

Definition set_ipam (s : CNIServer) (i : IPAM) : CNIServer :=
  mkCNIServer i (counter s) (agentLabel s) (nodeConfigs s) (tcpChecksumOffloadDisabled s) (vswitchConnectivityConfigured s)
    (disableTCPstack s) (useTAPInterfaces s) (tapVersion s) (tapV2RxRingSize s) (tapV2TxRingSize s) (hasGovpp s) (hasSwIfIndex s).
Definition set_counter (s : CNIServer) (c : Z) : CNIServer :=
  mkCNIServer (srv_ipam s) c (agentLabel s) (nodeConfigs s) (tcpChecksumOffloadDisabled s) (vswitchConnectivityConfigured s)
    (disableTCPstack s) (useTAPInterfaces s) (tapVersion s) (tapV2RxRingSize s) (tapV2TxRingSize s) (hasGovpp s) (hasSwIfIndex s).
Definition set_configured (s : CNIServer) : CNIServer :=
  mkCNIServer (srv_ipam s) (counter s) (agentLabel s) (nodeConfigs s) (tcpChecksumOffloadDisabled s) true
    (disableTCPstack s) (useTAPInterfaces s) (tapVersion s) (tapV2RxRingSize s) (tapV2TxRingSize s) (hasGovpp s) (hasSwIfIndex s).

(** ** pod.go: names *)

Definition linuxIfMaxLen : nat := 15.
Definition afPacketNamePrefix : string := "afpacket".
Definition tapNamePrefix : string := "tap".
Definition podNameExtraArg : string := "K8S_POD_NAME".
Definition podNamespaceExtraArg : string := "K8S_POD_NAMESPACE".
Definition vethHostEndName : string := "vpp1".
Definition vethVPPEndName : string := "vpp2".
Definition podIfIPPrefix : string := "10.2.1".

Definition veth1NameFromRequest (request : CNIRequest) : string := (InterfaceName request +:+ ContainerId request)%string.
Definition veth1HostIfNameFromRequest (request : CNIRequest) : string := InterfaceName request.
Definition tapHostNameFromRequest (request : CNIRequest) : string := InterfaceName request.
Definition veth2NameFromRequest (request : CNIRequest) : string :=
  if linuxIfMaxLen <? String.length (ContainerId request) then String.substring 0 linuxIfMaxLen (ContainerId request)
  else ContainerId request.
Definition tapTmpHostNameFromRequest (request : CNIRequest) : string :=
  if linuxIfMaxLen <? String.length (ContainerId request) then String.substring 0 linuxIfMaxLen (ContainerId request)
  else ContainerId request.
Definition afpacketNameFromRequest (request : CNIRequest) : string := (afPacketNamePrefix +:+ veth2NameFromRequest request)%string.
Definition tapNameFromRequest (request : CNIRequest) : string := (tapNamePrefix +:+ tapTmpHostNameFromRequest request)%string.
Definition loopbackNameFromRequest (request : CNIRequest) : string := ("loop" +:+ veth2NameFromRequest request)%string.
Definition ipAddrForPodVPPIf (s : CNIServer) : string := (podIfIPPrefix +:+ "." +:+ Itoa (counter s + 1) +:+ "/32")%string.
Definition macAddrForContainer : string := "00:00:00:00:00:02".

(** ** pod.go: objects *)

Definition veth1FromRequest (request : CNIRequest) (podIP : string) : LinuxInterface :=
  mkLinuxInterface (veth1NameFromRequest request) true (veth1HostIfNameFromRequest request) macAddrForContainer
    (veth2NameFromRequest request) [podIP] (Some (NetworkNamespace request)).
Definition veth2FromRequest (request : CNIRequest) : LinuxInterface :=
  mkLinuxInterface (veth2NameFromRequest request) true (veth2NameFromRequest request) "" (veth1NameFromRequest request) [] None.
Definition afpacketFromRequest (s : CNIServer) (request : CNIRequest) : VppInterface :=
  mkVppInterface (afpacketNameFromRequest request) AF_PACKET_INTERFACE true (Some (veth2NameFromRequest request)) None [ipAddrForPodVPPIf s].
Definition tapFromRequest (s : CNIServer) (request : CNIRequest) : VppInterface :=
  mkVppInterface (tapNameFromRequest request) TAP_INTERFACE true None
    (Some (if (tapVersion s =? 2)%Z then mkTap (tapTmpHostNameFromRequest request) 2 (tapV2RxRingSize s) (tapV2TxRingSize s)
           else mkTap (tapTmpHostNameFromRequest request) 0 0 0))
    [ipAddrForPodVPPIf s].
Definition loopbackFromRequest (request : CNIRequest) (loopIP : string) : VppInterface :=
  mkVppInterface (loopbackNameFromRequest request) SOFTWARE_LOOPBACK true None None [loopIP].
Definition vppRouteFromRequest (s : CNIServer) (request : CNIRequest) (podIP : string) : StaticRoute :=
  mkStaticRoute 0 podIP "" (if useTAPInterfaces s then tapNameFromRequest request else afpacketNameFromRequest request).
Definition ipToIPNet (ip : IP) : IPNet := mkIPNet ip (net_IPv4Mask 255 255 255 255).

(** The first number between the slashes of a path; -1 stands for none, so a
    path with the component -1 is rejected as well. *)
Fixpoint first_number (strArr : list string) : Z :=
  match strArr with
  | [] => -1
  | str :: strArr => match Atoi str with Some i => i | None => first_number strArr end
  end.
Definition getPIDFromNwNsPath (ns : string) : option Z :=
  let pid := first_number (Split "/" ns) in
  if (pid =? -1)%Z then None else Some pid.

(** ** remote_cni_server.go: arguments of a request *)

Definition parse_pair (res : gmap string string) (pair : string) : gmap string string :=
  match Split "=" pair with [k; v] => <[k := v]> res | _ => res end.
Definition parseExtraArgs (input : string) : gmap string string := foldl parse_pair ∅ (Split ";" input).

Definition specificConfigForCurrentNode (s : CNIServer) : option OneNodeConfig :=
  List.find (λ c, bool_decide (NodeName c = agentLabel s)) (nodeConfigs s).

(** ** host.go: objects

    [None]: an address of the IPAM has less than four bytes. *)

Definition defaultRouteToHost (s : CNIServer) : option StaticRoute :=
  ip ← VEthHostEndIP (srv_ipam s); Some (mkStaticRoute 0 "0.0.0.0/0" (IP_String ip) vethVPPEndName).
Definition interconnectVethHost (s : CNIServer) : option LinuxInterface :=
  network ← VSwitchNetwork (srv_ipam s); ip ← VEthHostEndIP (srv_ipam s);
  Some (mkLinuxInterface "vppv1" true vethHostEndName "" "v2"
    [(IP_String ip +:+ "/" +:+ Itoa (Mask_Size (IPNet_Mask network)).1)%string] None).
Definition interconnectVethVpp : LinuxInterface := mkLinuxInterface "v2" true vethVPPEndName "" "vppv1" [] None.
Definition interconnectAfpacket (s : CNIServer) : option VppInterface :=
  network ← VSwitchNetwork (srv_ipam s); ip ← VEthVPPEndIP (srv_ipam s);
  Some (mkVppInterface vethVPPEndName AF_PACKET_INTERFACE true (Some vethVPPEndName) None
    [(IP_String ip +:+ "/" +:+ Itoa (Mask_Size (IPNet_Mask network)).1)%string]).
Definition physicalInterface (s : CNIServer) (name : string) : result IpamError VppInterface :=
  hostNetwork ← HostIPNetwork (srv_ipam s) (HostID (srv_ipam s));
  Ok (mkVppInterface name ETHERNET_CSMACD true None None [IPNet_String hostNetwork]).
Definition physicalInterfaceWithCustomIPAddress (name ipAddress : string) : VppInterface :=
  mkVppInterface name ETHERNET_CSMACD true None None [ipAddress].
Definition physicalInterfaceLoopback (s : CNIServer) : result IpamError VppInterface :=
  hostNetwork ← HostIPNetwork (srv_ipam s) (HostID (srv_ipam s));
  Ok (mkVppInterface "loopbackNIC" SOFTWARE_LOOPBACK true None None [IPNet_String hostNetwork]).

(** ** The VPP agent

    A transaction of the local client is a list of operations; the agent applies
    them when the transaction is sent. *)

Inductive TxnOp :=
  | PutLinuxInterface (i : LinuxInterface)
  | PutVppInterface (i : VppInterface)
  | PutStaticRoute (r : StaticRoute)
  | DelLinuxInterface (name : string)
  | DelVppInterface (name : string)
  | DelStaticRoute (vrf : Z) (dst : IPNet) (nextHop : IP).

Class VppAgent (X E : Type) := { txn_send : X → list TxnOp → X * option E }.
