(* ===== verification/ContainerIdx.v ===== *)
(** * The index of containers

    plugins/contiv/containeridx: the configured containers by their ID, with
    indexes for the name and the namespace of the pod; and the lookups of
    plugin_impl_contiv.go, through which the renderers of policies find the
    interface and the session namespace of a pod. *)

From Stdlib Require Import ZArith Lia Ascii String.
From stdpp Require Import prelude strings list gmap.
From S2P Require Import Prelude GoErrors CniModel PolicyCache PolicyCacheProofs.

Record ContainerConfig := mkContainerConfig {
  CC_PodName : string;
  CC_PodNamespace : string;
  CC_Veth1 : option LinuxInterface;
  CC_Veth2 : option LinuxInterface;
  CC_PodVppIf : option VppInterface;
  CC_Route : option StaticRoute;
  CC_NsIndex : Z
}.

Definition podNameKey : string := "podNameKey".
Definition podNamespaceKey : string := "podNamespaceKey".

(** The data is never nil: only [RegisterContainer] puts it. *)
Definition container_IndexFunction (config : ContainerConfig) : Indexes :=
  <[podNamespaceKey := [CC_PodNamespace config]]> (<[podNameKey := [CC_PodName config]]> ∅).

Section containeridx.
Context {M : Type} `{!NamedMapping M ContainerConfig}.

Definition RegisterContainer (ci : M) (containerID : string) (data : ContainerConfig) : M :=
  Put ci containerID data (container_IndexFunction data).
Definition UnregisterContainer (ci : M) (containerID : string) : M * option ContainerConfig := nm_Delete ci containerID.
Definition LookupContainer (ci : M) (containerID : string) : option ContainerConfig := GetValue ci containerID.
Definition LookupPodName (ci : M) (podName : string) : list string := default [] (ListNames ci podNameKey podName).
Definition LookupPodNamespace (ci : M) (podNamespace : string) : list string := default [] (ListNames ci podNamespaceKey podNamespace).
Definition container_ListAll (ci : M) : list string := ListAllNames ci.

(** ** Lookups of the plugin *)

(** The inner and the outer loop: the first container in both lists. *)
Fixpoint match_names (ci : M) (pod1 : string) (podNamesMatch : list string) : option ContainerConfig :=
  match podNamesMatch with
  | [] => None
  | pod2 :: podNamesMatch =>
    if bool_decide (pod1 = pod2) then
      match LookupContainer ci pod1 with Some data => Some data | None => match_names ci pod1 podNamesMatch end
    else match_names ci pod1 podNamesMatch
  end.
Fixpoint match_pods (ci : M) (podNamespacesMatch podNamesMatch : list string) : option ContainerConfig :=
  match podNamespacesMatch with
  | [] => None
  | pod1 :: podNamespacesMatch =>
    match match_names ci pod1 podNamesMatch with
    | Some data => Some data
    | None => match_pods ci podNamespacesMatch podNamesMatch
    end
  end.

Definition getContainerConfig (ci : M) (podNamespace podName : string) : option ContainerConfig :=
  let podNamesMatch := LookupPodName ci podName in
  let podNamespacesMatch := LookupPodNamespace ci podNamespace in
  match_pods ci podNamespacesMatch podNamesMatch.

Definition GetIfName (ci : M) (podNamespace podName : string) : string * bool :=
  match getContainerConfig ci podNamespace podName with
  | Some config => match CC_PodVppIf config with Some i => (VI_Name i, true) | None => (""%string, false) end
  | None => (""%string, false)
  end.

Definition GetNsIndex (ci : M) (podNamespace podName : string) : Z * bool :=
  match getContainerConfig ci podNamespace podName with
  | Some config => (CC_NsIndex config, true)
  | None => (0%Z, false)
  end.

(** ** Correctness *)

Context `{!NamedMappingLaws M ContainerConfig}.

(** The registered containers. *)
Definition containers (ci : M) : gmap string ContainerConfig := fst <$> nm_view ci.

(** Every entry is indexed by its own pod. *)
Definition container_indexed (ci : M) : Prop :=
  ∀ id config ix, nm_view ci !! id = Some (config, ix) → ix = container_IndexFunction config.

Lemma new_indexed : container_indexed NewNamedMapping.
Proof. intros id config ix. by rewrite nm_new, lookup_empty. Qed.

Lemma Register_containers ci id config : containers (RegisterContainer ci id config) = <[id := config]> (containers ci).
Proof. unfold containers, RegisterContainer. rewrite nm_put. exact (fmap_insert fst _ _ _). Qed.

Lemma Register_indexed ci id config : container_indexed ci → container_indexed (RegisterContainer ci id config).
Proof.
  intros Hci id' config' ix. unfold RegisterContainer. rewrite nm_put, lookup_insert_Some.
  intros [[_ [= <- <-]]|[_ Hl]]; [done|by eapply Hci].
Qed.

Lemma Unregister_containers ci id : containers (UnregisterContainer ci id).1 = delete id (containers ci).
Proof. unfold containers, UnregisterContainer. rewrite nm_delete. exact (fmap_delete fst _ _). Qed.

Lemma Unregister_indexed ci id : container_indexed ci → container_indexed (UnregisterContainer ci id).1.
Proof.
  intros Hci id' config' ix. unfold UnregisterContainer. rewrite nm_delete, lookup_delete_Some.
  intros [_ Hl]. by eapply Hci.
Qed.

Lemma lookup_container ci id : LookupContainer ci id = containers ci !! id.
Proof. unfold LookupContainer, containers. by rewrite nm_get, lookup_fmap. Qed.

Lemma names_exact ci key (f : ContainerConfig → string) v id : container_indexed ci →
  (∀ config, container_IndexFunction config !! key = Some [f config]) →
  id ∈ default [] (ListNames ci key v) ↔ ∃ config, containers ci !! id = Some config ∧ f config = v.
Proof.
  intros Hci Hf. rewrite nm_names. unfold containers. split.
  - intros (config & ix & l & Hv & Hl & Hin). rewrite (Hci _ _ _ Hv), Hf in Hl. injection Hl as <-.
    exists config. rewrite lookup_fmap, Hv. split; [done|]. by apply list_elem_of_singleton in Hin.
  - intros (config & Hv & <-). rewrite lookup_fmap in Hv. destruct (nm_view ci !! id) as [[c ix]|] eqn:Hl; [|done].
    injection Hv as ->. exists config, ix, [f config]. split_and!; [done| |by left]. by rewrite (Hci _ _ _ Hl), Hf.
Qed.

Lemma match_names_spec ci pod1 l :
  match_names ci pod1 l = if decide (pod1 ∈ l) then containers ci !! pod1 else None.
Proof.
  induction l as [|pod2 l IH]; [done|]. cbn [match_names]. rewrite lookup_container. case_bool_decide as He.
  - subst pod2. rewrite decide_True by left. destruct (containers ci !! pod1) as [c|] eqn:Hc; [done|]. rewrite IH. by destruct (decide _).
  - rewrite IH. destruct (decide (pod1 ∈ l)) as [Hin|Hin]; [by rewrite decide_True by (by right)|].
    rewrite decide_False; [done|]. intros [|]%elem_of_cons; done.
Qed.

Lemma match_pods_spec ci l names :
  match match_pods ci l names with
  | Some config => ∃ id, id ∈ l ∧ id ∈ names ∧ containers ci !! id = Some config
  | None => ∀ id, id ∈ l → id ∈ names → containers ci !! id = None
  end.
Proof.
  induction l as [|pod1 l IH]; cbn [match_pods]; [by intros id ?%elem_of_nil|]. rewrite match_names_spec.
  destruct (decide (pod1 ∈ names)) as [Hin|Hin]; [destruct (containers ci !! pod1) as [c|] eqn:Hc|].
  - exists pod1. split_and!; [by left|done|done].
  - destruct (match_pods ci l names) as [c|]; [destruct IH as (id & ? & ? & ?); exists id; split_and!; [by right|done|done]|].
    intros id [->|Hid]%elem_of_cons Hn; [done|by apply IH].
  - destruct (match_pods ci l names) as [c|]; [destruct IH as (id & ? & ? & ?); exists id; split_and!; [by right|done|done]|].
    intros id [->|Hid]%elem_of_cons Hn; [done|by apply IH].
Qed.

(** The container is one of the pod. *)
Definition of_pod (podNamespace podName : string) (config : ContainerConfig) : Prop :=
  CC_PodNamespace config = podNamespace ∧ CC_PodName config = podName.

Lemma getContainerConfig_spec ci podNamespace podName : container_indexed ci →
  match getContainerConfig ci podNamespace podName with
  | Some config => ∃ id, containers ci !! id = Some config ∧ of_pod podNamespace podName config
  | None => ∀ id config, containers ci !! id = Some config → ¬ of_pod podNamespace podName config
  end.
Proof.
  intros Hci. unfold getContainerConfig.
  pose proof (λ id, names_exact ci podNameKey CC_PodName podName id Hci (λ _, eq_refl)) as Hname.
  pose proof (λ id, names_exact ci podNamespaceKey CC_PodNamespace podNamespace id Hci (λ _, eq_refl)) as Hns.
  pose proof (match_pods_spec ci (LookupPodNamespace ci podNamespace) (LookupPodName ci podName)) as Hm.
  destruct (match_pods ci _ _) as [config|].
  - destruct Hm as (id & (c1 & H1 & Hc1)%Hns & (c2 & H2 & Hc2)%Hname & Hc). exists id. split; [done|].
    unfold of_pod. split; congruence.
  - intros id config Hc [Hn1 Hn2]. rewrite (Hm id) in Hc; [done|apply Hns; by exists config|apply Hname; by exists config].
Qed.

Lemma lookups_of_pod ci podNamespace podName id config vppIf : container_indexed ci →
  containers ci !! id = Some config → of_pod podNamespace podName config → CC_PodVppIf config = Some vppIf →
  (∀ id' config', containers ci !! id' = Some config' → of_pod podNamespace podName config' → id' = id) →
  GetIfName ci podNamespace podName = (VI_Name vppIf, true) ∧ GetNsIndex ci podNamespace podName = (CC_NsIndex config, true).
Proof.
  intros Hci Hc Hp Hif Huniq. pose proof (getContainerConfig_spec ci podNamespace podName Hci) as Hg. unfold GetIfName, GetNsIndex.
  destruct (getContainerConfig ci podNamespace podName) as [c|]; [|by destruct (Hg id config Hc)].
  destruct Hg as (id' & Hc' & Hp'). rewrite (Huniq id' c Hc' Hp'), Hc in Hc'. injection Hc' as <-. by rewrite Hif.
Qed.

(** C30. The lookups of the renderers: for a pod with exactly one configured
    container they return the VPP interface and the session namespace this
    container was registered with; for a pod without container they report that
    there is none. Registrations and removals keep the indexes consistent and
    change the entry of the one container only. *)
Theorem pod_lookups_exact ci podNamespace podName : container_indexed ci →
  (∀ id config vppIf, containers ci !! id = Some config → of_pod podNamespace podName config → CC_PodVppIf config = Some vppIf →
     (∀ id' config', containers ci !! id' = Some config' → of_pod podNamespace podName config' → id' = id) →
     GetIfName ci podNamespace podName = (VI_Name vppIf, true) ∧ GetNsIndex ci podNamespace podName = (CC_NsIndex config, true)) ∧
  ((∀ id config, containers ci !! id = Some config → ¬ of_pod podNamespace podName config) →
     GetIfName ci podNamespace podName = (""%string, false) ∧ GetNsIndex ci podNamespace podName = (0%Z, false)) ∧
  (∀ id config, container_indexed (RegisterContainer ci id config) ∧ container_indexed (UnregisterContainer ci id).1 ∧
     containers (RegisterContainer ci id config) = <[id := config]> (containers ci) ∧
     containers (UnregisterContainer ci id).1 = delete id (containers ci)).
Proof.
  intros Hci. split_and!; [by intros; eapply lookups_of_pod| |].
  - intros Hnone. pose proof (getContainerConfig_spec ci podNamespace podName Hci) as Hg. unfold GetIfName, GetNsIndex.
    destruct (getContainerConfig ci podNamespace podName) as [c|]; [|done].
    destruct Hg as (id' & Hc' & Hp'). by destruct (Hnone id' c Hc').
  - intros id config. split_and!; [by apply Register_indexed|by apply Unregister_indexed|apply Register_containers|apply Unregister_containers].
Qed.

End containeridx.

(** ** Example *)

Definition web_if : VppInterface := mkVppInterface "afpacketc1" AF_PACKET_INTERFACE true (Some "c1"%string) None [].
Definition web_config : ContainerConfig := mkContainerConfig "web" "default" None None (Some web_if) None 7.
Definition example_index : gmap string (ContainerConfig * Indexes) :=
  RegisterContainer (RegisterContainer NewNamedMapping "c1" web_config) "c2" (mkContainerConfig "db" "default" None None None None 8).

Lemma example_index_indexed : container_indexed example_index.
Proof. apply Register_indexed, Register_indexed, new_indexed. Qed.

Lemma pod_lookups_exact_witness :
  GetIfName example_index "default" "web" = ("afpacketc1"%string, true) ∧ GetNsIndex example_index "default" "web" = (7%Z, true).
Proof.
  refine (proj1 (pod_lookups_exact example_index "default" "web" example_index_indexed) "c1"%string web_config web_if eq_refl _ eq_refl _).
  - split; reflexivity.
  - unfold example_index. rewrite !Register_containers. intros id' config'.
    rewrite !lookup_insert_Some. intros [[_ <-]|[_ [[<- _]|[_ Hl]]]] [_ Hname]; [discriminate Hname|reflexivity|].
    unfold containers in Hl. rewrite nm_new, lookup_fmap, lookup_empty in Hl. discriminate Hl.
Defined.
