(* ===== verification/NodeRoutes.v ===== *)
(** * Routes to other nodes

    plugins/contiv/node.go: for every node ID that appears in the data store the
    CNI server adds two static routes to VPP, to the pods and to the host stack of
    that node, and a removal event removes the routes of the ID its value names
    (etcd sends none, so that they stay). The addresses come from
    the IPAM (host.go, [routeToOtherHostPods] and [routeToOtherHostStack]).

    [None] as a result is a panic. *)

From Stdlib Require Import ZArith Lia Ascii String.
From stdpp Require Import prelude strings list gmap.
From S2P Require Import Prelude GoStrings GoErrors GoNet Ipam IpamProofs NodeId RuleIds PolicyCacheEvents CniModel.

(** ** Routes (host.go) *)

Inductive NodeError (E : Type) :=
  | NodeValueError (e : E)
  | NodeRouteError (e : IpamError)
  | NodeCIDRError
  | NodeAgentError (e : E)
  | UnknownKey (key : string).
Arguments NodeValueError {E} _.
Arguments NodeRouteError {E} _.
Arguments NodeCIDRError {E}.
Arguments NodeAgentError {E} _.
Arguments UnknownKey {E} _.

Definition routeToOtherHostNetworks (i : IPAM) (hostID : Z) (destNetwork : IPNet) : result IpamError StaticRoute :=
  hostIP ← HostIPAddress i hostID;
  Ok (mkStaticRoute 0 (IPNet_String destNetwork) (IP_String hostIP) "").

Definition routeToOtherHostPods (i : IPAM) (hostID : Z) : option (result IpamError StaticRoute) :=
  podNetwork ← OtherHostPodNetwork i hostID;
  Some (match podNetwork with Err e => Err e | Ok n => routeToOtherHostNetworks i hostID n end).

Definition routeToOtherHostStack (i : IPAM) (hostID : Z) : option (result IpamError StaticRoute) :=
  vswitchNetwork ← OtherHostVSwitchNetwork i hostID;
  Some (match vswitchNetwork with Err e => Err e | Ok n => routeToOtherHostNetworks i hostID n end).

Definition computeRoutesForHost (i : IPAM) (hostID : Z) : option (result IpamError (StaticRoute * StaticRoute)) :=
  podsRoute ← routeToOtherHostPods i hostID;
  match podsRoute with
  | Err e => Some (Err e)
  | Ok podsRoute =>
    hostRoute ← routeToOtherHostStack i hostID;
    Some (match hostRoute with Err e => Err e | Ok hostRoute => Ok (podsRoute, hostRoute) end)
  end.

(** ** Events (node.go) *)

Section node.
Context `{RangeOracle} {X E : Type} `{!VppAgent X E}.

(** [ne_value]: what [GetValue] decodes. *)
Record NodeEvent := mkNodeEvent { ne_key : string; ne_type : ChangeType; ne_value : result E Identifier }.

Definition agent_result (r : X * option E) : X * option (NodeError E) := (r.1, NodeAgentError <$> r.2).

Definition add_routes (i : IPAM) (x : X) (hostID : Z) : option (X * option (NodeError E)) :=
  routes ← computeRoutesForHost i hostID;
  Some (match routes with
        | Err e => (x, Some (NodeRouteError e))
        | Ok (podsRoute, hostRoute) => agent_result (txn_send x [PutStaticRoute podsRoute; PutStaticRoute hostRoute])
        end).

Definition delete_routes (i : IPAM) (x : X) (hostID : Z) : option (X * option (NodeError E)) :=
  routes ← computeRoutesForHost i hostID;
  Some (match routes with
        | Err e => (x, Some (NodeRouteError e))
        | Ok (podsRoute, hostRoute) =>
          match ParseCIDR (SR_DstIpAddr podsRoute), ParseCIDR (SR_DstIpAddr hostRoute) with
          | Some (_, podDest), Some (_, hostDest) =>
            agent_result (txn_send x
              [DelStaticRoute (SR_VrfId podsRoute) podDest (ParseIP (SR_NextHopAddr podsRoute));
               DelStaticRoute (SR_VrfId hostRoute) hostDest (ParseIP (SR_NextHopAddr hostRoute))])
          | _, _ => (x, Some NodeCIDRError)
          end
        end).

Definition nodeChangePropageteEvent (i : IPAM) (x : X) (ev : NodeEvent) : option (X * option (NodeError E)) :=
  if HasPrefix (ne_key ev) allocatedIDsKeyPrefix then
    match ne_value ev with
    | Err e => Some (x, Some (NodeValueError e))
    | Ok nodeID =>
      let hostID := u8 (Identifier_Id nodeID) in
      if bool_decide (ne_type ev = ChangePut) then add_routes i x hostID else delete_routes i x hostID
    end
  else Some (x, Some (UnknownKey (ne_key ev))).

(** The loop over the IDs of a resync; the node's own ID is left out. *)
Fixpoint resync_nodes (i : IPAM) (x : X) (values : list (result E Identifier)) : option (X * option (NodeError E)) :=
  match values with
  | [] => Some (x, None)
  | Err e :: _ => Some (x, Some (NodeValueError e))
  | Ok nodeID :: values =>
    let hostID := u8 (Identifier_Id nodeID) in
    if (hostID =? HostID i)%Z then resync_nodes i x values
    else r ← add_routes i x hostID;
         match r with
         | (x, Some e) => Some (x, Some e)
         | (x, None) => resync_nodes i x values
         end
  end.

Fixpoint resync_prefixes (i : IPAM) (x : X) (data : list (string * list (result E Identifier))) : option (X * option (NodeError E)) :=
  match data with
  | [] => Some (x, None)
  | (prefix, values) :: data =>
    if bool_decide (prefix = allocatedIDsKeyPrefix) then
      r ← resync_nodes i x values;
      match r with
      | (x, Some e) => Some (x, Some e)
      | (x, None) => resync_prefixes i x data
      end
    else resync_prefixes i x data
  end.

(** The transaction opened at the beginning stays empty. *)
Definition nodeResync (i : IPAM) (x : X) (data : gmap string (list (result E Identifier))) : option (X * option (NodeError E)) :=
  r ← resync_prefixes i x (go_range [92]%Z data);
  Some (match r with
        | (x, Some e) => (x, Some e)
        | (x, None) => agent_result (txn_send x [])
        end).

End node.

(** ** Correctness *)

(** The key of a route in the agent: VRF, destination and next hop. *)
Abbreviation RouteKey := (Z * string * string)%type (only parsing).

Definition route_key (r : StaticRoute) : option RouteKey :=
  '(_, dst) ← ParseCIDR (SR_DstIpAddr r); Some (SR_VrfId r, IPNet_String dst, IP_String (ParseIP (SR_NextHopAddr r))).

Definition apply_route (m : gmap RouteKey StaticRoute) (op : TxnOp) : gmap RouteKey StaticRoute :=
  match op with
  | PutStaticRoute r => match route_key r with Some k => <[k := r]> m | None => m end
  | DelStaticRoute vrf dst nextHop => delete (vrf, IPNet_String dst, IP_String nextHop) m
  | _ => m
  end.

(** A transaction that succeeds is applied in order. *)
Class VppAgentLaws (X E : Type) `{!VppAgent X E} := {
  agent_routes : X → gmap RouteKey StaticRoute;
  agent_applies x ops x' : txn_send x ops = (x', None) → agent_routes x' = foldl apply_route (agent_routes x) ops
}.

(** *** Two families of keys

    [a], [b]: the routes of a host; [f], [g]: their keys. *)
Section tracking.
Context {K V : Type} `{Countable K}.
Variables (D : gset Z) (f g : Z → K) (a b : Z → V).
Hypothesis f_inj : ∀ h h', h ∈ D → h' ∈ D → f h = f h' → h = h'.
Hypothesis g_inj : ∀ h h', h ∈ D → h' ∈ D → g h = g h' → h = h'.
Hypothesis f_g : ∀ h h', h ∈ D → h' ∈ D → f h ≠ g h'.

(** The hosts [live] of [hosts] have their entries, the other ones have none,
    and the rest is as in [m0]. *)
Record tracks (m0 : gmap K V) (hosts live : gset Z) (m : gmap K V) : Prop := {
  tr_live : ∀ h, h ∈ hosts → h ∈ live → m !! f h = Some (a h) ∧ m !! g h = Some (b h);
  tr_gone : ∀ h, h ∈ hosts → h ∉ live → m !! f h = None ∧ m !! g h = None;
  tr_rest : ∀ k, (∀ h, h ∈ hosts → k ≠ f h ∧ k ≠ g h) → m !! k = m0 !! k
}.

Lemma tracks_put m0 hosts live m h : hosts ⊆ D → h ∈ D → tracks m0 hosts live m →
  tracks m0 ({[h]} ∪ hosts) ({[h]} ∪ live) (<[g h := b h]> (<[f h := a h]> m)).
Proof.
  intros HD Hh [Hl Hg Hr]. pose proof (f_g h h Hh Hh) as Hfg. split.
  - intros h' Hin Hlive. destruct (decide (h' = h)) as [->|Hne].
    + by rewrite lookup_insert_ne, !lookup_insert_eq.
    + assert (h' ∈ hosts ∧ h' ∈ live) as [Hh' Hl'] by set_solver. destruct (Hl h' Hh' Hl'). pose proof (HD h' Hh').
      rewrite !lookup_insert_ne; auto using not_eq_sym.
      all: intros He; first [by apply Hne, f_inj|by apply Hne, g_inj|by eapply f_g].
  - intros h' Hin Hlive. assert (h' ≠ h ∧ h' ∈ hosts ∧ h' ∉ live) as (Hne & Hh' & Hl') by set_solver.
    destruct (Hg h' Hh' Hl'). pose proof (HD h' Hh').
    rewrite !lookup_insert_ne; auto using not_eq_sym.
    all: intros He; first [by apply Hne, f_inj|by apply Hne, g_inj|by eapply f_g].
  - intros k Hk. destruct (Hk h) as [? ?]; [set_solver|]. rewrite !lookup_insert_ne by done. apply Hr. intros h' Hh'. apply Hk. set_solver.
Qed.

Lemma tracks_delete m0 hosts live m h : hosts ⊆ D → h ∈ D → tracks m0 hosts live m →
  tracks m0 ({[h]} ∪ hosts) (live ∖ {[h]}) (delete (g h) (delete (f h) m)).
Proof.
  intros HD Hh [Hl Hg Hr]. pose proof (f_g h h Hh Hh) as Hfg. split.
  - intros h' Hin Hlive. assert (h' ≠ h ∧ h' ∈ hosts ∧ h' ∈ live) as (Hne & Hh' & Hl') by set_solver.
    destruct (Hl h' Hh' Hl'). pose proof (HD h' Hh').
    rewrite !lookup_delete_ne; auto using not_eq_sym.
    all: intros He; first [by apply Hne, f_inj|by apply Hne, g_inj|by eapply f_g].
  - intros h' Hin Hlive. destruct (decide (h' = h)) as [->|Hne].
    + by rewrite lookup_delete_ne, !lookup_delete_eq.
    + assert (h' ∈ hosts ∧ h' ∉ live) as [Hh' Hl'] by set_solver. destruct (Hg h' Hh' Hl') as [Hf' Hg'].
      rewrite !lookup_delete_None. auto.
  - intros k Hk. destruct (Hk h) as [? ?]; [set_solver|]. rewrite !lookup_delete_ne by done. apply Hr. intros h' Hh'. apply Hk. set_solver.
Qed.

End tracking.

(** *** The networks of a cluster *)

(** The network of host [h] in a subnet of [p] bits with the number [s]. *)
Definition net_of (p n : nat) (s h : Z) : IPNet := mkIPNet (uint32ToIpv4 (host_net p n s h)) (mask_bytes 4 (Z.of_nat n)).

(** Pod subnet ([p], [n], [s]), vswitch subnet ([q], [m], [t]) and the network of
    the nodes are IPv4 networks, and the two subnets have no address in common. *)
Record cluster_nets (p n : nat) (s : Z) (q m : nat) (t : Z) (i : IPAM) : Prop := {
  cn_pods : ipam_nets p n s i;
  cn_vsubnet : net_u32 q t (vSwitchSubnetIPPrefix i);
  cn_vlens : q < m ∧ m ≤ 32;
  cn_vnetwork : net_u32 m (host_net q m t (hostID i)) (vSwitchNetworkIPPrefix i);
  cn_nodes : ∃ r u, net_u32 r u (hostNodeNetworkIPPrefix i);
  cn_disjoint : ∀ ip, wf_bytes ip → IPNet_Contains (podSubnetIPPrefix i) ip = true → IPNet_Contains (vSwitchSubnetIPPrefix i) ip = false
}.

Lemma net_of_u32 p n s h subnet : net_u32 p s subnet → p ≤ n → n ≤ 32 → net_u32 n (host_net p n s h) (net_of p n s h).
Proof.
  intros (Hs & _ & Hz & _) Hpn Hn. destruct (host_net_range p n s h Hs Hz Hpn Hn) as (? & ? & _). by split_and!.
Qed.

Lemma net_canonical p v n : net_u32 p v n → canonical_v4 p n.
Proof. intros Hn. apply canonical_net_u32. by exists v. Qed.

Lemma OtherHostVSwitchNetwork_spec p n s q m t i h : cluster_nets p n s q m t i → is_byte h →
  OtherHostVSwitchNetwork i h = Some (Ok (net_of q m t h)).
Proof.
  intros [_ Hs [Hpn Hn] Hnet _ _] Hh. destruct (applyHostID_spec q m t _ h Hs ltac:(lia) Hn Hh) as (network & Ha & Hnw).
  unfold OtherHostVSwitchNetwork. destruct Hnet as (_ & _ & _ & ->). cbn [IPNet_Mask].
  rewrite Mask_Size_mask by lia. cbn [fst].
  assert (u8 (Z.of_nat m) = Z.of_nat m) as -> by (unfold wrap; rewrite Z.mod_small; lia).
  rewrite Ha, (newIPNet_net m _ _ Hnw). by destruct Hnw as (_ & _ & _ & ->).
Qed.

Lemma OtherHostPodNetwork_net_of p n s i h : ipam_nets p n s i → is_byte h → OtherHostPodNetwork i h = Some (Ok (net_of p n s h)).
Proof.
  intros Hi Hh. destruct (OtherHostPodNetwork_spec p n s i h Hi Hh) as (network & -> & (_ & _ & _ & ->)). done.
Qed.

(** The address of a node in the network of the nodes. *)
Definition node_ip (i : IPAM) (h : Z) : IP := match HostIPAddress i h with Ok ip => ip | Err _ => [] end.

Lemma HostIPAddress_ok p n s q m t i h : cluster_nets p n s q m t i → HostIPAddress i h = Ok (node_ip i h).
Proof.
  intros [_ _ _ _ (r & u & Hu & _ & _ & He) _]. unfold node_ip, HostIPAddress, computeHostIPAddress. rewrite He. cbn [IPNet_IP IPNet_Mask].
  by rewrite ipv4ToUint32_ToIpv4.
Qed.

(** The two routes of a node. *)
Definition route_via (i : IPAM) (h : Z) (dst : IPNet) : StaticRoute := mkStaticRoute 0 (IPNet_String dst) (IP_String (node_ip i h)) "".
Definition key_via (i : IPAM) (h : Z) (dst : IPNet) : RouteKey := (0%Z, IPNet_String dst, IP_String (ParseIP (IP_String (node_ip i h)))).

Lemma route_via_parses i h p v dst : net_u32 p v dst → ∃ ip, ParseCIDR (SR_DstIpAddr (route_via i h dst)) = Some (ip, dst).
Proof.
  intros Hn. destruct (ParseCIDR_String p dst (net_canonical _ _ _ Hn)) as (a & b & c & d & _ & Hp). by eexists.
Qed.

Lemma route_via_key i h p v dst : net_u32 p v dst → route_key (route_via i h dst) = Some (key_via i h dst).
Proof. intros Hn. destruct (route_via_parses i h p v dst Hn) as [ip Hp]. unfold route_key. by rewrite Hp. Qed.

Lemma computeRoutes_ok p n s q m t i h : cluster_nets p n s q m t i → is_byte h →
  computeRoutesForHost i h = Some (Ok (route_via i h (net_of p n s h), route_via i h (net_of q m t h))).
Proof.
  intros Hi Hh. pose proof (HostIPAddress_ok p n s q m t i h Hi) as Hip.
  unfold computeRoutesForHost, routeToOtherHostPods, routeToOtherHostStack.
  rewrite (OtherHostPodNetwork_net_of p n s) by (done || apply Hi). cbn [mbind option_bind].
  rewrite (OtherHostVSwitchNetwork_spec p n s q m t) by done. cbn [mbind option_bind].
  unfold routeToOtherHostNetworks. rewrite Hip. done.
Qed.

Lemma key_via_dst i h h' dst dst' : key_via i h dst = key_via i h' dst' → IPNet_String dst = IPNet_String dst'.
Proof. unfold key_via. intros He. apply (f_equal (λ k, k.1.2)) in He. exact He. Qed.

(** Hosts with different numbers have different networks. *)
Lemma key_via_inj p n s subnet i h h' : net_u32 p s subnet → p < n → n ≤ 32 →
  (0 ≤ h < 2 ^ Z.of_nat (n - p))%Z → (0 ≤ h' < 2 ^ Z.of_nat (n - p))%Z →
  key_via i h (net_of p n s h) = key_via i h' (net_of p n s h') → h = h'.
Proof.
  intros Hs Hpn Hn Hh Hh' He%key_via_dst. pose proof (net_of_u32 p n s h subnet Hs ltac:(lia) Hn) as Hu.
  pose proof (net_of_u32 p n s h' subnet Hs ltac:(lia) Hn) as Hu'.
  apply IPNet_String_inj in He; [|by eexists; eapply net_canonical..]. apply (f_equal IPNet_IP) in He. cbn [net_of IPNet_IP] in He.
  apply uint32ToIpv4_inj in He; [|by destruct Hu|by destruct Hu']. apply host_net_inj in He; [|done|done].
  by rewrite !Z.mod_small in He.
Qed.

Lemma net_contains_base p v n : net_u32 p v n → IPNet_Contains n (uint32ToIpv4 v) = true.
Proof.
  intros Hn. destruct (uint32ToIpv4_wf v) as [Hl Hw]. apply (net_u32_Contains p v n _ Hn Hw). exists v.
  split_and!; [by destruct Hn| |done]. rewrite uint32ToIpv4_bytes. done.
Qed.

(** The two routes of nodes do not clash. *)
Lemma key_via_ne p n s q m t i h h' : cluster_nets p n s q m t i →
  key_via i h (net_of p n s h) ≠ key_via i h' (net_of q m t h').
Proof.
  intros [[Hs _ [Hpn Hn] _ _] Ht [Hqm Hm] _ _ Hdis] He%key_via_dst. pose proof (net_of_u32 p n s h _ Hs ltac:(lia) Hn) as Hu.
  pose proof (net_of_u32 q m t h' _ Ht ltac:(lia) Hm) as Hu'.
  apply IPNet_String_inj in He; [|by eexists; eapply net_canonical..].
  pose proof (net_contains_base _ _ _ Hu) as Hc. destruct (uint32ToIpv4_wf (host_net p n s h)) as [_ Hw].
  assert (IPNet_Contains (vSwitchSubnetIPPrefix i) (uint32ToIpv4 (host_net p n s h)) = false) as Hf.
  { apply Hdis; [done|]. by eapply (subnet_network p n s h); [|lia|..]. }
  rewrite (subnet_network q m t h' _ (net_of q m t h')) in Hf; [done|done|lia|done|done|done|]. by rewrite <-He.
Qed.

(** *** Events *)

Section follow.
Context `{RangeOracle} {X E : Type} `{!VppAgent X E, !VppAgentLaws X E}.
Hypothesis agent_succeeds : ∀ (x : X) ops, (txn_send (E := E) x ops).2 = None.
Variables (p n : nat) (s : Z) (q m : nat) (t : Z) (i : IPAM).
Hypothesis Hnets : cluster_nets p n s q m t i.

Definition pods_route (h : Z) : StaticRoute := route_via i h (net_of p n s h).
Definition stack_route (h : Z) : StaticRoute := route_via i h (net_of q m t h).
Definition pods_key (h : Z) : RouteKey := key_via i h (net_of p n s h).
Definition stack_key (h : Z) : RouteKey := key_via i h (net_of q m t h).

(** The IDs that fit in the host part of both subnets. *)
Definition host_ids : gset Z := list_to_set (filter (λ h, h < 2 ^ Z.of_nat (n - p) ∧ h < 2 ^ Z.of_nat (m - q))%Z (Z.of_nat <$> seq 0 256)).

Lemma elem_of_host_ids h : h ∈ host_ids ↔ is_byte h ∧ (h < 2 ^ Z.of_nat (n - p))%Z ∧ (h < 2 ^ Z.of_nat (m - q))%Z.
Proof.
  unfold host_ids, is_byte. rewrite elem_of_list_to_set, list_elem_of_filter, list_elem_of_fmap. split.
  - intros [? (k & -> & Hk%elem_of_seq)]. lia.
  - intros (? & ? & ?). split; [done|]. exists (Z.to_nat h). rewrite elem_of_seq. lia.
Qed.

Lemma txn_applied (x : X) ops : ∃ x', txn_send (E := E) x ops = (x', None) ∧ agent_routes x' = foldl apply_route (agent_routes x) ops.
Proof.
  pose proof (agent_succeeds x ops) as Hs. destruct (txn_send x ops) as [x' r] eqn:He. cbn in Hs. subst r.
  exists x'. split; [done|]. by apply agent_applies.
Qed.

Lemma pods_net h : net_u32 n (host_net p n s h) (net_of p n s h).
Proof. destruct Hnets as [[Hs _ [? ?] _ _] _ _ _ _ _]. eapply net_of_u32; [done|lia|done]. Qed.
Lemma stack_net h : net_u32 m (host_net q m t h) (net_of q m t h).
Proof. destruct Hnets as [_ Ht [? ?] _ _ _]. eapply net_of_u32; [done|lia|done]. Qed.

Lemma add_routes_ok (x : X) h : is_byte h → ∃ x', add_routes (E := E) i x h = Some (x', None) ∧
  agent_routes x' = <[stack_key h := stack_route h]> (<[pods_key h := pods_route h]> (agent_routes x)).
Proof.
  intros Hh. unfold add_routes. rewrite (computeRoutes_ok p n s q m t) by done. cbn [mbind option_bind].
  destruct (txn_applied x [PutStaticRoute (pods_route h); PutStaticRoute (stack_route h)]) as (x' & Hs & Hr).
  exists x'. split; [unfold pods_route, stack_route in Hs; by rewrite Hs|]. rewrite Hr. cbn [foldl apply_route].
  unfold pods_route, stack_route. rewrite (route_via_key i h _ _ _ (pods_net h)), (route_via_key i h _ _ _ (stack_net h)). done.
Qed.

Lemma delete_routes_ok (x : X) h : is_byte h → ∃ x', delete_routes (E := E) i x h = Some (x', None) ∧
  agent_routes x' = delete (stack_key h) (delete (pods_key h) (agent_routes x)).
Proof.
  intros Hh. unfold delete_routes. rewrite (computeRoutes_ok p n s q m t) by done. cbn [mbind option_bind].
  destruct (route_via_parses i h _ _ _ (pods_net h)) as [ip ->]. destruct (route_via_parses i h _ _ _ (stack_net h)) as [ip' ->].
  destruct (txn_applied x [DelStaticRoute 0 (net_of p n s h) (ParseIP (IP_String (node_ip i h)));
    DelStaticRoute 0 (net_of q m t h) (ParseIP (IP_String (node_ip i h)))]) as (x' & Hs & Hr).
  exists x'. split; [|exact Hr]. cbn [route_via SR_VrfId SR_NextHopAddr]. by rewrite Hs.
Qed.

(** An event of the allocator's keys; the ID its value names, if there is one,
    fits. *)
Definition event_ok (ev : NodeEvent (E := E)) : Prop :=
  HasPrefix (ne_key ev) allocatedIDsKeyPrefix = true ∧
  match ne_value ev with Ok nodeID => Identifier_Id nodeID ∈ host_ids | Err _ => True end.

Definition named (ev : NodeEvent (E := E)) : gset Z :=
  match ne_value ev with Ok nodeID => {[Identifier_Id nodeID]} | Err _ => ∅ end.

(** The nodes after an event, as its value has them. *)
Definition live_step (live : gset Z) (ev : NodeEvent (E := E)) : gset Z :=
  if bool_decide (ne_type ev = ChangePut) then named ev ∪ live else live ∖ named ev.

(** The loop of [handleNodeEvents]: errors go to the events, the loop goes on. *)
Fixpoint node_run (x : X) (evs : list (NodeEvent (E := E))) : option X :=
  match evs with
  | [] => Some x
  | ev :: evs => '(x, _) ← nodeChangePropageteEvent i x ev; node_run x evs
  end.

Abbreviation route_tracks := (tracks pods_key stack_key pods_route stack_route).

Lemma keys_apart : (∀ h h', h ∈ host_ids → h' ∈ host_ids → pods_key h = pods_key h' → h = h') ∧
  (∀ h h', h ∈ host_ids → h' ∈ host_ids → stack_key h = stack_key h' → h = h') ∧
  (∀ h h', h ∈ host_ids → h' ∈ host_ids → pods_key h ≠ stack_key h').
Proof.
  destruct Hnets as [[Hs _ [? ?] _ _] Ht [? ?] _ _ _]. split_and!; intros h h' (Hb & ? & ?)%elem_of_host_ids (Hb' & ? & ?)%elem_of_host_ids;
    unfold is_byte in *.
  - apply (key_via_inj p n s (podSubnetIPPrefix i)); [done|done|done|lia|lia].
  - apply (key_via_inj q m t (vSwitchSubnetIPPrefix i)); [done|done|done|lia|lia].
  - by apply key_via_ne.
Qed.

Lemma named_host ev h : event_ok ev → h ∈ named ev → h ∈ host_ids.
Proof. intros [_ Hv]. unfold named. destruct (ne_value ev) as [id|e]; [|done]. by intros ->%elem_of_singleton. Qed.

Lemma node_event_ok m0 hosts live x ev : hosts ⊆ host_ids → event_ok ev → route_tracks m0 hosts live (agent_routes x) →
  ∃ x' err, nodeChangePropageteEvent i x ev = Some (x', err) ∧ route_tracks m0 (named ev ∪ hosts) (live_step live ev) (agent_routes x').
Proof.
  intros Hsub [Hpre Hv] Htr. destruct keys_apart as (Hf & Hg & Hfg).
  unfold nodeChangePropageteEvent, live_step, named. rewrite Hpre. destruct (ne_value ev) as [[h name]|e].
  - cbn [Identifier_Id] in *. pose proof Hv as (Hb & _ & _)%elem_of_host_ids.
    assert (u8 h = h) as -> by (unfold wrap, is_byte in *; rewrite Z.mod_small; lia). case_bool_decide.
    + destruct (add_routes_ok x h Hb) as (x' & Ha & Hr). exists x', None. split; [done|]. rewrite Hr. by apply (tracks_put host_ids).
    + destruct (delete_routes_ok x h Hb) as (x' & Ha & Hr). exists x', None. split; [done|]. rewrite Hr. by apply (tracks_delete host_ids).
  - eexists x, _. split; [done|]. rewrite !union_empty_l_L, difference_empty_L. by case_bool_decide.
Qed.

Definition named_by (evs : list (NodeEvent (E := E))) : gset Z := ⋃ (named <$> evs).

Lemma node_run_ok m0 evs hosts live x : Forall event_ok evs → hosts ⊆ host_ids → route_tracks m0 hosts live (agent_routes x) →
  ∃ x', node_run x evs = Some x' ∧ route_tracks m0 (named_by evs ∪ hosts) (foldl live_step live evs) (agent_routes x').
Proof.
  intros Hevs. revert hosts live x. induction Hevs as [|ev evs Hev _ IH]; intros hosts live x Hsub Htr.
  - exists x. split; [done|]. cbn. by rewrite union_empty_l_L.
  - destruct (node_event_ok m0 hosts live x ev Hsub Hev Htr) as (x1 & err & H1 & Ht1).
    destruct (IH (named ev ∪ hosts) (live_step live ev) x1) as (x' & H' & Ht'); [|done|].
    { intros h [Hh|Hh]%elem_of_union; [by apply (named_host ev)|by apply Hsub]. }
    exists x'. cbn [node_run]. rewrite H1. cbn [mbind option_bind]. split; [done|].
    cbn [foldl]. unfold named_by in *. cbn [fmap list_fmap union_list foldr].
    by rewrite (union_comm_L (named ev)), <-union_assoc_L.
Qed.

(** A removal as etcd sends it has no value: it cannot be decoded, or is decoded
    to an identifier without an ID. *)
Definition valueless (ev : NodeEvent (E := E)) : Prop :=
  match ne_value ev with Ok nodeID => Identifier_Id nodeID = 0%Z | Err _ => True end.

Lemma announced_stays evs live h : h ≠ 0%Z → h ∈ live →
  (∀ ev, ev ∈ evs → ne_type ev ≠ ChangePut → valueless ev) → h ∈ foldl live_step live evs.
Proof.
  intros Hh. revert live. induction evs as [|ev evs IH]; intros live Hl Hval; [done|]. cbn [foldl]. apply IH.
  - unfold live_step. case_bool_decide as Ht; [set_solver|]. pose proof (Hval ev ltac:(by left) Ht) as Hv.
    unfold valueless, named in *. destruct (ne_value ev); set_solver.
  - intros ev' Hin. apply Hval. by right.
Qed.

Lemma announced_live evs live h : h ≠ 0%Z →
  (∃ ev, ev ∈ evs ∧ ne_type ev = ChangePut ∧ h ∈ named ev) →
  (∀ ev, ev ∈ evs → ne_type ev ≠ ChangePut → valueless ev) → h ∈ foldl live_step live evs.
Proof.
  intros Hh. revert live. induction evs as [|ev evs IH]; intros live (ev' & Hin & Ht & Hn) Hval; [by apply elem_of_nil in Hin|].
  cbn [foldl]. apply elem_of_cons in Hin as [->|Hin].
  - apply announced_stays; [done| |intros ev' Hin; apply Hval; by right].
    unfold live_step. rewrite bool_decide_true by done. set_solver.
  - apply IH; [by exists ev'|]. intros ev'' Hin'. apply Hval. by right.
Qed.

(** C27. The routes follow the values of the events. The agent accepts all
    transactions and applies them in order; pod subnet, vswitch subnet and the
    network of the nodes are IPv4 networks, the two subnets disjoint; and an event
    whose value can be decoded names a node ID that fits in the host part of both
    subnets. After any sequence of change events of the allocator's keys, VPP has,
    for every ID that was announced and not named by a later removal, the route
    to the node's pod network and the route to its vswitch network, both via the
    address of the node; it has neither for an ID that a removal named last; and
    all other routes are as before. But the removals etcd sends have no value: they
    are not decoded, or decoded to ID zero. If all removals are such, every node
    with another ID that was announced once keeps its routes. *)
Theorem routes_follow_events (x : X) (evs : list NodeEvent) :
  Forall event_ok evs →
  let live := foldl live_step ∅ evs in
  ∃ x', node_run x evs = Some x' ∧
    (∀ h, h ∈ named_by evs → h ∈ live → agent_routes x' !! pods_key h = Some (pods_route h) ∧ agent_routes x' !! stack_key h = Some (stack_route h)) ∧
    (∀ h, h ∈ named_by evs → h ∉ live → agent_routes x' !! pods_key h = None ∧ agent_routes x' !! stack_key h = None) ∧
    (∀ k, (∀ h, h ∈ named_by evs → k ≠ pods_key h ∧ k ≠ stack_key h) → agent_routes x' !! k = agent_routes x !! k) ∧
    ((∀ ev, ev ∈ evs → ne_type ev ≠ ChangePut → valueless ev) →
     ∀ h, h ≠ 0%Z → (∃ ev, ev ∈ evs ∧ ne_type ev = ChangePut ∧ h ∈ named ev) →
       agent_routes x' !! pods_key h = Some (pods_route h) ∧ agent_routes x' !! stack_key h = Some (stack_route h)).
Proof.
  intros Hevs live. assert (route_tracks (agent_routes x) ∅ ∅ (agent_routes x)) as H0 by (by split; [intros h ?%elem_of_empty..|]).
  destruct (node_run_ok (agent_routes x) evs ∅ ∅ x Hevs (empty_subseteq _) H0) as (x' & Hr & [Hl Hg Hk]). exists x'. split; [done|].
  rewrite union_empty_r_L in Hl, Hg, Hk. split_and!; [done..|]. intros Hval h Hh Hann. apply Hl.
  - destruct Hann as (ev & Hin & _ & Hn). apply elem_of_union_list. exists (named ev). split; [by apply list_elem_of_fmap_2|done].
  - by apply announced_live.
Qed.

End follow.

(** ** Examples *)

(** An agent that keeps the routes. *)
#[local] Instance map_agent : VppAgent (gmap RouteKey StaticRoute) string := {| txn_send x ops := (foldl apply_route x ops, None) |}.
#[local] Program Instance map_agent_laws : VppAgentLaws (gmap RouteKey StaticRoute) string := {| agent_routes x := x |}.
Next Obligation. by intros x ops x' [= <-]. Qed.

Lemma map_agent_succeeds (x : gmap RouteKey StaticRoute) ops : (txn_send (E := string) x ops).2 = None.
Proof. reflexivity. Qed.

Definition vswitch_value : Z := ipv4_value 172 30 0 0.

Lemma example_nets : cluster_nets 16 24 subnet_value 16 24 vswitch_value (ipam_of 5).
Proof.
  assert (net_u32 16 subnet_value (podSubnetIPPrefix (ipam_of 5))) as Hs.
  { split_and!; [unfold is_u32, subnet_value, ipv4_value; lia|lia|reflexivity|reflexivity]. }
  assert (net_u32 16 vswitch_value (vSwitchSubnetIPPrefix (ipam_of 5))) as Ht.
  { split_and!; [unfold is_u32, vswitch_value, ipv4_value; lia|lia|reflexivity|reflexivity]. }
  split.
  - apply example_inv.
  - exact Ht.
  - lia.
  - split_and!; [vm_compute; split; [discriminate|reflexivity]|lia|reflexivity|reflexivity].
  - exists 24, (ipv4_value 192 168 16 0). split_and!; [unfold is_u32, ipv4_value; lia|lia|reflexivity|reflexivity].
  - intros ip Hip Hin. apply not_true_iff_false. intros Hin'.
    apply (net_u32_Contains 16 _ _ ip Hs Hip) in Hin as (x & Hx & He & Hsh).
    apply (net_u32_Contains 16 _ _ ip Ht Hip) in Hin' as (y & Hy & He' & Hsh').
    assert (x = y) as <- by (apply uint32ToIpv4_inj; congruence). rewrite Hsh in Hsh'. vm_compute in Hsh'. discriminate Hsh'.
Qed.

Definition node_event (op : ChangeType) (h : Z) : NodeEvent (E := string) :=
  mkNodeEvent (createKey h) op (Ok (mkIdentifier h "node"%string)).

Lemma node_event_fits op h : (0 ≤ h < 256)%Z → event_ok 16 24 16 24 (node_event op h).
Proof. intros Hh. split; [apply HasPrefix_app|]. apply elem_of_host_ids. unfold is_byte. cbn. lia. Qed.

Definition node_events : list (NodeEvent (E := string)) := [node_event ChangePut 6; node_event ChangePut 7; node_event ChangeDelete 6].

Lemma live_seven : 7%Z ∈ named_by node_events ∧ 7%Z ∈ foldl live_step ∅ node_events.
Proof. split; apply (bool_decide_unpack _); vm_compute; exact I. Qed.
Lemma gone_six : 6%Z ∈ named_by node_events ∧ 6%Z ∉ foldl live_step ∅ node_events.
Proof. split; apply (bool_decide_unpack _); vm_compute; exact I. Qed.

Lemma routes_follow_events_witness :
  ∃ x', node_run (ipam_of 5) (∅ : gmap RouteKey StaticRoute) node_events = Some x' ∧
    x' !! pods_key 16 24 subnet_value (ipam_of 5) 7 = Some (pods_route 16 24 subnet_value (ipam_of 5) 7) ∧
    x' !! pods_key 16 24 subnet_value (ipam_of 5) 6 = None.
Proof.
  destruct (routes_follow_events map_agent_succeeds 16 24 subnet_value 16 24 vswitch_value (ipam_of 5) example_nets
    (∅ : gmap RouteKey StaticRoute) node_events) as (x' & Hr & Hl & Hg & _).
  - repeat (apply Forall_cons; split); [apply node_event_fits; lia..|constructor].
  - exists x'. split; [exact Hr|]. split.
    + exact (proj1 (Hl 7%Z (proj1 live_seven) (proj2 live_seven))).
    + exact (proj1 (Hg 6%Z (proj1 gone_six) (proj2 gone_six))).
Defined.

(** A removal whose event has no value is taken for the removal of host 0, or is
    not decoded: the routes of the removed node stay. *)
Example removed_node_keeps_routes :
  let i := ipam_of 5 in
  size <$> node_run i (∅ : gmap RouteKey StaticRoute)
    [node_event ChangePut 6; mkNodeEvent (createKey 6) ChangeDelete (Ok (mkIdentifier 0 ""%string))] = Some 2 ∧
  size <$> node_run i (∅ : gmap RouteKey StaticRoute)
    [node_event ChangePut 6; mkNodeEvent (createKey 6) ChangeDelete (Err "unexpected end of JSON input"%string)] = Some 2.
Proof. split; vm_compute; reflexivity. Qed.

(** A change event with the node's own ID, which a resync leaves out, installs
    routes from the node to itself. *)
Example own_node_gets_routes :
  let i := ipam_of 5 in
  size <$> node_run i (∅ : gmap RouteKey StaticRoute) [node_event ChangePut 5] = Some 2 ∧
  (λ r, size r.1) <$> (@nodeResync canonical_order _ _ map_agent i (∅ : gmap RouteKey StaticRoute)
    {[allocatedIDsKeyPrefix := [Ok (mkIdentifier 5 "node"%string)]]}) = Some 0.
Proof. split; vm_compute; reflexivity. Qed.
