(* ===== verification/CniServer.v ===== *)
(** * The CNI server

    plugins/contiv/remote_cni_server.go with the calls of pod.go, host.go and
    node.go it makes: the connection of a pod to the vswitch (Add), its removal
    (Delete) and the configuration of the vswitch itself (resync).

    The agent, VPP and Linux are the class [CniEnv] over a state [X]: every call
    may fail, and a call that fails may have had an effect. The handlers are
    written in the monad [CM]: it passes the state, an error ends a handler with
    the state reached so far, and [None] is a panic. The lock makes handlers
    atomic; a handler that waits for the configuration of the vswitch gives the
    lock up and is taken up again in a later state ([Waits]). Waiting for a time
    (sleeps, the poll for the index of an interface) has no effect in the model. *)

From Stdlib Require Import ZArith Lia Ascii String.
From stdpp Require Import prelude strings list gmap.
From S2P Require Import Prelude GoStrings GoErrors GoNet Ipam CniModel PolicyCache KvdbProxy ContainerIdx.

(** ** The environment *)

Inductive VppRequest :=
  | StnAddDelRule (ipAddress : IP) (swIfIndex : Z)
  | AppNamespaceAddDel (secret swIfIndex : Z) (namespaceID : string) (namespaceIDLen : Z)
  | IPNeighborAddDel (swIfIndex : Z) (macAddress : string) (dstAddress : IP)
  | CliInband (cmd : string)
  | SessionEnable.

Record VppReply := mkVppReply { Retval : Z; AppnsIndex : Z }.

Record SwInterfaceDetails := mkSwInterfaceDetails {
  SwIfIndex : Z; SwInterfaceName : list Z; L2Address : list Z; L2AddressLength : Z
}.

Record Link := mkLink { Link_Index : Z; HardwareAddr : list Z }.

(** Calls that change Linux; the first argument of the last three is the network
    namespace they run in. *)
Inductive LinuxCall :=
  | SetInterfaceNamespace (name ns : string)
  | SwitchNamespace (ns : string)
  | RenameInterface (old new : string)
  | SetInterfaceMac (name mac : string)
  | AddInterfaceIP (name : string) (net : IPNet)
  | DeleteInterface (name : string)
  | RevertNs
  | Ethtool (pid : Z)
  | RouteAdd (ns : option string) (linkIndex : Z) (dst : option IPNet) (gw : option IP)
  | AddDefaultRoute (ns : option string) (gw : IP) (dev : Link)
  | NeighAdd (ns : option string) (linkIndex : Z) (ip : IP) (mac : list Z).

Class CniEnv (X E : Type) := {
  env_agent :: VppAgent X E;
  LookupIdx : X → string → option Z;
  swif_ListNames : X → list string;
  govpp_request : X → VppRequest → X * VppReply * option E;
  govpp_dump : X → string → list (result E SwInterfaceDetails);
  ns_open : X → string → option E;
  LinkByName : X → option string → string → result E Link;
  linux_call : X → LinuxCall → X * option E
}.

(** The keys of the agent's objects in the data store. *)
Class AgentKeys := {
  vpp_InterfaceKey : string → string;
  linux_InterfaceKey : string → string;
  l3_RouteKey : Z → option IPNet → string → string
}.

Inductive CniMsg := MsgLinuxInterface (i : LinuxInterface) | MsgVppInterface (i : VppInterface) | MsgStaticRoute (r : StaticRoute).

Inductive CniError (E : Type) :=
  | EnvError (e : E)
  | CniIpamError (e : IpamError)
  | RetvalError (retval : Z)
  | InterfaceNotFound (name : string)
  | DetailsNotFound (prefix : string)
  | InvalidNamespace (ns : string).
Arguments EnvError {E} _.
Arguments CniIpamError {E} _.
Arguments RetvalError {E} _.
Arguments InterfaceNotFound {E} _.
Arguments DetailsNotFound {E} _.
Arguments InvalidNamespace {E} _.

(** ** The monad *)

Section cni.
Context `{RangeOracle} {X S M E : Type} `{!CniEnv X E, !KvsyncDelegate S E CniMsg, !NamedMapping M ContainerConfig, !AgentKeys}.

(** [cs_containers]: [configuredContainers], [None] when it is nil. *)
Record CniState := mkCniState {
  cs_srv : CNIServer;
  cs_world : X;
  cs_proxy : ProxySys S CniMsg;
  cs_containers : option M
}.

Definition CM (A : Type) : Type := CniState → option (CniState * result (CniError E) A).

#[global] Instance CM_ret : MRet CM := λ A a st, Some (st, Ok a).
#[global] Instance CM_bind : MBind CM := λ A B f m st,
  match m st with
  | None => None
  | Some (st, Err e) => Some (st, Err e)
  | Some (st, Ok a) => f a st
  end.

Definition cm_panic {A} : CM A := λ st, None.
Definition cm_fail {A} (e : CniError E) : CM A := λ st, Some (st, Err e).
Definition cm_or_panic {A} (o : option A) : CM A := match o with Some a => mret a | None => cm_panic end.
Definition cm_result {A} (r : result (CniError E) A) : CM A := match r with Ok a => mret a | Err e => cm_fail e end.
Definition get_srv : CM CNIServer := λ st, Some (st, Ok (cs_srv st)).
Definition get_world : CM X := λ st, Some (st, Ok (cs_world st)).
Definition set_world (x : X) : CM () := λ st, Some (mkCniState (cs_srv st) x (cs_proxy st) (cs_containers st), Ok ()).
Definition set_srv (f : CNIServer → CNIServer) : CM () := λ st,
  Some (mkCniState (f (cs_srv st)) (cs_world st) (cs_proxy st) (cs_containers st), Ok ()).

(** The error of a call: reported, or logged only. *)
Definition cm_error (err : option E) : CM () := match err with None => mret () | Some e => cm_fail (EnvError e) end.

Definition send (ops : list TxnOp) : CM () :=
  x ← get_world; let '(x, err) := txn_send x ops in _ ← set_world x; cm_error err.
Definition send_logged (ops : list TxnOp) : CM () :=
  x ← get_world; let '(x, _) := txn_send (E := E) x ops in set_world x.
Definition linux (c : LinuxCall) : CM () :=
  x ← get_world; let '(x, err) := linux_call x c in _ ← set_world x; cm_error err.
Definition linux_logged (c : LinuxCall) : CM () :=
  x ← get_world; let '(x, _) := linux_call (E := E) x c in set_world x.

(** A request to VPP over a channel that is not nil. *)
Definition govpp (req : VppRequest) : CM (VppReply * option E) :=
  x ← get_world; let '(x, reply, err) := govpp_request x req in _ ← set_world x; mret (reply, err).

(** Methods of [swIfIndex], which may be nil. *)
Definition lookup_idx (name : string) : CM (option Z) :=
  s ← get_srv; if hasSwIfIndex s then x ← get_world; mret (LookupIdx x name) else cm_panic.
Definition list_names : CM (list string) :=
  s ← get_srv; if hasSwIfIndex s then x ← get_world; mret (swif_ListNames x) else cm_panic.

Definition link_by_name (ns : option string) (name : string) : CM Link :=
  x ← get_world; match LinkByName x ns name with Ok l => mret l | Err e => cm_fail (EnvError e) end.

(** The function runs in the namespace, its error is returned. *)
Definition WithNetNSPath {A} (nspath : string) (toRun : option string → CM A) : CM A :=
  x ← get_world; match ns_open x nspath with Some e => cm_fail (EnvError e) | None => toRun (Some nspath) end.

Definition persist (removedKeys : list string) (putChanges : gmap string CniMsg) : CM () := λ st,
  let '(p, err) := persistChanges (E := E) (cs_proxy st) removedKeys putChanges in
  Some (mkCniState (cs_srv st) (cs_world st) p (cs_containers st), match err with None => Ok () | Some e => Err (EnvError e) end).

(** ** pod.go *)

Definition configureRoutesInContainer (request : CNIRequest) : CM () :=
  WithNetNSPath (NetworkNamespace request) (λ ns,
    s ← get_srv;
    gateway ← cm_or_panic (PodGatewayIP (srv_ipam s));
    dev ← link_by_name ns (InterfaceName request);
    _ ← linux (RouteAdd ns (Link_Index dev) (Some (ipToIPNet gateway)) None);
    linux (AddDefaultRoute ns gateway dev)).

Definition retrieveContainerMacAddr (namespace ifname : string) : CM (list Z) :=
  WithNetNSPath namespace (λ ns, link ← link_by_name ns ifname; mret (HardwareAddr link)).

(** [Retval] is looked at before the error. *)
Definition checked_request (req : VppRequest) : CM VppReply :=
  '(reply, err) ← govpp req;
  if negb (Retval reply =? 0)%Z then cm_fail (RetvalError (Retval reply)) else _ ← cm_error err; mret reply.

Definition configureArpOnVpp (request : CNIRequest) (ifIndex : Z) (macAddr : string) (podIP : IP) : CM () :=
  s ← get_srv;
  if hasGovpp s then _ ← checked_request (IPNeighborAddDel ifIndex macAddr (To4 podIP)); mret () else cm_panic.

Definition configureArpInContainer (macAddr : list Z) (request : CNIRequest) : CM () :=
  s ← get_srv;
  gw ← cm_or_panic (PodGatewayIP (srv_ipam s));
  WithNetNSPath (NetworkNamespace request) (λ ns,
    link ← link_by_name ns (InterfaceName request);
    linux (NeighAdd ns (Link_Index link) gw macAddr)).

(** The loop over the replies of a dump: the last one with the index. *)
Fixpoint find_details (ifIndex : Z) (res : option SwInterfaceDetails) (replies : list (result E SwInterfaceDetails)) :
    result (CniError E) (option SwInterfaceDetails) :=
  match replies with
  | [] => Ok res
  | Err e :: _ => Err (EnvError e)
  | Ok d :: replies => find_details ifIndex (if (SwIfIndex d =? ifIndex)%Z then Some d else res) replies
  end.

Definition getVppInterfaceDetails (intfNamePrefix : string) (ifIndex : Z) : CM SwInterfaceDetails :=
  s ← get_srv;
  if hasGovpp s then
    x ← get_world;
    res ← cm_result (find_details ifIndex None (govpp_dump x intfNamePrefix));
    match res with Some d => mret d | None => cm_fail (DetailsNotFound intfNamePrefix) end
  else mret (mkSwInterfaceDetails 0 [] [] 0).

Definition setupStn (podIP : string) (ifIndex : Z) : CM () :=
  s ← get_srv;
  if hasGovpp s then _ ← checked_request (StnAddDelRule (To4 (ParseIP podIP)) ifIndex); mret () else mret ().

Definition addAppNamespace (podNamespace ifname : string) : CM Z :=
  s ← get_srv;
  if negb (hasSwIfIndex s) then cm_fail (InterfaceNotFound ifname)
  else
    idx ← lookup_idx ifname;
    match idx with
    | None => cm_fail (InterfaceNotFound ifname)
    | Some idx =>
      if hasGovpp s then
        reply ← checked_request (AppNamespaceAddDel 42 idx podNamespace (u8 (Z.of_nat (String.length podNamespace))));
        mret (AppnsIndex reply)
      else mret 0%Z
    end.

(** Here the error is looked at first. *)
Definition executeCli (command : string) : CM () :=
  s ← get_srv;
  if hasGovpp s then
    '(reply, err) ← govpp (CliInband command);
    _ ← cm_error err;
    if negb (Retval reply =? 0)%Z then cm_fail (RetvalError (Retval reply)) else mret ()
  else mret ().

Definition fixPodToPodCommunication (podIP ifname : string) : CM () := executeCli ("ip container " +:+ podIP +:+ " " +:+ ifname)%string.

Definition disableTCPChecksumOffload (request : CNIRequest) : CM () :=
  match getPIDFromNwNsPath (NetworkNamespace request) with
  | None => cm_fail (InvalidNamespace (NetworkNamespace request))
  | Some pid => linux (Ethtool pid)
  end.

(** ** Add *)

(** [bytes.IndexByte(name, 0)] and the slice up to it; without a zero byte the
    index is -1 and the slice panics. *)
Fixpoint c_string (name : list Z) : option string :=
  match name with
  | [] => None
  | b :: name => if (b =? 0)%Z then Some ""%string else s ← c_string name; Some (String (ascii_of_N (Z.to_N b)) s)
  end.

(** [l\[:n\]] of a slice without spare capacity. *)
Definition slice_to (l : list Z) (n : Z) : option (list Z) :=
  if (n <=? Z.of_nat (length l))%Z then Some (take (Z.to_nat n) l) else None.

(** The TAP interface that VPP has created moves into the namespace of the
    container; after an error the old namespace is restored. *)
Definition in_container_ns (c : LinuxCall) : CM () := λ st,
  match linux c st with
  | Some (st, Err e) => (_ ← linux_logged RevertNs; cm_fail e) st
  | r => r
  end.

Definition configure_tap (request : CNIRequest) (podIPNet : IPNet) : CM () :=
  let tapTmpHostIfName := tapTmpHostNameFromRequest request in
  let tapHostIfName := tapHostNameFromRequest request in
  _ ← linux_logged (SetInterfaceNamespace tapTmpHostIfName (NetworkNamespace request));
  _ ← linux (SwitchNamespace (NetworkNamespace request));
  _ ← in_container_ns (RenameInterface tapTmpHostIfName tapHostIfName);
  _ ← in_container_ns (SetInterfaceMac tapHostIfName macAddrForContainer);
  _ ← in_container_ns (AddInterfaceIP tapHostIfName podIPNet);
  linux_logged RevertNs.

(** The interface between the pod and VPP, and the prefix of its name in VPP. *)
Definition pod_vpp_if (s : CNIServer) (request : CNIRequest) : VppInterface :=
  if useTAPInterfaces s then tapFromRequest s request else afpacketFromRequest s request.
Definition pod_vpp_if_prefix (s : CNIServer) (request : CNIRequest) : string :=
  if useTAPInterfaces s then "tap-"%string else ("host-" +:+ veth2NameFromRequest request)%string.

(** Everything up to the registration of the container: the result is the
    application namespace and the name of the interface in VPP. *)
Definition connect_pod (request : CNIRequest) (podIP : IP) : CM (Z * string) :=
  s ← get_srv;
  let podIPCIDR := (IP_String podIP +:+ "/32")%string in
  let veth1 := veth1FromRequest request podIPCIDR in
  let veth2 := veth2FromRequest request in
  let vppIf := pod_vpp_if s request in
  let loop := loopbackFromRequest request (IP_String podIP) in
  _ ← send ((if useTAPInterfaces s then [PutVppInterface vppIf]
             else [PutLinuxInterface veth1; PutLinuxInterface veth2; PutVppInterface vppIf])
            ++ (if disableTCPstack s then [] else [PutVppInterface loop]));
  _ ← (if useTAPInterfaces s then configure_tap request (mkIPNet podIP (CIDRMask 32 32)) else mret ());
  idx ← lookup_idx (VI_Name vppIf);
  vppIfIndex ← (match idx with Some i => mret i | None => cm_fail (InterfaceNotFound (VI_Name vppIf)) end : CM Z);
  vppIfDetails ← getVppInterfaceDetails (pod_vpp_if_prefix s request) vppIfIndex;
  vppIfName ← cm_or_panic (c_string (SwInterfaceName vppIfDetails));
  nsIndex ← (if disableTCPstack s then
               _ ← send [PutStaticRoute (vppRouteFromRequest s request podIPCIDR)]; mret 0%Z
             else
               _ ← setupStn (IP_String podIP) vppIfIndex;
               addAppNamespace (ContainerId request) (loopbackNameFromRequest request));
  _ ← configureArpOnVpp request vppIfIndex macAddrForContainer podIP;
  vppIfMac ← cm_or_panic (slice_to (L2Address vppIfDetails) (L2AddressLength vppIfDetails));
  _ ← configureArpInContainer vppIfMac request;
  _ ← configureRoutesInContainer request;
  _ ← (if disableTCPstack s then mret () else fixPodToPodCommunication (IP_String podIP) vppIfName);
  _ ← (if tcpChecksumOffloadDisabled s then disableTCPChecksumOffload request else mret ());
  _ ← persist []
        (if useTAPInterfaces s then {[vpp_InterfaceKey (VI_Name vppIf) := MsgVppInterface vppIf]}
         else <[vpp_InterfaceKey (VI_Name vppIf) := MsgVppInterface vppIf]>
                (<[linux_InterfaceKey (LI_Name veth2) := MsgLinuxInterface veth2]>
                   {[linux_InterfaceKey (LI_Name veth1) := MsgLinuxInterface veth1]}));
  mret (nsIndex, vppIfName).

Definition container_config (s : CNIServer) (request : CNIRequest) (podIP : IP) (nsIndex : Z) : ContainerConfig :=
  let extraArgs := parseExtraArgs (ExtraArguments request) in
  mkContainerConfig (default ""%string (extraArgs !! podNameExtraArg)) (default ""%string (extraArgs !! podNamespaceExtraArg))
    (Some (veth1FromRequest request (IP_String podIP +:+ "/32")%string)) (Some (veth2FromRequest request))
    (Some (pod_vpp_if s request)) None nsIndex.

Definition register (containerID : string) (config : ContainerConfig) : CM () := λ st,
  Some (mkCniState (cs_srv st) (cs_world st) (cs_proxy st) ((λ ci, RegisterContainer ci containerID config) <$> cs_containers st), Ok ()).

Definition createdInterfaces (gateway : IP) (ifName nsName podIP : string) : list ReplyInterface :=
  [mkReplyInterface ifName "" nsName [mkReplyIP IPV4 podIP (IP_String gateway)]].

Definition add_pod (request : CNIRequest) (podIP : IP) : CM (CNIReply (CniError E)) :=
  '(nsIndex, vppIfName) ← connect_pod request podIP;
  s ← get_srv;
  _ ← register (ContainerId request) (container_config s request podIP nsIndex);
  gateway ← cm_or_panic (PodGatewayIP (srv_ipam s));
  mret (mkCNIReply resultOk None
    (createdInterfaces gateway vppIfName (NetworkNamespace request) (IP_String podIP +:+ "/32")%string)
    [mkReplyRoute "0.0.0.0/0" (IP_String gateway)] []).

Definition generateErrorResponse (err : CniError E) : CNIReply (CniError E) := mkCNIReply resultErr (Some err) [] [] [].

(** A reply and an error, as the handlers return them; the reply is nil when
    there is no address for the pod. *)
Definition reply_of (r : option (CniState * result (CniError E) (CNIReply (CniError E)))) :
    option (CniState * (option (CNIReply (CniError E)) * option (CniError E))) :=
  match r with
  | None => None
  | Some (st, Ok reply) => Some (st, (Some reply, None))
  | Some (st, Err e) => Some (st, (Some (generateErrorResponse e), Some e))
  end.

Definition with_srv (st : CniState) (s : CNIServer) : CniState := mkCniState s (cs_world st) (cs_proxy st) (cs_containers st).

(** What a handler that is called in a state does: it waits on [vswitchCond],
    panics or answers. *)
Inductive Handling (A : Type) := Waits | Panics | Answers (a : A).
Arguments Waits {A}.
Arguments Panics {A}.
Arguments Answers {A} _.

(** [for !s.vswitchConnectivityConfigured { s.vswitchCond.Wait() }] and the body. *)
Definition when_configured {A} (st : CniState) (body : option A) : Handling A :=
  if negb (vswitchConnectivityConfigured (cs_srv st)) then Waits
  else match body with None => Panics | Some a => Answers a end.

Definition configureContainerConnectivity (st : CniState) (request : CNIRequest) :
    Handling (CniState * (option (CNIReply (CniError E)) * option (CniError E))) :=
  when_configured st $
  let s := set_counter (cs_srv st) (counter (cs_srv st) + 1) in
  '(i, r) ← NextPodIP (srv_ipam s) (NetworkNamespace request);
  let st := with_srv st (set_ipam s i) in
  match r with
  | Err e => Some (st, (None, Some (CniIpamError e)))
  | Ok podIP => reply_of (add_pod request podIP st)
  end.

(** ** Delete *)

Definition unregister (containerID : string) : CM () := λ st,
  Some (mkCniState (cs_srv st) (cs_world st) (cs_proxy st) ((λ ci, (UnregisterContainer ci containerID).1) <$> cs_containers st), Ok ()).

Definition release_ip (podID : string) : CM () := λ st,
  let '(i, r) := ReleasePodIP (srv_ipam (cs_srv st)) podID in
  Some (with_srv st (set_ipam (cs_srv st) i), match r with Ok _ => Ok () | Err e => Err (CniIpamError e) end).

(** The error of the removal of the TAP interface is dropped. *)
Definition remove_tap (request : CNIRequest) : CM () :=
  _ ← linux (SwitchNamespace (NetworkNamespace request));
  _ ← linux_logged (DeleteInterface (tapHostNameFromRequest request));
  linux_logged RevertNs.

Definition disconnect_pod (request : CNIRequest) : CM () :=
  s ← get_srv;
  let veth1 := veth1NameFromRequest request in
  let veth2 := veth2NameFromRequest request in
  let afpacket := afpacketNameFromRequest request in
  let tap := tapNameFromRequest request in
  let loop := loopbackNameFromRequest request in
  _ ← send (if useTAPInterfaces s then [DelVppInterface tap; DelVppInterface loop]
            else [DelLinuxInterface veth1; DelLinuxInterface veth2; DelVppInterface afpacket; DelVppInterface loop]);
  _ ← (if useTAPInterfaces s then remove_tap request else mret ());
  persist (if useTAPInterfaces s then [vpp_InterfaceKey tap]
           else [linux_InterfaceKey veth1; linux_InterfaceKey veth2; vpp_InterfaceKey afpacket]) ∅.

Definition delete_pod (request : CNIRequest) : CM (CNIReply (CniError E)) :=
  _ ← disconnect_pod request;
  _ ← unregister (ContainerId request);
  _ ← release_ip (NetworkNamespace request);
  mret (mkCNIReply resultOk None [] [] []).

Definition unconfigureContainerConnectivity (st : CniState) (request : CNIRequest) :
    Handling (CniState * (option (CNIReply (CniError E)) * option (CniError E))) :=
  when_configured st $ reply_of (delete_pod request st).

(** ** The vswitch *)

Fixpoint all_spaces (s : string) : bool :=
  match s with EmptyString => true | String c s => bool_decide (c = " "%char) && all_spaces s end.

(** The first interface that is neither local nor created for pods. *)
Definition nic_candidate (name : string) : bool :=
  negb (HasPrefix name "local" || HasPrefix name "loop" || HasPrefix name "host" || HasPrefix name "tap").

Definition nic_name (config : option OneNodeConfig) (names : list string) : string :=
  match config with
  | Some c => if negb (all_spaces (MainVppInterfaceName c)) then MainVppInterfaceName c
              else default ""%string (List.find nic_candidate names)
  | None => default ""%string (List.find nic_candidate names)
  end.

(** The configured addresses of the interfaces that exist. *)
Definition other_interfaces (config : OneNodeConfig) (names : list string) : gmap string VppInterface :=
  foldl (λ m name,
    foldl (λ m intIP,
      if bool_decide (IWI_InterfaceName intIP = name) then <[name := physicalInterfaceWithCustomIPAddress name (IWI_IP intIP)]> m else m)
      m (OtherVPPInterfaces config)) ∅ names.

Definition ipam_error {A} (r : result IpamError A) : CM A := match r with Ok a => mret a | Err e => cm_fail (CniIpamError e) end.

Definition configureRouteOnHost : CM () :=
  dev ← link_by_name None vethHostEndName;
  s ← get_srv;
  subnet ← cm_or_panic (PodSubnet (srv_ipam s));
  gw ← cm_or_panic (VEthVPPEndIP (srv_ipam s));
  linux (RouteAdd None (Link_Index dev) (Some subnet) (Some gw)).

Definition enableTCPSession : CM () :=
  s ← get_srv;
  if hasGovpp s then _ ← checked_request SessionEnable; mret () else mret ().

(** The physical interface, or a loopback in its place, and the other
    interfaces; the result is what has to be persisted. *)
Definition configure_nics : CM (gmap string CniMsg) :=
  names ← list_names;
  s ← get_srv;
  let config := specificConfigForCurrentNode s in
  let nicName := nic_name config names in
  nic ← ipam_error (if bool_decide (nicName = ""%string) then physicalInterfaceLoopback s else physicalInterface s nicName);
  _ ← send [PutVppInterface nic];
  let changes := {[vpp_InterfaceKey (VI_Name nic) := MsgVppInterface nic]} in
  match config with
  | None => mret changes
  | Some config =>
    if bool_decide (OtherVPPInterfaces config = []) then mret changes
    else
      names ← list_names;
      let interfaces := other_interfaces config names in
      if bool_decide (interfaces = ∅) then mret changes
      else
        let visited := go_range [93]%Z interfaces in
        _ ← send ((λ p, PutVppInterface p.2) <$> visited);
        mret (foldl (λ m p, <[vpp_InterfaceKey p.1 := MsgVppInterface p.2]> m) changes visited)
  end.

(** The interconnection with the host. *)
Definition configure_interconnect (changes : gmap string CniMsg) : CM (gmap string CniMsg) :=
  s ← get_srv;
  vethHost ← cm_or_panic (interconnectVethHost s);
  interconnectAF ← cm_or_panic (interconnectAfpacket s);
  route ← cm_or_panic (defaultRouteToHost s);
  _ ← send_logged [PutLinuxInterface vethHost; PutLinuxInterface interconnectVethVpp];
  _ ← send [PutVppInterface interconnectAF];
  _ ← send [PutStaticRoute route];
  mret (<[l3_RouteKey (SR_VrfId route) (snd <$> ParseCIDR (SR_DstIpAddr route)) (SR_NextHopAddr route) := MsgStaticRoute route]>
    (<[vpp_InterfaceKey (VI_Name interconnectAF) := MsgVppInterface interconnectAF]>
    (<[linux_InterfaceKey (LI_Name interconnectVethVpp) := MsgLinuxInterface interconnectVethVpp]>
    (<[linux_InterfaceKey (LI_Name vethHost) := MsgLinuxInterface vethHost]> changes)))).

(** The vswitch counts as configured also when the session layer cannot be
    enabled: this error is only returned. *)
Definition finish_vswitch : CM () := λ st,
  match (if disableTCPstack (cs_srv st) then mret () else enableTCPSession) st with
  | None => None
  | Some (st, r) => Some (with_srv st (set_configured (cs_srv st)), r)
  end.

Definition configureVswitchConnectivity : CM () :=
  _ ← list_names;
  found ← lookup_idx vethVPPEndName;
  match found with
  | Some _ => set_srv set_configured
  | None =>
    changes ← configure_nics;
    changes ← configure_interconnect changes;
    _ ← configureRouteOnHost;
    _ ← persist [] changes;
    finish_vswitch
  end.

Definition server_resync : CM () := configureVswitchConnectivity.

Definition cleanupVswitchConnectivity : CM () :=
  s ← get_srv;
  vethHost ← cm_or_panic (interconnectVethHost s);
  send_logged [DelLinuxInterface (LI_Name vethHost); DelLinuxInterface (LI_Name interconnectVethVpp)].

(** ** Requests *)

Inductive CniCall := CniAdd (request : CNIRequest) | CniDelete (request : CNIRequest) | CniResync.

(** What the caller gets: the reply and the error. *)
Definition CniAnswer : Type := option (CNIReply (CniError E)) * option (CniError E).

(** A request is answered in a state in which it does not wait. *)
Inductive cni_step : CniState → CniCall → CniAnswer → CniState → Prop :=
  | step_add st request st' a :
      configureContainerConnectivity st request = Answers (st', a) → cni_step st (CniAdd request) a st'
  | step_delete st request st' a :
      unconfigureContainerConnectivity st request = Answers (st', a) → cni_step st (CniDelete request) a st'
  | step_resync st st' r : server_resync st = Some (st', r) →
      cni_step st CniResync (None, match r with Ok _ => None | Err e => Some e end) st'.

Inductive cni_exec : CniState → list (CniCall * CniAnswer) → CniState → Prop :=
  | exec_done st : cni_exec st [] st
  | exec_step st c a st' tr st'' : cni_step st c a st' → cni_exec st' tr st'' → cni_exec st ((c, a) :: tr) st''.

(** The server as it is created. *)
Definition newRemoteCNIServer (config : IpamConfig) (nodes : list OneNodeConfig) (tcpChecksumOffloadDisabled disableTCPstack useTAP : bool)
    (tapVersion rx tx : Z) (label : string) (uid : Z) (govpp swif : bool) : result IpamError CNIServer :=
  i ← ipam_New uid config;
  Ok (mkCNIServer i 0 label nodes tcpChecksumOffloadDisabled false disableTCPstack useTAP tapVersion rx tx govpp swif).

Lemma when_configured_Answers {A} st (body : option A) a :
  when_configured st body = Answers a ↔ vswitchConnectivityConfigured (cs_srv st) = true ∧ body = Some a.
Proof.
  unfold when_configured. destruct (vswitchConnectivityConfigured (cs_srv st)), body; cbn; split; try done; naive_solver.
Qed.

End cni.

Arguments Handling A : clear implicits.
Arguments Waits {A}.
Arguments Panics {A}.
Arguments Answers {A} _.
Arguments CniState X S M : clear implicits.
Arguments mkCniState {X S M} _ _ _ _.
