(* ===== verification/CniServerProofs.v ===== *)
(** * Correctness of the CNI server

    Every call of a handler leaves the server's own state alone except for the
    last steps of Add and Delete; from this follow the outcome of a request, on
    success and on every error path, and the uniqueness of the addresses of
    connected pods under all sequences of requests. *)

From Stdlib Require Import ZArith Lia Ascii String.
From stdpp Require Import prelude strings list gmap.
From S2P Require Import Prelude GoStrings GoErrors GoNet Ipam IpamProofs RuleIds CniModel PolicyCache PolicyCacheProofs KvdbProxy ContainerIdx CniServer.

Create HintDb cni.

Section cni_proofs.
Context `{RangeOracle} {X S M E : Type} `{!CniEnv X E, !KvsyncDelegate S E CniMsg, !NamedMapping M ContainerConfig, !AgentKeys}.

Abbreviation State := (CniState X S M).

(** ** Frames *)

(** The server's own state is as before. *)
Definition frame (st st' : State) : Prop := cs_srv st' = cs_srv st ∧ cs_containers st' = cs_containers st.

Lemma frame_trans st st' st'' : frame st st' → frame st' st'' → frame st st''.
Proof. intros [H1 H2] [H3 H4]. split; congruence. Qed.

(** From states with the server [s0] the computation keeps the server's own state,
    its result satisfies [Q], and it does not panic if [R] holds. *)
Definition keeps (R : Prop) (s0 : CNIServer) {A} (m : CM (X := X) (S := S) (M := M) (E := E) A) (Q : A → Prop) : Prop :=
  ∀ st, cs_srv st = s0 →
    match m st with
    | None => ¬ R
    | Some (st', r) => frame st st' ∧ ∀ a, r = Ok a → Q a
    end.

Section rules.
Context (R : Prop) (s0 : CNIServer).
Abbreviation keeps0 := (keeps R s0).

Lemma keeps_ret {A} (a : A) (Q : A → Prop) : Q a → keeps0 (mret a) Q.
Proof. intros HQ st Hs. split; [done|]. by intros a' [= <-]. Qed.

Lemma keeps_bind {A B} (m : CM A) (f : A → CM B) (P : A → Prop) (Q : B → Prop) :
  keeps0 m P → (∀ a, P a → keeps0 (f a) Q) → keeps0 (m ≫= f) Q.
Proof.
  intros Hm Hf st Hs. specialize (Hm st Hs). unfold mbind, CM_bind. destruct (m st) as [[st' [a|e]]|]; [| |done].
  - destruct Hm as [[Hs' Hc'] HP]. specialize (Hf a (HP a eq_refl) st' (eq_trans Hs' Hs)).
    destruct (f a st') as [[st'' r]|]; [|done]. destruct Hf as [Hf HQ]. split; [by eapply frame_trans|done].
  - destruct Hm as [Hfr _]. by split.
Qed.

Lemma keeps_weaken {A} (m : CM A) (P Q : A → Prop) : keeps0 m P → (∀ a, P a → Q a) → keeps0 m Q.
Proof. intros Hm HPQ st Hs. specialize (Hm st Hs). destruct (m st) as [[st' r]|]; [|done]. naive_solver. Qed.

Lemma keeps_fail {A} e (Q : A → Prop) : keeps0 (cm_fail e) Q.
Proof. intros st Hs. by split. Qed.

Lemma keeps_panic {A} (Q : A → Prop) : ¬ R → keeps0 cm_panic Q.
Proof. by intros HR st Hs. Qed.

Lemma keeps_or_panic {A} (o : option A) : (R → is_Some o) → keeps0 (cm_or_panic o) (λ a, o = Some a).
Proof. destruct o; intros Ho; [by apply keeps_ret|]. apply keeps_panic. intros HR. by destruct (Ho HR). Qed.

Lemma keeps_result {A} (r : result (CniError E) A) : keeps0 (cm_result r) (λ a, r = Ok a).
Proof. destruct r; [by apply keeps_ret|apply keeps_fail]. Qed.

Lemma keeps_ipam_error {A} (r : result IpamError A) : keeps0 (ipam_error r) (λ _, True).
Proof. destruct r; [by apply keeps_ret|apply keeps_fail]. Qed.

Lemma keeps_error err : keeps0 (cm_error err) (λ _, True).
Proof. destruct err; [apply keeps_fail|by apply keeps_ret]. Qed.

Lemma keeps_get_srv : keeps0 get_srv (λ s, s = s0).
Proof. intros st Hs. split; [done|]. by intros a [= <-]. Qed.

Lemma keeps_get_world : keeps0 get_world (λ _, True).
Proof. intros st Hs. by split. Qed.

Lemma keeps_set_world x : keeps0 (set_world x) (λ _, True).
Proof. intros st Hs. by split. Qed.

Lemma keeps_persist removed puts : keeps0 (persist removed puts) (λ _, True).
Proof. intros st Hs. unfold persist. destruct (persistChanges _ _ _). by split. Qed.

End rules.

#[local] Hint Resolve keeps_or_panic keeps_result keeps_ipam_error keeps_error keeps_get_srv keeps_get_world keeps_set_world keeps_persist keeps_fail : cni.

(** One step through a handler: the rule of the first call from the database,
    or the branches of a conditional. *)
Ltac keeps_step :=
  cbv beta;
  lazymatch goal with
  | |- keeps _ _ (mret _) _ => apply keeps_ret; try done
  | |- keeps _ _ (cm_fail _) _ => apply keeps_fail
  | |- keeps _ _ (if ?b then _ else _) _ => destruct b eqn:?
  | |- keeps _ _ (let '(_, _) := ?p in _) _ => destruct p eqn:?
  | |- keeps _ _ (match ?x with _ => _ end) _ => destruct x eqn:?
  | |- keeps _ _ (_ ≫= _) _ => eapply keeps_bind; [solve [eauto with cni]|intros ? ?; cbv beta in *; try subst]
  end.
Ltac keeps_run := repeat keeps_step; try (solve [eauto with cni] || (eapply keeps_weaken; [solve [eauto with cni]|done])).

(** The same for a call that is itself composed. *)
Ltac keeps_block := eapply (keeps_bind _ _ _ _ (λ _, True)); [keeps_run|intros ? _; cbv beta].

Section calls.
Context (R : Prop) (s0 : CNIServer).
Abbreviation keeps0 := (keeps R s0).
Hypothesis R_govpp : R → hasGovpp s0 = true.
Hypothesis R_swif : R → hasSwIfIndex s0 = true.

Lemma keeps_send ops : keeps0 (send ops) (λ _, True).
Proof. unfold send. keeps_run. Qed.
Lemma keeps_send_logged ops : keeps0 (send_logged ops) (λ _, True).
Proof. unfold send_logged. keeps_run. Qed.
Lemma keeps_linux c : keeps0 (linux c) (λ _, True).
Proof. unfold linux. keeps_run. Qed.
Lemma keeps_linux_logged c : keeps0 (linux_logged c) (λ _, True).
Proof. unfold linux_logged. keeps_run. Qed.
Lemma keeps_govpp req : keeps0 (govpp req) (λ _, True).
Proof. unfold govpp. keeps_run. Qed.
Lemma keeps_link ns name : keeps0 (link_by_name ns name) (λ _, True).
Proof. unfold link_by_name. keeps_run. Qed.

Lemma keeps_lookup_idx name : keeps0 (lookup_idx name) (λ _, True).
Proof. unfold lookup_idx. keeps_run. apply keeps_panic. intros HR%R_swif. congruence. Qed.
Lemma keeps_list_names : keeps0 list_names (λ _, True).
Proof. unfold list_names. keeps_run. apply keeps_panic. intros HR%R_swif. congruence. Qed.

Lemma keeps_with_ns {A} path (f : option string → CM A) Q : (∀ ns, keeps0 (f ns) Q) → keeps0 (WithNetNSPath path f) Q.
Proof. intros Hf. unfold WithNetNSPath. keeps_run. Qed.

#[local] Hint Resolve keeps_send keeps_send_logged keeps_linux keeps_linux_logged keeps_govpp keeps_link keeps_lookup_idx keeps_list_names : cni.

Lemma keeps_checked req : keeps0 (checked_request req) (λ _, True).
Proof. unfold checked_request. keeps_run. Qed.
#[local] Hint Resolve keeps_checked : cni.

Hypothesis R_gateway : R → is_Some (PodGatewayIP (srv_ipam s0)).

Lemma keeps_gateway : keeps0 (cm_or_panic (PodGatewayIP (srv_ipam s0))) (λ _, True).
Proof. eapply keeps_weaken; [by apply keeps_or_panic|done]. Qed.
#[local] Hint Resolve keeps_gateway | 0 : cni.

Lemma keeps_routes_in_container request : keeps0 (configureRoutesInContainer request) (λ _, True).
Proof. apply keeps_with_ns. intros ns. keeps_run. Qed.
Lemma keeps_mac_addr namespace ifname : keeps0 (retrieveContainerMacAddr namespace ifname) (λ _, True).
Proof. apply keeps_with_ns. intros ns. keeps_run. Qed.
Lemma keeps_arp_on_vpp request i mac ip : keeps0 (configureArpOnVpp request i mac ip) (λ _, True).
Proof. unfold configureArpOnVpp. keeps_run. apply keeps_panic. intros HR%R_govpp. congruence. Qed.
Lemma keeps_arp_in_container mac request : keeps0 (configureArpInContainer mac request) (λ _, True).
Proof. unfold configureArpInContainer. do 2 keeps_step. apply keeps_with_ns. intros ns. keeps_run. Qed.
Lemma keeps_stn ip i : keeps0 (setupStn ip i) (λ _, True).
Proof. unfold setupStn. keeps_run. Qed.
Lemma keeps_app_namespace ns ifname : keeps0 (addAppNamespace ns ifname) (λ _, True).
Proof. unfold addAppNamespace. keeps_run. Qed.
Lemma keeps_cli command : keeps0 (executeCli command) (λ _, True).
Proof. unfold executeCli. keeps_run. Qed.
Lemma keeps_offload request : keeps0 (disableTCPChecksumOffload request) (λ _, True).
Proof. unfold disableTCPChecksumOffload. keeps_run. Qed.

(** The names and addresses VPP reports: a C string and an address of the
    length reported with it. *)
Definition details_wf (d : SwInterfaceDetails) : Prop :=
  is_Some (c_string (SwInterfaceName d)) ∧ is_Some (slice_to (L2Address d) (L2AddressLength d)).

Lemma find_details_in ifIndex res replies d : find_details (E := E) ifIndex res replies = Ok (Some d) → res = Some d ∨ Ok d ∈ replies.
Proof.
  revert res. induction replies as [|[d'|e] replies IH]; intros res; cbn [find_details]; [intros [= ->]; by left| |done].
  intros [Hres|Hin]%IH; [|right; by right]. destruct (SwIfIndex d' =? ifIndex)%Z; [injection Hres as ->; right; by left|by left].
Qed.

Hypothesis R_details : R → ∀ (x : X) prefix d, Ok d ∈ govpp_dump (E := E) x prefix → details_wf d.

Lemma keeps_details prefix i : keeps0 (getVppInterfaceDetails prefix i) (λ d, R → details_wf d).
Proof.
  unfold getVppInterfaceDetails. do 2 keeps_step; [|apply keeps_ret; intros HR%R_govpp; congruence].
  do 3 keeps_step; [|apply keeps_fail]. apply keeps_ret. intros HR.
  match goal with Hf : find_details _ _ _ = _ |- _ => destruct (find_details_in _ _ _ _ Hf) as [?|Hin]; [done|] end.
  by eapply R_details.
Qed.

Lemma keeps_in_ns c : keeps0 (in_container_ns c) (λ _, True).
Proof.
  intros st Hs. unfold in_container_ns. pose proof (keeps_linux c st Hs) as Hl. destruct (linux c st) as [[st' [a|e]]|]; [done| |done].
  destruct Hl as [[Hs' Hc'] _]. assert (keeps0 (_ ← linux_logged RevertNs; cm_fail e) (λ _ : (), True)) as Hk by keeps_run.
  specialize (Hk st' (eq_trans Hs' Hs)). destruct ((_ ← linux_logged RevertNs; cm_fail e) st') as [[st'' r]|]; [|done].
  destruct Hk as [Hf _]. split; [|done]. by eapply frame_trans.
Qed.
#[local] Hint Resolve keeps_routes_in_container keeps_arp_on_vpp keeps_arp_in_container keeps_stn keeps_app_namespace keeps_offload keeps_details keeps_in_ns : cni.

Lemma keeps_tap request net : keeps0 (configure_tap request net) (λ _, True).
Proof. unfold configure_tap. keeps_run. Qed.
Lemma keeps_remove_tap request : keeps0 (remove_tap request) (λ _, True).
Proof. unfold remove_tap. keeps_run. Qed.
#[local] Hint Resolve keeps_tap keeps_remove_tap : cni.

Lemma keeps_fix_pods ip ifname : keeps0 (fixPodToPodCommunication ip ifname) (λ _, True).
Proof. apply keeps_cli. Qed.
#[local] Hint Resolve keeps_fix_pods : cni.

Lemma keeps_connect request podIP : keeps0 (connect_pod request podIP) (λ _, True).
Proof.
  unfold connect_pod. do 2 keeps_step. keeps_block. keeps_step. keeps_block.
  eapply keeps_bind; [apply keeps_details|intros d Hd; cbv beta in Hd |- *].
  eapply keeps_bind; [apply keeps_or_panic; intros HR; by apply Hd|intros vppIfName _; cbv beta].
  keeps_block. keeps_step.
  eapply keeps_bind; [apply keeps_or_panic; intros HR; by apply Hd|intros mac _; cbv beta].
  do 2 keeps_step. do 2 keeps_block. keeps_run.
Qed.

Lemma keeps_disconnect request : keeps0 (disconnect_pod request) (λ _, True).
Proof. unfold disconnect_pod. do 2 keeps_step. keeps_block. keeps_run. Qed.

Hypothesis R_host : R → is_Some (interconnectVethHost s0) ∧ is_Some (interconnectAfpacket s0) ∧ is_Some (defaultRouteToHost s0) ∧
  is_Some (PodSubnet (srv_ipam s0)) ∧ is_Some (VEthVPPEndIP (srv_ipam s0)).

Ltac keeps_host := eapply keeps_bind; [apply keeps_or_panic; intros HR; apply (R_host HR)|intros ? _; cbv beta].

Lemma keeps_nics : keeps0 configure_nics (λ _, True).
Proof. unfold configure_nics. keeps_run. Qed.
Lemma keeps_interconnect changes : keeps0 (configure_interconnect changes) (λ _, True).
Proof. unfold configure_interconnect. keeps_step. do 3 keeps_host. keeps_run. Qed.
Lemma keeps_route_on_host : keeps0 configureRouteOnHost (λ _, True).
Proof. unfold configureRouteOnHost. do 2 keeps_step. do 2 keeps_host. keeps_run. Qed.
Lemma keeps_tcp_session : keeps0 enableTCPSession (λ _, True).
Proof. unfold enableTCPSession. keeps_run. Qed.
#[local] Hint Resolve keeps_nics keeps_interconnect keeps_route_on_host keeps_tcp_session : cni.

(** A resync changes nothing but the flag. *)
Definition resynced (st st' : State) (r : result (CniError E) ()) : Prop :=
  cs_containers st' = cs_containers st ∧ (cs_srv st' = cs_srv st ∨ cs_srv st' = set_configured (cs_srv st)) ∧
  (r = Ok () → cs_srv st' = set_configured (cs_srv st)).

Lemma resynced_after {A} (m : CM A) (f : A → CM ()) st : keeps0 m (λ _, True) → cs_srv st = s0 →
  (∀ a st', cs_srv st' = s0 → match f a st' with None => ¬ R | Some (st'', r) => resynced st' st'' r end) →
  match (m ≫= f) st with None => ¬ R | Some (st', r) => resynced st st' r end.
Proof.
  intros Hm Hs Hf. specialize (Hm st Hs). unfold mbind, CM_bind. destruct (m st) as [[st' [a|e]]|]; [| |done].
  - destruct Hm as [[Hs' Hc'] _]. specialize (Hf a st' (eq_trans Hs' Hs)). destruct (f a st') as [[st'' r]|]; [|done].
    unfold resynced in *. by rewrite Hs', Hc' in Hf.
  - destruct Hm as [[Hs' Hc'] _]. split_and!; [done|by left|done].
Qed.

Lemma resync_outcome st : cs_srv st = s0 → match server_resync st with None => ¬ R | Some (st', r) => resynced st st' r end.
Proof.
  intros Hs. unfold server_resync, configureVswitchConnectivity.
  apply resynced_after; [apply keeps_list_names|done|]. intros _ st1 H1.
  apply resynced_after; [apply keeps_lookup_idx|done|]. intros [idx|] st2 H2; [by split_and!; [|right|]|].
  apply resynced_after; [apply keeps_nics|done|]. intros changes st3 H3.
  apply resynced_after; [apply keeps_interconnect|done|]. intros changes' st4 H4.
  apply resynced_after; [apply keeps_route_on_host|done|]. intros _ st5 H5.
  apply resynced_after; [apply keeps_persist|done|]. intros _ st6 H6. unfold finish_vswitch.
  assert (keeps0 (if disableTCPstack (cs_srv st6) then mret () else enableTCPSession) (λ _, True)) as Hk by keeps_run.
  specialize (Hk st6 H6). destruct ((if disableTCPstack (cs_srv st6) then mret () else enableTCPSession) st6) as [[st7 r]|]; [|done].
  destruct Hk as [[Hs7 Hc7] _]. unfold resynced. cbn. rewrite Hs7, Hc7. split_and!; [done|by right|done].
Qed.

End calls.

(** ** Outcome of the requests *)

(** The handles of VPP are there, and VPP reports well-formed names. *)
Definition no_panic (s0 : CNIServer) : Prop :=
  hasGovpp s0 = true ∧ hasSwIfIndex s0 = true ∧ is_Some (PodGatewayIP (srv_ipam s0)) ∧
  ∀ (x : X) prefix d, Ok d ∈ govpp_dump (E := E) x prefix → details_wf d.

Lemma connect_outcome request podIP st :
  match connect_pod request podIP st with None => ¬ no_panic (cs_srv st) | Some (st', _) => frame st st' end.
Proof.
  assert (keeps (no_panic (cs_srv st)) (cs_srv st) (connect_pod request podIP) (λ _, True)) as Hk.
  { apply keeps_connect; intros (? & ? & ? & ?); done. }
  specialize (Hk st eq_refl). destruct (connect_pod request podIP st) as [[st' r]|]; [by destruct Hk|done].
Qed.

(** The reply to an Add that has succeeded. *)
Definition add_reply (request : CNIRequest) (podIP gateway : IP) (vppIfName : string) : CNIReply (CniError E) :=
  mkCNIReply resultOk None
    (createdInterfaces gateway vppIfName (NetworkNamespace request) (IP_String podIP +:+ "/32")%string)
    [mkReplyRoute "0.0.0.0/0" (IP_String gateway)] [].

Lemma add_pod_outcome request podIP st :
  match add_pod request podIP st with
  | None => ¬ no_panic (cs_srv st)
  | Some (st', Err _) => frame st st'
  | Some (st', Ok reply) =>
    cs_srv st' = cs_srv st ∧
    ∃ nsIndex vppIfName gateway, PodGatewayIP (srv_ipam (cs_srv st)) = Some gateway ∧ reply = add_reply request podIP gateway vppIfName ∧
      cs_containers st' = (λ ci, RegisterContainer ci (ContainerId request) (container_config (cs_srv st) request podIP nsIndex)) <$> cs_containers st
  end.
Proof.
  pose proof (connect_outcome request podIP st) as Hc. unfold add_pod, mbind at 1, CM_bind at 1.
  destruct (connect_pod request podIP st) as [[st' [[nsIndex vppIfName]|e]]|]; [|done|done]. destruct Hc as [Hs Hct].
  unfold mbind, CM_bind, get_srv, register. cbn. rewrite Hs. destruct (PodGatewayIP (srv_ipam (cs_srv st))) as [gateway|] eqn:Hg; cbn.
  - split; [done|]. exists nsIndex, vppIfName, gateway. by rewrite Hct.
  - intros (_ & _ & [? Hgw] & _). congruence.
Qed.

Lemma set_ipam_id s0 : set_ipam s0 (srv_ipam s0) = s0.
Proof. by destruct s0. Qed.

(** Delete never panics. The container is forgotten before its address is
    released. *)
Definition forgotten (request : CNIRequest) (st st' : State) : Prop :=
  cs_containers st' = (λ ci, (UnregisterContainer ci (ContainerId request)).1) <$> cs_containers st.

Lemma delete_pod_outcome request st :
  ∃ st' r, delete_pod request st = Some (st', r) ∧
    match r with
    | Err e => frame st st' ∨ (cs_srv st' = cs_srv st ∧ forgotten request st st')
    | Ok reply =>
      forgotten request st st' ∧ reply = mkCNIReply resultOk None [] [] [] ∧
      ∃ i, ReleasePodIP (srv_ipam (cs_srv st)) (NetworkNamespace request) = (i, Ok ()) ∧ cs_srv st' = set_ipam (cs_srv st) i
    end.
Proof.
  assert (keeps True (cs_srv st) (disconnect_pod request) (λ _, True)) as Hk by apply keeps_disconnect.
  specialize (Hk st eq_refl). unfold delete_pod, mbind at 1, CM_bind at 1.
  destruct (disconnect_pod request st) as [[st1 [[]|e]]|]; [| |done]; destruct Hk as [[Hs Hc] _]; [|eexists _, _; split; [done|by left]].
  unfold mbind, CM_bind, unregister, release_ip, with_srv. cbn. rewrite Hs.
  destruct (ReleasePodIP (srv_ipam (cs_srv st)) (NetworkNamespace request)) as [i [[]|e]] eqn:Hr; cbn.
  - eexists _, _. split; [done|]. unfold forgotten. cbn. rewrite Hc. split_and!; [done|done|]. by exists i.
  - eexists _, _. split; [done|]. right. unfold forgotten. cbn. rewrite Hc. split; [|done].
    assert (i = srv_ipam (cs_srv st)) as ->; [|apply set_ipam_id].
    unfold ReleasePodIP in Hr. case_bool_decide; [done|]. destruct (findIP _ _); by injection Hr.
Qed.

(** *** Add *)

Lemma gateway_some p n s i : ipam_nets p n s i → PodGatewayIP i = Some (podNetworkGatewayIP i).
Proof. intros [_ _ _ _ Hg]. unfold PodGatewayIP, newIP. rewrite Hg, uint32ToIpv4_bytes. done. Qed.

(** What the IPAM does for an Add. *)
Lemma NextPodIP_cases p n s i podID : ipam_inv p n s i →
  ∃ i' r, NextPodIP i podID = Some (i', r) ∧ ipam_inv p n s i' ∧ PodGatewayIP i' = Some (podNetworkGatewayIP i) ∧
    match r with
    | Ok ip => podID ≠ ""%string ∧ ∃ x, ip = uint32ToIpv4 x ∧ pod_range p n s i x ∧ assignedPodIPs i !! x = None ∧
                 assignedPodIPs i' = <[x := podID]> (assignedPodIPs i)
    | Err _ => i' = i
    end.
Proof.
  intros Hinv. pose proof (gateway_some p n s i (proj1 Hinv)) as Hgw. destruct (decide (podID = ""%string)) as [->|Hid].
  - by exists i, (Err ErrEmptyPodID).
  - destruct (NextPodIP_outcome p n s i podID Hinv Hid) as [(x & HN & Hr & Hf & _)|[HN _]].
    + eexists _, _. split; [done|]. split; [by eapply NextPodIP_inv|]. split; [done|]. split; [done|]. by exists x.
    + by exists i, (Err ErrNoFreeIP).
Qed.

(** The pod of a request. *)
Definition request_pod (request : CNIRequest) : string * string :=
  let extraArgs := parseExtraArgs (ExtraArguments request) in
  (default ""%string (extraArgs !! podNamespaceExtraArg), default ""%string (extraArgs !! podNameExtraArg)).

Context `{!NamedMappingLaws M ContainerConfig}.

Lemma pod_vpp_if_name s0 s1 request : useTAPInterfaces s0 = useTAPInterfaces s1 → VI_Name (pod_vpp_if s0 request) = VI_Name (pod_vpp_if s1 request).
Proof. intros Hu. unfold pod_vpp_if. rewrite Hu. by destruct (useTAPInterfaces s1). Qed.

(** The interface of the pod is found after its registration. *)
Lemma registered_found ci request s0 podIP nsIndex : container_indexed ci →
  (∀ id c, containers ci !! id = Some c → of_pod (request_pod request).1 (request_pod request).2 c → id = ContainerId request) →
  let ci' := RegisterContainer ci (ContainerId request) (container_config s0 request podIP nsIndex) in
  GetIfName ci' (request_pod request).1 (request_pod request).2 = (VI_Name (pod_vpp_if s0 request), true) ∧
  GetNsIndex ci' (request_pod request).1 (request_pod request).2 = (nsIndex, true).
Proof.
  intros Hci Huniq ci'. apply (lookups_of_pod ci' _ _ (ContainerId request) (container_config s0 request podIP nsIndex));
    [by apply Register_indexed| |done|done|].
  - unfold ci'. rewrite Register_containers. apply lookup_insert_eq.
  - intros id' c'. unfold ci'. rewrite Register_containers, lookup_insert_Some. intros [[<- _]|[_ Hl]]; [done|by apply Huniq].
Qed.


(** ** Sequences of requests *)

Definition reply_address (reply : CNIReply (CniError E)) : option string :=
  head (Reply_Interfaces reply ≫= λ i, ReplyIP_Address <$> ReplyInterface_IpAddresses i).

(** The connected pods: the address of the last Add that has succeeded, by
    network namespace, until a Delete succeeds. *)
Definition connected_step (live : gmap string string) (e : CniCall * CniAnswer (E := E)) : gmap string string :=
  match e with
  | (CniAdd request, (Some reply, None)) =>
    match reply_address reply with Some a => <[NetworkNamespace request := a]> live | None => live end
  | (CniDelete request, (_, None)) => delete (NetworkNamespace request) live
  | _ => live
  end.

Definition address_text (x : Z) : string := (IP_String (uint32ToIpv4 x) +:+ "/32")%string.

Definition address_net (x : Z) : IPNet := mkIPNet (uint32ToIpv4 x) (mask_bytes 4 32).

Lemma address_net_u32 x : is_u32 x → net_u32 32 x (address_net x).
Proof. intros Hx. split_and!; [done|lia|exact (Z.mod_1_r x)|reflexivity]. Qed.

Lemma address_net_canonical x : is_u32 x → canonical_v4 32 (address_net x).
Proof. intros Hx. apply canonical_net_u32. exists x. by apply address_net_u32. Qed.

Lemma address_text_net x : is_u32 x → address_text x = IPNet_String (address_net x).
Proof.
  intros Hx. pose proof (address_net_canonical x Hx) as Hc. unfold address_text, address_net in *.
  rewrite uint32ToIpv4_bytes in *. by rewrite (IPNet_String_v4 32 _ _ _ _ _ (canonical_v4_is_net _ _ Hc)).
Qed.

Lemma address_text_inj x y : is_u32 x → is_u32 y → address_text x = address_text y → x = y.
Proof.
  intros Hx Hy He. rewrite !address_text_net in He by done.
  apply IPNet_String_inj in He; [|exists 32; by apply address_net_canonical..].
  apply uint32ToIpv4_inj; [done|done|]. exact (f_equal IPNet_IP He).
Qed.

(** Every connected pod owns its address. *)
Definition addresses_owned (i : IPAM) (live : gmap string string) : Prop :=
  ∀ ns a, live !! ns = Some a → ∃ x, a = address_text x ∧ assignedPodIPs i !! x = Some ns.

Lemma pod_range_u32 p n s i x : ipam_nets p n s i → pod_range p n s i x → is_u32 x.
Proof. intros Hn%network_end. unfold pod_range, is_u32. lia. Qed.

(** The answers to an Add. *)
Lemma add_answer p n s (st : State) request st' a :
  ipam_inv p n s (srv_ipam (cs_srv st)) → configureContainerConnectivity st request = Answers (st', a) →
  let i := srv_ipam (cs_srv st) in
  let i' := srv_ipam (cs_srv st') in
  ipam_inv p n s i' ∧
  ((∃ x g vppIfName, a = (Some (add_reply request (uint32ToIpv4 x) (uint32ToIpv4 g) vppIfName), None) ∧
      podNetworkGatewayIP i = uint32ToIpv4 g ∧ assignedPodIPs i !! x = None ∧
      assignedPodIPs i' = <[x := NetworkNamespace request]> (assignedPodIPs i) ∧ pod_range p n s i x) ∨
   (∃ reply e, a = (reply, Some e) ∧ assignedPodIPs i ⊆ assignedPodIPs i')).
Proof.
  intros Hinv [_ Hadd]%when_configured_Answers. revert Hadd. cbv beta zeta.
  destruct (NextPodIP_cases p n s _ (NetworkNamespace request) Hinv) as (i1 & r & HN & Hinv' & Hgw & Hr).
  change (srv_ipam (set_counter (cs_srv st) (counter (cs_srv st) + 1))) with (srv_ipam (cs_srv st)). rewrite HN. cbn [mbind option_bind].
  set (s1 := set_ipam _ i1). destruct r as [podIP|e]; [|subst i1; intros [= <- <-]; split; [done|right; by eexists _, _]].
  destruct Hr as (_ & x & -> & Hx & Hfree & Has). pose proof (add_pod_outcome request (uint32ToIpv4 x) (with_srv st s1)) as Ho.
  destruct (add_pod request (uint32ToIpv4 x) (with_srv st s1)) as [[st1 [reply|e]]|]; cbn [reply_of]; [| |done]; intros [= <- <-].
  - destruct Ho as (Hs & _ & vppIfName & gateway & Hg & -> & _). cbn [with_srv cs_srv] in Hg, Hs. change (srv_ipam s1) with i1 in Hg.
    rewrite Hgw in Hg. injection Hg as <-. rewrite Hs. split; [done|]. left. pose proof (in_gateway _ _ _ _ (proj1 Hinv)) as Hig.
    eexists x, _, vppIfName. rewrite <-Hig. by split_and!.
  - destruct Ho as [Hs _]. rewrite Hs. split; [done|]. right. eexists _, _. split; [done|]. cbn. rewrite Has. by apply insert_subseteq.
Qed.

Lemma add_owned p n s st request st' a live : ipam_inv p n s (srv_ipam (cs_srv st)) → addresses_owned (srv_ipam (cs_srv st)) live →
  configureContainerConnectivity st request = Answers (st', a) →
  ipam_inv p n s (srv_ipam (cs_srv st')) ∧ addresses_owned (srv_ipam (cs_srv st')) (connected_step live (CniAdd request, a)).
Proof.
  intros Hinv Hown Hc. destruct (add_answer p n s st request st' a Hinv Hc)
    as [Hinv' [(x & g & vppIfName & -> & _ & Hfree & Has & _)|(reply & e & -> & Hsub)]];
    (split; [done|]); cbn [connected_step].
  - change (reply_address _) with (Some (address_text x)). intros ns a [[<- <-]|[_ Hl]]%lookup_insert_Some.
    + exists x. split; [done|]. rewrite Has. apply lookup_insert_eq.
    + destruct (Hown ns a Hl) as (y & -> & Hy). exists y. split; [done|]. rewrite Has, lookup_insert_ne; [done|]. intros ->. congruence.
  - assert (addresses_owned (srv_ipam (cs_srv st')) live) as Hown'; [|by destruct reply].
    intros ns a (y & -> & Hy)%Hown. exists y. split; [done|]. by eapply lookup_weaken.
Qed.

Lemma delete_owned p n s st request st' a live : ipam_inv p n s (srv_ipam (cs_srv st)) → addresses_owned (srv_ipam (cs_srv st)) live →
  unconfigureContainerConnectivity st request = Answers (st', a) →
  ipam_inv p n s (srv_ipam (cs_srv st')) ∧ addresses_owned (srv_ipam (cs_srv st')) (connected_step live (CniDelete request, a)).
Proof.
  intros Hinv Hown [_ Hdel]%when_configured_Answers. revert Hdel. destruct (delete_pod_outcome request st) as (st1 & r & -> & Hr).
  destruct r as [reply|e]; cbn [reply_of]; intros [= <- <-].
  - destruct Hr as (_ & _ & i & Hrel & ->). cbn [connected_step]. change (srv_ipam (set_ipam (cs_srv st) i)) with i.
    pose proof (ReleasePodIP_inv p n s _ (NetworkNamespace request) Hinv) as Hi. rewrite Hrel in Hi. split; [done|].
    intros ns a [Hne Hl]%lookup_delete_Some. destruct (Hown ns a Hl) as (x & -> & Hx). exists x. split; [done|].
    destruct (decide (NetworkNamespace request = ""%string)) as [He|Hid]; [rewrite He in Hrel; by injection Hrel as <-|].
    destruct (ReleasePodIP_outcome (srv_ipam (cs_srv st)) _ Hid) as [(ip & HR & Hip)|[HR _]]; rewrite Hrel in HR; [|done].
    injection HR as ->. cbn [set_assignedPodIPs assignedPodIPs]. rewrite lookup_delete_ne; [done|]. intros ->. congruence.
  - assert (cs_srv st1 = cs_srv st) as -> by (by destruct Hr as [[? _]|[? _]]). by split.
Qed.

Lemma resync_resynced (st st' : State) r : server_resync st = Some (st', r) → resynced st st' r.
Proof.
  intros Hres. pose proof (resync_outcome False (cs_srv st)) as Ho. specialize (Ho ltac:(done) ltac:(done) ltac:(done) st eq_refl).
  by rewrite Hres in Ho.
Qed.

Lemma step_owned p n s st c a st' live : cni_step st c a st' → ipam_inv p n s (srv_ipam (cs_srv st)) → addresses_owned (srv_ipam (cs_srv st)) live →
  ipam_inv p n s (srv_ipam (cs_srv st')) ∧ addresses_owned (srv_ipam (cs_srv st')) (connected_step live (c, a)).
Proof.
  intros [st1 request st2 a' Hadd|st1 request st2 a' Hdel|st1 st2 r Hres] Hinv Hown; [by eapply add_owned|by eapply delete_owned|].
  apply resync_resynced in Hres as (_ & [Hs|Hs] & _).
  all: rewrite Hs; by split.
Qed.

Lemma exec_owned p n s st tr st' live : cni_exec st tr st' → ipam_inv p n s (srv_ipam (cs_srv st)) → addresses_owned (srv_ipam (cs_srv st)) live →
  ipam_inv p n s (srv_ipam (cs_srv st')) ∧ addresses_owned (srv_ipam (cs_srv st')) (foldl connected_step live tr).
Proof.
  intros He. revert live. induction He as [|st c a st1 tr st2 Hstep _ IH]; intros live Hinv Hown; [done|].
  destruct (step_owned p n s _ _ _ _ live Hstep Hinv Hown). cbn [foldl]. by apply IH.
Qed.

(** C13. Connected pods never share an address: after any sequence of Add, Delete and
    resync, with any errors in between, the addresses in the replies to the
    Add requests of pods that are still connected are different, lie in the pod
    network of the node and are not the gateway's. *)
Theorem pod_addresses_unique (p n : nat) (s : Z) (st st' : State) (tr : list (CniCall * CniAnswer (E := E))) :
  ipam_inv p n s (srv_ipam (cs_srv st)) → cni_exec st tr st' →
  let live := foldl connected_step ∅ tr in
  (∀ ns1 ns2 a, live !! ns1 = Some a → live !! ns2 = Some a → ns1 = ns2) ∧
  (∀ ns a, live !! ns = Some a → ∃ x, a = address_text x ∧
     IPNet_Contains (podNetworkIPPrefix (srv_ipam (cs_srv st'))) (uint32ToIpv4 x) = true ∧
     uint32ToIpv4 x ≠ podNetworkGatewayIP (srv_ipam (cs_srv st'))).
Proof.
  intros Hinv He live. destruct (exec_owned p n s st tr st' ∅ He Hinv) as [Hinv' Hown]; [by intros ns a|]. fold live in Hown.
  assert (∀ x ns, assignedPodIPs (srv_ipam (cs_srv st')) !! x = Some ns → pod_range p n s (srv_ipam (cs_srv st')) x) as Hrange.
  { intros x ns Hx. apply (proj2 Hinv'). by exists ns. }
  assert (∀ x ns, assignedPodIPs (srv_ipam (cs_srv st')) !! x = Some ns → is_u32 x) as Hu.
  { intros x ns Hx%Hrange. by eapply pod_range_u32; [apply Hinv'|]. }
  split.
  - intros ns1 ns2 a (x & -> & Hx)%Hown (y & Hy & Hy')%Hown. apply address_text_inj in Hy; [|by eapply Hu..]. subst y. congruence.
  - intros ns a (x & -> & Hx)%Hown. exists x. split; [done|].
    destruct (pod_range_net p n s _ x (proj1 Hinv') (Hrange x ns Hx)) as (? & ? & _). done.
Qed.

End cni_proofs.
