(* ===== verification/CniClient.v ===== *)
(** * The CNI executable

    cmd/contiv-cni/contiv_cni.go: the program that Kubernetes starts for every
    pod. It forwards the request to the CNI server over gRPC and prints the reply
    in the format of the CNI specification.

    The decoder of the configuration and the connection are parameters. *)

From Stdlib Require Import ZArith Lia Ascii String.
From stdpp Require Import prelude strings list gmap.
From S2P Require Import Prelude GoErrors GoNet Ipam IpamProofs CniModel PolicyCache KvdbProxy ContainerIdx CniServer CniServerProofs.

(** ** Data *)

Record cniConfig := mkCniConfig { CNIVersion : string; hasPrevResult : bool; GrpcServer : string }.

(** [skel.CmdArgs] of the CNI library. *)
Record CmdArgs := mkCmdArgs { Args_ContainerID : string; Args_Netns : string; Args_IfName : string; Args_Args : string; StdinData : string }.

Record ResultInterface := mkResultInterface { RI_Name : string; RI_Mac : string; RI_Sandbox : string }.
Record IPConfig := mkIPConfig { IPC_Address : IPNet; IPC_Version : string; IPC_Interface : nat; IPC_Gateway : IP }.
Record ResultRoute := mkResultRoute { RR_Dst : IPNet; RR_GW : IP }.
Record CniResult := mkCniResult {
  Res_CNIVersion : string;
  Res_Interfaces : list ResultInterface;
  Res_IPs : list IPConfig;
  Res_Routes : list ResultRoute;
  Res_DNS : ReplyDNS
}.

Inductive ClientError (E : Type) :=
  | ConfigError (e : E)
  | ChainingNotSupported
  | GrpcServerRequired
  | GrpcError (e : E)
  | ClientCIDRError (text : string).
Arguments ConfigError {E} _.
Arguments ChainingNotSupported {E}.
Arguments GrpcServerRequired {E}.
Arguments GrpcError {E} _.
Arguments ClientCIDRError {E} _.

Section client.
Context {E : Type}.
(** [json.Unmarshal]; [grpcConnect] and the two calls of the remote server. *)
Variable unmarshal : string → result E cniConfig.
Variable remote_Add : string → CNIRequest → result E (CNIReply E).
Variable remote_Delete : string → CNIRequest → result E (CNIReply E).

Definition parseCNIConfig (bytes : string) : result (ClientError E) cniConfig :=
  match unmarshal bytes with
  | Err e => Err (ConfigError e)
  | Ok conf =>
    if hasPrevResult conf then Err ChainingNotSupported
    else if bool_decide (GrpcServer conf = ""%string) then Err GrpcServerRequired
    else Ok conf
  end.

Definition request_of (cfg : cniConfig) (args : CmdArgs) : CNIRequest :=
  mkCNIRequest (CNIVersion cfg) (Args_ContainerID args) (Args_Netns args) (Args_IfName args) (StdinData args) (Args_Args args).

(** [last] is the index of the last interface: all addresses share a pointer to
    the loop variable, which has this value in the end. *)
Definition ip_config (last : nat) (ip : ReplyIP) : result (ClientError E) IPConfig :=
  match ParseCIDR (ReplyIP_Address ip) with
  | None => Err (ClientCIDRError (ReplyIP_Address ip))
  | Some (_, ipAddr) =>
    Ok (mkIPConfig ipAddr (match ReplyIP_Version ip with IPV4 => "4" | IPV6 => "6" end)%string last
      (if bool_decide (ReplyIP_Gateway ip = ""%string) then [] else ParseIP (ReplyIP_Gateway ip)))
  end.

Definition route_config (route : ReplyRoute) : result (ClientError E) ResultRoute :=
  match ParseCIDR (ReplyRoute_Dst route) with
  | None => Err (ClientCIDRError (ReplyRoute_Dst route))
  | Some (_, dstIP) => Ok (mkResultRoute dstIP (ParseIP (ReplyRoute_Gw route)))
  end.

(** A loop that ends at the first error. *)
Fixpoint map_result {A B} (f : A → result (ClientError E) B) (l : list A) : result (ClientError E) (list B) :=
  match l with
  | [] => Ok []
  | a :: l => b ← f a; bs ← map_result f l; Ok (b :: bs)
  end.

Definition result_of (version : string) (r : CNIReply E) : result (ClientError E) CniResult :=
  let last := length (Reply_Interfaces r) - 1 in
  ips ← map_result (ip_config last) (Reply_Interfaces r ≫= ReplyInterface_IpAddresses);
  routes ← map_result route_config (Reply_Routes r);
  Ok (mkCniResult version
    ((λ i, mkResultInterface (ReplyInterface_Name i) (ReplyInterface_Mac i) (Sandbox i)) <$> Reply_Interfaces r)
    ips routes (foldl (λ _ dns, dns) (mkReplyDNS "" [] [] []) (Reply_Dns r))).

(** What is printed. *)
Definition cmdAdd (args : CmdArgs) : result (ClientError E) CniResult :=
  cfg ← parseCNIConfig (StdinData args);
  match remote_Add (GrpcServer cfg) (request_of cfg args) with
  | Err e => Err (GrpcError e)
  | Ok r => result_of (CNIVersion cfg) r
  end.

Definition cmdDel (args : CmdArgs) : result (ClientError E) () :=
  cfg ← parseCNIConfig (StdinData args);
  match remote_Delete (GrpcServer cfg) (request_of cfg args) with
  | Err e => Err (GrpcError e)
  | Ok _ => Ok ()
  end.
End client.

(** ** Addresses *)

Lemma gateway_parses v : ParseIP (IP_String (uint32ToIpv4 v)) = To16 (uint32ToIpv4 v).
Proof. destruct (uint32ToIpv4_wf v) as [_ Hw]. rewrite uint32ToIpv4_bytes in *. rewrite ParseIP_String by done. reflexivity. Qed.

Lemma address_parses {E} last x gateway : is_u32 x → gateway ≠ ""%string →
  ip_config (E := E) last (mkReplyIP IPV4 (address_text x) gateway) = Ok (mkIPConfig (address_net x) "4" last (ParseIP gateway)).
Proof.
  intros Hx Hg. unfold ip_config. cbn [ReplyIP_Address ReplyIP_Version ReplyIP_Gateway]. rewrite address_text_net by done.
  destruct (ParseCIDR_String 32 (address_net x) (address_net_canonical x Hx)) as (a & b & c & d & _ & ->).
  by rewrite bool_decide_eq_false_2.
Qed.

Definition default_net : IPNet := mkIPNet [0; 0; 0; 0]%Z [0; 0; 0; 0]%Z.

Lemma default_route_parses {E} v :
  route_config (E := E) (mkReplyRoute "0.0.0.0/0" (IP_String (uint32ToIpv4 v))) = Ok (mkResultRoute default_net (To16 (uint32ToIpv4 v))).
Proof.
  unfold route_config. cbn [ReplyRoute_Dst ReplyRoute_Gw]. rewrite gateway_parses.
  assert (ParseCIDR "0.0.0.0/0" = Some (net_IPv4 0 0 0 0, default_net)) as -> by (vm_compute; reflexivity). done.
Qed.

Lemma address_not_empty v : IP_String (uint32ToIpv4 v) ≠ ""%string.
Proof.
  intros He. pose proof (gateway_parses v) as Hg. rewrite He, uint32ToIpv4_bytes in Hg. discriminate (f_equal length Hg).
Qed.

(** ** The executable and the server *)

Section end_to_end.
Context `{RangeOracle} {X S M E : Type} `{!CniEnv X E, !KvsyncDelegate S E CniMsg, !NamedMapping M ContainerConfig, !AgentKeys}.

(** What the executable prints for a pod with the address [x]. *)
Definition pod_result (version netns vppIfName : string) (x : Z) (gateway : IP) : CniResult :=
  mkCniResult version [mkResultInterface vppIfName "" netns] [mkIPConfig (address_net x) "4" 0 (To16 gateway)]
    [mkResultRoute default_net (To16 gateway)] (mkReplyDNS "" [] [] []).

Lemma result_of_reply version request x g vppIfName : is_u32 x →
  result_of version (add_reply (E := E) request (uint32ToIpv4 x) (uint32ToIpv4 g) vppIfName) =
  Ok (pod_result version (NetworkNamespace request) vppIfName x (uint32ToIpv4 g)).
Proof.
  intros Hx. unfold result_of.
  change (Reply_Interfaces (add_reply request (uint32ToIpv4 x) (uint32ToIpv4 g) vppIfName))
    with [mkReplyInterface vppIfName "" (NetworkNamespace request) [mkReplyIP IPV4 (address_text x) (IP_String (uint32ToIpv4 g))]].
  change (Reply_Routes (add_reply request (uint32ToIpv4 x) (uint32ToIpv4 g) vppIfName)) with [mkReplyRoute "0.0.0.0/0" (IP_String (uint32ToIpv4 g))].
  cbn [mbind list_bind ReplyInterface_IpAddresses app map_result length Nat.sub].
  rewrite address_parses, gateway_parses by (done || apply address_not_empty). rewrite default_route_parses. done.
Qed.

(** gRPC delivers the reply, or an error when the handler returns one. *)
Definition delivered (a : CniAnswer (E := E)) (r : result (CniError E) (CNIReply (CniError E))) : Prop :=
  match a.2 with
  | Some _ => ∃ e, r = Err e
  | None => ∀ reply, a.1 = Some reply → r = Ok reply
  end.

(** C14. An ADD from the executable through the server: when the server succeeds,
    the executable prints exactly the address that the IPAM has taken for the
    network namespace of the pod, as a host network, with the gateway of the pod
    network, and a default route through it; an error of the server is an error
    of the executable. *)
Theorem cni_client_reports (p n : nat) (s : Z) (st st' : CniState X S M) (unmarshal : string → result (CniError E) cniConfig)
    (remote_Add : string → CNIRequest → result (CniError E) (CNIReply (CniError E))) (args : CmdArgs) (cfg : cniConfig) (a : CniAnswer) :
  ipam_inv p n s (srv_ipam (cs_srv st)) → parseCNIConfig unmarshal (StdinData args) = Ok cfg →
  configureContainerConnectivity st (request_of cfg args) = Answers (st', a) →
  delivered a (remote_Add (GrpcServer cfg) (request_of cfg args)) →
  let i := srv_ipam (cs_srv st) in
  match a.2 with
  | None => ∃ x vppIfName,
      cmdAdd unmarshal remote_Add args = Ok (pod_result (CNIVersion cfg) (Args_Netns args) vppIfName x (podNetworkGatewayIP i)) ∧
      assignedPodIPs i !! x = None ∧ assignedPodIPs (srv_ipam (cs_srv st')) = <[x := Args_Netns args]> (assignedPodIPs i) ∧
      IPNet_Contains (podNetworkIPPrefix i) (uint32ToIpv4 x) = true ∧ uint32ToIpv4 x ≠ podNetworkGatewayIP i
  | Some _ => ∃ e, cmdAdd unmarshal remote_Add args = Err (GrpcError e)
  end.
Proof.
  intros Hinv Hcfg Hc Hd i. assert (cmdAdd unmarshal remote_Add args =
    match remote_Add (GrpcServer cfg) (request_of cfg args) with Err e => Err (GrpcError e) | Ok r => result_of (CNIVersion cfg) r end) as ->.
  { unfold cmdAdd. by rewrite Hcfg. }
  destruct (add_answer p n s st (request_of cfg args) st' a Hinv Hc) as [_ [(x & g & vppIfName & -> & Hg & Hfree & Has & Hx)|(reply & e & -> & _)]].
  - cbn [snd]. specialize (Hd _ eq_refl). rewrite Hd. subst i. rewrite Hg.
    destruct (pod_range_net p n s _ x (proj1 Hinv) Hx) as (Hin & Hne & _). rewrite Hg in Hne.
    exists x, vppIfName. split_and!; [|done..]. apply result_of_reply. by eapply pod_range_u32; [apply Hinv|].
  - destruct Hd as [e' ->]. cbn [snd]. by exists e'.
Qed.
End end_to_end.
