(* ===== verification/CniExamples.v ===== *)
(** * The CNI server on examples

    An environment in memory, the instances of the theorems on it, and inputs on
    which the server does not do what it means to. *)

From Stdlib Require Import ZArith Lia Ascii String.
From stdpp Require Import prelude strings list gmap.
From S2P Require Import Prelude GoStrings GoErrors GoNet Ipam IpamProofs CniModel PolicyCache PolicyCacheProofs KvdbProxy ContainerIdx CniServer CniServerProofs.
From S2P Require Import PolicyCacheEvents CniClient.

#[local] Existing Instance canonical_order.

(** ** The environment *)

(** The interfaces of VPP with their indexes; when [linux_fails] is set, every
    call that changes Linux fails. *)
Record ExWorld := mkExWorld { ex_ifs : gmap string Z; linux_fails : bool }.

Definition ex_apply (m : gmap string Z) (op : TxnOp) : gmap string Z :=
  match op with
  | PutVppInterface i => <[VI_Name i := Z.of_nat (size m)]> m
  | DelVppInterface name => delete name m
  | _ => m
  end.

#[local] Instance ex_agent : VppAgent ExWorld string :=
  {| txn_send x ops := (mkExWorld (foldl ex_apply (ex_ifs x) ops) (linux_fails x), None) |}.

Definition ex_details (idx : Z) : SwInterfaceDetails := mkSwInterfaceDetails idx [104; 111; 115; 116; 0]%Z [2; 0; 0; 0; 0; 1; 0; 0]%Z 6.

#[local] Instance ex_env : CniEnv ExWorld string := {|
  LookupIdx x name := ex_ifs x !! name;
  swif_ListNames x := (map_to_list (ex_ifs x)).*1;
  govpp_request x _ := (x, mkVppReply 0 7, None);
  govpp_dump x _ := (λ p, Ok (ex_details p.2)) <$> map_to_list (ex_ifs x);
  ns_open _ _ := None;
  LinkByName _ _ _ := Ok (mkLink 1 [2; 0; 0; 0; 0; 2]%Z);
  linux_call x _ := (x, if linux_fails x then Some "failed"%string else None)
|}.

#[local] Instance ex_keys : AgentKeys := {|
  vpp_InterfaceKey name := ("vpp/" +:+ name)%string;
  linux_InterfaceKey name := ("linux/" +:+ name)%string;
  l3_RouteKey _ _ nextHop := ("route/" +:+ nextHop)%string
|}.

#[local] Instance ex_store : KvsyncDelegate (gmap string CniMsg) string CniMsg := {|
  KVDB_Put s key v := (<[key := v]> s, [mkProxyEvent key ChangePut (Some v)], None);
  KVDB_Delete s key := (delete key s, if bool_decide (is_Some (s !! key)) then [mkProxyEvent key ChangeDelete None] else [],
    Ok (bool_decide (is_Some (s !! key))))
|}.

Abbreviation ExState := (CniState ExWorld (gmap string CniMsg) (gmap string (ContainerConfig * Indexes))).

Definition ex_server (govpp : bool) : CNIServer := mkCNIServer example_ipam 0 "node" [] false true false false 1 0 0 govpp true.
Definition ex_state (govpp fails : bool) : ExState :=
  mkCniState (ex_server govpp) (mkExWorld ∅ fails) (mkProxySys proxy_Init ∅ []) (Some ∅).

Definition ex_request : CNIRequest :=
  mkCNIRequest "0.3.1" "c1" "/proc/42/ns/net" "eth0" "" "K8S_POD_NAMESPACE=default;K8S_POD_NAME=web".
Definition ex_request2 : CNIRequest :=
  mkCNIRequest "0.3.1" "c2" "/proc/43/ns/net" "eth0" "" "K8S_POD_NAMESPACE=default;K8S_POD_NAME=db".

(** ** Instances of the theorems *)

Lemma ex_details_wf (x : ExWorld) prefix d : Ok d ∈ govpp_dump (E := string) x prefix → details_wf d.
Proof.
  intros Hin. apply list_elem_of_fmap in Hin as ([k idx] & He & _). injection He as ->. split; by eexists.
Qed.

Lemma ex_no_containers (id : string) c : containers (M := gmap string (ContainerConfig * Indexes)) ∅ !! id = Some c → False.
Proof. unfold containers. rewrite lookup_fmap. change (nm_view _) with (∅ : gmap string (ContainerConfig * Indexes)). by rewrite lookup_empty. Qed.

Lemma ex_indexed : container_indexed (M := gmap string (ContainerConfig * Indexes)) ∅.
Proof. exact (new_indexed (M := gmap string (ContainerConfig * Indexes))). Qed.


Definition answer_or {A} (a : A) (h : Handling A) : A := match h with Answers a' => a' | _ => a end.
Definition answers {A} (h : Handling A) : bool := match h with Answers _ => true | _ => false end.

(** Add for two pods, Delete for the first, Add for it again. *)
Definition run_add (st : ExState) (request : CNIRequest) : ExState * CniAnswer :=
  answer_or (st, (None, None)) (configureContainerConnectivity st request).
Definition run_delete (st : ExState) (request : CNIRequest) : ExState * CniAnswer :=
  answer_or (st, (None, None)) (unconfigureContainerConnectivity st request).

Definition ex_add1 := run_add (ex_state true false) ex_request.
Definition ex_add2 := run_add ex_add1.1 ex_request2.
Definition ex_delete1 := run_delete ex_add2.1 ex_request.
Definition ex_add3 := run_add ex_delete1.1 ex_request.

Definition ex_trace : list (CniCall * CniAnswer) :=
  [(CniAdd ex_request, ex_add1.2); (CniAdd ex_request2, ex_add2.2); (CniDelete ex_request, ex_delete1.2); (CniAdd ex_request, ex_add3.2)].

Lemma run_add_step st request : answers (configureContainerConnectivity st request) = true →
  cni_step st (CniAdd request) (run_add st request).2 (run_add st request).1.
Proof.
  intros Hs. apply step_add. unfold run_add. destruct (configureContainerConnectivity st request) as [| |[st' a]]; done.
Qed.
Lemma run_delete_step st request : answers (unconfigureContainerConnectivity st request) = true →
  cni_step st (CniDelete request) (run_delete st request).2 (run_delete st request).1.
Proof.
  intros Hs. apply step_delete. unfold run_delete. destruct (unconfigureContainerConnectivity st request) as [| |[st' a]]; done.
Qed.

Lemma ex_step1 : cni_step (ex_state true false) (CniAdd ex_request) ex_add1.2 ex_add1.1.
Proof. refine (run_add_step (ex_state true false) ex_request _); vm_compute; reflexivity. Qed.
Lemma ex_step2 : cni_step ex_add1.1 (CniAdd ex_request2) ex_add2.2 ex_add2.1.
Proof. refine (run_add_step ex_add1.1 ex_request2 _); vm_compute; reflexivity. Qed.
Lemma ex_step3 : cni_step ex_add2.1 (CniDelete ex_request) ex_delete1.2 ex_delete1.1.
Proof. refine (run_delete_step ex_add2.1 ex_request _); vm_compute; reflexivity. Qed.
Lemma ex_step4 : cni_step ex_delete1.1 (CniAdd ex_request) ex_add3.2 ex_add3.1.
Proof. refine (run_add_step ex_delete1.1 ex_request _); vm_compute; reflexivity. Qed.

Lemma ex_exec : cni_exec (ex_state true false) ex_trace ex_add3.1.
Proof.
  exact (exec_step _ _ _ _ _ _ ex_step1 (exec_step _ _ _ _ _ _ ex_step2 (exec_step _ _ _ _ _ _ ex_step3
    (exec_step _ _ _ _ _ _ ex_step4 (exec_done _))))).
Qed.

Lemma ex_connected : foldl connected_step ∅ ex_trace !! "/proc/43/ns/net"%string = Some "10.1.5.3/32"%string.
Proof. vm_compute. reflexivity. Qed.

Lemma pod_addresses_unique_witness : ∃ x, "10.1.5.3/32"%string = address_text x ∧
  IPNet_Contains (podNetworkIPPrefix (srv_ipam (cs_srv ex_add3.1))) (uint32ToIpv4 x) = true.
Proof.
  destruct (proj2 (pod_addresses_unique 16 24 subnet_value (ex_state true false) ex_add3.1 ex_trace example_inv ex_exec)
    "/proc/43/ns/net"%string "10.1.5.3/32"%string ex_connected) as (x & Ha & Hin & _).
  exists x. exact (conj Ha Hin).
Defined.

Example ex_addresses : map_to_list (foldl connected_step ∅ ex_trace) =
  [("/proc/43/ns/net", "10.1.5.3/32"); ("/proc/42/ns/net", "10.1.5.2/32")]%string.
Proof. vm_compute. reflexivity. Qed.

(** The executable, connected to the server. *)
Definition ex_args : CmdArgs := mkCmdArgs "c1" "/proc/42/ns/net" "eth0" "K8S_POD_NAMESPACE=default;K8S_POD_NAME=web" "".
Definition ex_cfg : cniConfig := mkCniConfig "0.3.1" false "localhost:9111".
Definition ex_unmarshal (bytes : string) : result (CniError string) cniConfig := Ok ex_cfg.
Definition ex_remote_Add (server : string) (request : CNIRequest) : result (CniError string) (CNIReply (CniError string)) :=
  match (run_add (ex_state true false) request).2 with
  | (Some reply, None) => Ok reply
  | _ => Err (EnvError "failed"%string)
  end.

Lemma ex_add_eq : configureContainerConnectivity (ex_state true false) (request_of ex_cfg ex_args) = Answers (ex_add1.1, ex_add1.2).
Proof. vm_compute. reflexivity. Qed.
Lemma ex_delivered : delivered ex_add1.2 (ex_remote_Add (GrpcServer ex_cfg) (request_of ex_cfg ex_args)).
Proof. vm_compute. intros reply [= <-]. reflexivity. Qed.
Lemma ex_succeeds : ex_add1.2.2 = None.
Proof. vm_compute. reflexivity. Qed.

Lemma cni_client_reports_witness : ∃ x vppIfName,
  cmdAdd ex_unmarshal ex_remote_Add ex_args = Ok (pod_result "0.3.1" "/proc/42/ns/net" vppIfName x (podNetworkGatewayIP example_ipam)).
Proof.
  pose proof (cni_client_reports 16 24 subnet_value (ex_state true false) ex_add1.1 ex_unmarshal ex_remote_Add ex_args
    ex_cfg ex_add1.2 example_inv eq_refl ex_add_eq ex_delivered) as Hr.
  rewrite ex_succeeds in Hr. destruct Hr as (x & vppIfName & Hr & _). exists x, vppIfName. exact Hr.
Defined.

(** ** Deviations *)

(** The addresses of a reply with two interfaces are all attributed to the last
    interface. *)
Example interface_index_shared :
  let reply : CNIReply unit := mkCNIReply resultOk None
    [mkReplyInterface "a" "" "ns" [mkReplyIP IPV4 "10.1.5.2/32" ""]; mkReplyInterface "b" "" "ns" [mkReplyIP IPV4 "10.1.5.3/32" ""]] [] [] in
  ∃ r, result_of "0.3.1" reply = Ok r ∧ IPC_Interface <$> Res_IPs r = [1; 1].
Proof. eexists. split; vm_compute; reflexivity. Qed.

(** The host part of an address is lost: the network of the address is reported. *)
Example host_part_lost :
  let reply : CNIReply unit := mkCNIReply resultOk None [mkReplyInterface "a" "" "ns" [mkReplyIP IPV4 "10.1.5.2/24" ""]] [] [] in
  ∃ r, result_of "0.3.1" reply = Ok r ∧ IPC_Address <$> Res_IPs r = [mkIPNet [10; 1; 5; 0]%Z [255; 255; 255; 0]%Z].
Proof. eexists. split; vm_compute; reflexivity. Qed.

(** An Add that fails keeps its address. When it is repeated the pod has two, and
    the Delete releases one of them: the other one is lost. *)
Example failed_add_keeps_address :
  let failed := (run_add (ex_state true true) ex_request).1 in
  let repaired := mkCniState (cs_srv failed) (mkExWorld ∅ false) (cs_proxy failed) (cs_containers failed) in
  let added := (run_add repaired ex_request).1 in
  size (assignedPodIPs (srv_ipam (cs_srv failed))) = 1 ∧ size (assignedPodIPs (srv_ipam (cs_srv added))) = 2 ∧
  size (assignedPodIPs (srv_ipam (cs_srv (run_delete added ex_request).1))) = 1.
Proof. vm_compute. split_and!; reflexivity. Qed.

(** Without a channel to VPP the code goes on with an empty answer and panics. *)
Example nil_channel_panics : configureContainerConnectivity (ex_state false false) ex_request = Panics.
Proof. vm_compute. reflexivity. Qed.

(** The addresses of the interfaces in VPP come from a counter that only grows:
    the one after 10.2.1.255 is not an address. *)
Example interface_addresses_run_out : ParseCIDR (ipAddrForPodVPPIf (set_counter (ex_server true) 255)) = None.
Proof. vm_compute. reflexivity. Qed.

(** Containers whose IDs agree in the first 15 characters share the interface. *)
Example interface_names_collide :
  veth2NameFromRequest (mkCNIRequest "" "0123456789abcdeX" "" "" "" "") = veth2NameFromRequest (mkCNIRequest "" "0123456789abcdeY" "" "" "" "").
Proof. reflexivity. Qed.
