(* ===== verification/CniWire.v ===== *)
(** * Requests of the CNI server on the wire

    The requests of pod.go and node.go whose messages are in bin_api: the STN rule
    of a pod, the application namespace of a pod, and the switch of the session
    layer, as the values of their messages, and what VPP decodes of them. *)

From Stdlib Require Import ZArith Lia Ascii String.
From stdpp Require Import prelude strings list gmap.
From S2P Require Import Prelude GoStrings GoNet Md5 IpamProofs BinApi CniServer.

(** The message of a request with its values, in the order of the struct; fields
    that the code does not set are 0. The other requests are messages of the VPP
    agent. *)
Definition request_message (req : VppRequest) : option (ApiMessage * list FieldValue) :=
  match req with
  | StnAddDelRule ipAddress swIfIndex => Some (stn.StnAddDelRule, [VInt 1; VSlice ipAddress; VInt swIfIndex; VInt 1])
  | AppNamespaceAddDel secret swIfIndex namespaceID namespaceIDLen =>
    Some (session.AppNamespaceAddDel, [VInt secret; VInt swIfIndex; VInt 0; VInt 0; VInt namespaceIDLen; VSlice (string_bytes namespaceID)])
  | SessionEnable => Some (session.SessionEnableDisable, [VInt 1])
  | IPNeighborAddDel _ _ _ | CliInband _ => None
  end.

(** The values VPP decodes from what is sent. *)
Definition received (msgID : Z) (req : VppRequest) : option (list FieldValue) :=
  '(msg, vals) ← request_message req; data ← EncodeMsg msg msgID vals; DecodeMsg msg data.

(** What VPP takes as the ID of a namespace. *)
Definition received_id (vals : list FieldValue) : option (list Z) :=
  match vals with [_; _; _; _; VInt len; VSlice id] => Some (take (Z.to_nat len) id) | _ => None end.

(** The address of an STN rule for IPv4. *)
Definition received_ip4 (vals : list FieldValue) : option (list Z) :=
  match vals with [VInt 1; VSlice ip; _; VInt 1] => Some (take 4 ip) | _ => None end.

Lemma padded_bytes n l : wf_bytes l → length l ≤ n → length (l ++ replicate (n - length l) 0%Z) = n ∧ Forall (in_range U8)
  (l ++ replicate (n - length l) 0%Z).
Proof.
  intros Hl Hn. split; [rewrite length_app, length_replicate; lia|]. apply bytes_in_range, Forall_app. split; [done|apply zeros_wf].
Qed.

(** An application namespace: an ID of at most 64 bytes arrives as it is. *)
Lemma namespace_sent secret idx id msgID : (0 ≤ secret < 2 ^ 64)%Z → is_u32 idx → String.length id ≤ 64 →
  received msgID (AppNamespaceAddDel secret idx id (u8 (Z.of_nat (String.length id)))) ≫= received_id = Some (string_bytes id).
Proof.
  intros Hs Hi Hid. rewrite <- string_bytes_length in Hid |- *.
  destruct (padded_bytes 64 (string_bytes id) (string_bytes_wf id) Hid) as [Hl Hr].
  assert (u8 (Z.of_nat (length (string_bytes id))) = Z.of_nat (length (string_bytes id))) as Hu by (unfold wrap; apply Z.mod_small; lia).
  destruct (padded_roundtrip session.AppNamespaceAddDel msgID
    [VInt secret; VInt idx; VInt 0; VInt 0; VInt (u8 (Z.of_nat (length (string_bytes id)))); VSlice (string_bytes id)])
    as (data & He & _ & Hd); [done| | |].
  - repeat first [apply Forall2_nil_2|apply Forall2_cons; split]; cbn [short_field snd]; done.
  - cbn [zip_with session.AppNamespaceAddDel api_fields pad_field snd]. rewrite Hu. unfold is_u32 in Hi.
    repeat first [apply Forall2_nil_2|apply Forall2_cons; split]; cbn [field_ok snd in_range width]; try done; lia.
  - unfold received. cbn [request_message mbind option_bind]. rewrite He. cbn [mbind option_bind]. rewrite Hd.
    cbn [mbind option_bind zip_with session.AppNamespaceAddDel api_fields pad_field snd received_id].
    rewrite Hu, Nat2Z.id. by rewrite take_app_length.
Qed.

Lemma stn_rule_sent ip idx msgID : wf_bytes ip → length ip = 4 → is_u32 idx →
  received msgID (StnAddDelRule ip idx) ≫= received_ip4 = Some ip.
Proof.
  intros Hw Hl Hi. destruct (padded_bytes 16 ip Hw ltac:(lia)) as [Hp Hr].
  destruct (padded_roundtrip stn.StnAddDelRule msgID [VInt 1; VSlice ip; VInt idx; VInt 1]) as (data & He & _ & Hd); [done| | |].
  - repeat first [apply Forall2_nil_2|apply Forall2_cons; split]; cbn [short_field snd]; try done. lia.
  - cbn [zip_with stn.StnAddDelRule api_fields pad_field snd]. unfold is_u32 in Hi.
    repeat first [apply Forall2_nil_2|apply Forall2_cons; split]; cbn [field_ok snd in_range width]; try done; lia.
  - unfold received. cbn [request_message mbind option_bind]. rewrite He. cbn [mbind option_bind]. rewrite Hd.
    cbn [mbind option_bind zip_with stn.StnAddDelRule api_fields pad_field snd received_ip4].
    by rewrite take_app_length'.
Qed.

(** The code sends the length of a longer ID with its first 64 bytes. *)
Example long_id_cut : let id := string_of_list_ascii (replicate 65 "a"%char) in
  option_map length (received 1 (AppNamespaceAddDel 42 1 id (u8 (Z.of_nat (String.length id)))) ≫= received_id) = Some 64.
Proof. vm_compute. reflexivity. Qed.
