(* ===== verification/ContivPlugin.v ===== *)
(** * The Contiv plugin and the cluster of its instances

    plugins/contiv/plugin_impl_contiv.go: [Init] reads the configuration, allocates
    the ID of the node and creates the CNI server from it; [handleResync] and
    [handleNodeEvents] (node.go) are the loops that serve the events; [Close]
    releases the ID. [contiv_step] interleaves the plugins of all nodes of a
    cluster at their accesses to etcd, with the requests each CNI server handles
    and with crashes; [cluster_addresses_unique] composes the allocation of node
    IDs, the division of the pod subnet and the allocation of addresses.

    The libraries [Init] calls (configuration, GoVPP, the watcher) are parameters
    of a start ([InitEnv]). *)

From Stdlib Require Import ZArith Lia Ascii String.
From stdpp Require Import prelude strings list gmap.
From S2P Require Import Prelude GoStrings GoErrors GoNet Ipam IpamProofs NodeId NodeIdProofs.
From S2P Require Import PolicyCache PolicyCacheEvents PolicyCacheProofs KvdbProxy CniModel ContainerIdx NodeRoutes CniServer CniServerProofs.

(** ** Data *)

Record ContivConfig := mkContivConfig {
  TCPChecksumOffloadDisabled : bool;
  TCPstackDisabled : bool;
  UseTAPInterfaces : bool;
  TAPInterfaceVersion : Z;
  TAPv2RxRingSize : Z;
  TAPv2TxRingSize : Z;
  IPAMConfig : IpamConfig;
  NodeConfig : list OneNodeConfig
}.

(** What a start finds: the injected configuration, the answer of
    [PluginConfig.GetValue] (the value if it is found), the errors of
    [NewAPIChannel] and of [Watch], and whether [GetSwIfIndexes] is not nil. *)
Record InitEnv (E : Type) := mkInitEnv {
  env_injected : option ContivConfig;
  env_external : result E (option ContivConfig);
  env_channel : option E;
  env_watch : option E;
  env_swif : bool
}.
Arguments mkInitEnv {E} _ _ _ _ _.
Arguments env_injected {E} _.
Arguments env_external {E} _.
Arguments env_channel {E} _.
Arguments env_watch {E} _.
Arguments env_swif {E} _.

Inductive PluginError (E : Type) :=
  | ExternalConfigError (e : E)
  | ExternalConfigNotFound
  | ChannelError (e : E)
  | NodeIDError (e : AllocError E)
  | WatchError (e : E)
  | ServerError (e : IpamError).
Arguments ExternalConfigError {E} _.
Arguments ExternalConfigNotFound {E}.
Arguments ChannelError {E} _.
Arguments NodeIDError {E} _.
Arguments WatchError {E} _.
Arguments ServerError {E} _.

(** ** [Init] *)

Section init.
Context {E : Type}.

Definition applyExternalConfig (env : InitEnv E) : result (PluginError E) ContivConfig :=
  match env_external env with
  | Err e => Err (ExternalConfigError e)
  | Ok None => Err ExternalConfigNotFound
  | Ok (Some externalCfg) => Ok externalCfg
  end.

(** Up to the allocation of the ID. *)
Definition Init_begin (env : InitEnv E) : result (PluginError E) ContivConfig :=
  config ← match env_injected env with Some config => Ok config | None => applyExternalConfig env end;
  match env_channel env with Some e => Err (ChannelError e) | None => Ok config end.

(** From the result of [getID] on. *)
Definition Init_end (env : InitEnv E) (label : string) (config : ContivConfig) (uid : Z) : result (PluginError E) CNIServer :=
  match env_watch env with
  | Some e => Err (WatchError e)
  | None =>
    match newRemoteCNIServer (IPAMConfig config) (NodeConfig config) (TCPChecksumOffloadDisabled config) (TCPstackDisabled config)
            (UseTAPInterfaces config) (TAPInterfaceVersion config) (TAPv2RxRingSize config) (TAPv2TxRingSize config)
            label uid true (env_swif env) with
    | Err e => Err (ServerError e)
    | Ok server => Ok server
    end
  end.
End init.

(** ** A running plugin *)

Section plugin.
Context `{RangeOracle} {X S M E : Type} `{!CniEnv X E, !KvsyncDelegate S E CniMsg, !NamedMapping M ContainerConfig, !AgentKeys}.

Record NodePlugin := mkNodePlugin { plugin_Config : ContivConfig; plugin_cni : CniState X S M }.

(** The server starts with an empty index of containers, the index is not nil. *)
Definition start_plugin (config : ContivConfig) (server : CNIServer) (world : X) (proxy : ProxySys S CniMsg) : NodePlugin :=
  mkNodePlugin config (mkCniState server world proxy (Some NewNamedMapping)).

(** [None]: the network of the IPAM has no copy (see [newIPNet]). *)
Definition GetPodNetwork (plugin : NodePlugin) : option IPNet := PodNetwork (srv_ipam (cs_srv (plugin_cni plugin))).

Definition IsTCPstackDisabled (plugin : NodePlugin) : bool := TCPstackDisabled (plugin_Config plugin).

(** One round of [handleResync]: an event with status Started resyncs the server,
    the error is only logged. *)
Definition handleResync (plugin : NodePlugin) (started : bool) : option NodePlugin :=
  if started then
    '(st, _) ← server_resync (E := E) (plugin_cni plugin);
    Some (mkNodePlugin (plugin_Config plugin) st)
  else Some plugin.

(** One round of [handleNodeEvents]; the error goes to the event. *)
Inductive NodeWatchEvent := NodeResync (data : gmap string (list (result E Identifier))) | NodeChange (ev : NodeEvent (E := E)).

Definition handleNodeEvents (plugin : NodePlugin) (ev : NodeWatchEvent) : option (NodePlugin * option (NodeError E)) :=
  let st := plugin_cni plugin in
  '(x, err) ← match ev with
              | NodeResync data => nodeResync (srv_ipam (cs_srv st)) (cs_world st) data
              | NodeChange ev => nodeChangePropageteEvent (srv_ipam (cs_srv st)) (cs_world st) ev
              end;
  Some (mkNodePlugin (plugin_Config plugin) (mkCniState (cs_srv st) x (cs_proxy st) (cs_containers st)), err).

(** [Close] ends the loops, removes the interconnect and releases the ID; errors
    of the release are ignored, what is left is the state of VPP. *)
Definition plugin_Close {ES : Type} `{!Etcd ES E} (plugin : NodePlugin) (s : ES) (ia : idAllocator) : option (X * ES * idAllocator) :=
  '(st, _) ← cleanupVswitchConnectivity (E := E) (plugin_cni plugin);
  let '(s, ia, _) := releaseID s ia in
  Some (cs_world st, s, ia).
End plugin.
Arguments NodePlugin X S M : clear implicits.

(** ** The cluster *)

Section cluster.
Context `{RangeOracle} {X S M E : Type} `{!CniEnv X E, !KvsyncDelegate S E CniMsg, !NamedMapping M ContainerConfig, !AgentKeys}.
Context {ES : Type} `{!Etcd ES E}.

(** A plugin is stopped (not started, failed in [Init] or crashed), closed, in
    the call of [getID] of its [Init], or running; a running one with the
    addresses of the pods connected since it started, as their requests were
    answered. *)
Inductive Phase :=
  | Stopped
  | Closed
  | Starting (env : InitEnv E) (config : ContivConfig) (pc : AllocPc)
  | Running (plugin : NodePlugin X S M) (connected : gmap string string).

(** [pn_left]: the pods that were connected by earlier runs of the plugin and not
    disconnected since. *)
Record PluginNode := mkPluginNode { pn_alloc : idAllocator; pn_phase : Phase; pn_left : gmap string string }.

(** The pods connected to a node, whether the plugin runs or not. *)
Definition pods_of (node : PluginNode) : gmap string string :=
  match pn_phase node with Running _ connected => connected ∪ pn_left node | _ => pn_left node end.

(** An answered request replaces or removes the pod of an earlier run. *)
Definition left_step (left : gmap string string) (e : CniCall * CniAnswer (E := E)) : gmap string string :=
  match e with
  | (CniAdd request, (_, None)) | (CniDelete request, (_, None)) => delete (NetworkNamespace request) left
  | _ => left
  end.

Record ContivCluster := mkContivCluster { cc_etcd : ES; cc_nodes : gmap string PluginNode }.

(** Where [Init] is after [getID_begin] or a step of [getID]; an error ends it.
    [world] and [proxy] are what the node has at that time. *)
Definition after_getID (label : string) (env : InitEnv E) (config : ContivConfig) (world : X) (proxy : ProxySys S CniMsg)
    (o : Outcome E) : Phase :=
  match o with
  | Continue pc => Starting env config pc
  | Return (Err _) => Stopped
  | Return (Ok uid) =>
    match Init_end env label config uid with
    | Err _ => Stopped
    | Ok server => Running (start_plugin config server world proxy) ∅
    end
  end.

(** The start of a plugin: a new allocator. *)
Definition begin_node (label : string) (env : InitEnv E) (world : X) (proxy : ProxySys S CniMsg) (left : gmap string string) :
    PluginNode :=
  let ia := newIDAllocator label in
  match Init_begin env with
  | Err _ => mkPluginNode ia Stopped left
  | Ok config => mkPluginNode ia (after_getID label env config world proxy (getID_begin ia)) left
  end.

Variable allowed : InitEnv E → Prop.

Inductive contiv_step : ContivCluster → ContivCluster → Prop :=
  | plugin_begin c label node env world proxy :
      cc_nodes c !! label = Some node → pn_phase node = Stopped ∨ pn_phase node = Closed → allowed env →
      contiv_step c (mkContivCluster (cc_etcd c) (<[label := begin_node label env world proxy (pn_left node)]> (cc_nodes c)))
  | plugin_getID c label ia env config pc left s ia' o world proxy :
      cc_nodes c !! label = Some (mkPluginNode ia (Starting env config pc) left) →
      getID_step (cc_etcd c) ia pc = (s, ia', o) →
      contiv_step c (mkContivCluster s (<[label := mkPluginNode ia' (after_getID label env config world proxy o) left]> (cc_nodes c)))
  | plugin_request c label ia config st connected left call a st' :
      cc_nodes c !! label = Some (mkPluginNode ia (Running (mkNodePlugin config st) connected) left) → cni_step st call a st' →
      contiv_step c (mkContivCluster (cc_etcd c)
        (<[label := mkPluginNode ia (Running (mkNodePlugin config st') (connected_step connected (call, a)))
                      (left_step left (call, a))]> (cc_nodes c)))
  | plugin_resync c label ia plugin connected left started plugin' :
      cc_nodes c !! label = Some (mkPluginNode ia (Running plugin connected) left) → handleResync plugin started = Some plugin' →
      contiv_step c (mkContivCluster (cc_etcd c) (<[label := mkPluginNode ia (Running plugin' connected) left]> (cc_nodes c)))
  | plugin_node_event c label ia plugin connected left ev plugin' err :
      cc_nodes c !! label = Some (mkPluginNode ia (Running plugin connected) left) →
      handleNodeEvents plugin ev = Some (plugin', err) →
      contiv_step c (mkContivCluster (cc_etcd c) (<[label := mkPluginNode ia (Running plugin' connected) left]> (cc_nodes c)))
  | plugin_close c label ia plugin connected left x s ia' :
      cc_nodes c !! label = Some (mkPluginNode ia (Running plugin connected) left) →
      plugin_Close plugin (cc_etcd c) ia = Some (x, s, ia') →
      contiv_step c (mkContivCluster s (<[label := mkPluginNode ia' Closed (connected ∪ left)]> (cc_nodes c)))
  | plugin_crash c label node :
      cc_nodes c !! label = Some node →
      contiv_step c (mkContivCluster (cc_etcd c)
        (<[label := mkPluginNode (newIDAllocator label) Stopped (pods_of node)]> (cc_nodes c))).

(** *** The nodes as the allocator sees them *)

Definition alloc_node (node : PluginNode) : Node :=
  mkNode (pn_alloc node) (match pn_phase node with Starting _ _ pc => Some pc | _ => None end)
    (match pn_phase node with Closed => true | _ => false end).

Definition alloc_cluster (c : ContivCluster) : Cluster ES := mkCluster (cc_etcd c) (alloc_node <$> cc_nodes c).

Lemma alloc_lookup c label node : cc_nodes c !! label = Some node → nodes (alloc_cluster c) !! label = Some (alloc_node node).
Proof. intros Hn. cbn. by rewrite lookup_fmap, Hn. Qed.

Lemma alloc_insert s (m : gmap string PluginNode) label node :
  alloc_cluster (mkContivCluster s (<[label := node]> m)) = mkCluster s (<[label := alloc_node node]> (alloc_node <$> m)).
Proof. unfold alloc_cluster. cbn. by rewrite fmap_insert. Qed.

Lemma alloc_after ia label env config world proxy o left :
  alloc_node (mkPluginNode ia (after_getID label env config world proxy o) left) = finish ia o.
Proof.
  unfold alloc_node, finish. destruct o as [pc|[uid|e]]; cbn; [done| |done]. by destruct (Init_end env label config uid).
Qed.

(** A node in the same state as before. *)
Lemma alloc_same c label node node' : cc_nodes c !! label = Some node → alloc_node node' = alloc_node node →
  alloc_cluster (mkContivCluster (cc_etcd c) (<[label := node']> (cc_nodes c))) = alloc_cluster c.
Proof. intros Hn Heq. rewrite alloc_insert, Heq, insert_id; [done|]. by apply alloc_lookup. Qed.

(** The plugins only make steps the allocators can make. *)
Lemma contiv_step_alloc c c' : contiv_step c c' → rtc cluster_step (alloc_cluster c) (alloc_cluster c').
Proof.
  destruct 1 as [c label node env world proxy Hn _ _|c label ia env config pc left s ia' o world proxy Hn Hstep
    |c label ia config st connected left call a st' Hn _|c label ia plugin connected left started plugin' Hn _
    |c label ia plugin connected left ev plugin' err Hn _|c label ia plugin connected left x s ia' Hn Hcl|c label node Hn].
  - rewrite alloc_insert. eapply rtc_l; [eapply step_restart, alloc_lookup, Hn|]. unfold begin_node.
    destruct (Init_begin env) as [config|e]; [|apply rtc_refl]. rewrite alloc_after.
    eapply rtc_l; [eapply (step_begin _ label); [cbn; by rewrite lookup_insert_eq|done|done]|]. cbn. rewrite insert_insert_eq. apply rtc_refl.
  - rewrite alloc_insert, alloc_after. apply rtc_once. by eapply (step_getID (alloc_cluster c) label); [apply alloc_lookup, Hn|..].
  - rewrite (alloc_same c label _ _ Hn); [apply rtc_refl|done].
  - rewrite (alloc_same c label _ _ Hn); [apply rtc_refl|done].
  - rewrite (alloc_same c label _ _ Hn); [apply rtc_refl|done].
  - rewrite alloc_insert. unfold plugin_Close in Hcl. destruct (cleanupVswitchConnectivity _) as [[st r]|]; [|done]. cbn [mbind option_bind] in Hcl.
    destruct (releaseID (cc_etcd c) ia) as [[s1 ia1] r1] eqn:Hrel. injection Hcl as <- <- <-. apply rtc_once.
    by eapply (step_releaseID (alloc_cluster c) label); [apply alloc_lookup, Hn|..].
  - rewrite alloc_insert. apply rtc_once. eapply step_restart, alloc_lookup, Hn.
Qed.

(** ** The invariant *)

(** A completed allocation. *)
Lemma getID_step_Ok (s s' : ES) ia ia' pc uid : getID_step s ia pc = (s', ia', Return (Ok uid)) → allocated ia' = true ∧ uid = u8 (ia_ID ia').
Proof.
  destruct pc as [|attempts|attempts]; cbn [getID_step].
  - destruct (findExistingEntry ia s) as [[e|]|]; [|done|done]. by intros [= _ <- <-].
  - destruct (listAllIDs s); done.
  - destruct (writeIfNotExists ia s (ia_ID ia)) as [s1 [[]|e]]; [|destruct (maxAttempts <? attempts); done|done]. by intros [= _ <- <-].
Qed.

Lemma NextPodIP_host p n s i podID i' r : ipam_inv p n s i → NextPodIP i podID = Some (i', r) → hostID i' = hostID i.
Proof.
  intros Hinv. destruct (decide (podID = ""%string)) as [->|Hid]; [by intros [= <- _]|].
  destruct (NextPodIP_outcome p n s i podID Hinv Hid) as [(x & -> & _)|[-> _]]; by intros [= <- _].
Qed.

(** The requests do not change the host of the IPAM. *)
Lemma cni_step_host p n s (st : CniState X S M) c a st' : ipam_inv p n s (srv_ipam (cs_srv st)) → cni_step st c a st' →
  hostID (srv_ipam (cs_srv st')) = hostID (srv_ipam (cs_srv st)).
Proof.
  intros Hinv Hs. revert Hinv. destruct Hs as [st1 request st2 a' Hadd|st1 request st2 a' Hdel|st1 st2 r Hres]; intros Hinv.
  - apply when_configured_Answers in Hadd as [_ Hadd]. cbv beta zeta in Hadd. destruct (NextPodIP_cases p n s _ (NetworkNamespace request) Hinv) as (i1 & r & HN & _).
    change (srv_ipam (set_counter (cs_srv st1) (counter (cs_srv st1) + 1))) with (srv_ipam (cs_srv st1)) in Hadd. rewrite HN in Hadd.
    cbn [mbind option_bind] in Hadd.
    pose proof (NextPodIP_host p n s _ _ _ _ Hinv HN) as Hh. destruct r as [podIP|e]; [|by injection Hadd as <- <-].
    set (s1 := set_ipam _ i1) in Hadd. pose proof (add_pod_outcome request podIP (with_srv st1 s1)) as Ho.
    destruct (add_pod request podIP (with_srv st1 s1)) as [[st3 [reply|e]]|]; cbn [reply_of] in Hadd; [| |done]; injection Hadd as <- <-.
    + destruct Ho as (-> & _). done.
    + destruct Ho as [-> _]. done.
  - apply when_configured_Answers in Hdel as [_ Hdel]. destruct (delete_pod_outcome request st1) as (st3 & r & Hr & Hout). rewrite Hr in Hdel.
    destruct r as [reply|e]; cbn [reply_of] in Hdel; injection Hdel as <- <-.
    + destruct Hout as (_ & _ & i & Hrel & ->). cbn. destruct (decide (NetworkNamespace request = ""%string)) as [He|Hid];
        [rewrite He in Hrel; by injection Hrel as <-|].
      destruct (ReleasePodIP_outcome (srv_ipam (cs_srv st1)) _ Hid) as [(ip & HR & _)|[HR _]]; rewrite HR in Hrel; by injection Hrel as <-.
    + by destruct Hout as [[-> _]|[-> _]].
  - by apply resync_resynced in Hres as (_ & [->| ->] & _).
Qed.

Section unique.
Context `{!EtcdLaws ES E} (p n : nat) (s0 : Z).

(** A node that runs: it holds an ID, its IPAM is that of the ID, and the
    connected pods have addresses of the IPAM. *)
Definition running_ok (ia : idAllocator) (plugin : NodePlugin X S M) (connected : gmap string string) : Prop :=
  let i := srv_ipam (cs_srv (plugin_cni plugin)) in
  allocated ia = true ∧ ipam_inv p n s0 i ∧ hostID i = u8 (ia_ID ia) ∧ addresses_owned i connected.

Definition phase_ok (node : PluginNode) : Prop :=
  match pn_phase node with
  | Stopped | Closed => True
  | Starting env config pc => ipv4_config (IPAMConfig config) p n s0
  | Running plugin connected => running_ok (pn_alloc node) plugin connected
  end.

Hypothesis Hallowed : ∀ env config, allowed env → Init_begin env = Ok config → ipv4_config (IPAMConfig config) p n s0.

Lemma after_getID_ok (s s' : ES) ia ia' pc label env config world proxy o left : ipv4_config (IPAMConfig config) p n s0 →
  getID_step s ia pc = (s', ia', o) → phase_ok (mkPluginNode ia' (after_getID label env config world proxy o) left).
Proof.
  intros Hc Hstep. destruct o as [pc'|[uid|e]]; [done| |done]. apply getID_step_Ok in Hstep as [Ha ->].
  unfold phase_ok, after_getID, Init_end. cbn [pn_phase]. destruct (env_watch env); [done|]. unfold newRemoteCNIServer.
  destruct (ipam_New (u8 (ia_ID ia')) (IPAMConfig config)) as [i|e] eqn:Hi; [|done]. cbn [mbind result_bind].
  destruct (ipam_New_inv _ _ _ _ _ _ Hc (u8_byte _) Hi) as [Hinv Hh].
  split_and!; [done|done|done|]. intros ns a. by rewrite lookup_empty.
Qed.

Lemma contiv_step_ok c c' : contiv_step c c' → (∀ label node, cc_nodes c !! label = Some node → phase_ok node) →
  ∀ label node, cc_nodes c' !! label = Some node → phase_ok node.
Proof.
  intros Hstep Hok. assert (∀ label0 node0 s, phase_ok node0 → ∀ label node,
    cc_nodes (mkContivCluster s (<[label0 := node0]> (cc_nodes c))) !! label = Some node → phase_ok node) as Hins.
  { intros label0 node0 s Hn0 label node. cbn. intros [[_ <-]|[_ Hl]]%lookup_insert_Some; [done|by eapply Hok]. }
  destruct Hstep as [c label node env world proxy Hn _ Hal|c label ia env config pc left s ia' o world proxy Hn Hstep
    |c label ia config st connected left call a st' Hn Hcni|c label ia plugin connected left started plugin' Hn Hre
    |c label ia plugin connected left ev plugin' err Hn Hev|c label ia plugin connected left x s ia' Hn Hcl|c label node Hn];
    apply Hins; try done; pose proof (Hok _ _ Hn) as Hp.
  - unfold begin_node. destruct (Init_begin env) as [config|e] eqn:Hi; [|done]. by apply (Hallowed env).
  - by eapply after_getID_ok.
  - destruct Hp as (Ha & Hinv & Hh & Hown). cbn [pn_phase phase_ok running_ok plugin_cni] in *.
    destruct (step_owned p n s0 _ _ _ _ connected Hcni Hinv Hown) as [Hinv' Hown']. split_and!; [done|done| |done].
    cbn [plugin_cni pn_alloc]. by rewrite (cni_step_host p n s0 _ _ _ _ Hinv Hcni).
  - unfold handleResync in Hre. destruct started; [|by injection Hre as <-].
    destruct (server_resync (plugin_cni plugin)) as [[st r]|] eqn:Hs; [|done]. injection Hre as <-.
    destruct Hp as (Ha & Hinv & Hh & Hown). pose proof (step_resync _ _ _ Hs) as Hcni. cbn [plugin_cni].
    destruct (step_owned p n s0 _ _ _ _ connected Hcni Hinv Hown) as [Hinv' Hown']. split_and!; [done|done| |done].
    cbn [plugin_cni]. by rewrite (cni_step_host p n s0 _ _ _ _ Hinv Hcni).
  - unfold handleNodeEvents in Hev. destruct ev as [data|ev];
      [destruct (nodeResync _ _ _) as [[x e]|]|destruct (nodeChangePropageteEvent _ _ _) as [[x e]|]];
      [|done| |done]; cbn [mbind option_bind] in Hev; by injection Hev as <- <-.
Qed.

Lemma contiv_steps_ok c c' : rtc contiv_step c c' → (∀ label node, cc_nodes c !! label = Some node → phase_ok node) →
  ∀ label node, cc_nodes c' !! label = Some node → phase_ok node.
Proof. induction 1 as [|c1 c2 c3 Hs _ IH]; [done|]. intros Hok. by apply IH, (contiv_step_ok c1). Qed.

Lemma contiv_steps_alloc c c' : rtc contiv_step c c' → rtc cluster_step (alloc_cluster c) (alloc_cluster c').
Proof. induction 1 as [|c1 c2 c3 Hs _ IH]; [apply rtc_refl|]. etrans; [by apply contiv_step_alloc|done]. Qed.

(** A cluster that starts: all plugins are stopped, etcd holds what earlier runs
    of the same nodes left. *)
Definition plugins_start (c : ContivCluster) : Prop :=
  entries_ok (dom (cc_nodes c)) (etcd_view (cc_etcd c)) ∧
  ∀ label node, cc_nodes c !! label = Some node → node = mkPluginNode (newIDAllocator label) Stopped (pn_left node).

Lemma plugins_start_alloc c : plugins_start c → cluster_start (alloc_cluster c).
Proof.
  intros [He Hn]. split; [cbn; by rewrite dom_fmap_L|]. intros label node. cbn. rewrite lookup_fmap.
  intros (node' & Hl & ->)%fmap_Some. by rewrite (Hn _ _ Hl).
Qed.

(** Numbers from 1 to a bound differ modulo the bound. *)
Lemma mod_distinct a b m : (1 ≤ a ≤ m)%Z → (1 ≤ b ≤ m)%Z → a ≠ b → (a mod m ≠ b mod m)%Z.
Proof.
  intros Ha Hb Hne. assert (∀ x, (1 ≤ x ≤ m)%Z → (x mod m = if x =? m then 0 else x)%Z) as Hmod.
  { intros x Hx. destruct (Z.eqb_spec x m) as [->|]; [apply Z.mod_same; lia|apply Z.mod_small; lia]. }
  rewrite !Hmod by done. destruct (Z.eqb_spec a m), (Z.eqb_spec b m); lia.
Qed.

(** The networks of two nodes that run have no address in common. *)
Lemma running_disjoint ia1 plugin1 connected1 ia2 plugin2 connected2 :
  running_ok ia1 plugin1 connected1 → running_ok ia2 plugin2 connected2 →
  (u8 (ia_ID ia1) mod 2 ^ Z.of_nat (n - p) ≠ u8 (ia_ID ia2) mod 2 ^ Z.of_nat (n - p))%Z →
  ∃ net1 net2, GetPodNetwork plugin1 = Some net1 ∧ GetPodNetwork plugin2 = Some net2 ∧
    net1 = podNetworkIPPrefix (srv_ipam (cs_srv (plugin_cni plugin1))) ∧ net2 = podNetworkIPPrefix (srv_ipam (cs_srv (plugin_cni plugin2))) ∧
    ∀ ip, wf_bytes ip → IPNet_Contains net1 ip = true → IPNet_Contains net2 ip = false.
Proof.
  intros (_ & [N1 _] & Hh1 & _) (_ & [N2 _] & Hh2 & _) Hne. rewrite <- Hh1, <- Hh2 in Hne.
  destruct N1 as [_ _ [Hpn Hn] W1 _], N2 as [_ _ _ W2 _]. eexists _, _. unfold GetPodNetwork, PodNetwork.
  rewrite (newIPNet_net _ _ _ W1), (newIPNet_net _ _ _ W2). split_and!; [done..|].
  intros ip Hip H1. apply not_true_iff_false. intros H2. apply Hne, (host_net_inj p n s0); [done|done|].
  by apply (net_u32_disjoint n _ _ _ _ ip W1 W2).
Qed.

(** The address of a connected pod. *)
Lemma connected_address ia plugin connected ns a : running_ok ia plugin connected → connected !! ns = Some a →
  ∃ x, is_u32 x ∧ a = address_text x ∧ assignedPodIPs (srv_ipam (cs_srv (plugin_cni plugin))) !! x = Some ns ∧
    IPNet_Contains (podNetworkIPPrefix (srv_ipam (cs_srv (plugin_cni plugin)))) (uint32ToIpv4 x) = true.
Proof.
  intros (_ & Hinv & _ & Hown) (x & -> & Hx)%Hown. exists x.
  assert (pod_range p n s0 (srv_ipam (cs_srv (plugin_cni plugin))) x) as Hr by (apply (proj2 Hinv); by exists ns).
  split_and!; [by eapply pod_range_u32; [apply Hinv|]|done|done|]. by apply (pod_range_net p n s0 _ x (proj1 Hinv) Hr).
Qed.

(** C3. Addresses in the cluster. The plugins of all nodes start, allocate their
    node IDs through etcd, create their CNI servers, serve requests, resyncs and
    node events, close or crash and start again, in any interleaving. Take two
    nodes that run at some time. Two pods connected to them since their plugins
    last started have different addresses, unless they are the same pod; and the
    pod networks the policy plugin asks for ([GetPodNetwork]) of two different
    nodes are disjoint. The configurations of all starts agree on an IPv4 pod
    subnet and on the size of the network of a node, and the subnet has room for
    the nodes, of which there are at most 255. The listings of etcd are complete,
    its conditional put and its delete are atomic (one that returns an error took
    place already or never does), and at the start it holds at most one entry per
    node, as earlier runs of the same nodes left it. Nothing is claimed of the pods
    connected by earlier runs of the plugins: the IPAM starts empty, and it assigns
    the addresses of such pods again. *)
Theorem cluster_addresses_unique c0 c label1 label2 ia1 ia2 plugin1 plugin2 connected1 connected2 left1 left2 :
  plugins_start c0 → size (cc_nodes c0) ≤ 255 → (Z.of_nat (size (cc_nodes c0)) ≤ 2 ^ Z.of_nat (n - p))%Z →
  rtc contiv_step c0 c →
  cc_nodes c !! label1 = Some (mkPluginNode ia1 (Running plugin1 connected1) left1) →
  cc_nodes c !! label2 = Some (mkPluginNode ia2 (Running plugin2 connected2) left2) →
  (∀ ns1 ns2 a, connected1 !! ns1 = Some a → connected2 !! ns2 = Some a → label1 = label2 ∧ ns1 = ns2) ∧
  (label1 ≠ label2 → ∃ net1 net2, GetPodNetwork plugin1 = Some net1 ∧ GetPodNetwork plugin2 = Some net2 ∧
    ∀ ip, wf_bytes ip → IPNet_Contains net1 ip = true → IPNet_Contains net2 ip = false).
Proof.
  intros Hstart Hsz Hroom Hsteps H1 H2.
  assert (∀ label node, cc_nodes c !! label = Some node → phase_ok node) as Hok.
  { apply (contiv_steps_ok c0); [done|]. intros label node Hl. by rewrite (proj2 Hstart _ _ Hl). }
  pose proof (Hok _ _ H1) as R1. pose proof (Hok _ _ H2) as R2. cbn in R1, R2.
  assert (label1 ≠ label2 → (u8 (ia_ID ia1) mod 2 ^ Z.of_nat (n - p) ≠ u8 (ia_ID ia2) mod 2 ^ Z.of_nat (n - p))%Z) as Hids.
  { intros Hne. pose proof (contiv_steps_alloc _ _ Hsteps) as Hs. pose proof (plugins_start_alloc _ Hstart) as Hst.
    pose proof (alloc_lookup _ _ _ H1) as L1. pose proof (alloc_lookup _ _ _ H2) as L2.
    assert (size (nodes (alloc_cluster c0)) = size (cc_nodes c0)) as Hsize by apply map_size_fmap.
    destruct (distinct_ids _ _ _ _ _ _ ltac:(rewrite Hsize; exact Hsz) Hst Hs L1 L2 Hne (proj1 R1) (proj1 R2) eq_refl eq_refl) as [Hd Hr1].
    destruct (distinct_ids _ _ _ _ _ _ ltac:(rewrite Hsize; exact Hsz) Hst Hs L2 L1 (not_eq_sym Hne) (proj1 R2) (proj1 R1) eq_refl eq_refl) as [_ Hr2].
    rewrite Hsize in Hr1, Hr2. cbn in Hd, Hr1, Hr2. apply mod_distinct; [lia|lia|done]. }
  split.
  - intros ns1 ns2 a Ha1 Ha2. destruct (connected_address _ _ _ _ _ R1 Ha1) as (x & Hx & -> & Hx1 & Hin1).
    destruct (connected_address _ _ _ _ _ R2 Ha2) as (y & Hy & Hxy & Hy2 & Hin2). apply address_text_inj in Hxy; [|done..]. subst y.
    destruct (decide (label1 = label2)) as [->|Hne]; [split; [done|]; congruence|]. exfalso.
    destruct (running_disjoint _ _ _ _ _ _ R1 R2 (Hids Hne)) as (net1 & net2 & _ & _ & -> & -> & Hdis).
    rewrite (Hdis (uint32ToIpv4 x)) in Hin2; [done| |done]. by destruct (uint32ToIpv4_wf x).
  - intros Hne. destruct (running_disjoint _ _ _ _ _ _ R1 R2 (Hids Hne)) as (net1 & net2 & G1 & G2 & _ & _ & Hdis). by exists net1, net2.
Qed.
End unique.
End cluster.
