(* ===== verification/ContivExamples.v ===== *)
(** * Two nodes of a cluster

    The plugins of two nodes start at the same time, race for the node IDs and
    connect pods: an instance of the theorem on addresses, and what a restart of a
    plugin forgets. *)

From Stdlib Require Import ZArith Lia Ascii String.
From stdpp Require Import prelude strings list gmap.
From S2P Require Import Prelude GoStrings GoErrors GoNet Ipam IpamProofs NodeId NodeIdProofs CniModel PolicyCache PolicyCacheEvents PolicyCacheProofs.
From S2P Require Import KvdbProxy ContainerIdx NodeRoutes CniServer CniServerProofs CniExamples ContivPlugin.

#[local] Existing Instances canonical_order ex_env ex_keys ex_store.
#[local] Instance ex_etcd : Etcd (gmap string Identifier) string := etcd_in_map string.
#[local] Instance ex_etcd_laws : EtcdLaws (gmap string Identifier) string := etcd_in_map_laws string.

Abbreviation ExMapping := (gmap string (ContainerConfig * Indexes)).
Abbreviation ExCluster := (@ContivCluster ExWorld (gmap string CniMsg) ExMapping string (gmap string Identifier)).

(** ** Executable steps *)

Definition ex_config : ContivConfig := mkContivConfig false true false 1 0 0 ipam_config [].
Definition ex_init : InitEnv string := mkInitEnv None (Ok (Some ex_config)) None None true.
Definition ex_world : ExWorld := mkExWorld ∅ false.
Definition ex_proxy : ProxySys (gmap string CniMsg) CniMsg := mkProxySys proxy_Init ∅ [].

Inductive Move := Begin | Access | Resync | Add (request : CNIRequest) | Crash.

Abbreviation ExNode := (@PluginNode ExWorld (gmap string CniMsg) ExMapping string).

(** The next state of etcd and of a node; [None] if it cannot make the move. *)
Definition node_move (label : string) (m : Move) (s : gmap string Identifier) (node : ExNode) : option (gmap string Identifier * ExNode) :=
  match m, pn_phase node with
  | Begin, Stopped => Some (s, begin_node label ex_init ex_world ex_proxy (pn_left node))
  | Access, Starting env config pc =>
    let '(s, ia, o) := getID_step s (pn_alloc node) pc in
    Some (s, mkPluginNode ia (after_getID label env config ex_world ex_proxy o) (pn_left node))
  | Resync, Running plugin connected =>
    (λ plugin, (s, mkPluginNode (pn_alloc node) (Running plugin connected) (pn_left node))) <$> handleResync (E := string) plugin true
  | Add request, Running (mkNodePlugin config st) connected =>
    match configureContainerConnectivity (E := string) st request with
    | Answers (st, a) => Some (s, mkPluginNode (pn_alloc node) (Running (mkNodePlugin config st) (connected_step connected (CniAdd request, a)))
                            (left_step (pn_left node) (CniAdd request, a)))
    | _ => None
    end
  | Crash, _ => Some (s, mkPluginNode (newIDAllocator label) Stopped (pods_of node))
  | _, _ => None
  end.

Definition move (label : string) (m : Move) (c : ExCluster) : option ExCluster :=
  node ← cc_nodes c !! label;
  '(s, node) ← node_move label m (cc_etcd c) node;
  Some (mkContivCluster s (<[label := node]> (cc_nodes c))).

Definition allowed_env (env : InitEnv string) : Prop := env = ex_init.

Lemma move_step label m c c' : move label m c = Some c' → contiv_step allowed_env c c'.
Proof.
  unfold move. destruct (cc_nodes c !! label) as [[ia phase left]|] eqn:Hn; [|done]. cbn [mbind option_bind].
  destruct (node_move _ _ _ _) as [[s node]|] eqn:Hm; [|done]. cbn [mbind option_bind]. intros [= <-]. revert Hm. unfold node_move.
  cbn [pn_phase pn_alloc pn_left].
  destruct m as [| | |request|].
  - destruct phase; [|done..]. intros [= <- <-]. exact (plugin_begin _ _ _ _ _ _ _ Hn (or_introl eq_refl) eq_refl).
  - destruct phase as [| |env config pc|]; [done..| |done]. destruct (getID_step (cc_etcd c) ia pc) as [[s' ia'] o] eqn:Hg. intros [= <- <-].
    by eapply plugin_getID.
  - destruct phase as [| | |plugin connected]; [done..|]. destruct (handleResync plugin true) as [plugin'|] eqn:Hr; [|done].
    intros [= <- <-]. by eapply plugin_resync.
  - destruct phase as [| | |[config st] connected]; [done..|].
    destruct (configureContainerConnectivity st request) as [| |[st' a]] eqn:Ha; [done..|]. intros [= <- <-].
    exact (plugin_request _ c label ia config st connected left (CniAdd request) a st' Hn (step_add _ _ _ _ Ha)).
  - intros [= <- <-]. by eapply plugin_crash.
Qed.

Definition run_moves (ms : list (string * Move)) (c : ExCluster) : option ExCluster := foldl (λ o lm, o ≫= move lm.1 lm.2) (Some c) ms.

Lemma run_moves_None ms : foldl (λ o lm, o ≫= move lm.1 lm.2) None ms = None.
Proof. induction ms as [|m ms IH]; [done|exact IH]. Qed.

Lemma run_moves_steps ms c c' : run_moves ms c = Some c' → rtc (contiv_step allowed_env) c c'.
Proof.
  unfold run_moves. revert c. induction ms as [|[label m] ms IH]; intros c; [intros [= ->]; apply rtc_refl|]. cbn [foldl mbind option_bind fst snd].
  destruct (move label m c) as [c1|] eqn:Hm; [|by rewrite run_moves_None]. intros Hr. eapply rtc_l; [by eapply move_step|by apply IH].
Qed.

(** ** Two nodes *)

Definition ex_cluster : ExCluster :=
  mkContivCluster ∅
    {[ "n1"%string := mkPluginNode (newIDAllocator "n1") Stopped ∅; "n2"%string := mkPluginNode (newIDAllocator "n2") Stopped ∅ ]}.

(** Both list the IDs before one of them writes, the loser tries again. *)
Definition ex_start : list (string * Move) :=
  [("n1", Begin); ("n2", Begin); ("n1", Access); ("n1", Access); ("n2", Access); ("n2", Access); ("n1", Access); ("n2", Access);
  ("n2", Access); ("n2", Access);
   ("n1", Resync); ("n2", Resync)]%string.
Definition ex_moves : list (string * Move) := ex_start ++ [("n1", Add ex_request); ("n2", Add ex_request); ("n2", Add ex_request2)]%string.

(** The pods connected to a node that runs, and those of them of earlier runs. *)
Definition connected_at (label : string) (c : option ExCluster) : option (list (string * string)) :=
  c ← c; node ← cc_nodes c !! label;
  match pn_phase node with Running _ _ => Some (map_to_list (pods_of node)) | _ => None end.

Definition left_at (label : string) (c : option ExCluster) : option (list (string * string)) :=
  c ← c; node ← cc_nodes c !! label; Some (map_to_list (pn_left node)).

Example ex_moves_connect :
  connected_at "n1" (run_moves ex_moves ex_cluster) = Some [("/proc/42/ns/net", "10.1.1.2/32")]%string ∧
  connected_at "n2" (run_moves ex_moves ex_cluster) = Some [("/proc/43/ns/net", "10.1.2.3/32"); ("/proc/42/ns/net", "10.1.2.2/32")]%string.
Proof. vm_compute. split; reflexivity. Qed.

(** ** Instance of the theorem *)

Lemma ex_cluster_start : plugins_start ex_cluster.
Proof.
  split.
  - change (etcd_view (cc_etcd ex_cluster)) with (∅ : gmap string Identifier).
    split; [by intros ? ? ?%lookup_empty_Some|by intros ? ? ? ? ?%lookup_empty_Some].
  - intros label node. unfold ex_cluster. cbn [cc_nodes]. by intros [[<- <-]|[_ [<- <-]%lookup_singleton_Some]]%lookup_insert_Some.
Qed.

Lemma ex_allowed env config : allowed_env env → Init_begin env = Ok config → ipv4_config (IPAMConfig config) 16 24 subnet_value.
Proof. intros ->. intros [= <-]. apply ipam_config_ok. Qed.

(** The cluster after the moves and its two nodes. *)
Definition ex_end : ExCluster := default ex_cluster (run_moves ex_moves ex_cluster).

Lemma ex_end_steps : rtc (contiv_step allowed_env) ex_cluster ex_end.
Proof.
  unfold ex_end. destruct (run_moves ex_moves ex_cluster) as [c|] eqn:Hr; [by eapply run_moves_steps|apply rtc_refl].
Qed.

Definition ex_running (label : string) : idAllocator * option (NodePlugin ExWorld (gmap string CniMsg) ExMapping * gmap string string) :=
  match cc_nodes ex_end !! label with
  | Some (mkPluginNode ia (Running plugin connected) _) => (ia, Some (plugin, connected))
  | _ => (newIDAllocator label, None)
  end.

Lemma ex_running_node label : bool_decide (is_Some (ex_running label).2) = true →
  ∃ ia plugin connected left, cc_nodes ex_end !! label = Some (mkPluginNode ia (Running plugin connected) left).
Proof.
  unfold ex_running. intros Hb%bool_decide_eq_true. destruct (cc_nodes ex_end !! label) as [[ia [| |env config pc|plugin connected] old]|].
  - by destruct Hb.
  - by destruct Hb.
  - by destruct Hb.
  - by exists ia, plugin, connected, old.
  - by destruct Hb.
Qed.

Lemma cluster_addresses_unique_witness : ∃ (plugin1 plugin2 : NodePlugin ExWorld (gmap string CniMsg) ExMapping) net1 net2,
  GetPodNetwork plugin1 = Some net1 ∧ GetPodNetwork plugin2 = Some net2 ∧
  ∀ ip, wf_bytes ip → IPNet_Contains net1 ip = true → IPNet_Contains net2 ip = false.
Proof.
  destruct (ex_running_node "n1" ltac:(vm_compute; reflexivity)) as (ia1 & plugin1 & connected1 & left1 & H1).
  destruct (ex_running_node "n2" ltac:(vm_compute; reflexivity)) as (ia2 & plugin2 & connected2 & left2 & H2).
  destruct (proj2 (cluster_addresses_unique allowed_env 16 24 subnet_value ex_allowed ex_cluster ex_end "n1" "n2" ia1 ia2 plugin1 plugin2 connected1 connected2
    left1 left2 ex_cluster_start ltac:(vm_compute; lia) ltac:(vm_compute; congruence) ex_end_steps H1 H2) ltac:(done)) as (net1 & net2 & Hn).
  exists plugin1, plugin2, net1, net2. exact Hn.
Defined.

(** ** A restart *)

(** The IPAM does not load the addresses it assigned before a restart: when the
    plugin of n1 restarts with the pod of [ex_request] still connected, the next
    pod gets the address of that pod; two connected pods have one address. *)
Example restart_reuses_addresses :
  let before := run_moves ex_moves ex_cluster in
  let after := before ≫= run_moves [("n1", Crash); ("n1", Begin); ("n1", Access); ("n1", Resync); ("n1", Add ex_request2)]%string in
  connected_at "n1" before = Some [("/proc/42/ns/net", "10.1.1.2/32")]%string ∧
  connected_at "n1" after = Some [("/proc/43/ns/net", "10.1.1.2/32"); ("/proc/42/ns/net", "10.1.1.2/32")]%string ∧
  left_at "n1" after = Some [("/proc/42/ns/net", "10.1.1.2/32")]%string.
Proof. vm_compute. split_and!; reflexivity. Qed.
