(* ===== verification/CriShim.v ===== *)
(** * The CRI shim

    pkg/manager/manager.go: the server between the kubelet and the Docker shim of
    Kubernetes. It forwards all requests; a container of a pod with the label
    [ldpreload] also gets mounts and the variables with which its processes find
    the session layer of VPP.

    The Docker shim is the class [DockerService]; messages that are only passed on
    have the type [Msg]. *)

From Stdlib Require Import ZArith Lia Ascii String.
From stdpp Require Import prelude strings list gmap.
From S2P Require Import Prelude GoErrors GoNet CniModel PolicyCache KvdbProxy ContainerIdx CniServer.

(** ** Messages *)

Record Mount := mkMount { HostPath : string; ContainerPath : string }.
Record KeyValue := mkKeyValue { Key : string; Value : string }.

Section shim.
Context {Msg : Type}.

Record CriContainerConfig := mkCriContainerConfig { Mounts : list Mount; Envs : list KeyValue; config_rest : Msg }.
Record PodSandboxConfig := mkPodSandboxConfig { Labels : gmap string string; sandbox_rest : Msg }.
Record CreateContainerRequest := mkCreateContainerRequest {
  req_PodSandboxId : string;
  req_Config : option CriContainerConfig;
  req_SandboxConfig : option PodSandboxConfig
}.

(** The methods of the runtime and image services, with the type they return. *)
Inductive DockerCall : Type → Type :=
  | Docker_RunPodSandbox (config : option PodSandboxConfig) : DockerCall string
  | Docker_StopPodSandbox (id : string) : DockerCall ()
  | Docker_RemovePodSandbox (id : string) : DockerCall ()
  | Docker_PodSandboxStatus (id : string) : DockerCall Msg
  | Docker_ListPodSandbox (filter : Msg) : DockerCall (list Msg)
  | Docker_CreateContainer (id : string) (config : option CriContainerConfig) (sandbox : option PodSandboxConfig) : DockerCall string
  | Docker_StartContainer (id : string) : DockerCall ()
  | Docker_StopContainer (id : string) (timeout : Z) : DockerCall ()
  | Docker_RemoveContainer (id : string) : DockerCall ()
  | Docker_ListContainers (filter : Msg) : DockerCall (list Msg)
  | Docker_ContainerStatus (id : string) : DockerCall Msg
  | Docker_UpdateContainerResources (id : string) (resources : Msg) : DockerCall ()
  | Docker_Exec (req : Msg) : DockerCall Msg
  | Docker_Attach (req : Msg) : DockerCall Msg
  | Docker_PortForward (req : Msg) : DockerCall Msg
  | Docker_UpdateRuntimeConfig (config : Msg) : DockerCall ()
  | Docker_Status : DockerCall Msg
  | Docker_ListImages (filter : Msg) : DockerCall (list Msg)
  | Docker_ImageStatus (image : Msg) : DockerCall Msg
  | Docker_PullImage (image auth : Msg) : DockerCall string
  | Docker_RemoveImage (image : Msg) : DockerCall ()
  | Docker_ContainerStats (id : string) : DockerCall Msg
  | Docker_ListContainerStats (filter : Msg) : DockerCall (list Msg).

(** [ExecSync] returns the output also with an error, and an error may be the exit
    status of the command. *)
Class DockerService (D E : Type) := {
  docker : ∀ {A}, D → DockerCall A → D * result E A;
  docker_ExecSync : D → string → list string → Z → D * (string * string * option E);
  ExitStatus : E → option Z
}.

Inductive ShimError (E : Type) := DockerError (e : E) | NotImplemented.
#[global] Arguments DockerError {E} _.
#[global] Arguments NotImplemented {E}.

Record VersionResponse := mkVersionResponse { Version_ : string; RuntimeName : string; RuntimeVersion : string; RuntimeApiVersion : string }.
Record ExecSyncResponse := mkExecSyncResponse { Stdout : string; Stderr : string; ExitCode : Z }.

Context {D E : Type} `{!DockerService D E}.

(** ** Handlers *)

Definition forward {A} (call : DockerCall A) (d : D) : D * result (ShimError E) A :=
  match docker d call with
  | (d, Ok a) => (d, Ok a)
  | (d, Err e) => (d, Err (DockerError e))
  end.

Definition shim_Version : VersionResponse := mkVersionResponse "0.1.0" "contivshim" "0.1.0" "0.1.0".
Definition RunPodSandbox (config : option PodSandboxConfig) := forward (Docker_RunPodSandbox config).
Definition StopPodSandbox (id : string) := forward (Docker_StopPodSandbox id).
Definition RemovePodSandbox (id : string) := forward (Docker_RemovePodSandbox id).
Definition shim_PodSandboxStatus (id : string) := forward (Docker_PodSandboxStatus id).
Definition ListPodSandbox (filter : Msg) := forward (Docker_ListPodSandbox filter).
Definition StartContainer (id : string) := forward (Docker_StartContainer id).
Definition StopContainer (id : string) (timeout : Z) := forward (Docker_StopContainer id timeout).
Definition RemoveContainer (id : string) := forward (Docker_RemoveContainer id).
Definition ListContainers (filter : Msg) := forward (Docker_ListContainers filter).
Definition shim_ContainerStatus (id : string) := forward (Docker_ContainerStatus id).
Definition UpdateContainerResources (id : string) (resources : Msg) := forward (Docker_UpdateContainerResources id resources).
Definition shim_Exec (req : Msg) := forward (Docker_Exec req).
Definition shim_Attach (req : Msg) := forward (Docker_Attach req).
Definition shim_PortForward (req : Msg) := forward (Docker_PortForward req).
Definition UpdateRuntimeConfig (config : Msg) := forward (Docker_UpdateRuntimeConfig config).
Definition shim_Status := forward Docker_Status.
Definition ListImages (filter : Msg) := forward (Docker_ListImages filter).
Definition shim_ImageStatus (image : Msg) := forward (Docker_ImageStatus image).
Definition PullImage (image auth : Msg) := forward (Docker_PullImage image auth).
Definition RemoveImage (image : Msg) := forward (Docker_RemoveImage image).
Definition shim_ContainerStats (id : string) := forward (Docker_ContainerStats id).
Definition ListContainerStats (filter : Msg) := forward (Docker_ListContainerStats filter).
Definition ImageFsInfo (d : D) : D * result (ShimError E) () := (d, Err NotImplemented).

Definition wrap (bits z : Z) : Z := ((z + 2 ^ (bits - 1)) mod 2 ^ bits - 2 ^ (bits - 1))%Z.

(** The timeout is in seconds, a [Duration] counts nanoseconds in 64 bits. *)
Definition ExecSync (id : string) (cmd : list string) (timeout : Z) (d : D) : D * result (ShimError E) ExecSyncResponse :=
  let '(d, (stdout, stderr, err)) := docker_ExecSync d id cmd (wrap 64 (timeout * 1000000000)) in
  match err with
  | None => (d, Ok (mkExecSyncResponse stdout stderr 0))
  | Some e =>
    match ExitStatus e with
    | None => (d, Err (DockerError e))
    | Some status => (d, Ok (mkExecSyncResponse stdout stderr (wrap 32 status)))
    end
  end.

(** ** CreateContainer *)

Definition is_true (labels : gmap string string) (label : string) : bool := bool_decide (labels !! label = Some "true"%string).

Definition ldpreload_mounts : list Mount := [mkMount "/dev/shm" "/dev/shm"; mkMount "/tmp/ldpreload/vpp-lib64" "/ldp"].

Definition ldpreload_envs (labels : gmap string string) (podSandboxId : string) : list KeyValue :=
  [mkKeyValue "LD_LIBRARY_PATH" "/ldp/:/usr/local/lib:/usr/lib/:/lib"; mkKeyValue "LD_PRELOAD" "/ldp/libvcl_ldpreload.so.0.0.0";
   mkKeyValue "VCL_APP_NAMESPACE_ID" podSandboxId; mkKeyValue "VCL_APP_NAMESPACE_SECRET" "42"] ++
  (if is_true labels "proxytcp" then [mkKeyValue "VCL_APP_PROXY_TRANSPORT_TCP" ""] else []) ++
  (if is_true labels "proxyudp" then [mkKeyValue "VCL_APP_PROXY_TRANSPORT_UDP" ""] else []) ++
  (if is_true labels "scopeglobal" then [mkKeyValue "VCL_APP_SCOPE_GLOBAL" ""] else []) ++
  (if is_true labels "scopelocal" then [mkKeyValue "VCL_APP_SCOPE_LOCAL" ""] else []).

(** A nil configuration is a panic when there is something to add. *)
Definition CreateContainer (req : CreateContainerRequest) (d : D) : option (D * result (ShimError E) string) :=
  let labels := from_option Labels ∅ (req_SandboxConfig req) in
  config ← (if is_true labels "ldpreload" then
              c ← req_Config req;
              Some (Some (mkCriContainerConfig (Mounts c ++ ldpreload_mounts) (Envs c ++ ldpreload_envs labels (req_PodSandboxId req))
                (config_rest c)))
            else Some (req_Config req));
  Some (forward (Docker_CreateContainer (req_PodSandboxId req) config (req_SandboxConfig req)) d).
End shim.

(** ** The variables of a container *)

(** The value a process sees: the last one wins. *)
Definition env_value (key : string) (envs : list KeyValue) : option string := Value <$> last (filter (λ kv, Key kv = key) envs).

Definition ldpreload_keys : list string :=
  ["LD_LIBRARY_PATH"; "LD_PRELOAD"; "VCL_APP_NAMESPACE_ID"; "VCL_APP_NAMESPACE_SECRET"; "VCL_APP_PROXY_TRANSPORT_TCP";
   "VCL_APP_PROXY_TRANSPORT_UDP"; "VCL_APP_SCOPE_GLOBAL"; "VCL_APP_SCOPE_LOCAL"]%string.

Lemma env_value_app key envs envs' : env_value key (envs ++ envs') = match env_value key envs' with Some v => Some v | None => env_value key envs end.
Proof. unfold env_value. rewrite filter_app, last_app. by destruct (last (filter _ envs')). Qed.

(** One of the optional variables. *)
Lemma env_value_optional key key' v (b : bool) : key ≠ key' → env_value key (if b then [mkKeyValue key' v] else []) = None.
Proof. intros Hk. destruct b; [|done]. unfold env_value. by rewrite filter_cons_False by (cbn; congruence). Qed.

Lemma ldpreload_other labels id key : key ∉ ldpreload_keys → env_value key (ldpreload_envs labels id) = None.
Proof.
  intros Hk. unfold ldpreload_keys in Hk. unfold ldpreload_envs. rewrite !env_value_app, !env_value_optional by set_solver.
  unfold env_value. by rewrite !filter_cons_False by (cbn; set_solver).
Qed.

Section attach.
Context {Msg D E : Type} `{!@DockerService Msg D E}.
Context {X S M : Type} `{!CniEnv X E, !KvsyncDelegate S E CniMsg, !NamedMapping M ContainerConfig, !AgentKeys}.

(** A container of a pod with the label: Docker gets the configuration with the
    mounts and the variables appended, everything else as in the request; the ID
    and the secret in the variables are those with which the CNI server creates
    the application namespace of the pod in VPP. *)
Theorem ldpreload_attaches (req : CreateContainerRequest (Msg := Msg)) (c : CriContainerConfig) (sandbox : PodSandboxConfig) (d : D) :
  req_Config req = Some c → req_SandboxConfig req = Some sandbox → Labels sandbox !! "ldpreload"%string = Some "true"%string →
  ∃ config secret,
    CreateContainer req d = Some (forward (Docker_CreateContainer (req_PodSandboxId req) (Some config) (Some sandbox)) d) ∧
    config_rest config = config_rest c ∧ Mounts config = Mounts c ++ ldpreload_mounts ∧
    env_value "VCL_APP_NAMESPACE_ID" (Envs config) = Some (req_PodSandboxId req) ∧
    env_value "VCL_APP_NAMESPACE_SECRET" (Envs config) = Some (Itoa secret) ∧
    (∀ key, key ∉ ldpreload_keys → env_value key (Envs config) = env_value key (Envs c)) ∧
    (∀ (st : CniState X S M) ifname idx, hasSwIfIndex (cs_srv st) = true → hasGovpp (cs_srv st) = true → LookupIdx (cs_world st) ifname = Some idx →
       addAppNamespace (req_PodSandboxId req) ifname st =
       (reply ← checked_request (AppNamespaceAddDel secret idx (req_PodSandboxId req) (u8 (Z.of_nat (String.length (req_PodSandboxId req)))));
        mret (AppnsIndex reply)) st).
Proof.
  intros Hc Hs Hl. unfold CreateContainer. rewrite Hc, Hs. cbn [from_option]. unfold is_true at 1. rewrite bool_decide_eq_true_2 by done.
  cbn [mbind option_bind].
  eexists _, 42%Z. split; [done|]. cbn [config_rest Mounts Envs]. split_and!; [done|done| | | |].
  - unfold ldpreload_envs. by rewrite !env_value_app, !env_value_optional.
  - unfold ldpreload_envs. by rewrite !env_value_app, !env_value_optional.
  - intros key Hk. by rewrite env_value_app, ldpreload_other.
  - intros st ifname idx H1 H2 H3. assert (lookup_idx ifname st = Some (st, Ok (Some idx))) as Hi.
    { unfold lookup_idx, mbind, CM_bind, get_srv, get_world. rewrite H1. cbn. by rewrite H3. }
    unfold addAppNamespace, get_srv, mbind at 1, CM_bind at 1. rewrite H1. cbn [negb]. unfold mbind at 1, CM_bind at 1. by rewrite Hi, H2.
Qed.
End attach.
