(* ===== verification/Injector.v ===== *)
(** * The LD_PRELOAD label injector

    cmd/tools/ldpreload-label-injector/inject.go: the tool that inserts labels and
    environment variables into the YAML texts of pods and deployments. Texts are
    lists of bytes; a slice out of range, a negative repetition and a regular
    expression that does not compile are panics ([None]).

    The patterns of the source have a fixed shape and are written as lists of
    items, with the text of the pattern beside them. A class such as [[^ #]] takes
    a rune in Go and a byte here: only the start of such a match, or the number of
    bytes before the rune, is ever used. *)

From Stdlib Require Import ZArith Lia Ascii String.
From stdpp Require Import prelude strings list.
From S2P Require Import Prelude GoErrors GoNet.

Abbreviation text := (list ascii).
Definition str (s : string) : text := list_ascii_of_string s.

(** ** Regular expressions *)

(** One byte of a class, or as many as possible. *)
Inductive ReItem := One (class : ascii → bool) | Many (class : ascii → bool).

Definition is_char (c : ascii) (a : ascii) : bool := bool_decide (a = c).
Definition in_class (cs : text) (a : ascii) : bool := bool_decide (a ∈ cs).
Definition not_in_class (cs : text) (a : ascii) : bool := bool_decide (a ∉ cs).
Definition lit (t : text) : list ReItem := One ∘ is_char <$> t.

(** The length of the match at the start of the text, the longest repetitions
    first. *)
Fixpoint match_at (re : list ReItem) : text → option nat :=
  match re with
  | [] => λ _, Some 0
  | One c :: re => λ t,
    match t with
    | a :: t => if c a then Datatypes.S <$> match_at re t else None
    | [] => None
    end
  | Many c :: re =>
    fix many (t : text) : option nat :=
      match t with
      | [] => match_at re []
      | a :: t' => if c a then (match many t' with Some n => Some (Datatypes.S n) | None => match_at re t end) else match_at re t
      end
  end.

(** [FindStringIndex]: the leftmost match. *)
Fixpoint find (re : list ReItem) (t : text) : option (nat * nat) :=
  match match_at re t with
  | Some n => Some (0, n)
  | None => match t with [] => None | _ :: t => (λ p, (Datatypes.S p.1, Datatypes.S p.2)) <$> find re t end
  end.

(** [FindAllStringIndex]: [skip] bytes belong to the match before; the matches of
    the source are not empty. *)
Fixpoint find_all (re : list ReItem) (skip pos : nat) (t : text) : list (nat * nat) :=
  match t with
  | [] => []
  | _ :: t' =>
    match skip with
    | Datatypes.S k => find_all re k (Datatypes.S pos) t'
    | O =>
      match match_at re t with
      | Some n => (pos, pos + n) :: find_all re (n - 1) (Datatypes.S pos) t'
      | None => find_all re 0 (Datatypes.S pos) t'
      end
    end
  end.
Definition FindAllStringIndex (re : list ReItem) (t : text) : list (nat * nat) := find_all re 0 0 t.

(** [[cs]{n}]: a count above 1000 does not compile, and with a negative count the
    braces stand for themselves. *)
Definition repeated (cs : text) (n : Z) : option (list ReItem) :=
  if (n <? 0)%Z then Some (One (in_class cs) :: lit (str "{" ++ str (Itoa n) ++ str "}"))
  else if (1000 <? n)%Z then None
  else Some (replicate (Z.to_nat n) (One (in_class cs))).

(** A pattern that contains the text of a flag: does it compile, and is there a
    match. *)
Class Regexp := MatchPattern : text → text → option bool.

(** Bytes without a special meaning in a pattern. *)
Definition plain_byte (a : ascii) : Prop := a ∉ str "\.+*?()|[]{}^$".

Definition name_pattern (name eol : text) : list ReItem :=
  lit (str "name:") ++ [Many (is_char " ")] ++ lit name ++ [Many (is_char " ")] ++ lit eol.

Class RegexpLaws `{Regexp} : Prop :=
  match_plain_name : ∀ name eol t, Forall plain_byte name → Forall plain_byte eol →
    MatchPattern (str "name: *" ++ name ++ str " *" ++ eol) t = Some (bool_decide (is_Some (find (name_pattern name eol) t))).

(** ** Texts *)

Definition slice (t : text) (a b : nat) : option text :=
  if decide (a ≤ b ≤ length t) then Some (take (b - a) (drop a t)) else None.

Definition Index (t sub : text) : option nat := fst <$> find (lit sub) t.

(** [strings.Split] for a separator that is not empty. *)
Fixpoint split_on (sep : text) (skip : nat) (t : text) : list text :=
  match t with
  | [] => [[]]
  | a :: t' =>
    match skip with
    | Datatypes.S k => split_on sep k t'
    | O =>
      match match_at (lit sep) t with
      | Some n => [] :: split_on sep (n - 1) t'
      | None => match split_on sep 0 t' with [] => [[a]] | h :: r => (a :: h) :: r end
      end
    end
  end.

Definition Repeat (t : text) (n : Z) : option text := if (n <? 0)%Z then None else Some (concat (replicate (Z.to_nat n) t)).

(** [round] of the quotient of two integers, [0 < b]. *)
Definition round (a b : Z) : Z :=
  if (2 * a <? - b)%Z then Z.quot (2 * a - b) (2 * b)
  else if (b <? 2 * a)%Z then Z.quot (2 * a + b) (2 * b)
  else 0%Z.

Definition documentDelimiter : text := str "---".
Definition minusIndentationCharacter : text := str "-".
Definition spaceIndentationCharacter : text := str " ".
Definition indentationCharacters : text := minusIndentationCharacter ++ spaceIndentationCharacter.
Definition commentCharacters : text := str "#".
Definition defaultIndentationLength : Z := 2.

(** ** Traversal *)

Record block := mkBlock { block_start : nat; block_end : nat }.

(** The visitor is not part of the record: the traversal returns the places it is
    called with, in their order. *)
Record traversingInfo := mkTraversingInfo {
  document : text;
  info_eol : text;
  unresolvedPath : list text;
  resolvedPath : list text;
  blocks : list block;
  parentBlockIndentation : Z
}.

Definition newTraversingInfo (document : text) (path : list text) (eol : text) : traversingInfo :=
  mkTraversingInfo document eol path [] [mkBlock 0 (length document)] 0.

Definition newDescending (t : traversingInfo) (blockStart blockEnd : nat) (indentation : Z) : option traversingInfo :=
  match unresolvedPath t with
  | [] => None
  | p :: rest => Some (mkTraversingInfo (document t) (info_eol t) rest (resolvedPath t ++ [p])
    (blocks t ++ [mkBlock blockStart blockEnd]) indentation)
  end.

Definition curBlock (t : traversingInfo) : option block := last (blocks t).
Definition blockStr (t : traversingInfo) (i : Z) : option text :=
  if (i <? 0)%Z then None
  else b ← blocks t !! Z.to_nat i; slice (document t) (block_start b) (block_end b).
Definition curBlockStr (t : traversingInfo) : option text := b ← curBlock t; slice (document t) (block_start b) (block_end b).

(** The bytes between the end of the line and the last byte of the match. *)
Definition computeChildIndentation (cur eol : text) (re : list ReItem) : Z :=
  match find re cur with
  | None => -1
  | Some (a, b) => Z.of_nat (b - a - length eol - 1)
  end.

(** [eol[ ]*[^- #]{1}] *)
Definition normal_child (eol : text) : list ReItem :=
  lit eol ++ [Many (in_class spaceIndentationCharacter); One (not_in_class (indentationCharacters ++ commentCharacters))].
Definition computeChildIndentationForNormalBlock (normalBlock eol : text) : Z := computeChildIndentation normalBlock eol (normal_child eol).

(** [eol[ ]*-] *)
Definition mapping_child (eol : text) : list ReItem :=
  lit eol ++ [Many (in_class spaceIndentationCharacter)] ++ lit minusIndentationCharacter.
Definition computeChildIndentationForMappingBlock (mappingBlock eol : text) : Z := computeChildIndentation mappingBlock eol (mapping_child eol).

(** [eol[- ]*[^- #]{1}] *)
Definition item_child (eol : text) : list ReItem :=
  lit eol ++ [Many (in_class indentationCharacters); One (not_in_class (indentationCharacters ++ commentCharacters))].
Definition computeChildIndentationForItemBlock (itemBlock eol : text) : Z := computeChildIndentation itemBlock eol (item_child eol).

(** The block that starts at a match ends before the next line with the
    indentation [{n}] and the given class. *)
Definition computeInnerBlockPosition (cur : text) (prefixIndexes : nat * nat) (blockIndentation : Z) (eol : text)
  (lastCharacter : list ReItem) : option block :=
  let start := prefixIndexes.1 + length eol in
  indentation ← repeated spaceIndentationCharacter blockIndentation;
  rest ← slice cur start (length cur);
  Some (mkBlock start
    (match find (lit eol ++ indentation ++ lastCharacter) rest with
     | Some (k, _) => prefixIndexes.1 + k + length eol + length eol
     | None => length cur
     end)).
Definition computeChildBlockPosition (cur : text) (prefixIndexes : nat * nat) (blockIndentation : Z) (eol : text) : option block :=
  computeInnerBlockPosition cur prefixIndexes blockIndentation eol [One (not_in_class (indentationCharacters ++ commentCharacters))].
Definition computeItemBlockPosition (cur : text) (prefixIndexes : nat * nat) (blockIndentation : Z) (eol : text) : option block :=
  computeInnerBlockPosition cur prefixIndexes blockIndentation eol (lit minusIndentationCharacter).

(** The places visited in the blocks of a list, one after the other. *)
Definition visit_each {A} (f : A → option (list traversingInfo)) : list A → option (list traversingInfo) :=
  fix go (l : list A) := match l with [] => Some [] | a :: l => vs ← f a; ws ← go l; Some (vs ++ ws) end.

(** [visit] is [visitInsertionPlaces] for the path behind the next element. *)
Definition handleBasicBlock (visit : traversingInfo → option (list traversingInfo)) (i : traversingInfo) (blockIndentation : Z)
  : option (list traversingInfo) :=
  key ← head (unresolvedPath i);
  b ← curBlock i;
  cur ← curBlockStr i;
  indentation ← repeated indentationCharacters blockIndentation;
  match FindAllStringIndex (lit (info_eol i) ++ indentation ++ lit key) cur with
  | [] => Some [i]
  | matchedBlockPrefixes =>
    visit_each (λ prefixIndexes,
      childBlock ← computeChildBlockPosition cur prefixIndexes blockIndentation (info_eol i);
      child ← newDescending i (block_start b + block_start childBlock) (block_start b + block_end childBlock) blockIndentation;
      visit child) matchedBlockPrefixes
  end.

(** [path] is the unresolved path of [i]. *)
Fixpoint visit_path (path : list text) (i : traversingInfo) : option (list traversingInfo) :=
  match path with
  | [] => Some [i]
  | key :: path =>
    b ← curBlock i;
    cur ← curBlockStr i;
    if bool_decide (key = minusIndentationCharacter) then
      let mappingItemIndentation := computeChildIndentationForMappingBlock cur (info_eol i) in
      indentation ← repeated spaceIndentationCharacter mappingItemIndentation;
      visit_each (λ prefixIndexes,
        itemBlock ← computeItemBlockPosition cur prefixIndexes mappingItemIndentation (info_eol i);
        let itemChildBlockIndentation := computeChildIndentationForItemBlock cur (info_eol i) in
        item ← newDescending i (block_start b + block_start itemBlock) (block_start b + block_end itemBlock) mappingItemIndentation;
        match path with
        | [] => None
        | _ :: path => handleBasicBlock (visit_path path) item itemChildBlockIndentation
        end) (FindAllStringIndex (lit (info_eol i) ++ indentation ++ lit minusIndentationCharacter) cur)
    else handleBasicBlock (visit_path path) i (computeChildIndentationForNormalBlock cur (info_eol i))
  end.
Definition visitInsertionPlaces (i : traversingInfo) : option (list traversingInfo) := visit_path (unresolvedPath i) i.

(** ** Insertion *)

Record insertion := mkInsertion { insertionPoint : nat; insertion_text : text }.

Definition hasMappingInUresolvedPath (i : traversingInfo) : bool := bool_decide (minusIndentationCharacter ∈ unresolvedPath i).

(** [eol([ ]*?)[^ #]{1}] *)
Definition sibling_line (eol : text) : list ReItem :=
  lit eol ++ [Many (in_class spaceIndentationCharacter); One (not_in_class (spaceIndentationCharacter ++ commentCharacters))].

(** Lines, each with the indentation before it and [delta] more than the one
    before. *)
Fixpoint indented_lines (indentation delta : Z) (eol : text) (lines : list text) : option text :=
  match lines with
  | [] => Some []
  | line :: lines =>
    spaces ← Repeat (str " ") indentation;
    rest ← indented_lines (indentation + delta) delta eol lines;
    Some (spaces ++ line ++ eol ++ rest)
  end.

Definition indentation_delta (i : traversingInfo) : Z :=
  if (1 <? length (resolvedPath i))%nat then round (parentBlockIndentation i) (Z.of_nat (length (resolvedPath i)) - 1) else defaultIndentationLength.

Definition inner_indentation (i : traversingInfo) (cur : text) : Z :=
  if (0 <? length (resolvedPath i))%nat then
    match find (sibling_line (info_eol i)) cur with
    | Some (a, b) => Z.of_nat (b - a - length (info_eol i) - 1)
    | None => parentBlockIndentation i + indentation_delta i
    end
  else 0%Z.

Definition createIndentationedInsertionString (i : traversingInfo) (eol : text) (insertLines : list text) : option text :=
  cur ← curBlockStr i;
  let indentation := inner_indentation i cur in
  missing ← indented_lines indentation (indentation_delta i) eol (unresolvedPath i);
  inserted ← indented_lines (indentation + Z.of_nat (length (unresolvedPath i)) * indentation_delta i) 0 eol insertLines;
  Some (missing ++ inserted).

(** The insertions of the visitor in the order of the visits. *)
Fixpoint collect (condition : traversingInfo → option bool) (insertLines elseInsertLines : list text) (eol : text)
  (places : list traversingInfo) : option (list insertion) :=
  match places with
  | [] => Some []
  | i :: places =>
    if hasMappingInUresolvedPath i then collect condition insertLines elseInsertLines eol places
    else
      c ← condition i;
      insertStr ← createIndentationedInsertionString i eol (if c : bool then insertLines else elseInsertLines);
      b ← curBlock i;
      cur ← curBlockStr i;
      let insertPoint := match Index cur eol with Some k => k + length eol + block_start b | None => length eol + block_start b - 1 end in
      rest ← collect condition insertLines elseInsertLines eol places;
      Some (mkInsertion insertPoint insertStr :: rest)
  end.

Definition insert_one (document : text) (i : insertion) : option text :=
  before ← slice document 0 (insertionPoint i);
  after ← slice document (insertionPoint i) (length document);
  Some (before ++ insertion_text i ++ after).

Definition insert_all (document : text) (insertions : list insertion) : option text :=
  foldr (λ i d, d ← d; insert_one d i) (Some document) insertions.

(** The visitor prepends its insertions, so the last one is made first. *)
Definition insertLinesConditioned (document : text) (path : list text) (condition : traversingInfo → option bool)
  (insertLines elseInsertLines : list text) (eol : text) : option text :=
  places ← visitInsertionPlaces (newTraversingInfo document path eol);
  insertions ← collect condition insertLines elseInsertLines eol places;
  insert_all document insertions.

Definition insertLines (document : text) (path insertLines : list text) (eol : text) : option text :=
  insertLinesConditioned document path (λ _, Some true) insertLines [] eol.

(** ** The insertions of the tool *)

Record injectParams := mkInjectParams { useDebugLabel : bool; proxyName : text }.

Definition quote : ascii := "034".

Definition labels_path : list text := str <$> ["spec:"; "template:"; "metadata:"; "labels:"]%string.
Definition env_path : list text := str <$> ["spec:"; "template:"; "spec:"; "containers:"; "-"; "env:"]%string.

Definition empty_value : text := str "  value: " ++ [quote; quote].

Definition preload_lines : list text := [str "# ldpreload-related labels"; str "ldpreload: " ++ [quote] ++ str "true" ++ [quote]].
Definition global_lines : list text :=
  [str "# ldpreload-related env vars"; str "- name: VCL_APP_SCOPE_GLOBAL"; empty_value; str "- name: VCL_APP_SCOPE_LOCAL"; empty_value].
Definition proxy_lines : list text := global_lines ++ [str "- name: VCL_APP_PROXY_TRANSPORT_TCP"; empty_value].
Definition local_lines : list text := [str "# ldpreload-related env vars"; str "- name: VCL_APP_SCOPE_LOCAL"; empty_value].
Definition debug_lines : list text :=
  [str "# enable verbose VCL debugs, do not use for production"; str "- name: VCL_DEBUG"; str "  value: " ++ [quote] ++ str "3" ++ [quote]].

Definition insertLDPreloadTrue (document eol : text) : option text := insertLines document labels_path preload_lines eol.

Section inject.
Context `{Regexp}.

Definition isProxyContainer (proxyName : text) (info : traversingInfo) : option bool :=
  if (1 <? length (unresolvedPath info))%nat then Some false
  else
    imageBlockStr ← blockStr info (Z.of_nat (length (blocks info)) - (2 - Z.of_nat (length (unresolvedPath info))));
    MatchPattern (str "name: *" ++ proxyName ++ str " *" ++ info_eol info) imageBlockStr.

Definition insertAppScope (document eol : text) (params : injectParams) : option text :=
  if bool_decide (proxyName params = []) then insertLines document env_path global_lines eol
  else insertLinesConditioned document env_path (isProxyContainer (proxyName params)) proxy_lines local_lines eol.

Definition insertDebug (document eol : text) : option text := insertLines document env_path debug_lines eol.

Definition detectEOLString (content : text) : option text :=
  snd <$> list_find (λ eol, is_Some (Index content eol)) [["013"; "010"]; ["010"]; ["013"]]%char.

(** [kind: *Deployment] and [kind: *Pod] *)
Definition isDeployment (document : text) : bool :=
  bool_decide (is_Some (find (lit (str "kind:") ++ [Many (is_char " ")] ++ lit (str "Deployment")) document)).
Definition isPod (document : text) : bool :=
  bool_decide (is_Some (find (lit (str "kind:") ++ [Many (is_char " ")] ++ lit (str "Pod")) document)).

Definition inject_document (eol : text) (params : injectParams) (document : text) : option text :=
  if isPod document || isDeployment document then
    document ← insertLDPreloadTrue document eol;
    document ← insertAppScope document eol params;
    if useDebugLabel params then insertDebug document eol else Some document
  else Some document.

Fixpoint inject_documents (eol : text) (params : injectParams) (converted : text) (documents : list text) : option text :=
  match documents with
  | [] => Some converted
  | document :: documents =>
    let converted := if bool_decide (converted = []) then converted else converted ++ documentDelimiter in
    document ← inject_document eol params document;
    inject_documents eol params (converted ++ document) documents
  end.

(** [None] in the result is the error of [detectEOLString]. *)
Definition inject (content : text) (params : injectParams) : option (option text) :=
  match detectEOLString content with
  | None => Some None
  | Some eol => Some <$> inject_documents eol params [] (split_on documentDelimiter 0 content)
  end.
End inject.
