(* ===== verification/InjectorLines.v ===== *)
(** * Patterns and lines

    The patterns of the label injector on a text that consists of lines: every
    search finds the end of a line and looks at the line after it. *)

From Stdlib Require Import ZArith Lia Ascii String.
From stdpp Require Import prelude strings list.
From S2P Require Import Prelude GoErrors GoNet Injector InjectorProofs.

(** ** Lines *)

Definition eol_chars : text := ["013"; "010"]%char.
Definition eols : list text := [["013"; "010"]; ["010"]; ["013"]]%char.

Definition unlines (eol : text) (ls : list text) : text := concat ((λ l, l ++ eol) <$> ls).

Fixpoint spaces (l : text) : nat :=
  match l with
  | a :: l => if bool_decide (a = " "%char) then Datatypes.S (spaces l) else 0
  | [] => 0
  end.
Definition first_char (l : text) : option ascii := head (drop (spaces l) l).

(** A line without the ends of other lines that is not blank. *)
Definition plain_line (l : text) : Prop := Forall (λ a, a ∉ eol_chars) l ∧ is_Some (first_char l).

Definition indent (n : nat) (l : text) : text := replicate n " "%char ++ l.

Lemma unlines_cons eol l ls : unlines eol (l :: ls) = l ++ eol ++ unlines eol ls.
Proof. unfold unlines. cbn. by rewrite <-app_assoc. Qed.
Lemma unlines_app eol ls ls' : unlines eol (ls ++ ls') = unlines eol ls ++ unlines eol ls'.
Proof. unfold unlines. by rewrite fmap_app, concat_app. Qed.
Lemma length_unlines_cons eol l ls : length (unlines eol (l :: ls)) = length l + length eol + length (unlines eol ls).
Proof. rewrite unlines_cons, !length_app. lia. Qed.

Lemma spaces_split l a : first_char l = Some a → ∃ r, l = indent (spaces l) (a :: r) ∧ a ≠ " "%char.
Proof.
  unfold first_char, indent. induction l as [|b l IH]; [done|]. cbn [spaces]. case_bool_decide as Hb.
  - cbn [drop]. intros (r & Hr & Ha)%IH. exists r. split; [|done]. cbn [replicate app]. by rewrite Hb, <-Hr.
  - cbn. intros [= ->]. by exists l.
Qed.

Lemma spaces_indent n a r : a ≠ " "%char → spaces (indent n (a :: r)) = n ∧ first_char (indent n (a :: r)) = Some a.
Proof.
  intros Ha. assert (spaces (indent n (a :: r)) = n) as Hs.
  { unfold indent. induction n as [|n IH]; cbn [replicate app spaces]; [by rewrite bool_decide_eq_false_2|].
    rewrite bool_decide_eq_true_2 by done. by f_equal. }
  split; [done|]. unfold first_char. rewrite Hs. unfold indent. by rewrite drop_app_length' by (by rewrite length_replicate).
Qed.

(** ** Matches *)

Lemma match_length re t n : match_at re t = Some n → n ≤ length t.
Proof.
  revert t n. induction re as [|[c|c] re IH]; intros t n; cbn [match_at]; [intros [= <-]; lia|..].
  - destruct t as [|a t]; [done|]. destruct (c a); [|done]. intros (m & Hm%IH & ->)%fmap_Some. cbn. lia.
  - revert n. induction t as [|a t IHt]; intros n; [apply IH|]. destruct (c a); [|apply IH].
    destruct (_ t) as [m|]; [|apply IH]. intros [= <-]. specialize (IHt m eq_refl). cbn. lia.
Qed.

Lemma match_lit_app s re u : match_at (lit s ++ re) (s ++ u) = Nat.add (length s) <$> match_at re u.
Proof.
  induction s as [|a s IH]; [change (match_at re u = Nat.add 0 <$> match_at re u); by destruct (match_at re u)|]. rewrite lit_cons.
  cbn [match_at app]. unfold is_char at 1.
  rewrite bool_decide_eq_true_2, IH by done. by destruct (match_at re u).
Qed.

Lemma match_lit_other a s re b u : b ≠ a → match_at (lit (a :: s) ++ re) (b :: u) = None.
Proof. intros Hb. rewrite lit_cons. cbn [match_at app]. unfold is_char at 1. by rewrite bool_decide_eq_false_2. Qed.

(** A run of a class, and then a byte of another class. *)
Lemma match_run (X Y : ascii → bool) run c t : Forall (λ a, X a = true ∧ Y a = false) run → X c = false →
  match_at [Many X; One Y] (run ++ c :: t) = if Y c then Some (length run + 1) else None.
Proof.
  intros Hrun Hc. induction Hrun as [|a run [Ha Hy] _ IH].
  - cbn. rewrite Hc. by destruct (Y c).
  - cbn [app]. change (match_at [Many X; One Y] (a :: run ++ c :: t)) with
      (if X a then match match_at [Many X; One Y] (run ++ c :: t) with Some n => Some (Datatypes.S n)
      | None => match_at [One Y] (a :: run ++ c :: t) end
       else match_at [One Y] (a :: run ++ c :: t)).
    rewrite Ha, IH. destruct (Y c); [done|]. cbn. by rewrite Hy.
Qed.

(** Exactly [n] bytes of a class. *)
Lemma match_replicate (X : ascii → bool) n re t : match_at (replicate n (One X) ++ re) t =
  if decide (n ≤ length t ∧ Forall (λ a, X a = true) (take n t)) then Nat.add n <$> match_at re (drop n t) else None.
Proof.
  revert t. induction n as [|n IH]; intros t.
  - rewrite decide_True by (split; [lia|by constructor]). cbn [replicate app drop]. change (match_at re t = Nat.add 0 <$> match_at re t).
    by destruct (match_at re t).
  - cbn [replicate app match_at]. destruct t as [|a t]; [by rewrite decide_False by (cbn; lia)|]. cbn [take drop length]. destruct (X a) eqn:Ha.
    + rewrite IH. destruct (decide (n ≤ length t ∧ _)) as [[Hl Hf]|Hn].
      * rewrite decide_True by (split; [lia|by apply Forall_cons]). by destruct (match_at re _).
      * rewrite decide_False; [done|]. intros [Hl [_ Hf]%Forall_cons]. apply Hn. split; [lia|done].
    + rewrite decide_False; [done|]. intros [_ [Hx _]%Forall_cons]. congruence.
Qed.

(** ** Searches *)

Definition shift (k : nat) (o : option (nat * nat)) : option (nat * nat) := (λ p, (k + p.1, k + p.2)) <$> o.

Section search.
Context (eol : text) (Heol : eol ∈ eols).

(** What a pattern sees of a line. *)
Definition local (re : list ReItem) (l : text) : Prop := ∀ rest, match_at re (l ++ eol ++ rest) = match_at re l.

Definition no_eol (l : text) : Prop := Forall (λ a, a ∉ eol_chars) l.

Lemma find_cons re a t : match_at re (a :: t) = None → find re (a :: t) = shift 1 (find re t).
Proof. cbn [find]. by intros ->. Qed.

Lemma shift_shift j k o : shift j (shift k o) = shift (j + k) o.
Proof. destruct o as [[a b]|]; [|done]. cbn. f_equal. f_equal; lia. Qed.

Lemma eol_head : ∃ a s, eol = a :: s ∧ a ∈ eol_chars ∧ Forall (λ b, b ≠ a) s.
Proof.
  unfold eols in Heol. repeat (apply elem_of_cons in Heol as [->|Heol]); [..|by apply elem_of_nil in Heol];
    eexists _, _; (split; [done|]); split; [|by repeat constructor| |by constructor| |by constructor]; set_solver.
Qed.

Lemma find_other b s re t u : Forall (λ c, c ≠ b) t → find (lit (b :: s) ++ re) (t ++ u) = shift (length t) (find (lit (b :: s) ++ re) u).
Proof.
  induction 1 as [|c t Hc _ IH]; [cbn [app length]; by destruct (find _ u) as [[]|]|]. cbn [app length].
  by rewrite find_cons, IH, shift_shift by by apply match_lit_other.
Qed.

Lemma find_skip re h t : no_eol h → find (lit eol ++ re) (h ++ t) = shift (length h) (find (lit eol ++ re) t).
Proof.
  intros Hh. destruct eol_head as (b & s & -> & Hb & _). apply find_other. eapply Forall_impl; [exact Hh|]. intros c Hc ->. done.
Qed.

Lemma find_eol re u : match_at re u = None → find (lit eol ++ re) (eol ++ u) = shift (length eol) (find (lit eol ++ re) u).
Proof.
  intros Hu. pose proof (match_lit_app eol re u) as Hm. rewrite Hu in Hm. destruct eol_head as (b & s & He & _ & Hs). rewrite He in *.
  cbn [app] in *. by rewrite find_cons, find_other, shift_shift.
Qed.

(** *** The first match *)

Lemma find_first re h before l after m : Forall no_eol (h :: before) → Forall (local re) (before ++ [l]) →
  Forall (λ l, match_at re l = None) before → match_at re l = Some m →
  find (lit eol ++ re) (unlines eol (h :: before ++ l :: after)) =
    Some (length (unlines eol (h :: before)) - length eol, length (unlines eol (h :: before)) + m).
Proof.
  intros Hf Hl Hb Hm. revert h Hf. induction before as [|l' before IH]; intros h [Hh Hf]%Forall_cons; rewrite unlines_cons, find_skip by done.
  - apply Forall_inv in Hl. cbn [app]. assert (match_at (lit eol ++ re) (eol ++ unlines eol (l :: after)) = Some (length eol + m)) as Hma.
    { by rewrite match_lit_app, unlines_cons, Hl, Hm. }
    rewrite length_unlines_cons. destruct (eol ++ _) as [|a t] eqn:He; cbn [find]; rewrite Hma; cbn [shift fmap option_fmap option_map fst snd].
    all: change (length (unlines eol [])) with 0; do 2 f_equal; lia.
  - apply Forall_cons in Hl as [Hl Hls]. apply Forall_cons in Hb as [Hn Hb]. cbn [app].
    rewrite find_eol by (by rewrite unlines_cons, Hl). rewrite IH by done. rewrite !length_unlines_cons.
    cbn [shift fmap option_fmap option_map fst snd].
    do 2 f_equal; lia.
Qed.

Lemma find_nothing re h ls : match_at re [] = None → Forall no_eol (h :: ls) → Forall (local re) ls → Forall (λ l, match_at re l = None) ls →
  find (lit eol ++ re) (unlines eol (h :: ls)) = None.
Proof.
  intros H0 Hf Hl Hn. revert h Hf. induction ls as [|l ls IH]; intros h [Hh Hf]%Forall_cons; rewrite unlines_cons, find_skip by done.
  - change (unlines eol []) with (@nil ascii). rewrite find_eol by done. destruct eol_head as (b & s & -> & _). done.
  - apply Forall_cons in Hl as [Hl Hls]. apply Forall_cons in Hn as [Hm Hn].
    rewrite find_eol by (by rewrite unlines_cons, Hl). by rewrite IH.
Qed.

(** *** All matches *)

(** [off] is the offset of the end of the line before. *)
Fixpoint line_matches (re : list ReItem) (off : nat) (ls : list text) : list (nat * nat) :=
  match ls with
  | [] => []
  | l :: ls =>
    (match match_at re l with Some m => [(off, off + length eol + m)] | None => [] end) ++
    line_matches re (off + length eol + length l) ls
  end.

Lemma find_all_drop re k pos t : k ≤ length t → find_all re k pos t = find_all re 0 (pos + k) (drop k t).
Proof.
  revert k pos. induction t as [|a t IH]; intros [|k] pos Hk; cbn [length] in Hk; [done|lia|by rewrite Nat.add_0_r|].
  cbn [find_all drop]. rewrite IH by lia. f_equal. lia.
Qed.

Lemma find_all_other b s re pos t u : Forall (λ c, c ≠ b) t → find_all (lit (b :: s) ++ re) 0 pos (t ++ u)
  = find_all (lit (b :: s) ++ re) 0 (pos + length t) u.
Proof.
  intros Ht. revert pos. induction Ht as [|c t Hc _ IH]; intros pos; [by rewrite Nat.add_0_r|]. cbn [app find_all length].
  rewrite match_lit_other, IH by done. f_equal. lia.
Qed.

Lemma find_all_skip re pos h t : no_eol h → find_all (lit eol ++ re) 0 pos (h ++ t) = find_all (lit eol ++ re) 0 (pos + length h) t.
Proof.
  intros Hh. destruct eol_head as (b & s & -> & Hb & _). apply find_all_other. eapply Forall_impl; [exact Hh|]. intros c Hc ->. done.
Qed.

Lemma find_all_eol re pos u : find_all (lit eol ++ re) 0 pos (eol ++ u) =
  match match_at re u with
  | Some m => (pos, pos + length eol + m) :: find_all (lit eol ++ re) 0 (pos + length eol + m) (drop m u)
  | None => find_all (lit eol ++ re) 0 (pos + length eol) u
  end.
Proof.
  pose proof (match_lit_app eol re u) as Hm. destruct eol_head as (b & s & He & _ & Hs). rewrite He in *. cbn [app find_all] in *. rewrite Hm.
  destruct (match_at re u) as [m|] eqn:Hu; cbn [fmap option_fmap option_map length].
  - apply match_length in Hu. f_equal; [f_equal; lia|]. rewrite find_all_drop by (rewrite length_app; lia). f_equal; [lia|].
    replace (Datatypes.S (length s) + m - 1) with (length s + m) by lia. by rewrite <-drop_drop, drop_app_length.
  - rewrite find_all_other by done. f_equal. lia.
Qed.

Lemma find_all_lines re h ls : match_at re [] = None → Forall no_eol (h :: ls) → Forall (local re) ls →
  FindAllStringIndex (lit eol ++ re) (unlines eol (h :: ls)) = line_matches re (length h) ls.
Proof.
  intros H0 Hf Hl. cut (∀ pos, find_all (lit eol ++ re) 0 pos (unlines eol (h :: ls)) = line_matches re (pos + length h) ls);
    [intros Hc; apply (Hc 0)|].
  revert h Hf.
  induction ls as [|l ls IH]; intros h [Hh Hf]%Forall_cons pos; rewrite unlines_cons, find_all_skip, find_all_eol by done.
  - change (unlines eol []) with (@nil ascii). by rewrite H0.
  - apply Forall_cons in Hl as [Hl Hls]. pose proof Hf as [Hfl Hfs]%Forall_cons. rewrite unlines_cons at 1. rewrite Hl. cbn [line_matches].
    destruct (match_at re l) as [m|] eqn:Hm; cbn [app].
    + apply match_length in Hm. f_equal. rewrite unlines_cons, drop_app_le by done.
      rewrite <-unlines_cons, IH by (done || (apply Forall_cons; split; [by apply Forall_drop|done])).
      f_equal. rewrite length_drop. lia.
    + rewrite IH by done. f_equal; lia.
Qed.

(** *** Patterns that look at the indentation *)

Abbreviation space := (in_class spaceIndentationCharacter).

Lemma plain_no_eol l : plain_line l → no_eol l.
Proof. by intros []. Qed.

Lemma space_run (Y : ascii → bool) n : Y " "%char = false → Forall (λ a, space a = true ∧ Y a = false) (replicate n " "%char).
Proof. intros HY. by apply Forall_replicate. Qed.

Lemma not_space a : a ≠ " "%char → space a = false.
Proof. intros Ha. apply bool_decide_eq_false_2. by intros ->%list_elem_of_singleton. Qed.

Lemma match_indentation (Y : ascii → bool) l a rest : Y " "%char = false → first_char l = Some a →
  match_at [Many space; One Y] (l ++ rest) = if Y a then Some (spaces l + 1) else None.
Proof.
  intros HY (r & Hl & Ha)%spaces_split. rewrite Hl at 1. unfold indent. rewrite <-app_assoc. cbn [app].
  rewrite match_run by (by apply space_run || by apply not_space). by rewrite length_replicate.
Qed.

Lemma match_n_spaces (Y : ascii → bool) n l a rest : Y " "%char = false → first_char l = Some a →
  match_at (replicate n (One space) ++ [One Y]) (l ++ rest) = if bool_decide (spaces l = n) && Y a then Some (n + 1) else None.
Proof.
  intros HY (r & Hl & Ha)%spaces_split. rewrite Hl at 1. set (k := spaces l). clearbody k. unfold indent. rewrite <-app_assoc. cbn [app].
  rewrite match_replicate. destruct (lt_eq_lt_dec n k) as [[Hlt| ->]|Hgt].
  - rewrite bool_decide_eq_false_2 by lia. replace k with (n + Datatypes.S (k - n - 1)) by lia. rewrite replicate_add, <-app_assoc.
    rewrite drop_app_length' by (by rewrite length_replicate). cbn [andb replicate app match_at]. rewrite HY. by case_decide.
  - rewrite take_app_length', drop_app_length' by (by rewrite length_replicate). rewrite bool_decide_eq_true_2 by done. cbn [andb].
    rewrite decide_True by (rewrite length_app, length_replicate; split; [lia|by apply Forall_replicate]). cbn [match_at]. by destruct (Y a).
  - rewrite bool_decide_eq_false_2 by lia. cbn [andb]. rewrite decide_False; [done|]. intros [_ Hf].
    rewrite take_app_ge in Hf by (rewrite length_replicate; lia).
    rewrite length_replicate in Hf. replace (n - k) with (Datatypes.S (n - k - 1)) in Hf by lia. apply Forall_app in Hf as [_ [Hs _]%Forall_cons].
    rewrite not_space in Hs by done. done.
Qed.

(** Patterns of single bytes that are not part of the end of a line. *)
Lemma local_ones re l : Forall (λ i, ∃ c, i = One c ∧ ∀ a, a ∈ eol_chars → c a = false) re → local re l.
Proof.
  intros Hre rest. revert l. induction Hre as [|? re (c & -> & Hc) _ IH]; intros l; [done|]. destruct l as [|a l].
  - destruct eol_head as (b & s & -> & Hb & _). cbn. by rewrite Hc.
  - cbn [app match_at]. destruct (c a); [|done]. by rewrite IH.
Qed.

(** The indentation of the first line whose first byte is in a class. *)
Definition starts (Y : ascii → bool) (l : text) : Prop := from_option Y false (first_char l) = true.
#[global] Instance starts_dec Y l : Decision (starts Y l).
Proof. unfold starts. apply _. Defined.
Definition first_indent (Y : ascii → bool) (ls : list text) : option nat := spaces <$> head (filter (starts Y) ls).

Lemma first_split (P : text → Prop) `{!∀ l, Decision (P l)} ls :
  (Forall (λ l, ¬ P l) ls ∧ head (filter P ls) = None) ∨
  ∃ before l after, ls = before ++ l :: after ∧ Forall (λ l, ¬ P l) before ∧ P l ∧ head (filter P ls) = Some l.
Proof.
  induction ls as [|l ls [[Hn Hh]|(b & l' & a & -> & Hb & Hl & Hh)]]; [left; by split; [constructor|]|..]; rewrite filter_cons;
    destruct (decide (P l)).
  - right. exists [], l, ls. split_and!; [done|by constructor|done|done].
  - left. split; [by constructor|done].
  - right. eexists [], l, _. split_and!; [done|by constructor|done|done].
  - right. exists (l :: b), l', a. split_and!; [done|by constructor|done|done].
Qed.

Lemma find_indentation (Y : ascii → bool) h body : Y " "%char = false → no_eol h → Forall plain_line body →
  (λ p, p.2 - p.1 - length eol - 1) <$> find (lit eol ++ [Many space; One Y]) (unlines eol (h :: body)) = first_indent Y body.
Proof.
  intros HY Hh Hp. assert (∀ l rest, plain_line l → match_at [Many space; One Y] (l ++ rest) = if decide (starts Y l)
    then Some (spaces l + 1) else None) as Hm.
  { intros l rest [_ [a Ha]]. rewrite (match_indentation Y l a) by done.
    destruct (decide (starts Y l)) as [Hs|Hs]; unfold starts in Hs; rewrite Ha in Hs; cbn in Hs; [by rewrite Hs|by destruct (Y a)]. }
  assert (Forall (local [Many space; One Y]) body) as Hloc.
  { eapply Forall_impl; [exact Hp|]. intros l Hl rest. rewrite Hm by done. by rewrite <-(app_nil_r l), Hm, app_nil_r. }
  assert (Forall no_eol (h :: body)) as Hno by (constructor; [done|eapply Forall_impl; [exact Hp|apply plain_no_eol]]).
  assert (∀ l, plain_line l → match_at [Many space; One Y] l = if decide (starts Y l) then Some (spaces l + 1) else None) as Hm'.
  { intros l Hl. by rewrite <-(Hm l [] Hl), app_nil_r. }
  unfold first_indent. destruct (first_split (starts Y) body) as [[Hn ->]|(b & l & a & -> & Hb & Hl & ->)].
  - rewrite find_nothing; [done|done|done|done|]. apply Forall_forall. intros l Hl. rewrite Forall_forall in Hn, Hp.
    by rewrite Hm', decide_False by auto.
  - apply Forall_app in Hp as [Hpb [Hpl _]%Forall_cons]. rewrite app_comm_cons in Hno. apply Forall_app in Hno as [Hno _].
    rewrite (find_first _ h b l a (spaces l + 1)).
    + cbn [fmap option_fmap option_map fst snd]. rewrite length_unlines_cons. f_equal. lia.
    + done.
    + rewrite cons_middle, app_assoc in Hloc. by apply Forall_app in Hloc as [Hloc _].
    + apply Forall_forall. intros l' Hl'. rewrite Forall_forall in Hb, Hpb. by rewrite Hm', decide_False by auto.
    + by rewrite Hm', decide_True.
Qed.
End search.
