(* ===== verification/InjectorPlaces.v ===== *)
(** * Where the label injector inserts

    For a text of lines in the layout the tool supports (no blank lines, keys at
    the same indentation within a block, a unique path): the lines are inserted
    behind the last line of the path that exists, with the indentation of the
    lines that are there, and all other lines stay as they are. *)

From Stdlib Require Import ZArith Lia Ascii String.
From stdpp Require Import prelude strings list.
From S2P Require Import Prelude GoErrors GoNet Injector InjectorProofs InjectorLines.

(** ** The layout *)

Definition key_char : ascii → bool := not_in_class (indentationCharacters ++ commentCharacters).
Definition sibling_char : ascii → bool := not_in_class (spaceIndentationCharacter ++ commentCharacters).
Abbreviation dash_char := (is_char "-"%char).

(** [n] bytes of indentation, dashes included, and then the key. *)
Definition names (n : nat) (key l : text) : Prop :=
  n ≤ length l ∧ Forall (λ a, in_class indentationCharacters a = true) (take n l) ∧ key `prefix_of` drop n l.
#[global] Instance names_dec n key l : Decision (names n key l).
Proof. unfold names. apply _. Defined.

(** A line that ends the block of a key with the indentation [n]. *)
Definition ends_block (Y : ascii → bool) (n : nat) (l : text) : Prop := spaces l = n ∧ starts Y l.
#[global] Instance ends_block_dec Y n l : Decision (ends_block Y n l).
Proof. unfold ends_block. apply _. Defined.

(** The block of the only line with the key: its [header] and the lines [inner]. *)
Record has_block (n : nat) (key : text) (body before : list text) (header : text) (inner after : list text) : Prop := {
  hb_body : body = before ++ header :: inner ++ after;
  hb_small : n ≤ 1000;
  hb_header : names n key header;
  hb_unique : Forall (λ l, ¬ names n key l) (before ++ inner ++ after);
  hb_inner : Forall (λ l, ¬ ends_block key_char n l) inner;
  hb_after : from_option (ends_block key_char n) True (head after)
}.

(** No line with the key at the indentation of the block. *)
Definition absent (key : text) (body : list text) : Prop :=
  match first_indent key_char body with
  | Some n => n ≤ 1000 ∧ Forall (λ l, ¬ names n key l) body
  | None => Forall (λ l, ¬ names 1 (str "{-1}" ++ key) l) body
  end.

(** The lines [target] of the block at the end of the path, with the indentation
    of its header. *)
Inductive reaches : list text → nat → list text → list text → list text → list text → nat → Prop :=
  | reaches_here n body : reaches [] n body [] body [] n
  | reaches_down key path n m k body before header inner after pre target post :
      key ≠ minusIndentationCharacter → first_indent key_char body = Some m → has_block m key body before header inner after →
      reaches path m inner pre target post k →
      reaches (key :: path) n body (before ++ header :: pre) target (post ++ after) k.

(** ** The inserted lines *)

Fixpoint indented (k d : Z) (lines : list text) : list text :=
  match lines with [] => [] | l :: lines => indent (Z.to_nat k) l :: indented (k + d) d lines end.

(** [count] elements of the path exist, the last one with the indentation [n]. *)
Definition delta (count n : nat) : Z := if (1 <? count)%nat then round (Z.of_nat n) (Z.of_nat count - 1) else defaultIndentationLength.
Definition place (count n : nat) (target : list text) : Z :=
  if (0 <? count)%nat then
    match first_indent sibling_char target with Some k => Z.of_nat k | None => Z.of_nat n + delta count n end
  else 0%Z.
Definition inserted (count n : nat) (target missing lines : list text) : list text :=
  indented (place count n target) (delta count n) missing ++
  indented (place count n target + Z.of_nat (length missing) * delta count n) 0 lines.

(** An item starts with a dash behind [m] spaces. *)
Definition is_item (m : nat) (item : list text) : Prop :=
  ∃ dash rest, item = dash :: rest ∧ ends_block dash_char m dash ∧ Forall (λ l, ¬ ends_block dash_char m l) rest.

(** The first key of an item is [c] bytes behind the start of its line. *)
Definition key_column (c : nat) (dash : text) : Prop :=
  ∃ run b r, dash = run ++ b :: r ∧ length run = c ∧ Forall (λ a, in_class indentationCharacters a = true) run ∧ key_char b = true.

(** What happens to an item: the lines are inserted behind its key, or the key is
    inserted behind the first line of the item. [count] elements of the path lead
    to the mapping, [new] are the lines for an item. *)
Inductive item_inserted (new : list text → list text) (m c count : nat) (key : text) : list text → list text → Prop :=
  | item_found dash rest before header inner after :
      has_block c key rest before header inner after →
      item_inserted new m c count key (dash :: rest) (dash :: before ++ header :: inserted (count + 2) c inner [] (new (dash :: rest))
        ++ inner ++ after)
  | item_absent dash rest :
      c ≤ 1000 → Forall (λ l, ¬ names c key l) rest →
      item_inserted new m c count key (dash :: rest) (dash :: inserted (count + 1) m rest [key] (new (dash :: rest)) ++ rest).

Lemma delta_nonneg count n : (0 ≤ delta count n)%Z.
Proof.
  unfold delta, round, defaultIndentationLength. destruct (Nat.ltb_spec 1 count); [|lia].
  destruct (Z.ltb_spec (2 * Z.of_nat n) (- (Z.of_nat count - 1))); [lia|]. destruct (Z.ltb_spec (Z.of_nat count - 1) (2 * Z.of_nat n)); [|lia].
  apply Z.quot_pos; lia.
Qed.
Lemma place_nonneg count n target : (0 ≤ place count n target)%Z.
Proof. unfold place. pose proof (delta_nonneg count n). destruct (0 <? count)%nat; [|lia]. destruct (first_indent _ _); lia. Qed.

Lemma Repeat_spaces k : (0 ≤ k)%Z → Repeat (str " ") k = Some (replicate (Z.to_nat k) " "%char).
Proof.
  intros Hk. unfold Repeat. destruct (Z.ltb_spec k 0); [lia|]. f_equal. induction (Z.to_nat k) as [|n IH]; [done|].
  cbn [replicate concat]. by rewrite IH.
Qed.

Lemma indented_lines_eq k d eol lines : (0 ≤ k)%Z → (0 ≤ d)%Z → indented_lines k d eol lines = Some (unlines eol (indented k d lines)).
Proof.
  intros Hk Hd. revert k Hk. induction lines as [|l lines IH]; intros k Hk; [done|]. cbn [indented_lines indented].
  rewrite Repeat_spaces, IH by lia. cbn [mbind option_bind]. rewrite unlines_cons. unfold indent. by rewrite <-app_assoc.
Qed.

(** ** Insertions of a part of the text *)

Definition shift_insertion (k : nat) (i : insertion) : insertion := mkInsertion (k + insertionPoint i) (insertion_text i).

Lemma insert_one_embed a b t i t' : insert_one t i = Some t' → insert_one (a ++ t ++ b) (shift_insertion (length a) i) = Some (a ++ t' ++ b).
Proof.
  intros (x & y & -> & -> & Hi)%insert_one_inv. unfold shift_insertion. rewrite <-Hi.
  replace (a ++ (x ++ y) ++ b) with ((a ++ x) ++ y ++ b) by by rewrite <-!app_assoc.
  rewrite insert_one_app by (by rewrite length_app). f_equal. by rewrite <-!app_assoc.
Qed.

Lemma insert_all_cons d i ins : insert_all d (i :: ins) = d ← insert_all d ins; insert_one d i.
Proof. done. Qed.

Lemma insert_all_embed a b t ins t' : insert_all t ins = Some t' → insert_all (a ++ t ++ b) (shift_insertion (length a) <$> ins)
  = Some (a ++ t' ++ b).
Proof.
  revert t'. induction ins as [|i ins IH]; intros t'; [by intros [= ->]|]. rewrite fmap_cons, !insert_all_cons.
  intros (d & Hd & Hi)%bind_Some. rewrite (IH d Hd). cbn [mbind option_bind]. by apply insert_one_embed.
Qed.

Lemma insert_all_seq t1 t2 ins1 ins2 t1' t2' : insert_all t1 ins1 = Some t1' → insert_all t2 ins2 = Some t2' →
  insert_all (t1 ++ t2) (ins1 ++ (shift_insertion (length t1) <$> ins2)) = Some (t1' ++ t2').
Proof.
  intros H1 H2. pose proof (insert_all_embed t1 [] _ _ _ H2) as H2'. rewrite !app_nil_r in H2'. revert t1' H1.
  induction ins1 as [|i ins IH]; intros t1'; [intros [= <-]; done|]. rewrite <-app_comm_cons, !insert_all_cons.
  intros (d & Hd & Hi)%bind_Some. rewrite (IH d Hd). cbn [mbind option_bind].
  pose proof (insert_one_embed [] t2' _ _ _ Hi) as He. by destruct i.
Qed.

(** ** Places in a text of lines *)

Section places.
Context (eol : text) (Heol : eol ∈ eols).
Context (condition : traversingInfo → option bool) (lines elseLines : list text).

Abbreviation unlines := (unlines eol).

(** The current block of [i] is [t], with [a] before it. *)
Definition at_block (i : traversingInfo) (a t : text) : Prop :=
  info_eol i = eol ∧ (∃ z, document i = a ++ t ++ z) ∧ last (blocks i) = Some (mkBlock (length a) (length a + length t)).

Lemma at_block_str i a t : at_block i a t → curBlockStr i = Some t.
Proof. intros (_ & [z Hz] & Hb). unfold curBlockStr, curBlock. rewrite Hb. cbn. rewrite Hz. apply slice_app. Qed.

(** The insertions for the visited places turn [t], behind [off] bytes, into [t']. *)
Definition yields (places : option (list traversingInfo)) (off : nat) (t t' : text) : Prop :=
  ∃ ps ins, places = Some ps ∧ collect condition lines elseLines eol ps = Some (shift_insertion off <$> ins) ∧ insert_all t ins = Some t'.

Lemma shift_insertion_add j k (ins : list insertion) : shift_insertion j <$> (shift_insertion k <$> ins) = shift_insertion (j + k) <$> ins.
Proof. rewrite <-list_fmap_compose. apply list_fmap_ext. intros _ [p x] _. unfold shift_insertion. cbn. f_equal. lia. Qed.

Lemma yields_embed ps off a t t' b : yields ps (off + length a) t t' → yields ps off (a ++ t ++ b) (a ++ t' ++ b).
Proof.
  intros (vs & ins & Hp & Hc & Hi). exists vs, (shift_insertion (length a) <$> ins). rewrite shift_insertion_add. split_and!; [done..|].
  by apply insert_all_embed.
Qed.

Lemma collect_app ps qs : collect condition lines elseLines eol (ps ++ qs) =
  xs ← collect condition lines elseLines eol ps; ys ← collect condition lines elseLines eol qs; Some (xs ++ ys).
Proof.
  induction ps as [|p ps IH]; cbn [app collect]; [cbn; by destruct (collect _ _ _ _ qs)|]. destruct (hasMappingInUresolvedPath p); [done|].
  destruct (condition p); [|done]. cbn [mbind option_bind]. destruct (createIndentationedInsertionString _ _ _); [|done]. cbn [mbind option_bind].
  destruct (curBlock p); [|done]. cbn [mbind option_bind]. destruct (curBlockStr p); [|done]. cbn [mbind option_bind]. rewrite IH.
  destruct (collect _ _ _ _ ps); [|done]. cbn [mbind option_bind]. by destruct (collect _ _ _ _ qs).
Qed.

Lemma yields_nil off t : yields (Some []) off t t.
Proof. by exists [], []. Qed.

Lemma yields_seq {A} (f : A → option (list traversingInfo)) x xs off t1 t1' t2 t2' :
  yields (f x) off t1 t1' → yields (visit_each f xs) (off + length t1) t2 t2' → yields (visit_each f (x :: xs)) off (t1 ++ t2) (t1' ++ t2').
Proof.
  intros (p1 & i1 & H1 & Hc1 & Ht1) (p2 & i2 & H2 & Hc2 & Ht2). exists (p1 ++ p2), (i1 ++ (shift_insertion (length t1) <$> i2)).
  split_and!; [|by rewrite collect_app, Hc1, Hc2, fmap_app, shift_insertion_add|by apply insert_all_seq].
  change (visit_each f (x :: xs)) with (vs ← f x; ws ← visit_each f xs; Some (vs ++ ws)). by rewrite H1, H2.
Qed.

Lemma visit_one {A} (f : A → option (list traversingInfo)) x : visit_each f [x] = f x.
Proof. cbn. destruct (f x) as [vs|]; [|done]. cbn. by rewrite app_nil_r. Qed.

Lemma Index_unlines h ls : no_eol h → Index (unlines (h :: ls)) eol = Some (length h).
Proof.
  intros Hh. unfold Index. rewrite unlines_cons, <-(app_nil_r (lit eol)), find_skip by done.
  assert (match_at (lit eol ++ []) (eol ++ unlines ls) = Some (length eol)) as Hm by (rewrite match_lit_app; cbn; f_equal; lia).
  destruct (eol ++ unlines ls) as [|a t]; cbn [find]; rewrite Hm; cbn; f_equal; lia.
Qed.

(** *** A visited place *)

Lemma delta_eq i n : parentBlockIndentation i = Z.of_nat n → indentation_delta i = delta (length (resolvedPath i)) n.
Proof. intros Hn. unfold indentation_delta, delta. by rewrite Hn. Qed.

Lemma place_eq i h body n : info_eol i = eol → no_eol h → Forall plain_line body → parentBlockIndentation i = Z.of_nat n →
  inner_indentation i (unlines (h :: body)) = place (length (resolvedPath i)) n body.
Proof.
  intros He Hh Hb Hn. unfold inner_indentation, place. destruct (0 <? _)%nat; [|done].
  rewrite (delta_eq i n Hn), Hn, He. rewrite <-(find_indentation eol Heol sibling_char h body) by done. unfold sibling_line.
  by destruct (find _ _) as [[a b]|].
Qed.

Lemma yields_place i a h body n : at_block i a (unlines (h :: body)) → no_eol h → Forall plain_line body → parentBlockIndentation i = Z.of_nat n →
  minusIndentationCharacter ∉ unresolvedPath i → ∀ c, condition i = Some c →
  yields (Some [i]) (length a) (unlines (h :: body))
    (unlines (h :: inserted (length (resolvedPath i)) n body (unresolvedPath i) (if c : bool then lines else elseLines) ++ body)).
Proof.
  intros Hat Hh Hb Hn Hm c Hc. pose proof Hat as (He & _ & Hlast).
  set (new := inserted (length (resolvedPath i)) n body (unresolvedPath i) (if c then lines else elseLines)).
  assert (createIndentationedInsertionString i eol (if c then lines else elseLines) = Some (unlines new)) as Hs.
  { unfold createIndentationedInsertionString. rewrite (at_block_str i a _ Hat). cbn [mbind option_bind].
    rewrite (place_eq i h body n), (delta_eq i n) by done. pose proof (place_nonneg (length (resolvedPath i)) n body).
    pose proof (delta_nonneg (length (resolvedPath i)) n).
    rewrite !indented_lines_eq by lia. cbn [mbind option_bind]. by rewrite <-unlines_app. }
  exists [i], [mkInsertion (length h + length eol) (unlines new)]. split_and!; [done|..].
  - cbn [collect]. unfold hasMappingInUresolvedPath. rewrite bool_decide_eq_false_2 by done. rewrite Hc. cbn [mbind option_bind].
    rewrite Hs. cbn [mbind option_bind].
    unfold curBlock. rewrite Hlast. cbn [mbind option_bind]. rewrite (at_block_str i a _ Hat). cbn [mbind option_bind]. rewrite Index_unlines by done.
    cbn. do 2 f_equal. unfold shift_insertion. cbn. f_equal. lia.
  - rewrite insert_all_cons. cbn [insert_all foldr mbind option_bind]. rewrite unlines_cons, app_assoc.
    rewrite insert_one_app by (by rewrite length_app). f_equal. by rewrite unlines_cons, unlines_app, <-app_assoc.
Qed.

(** *** The block of a key *)

Definition key_pattern (n : nat) (key : text) : list ReItem := replicate n (One (in_class indentationCharacters)) ++ lit key.

Lemma match_names n key l : match_at (key_pattern n key) l = if decide (names n key l) then Some (n + length key) else None.
Proof.
  unfold key_pattern, names. rewrite match_replicate. destruct (decide (n ≤ length l ∧ _)) as [[Hl Hf]|Hn].
  - destruct (match_at (lit key) (drop n l)) as [m|] eqn:Hm.
    + apply match_lit_inv in Hm as [-> [v Hv]]. rewrite decide_True; [done|]. split_and!; [done..|]. rewrite Hv. by apply prefix_app_r.
    + rewrite decide_False; [done|]. intros (_ & _ & [v Hv]). rewrite Hv, match_lit in Hm. done.
  - rewrite decide_False; [done|]. intros (? & ? & _). by apply Hn.
Qed.

Lemma key_pattern_local n key l : no_eol key → local eol (key_pattern n key) l.
Proof.
  intros Hk. apply (local_ones eol Heol), Forall_app. split.
  - apply Forall_replicate. eexists. split; [done|]. intros a Ha. apply bool_decide_eq_false_2. set_solver.
  - unfold lit. apply Forall_fmap. eapply Forall_impl; [exact Hk|]. intros a Ha. eexists. split; [done|]. intros b Hb.
    apply bool_decide_eq_false_2. by intros ->.
Qed.

Lemma repeated_nat cs n : n ≤ 1000 → repeated cs (Z.of_nat n) = Some (replicate n (One (in_class cs))).
Proof. intros Hn. unfold repeated. destruct (Z.ltb_spec (Z.of_nat n) 0); [lia|]. destruct (Z.ltb_spec 1000 (Z.of_nat n)); [lia|].
by rewrite Nat2Z.id. Qed.

Lemma repeated_negative : repeated indentationCharacters (-1) = Some (key_pattern 1 (str "{-1}")).
Proof. done. Qed.

Lemma line_matches_app re off ls ls' :
  line_matches eol re off (ls ++ ls') = line_matches eol re off ls ++ line_matches eol re (off + length (unlines ls)) ls'.
Proof.
  revert off. induction ls as [|l ls IH]; intros off; cbn [app line_matches]; [by rewrite Nat.add_0_r|].
  rewrite IH, length_unlines_cons, <-app_assoc. do 3 f_equal. lia.
Qed.

Lemma line_matches_none re off ls : Forall (λ l, match_at re l = None) ls → line_matches eol re off ls = [].
Proof. intros Hn. revert off. induction Hn as [|l ls Hl _ IH]; intros off; [done|]. cbn [line_matches]. by rewrite Hl, IH. Qed.

Lemma no_names n key ls : Forall (λ l, ¬ names n key l) ls → Forall (λ l, match_at (key_pattern n key) l = None) ls.
Proof. intros Hn. eapply Forall_impl; [exact Hn|]. intros l Hl. by rewrite match_names, decide_False. Qed.

Lemma key_matches n key h body : no_eol h → no_eol key → key ≠ [] → Forall plain_line body →
  FindAllStringIndex (lit eol ++ key_pattern n key) (unlines (h :: body)) = line_matches eol (key_pattern n key) (length h) body.
Proof.
  intros Hh Hk Hne Hb. apply find_all_lines; [done|..].
  - rewrite match_names, decide_False; [done|]. intros (_ & _ & [v Hv]). rewrite drop_nil in Hv. by destruct key.
  - constructor; [done|]. eapply Forall_impl; [exact Hb|apply plain_no_eol].
  - apply Forall_forall. intros l _. by apply key_pattern_local.
Qed.

(** The end of a block. *)
Lemma inner_end (Y : ascii → bool) n header inner after : Y " "%char = false → no_eol header → Forall plain_line (inner ++ after) →
  Forall (λ l, ¬ ends_block Y n l) inner → from_option (ends_block Y n) True (head after) →
  match find (lit eol ++ replicate n (One (in_class spaceIndentationCharacter)) ++ [One Y]) (unlines (header :: inner ++ after)) with
  | Some (k, _) => k + length eol
  | None => length (unlines (header :: inner ++ after))
  end = length (unlines (header :: inner)).
Proof.
  intros HY Hh Hp Hin Haf. set (re := replicate n _ ++ _).
  assert (∀ l rest, plain_line l → match_at re (l ++ rest) = if decide (ends_block Y n l) then Some (n + 1) else None) as Hm.
  { intros l rest [_ [a Ha]]. unfold re. rewrite (match_n_spaces Y n l a) by done. unfold ends_block, starts.
    destruct (decide (spaces l = n ∧ _)) as [[Hs Hy]|Hno]; rewrite Ha in *; cbn [from_option] in *.
    - by rewrite bool_decide_eq_true_2, Hy.
    - case_bool_decide; [|done]. destruct (Y a); [|done]. exfalso. by apply Hno. }
  assert (∀ l, plain_line l → match_at re l = if decide (ends_block Y n l) then Some (n + 1) else None) as Hm'.
  { intros l Hl. by rewrite <-(Hm l [] Hl), app_nil_r. }
  assert (Forall (local eol re) (inner ++ after)) as Hloc.
  { eapply Forall_impl; [exact Hp|]. intros l Hl rest. by rewrite Hm, Hm'. }
  assert (Forall (λ l, match_at re l = None) inner) as Hnone.
  { apply Forall_app in Hp as [Hp _]. apply Forall_forall. intros l Hl. rewrite Forall_forall in Hp, Hin. by rewrite Hm', decide_False by auto. }
  assert (Forall no_eol (header :: inner)) as Hno.
  { constructor; [done|]. apply Forall_app in Hp as [Hp _]. eapply Forall_impl; [exact Hp|apply plain_no_eol]. }
  destruct after as [|l after].
  - rewrite app_nil_r in *. rewrite find_nothing; [done|done| |done|done|done]. unfold re. destruct n; [done|done].
  - apply Forall_app in Hp as [_ [Hl _]%Forall_cons]. rewrite cons_middle, app_assoc in Hloc. apply Forall_app in Hloc as [Hloc _].
    rewrite (find_first eol Heol re header inner l after (n + 1)); [|done|done|done|by rewrite Hm', decide_True].
    rewrite length_unlines_cons. lia.
Qed.

(** A block behind [before] that ends where [Y] starts a line with its
    indentation. *)
Lemma inner_position (Y : ascii → bool) n h before header inner after m : Y " "%char = false → n ≤ 1000 → no_eol header →
  Forall plain_line (inner ++ after) →
  Forall (λ l, ¬ ends_block Y n l) inner → from_option (ends_block Y n) True (head after) →
  computeInnerBlockPosition (unlines (h :: before ++ header :: inner ++ after)) (length h + length (unlines before), m) (Z.of_nat n) eol [One Y] =
    Some (mkBlock (length (unlines (h :: before))) (length (unlines (h :: before)) + length (unlines (header :: inner)))).
Proof.
  intros HY Hn Hh Hp Hin Haf. unfold computeInnerBlockPosition. cbn [fst]. rewrite repeated_nat by done. cbn [mbind option_bind].
  rewrite app_comm_cons, unlines_app.
  replace (length h + length (unlines before) + length eol) with (length (unlines (h :: before))) by (rewrite length_unlines_cons; lia).
  rewrite slice_rest. cbn [mbind option_bind]. do 2 f_equal.
  pose proof (inner_end Y n header inner after HY Hh Hp Hin Haf) as He.
  destruct (find _ (unlines (header :: inner ++ after))) as [[k k']|]; rewrite <-He.
  - rewrite length_unlines_cons. lia.
  - by rewrite length_app.
Qed.

(** [child] is visited in a block of [i]. *)
Definition below (i child : traversingInfo) : Prop :=
  document child = document i ∧ info_eol child = info_eol i ∧ ∃ b, blocks child = blocks i ++ [b].

Lemma at_block_child i a h before header inner after path key : at_block i a (unlines (h :: before ++ header :: inner ++ after)) →
  unresolvedPath i = key :: path →
  ∀ n, ∃ child, newDescending i (length a + length (unlines (h :: before)))
    (length a + (length (unlines (h :: before)) + length (unlines (header :: inner)))) n = Some child ∧
    at_block child (a ++ unlines (h :: before)) (unlines (header :: inner)) ∧ unresolvedPath child = path ∧
    length (resolvedPath child) = Datatypes.S (length (resolvedPath i)) ∧ parentBlockIndentation child = n ∧ below i child.
Proof.
  intros (He & [z Hz] & _) Hu n. unfold newDescending. rewrite Hu. eexists. split; [done|].
  cbn [unresolvedPath resolvedPath parentBlockIndentation]. split_and!; [|done|rewrite length_app; cbn; lia|done|by split_and!; [..|eexists]].
  split_and!; [done|exists (unlines after ++ z)|].
  - cbn [document]. rewrite Hz, (app_comm_cons before), unlines_app, (app_comm_cons inner), unlines_app. by rewrite <-!app_assoc.
  - cbn [blocks]. rewrite last_snoc, length_app. do 2 f_equal. lia.
Qed.

Lemma key_char_space : key_char " "%char = false.
Proof. done. Qed.

Lemma handle_block visit i a h n key path body before header inner after t' :
  at_block i a (unlines (h :: body)) → unresolvedPath i = key :: path → no_eol h → no_eol key → key ≠ [] → Forall plain_line body →
  has_block n key body before header inner after →
  (∀ child, at_block child (a ++ unlines (h :: before)) (unlines (header :: inner)) → unresolvedPath child = path →
     length (resolvedPath child) = Datatypes.S (length (resolvedPath i)) → parentBlockIndentation child = Z.of_nat n → below i child →
     yields (visit child) (length (a ++ unlines (h :: before))) (unlines (header :: inner)) t') →
  yields (handleBasicBlock visit i (Z.of_nat n)) (length a) (unlines (h :: body)) (unlines (h :: before) ++ t' ++ unlines after).
Proof.
  intros Hat Hu Hh Hk Hne Hp [-> Hn Hhd Huniq Hin Haf] Hv. pose proof Hp as [Hpb [Hphd Hpi]%Forall_cons]%Forall_app.
  destruct (at_block_child i a h before header inner after path key Hat Hu (Z.of_nat n)) as (child & Hchild & Hc).
  assert (handleBasicBlock visit i (Z.of_nat n) = visit child) as ->.
  { pose proof Hat as (He & _ & Hlast). unfold handleBasicBlock, curBlock. rewrite Hu, Hlast. cbn [head mbind option_bind].
    rewrite (at_block_str i a _ Hat), repeated_nat by done. cbn [mbind option_bind]. rewrite He. fold (key_pattern n key).
    rewrite key_matches by done. apply Forall_app in Huniq as [Hb%no_names Hia%no_names]. rewrite line_matches_app. cbn [line_matches].
    rewrite (line_matches_none _ _ before), (line_matches_none _ _ (inner ++ after)) by done.
    rewrite match_names, decide_True by done. cbn [app]. rewrite visit_one. unfold computeChildBlockPosition.
    rewrite inner_position by (done || by apply plain_no_eol). cbn [mbind option_bind block_start block_end]. by rewrite Hchild. }
  destruct Hc as (Hca & Hcu & Hcr & Hcn & Hcb). rewrite app_comm_cons, unlines_app, (app_comm_cons inner), unlines_app.
  apply yields_embed. rewrite <-length_app. by apply Hv.
Qed.

Lemma handle_absent visit i a h n key path body : at_block i a (unlines (h :: body)) → unresolvedPath i = key :: path → no_eol h →
  no_eol key → key ≠ [] →
  Forall plain_line body → n ≤ 1000 → Forall (λ l, ¬ names n key l) body → handleBasicBlock visit i (Z.of_nat n) = Some [i].
Proof.
  intros Hat Hu Hh Hk Hne Hp Hn Hno%no_names. pose proof Hat as (He & _ & Hlast). unfold handleBasicBlock, curBlock. rewrite Hu, Hlast.
  cbn [head mbind option_bind].
  rewrite (at_block_str i a _ Hat), repeated_nat by done. cbn [mbind option_bind]. rewrite He. fold (key_pattern n key).
  rewrite key_matches by done. by rewrite line_matches_none.
Qed.

Lemma handle_negative visit i a h key path body : at_block i a (unlines (h :: body)) → unresolvedPath i = key :: path → no_eol h →
  no_eol key → key ≠ [] →
  Forall plain_line body → Forall (λ l, ¬ names 1 (str "{-1}" ++ key) l) body → handleBasicBlock visit i (-1) = Some [i].
Proof.
  intros Hat Hu Hh Hk Hne Hp Hno%no_names. pose proof Hat as (He & _ & Hlast). unfold handleBasicBlock, curBlock. rewrite Hu, Hlast.
  cbn [head mbind option_bind].
  rewrite (at_block_str i a _ Hat), repeated_negative. cbn [mbind option_bind]. rewrite He.
  change (key_pattern 1 (str "{-1}") ++ lit key) with (key_pattern 1 (str "{-1}" ++ key)).
  rewrite key_matches; [by rewrite line_matches_none|done|..|done].
  - apply Forall_app. split; [|done]. apply (bool_decide_unpack _). vm_compute. done.
  - done.
Qed.

Lemma normal_indentation h body : no_eol h → Forall plain_line body →
  computeChildIndentationForNormalBlock (unlines (h :: body)) eol = from_option Z.of_nat (-1)%Z (first_indent key_char body).
Proof.
  intros Hh Hb. unfold computeChildIndentationForNormalBlock, computeChildIndentation, normal_child.
  rewrite <-(find_indentation eol Heol key_char h body) by done. by destruct (find _ _) as [[]|].
Qed.

(** *** Paths *)

Definition plain_keys (path : list text) : Prop := Forall (λ key, no_eol key ∧ key ≠ []) path.

Lemma visit_reaches q n body pre target post k : reaches q n body pre target post k → ∀ i a h rest target',
  at_block i a (unlines (h :: body)) → unresolvedPath i = q ++ rest → no_eol h → Forall plain_line body → plain_keys q →
    parentBlockIndentation i = Z.of_nat n →
  (∀ child a' header, at_block child a' (unlines (header :: target)) → unresolvedPath child = rest →
     length (resolvedPath child) = length (resolvedPath i) + length q → parentBlockIndentation child = Z.of_nat k → no_eol header →
       Forall plain_line target →
     yields (visit_path rest child) (length a') (unlines (header :: target)) (unlines (header :: target'))) →
  yields (visit_path (q ++ rest) i) (length a) (unlines (h :: body)) (unlines (h :: pre ++ target' ++ post)).
Proof.
  induction 1 as [n body|key path n m k body before header inner after pre target post Hkey Hm Hblock Hr IH];
    intros i a h rest target' Hat Hu Hh Hp Hkeys Hn Hv.
  - cbn [app]. rewrite app_nil_r. apply Hv; [done|done| |done..]. cbn. lia.
  - apply Forall_cons in Hkeys as [[Hk Hne] Hkeys]. pose proof Hblock as [Hbody _ _ _ _ _].
    assert (Forall plain_line (before ++ header :: inner ++ after)) as Hp' by by rewrite <-Hbody.
    apply Forall_app in Hp' as [_ [Hphd [Hpi _]%Forall_app]%Forall_cons].
    assert (visit_path ((key :: path) ++ rest) i = handleBasicBlock (visit_path (path ++ rest)) i (Z.of_nat m)) as ->.
    { pose proof Hat as (He & _ & Hlast). cbn [app visit_path]. unfold curBlock. rewrite Hlast. cbn [mbind option_bind].
      rewrite (at_block_str i a _ Hat). cbn [mbind option_bind]. rewrite bool_decide_eq_false_2 by done. by rewrite He, normal_indentation, Hm. }
    replace (unlines (h :: (before ++ header :: pre) ++ target' ++ post ++ after))
      with (unlines (h :: before) ++ unlines (header :: pre ++ target' ++ post) ++ unlines after).
    2:{ rewrite <-!unlines_app. f_equal. cbn. by rewrite <-!app_assoc. }
    eapply handle_block; [done..|]. intros child Hca Hcu Hcr Hcn _. apply IH; [done|done|by apply plain_no_eol|done..|].
    intros child' a' header' Ha' Hu' Hr' Hn' Hh' Hp'. apply Hv; [done|done| |done..]. rewrite Hr', Hcr. cbn. lia.
Qed.

(** The rest of a path that does not exist. *)
Definition path_absent (missing body : list text) : Prop :=
  match missing with
  | [] => True
  | key :: _ => no_eol key ∧ key ≠ [] ∧ key ≠ minusIndentationCharacter ∧ absent key body
  end.

Lemma visit_absent i a h missing body : at_block i a (unlines (h :: body)) → unresolvedPath i = missing → no_eol h → Forall plain_line body →
  path_absent missing body → visit_path missing i = Some [i].
Proof.
  intros Hat Hu Hh Hp. destruct missing as [|key path]; [done|]. intros (Hk & Hne & Hkey & Habs).
  pose proof Hat as (He & _ & Hlast). cbn [visit_path]. unfold curBlock. rewrite Hlast. cbn [mbind option_bind].
  rewrite (at_block_str i a _ Hat). cbn [mbind option_bind]. rewrite bool_decide_eq_false_2 by done. rewrite He, normal_indentation by done.
  unfold absent in Habs. destruct (first_indent key_char body) as [n|].
  - destruct Habs as [Hn Hno]. by eapply handle_absent.
  - by eapply handle_negative.
Qed.

Lemma insert_yields h body path t' :
  (∀ i, at_block i [] (unlines (h :: body)) → unresolvedPath i = path → resolvedPath i = [] → parentBlockIndentation i = Z.of_nat 0 →
     yields (visit_path path i) (length (@nil ascii)) (unlines (h :: body)) t') →
  insertLinesConditioned (unlines (h :: body)) path condition lines elseLines eol = Some t'.
Proof.
  intros Hy. destruct (Hy (newTraversingInfo (unlines (h :: body)) path eol)) as (ps & ins & Hps & Hc & Hi); [|done..|].
  - split_and!; [done|exists []; by rewrite app_nil_r|done].
  - unfold insertLinesConditioned, visitInsertionPlaces. change (unresolvedPath (newTraversingInfo _ path eol)) with path. rewrite Hps.
    cbn [mbind option_bind].
    rewrite Hc. cbn [mbind option_bind]. assert (shift_insertion (length (@nil ascii)) <$> ins = ins) as ->; [|done].
    rewrite <-(list_fmap_id ins) at 2. apply list_fmap_ext. by intros _ [] _.
Qed.

Lemma insert_at_path h body q missing pre target post k : (∀ i, condition i = Some true) → no_eol h → Forall plain_line body →
  plain_keys q → minusIndentationCharacter ∉ missing →
  reaches q 0 body pre target post k → path_absent missing target →
  insertLinesConditioned (unlines (h :: body)) (q ++ missing) condition lines elseLines eol =
    Some (unlines (h :: pre ++ inserted (length q) k target missing lines ++ target ++ post)).
Proof.
  intros Hcond Hh Hp Hq Hm Hr Habs. apply insert_yields. intros i Hat Hu Hres Hn.
  replace (pre ++ inserted (length q) k target missing lines ++ target ++ post)
    with (pre ++ (inserted (length q) k target missing lines ++ target) ++ post)
    by by rewrite <-app_assoc.
  eapply visit_reaches; [done..|]. intros child a' header Hca Hcu Hcr Hcn Hch Hcp.
  rewrite (visit_absent child a' header missing target) by done. rewrite Hres in Hcr. cbn in Hcr. rewrite <-Hcr, <-Hcu.
  refine (yields_place child a' header target k Hca Hch Hcp Hcn _ true (Hcond child)). by rewrite Hcu.
Qed.

(** *** Items of a mapping *)

(** The condition depends on the text of the item. *)
Context (choice : text → bool).
Context (choice_absent : ∀ i a t key, at_block i a t → unresolvedPath i = [key] → condition i = Some (choice t)).
Context (choice_found : ∀ i a t child, at_block i a t → below i child → unresolvedPath child = [] → condition child = Some (choice t)).

Definition item_lines (item : list text) : list text := if choice (unlines item) then lines else elseLines.

Definition item_pattern (m : nat) : list ReItem := replicate m (One (in_class spaceIndentationCharacter)) ++ [One dash_char].

Lemma match_item m l : plain_line l → match_at (item_pattern m) l = if decide (ends_block dash_char m l) then Some (m + 1) else None.
Proof.
  intros [_ [a Ha]]. unfold item_pattern. rewrite <-(app_nil_r l) at 1. rewrite (match_n_spaces dash_char m l a) by done. unfold ends_block, starts.
  destruct (decide (spaces l = m ∧ _)) as [[Hs Hy]|Hno]; rewrite Ha in *; cbn [from_option] in *.
  - by rewrite bool_decide_eq_true_2, Hy.
  - case_bool_decide; [|done]. destruct (dash_char a); [|done]. exfalso. by apply Hno.
Qed.

Lemma item_pattern_local m l : local eol (item_pattern m) l.
Proof.
  apply (local_ones eol Heol), Forall_app. split; [apply Forall_replicate|apply Forall_singleton]; (eexists; split; [done|]); intros a Ha;
    apply bool_decide_eq_false_2; set_solver.
Qed.

Lemma item_match m off dash rest ls : Forall plain_line (dash :: rest) → ends_block dash_char m dash → Forall (λ l, ¬ ends_block dash_char m l) rest →
  line_matches eol (item_pattern m) off ((dash :: rest) ++ ls) =
    (off, off + length eol + (m + 1)) :: line_matches eol (item_pattern m) (off + length (unlines (dash :: rest))) ls.
Proof.
  intros [Hpd Hpr]%Forall_cons Hd Hr. rewrite line_matches_app. cbn [line_matches]. rewrite match_item, decide_True by done.
  rewrite (line_matches_none _ _ rest); [done|]. apply Forall_forall. intros l Hl. rewrite Forall_forall in Hpr, Hr.
  by rewrite match_item, decide_False by auto.
Qed.

Lemma item_indentation h c dash ls : no_eol h → key_column c dash →
  computeChildIndentationForItemBlock (unlines (h :: dash :: ls)) eol = Z.of_nat c.
Proof.
  intros Hh (run & b & r & -> & Hc & Hrun & Hb). unfold computeChildIndentationForItemBlock, computeChildIndentation, item_child.
  assert (∀ rest, match_at [Many (in_class indentationCharacters); One key_char] ((run ++ b :: r) ++ rest) = Some (c + 1)) as Hm.
  { intros rest. rewrite <-app_assoc. cbn [app]. rewrite match_run, Hb, Hc; [done|..].
    - eapply Forall_impl; [exact Hrun|]. intros a Ha. split; [done|]. apply bool_decide_eq_false_2. intros Hn. apply Hn.
      apply bool_decide_eq_true in Ha. set_solver.
    - apply bool_decide_eq_false_2. apply bool_decide_eq_true in Hb. set_solver. }
  assert (match_at [Many (in_class indentationCharacters); One key_char] (run ++ b :: r) = Some (c + 1)) as Hm'.
  { by rewrite <-(app_nil_r (run ++ b :: r)), Hm. }
  pose proof (find_first eol Heol [Many (in_class indentationCharacters); One key_char] h [] (run ++ b :: r) ls (c + 1)) as Hf. cbn [app] in Hf.
  fold key_char. rewrite Hf; [|by constructor| |by constructor|done].
  - rewrite length_unlines_cons. f_equal. lia.
  - apply Forall_singleton. intros rest. by rewrite Hm, Hm'.
Qed.

(** The insertion into an item. *)
Lemma yields_item item a dash rest m c key count body' : at_block item a (unlines (dash :: rest)) → unresolvedPath item = [key] →
  length (resolvedPath item) = count + 1 → parentBlockIndentation item = Z.of_nat m → no_eol key → key ≠ [] → key ≠ minusIndentationCharacter →
  Forall plain_line (dash :: rest) → item_inserted item_lines m c count key (dash :: rest) body' →
  yields (handleBasicBlock (visit_path []) item (Z.of_nat c)) (length a) (unlines (dash :: rest)) (unlines body').
Proof.
  intros Hat Hu Hr Hn Hk Hne Hkey [Hpd Hp]%Forall_cons Hi. apply plain_no_eol in Hpd.
  inversion Hi as [? ? before header inner after Hblock|? ? Hc Hno]; subst; set (new := item_lines (dash :: rest)).
  - replace (unlines (dash :: before ++ header :: inserted (count + 2) c inner [] new ++ inner ++ after))
      with (unlines (dash :: before) ++ unlines (header :: inserted (count + 2) c inner [] new ++ inner) ++ unlines after)
      by (rewrite <-!unlines_app; f_equal; cbn; by rewrite <-!app_assoc).
    eapply handle_block; [done..|]. intros child Hca Hcu Hcr Hcn Hcb. destruct Hblock as [Hrest _ _ _ _ _].
    rewrite Hrest in Hp. apply Forall_app in Hp as [_ [Hph [Hpi _]%Forall_app]%Forall_cons]. cbn [visit_path].
    replace (count + 2) with (length (resolvedPath child)) by lia. rewrite <-Hcu.
    refine (yields_place child _ header inner c Hca _ Hpi Hcn _ _ (choice_found _ _ _ _ Hat Hcb Hcu));
      [by apply plain_no_eol|rewrite Hcu; set_solver].
  - rewrite (handle_absent _ item a dash c key [] rest) by done. rewrite <-Hr, <-Hu.
    refine (yields_place item a dash rest m Hat Hpd Hp Hn _ _ (choice_absent _ _ _ _ Hat Hu)). rewrite Hu. set_solver.
Qed.

(** The visit of one item. *)
Definition visit_item (i : traversingInfo) (cur : text) (m c : nat) (prefixIndexes : nat * nat) : option (list traversingInfo) :=
  b ← curBlock i;
  itemBlock ← computeItemBlockPosition cur prefixIndexes (Z.of_nat m) eol;
  item ← newDescending i (block_start b + block_start itemBlock) (block_start b + block_end itemBlock) (Z.of_nat m);
  handleBasicBlock (visit_path []) item (Z.of_nat c).

Lemma head_items m items : Forall (is_item m) items → from_option (ends_block dash_char m) True (head (concat items)).
Proof. destruct 1 as [|item items (dash & rest & -> & Hd & _) _]; [done|]. exact Hd. Qed.

Lemma visit_items_from i a h m c key count items items' : m ≤ 1000 → no_eol key → key ≠ [] → key ≠ minusIndentationCharacter → no_eol h →
  unresolvedPath i = [minusIndentationCharacter; key] → length (resolvedPath i) = count →
  Forall2 (item_inserted item_lines m c count key) items items' → Forall (is_item m) items → ∀ before,
  Forall plain_line (concat (before ++ items)) → at_block i a (unlines (h :: concat (before ++ items))) →
  yields (visit_each (visit_item i (unlines (h :: concat (before ++ items))) m c)
      (line_matches eol (item_pattern m) (length h + length (unlines (concat before))) (concat items)))
    (length a + length (unlines (h :: concat before))) (unlines (concat items)) (unlines (concat items')).
Proof.
  intros Hm Hk Hne Hkey Hh Hu Hcount HF Hitems. induction HF as [|item item' items items' Hi HF IH]; intros before Hp Hat.
  - apply yields_nil.
  - apply Forall_cons in Hitems as [(dash & rest & -> & Hd & Hrest) Hitems]. rewrite !concat_app in *. cbn [concat] in *.
    pose proof Hp as [_ [Hpi Hps]%Forall_app]%Forall_app. rewrite item_match by done. rewrite !unlines_app. apply yields_seq.
    + unfold visit_item. pose proof Hat as (He & _ & Hlast). unfold curBlock. rewrite Hlast. cbn [mbind option_bind block_start block_end].
      pose proof Hpi as [Hpd Hpr]%Forall_cons. unfold computeItemBlockPosition. change (lit minusIndentationCharacter) with [One dash_char].
      cbn [app] in Hat |- *. rewrite inner_position; [|done|done|by apply plain_no_eol|by apply Forall_app|done|by apply head_items].
      cbn [mbind option_bind block_start block_end].
      destruct (at_block_child i a h (concat before) dash rest (concat items) [key] minusIndentationCharacter Hat Hu (Z.of_nat m))
        as (child & -> & Hca & Hcu & Hcr & Hcn & _).
      cbn [mbind option_bind]. rewrite <-length_app. eapply yields_item; [done|done| |done..]. rewrite Hcr, Hcount. lia.
    + specialize (IH Hitems (before ++ [dash :: rest])). rewrite !concat_app in IH. cbn [concat] in IH.
      rewrite app_nil_r, <-app_assoc in IH. specialize (IH Hp Hat).
      rewrite (unlines_app eol (concat before) (dash :: rest)), length_app, Nat.add_assoc in IH.
      rewrite (app_comm_cons (concat before) (dash :: rest) h), (unlines_app eol (h :: concat before) (dash :: rest)), length_app,
        Nat.add_assoc in IH. exact IH.
Qed.

Lemma visit_items i a h m c key count dash rest items items' : m ≤ 1000 → no_eol key → key ≠ [] → key ≠ minusIndentationCharacter → no_eol h →
  at_block i a (unlines (h :: concat ((dash :: rest) :: items))) → unresolvedPath i = [minusIndentationCharacter; key] →
    length (resolvedPath i) = count →
  Forall plain_line (concat ((dash :: rest) :: items)) → key_column c dash → Forall (is_item m) ((dash :: rest) :: items) →
  Forall2 (item_inserted item_lines m c count key) ((dash :: rest) :: items) items' →
  yields (visit_path [minusIndentationCharacter; key] i) (length a) (unlines (h :: concat ((dash :: rest) :: items))) (unlines (h :: concat items')).
Proof.
  intros Hm Hk Hne Hkey Hh Hat Hu Hcount Hp Hc Hitems HF. set (body := concat ((dash :: rest) :: items)) in *.
  assert (first_indent dash_char body = Some m) as Hfm.
  { apply Forall_inv in Hitems as (? & ? & [= -> ->] & [Hs Hd] & _). unfold body, first_indent. cbn [concat app].
    rewrite filter_cons_True by done. cbn. by rewrite Hs. }
  pose proof Hat as (He & _ & Hlast).
  assert (visit_path [minusIndentationCharacter; key] i = visit_each (visit_item i (unlines (h :: body)) m c)
    (line_matches eol (item_pattern m) (length h) body)) as ->.
  { unfold visit_item. change (last (blocks i)) with (curBlock i) in Hlast. cbn [visit_path]. rewrite Hlast. cbn [mbind option_bind].
    rewrite (at_block_str i a _ Hat). cbn [mbind option_bind].
    rewrite bool_decide_eq_true_2 by done. rewrite He. unfold computeChildIndentationForMappingBlock, computeChildIndentation, mapping_child.
    pose proof (find_indentation eol Heol dash_char h body eq_refl Hh Hp) as Hf. rewrite Hfm in Hf. apply fmap_Some in Hf as ([x y] & Hf & Hxy).
    change (lit eol ++ [Many (in_class spaceIndentationCharacter)] ++ lit minusIndentationCharacter)
      with (lit eol ++ [Many (in_class spaceIndentationCharacter); One dash_char]).
    rewrite Hf. cbn [fst snd] in Hxy. rewrite <-Hxy, repeated_nat by done. cbn [mbind option_bind].
    change (replicate m (One (in_class spaceIndentationCharacter)) ++ lit minusIndentationCharacter) with (item_pattern m).
    assert (computeChildIndentationForItemBlock (unlines (h :: body)) eol = Z.of_nat c) as -> by by apply item_indentation.
    rewrite find_all_lines; [|done|by destruct m| |].
    - done.
    - constructor; [done|]. eapply Forall_impl; [exact Hp|apply plain_no_eol].
    - apply Forall_forall. intros l _. apply item_pattern_local. }
  pose proof (visit_items_from i a h m c key count _ _ Hm Hk Hne Hkey Hh Hu Hcount HF Hitems [] Hp Hat) as Hy.
  cbn [concat app] in Hy. change (length (unlines [])) with 0 in Hy. rewrite Nat.add_0_r in Hy.
  pose proof (yields_embed _ (length a) (unlines [h]) _ _ [] Hy) as Hy'. rewrite !app_nil_r, <-!unlines_app in Hy'. exact Hy'.
Qed.

Lemma insert_into_items h body q key pre dash rest items items' post k m c : no_eol h → Forall plain_line body → plain_keys q →
  no_eol key → key ≠ [] → key ≠ minusIndentationCharacter → m ≤ 1000 → reaches q 0 body pre (concat ((dash :: rest) :: items)) post k →
    key_column c dash →
  Forall (is_item m) ((dash :: rest) :: items) → Forall2 (item_inserted item_lines m c (length q) key) ((dash :: rest) :: items) items' →
  insertLinesConditioned (unlines (h :: body)) (q ++ [minusIndentationCharacter; key]) condition lines elseLines eol =
    Some (unlines (h :: pre ++ concat items' ++ post)).
Proof.
  intros Hh Hp Hq Hk Hne Hkey Hm Hr Hc Hitems HF. apply insert_yields. intros i Hat Hu Hres Hn.
  eapply visit_reaches; [done..|]. intros child a' header Hca Hcu Hcr Hcn Hch Hcp. rewrite Hres in Hcr. by eapply visit_items.
Qed.
End places.

(** ** The insertions of the tool *)

Lemma labels_path_plain : Forall (λ key, no_eol key ∧ key ≠ [] ∧ key ≠ minusIndentationCharacter) labels_path.
Proof. apply (bool_decide_unpack _). vm_compute. done. Qed.

(** C31. The label for LD_PRELOAD. Take a text of lines ended by one of the line
    ends of the tool, none of them blank behind the first one, which is never part of the
    path. Let the part [q] of the path [spec:], [template:], [metadata:], [labels:]
    lead to a block: each key stands, once in the block around it, at the
    indentation of the first line of that block (at most 1000 bytes). And let the
    next element not stand at the indentation of the block that is reached. Then
    the missing elements and the label are inserted as the first lines of that
    block, indented like its lines, or, when it has none, deeper than its header;
    every other line is unchanged. *)
Theorem labels_inserted (eol h : text) (body q missing pre target post : list text) (k : nat) :
  eol ∈ eols → no_eol h → Forall plain_line body → labels_path = q ++ missing →
  reaches q 0 body pre target post k → from_option (λ key, absent key target) True (head missing) →
  insertLDPreloadTrue (unlines eol (h :: body)) eol =
    Some (unlines eol (h :: pre ++ inserted (length q) k target missing preload_lines ++ target ++ post)).
Proof.
  intros Heol Hh Hp Hpath Hr Habs. unfold insertLDPreloadTrue, insertLines. rewrite Hpath.
  pose proof labels_path_plain as Hplain. rewrite Hpath in Hplain. apply Forall_app in Hplain as [Hq Hm].
  apply insert_at_path; [done..| | |done|].
  - eapply Forall_impl; [exact Hq|]. by intros key (? & ? & _).
  - intros Hin. rewrite Forall_forall in Hm. by destruct (Hm _ Hin) as (_ & _ & ?).
  - destruct missing as [|key missing]; [done|]. by apply Forall_cons in Hm as [(? & ? & ?) _].
Qed.

(** The lines for a container. *)
Definition scope_lines (params : injectParams) (eol : text) (item : list text) : list text :=
  if bool_decide (proxyName params = []) then global_lines
  else if bool_decide (is_Some (find (name_pattern (proxyName params) eol) (unlines eol item))) then proxy_lines
  else local_lines.

Definition containers_path : list text := str <$> ["spec:"; "template:"; "spec:"; "containers:"]%string.

Lemma containers_path_plain : plain_keys containers_path.
Proof. apply (bool_decide_unpack (plain_keys containers_path)). vm_compute. done. Qed.

Lemma eol_plain eol : eol ∈ eols → Forall plain_byte eol.
Proof.
  intros He. assert (Forall (Forall plain_byte) eols) as Hp
    by (apply (bool_decide_unpack (Forall (Forall (λ a, a ∉ str "\.+*?()|[]{}^$")) eols)); vm_compute; done).
  rewrite Forall_forall in Hp. by apply Hp.
Qed.

Lemma last_block eol i a t rest n : at_block eol i a t → n = (Z.of_nat (length (blocks i)) - 1)%Z →
  ∀ info, document info = document i → blocks info = blocks i ++ rest → blockStr info n = Some t.
Proof.
  intros (_ & [z Hz] & Hlast) -> info Hd Hb. rewrite last_lookup in Hlast. pose proof (lookup_lt_Some _ _ _ Hlast) as Hlt. unfold blockStr.
  destruct (Z.ltb_spec (Z.of_nat (length (blocks i)) - 1) 0); [lia|].
  replace (Z.to_nat (Z.of_nat (length (blocks i)) - 1)) with (pred (length (blocks i))) by lia.
  rewrite Hb, lookup_app_l, Hlast by lia. cbn [mbind option_bind block_start block_end]. rewrite Hd, Hz. apply slice_app.
Qed.

Section scope.
Context `{RegexpLaws} (eol : text) (Heol : eol ∈ eols) (name : text) (Hname : Forall plain_byte name).

Definition is_proxy (t : text) : bool := bool_decide (is_Some (find (name_pattern name eol) t)).

Lemma proxy_absent i a t key : at_block eol i a t → unresolvedPath i = [key] → isProxyContainer name i = Some (is_proxy t).
Proof.
  intros Hat Hu. unfold isProxyContainer. rewrite Hu. cbn [length Nat.ltb Nat.leb].
  rewrite (last_block eol i a t [] _ Hat) by (done || lia || by rewrite app_nil_r). cbn [mbind option_bind].
  destruct Hat as (-> & _). apply match_plain_name; [done|by apply eol_plain].
Qed.

Lemma proxy_found i a t child : at_block eol i a t → below i child → unresolvedPath child = [] → isProxyContainer name child = Some (is_proxy t).
Proof.
  intros Hat (Hd & He & b & Hb) Hu. unfold isProxyContainer. rewrite Hu. cbn [length Nat.ltb Nat.leb].
  rewrite (last_block eol i a t [b] _ Hat) by (done || (rewrite Hb, length_app; cbn [length]; lia)). cbn [mbind option_bind].
  destruct Hat as (Hi & _). rewrite He, Hi. apply match_plain_name; [done|by apply eol_plain].
Qed.
End scope.

(** C32. The environment variables. Take a text of lines ended by one of the line
    ends of the tool, none of them blank behind the first one, which is never part of the
    path. Let the path [spec:], [template:], [spec:], [containers:] lead to a list
    of items (each key of the path once in the block around it, at its indentation
    of at most 1000 bytes), the first key of the first item at column [c]. In
    every item the lines behind its first line have at most one [env:] at column
    [c]. Then the variables are inserted as the first ones of that [env:]; if there
    is none there, an [env:] with them is inserted behind the first line of the
    item, also when that first line itself is the [env:] of the container. With
    the name of a proxy (free of the special characters of regular expressions),
    every item that has the text [name: <proxy>] at the end of a line anywhere in
    it, as the regular expression of the tool asks, gets the variables of a proxy
    and the others those for the local scope; without one all get those for the
    global scope. The debug variables are inserted in the same places. Every other
    line is unchanged. *)
Theorem env_inserted `{RegexpLaws} (eol h : text) (body pre post : list text) (params : injectParams) (k m c : nat) (dash : text) (rest : list text)
    (items items1 items2 : list (list text)) :
  eol ∈ eols → no_eol h → Forall plain_line body → Forall plain_byte (proxyName params) →
  reaches containers_path 0 body pre (concat ((dash :: rest) :: items)) post k →
  m ≤ 1000 → key_column c dash → Forall (is_item m) ((dash :: rest) :: items) →
  Forall2 (item_inserted (scope_lines params eol) m c 4 (str "env:")) ((dash :: rest) :: items) items1 →
  Forall2 (item_inserted (λ _, debug_lines) m c 4 (str "env:")) ((dash :: rest) :: items) items2 →
  insertAppScope (unlines eol (h :: body)) eol params = Some (unlines eol (h :: pre ++ concat items1 ++ post)) ∧
  insertDebug (unlines eol (h :: body)) eol = Some (unlines eol (h :: pre ++ concat items2 ++ post)).
Proof.
  intros Heol Hh Hp Hname Hr Hm Hc Hitems H1 H2. assert (no_eol (str "env:")) as Hkey
    by (apply (bool_decide_unpack (no_eol (str "env:"))); vm_compute; done).
  pose proof (λ cond ls ls' choice Ha Hf is', insert_into_items eol Heol cond ls ls' choice Ha Hf h body containers_path (str "env:")
    pre dash rest items is' post k m c
    Hh Hp containers_path_plain Hkey ltac:(done) ltac:(done) Hm Hr Hc Hitems) as Hins.
  split.
  - unfold insertAppScope, scope_lines in *. case_bool_decide as Hn.
    + apply (Hins (λ _, Some true) global_lines [] (λ _, true)); [done|done|]. exact H1.
    + apply (Hins (isProxyContainer (proxyName params)) proxy_lines local_lines (is_proxy eol (proxyName params))); [| |exact H1].
      * intros i a t key. by apply proxy_absent.
      * intros i a t child. by apply proxy_found.
  - apply (Hins (λ _, Some true) debug_lines [] (λ _, true)); [done|done|]. exact H2.
Qed.
