(* ===== verification/InjectorExamples.v ===== *)
(** * The label injector on examples

    An instance of the patterns with a name, the instances of the theorems on a
    deployment, and texts on which the tool does not do what it means to. *)

From Stdlib Require Import ZArith Lia Ascii String.
From stdpp Require Import prelude strings list.
From S2P Require Import Prelude GoErrors GoNet Injector InjectorProofs InjectorLines InjectorPlaces.

(** ** Patterns *)

(** Patterns of bytes and repeated bytes; others are not compiled. *)
Fixpoint compile (p : text) : option (list ReItem) :=
  match p with
  | [] => Some []
  | a :: p =>
    if decide (a ∈ str "\.+*?()|[]{}^$") then None
    else
      match p with
      | "*"%char :: p => cons (Many (is_char a)) <$> compile p
      | _ => cons (One (is_char a)) <$> compile p
      end
  end.

#[local] Instance example_regexp : Regexp := λ p t, (λ re, bool_decide (is_Some (find re t))) <$> compile p.

Lemma compile_plain t p re : Forall plain_byte t → head p ≠ Some "*"%char → compile p = Some re → compile (t ++ p) = Some (lit t ++ re).
Proof.
  intros Ht Hp Hre. induction Ht as [|a t Ha Ht IH]; [done|]. rewrite lit_cons. cbn [app compile]. rewrite decide_False by exact Ha. rewrite IH.
  assert (head (t ++ p) ≠ Some "*"%char) as Hh.
  { destruct t as [|b t]; [done|]. apply Forall_cons in Ht as [Hb _]. cbn. intros [= ->]. apply Hb. apply (bool_decide_unpack _). vm_compute. done. }
  destruct (t ++ p) as [|b r]; [done|]. cbn in Hh. destruct (decide (b = "*"%char)) as [->|Hb]; [done|].
  destruct b as [[] [] [] [] [] [] [] []]; done.
Qed.

#[local] Instance example_regexp_laws : RegexpLaws.
Proof.
  intros name eol t Hname Heol. unfold MatchPattern, example_regexp.
  assert (compile (str "name: *" ++ name ++ str " *" ++ eol) = Some (name_pattern name eol)) as ->; [|done].
  assert (compile eol = Some (lit eol)) as He.
  { pose proof (compile_plain eol [] [] Heol) as Hc. rewrite !app_nil_r in Hc. by apply Hc. }
  assert (∀ p re, compile p = Some re → compile (str " *" ++ p) = Some (Many (is_char " ") :: re)) as Hs by (intros p re Hp; cbn; by rewrite Hp).
  assert (compile (name ++ str " *" ++ eol) = Some (lit name ++ Many (is_char " ") :: lit eol)) as Hn.
  { apply compile_plain; [done..|by apply Hs]. }
  change (str "name: *" ++ name ++ str " *" ++ eol) with (str "name:" ++ (str " *" ++ name ++ str " *" ++ eol)).
  apply (compile_plain (str "name:") _ (Many (is_char " ") :: lit name ++ Many (is_char " ") :: lit eol)); [|done|by apply Hs].
  apply (bool_decide_unpack (Forall (λ a, a ∉ str "\.+*?()|[]{}^$") (str "name:"))). vm_compute. done.
Qed.

(** ** A deployment *)

Definition lf : text := ["010"%char].
Definition lf_eol : lf ∈ eols.
Proof. apply (bool_decide_unpack _). vm_compute. done. Qed.

Definition ex_lines (ls : list string) : list text := str <$> ls.
Definition ex_before : list text := ex_lines ["kind: Deployment"; "metadata:"; "  name: nginx"]%string.
Definition ex_metadata : list text := ex_lines ["    metadata:"; "      labels:"; "        app: nginx"]%string.
Definition ex_nginx : list text := ex_lines ["      - name: nginx"; "        image: nginx"; "        env:"; "        - name: A";
  "          value: B"]%string.
Definition ex_proxy : list text := ex_lines ["      - name: proxy"; "        image: envoy"]%string.
Definition ex_spec : list text := ex_lines ["    spec:"; "      containers:"]%string ++ ex_nginx ++ ex_proxy.
Definition ex_body : list text := ex_before ++ ex_lines ["spec:"; "  replicas: 2"; "  template:"]%string ++ ex_metadata ++ ex_spec.
Definition ex_document : text := unlines lf (str "apiVersion: v1" :: ex_body).

Ltac evaluate := apply (bool_decide_unpack _); vm_compute; exact I.
Ltac in_block := split; [reflexivity|lia|evaluate..].

Lemma ex_plain : Forall plain_line ex_body.
Proof. unfold plain_line. evaluate. Qed.
Lemma ex_no_eol : no_eol (str "apiVersion: v1").
Proof. evaluate. Qed.

Lemma ex_spec_block : has_block 0 (str "spec:") ex_body ex_before (str "spec:") (drop 4 ex_body) [].
Proof. in_block. Qed.
Lemma ex_template_block : has_block 2 (str "template:") (drop 4 ex_body) (ex_lines ["  replicas: 2"]%string) (str "  template:")
  (ex_metadata ++ ex_spec) [].
Proof. in_block. Qed.
Lemma ex_metadata_block : has_block 4 (str "metadata:") (ex_metadata ++ ex_spec) [] (str "    metadata:") (drop 1 ex_metadata) ex_spec.
Proof. in_block. Qed.
Lemma ex_labels_block : has_block 6 (str "labels:") (drop 1 ex_metadata) [] (str "      labels:") (drop 2 ex_metadata) [].
Proof. in_block. Qed.

Definition ex_pre : list text := ex_before ++ ex_lines ["spec:"; "  replicas: 2"; "  template:"; "    metadata:"; "      labels:"]%string.

Lemma ex_reaches_labels : reaches labels_path 0 ex_body ex_pre (drop 2 ex_metadata) ex_spec 6.
Proof.
  refine (reaches_down _ _ 0 0 6 _ _ _ _ _ (drop 4 ex_pre) _ ex_spec _ _ ex_spec_block _); [done|reflexivity|].
  refine (reaches_down _ _ 0 2 6 _ _ _ _ _ (drop 6 ex_pre) _ ex_spec _ _ ex_template_block _); [done|reflexivity|].
  refine (reaches_down _ _ 2 4 6 _ _ _ _ _ (drop 7 ex_pre) _ [] _ _ ex_metadata_block _); [done|reflexivity|].
  refine (reaches_down _ _ 4 6 6 _ _ _ _ _ [] _ [] _ _ ex_labels_block _); [done|reflexivity|].
  apply reaches_here.
Qed.

Lemma labels_inserted_witness : insertLDPreloadTrue ex_document lf =
  Some (unlines lf (str "apiVersion: v1" :: ex_pre ++ inserted 4 6 (drop 2 ex_metadata) [] preload_lines ++ drop 2 ex_metadata ++ ex_spec)).
Proof.
  exact (labels_inserted lf (str "apiVersion: v1") ex_body labels_path [] ex_pre (drop 2 ex_metadata) ex_spec 6
    lf_eol ex_no_eol ex_plain eq_refl ex_reaches_labels I).
Defined.

Lemma ex_inner_spec_block : has_block 4 (str "spec:") (ex_metadata ++ ex_spec) ex_metadata (str "    spec:") (drop 1 ex_spec) [].
Proof. in_block. Qed.
Lemma ex_containers_block : has_block 6 (str "containers:") (drop 1 ex_spec) [] (str "      containers:") (drop 2 ex_spec) [].
Proof. in_block. Qed.

Definition ex_pre_containers : list text :=
  ex_before ++ ex_lines ["spec:"; "  replicas: 2"; "  template:"]%string ++ ex_metadata ++ ex_lines ["    spec:"; "      containers:"]%string.

Lemma ex_reaches_containers : reaches containers_path 0 ex_body ex_pre_containers (concat [ex_nginx; ex_proxy]) [] 6.
Proof.
  refine (reaches_down _ _ 0 0 6 _ _ _ _ _ (drop 4 ex_pre_containers) _ [] _ _ ex_spec_block _); [done|reflexivity|].
  refine (reaches_down _ _ 0 2 6 _ _ _ _ _ (drop 6 ex_pre_containers) _ [] _ _ ex_template_block _); [done|reflexivity|].
  refine (reaches_down _ _ 2 4 6 _ _ _ _ _ (drop 10 ex_pre_containers) _ [] _ _ ex_inner_spec_block _); [done|reflexivity|].
  refine (reaches_down _ _ 4 6 6 _ _ _ _ _ [] _ [] _ _ ex_containers_block _); [done|reflexivity|].
  apply reaches_here.
Qed.

Lemma ex_items : Forall (is_item 6) [ex_nginx; ex_proxy].
Proof. apply Forall_cons; split; [|apply Forall_singleton]; eexists _, _; (split; [reflexivity|]); split; evaluate. Qed.

Definition ex_env (new : list text → list text) : list (list text) :=
  [take 3 ex_nginx ++ inserted 6 8 (drop 3 ex_nginx) [] (new ex_nginx) ++ drop 3 ex_nginx;
   take 1 ex_proxy ++ inserted 5 6 (drop 1 ex_proxy) [str "env:"] (new ex_proxy) ++ drop 1 ex_proxy].

Lemma ex_env_block : has_block 8 (str "env:") (drop 1 ex_nginx) (ex_lines ["        image: nginx"]%string) (str "        env:") (drop 3 ex_nginx) [].
Proof. in_block. Qed.

Lemma ex_items_inserted new : Forall2 (item_inserted new 6 8 4 (str "env:")) [ex_nginx; ex_proxy] (ex_env new).
Proof.
  apply Forall2_cons; split; [|apply Forall2_cons; split; [|by constructor]].
  - exact (item_found new 6 8 4 (str "env:") (str "      - name: nginx") (drop 1 ex_nginx) _ _ _ _ ex_env_block).
  - refine (item_absent new 6 8 4 (str "env:") (str "      - name: proxy") (drop 1 ex_proxy) _ _); [lia|evaluate].
Qed.

Lemma ex_column : key_column 8 (str "      - name: nginx").
Proof. eexists (str "      - "), _, _. split_and!; [reflexivity|reflexivity|evaluate|reflexivity]. Qed.

Definition ex_params : injectParams := mkInjectParams true (str "proxy").
Lemma ex_name : Forall plain_byte (proxyName ex_params).
Proof. apply (bool_decide_unpack (Forall (λ a, a ∉ str "\.+*?()|[]{}^$") (str "proxy"))). vm_compute. done. Qed.

Lemma env_inserted_witness : insertAppScope ex_document lf ex_params =
  Some (unlines lf (str "apiVersion: v1" :: ex_pre_containers ++ concat (ex_env (scope_lines ex_params lf)) ++ [])).
Proof.
  exact (proj1 (env_inserted lf (str "apiVersion: v1") ex_body ex_pre_containers [] ex_params 6 6 8 (str "      - name: nginx")
    (drop 1 ex_nginx) [ex_proxy]
    (ex_env (scope_lines ex_params lf)) (ex_env (λ _, debug_lines)) lf_eol ex_no_eol ex_plain ex_name ex_reaches_containers ltac:(lia)
    ex_column ex_items
    (ex_items_inserted _) (ex_items_inserted _))).
Defined.

Definition ex_out : text := default [] (default None (inject ex_document ex_params)).
Lemma ex_injected : inject ex_document ex_params = Some (Some ex_out).
Proof. vm_compute. reflexivity. Qed.

Example ex_result : string_of_list_ascii ex_out = string_of_list_ascii (unlines lf (
  ex_lines ["apiVersion: v1"; "kind: Deployment"; "metadata:"; "  name: nginx"; "spec:"; "  replicas: 2"; "  template:"; "    metadata:";
    "      labels:"]%string ++
  (indent 8 <$> preload_lines) ++ ex_lines ["        app: nginx"; "    spec:"; "      containers:"; "      - name: nginx";
  "        image: nginx"; "        env:"]%string ++
  (indent 8 <$> debug_lines ++ local_lines) ++ ex_lines ["        - name: A"; "          value: B"; "      - name: proxy"; "        env:"]%string ++
  (indent 10 <$> debug_lines ++ proxy_lines) ++ ex_lines ["        image: envoy"]%string)).
Proof. vm_compute. reflexivity. Qed.

(** ** Deviations *)

Definition ex_inject (ls : list string) (last : string) : string :=
  string_of_list_ascii (default [] (default None (inject (unlines lf (ex_lines ls) ++ str last) (mkInjectParams false [])))).
Definition ex_text (ls : list text) (last : string) : string := string_of_list_ascii (unlines lf ls ++ str last).
Definition ex_head : list string := ["kind: Deployment"; "spec:"; "  template:"]%string.

(** A container whose first key is [env:] gets a second one. *)
Example env_first_duplicated :
  ex_inject (ex_head ++ ["    metadata:"; "      labels:"; "        app: web"; "    spec:"; "      containers:"; "      - env:";
    "        - name: A"; "        name: web"]%string) "" =
  ex_text (ex_lines (ex_head ++ ["    metadata:"; "      labels:"]%string) ++ (indent 8 <$> preload_lines) ++
    ex_lines ["        app: web"; "    spec:"; "      containers:"; "      - env:"; "        env:"]%string ++ (indent 10 <$> global_lines) ++
    ex_lines ["        - name: A"; "        name: web"]%string) "".
Proof. vm_compute. reflexivity. Qed.

(** A blank line behind a key hides the keys of its block: they are created a
    second time. *)
Example blank_line_duplicates :
  ex_inject ["kind: Deployment"; "spec:"; ""; "  template:"; "    metadata:"]%string "" =
  ex_text (ex_lines ["kind: Deployment"; "spec:"; "  template:"; "    metadata:"; "      labels:"]%string ++ (indent 8 <$> preload_lines) ++
    ex_lines [""; "  template:"; "    metadata:"]%string) "".
Proof. vm_compute. reflexivity. Qed.

(** Without an end of the last line the label is inserted before the key. *)
Example last_line_without_eol :
  ex_inject (ex_head ++ ["    metadata:"]%string) "      labels:" =
  ex_text (ex_lines (ex_head ++ ["    metadata:"]%string) ++ (indent 8 <$> preload_lines)) "      labels:".
Proof. vm_compute. reflexivity. Qed.

(** The labels of a pod, which has no template, are not those the container
    runtime looks at: a template is created in its spec. *)
Example pod_gets_template :
  ex_inject ["kind: Pod"; "metadata:"; "  labels:"; "    app: web"; "spec:"; "  restartPolicy: Always"]%string "" =
  ex_text (ex_lines ["kind: Pod"; "metadata:"; "  labels:"; "    app: web"; "spec:"; "  template:"; "    metadata:"; "      labels:"]%string ++
    (indent 8 <$> preload_lines) ++ ex_lines ["  restartPolicy: Always"]%string) "".
Proof. vm_compute. reflexivity. Qed.

(** A delimiter at the start of the input is lost. *)
Example first_delimiter_lost : ex_inject ["---"; "kind: Service"]%string "" = ex_text (ex_lines [""; "kind: Service"]%string) "".
Proof. vm_compute. reflexivity. Qed.
