(* ===== verification/InjectorMain.v ===== *)
(** * The command line of the label injector

    cmd/tools/ldpreload-label-injector/main.go: the flags, the input from a file or
    from the standard input, the output to a file or to the standard output. The
    operating system is a map of files and what it answers ([Os]); package flag is
    modelled as far as the flags of the tool need it. *)

From Stdlib Require Import ZArith Lia Ascii String.
From stdpp Require Import prelude strings list gmap.
From S2P Require Import Prelude GoErrors GoNet Injector InjectorProofs InjectorLines InjectorPlaces InjectorExamples.

(** ** Files *)

(** A regular file with its permission bits. *)
Record File := mkFile { file_content : text; file_mode : Z }.

Record World := mkWorld { files : gmap text File; stdout : text }.

(** Writing a file fails when it is opened, after [n] bytes, or not at all. *)
Inductive WriteOutcome := OpenFails | WriteFails (n : nat) | Written.

(** [os_stdin]: what is read from the standard input, if that succeeds.
    [os_printed]: how many bytes of a text the standard output takes, behind what
    was printed before. [os_stat_error]: the error of [os.Stat] for a file that
    exists, if there is one. *)
Record Os := mkOs {
  os_stdin : option text;
  os_unreadable : list text;
  os_write : text → WriteOutcome;
  os_umask : Z;
  os_printed : text → text → nat;
  os_stat_error : text → option text
}.

(** [fmt.Print]; its error is ignored. *)
Definition print (os : Os) (t : text) (w : World) : World :=
  mkWorld (files w) (stdout w ++ take (os_printed os (stdout w) t) t).

Definition ReadFile (os : Os) (w : World) (path : text) : option text :=
  if bool_decide (path ∈ os_unreadable os) then None else file_content <$> files w !! path.

(** [os.Stat]: the permissions or the text of the error. *)
Definition Stat (os : Os) (w : World) (path : text) : result text Z :=
  match files w !! path with
  | None => Err (concat [str "stat "; path; str ": no such file or directory"])
  | Some f => match os_stat_error os path with Some e => Err e | None => Ok (file_mode f) end
  end.

(** [ioutil.WriteFile]: an existing file is truncated and keeps its permissions;
    the result tells whether there is an error. *)
Definition WriteFile (os : Os) (path data : text) (perm : Z) (w : World) : World * bool :=
  let mode := match files w !! path with Some f => file_mode f | None => Z.land perm (Z.lnot (os_umask os)) end in
  match os_write os path with
  | OpenFails => (w, true)
  | WriteFails n => (mkWorld (<[path := mkFile (take n data) mode]> (files w)) (stdout w), true)
  | Written => (mkWorld (<[path := mkFile data mode]> (files w)) (stdout w), false)
  end.

(** ** Flags *)

Record Flags := mkFlags { inputFile : text; outputFile : text; help : bool; flag_useDebugLabel : bool; flag_proxyName : text }.

Definition defaultFlags : Flags := mkFlags [] [] false false [].

(** [strconv.ParseBool] *)
Definition ParseBool (t : text) : option bool :=
  if bool_decide (t ∈ str <$> ["1"; "t"; "T"; "TRUE"; "true"; "True"]%string) then Some true
  else if bool_decide (t ∈ str <$> ["0"; "f"; "F"; "FALSE"; "false"; "False"]%string) then Some false
  else None.

(** The value behind the first [=] that is not the first byte of the name. *)
Fixpoint split_value (t : text) : text * option text :=
  match t with
  | [] => ([], None)
  | "="%char :: t => ([], Some t)
  | c :: t => let '(name, value) := split_value t in (c :: name, value)
  end.

(** The flag of an argument, its name and value, if it is one: another argument
    ends the flags. [None] is bad syntax. *)
Definition flag_of (arg : text) : option (option (text * option text)) :=
  match arg with
  | "-"%char :: arg =>
    match arg with
    | [] | ["-"%char] => Some None
    | _ =>
      let name := match arg with "-"%char :: name => name | _ => arg end in
      match name with
      | [] | "-"%char :: _ | "="%char :: _ => None
      | c :: name => let '(name, value) := split_value name in Some (Some (c :: name, value))
      end
    end
  | _ => Some None
  end.

(** The flags the tool defines. *)
Inductive FlagKind := BoolFlag (set : bool → Flags → Flags) | StringFlag (set : text → Flags → Flags).

Definition formal (name : text) : option FlagKind :=
  if bool_decide (name = str "f") then Some (StringFlag (λ v fl, mkFlags v (outputFile fl) (help fl) (flag_useDebugLabel fl) (flag_proxyName fl)))
  else if bool_decide (name = str "o") then Some (StringFlag (λ v fl, mkFlags (inputFile fl) v (help fl) (flag_useDebugLabel fl) (flag_proxyName fl)))
  else if bool_decide (name = str "h") then Some (BoolFlag (λ v fl, mkFlags (inputFile fl) (outputFile fl) v (flag_useDebugLabel fl)
    (flag_proxyName fl)))
  else if bool_decide (name = str "d") then Some (BoolFlag (λ v fl, mkFlags (inputFile fl) (outputFile fl) (help fl) v (flag_proxyName fl)))
  else if bool_decide (name = str "p") then Some (StringFlag (λ v fl, mkFlags (inputFile fl) (outputFile fl) (help fl) (flag_useDebugLabel fl) v))
  else None.

(** [flag.Parse]; [None] prints the usage and ends the program. *)
Fixpoint Parse (args : list text) (fl : Flags) : option Flags :=
  match args with
  | [] => Some fl
  | arg :: args =>
    match flag_of arg with
    | None => None
    | Some None => Some fl
    | Some (Some (name, value)) =>
      match formal name, value, args with
      | None, _, _ => None
      | Some (BoolFlag set), None, _ => Parse args (set true fl)
      | Some (BoolFlag set), Some v, _ => match ParseBool v with Some b => Parse args (set b fl) | None => None end
      | Some (StringFlag set), Some v, _ => Parse args (set v fl)
      | Some (StringFlag set), None, v :: args => Parse args (set v fl)
      | Some (StringFlag set), None, [] => None
      end
    end
  end.

(** ** The tool *)

Definition newline : text := ["010"%char].
Definition dquote : text := ["034"%char].

Definition helpContent : text := concat [
  str "ldpreload-label-injector injects ldpreload labels to kubernetes yaml files."; newline;
  str "Usage:"; newline;
  str "  ldpreload-label-injector [input file]"; newline; newline;
  str "Flags:"; newline;
  str "  -f [input file | "; dquote; str "-"; dquote;
    str " ] Sets tool input. You can choose to set tool input from file or from standard input."; newline;
  str "  -o [output file]       Sets tool output to file. If this parameter is ommited, the tool output is standard (terminal/console) output"; newline;
  str "  -d                     Adds ldpreload debug label to yaml kubernetes files"; newline;
  str "  -p                     Sets the name of container that should be used as proxy. If not set, proxy is not used."; newline;
  str "  -h                     Prints this help"; newline].

Definition readInput (os : Os) (fl : Flags) (w : World) : option text :=
  if bool_decide (inputFile fl = []) then None
  else if bool_decide (inputFile fl = str "-") then os_stdin os
  else ReadFile os w (inputFile fl).

Definition defaultMode : Z := 420.

Definition fileMode (os : Os) (input : text) (w : World) : World * Z :=
  if bool_decide (input = [] ∨ input = str "-") then (w, defaultMode)
  else
    match Stat os w input with
    | Ok mode => (w, mode)
    | Err e =>
      (print os (concat [newline; str "  Can't detect file permissions for input file. Using permissions -rw-r--r-- for output file. Error: ";
         e; str " "; newline]) w, defaultMode)
    end.

Definition writeOutput (os : Os) (fl : Flags) (content : text) (w : World) : World * bool :=
  if bool_decide (outputFile fl = []) then (print os content w, false)
  else let '(w, mode) := fileMode os (inputFile fl) w in WriteFile os (outputFile fl) content mode w.

Inductive Exit := Finished | Usage | Panicked.

Definition params_of (fl : Flags) : injectParams := mkInjectParams (flag_useDebugLabel fl) (flag_proxyName fl).

Definition main `{Regexp} (os : Os) (args : list text) (w : World) : World * Exit :=
  match Parse args defaultFlags with
  | None => (w, Usage)
  | Some fl =>
    if help fl then (print os helpContent w, Finished)
    else
      match readInput os fl w with
      | None => (w, Panicked)
      | Some content =>
        match inject content (params_of fl) with
        | Some (Some injectedContent) =>
          let '(w, err) := writeOutput os fl injectedContent w in (w, if err then Panicked else Finished)
        | _ => (w, Panicked)
        end
      end
  end.

(** ** Correctness *)

(** The permissions of an output file that does not exist, before the umask. *)
Definition input_mode (os : Os) (fl : Flags) (w : World) : Z :=
  if bool_decide (inputFile fl = str "-") then defaultMode
  else match Stat os w (inputFile fl) with Ok mode => mode | Err _ => defaultMode end.

Definition output_mode (os : Os) (fl : Flags) (w : World) : Z :=
  match files w !! outputFile fl with
  | Some f => file_mode f
  | None => Z.land (input_mode os fl w) (Z.lnot (os_umask os))
  end.

(** The message about permissions that cannot be read. *)
Definition mode_notice (os : Os) (fl : Flags) (w : World) : World :=
  if bool_decide (inputFile fl = str "-") then w
  else match Stat os w (inputFile fl) with
       | Ok _ => w
       | Err e => print os (concat [newline;
           str "  Can't detect file permissions for input file. Using permissions -rw-r--r-- for output file. Error: "; e; str " "; newline]) w
       end.

(** What the tool leaves when it succeeds. *)
Definition written (os : Os) (fl : Flags) (out : text) (w w' : World) : Prop :=
  if bool_decide (outputFile fl = []) then w' = print os out w
  else w' = mkWorld (<[outputFile fl := mkFile out (output_mode os fl w)]> (files w)) (stdout (mode_notice os fl w)).

(** What it leaves when the output file cannot be written. *)
Definition not_written (os : Os) (fl : Flags) (out : text) (w w' : World) : Prop :=
  outputFile fl ≠ [] ∧ stdout w' = stdout (mode_notice os fl w) ∧
  match os_write os (outputFile fl) with
  | OpenFails => files w' = files w
  | WriteFails n => files w' = <[outputFile fl := mkFile (take n out) (output_mode os fl w)]> (files w)
  | Written => False
  end.

Lemma readInput_Some os fl w content : readInput os fl w = Some content → inputFile fl ≠ [].
Proof. unfold readInput. by case_bool_decide. Qed.

Lemma fileMode_notice os fl w : inputFile fl ≠ [] → fileMode os (inputFile fl) w = (mode_notice os fl w, input_mode os fl w).
Proof.
  intros Hn. unfold fileMode, mode_notice, input_mode. destruct (decide (inputFile fl = str "-")) as [Hd|Hd].
  - by rewrite !bool_decide_eq_true_2 by auto.
  - rewrite !bool_decide_eq_false_2 by naive_solver. by destruct (Stat os w (inputFile fl)).
Qed.

Lemma notice_files os fl w : files (mode_notice os fl w) = files w.
Proof. unfold mode_notice. case_bool_decide; [done|]. by destruct (Stat os w (inputFile fl)). Qed.

Lemma writeOutput_cases os fl content w : inputFile fl ≠ [] →
  let '(w', err) := writeOutput os fl content w in
  if err then not_written os fl content w w' else written os fl content w w'.
Proof.
  intros Hn. unfold writeOutput, written, not_written. destruct (decide (outputFile fl = [])) as [Ho|Ho].
  - by rewrite !bool_decide_eq_true_2 by done.
  - rewrite !bool_decide_eq_false_2 by done. rewrite fileMode_notice by done. unfold WriteFile, output_mode.
    rewrite notice_files. destruct (os_write os (outputFile fl)) as [|n|]; cbn [stdout files]; rewrite ?notice_files; done.
Qed.


(** ** Examples *)

#[local] Existing Instance example_regexp.

Definition ex_os : Os := mkOs None [] (λ _, Written) 18 (λ _ t, length t) (λ _, None).
Definition ex_in : text := str "in.yaml".
Definition ex_world : World := mkWorld {[ex_in := mkFile ex_document 432]} [].

(** [-d -p=proxy -f in.yaml -o out.yaml] *)
Example ex_tool : main ex_os (str <$> ["-d"; "-p=proxy"; "-f"; "in.yaml"; "-o"; "out.yaml"]%string) ex_world =
  (mkWorld {[ex_in := mkFile ex_document 432; str "out.yaml" := mkFile ex_out 416]} [], Finished).
Proof. vm_compute. reflexivity. Qed.

(** The help says that the input file is an argument; the tool wants [-f]. *)
Example positional_input_refused : main ex_os [ex_in] ex_world = (ex_world, Panicked).
Proof. vm_compute. reflexivity. Qed.

(** The permissions of the input cannot be read after it was: a message for the
    user goes to the standard output, a new file gets the default permissions. *)
Example stat_fails :
  let os := mkOs None [] (λ _, Written) 18 (λ _ t, length t) (λ _, Some (str "stat in.yaml: permission denied")) in
  let '(w, exit) := main os (str <$> ["-d"; "-p=proxy"; "-f"; "in.yaml"; "-o"; "out.yaml"]%string) ex_world in
  file_mode <$> files w !! str "out.yaml" = Some 420%Z ∧ stdout w ≠ [] ∧ exit = Finished.
Proof. vm_compute. done. Qed.
